(* ===== verification/_CoqProject ===== *)
-Q . S2P
Prelude.v
GoBytes.v
GoStrings.v
GoTime.v
GoNet.v
GoIO.v
GoBufio.v
GoIP.v
Datagram.v
PtyFrames.v
Ext.v
ExtModel.v
Pairing.v
Admission.v
RouteRecord.v
TokenFile.v
Wire.v
WebrtcStream.v
WebrtcFlow.v
TunnelConfig.v
ListenerLock.v
Daemon.v
Socks.v
Udp.v
Forwarding.v
Cli.v
P2PNode.v
DaemonStreams.v
Json.v
Signaling.v
NativePeer.v
Handshake.v
WebrtcListener.v
WebrtcLocks.v
Trackers.v
Connect.v
Client.v
Files.v
Identity.v
Commands.v
PtySession.v
PubSub.v
RunCommand.v
Paths.v
App.v
Service.v
ExecSession.v
NodeStart.v
Relay.v
SecretWindows.v
SoakBus.v
Soak.v
CliRun.v
PtyWindows.v
ServiceCommands.v
