(* ===== verification/Prelude.v ===== *)
(** * go-p2p-netcat: a verification library

    go-p2p-netcat is a netcat over libp2p: a listener offers a logical port (a raw stream, a
    shell, a command, a SOCKS server, a TCP or UDP forward), a client reaches it through relays,
    the DHT or native WebRTC, and both may share a pairing token that authenticates them.  A
    daemon runs many such tunnels from one configuration.

    This library translates the Go code under src/ into Rocq functions and proves what makes it
    correct.  Names are those of the source.  A function that returns [(value, error)] is a
    function into [result]; a method that mutates its receiver takes and returns the state;
    a [chan] or a condition variable becomes a step of a relation, and a call that would block
    returns [None].  Integers are [Z], kept at their width with [wrapU] and [wrapS] where they
    can overflow; byte slices are [list byte] and Go strings [string].  A map range is an arbitrary
    enumeration of the keys.

    ** Files

    Go itself:
    - Prelude: errors, the [result] type and the tactic [inv_ok] that inverts chains of guards,
      reachability of step relations ([reachable], [invariant]).
    - GoBytes: bytes, big-endian integers, hexadecimal, base64url with Go's strict decoder.
    - GoStrings: prefixes, [TrimSpace] over UTF-8, [itoa], [Atoi], [ParseUint], UTF-8 validity.
    - GoTime: [time.Time] with 64-bit wrap-around, [Sub], [Add], [Before].
    - GoNet, GoIP: [SplitHostPort], [JoinHostPort], [net.IP.String].
    - GoIO: [io.Reader], [io.Writer] and streams as classes with their documented laws;
      [io.ReadFull]; instances with short writes and arbitrary chunks.
    - GoBufio: [bufio.Reader] over such a stream.

    Libraries that are not in the repository:
    - Ext: libp2p peers, multiaddrs and keys, CBOR, SHA-256, HMAC, HKDF, AES-GCM, Argon2, CIDs, each a
      class of operations with a class of laws.
    - ExtModel: concrete instances that satisfy all the laws, with a real CBOR codec and toy
      primitives; every theorem about these classes is instantiated with them.

    The program, protocols:
    - Datagram: protocol/datagram/frames.go.
    - PtyFrames: protocol/pty/frames.go.
    - Pairing: protocol/pairing/pairing.go.
    - Admission: protocol/admission/admission.go, on top of Pairing.
    - RouteRecord: protocol/routerecord/routerecord.go.
    - TokenFile: protocol/tokenfile/tokenfile.go, on top of Pairing.

    Native WebRTC:
    - Wire: nativewebrtc/wire.go.
    - WebrtcStream: nativewebrtc/stream.go, each method as a function from a state to a state and the
      frames it sends.
    - WebrtcFlow: two such streams joined by transports that are lost and attached again, each an in-order
      channel.
    - Json: what signaling uses of encoding/json.
    - Signaling: nativewebrtc/signaling.go.
    - NativePeer, Handshake, WebrtcListener, Connect: nativewebrtc/endpoint.go (one transport and its
      link, the authenticated handshake of both sides, the listener, the client's connection).
    - WebrtcLocks: the mutexes of stream.go and endpoint.go, goroutine by goroutine.
    - Trackers: nativewebrtc/torrent.go and nativewebrtc/nostr.go.

    The daemon and the services:
    - TunnelConfig: internal/tunnelconfig/config.go.
    - ListenerLock: internal/listenerlock; a machine of processes with their lock tables and
      the flock state, and the interface [PortLocks] that a process relies on.
    - Daemon: internal/daemon (daemon.go, server.go, client.go), proved against [PortLocks]; stream handlers and
      local listeners with the tunnel they close over, and what the node was built from.
    - DaemonStreams: internal/daemon/token.go and the stream handler of a tunnel, joining
      Daemon with Admission.
    - RunCommand: internal/cli/run_command.go, the daemon of a file and its watcher.
    - Service: internal/service, the systemd unit and the Windows control handler.
    - ServiceCommands: the backends of internal/service as instances of a class, the calls made to the
      Windows service manager, and internal/cli/service_command.go.

    Sessions:
    - Socks: session.SOCKS of session/forwarding.go, on a buffered reader.
    - Udp: the local forwarder of session/udp.go and the supervising loops of session/session.go.
    - Forwarding: the copying goroutines of both, over packet sockets and byte streams,
      and the end of the local UDP forwarder, which cancels its associations ([local_forward_shutdown]).
    - PtySession: session/pty.go, both ends of an interactive session.
    - PtyWindows: session/pty_windows.go, the server's goroutines over a ConPTY and the polled window size.
    - ExecSession: [Exec] of session/session.go, with its pipes, its copiers and stream writes that fail.

    Nodes:
    - P2PNode: p2p/node.go, the construction of the libp2p host, and internal/cli/node_config.go.
    - PubSub: p2p/pubsub_discovery.go.
    - NodeStart: p2p/node.go, acquiring and releasing the parts of a node, with what is held and what is in the
      node's fields; advertising, dialing.
    - Relay: relay/relay.go and its command.

    The command line:
    - Cli: internal/cli/root.go: options, the pairing token, the listener's admission of streams,
      and the argument scan of internal/app.
    - Client: the client of internal/cli/root.go and the resolution of targets of p2p/node.go.
    - CliRun: the flags, [NewRoot], the whole of [runListener] and [runClient] as programs with deferred calls,
      and the opening of streams of p2p/node.go.
    - SecretWindows: internal/secretfile/permissions_windows.go.
    - Files: internal/cli/token_files.go over a file system with links and special files.
    - Identity: internal/identity and the command [id]; several processes at once.
    - Commands: the commands [token] and [token unlock].
    - Paths: internal/appdir over path/filepath.
    - App: internal/app, the entry point with its restart under torsocks.

    The stability tool:
    - SoakBus: the signaling bus in memory of cmd/webrtc-soak/main.go.
    - Soak: its arguments, scenarios, transfers, iterations and report.

    ** Theorems

    - Admission end to end: [Cli.listener_admission] and [DaemonStreams.tunnel_admission] say that
      a stream of a listener or tunnel with a token gets a session only after an authentic hello that was fresh
      at the clock its authentication read, and which listeners have no token; [Client.client_admission] is the client's side: it looks
      up, dials and accepts only the peer of its token.  [Admission.verify_hello_exact],
      [Admission.mac_input_injective] and [Admission.admission_handshake] are the protocol below,
      [Cli.one_shot_listener] and [Cli.load_token_agrees] the listener around it.
    - Native WebRTC: [Handshake.handshake_agreement] (the two ends agree on peers, service and session)
      and [Handshake.handshake_completes]; [Signaling.signal_open_sound];
      [WebrtcListener.listener_refines] (the machine of mutexes and goroutines implements an abstract
      listener), [WebrtcListener.listener_consistent], [WebrtcListener.listener_handshakes_bounded];
      [Connect.connect_race], [Connect.redial_terminates], [Connect.connection_supervised];
      [NativePeer.native_peer_no_silent_loss]; [Trackers.torrent_delivery],
      [Trackers.torrent_session_invariant]; [WebrtcLocks.reconnect_timeout_deadlock] shows a deadlock of the
      listener, [Connect.supervisor_blocked] the same of the client's supervisor.
    - Streams: [WebrtcStream.stream_invariant] for one end; [WebrtcFlow.stream_delivery],
      [WebrtcFlow.flow_control_no_overflow] and [WebrtcFlow.flow_control_no_lost_credit] (the last for a single
      transport) for two ends in every interleaving of calls, frames and reconnections: what a reconnection
      may lose, and how far it weakens flow control ([WebrtcFlow.reconnect_overflow]); [Client.open_any_stream_no_leak] for the race of two dialers.
    - Encodings: [Pairing.token_roundtrip], [Pairing.token_decode_canonical],
      [RouteRecord.payload_roundtrip], [RouteRecord.payload_canonical],
      [Datagram.datagram_stream_roundtrip], [PtyFrames.pty_frame_roundtrip]: what is written is read
      back, and only canonical input is accepted.
    - Cryptographic envelopes: [Pairing.seal_open_exact], [TokenFile.Decrypt_Encrypt],
      [TokenFile.decrypt_sound], [RouteRecord.sign_verify], [RouteRecord.verify_sound],
      [Wire.transcript_binding], [Wire.verify_auth_v2_exact], [Wire.sign_auth_verifies].
    - Sessions: [Socks.socks_exact], [Udp.udp_isolation] and [Forwarding.udp_end_to_end] (from the local
      socket to the target and back), [Forwarding.tcp_forward_reported], [PtySession.pty_keystrokes] (the escape
      filter, chunk by chunk, is the filter of the whole input), [PtySession.pty_shell_output],
      [ExecSession.exec_output], [PtyWindows.windows_output], [PtyWindows.resize_poll_changes].
    - The daemon: [Daemon.run_all_or_nothing], [Daemon.run_complete], [Daemon.reload_applies] (the tunnels with all their fields;
      the node is not rebuilt),
      [Daemon.failed_reload_revert], [Daemon.validated_session], [ListenerLock.listener_exclusion],
      [TunnelConfig.config_validate_exact], [RunCommand.watch_applies], [Service.install_uninstall],
      [Service.service_execute].
    - Nodes: [P2PNode.proxied_transports], [P2PNode.dial_order], [Daemon.relay_order],
      [Pairing.provider_cids_meet], [NodeStart.node_start] (a node that fails to start holds nothing),
      [NodeStart.rendezvous] (a client finds the listener of its token),
      [PubSub.pubsub_discovery], [Relay.relay_command].
    - Files and entry point: [Identity.identity_agreement] (processes that start together and
      return a key return the same), [SecretWindows.secret_files_private], [CliRun.cli_lifecycle] (what the root command acquires it
      gives back), [CliRun.client_meets_listener], [Commands.token_command_roundtrip], [Paths.resolve_path_spec], [App.tor_confined],
      [App.adjacent_config_order], [ServiceCommands.windows_install].
    - The stability tool: [SoakBus.soak_bus_delivery], [Soak.soak_exit] (the exit code is the verdict),
      [Soak.transfer_verified], [Soak.iteration_outcome].
    - Behaviours that surprise, each with a run that shows it: [Identity.identity_start_race],
      [Identity.identity_dangling_link], [PtySession.pty_quit_discards],
      [RunCommand.watch_missed_edit], [Service.install_leaves_unit],
      [Identity.IdentityWitness.identity_removed], [ExecSession.exec_output_lost], [ExecSession.exec_output_gap],
      [NodeStart.dial_context_leak], [PtyWindows.windows_output_lost],
      [SecretWindows.creator_owner_accepted], [CliRun.scan_long_names].

    ** Bounds

    Loops that are not structural carry a bound that cannot be the reason to stop.  The write loops
    take the length of the value, since an accepted write that is not empty shortens it
    ([Datagram.writeAll_loop_fuel]); [ReadFull] takes one more than [r_fuel], which every read without
    an error decreases ([ReadFull_spec] shows it always returns); [TrimSpace], the UTF-8 check, the JSON
    scanner and the decoder of discovery records take the length of their input.  [readSOCKS4Field]
    recurs on the room that is left and [bufio]'s [fill] on its hundred tries.  A client dials again
    at most 160 times, since every failure is followed by a pause of 750 ms within 120 s: 161 rounds
    are enough ([Connect.redial_terminates]).  The loops of an interactive session need more
    rounds than there are bytes, and the parser of IPv6 addresses nine, as it reads two bytes a round of
    at most sixteen.  The chunked write of the stability tool takes the length of the payload
    ([Soak.write_chunks_complete]).

    ** Not modelled

    Goroutine scheduling is modelled only where a step relation says so; timers appear as outcomes
    (a handshake in time, an idle timer that fires), deadlines on streams not at all, and log
    messages are dropped.  The libp2p host, pion's WebRTC, the WebSockets and relays of the signaling
    services, the YAML library and the terminal are outside and enter as arguments or classes.
    Left out are the lock file of Windows (two system calls); how cobra and pflag parse a command line, which is not
    part of the sources; the system calls that bind the sockets of TCP and UDP forwarding (their outcomes are
    arguments); the JSON file of the stability tool; help texts, messages and the printed
    node information; and the main packages.  Replay of an admission hello inside its time window is
    not excluded by the code and no theorem says so. *)
From stdpp Require Export base option list list_numbers strings gmap sorting pretty.
From Stdlib Require Export ZArith Lia.

Set Default Proof Using "Type".

(** ** Go errors *)

(** An argument of a [fmt.Errorf] call, kept unrendered. *)
Inductive arg :=
  | AInt (z : Z)
  | AStr (s : string).

(** The errors the program builds and inspects.  Sentinels of the standard
    library are constructors; [errors.New] and [fmt.Errorf] keep the format
    string and the arguments, and the error wrapped by [%w]. *)
Inductive error :=
  | EOF | ErrUnexpectedEOF | ErrShortWrite | ErrClosedPipe
  | ErrCanceled | ErrDeadlineExceeded | ErrNetClosed | ErrNotExist | ErrExist | EIO
  | ErrNew (msg : string)
  | Errorf (format : string) (args : list arg)
  | Wrapf (format : string) (args : list arg) (cause : error)
  | ErrJoin (left right : error)
  | ErrExternal (code : Z).

(** Go's [(value, error)] pairs where exactly one of the two is meaningful. *)
Inductive result (A : Type) :=
  | Ok (a : A)
  | Err (e : error).
Arguments Ok {_} _.
Arguments Err {_} _.

#[export] Instance result_ret : MRet result := fun _ a => Ok a.
#[export] Instance result_bind : MBind result := fun _ _ f m =>
  match m with Ok a => f a | Err e => Err e end.
#[export] Instance result_fmap : FMap result := fun _ _ f m =>
  match m with Ok a => Ok (f a) | Err e => Err e end.

Definition is_ok {A} (r : result A) : bool :=
  match r with Ok _ => true | Err _ => false end.
Definition of_option {A} (e : error) (o : option A) : result A :=
  match o with Some a => Ok a | None => Err e end.
Definition map_err {A} (f : error -> error) (r : result A) : result A :=
  match r with Ok a => Ok a | Err e => Err (f e) end.
Definition to_option {A} (r : result A) : option A :=
  match r with Ok a => Some a | Err _ => None end.
(** A guard: [if cond { return err }]. *)
Definition refuse (cond : bool) (e : error) : result unit :=
  if cond then Err e else Ok tt.

#[export] Instance arg_eq_dec : EqDecision arg.
Proof. solve_decision. Defined.
#[export] Instance error_eq_dec : EqDecision error.
Proof. solve_decision. Defined.

(** [errors.Is]: the error itself or one it wraps. *)
Fixpoint errors_Is (e target : error) : bool :=
  bool_decide (e = target) ||
  match e with
  | Wrapf _ _ cause => errors_Is cause target
  | ErrJoin l r => errors_Is l target || errors_Is r target
  | _ => false
  end.

(** [errors.Join] of two possibly nil errors. *)
Definition errors_Join (a b : option error) : option error :=
  match a, b with
  | Some x, Some y => Some (ErrJoin x y)
  | Some x, None | None, Some x => Some x
  | None, None => None
  end.

(** ** Automation *)

Create HintDb netcat.

Lemma bind_Ok {A B} (m : result A) (f : A -> result B) b :
  m ≫= f = Ok b <-> exists a, m = Ok a /\ f a = Ok b.
Proof. destruct m; simpl; naive_solver. Qed.

Lemma refuse_Ok c e u : refuse c e = Ok u <-> c = false.
Proof. destruct c, u; simpl; naive_solver. Qed.

Lemma map_err_Ok {A} f (r : result A) a : map_err f r = Ok a <-> r = Ok a.
Proof. destruct r; simpl; naive_solver. Qed.

Lemma of_option_Ok {A} e (o : option A) a : of_option e o = Ok a <-> o = Some a.
Proof. destruct o; simpl; naive_solver. Qed.

(** Guards: the value of the first computation is dropped. *)
Lemma seq_Ok {A B} (m : result A) (k : result B) b :
  (m ≫= fun _ => k) = Ok b <-> is_ok m = true /\ k = Ok b.
Proof. destruct m; simpl; naive_solver. Qed.

Lemma is_ok_refuse c e : is_ok (refuse c e) = true <-> c = false.
Proof. by destruct c. Qed.

Lemma is_ok_map_err {A} f (r : result A) : is_ok (map_err f r) = is_ok r.
Proof. by destruct r. Qed.

Lemma is_ok_unit (r : result unit) : is_ok r = true <-> r = Ok tt.
Proof. destruct r as [[]|]; simpl; naive_solver. Qed.

(** Inverts a successful chain of guards and binds. *)
Ltac inv_ok :=
  repeat match goal with
  | H : (_ ≫= _) = Ok _ |- _ => apply bind_Ok in H as (? & ? & H)
  | H : refuse _ _ = Ok _ |- _ => apply refuse_Ok in H
  | H : map_err _ _ = Ok _ |- _ => apply map_err_Ok in H
  | H : of_option _ _ = Ok _ |- _ => apply of_option_Ok in H
  | H : Ok _ = Ok _ |- _ => injection H as H; subst
  | H : Err _ = Ok _ |- _ => discriminate H
  end.

Lemma and_iff_compat_l' (P Q R : Prop) : (P -> Q <-> R) -> P /\ Q <-> P /\ R.
Proof. tauto. Qed.

(** ** Reachability *)

Section reach.
Context {S : Type} (init : S -> Prop) (step : S -> S -> Prop).

Inductive reachable : S -> Prop :=
  | reach_init s : init s -> reachable s
  | reach_step s s' : reachable s -> step s s' -> reachable s'.

(** The induction principle for invariants. *)
Lemma invariant (I : S -> Prop) :
  (forall s, init s -> I s) ->
  (forall s s', reachable s -> I s -> step s s' -> I s') ->
  forall s, reachable s -> I s.
Proof. intros Hi Hs s H. induction H; eauto. Qed.
End reach.
