(* ===== verification/GoBytes.v ===== *)
(** Bytes, fixed-width integers and byte-level encodings of the Go standard
    library that the program uses: [encoding/binary] big-endian accessors,
    slicing, and the conversions between [string] and [[]byte].

    A Go byte is Rocq's [byte]; a w-bit unsigned integer is a [Z] in
    [0, 2^w) and the conversion [uintW(x)] is [wrapU w x]. *)
From Stdlib Require Export Strings.Byte.
From Stdlib Require Import Strings.String.
From S2P Require Export Prelude.
Local Open Scope Z_scope.

(** ** Fixed-width conversions *)

Definition wrapU (w z : Z) : Z := z mod 2 ^ w.
Definition wrapS (w z : Z) : Z := (z + 2 ^ (w - 1)) mod 2 ^ w - 2 ^ (w - 1).

Definition is_uint (w z : Z) : Prop := 0 <= z < 2 ^ w.

Lemma wrapU_range w z : 0 <= w -> is_uint w (wrapU w z).
Proof. intros; apply Z.mod_pos_bound, Z.pow_pos_nonneg; lia. Qed.

Lemma wrapU_small w z : is_uint w z -> wrapU w z = z.
Proof. apply Z.mod_small. Qed.

Lemma wrapS_small w z :
  0 < w -> - 2 ^ (w - 1) <= z < 2 ^ (w - 1) -> wrapS w z = z.
Proof.
  intros Hw Hz; unfold wrapS.
  assert (2 ^ w = 2 * 2 ^ (w - 1)) as E
    by (rewrite <- Z.pow_succ_r by lia; f_equal; lia).
  rewrite Z.mod_small; lia.
Qed.

(** ** Bytes *)

#[export] Instance byte_eq_dec : EqDecision byte := Byte.byte_eq_dec.

Definition byte_Z (b : byte) : Z := Z.of_N (Byte.to_N b).

(** The conversion [byte(z)]. *)
Definition Z_byte (z : Z) : byte :=
  match Byte.of_N (Z.to_N (z mod 256)) with Some b => b | None => x00 end.

Lemma byte_Z_range b : 0 <= byte_Z b < 256.
Proof. unfold byte_Z. pose proof (Byte.to_N_bounded b). lia. Qed.

Lemma byte_Z_byte z : byte_Z (Z_byte z) = z mod 256.
Proof.
  unfold byte_Z, Z_byte.
  pose proof (Z.mod_pos_bound z 256 ltac:(lia)) as Hb.
  destruct (Byte.of_N (Z.to_N (z mod 256))) as [b|] eqn:E.
  - apply Byte.to_of_N in E. rewrite E. lia.
  - apply Byte.of_N_None_iff in E. lia.
Qed.

Lemma Z_byte_Z b : Z_byte (byte_Z b) = b.
Proof.
  unfold Z_byte, byte_Z. pose proof (Byte.to_N_bounded b).
  rewrite Z.mod_small, N2Z.id, Byte.of_to_N by lia. done.
Qed.

#[export] Instance byte_Z_inj : Inj (=) (=) byte_Z.
Proof. intros a b E. rewrite <- (Z_byte_Z a), E. apply Z_byte_Z. Qed.

#[export] Instance byte_countable : Countable byte :=
  inj_countable' byte_Z Z_byte Z_byte_Z.

(** ** Strings and byte slices *)

(** [[]byte(s)] and [string(b)]. *)
Definition bytes_of (s : string) : list byte := String.list_byte_of_string s.
Definition string_of (l : list byte) : string := String.string_of_list_byte l.

Lemma string_of_bytes_of s : string_of (bytes_of s) = s.
Proof. apply String.string_of_list_byte_of_string. Qed.
Lemma bytes_of_string_of l : bytes_of (string_of l) = l.
Proof. apply String.list_byte_of_string_of_list_byte. Qed.

#[export] Instance bytes_of_inj : Inj (=) (=) bytes_of.
Proof. intros a b E. rewrite <- (string_of_bytes_of a), E. apply string_of_bytes_of. Qed.
#[export] Instance string_of_inj : Inj (=) (=) string_of.
Proof. intros a b E. rewrite <- (bytes_of_string_of a), E. apply bytes_of_string_of. Qed.

Lemma bytes_of_cons c s : bytes_of (String c s) = Ascii.byte_of_ascii c :: bytes_of s.
Proof. done. Qed.

Lemma bytes_of_app s t : bytes_of (s +:+ t) = bytes_of s ++ bytes_of t.
Proof.
  induction s as [|c s IH]; [done|].
  change (String c s +:+ t) with (String c (s +:+ t)).
  by rewrite !bytes_of_cons, IH.
Qed.

Lemma string_of_app a b : string_of (a ++ b) = string_of a +:+ string_of b.
Proof. apply (inj bytes_of). by rewrite bytes_of_app, !bytes_of_string_of. Qed.

(** [len(s)] of a Go string is its length in bytes. *)
Definition slen (s : string) : Z := Z.of_nat (length (bytes_of s)).
Definition blen (l : list byte) : Z := Z.of_nat (length l).

Lemma slen_app s t : slen (s +:+ t) = slen s + slen t.
Proof. unfold slen. rewrite bytes_of_app, length_app. lia. Qed.
Lemma blen_app (a b : list byte) : blen (a ++ b) = blen a + blen b.
Proof. unfold blen. rewrite length_app. lia. Qed.
Lemma blen_nonneg l : 0 <= blen l.
Proof. unfold blen. lia. Qed.
Lemma slen_nonneg l : 0 <= slen l.
Proof. unfold slen. lia. Qed.
Lemma slen_string_of l : slen (string_of l) = blen l.
Proof. unfold slen. by rewrite bytes_of_string_of. Qed.
Lemma blen_bytes_of s : blen (bytes_of s) = slen s.
Proof. done. Qed.

(** The slice expression [b[lo:hi]] for [lo <= hi <= len(b)]. *)
Definition slice (l : list byte) (lo hi : nat) : list byte := take (hi - lo) (drop lo l).

Lemma length_slice l lo hi :
  (lo <= hi <= length l)%nat -> length (slice l lo hi) = (hi - lo)%nat.
Proof. intros. unfold slice. rewrite length_take, length_drop. lia. Qed.

(** Splitting a list of known length. *)
Lemma take_drop_slice (l : list byte) lo hi :
  (lo <= hi)%nat -> drop lo l = slice l lo hi ++ drop hi l.
Proof.
  intros H. unfold slice. rewrite <- (take_drop (hi - lo) (drop lo l)) at 1.
  rewrite drop_drop. do 2 f_equal. lia.
Qed.

Lemma slice_app (a b c : list byte) lo hi :
  lo = length a -> hi = (length a + length b)%nat -> slice (a ++ b ++ c) lo hi = b.
Proof.
  intros -> ->. unfold slice. rewrite drop_app_length.
  replace (length a + length b - length a)%nat with (length b) by lia. apply take_app_length.
Qed.

Lemma slice_cat (l : list byte) a b c :
  (a <= b <= c)%nat -> slice l a c = slice l a b ++ slice l b c.
Proof.
  intros. unfold slice. replace (drop b l) with (drop (b - a) (drop a l))
    by (rewrite drop_drop; f_equal; lia).
  replace (c - a)%nat with ((b - a) + (c - b))%nat by lia.
  by rewrite <- take_take_drop.
Qed.

Lemma slice_all (l : list byte) n : length l = n -> slice l 0 n = l.
Proof. intros <-. unfold slice. rewrite drop_0, Nat.sub_0_r. by apply take_ge. Qed.

Lemma slice_one (l : list byte) k : (k < length l)%nat -> slice l k (S k) = [nth k l x00].
Proof.
  intros Hk. unfold slice. replace (S k - k)%nat with 1%nat by lia.
  revert k Hk; induction l as [|b l IH]; intros k Hk; [simpl in Hk; lia|].
  destruct k as [|k]; [by rewrite drop_0|]. apply IH. simpl in Hk. lia.
Qed.

Lemma nth_app_cons (a c : list byte) b k : k = length a -> nth k (a ++ b :: c) x00 = b.
Proof. intros ->. by rewrite nth_middle. Qed.

(** ** Big-endian integers *)

(** [binary.BigEndian.PutUintW] for [n = W/8] bytes. *)
Fixpoint put_be (n : nat) (v : Z) : list byte :=
  match n with
  | O => []
  | S n' => Z_byte (Z.shiftr v (8 * Z.of_nat n')) :: put_be n' v
  end.

(** [binary.BigEndian.UintW]: the bytes are or-ed together, most significant first. *)
Definition get_be (l : list byte) : Z :=
  foldl (fun acc b => Z.lor (Z.shiftl acc 8) (byte_Z b)) 0 l.

Lemma length_put_be n v : length (put_be n v) = n.
Proof. induction n; simpl; congruence. Qed.

Lemma lor_shiftl8 acc b : Z.lor (Z.shiftl acc 8) (byte_Z b) = acc * 256 + byte_Z b.
Proof.
  pose proof (byte_Z_range b).
  pose proof (Z.add_lor_land (Z.shiftl acc 8) (byte_Z b)) as E.
  rewrite Z.shiftl_mul_pow2 in * by lia.
  enough (Z.land (acc * 2 ^ 8) (byte_Z b) = 0) by lia.
  apply Z.bits_inj_0. intros n. rewrite Z.land_spec.
  destruct (Z.ltb_spec n 8).
  - rewrite Z.mul_pow2_bits_low by lia. done.
  - assert (2 ^ 8 <= 2 ^ n) by (apply Z.pow_le_mono_r; lia).
    rewrite (Z.testbit_eqb (byte_Z b)), Z.div_small by lia. apply andb_false_r.
Qed.

Lemma get_be_snoc l b : get_be (l ++ [b]) = get_be l * 256 + byte_Z b.
Proof. unfold get_be. rewrite foldl_app. simpl. apply lor_shiftl8. Qed.

Lemma get_be_acc l acc :
  foldl (fun acc b => Z.lor (Z.shiftl acc 8) (byte_Z b)) acc l
  = acc * 256 ^ Z.of_nat (length l) + get_be l.
Proof.
  revert acc; induction l as [|b l IH] using rev_ind; intros acc.
  - unfold get_be; simpl; lia.
  - rewrite get_be_snoc, foldl_app; simpl.
    rewrite lor_shiftl8, IH, length_app; simpl.
    replace (Z.of_nat (length l + 1)) with (Z.succ (Z.of_nat (length l))) by lia.
    rewrite Z.pow_succ_r by lia. lia.
Qed.

Lemma get_be_cons b l :
  get_be (b :: l) = byte_Z b * 256 ^ Z.of_nat (length l) + get_be l.
Proof. unfold get_be at 1; simpl. rewrite get_be_acc. done. Qed.

Lemma get_be_range l : 0 <= get_be l < 256 ^ Z.of_nat (length l).
Proof.
  induction l as [|b l IH] using rev_ind; [unfold get_be; simpl; lia|].
  rewrite get_be_snoc, length_app; simpl. pose proof (byte_Z_range b).
  replace (Z.of_nat (length l + 1)) with (Z.succ (Z.of_nat (length l))) by lia.
  rewrite Z.pow_succ_r; lia.
Qed.

Lemma get_put_be n v : get_be (put_be n v) = v mod 256 ^ Z.of_nat n.
Proof.
  induction n as [|n IH]; simpl put_be.
  - unfold get_be; simpl. rewrite Z.mod_1_r. done.
  - rewrite get_be_cons, IH, length_put_be, byte_Z_byte.
    rewrite Z.shiftr_div_pow2 by lia.
    replace (2 ^ (8 * Z.of_nat n)) with (256 ^ Z.of_nat n)
      by (change 256 with (2 ^ 8); rewrite <- Z.pow_mul_r by lia; done).
    rewrite Nat2Z.inj_succ, Z.pow_succ_r, (Z.mul_comm 256) by lia.
    rewrite Z.rem_mul_r by lia. lia.
Qed.

Lemma put_get_be l : put_be (length l) (get_be l) = l.
Proof.
  assert (forall k, put_be (length l) (k * 256 ^ Z.of_nat (length l) + get_be l) = l) as G.
  { induction l as [|b l IH]; intros k; [done|]. simpl.
    rewrite get_be_cons, Nat2Z.inj_succ, Z.pow_succ_r by lia. f_equal.
    - apply (inj byte_Z). rewrite byte_Z_byte, Z.shiftr_div_pow2 by lia.
      replace (2 ^ (8 * Z.of_nat (length l))) with (256 ^ Z.of_nat (length l))
        by (change 256 with (2 ^ 8); rewrite <- Z.pow_mul_r by lia; done).
      pose proof (get_be_range l). pose proof (byte_Z_range b).
      assert (0 < 256 ^ Z.of_nat (length l)) by (apply Z.pow_pos_nonneg; lia).
      replace (k * (256 * 256 ^ Z.of_nat (length l))
               + (byte_Z b * 256 ^ Z.of_nat (length l) + get_be l))
        with ((k * 256 + byte_Z b) * 256 ^ Z.of_nat (length l) + get_be l) by lia.
      rewrite Z.div_add_l, (Z.div_small (get_be l)), Z.add_0_r by lia.
      rewrite Z.add_comm, Z.mod_add, Z.mod_small by lia. done.
    - etransitivity; [|apply (IH (k * 256 + byte_Z b))]. f_equal. lia. }
  etransitivity; [|apply (G 0)]. f_equal.
Qed.

Lemma put_be_inj n v w :
  0 <= v < 256 ^ Z.of_nat n -> 0 <= w < 256 ^ Z.of_nat n ->
  put_be n v = put_be n w -> v = w.
Proof.
  intros Hv Hw E. apply (f_equal get_be) in E.
  rewrite !get_put_be, !Z.mod_small in E; done.
Qed.

(** ** Hexadecimal and base64url *)

(** [hex.EncodeToString]. *)
Definition hex_digit (z : Z) : byte := Z_byte (if z <? 10 then 48 + z else 87 + z).
Definition hex_encode (l : list byte) : string :=
  string_of (l ≫= (fun b => [hex_digit (byte_Z b / 16); hex_digit (byte_Z b mod 16)])).

Lemma slen_hex_encode l : slen (hex_encode l) = 2 * blen l.
Proof.
  unfold hex_encode. rewrite slen_string_of. unfold blen.
  induction l as [|b l IH]; [done|]. rewrite bind_cons, length_app. simpl length. lia.
Qed.

(** [base64.RawURLEncoding]: the URL alphabet without padding. *)
Definition b64_char (z : Z) : byte :=
  Z_byte (if z <? 26 then 65 + z else if z <? 52 then 71 + z
          else if z <? 62 then z - 4 else if z =? 62 then 45 else 95).
Definition b64_value (b : byte) : option Z :=
  let z := byte_Z b in
  if (65 <=? z) && (z <=? 90) then Some (z - 65)
  else if (97 <=? z) && (z <=? 122) then Some (z - 71)
  else if (48 <=? z) && (z <=? 57) then Some (z + 4)
  else if z =? 45 then Some 62 else if z =? 95 then Some 63 else None.

(** The [k]-th sextet of a 24-bit quantum, [(val >> shift) & 0x3f]. *)
Definition sextet (val shift : Z) : byte := b64_char (Z.shiftr val shift mod 64).

Fixpoint b64_encode (l : list byte) : list byte :=
  match l with
  | a :: b :: c :: r =>
      let v := byte_Z a * 65536 + byte_Z b * 256 + byte_Z c in
      sextet v 18 :: sextet v 12 :: sextet v 6 :: sextet v 0 :: b64_encode r
  | [a; b] =>
      let v := byte_Z a * 65536 + byte_Z b * 256 in
      [sextet v 18; sextet v 12; sextet v 6]
  | [a] => let v := byte_Z a * 65536 in [sextet v 18; sextet v 12]
  | [] => []
  end.

(** The strict decoder: a final partial quantum must have zero trailing bits. *)
Fixpoint b64_decode (l : list byte) : option (list byte) :=
  match l with
  | [] => Some []
  | [_] => None
  | [p; q] =>
      p ← b64_value p; q ← b64_value q;
      let v := p * 262144 + q * 4096 in
      if v mod 65536 =? 0 then Some [Z_byte (Z.shiftr v 16)] else None
  | [p; q; r] =>
      p ← b64_value p; q ← b64_value q; r ← b64_value r;
      let v := p * 262144 + q * 4096 + r * 64 in
      if v mod 256 =? 0 then Some [Z_byte (Z.shiftr v 16); Z_byte (Z.shiftr v 8)] else None
  | p :: q :: r :: s :: l' =>
      p ← b64_value p; q ← b64_value q; r ← b64_value r; s ← b64_value s;
      let v := p * 262144 + q * 4096 + r * 64 + s in
      l' ← b64_decode l';
      Some (Z_byte (Z.shiftr v 16) :: Z_byte (Z.shiftr v 8) :: Z_byte v :: l')
  end.

Definition is_newline (b : byte) : bool := bool_decide (b = x0a) || bool_decide (b = x0d).

(** [base64.RawURLEncoding.EncodeToString] and
    [base64.RawURLEncoding.Strict().DecodeString]; the decoder skips CR and LF
    wherever they occur, also in strict mode. *)
Definition EncodeToString (l : list byte) : string := string_of (b64_encode l).
Definition DecodeString (s : string) : option (list byte) :=
  b64_decode (base.filter (fun b => is_newline b = false) (bytes_of s)).

(** Finite checks over an interval, discharged by computation. *)
Lemma check_range (P : Z -> bool) lo n :
  forallb P (seqZ lo n) = true -> forall z, lo <= z < lo + n -> P z = true.
Proof.
  intros H z Hz. rewrite List.forallb_forall in H.
  apply H, list_elem_of_In, elem_of_seqZ. lia.
Qed.

Lemma b64_value_char z : 0 <= z < 64 -> b64_value (b64_char z) = Some z.
Proof.
  set (P z := bool_decide (b64_value (b64_char z) = Some z)).
  intros Hz. assert (P z = true) as HP by (by apply (check_range P 0 64)).
  by apply bool_decide_eq_true in HP.
Qed.

Lemma b64_char_value b z : b64_value b = Some z -> b64_char z = b /\ 0 <= z < 64.
Proof.
  unfold b64_value. pose proof (byte_Z_range b).
  destruct ((65 <=? byte_Z b) && (byte_Z b <=? 90)) eqn:E1;
    [|destruct ((97 <=? byte_Z b) && (byte_Z b <=? 122)) eqn:E2;
      [|destruct ((48 <=? byte_Z b) && (byte_Z b <=? 57)) eqn:E3;
        [|destruct (byte_Z b =? 45) eqn:E4; [|destruct (byte_Z b =? 95) eqn:E5; [|done]]]]];
    intros [= <-]; (split; [|lia]); apply (inj byte_Z);
    unfold b64_char; repeat case_match; rewrite byte_Z_byte, Z.mod_small; lia.
Qed.

Lemma b64_char_not_newline z : 0 <= z < 64 -> is_newline (b64_char z) = false.
Proof.
  intros Hz. apply negb_true_iff.
  by apply (check_range (fun z => negb (is_newline (b64_char z))) 0 64).
Qed.

Lemma b64_value_sextet v k : b64_value (sextet v k) = Some (Z.shiftr v k mod 64).
Proof. apply b64_value_char, Z.mod_pos_bound. lia. Qed.

Lemma list_ind3 {A} (P : list A -> Prop) :
  P [] -> (forall a, P [a]) -> (forall a b, P [a; b]) ->
  (forall a b c l, P l -> P (a :: b :: c :: l)) -> forall l, P l.
Proof.
  intros H0 H1 H2 H3 l.
  enough (P l /\ (forall a, P (a :: l)) /\ (forall a b, P (a :: b :: l))) by tauto.
  induction l as [|x l (IH1 & IH2 & IH3)]; split_and!; auto.
Qed.

Lemma list_ind4 {A} (P : list A -> Prop) :
  P [] -> (forall a, P [a]) -> (forall a b, P [a; b]) -> (forall a b c, P [a; b; c]) ->
  (forall a b c d l, P l -> P (a :: b :: c :: d :: l)) -> forall l, P l.
Proof.
  intros H0 H1 H2 H3 H4 l.
  enough (P l /\ (forall a, P (a :: l)) /\ (forall a b, P (a :: b :: l)) /\
          (forall a b c, P (a :: b :: c :: l))) by tauto.
  induction l as [|x l (IH1 & IH2 & IH3 & IH4)]; split_and!; auto.
Qed.

(** Arithmetic of shifts by constants, for [lia]. *)
Ltac shift_lia :=
  rewrite ?Z.shiftr_div_pow2 by lia;
  change (2 ^ 18) with 262144; change (2 ^ 16) with 65536; change (2 ^ 12) with 4096;
  change (2 ^ 8) with 256; change (2 ^ 6) with 64; change (2 ^ 0) with 1;
  Z.div_mod_to_equations; lia.

Ltac byte_eq := apply (inj byte_Z); rewrite byte_Z_byte; shift_lia.

Lemma b64_decode_encode l : b64_decode (b64_encode l) = Some l.
Proof.
  induction l as [|a|a b|a b c l IH] using list_ind3; [done|..];
    cbn [b64_encode b64_decode]; rewrite !b64_value_sextet;
    cbn [mbind option_bind];
    pose proof (byte_Z_range a); try pose proof (byte_Z_range b);
    try pose proof (byte_Z_range c).
  - rewrite (proj2 (Z.eqb_eq _ _)) by shift_lia. do 2 f_equal. byte_eq.
  - rewrite (proj2 (Z.eqb_eq _ _)) by shift_lia. do 2 f_equal; [byte_eq|f_equal; byte_eq].
  - rewrite IH. cbn [mbind option_bind].
    f_equal; f_equal; [byte_eq|f_equal; [byte_eq|f_equal; byte_eq]].
Qed.

Ltac b64_inv :=
  repeat match goal with
  | H : (b64_value ?x ≫= _) = Some _ |- _ =>
      let E := fresh in
      destruct (b64_value x) eqn:E; cbn [mbind option_bind] in H; [|discriminate H];
      apply b64_char_value in E as [<- ?]
  end.

Lemma b64_encode_decode l d : b64_decode l = Some d -> b64_encode d = l.
Proof.
  revert d; induction l as [|a|a b|a b c|a b c e l IH] using list_ind4; intros d;
    cbn [b64_decode]; [by intros [= <-]|done|..]; intros H; b64_inv.
  - destruct (Z.eqb_spec ((z * 262144 + z0 * 4096) mod 65536) 0); [|done].
    injection H as <-. cbn [b64_encode]. rewrite !byte_Z_byte. unfold sextet.
    repeat f_equal; shift_lia.
  - destruct (Z.eqb_spec ((z * 262144 + z0 * 4096 + z1 * 64) mod 256) 0); [|done].
    injection H as <-. cbn [b64_encode]. rewrite !byte_Z_byte. unfold sextet.
    repeat f_equal; shift_lia.
  - destruct (b64_decode l) as [d'|] eqn:E; [|done]. injection H as <-.
    cbn [b64_encode]. rewrite (IH _ eq_refl), !byte_Z_byte. unfold sextet.
    repeat f_equal; shift_lia.
Qed.

Lemma b64_encode_no_newline l :
  Forall (fun b => is_newline b = false) (b64_encode l).
Proof.
  induction l as [|a|a b|a b c l IH] using list_ind3; simpl; repeat constructor;
    try done; apply b64_char_not_newline, Z.mod_pos_bound; lia.
Qed.

Lemma filter_all {A} (P : A -> Prop) `{!forall x, Decision (P x)} l :
  Forall P l -> base.filter P l = l.
Proof.
  induction 1; [done|]. rewrite filter_cons_True by done. congruence.
Qed.

(** Decoding inverts encoding. *)
Lemma filter_none {A} (P : A -> Prop) `{!forall x, Decision (P x)} l :
  Forall (fun x => ~ P x) l -> base.filter P l = [].
Proof.
  induction 1 as [|x l Hx Hl IH]; [done|]. by rewrite filter_cons_False.
Qed.

Lemma DecodeString_EncodeToString l : DecodeString (EncodeToString l) = Some l.
Proof.
  unfold DecodeString, EncodeToString. rewrite bytes_of_string_of.
  rewrite filter_all by apply b64_encode_no_newline. apply b64_decode_encode.
Qed.

(** The strict decoder accepts one text per payload, up to CR and LF. *)
Lemma EncodeToString_DecodeString s l :
  DecodeString s = Some l ->
  EncodeToString l = string_of (base.filter (fun b => is_newline b = false) (bytes_of s)).
Proof. intros H. unfold EncodeToString. f_equal. by apply b64_encode_decode. Qed.

#[export] Instance EncodeToString_inj : Inj (=) (=) EncodeToString.
Proof.
  intros a b E. apply (f_equal DecodeString) in E.
  rewrite !DecodeString_EncodeToString in E. congruence.
Qed.

(** [base64.RawURLEncoding.EncodedLen]. *)
Definition EncodedLen (n : Z) : Z := n / 3 * 4 + (n mod 3 * 8 + 5) / 6.

(** Encoded sizes order like the sizes. *)
Lemma EncodedLen_le m n : 0 <= m -> 0 <= n -> EncodedLen m <= EncodedLen n -> m <= n.
Proof. unfold EncodedLen. intros. Z.to_euclidean_division_equations; lia. Qed.

Lemma EncodedLen_mono m n : 0 <= m <= n -> EncodedLen m <= EncodedLen n.
Proof. unfold EncodedLen. intros. Z.to_euclidean_division_equations; lia. Qed.

Lemma slen_EncodeToString l : slen (EncodeToString l) = EncodedLen (blen l).
Proof.
  unfold EncodeToString, EncodedLen. rewrite slen_string_of. unfold blen.
  induction l as [|a|a b|a b c l IH] using list_ind3; [done..|].
  simpl length. Z.div_mod_to_equations. lia.
Qed.
