(* ===== verification/GoStrings.v ===== *)
(** The parts of Go's [strings], [strconv], [fmt] and [sort] packages that the
    program uses, on byte strings. *)
From S2P Require Export GoBytes.
Local Open Scope Z_scope.

(** ** Prefixes, suffixes, substrings *)

Fixpoint cut_prefix (p l : list byte) : option (list byte) :=
  match p, l with
  | [], _ => Some l
  | a :: p', b :: l' => if bool_decide (a = b) then cut_prefix p' l' else None
  | _ :: _, [] => None
  end.

Definition HasPrefix (s p : string) : bool :=
  match cut_prefix (bytes_of p) (bytes_of s) with Some _ => true | None => false end.
Definition TrimPrefix (s p : string) : string :=
  match cut_prefix (bytes_of p) (bytes_of s) with Some r => string_of r | None => s end.
Definition HasSuffix (s p : string) : bool :=
  match cut_prefix (reverse (bytes_of p)) (reverse (bytes_of s)) with
  | Some _ => true | None => false end.
Definition TrimSuffix (s p : string) : string :=
  match cut_prefix (reverse (bytes_of p)) (reverse (bytes_of s)) with
  | Some r => string_of (reverse r) | None => s end.

Fixpoint contains_bytes (p l : list byte) : bool :=
  match cut_prefix p l with
  | Some _ => true
  | None => match l with [] => false | _ :: l' => contains_bytes p l' end
  end.
Definition Contains (s sub : string) : bool := contains_bytes (bytes_of sub) (bytes_of s).

Lemma cut_prefix_app p l : cut_prefix p (p ++ l) = Some l.
Proof. induction p; simpl; [done|]. by rewrite bool_decide_true. Qed.

Lemma cut_prefix_Some p l r : cut_prefix p l = Some r <-> l = p ++ r.
Proof.
  split; [|intros ->; apply cut_prefix_app].
  revert l; induction p as [|a p IH]; intros [|b l]; simpl; try congruence.
  case_bool_decide; [|done]. intros ->%IH. congruence.
Qed.

Lemma HasPrefix_app p s : HasPrefix (p +:+ s) p = true.
Proof. unfold HasPrefix. by rewrite bytes_of_app, cut_prefix_app. Qed.
Lemma TrimPrefix_app p s : TrimPrefix (p +:+ s) p = s.
Proof. unfold TrimPrefix. by rewrite bytes_of_app, cut_prefix_app, string_of_bytes_of. Qed.
Lemma HasPrefix_inv s p : HasPrefix s p = true -> s = p +:+ TrimPrefix s p.
Proof.
  unfold HasPrefix, TrimPrefix. destruct cut_prefix as [r|] eqn:E; [|done].
  intros _. apply cut_prefix_Some in E. apply (inj bytes_of).
  by rewrite bytes_of_app, bytes_of_string_of.
Qed.

Lemma contains_bytes_spec p l :
  contains_bytes p l = true <-> exists a b, l = a ++ p ++ b.
Proof.
  induction l as [|x l IH]; simpl; destruct cut_prefix as [r|] eqn:E.
  - split; [|done]. intros _. apply cut_prefix_Some in E. by exists [], r.
  - split; [done|]. intros ([|y a] & b & Hab); [|done].
    simpl in Hab. rewrite Hab, cut_prefix_app in E. done.
  - split; [|done]. intros _. apply cut_prefix_Some in E. by exists [], r.
  - rewrite IH. split.
    + intros (a & b & ->). by exists (x :: a), b.
    + intros ([|y a] & b & Hab); simplify_eq/=.
      * rewrite Hab, cut_prefix_app in E. done.
      * eauto.
Qed.

(** ** [strings.TrimSpace] *)

(** The UTF-8 encodings of the code points for which [unicode.IsSpace] holds. *)
Definition space_encodings : list (list byte) :=
  [[x09]; [x0a]; [x0b]; [x0c]; [x0d]; [x20]; [xc2; x85]; [xc2; xa0]; [xe1; x9a; x80];
   [xe2; x80; x80]; [xe2; x80; x81]; [xe2; x80; x82]; [xe2; x80; x83]; [xe2; x80; x84];
   [xe2; x80; x85]; [xe2; x80; x86]; [xe2; x80; x87]; [xe2; x80; x88]; [xe2; x80; x89];
   [xe2; x80; x8a]; [xe2; x80; xa8]; [xe2; x80; xa9]; [xe2; x80; xaf]; [xe2; x81; x9f];
   [xe3; x80; x80]].

Fixpoint strip_any (encs : list (list byte)) (l : list byte) : option (list byte) :=
  match encs with
  | [] => None
  | e :: encs' => match cut_prefix e l with Some r => Some r | None => strip_any encs' l end
  end.

Fixpoint trim_left (fuel : nat) (encs : list (list byte)) (l : list byte) : list byte :=
  match fuel with
  | O => l
  | S fuel' => match strip_any encs l with
               | Some r => trim_left fuel' encs r
               | None => l
               end
  end.

Definition trim_bytes (l : list byte) : list byte :=
  let l1 := trim_left (length l) space_encodings l in
  reverse (trim_left (length l1) (reverse <$> space_encodings) (reverse l1)).

Definition TrimSpace (s : string) : string := string_of (trim_bytes (bytes_of s)).

(** A printable ASCII byte other than the space. *)
Definition graphic (b : byte) : bool := (33 <=? byte_Z b) && (byte_Z b <=? 126).

Lemma strip_any_graphic encs b l :
  forallb (fun e => match e with [] => false | c :: _ => negb (graphic c) end) encs = true ->
  graphic b = true -> strip_any encs (b :: l) = None.
Proof.
  intros H Hb. induction encs as [|[|c e] encs IH]; simpl in *; [done..|].
  apply andb_true_iff in H as [Hc H]. rewrite bool_decide_false, IH; [done..|].
  intros ->. by rewrite Hb in Hc.
Qed.

Lemma trim_left_graphic n encs l :
  forallb (fun e => match e with [] => false | c :: _ => negb (graphic c) end) encs = true ->
  (match l with [] => True | b :: _ => graphic b = true end) ->
  trim_left n encs l = l.
Proof.
  intros H Hl. destruct n; [done|]. simpl.
  destruct l as [|b l]; [|by rewrite strip_any_graphic].
  assert (strip_any encs [] = None) as ->.
  { clear Hl. induction encs as [|[|c e] encs IH]; simpl in *; try done.
    apply andb_true_iff in H as [? H]. auto. }
  done.
Qed.

(** Text without white space is left alone. *)
Lemma TrimSpace_graphic s :
  Forall (fun b => graphic b = true) (bytes_of s) -> TrimSpace s = s.
Proof.
  intros H. unfold TrimSpace, trim_bytes.
  assert (forall n, trim_left n space_encodings (bytes_of s) = bytes_of s) as ->.
  { intros n. apply trim_left_graphic; [done|]. destruct H; done. }
  rewrite trim_left_graphic.
  - by rewrite reverse_involutive, string_of_bytes_of.
  - done.
  - apply Forall_reverse in H. destruct H; done.
Qed.

Lemma b64_char_graphic z : 0 <= z < 64 -> graphic (b64_char z) = true.
Proof. by apply (check_range (fun z => graphic (b64_char z)) 0 64). Qed.

Lemma EncodeToString_graphic l :
  Forall (fun b => graphic b = true) (bytes_of (EncodeToString l)).
Proof.
  unfold EncodeToString. rewrite bytes_of_string_of.
  induction l as [|a|a b|a b c l IH] using list_ind3; simpl; repeat constructor;
    try done; apply b64_char_graphic, Z.mod_pos_bound; lia.
Qed.

(** A line break at the end is removed. *)
Lemma TrimSpace_line s :
  Forall (fun b => graphic b = true) (bytes_of s) -> TrimSpace (s +:+ string_of [x0a]) = s.
Proof.
  intros Hg. destruct (decide (s = "")) as [->|Hne]; [by vm_compute|].
  unfold TrimSpace, trim_bytes. rewrite bytes_of_app, bytes_of_string_of.
  assert (forall n, trim_left n space_encodings (bytes_of s ++ [x0a]) = bytes_of s ++ [x0a]) as ->.
  { intros n. apply trim_left_graphic; [done|]. destruct (bytes_of s) eqn:E; [|by destruct (proj1 (Forall_cons _ _ _) Hg)].
    by rewrite <- (string_of_bytes_of s), E in Hne. }
  rewrite reverse_app. change (reverse [x0a]) with [x0a]. cbn [app]. rewrite length_app. cbn [length].
  rewrite Nat.add_1_r. cbn [trim_left].
  assert (strip_any (reverse <$> space_encodings) (x0a :: reverse (bytes_of s)) = Some (reverse (bytes_of s))) as -> by done.
  rewrite trim_left_graphic; [by rewrite reverse_involutive, string_of_bytes_of|done|].
  apply Forall_reverse in Hg. destruct Hg; done.
Qed.

(** ** Decimal numbers *)

(** [strconv.Itoa], [strconv.FormatUint(_, 10)] and the [%d] verb. *)
Definition itoa (z : Z) : string := pretty z.

Fixpoint parse_digits (l : list byte) (acc : Z) : option Z :=
  match l with
  | [] => Some acc
  | b :: l' =>
      let d := byte_Z b - 48 in
      if (0 <=? d) && (d <=? 9) then parse_digits l' (acc * 10 + d) else None
  end.

(** [strconv.Atoi]: an optional sign, at least one digit, and a value that fits [int]. *)
Definition Atoi (s : string) : result Z :=
  let bad := Err (Errorf "strconv.Atoi: parsing %q" [AStr s]) in
  let digits (l : list byte) (sign : Z) :=
    match l with
    | [] => bad
    | _ => match parse_digits l 0 with
           | Some v => let v := sign * v in
                       if (- 2 ^ 63 <=? v) && (v <? 2 ^ 63) then Ok v else bad
           | None => bad
           end
    end in
  match bytes_of s with
  | b :: l => if bool_decide (b = x2d) then digits l (-1)
              else if bool_decide (b = x2b) then digits l 1
              else digits (b :: l) 1
  | [] => bad
  end.

(** [strconv.ParseUint(s, 10, bits)]. *)
Definition ParseUint (s : string) (bits : Z) : result Z :=
  let bad := Err (Errorf "strconv.ParseUint: parsing %q" [AStr s]) in
  match bytes_of s with
  | [] => bad
  | l => match parse_digits l 0 with
         | Some v => if v <? 2 ^ bits then Ok v else bad
         | None => bad
         end
  end.

Definition is_digit (b : byte) : bool := (48 <=? byte_Z b) && (byte_Z b <=? 57).

Lemma digit_char d : (d < 10)%N ->
  byte_Z (Ascii.byte_of_ascii (pretty_N_char d)) = 48 + Z.of_N d.
Proof.
  intros Hd.
  assert (d = 0 \/ d = 1 \/ d = 2 \/ d = 3 \/ d = 4 \/ d = 5 \/ d = 6 \/ d = 7
          \/ d = 8 \/ d = 9)%N as Hc by lia.
  destruct_or! Hc; subst d; done.
Qed.

Lemma parse_pretty_N_go x s :
  parse_digits (bytes_of (pretty_N_go x s)) 0 = parse_digits (bytes_of s) (Z.of_N x).
Proof.
  revert s. induction (N.lt_wf_0 x) as [x _ IH]; intros s.
  destruct (decide (0 < x)%N) as [Hx|Hx]; [|by replace x with 0%N by lia].
  rewrite pretty_N_go_step, IH by (try apply N.div_lt; lia).
  assert (x mod 10 < 10)%N as Hm by (apply N.mod_lt; lia).
  pose proof (N.div_mod x 10 ltac:(lia)) as Hdm.
  set (m := (x mod 10)%N) in *. clearbody m. set (q := (x / 10)%N) in *. clearbody q.
  rewrite bytes_of_cons. cbn [parse_digits]. rewrite digit_char by done.
  replace (48 + Z.of_N m - 48) with (Z.of_N m) by lia.
  assert (((0 <=? Z.of_N m) && (Z.of_N m <=? 9)) = true) as -> by lia.
  f_equal. lia.
Qed.

Lemma digits_pretty_N_go x s :
  Forall (fun b => is_digit b = true) (bytes_of s) ->
  Forall (fun b => is_digit b = true) (bytes_of (pretty_N_go x s)).
Proof.
  revert s. induction (N.lt_wf_0 x) as [x _ IH]; intros s Hs.
  destruct (decide (0 < x)%N) as [Hx|Hx]; [|by replace x with 0%N by lia].
  rewrite pretty_N_go_step by done. apply IH; [apply N.div_lt; lia|].
  rewrite bytes_of_cons. constructor; [|done].
  assert (x mod 10 < 10)%N by (apply N.mod_lt; lia).
  unfold is_digit. rewrite digit_char by done.
  set (m := (x mod 10)%N) in *. clearbody m. lia.
Qed.

Lemma itoa_digits z : 0 <= z -> Forall (fun b => is_digit b = true) (bytes_of (itoa z)).
Proof.
  intros Hz. destruct z as [|p|p]; [repeat constructor| |lia].
  change (itoa (Z.pos p)) with (pretty (N.pos p)). unfold pretty, pretty_N.
  case_decide; [done|]. apply digits_pretty_N_go. constructor.
Qed.

Lemma parse_digits_itoa z : 0 <= z -> parse_digits (bytes_of (itoa z)) 0 = Some z.
Proof.
  intros Hz. destruct z as [|p|p]; [done| |lia].
  change (itoa (Z.pos p)) with (pretty (N.pos p)). unfold pretty, pretty_N.
  case_decide; [done|]. rewrite parse_pretty_N_go. done.
Qed.

Lemma bytes_of_itoa_nonempty z : 0 <= z -> exists b l, bytes_of (itoa z) = b :: l /\ is_digit b.
Proof.
  intros Hz. destruct (bytes_of (itoa z)) as [|b l] eqn:E.
  - destruct z as [|p|p]; [done| |lia].
    change (itoa (Z.pos p)) with (pretty (N.pos p)) in E.
    apply (f_equal string_of) in E. rewrite string_of_bytes_of in E.
    change (string_of []) with "" in E. exfalso.
    pose proof (parse_digits_itoa (Z.pos p) Hz) as H.
    change (itoa (Z.pos p)) with (pretty (N.pos p)) in H. rewrite E in H.
    simpl in H. congruence.
  - exists b, l. split; [done|]. pose proof (itoa_digits z Hz) as F.
    rewrite E in F. inversion F; subst. by apply Is_true_true.
Qed.

(** Printing then parsing a non-negative number gives it back. *)
Lemma Atoi_itoa z : 0 <= z < 2 ^ 63 -> Atoi (itoa z) = Ok z.
Proof.
  intros Hz. destruct (bytes_of_itoa_nonempty z ltac:(lia)) as (b & l & E & Hb).
  unfold Atoi. pose proof (parse_digits_itoa z ltac:(lia)) as Hp. rewrite E in *.
  unfold is_digit in Hb. apply Is_true_true, andb_true_iff in Hb as [H1 H2].
  rewrite !bool_decide_false by (intros ->; discriminate).
  rewrite Hp, Z.mul_1_l, (proj2 (andb_true_iff _ _)) by lia. done.
Qed.

Lemma parse_digits_nonneg l acc v : 0 <= acc -> parse_digits l acc = Some v -> 0 <= v.
Proof.
  revert acc. induction l as [|b l IH]; intros acc Ha; simpl; [by intros [= <-]|].
  destruct ((0 <=? byte_Z b - 48) && (byte_Z b - 48 <=? 9)) eqn:E; [|done].
  apply andb_true_iff in E as [E _]. apply Z.leb_le in E. apply IH. lia.
Qed.

Lemma ParseUint_range s bits v : ParseUint s bits = Ok v -> is_uint bits v.
Proof.
  unfold ParseUint. destruct (bytes_of s) as [|b l]; [done|].
  destruct (parse_digits (b :: l) 0) as [v'|] eqn:E; [|done].
  destruct (Z.ltb_spec v' (2 ^ bits)); [|done]. intros [= <-].
  apply parse_digits_nonneg in E; [by split|done].
Qed.

Lemma ParseUint_itoa z bits : 0 <= z < 2 ^ bits -> ParseUint (itoa z) bits = Ok z.
Proof.
  intros Hz. destruct (bytes_of_itoa_nonempty z ltac:(lia)) as (b & l & E & _).
  unfold ParseUint. rewrite E. rewrite <- E, parse_digits_itoa by lia.
  rewrite (proj2 (Z.ltb_lt _ _)) by lia. done.
Qed.

#[export] Instance itoa_inj : Inj (=) (=) itoa.
Proof. unfold itoa. apply _. Qed.

(** ** Splitting at a separator *)

(** A separator that does not occur in the left parts determines the split. *)
Lemma app_sep_inj {A} (sep : A) (a1 a2 b1 b2 : list A) :
  sep ∉ a1 -> sep ∉ a2 -> a1 ++ sep :: b1 = a2 ++ sep :: b2 -> a1 = a2 /\ b1 = b2.
Proof.
  revert a2; induction a1 as [|x a1 IH]; intros [|y a2] H1 H2 E; simplify_eq/=; try done.
  - set_solver.
  - set_solver.
  - destruct (IH a2) as [-> ->]; set_solver.
Qed.

(** ** [sort.Strings] *)

Definition sort_strings (l : list string) : list string := merge_sort String.le l.

Lemma sort_strings_sorted l : Sorted String.le (sort_strings l).
Proof. apply (Sorted_merge_sort _). Qed.
Lemma sort_strings_perm l : sort_strings l ≡ₚ l.
Proof. apply merge_sort_Permutation. Qed.
Lemma sort_strings_unique l1 l2 :
  l1 ≡ₚ l2 -> Sorted String.le l1 -> Sorted String.le l2 -> l1 = l2.
Proof. intros. by apply (Sorted_unique String.le). Qed.
Lemma sort_strings_id l : Sorted String.le l -> sort_strings l = l.
Proof. intros. apply sort_strings_unique; auto using sort_strings_sorted, sort_strings_perm. Qed.
Lemma sort_strings_idemp l : sort_strings (sort_strings l) = sort_strings l.
Proof. apply sort_strings_id, sort_strings_sorted. Qed.
Lemma length_sort_strings l : length (sort_strings l) = length l.
Proof. apply Permutation_length, sort_strings_perm. Qed.

(** ** UTF-8 validity, [utf8.Valid] *)

Definition cont (b : byte) : bool := (128 <=? byte_Z b) && (byte_Z b <=? 191).
Definition in_range (lo hi : Z) (b : byte) : bool := (lo <=? byte_Z b) && (byte_Z b <=? hi).

Fixpoint utf8_valid (fuel : nat) (l : list byte) : bool :=
  match fuel, l with
  | _, [] => true
  | O, _ => false
  | S fuel', b :: l1 =>
      if byte_Z b <? 128 then utf8_valid fuel' l1
      else match l1 with
      | c :: l2 =>
          if in_range 194 223 b then cont c && utf8_valid fuel' l2
          else match l2 with
          | d :: l3 =>
              let lo := if byte_Z b =? 224 then 160 else 128 in
              let hi := if byte_Z b =? 237 then 159 else 191 in
              if in_range 224 239 b then in_range lo hi c && cont d && utf8_valid fuel' l3
              else match l3 with
              | e :: l4 =>
                  let lo := if byte_Z b =? 240 then 144 else 128 in
                  let hi := if byte_Z b =? 244 then 143 else 191 in
                  in_range 240 244 b && in_range lo hi c && cont d && cont e
                  && utf8_valid fuel' l4
              | [] => false
              end
          | [] => false
          end
      | [] => false
      end
  end.

Definition ValidString (s : string) : bool := utf8_valid (length (bytes_of s)) (bytes_of s).

Lemma utf8_valid_ascii fuel l : (length l <= fuel)%nat -> Forall (fun b => byte_Z b < 128) l -> utf8_valid fuel l = true.
Proof.
  revert l. induction fuel as [|fuel IH]; intros [|b l] Hl Hb; try done; cbn [length] in Hl; [lia|].
  apply Forall_cons in Hb as [Hb Hr]. cbn [utf8_valid]. rewrite (proj2 (Z.ltb_lt _ _)) by done. apply IH; [lia|done].
Qed.
Lemma ValidString_ascii s : Forall (fun b => byte_Z b < 128) (bytes_of s) -> ValidString s = true.
Proof. by apply utf8_valid_ascii. Qed.
Lemma ValidString_graphic s : Forall (fun b => graphic b = true) (bytes_of s) -> ValidString s = true.
Proof. intros Hg. apply ValidString_ascii. eapply Forall_impl; [exact Hg|]. intros b Hb. unfold graphic in Hb. simpl in Hb. lia. Qed.

(** The total length of some texts does not depend on their order. *)
Lemma sum_slen_perm l1 l2 :
  l1 ≡ₚ l2 -> foldr (fun s acc => slen s + acc) 0 l1 = foldr (fun s acc => slen s + acc) 0 l2.
Proof. induction 1; simpl; lia. Qed.

Lemma sum_slen_fmap {A} (f : A -> string) l :
  foldr (fun s acc => slen s + acc) 0 (f <$> l) = foldr (fun a acc => slen (f a) + acc) 0 l.
Proof. induction l; simpl; [done|]. unfold fmap in *. lia. Qed.

Lemma itoa_no_nul z : 0 <= z -> x00 ∉ bytes_of (itoa z).
Proof. intros Hz H. pose proof (itoa_digits z Hz) as Hd. rewrite Forall_forall in Hd. by apply Hd in H. Qed.
