(* ===== verification/GoTime.v ===== *)
(** Go's [time.Time] and [time.Duration] (wall clock only).

    A [Time] holds what the Go value holds: seconds since January 1 of year 1
    as an [int64], and nanoseconds in [0, 10^9).  A duration is an [int64]
    number of nanoseconds.  Additions wrap as the Go code does. *)
From S2P Require Export GoBytes.
Local Open Scope Z_scope.

Record Time := mkTime { t_sec : Z; t_nsec : Z }.

#[export] Instance Time_eq_dec : EqDecision Time.
Proof. solve_decision. Defined.

Definition nanos : Z := 1000000000.
Definition Second : Z := nanos.
Definition Millisecond : Z := 1000000.
Definition unixToInternal : Z := 62135596800.

Definition zeroTime : Time := mkTime 0 0.
Definition IsZero (t : Time) : bool := (t_sec t =? 0) && (t_nsec t =? 0).

(** [time.Unix(sec, nsec)] for [0 <= nsec < 10^9]. *)
Definition Unix (sec nsec : Z) : Time := mkTime (wrapS 64 (sec + unixToInternal)) nsec.
(** [time.UnixMilli(ms)]: Go truncates towards zero, then borrows a second. *)
Definition UnixMilli (ms : Z) : Time := Unix (ms / 1000) (ms mod 1000 * Millisecond).

(** [t.Unix()] and [t.UnixMilli()]. *)
Definition toUnix (t : Time) : Z := wrapS 64 (t_sec t - unixToInternal).
Definition toUnixMilli (t : Time) : Z :=
  wrapS 64 (toUnix t * 1000 + t_nsec t / Millisecond).

Definition Before (t u : Time) : bool :=
  (t_sec t <? t_sec u) || ((t_sec t =? t_sec u) && (t_nsec t <? t_nsec u)).
Definition After (t u : Time) : bool := Before u t.

(** [t.Add(d)]. *)
Definition Add (t : Time) (d : Z) : Time :=
  let dsec := Z.quot d nanos in
  let nsec := t_nsec t + Z.rem d nanos in
  if nanos <=? nsec then mkTime (wrapS 64 (t_sec t + (dsec + 1))) (nsec - nanos)
  else if nsec <? 0 then mkTime (wrapS 64 (t_sec t + (dsec - 1))) (nsec + nanos)
  else mkTime (wrapS 64 (t_sec t + dsec)) nsec.

Definition minDuration : Z := - 2 ^ 63.
Definition maxDuration : Z := 2 ^ 63 - 1.

(** [t.Sub(u)], saturating. *)
Definition Sub (t u : Time) : Z :=
  let d := wrapS 64 (wrapS 64 (t_sec t - t_sec u) * nanos + (t_nsec t - t_nsec u)) in
  if bool_decide (Add u d = t) then d
  else if Before t u then minDuration else maxDuration.

(** [d.Abs()]. *)
Definition Abs (d : Z) : Z :=
  if 0 <=? d then d else if d =? minDuration then maxDuration else - d.

(** ** Nanosecond semantics *)

(** The instant as one number, and the times for which nothing wraps: those
    whose Unix seconds fit 62 bits, some 140 billion years around 1970. *)
Definition ns (t : Time) : Z := t_sec t * nanos + t_nsec t.
Definition sane (t : Time) : Prop :=
  - 2 ^ 62 <= t_sec t < 2 ^ 62 /\ 0 <= t_nsec t < nanos.

Lemma Before_ns t u : 0 <= t_nsec t < nanos -> 0 <= t_nsec u < nanos ->
  Before t u = (ns t <? ns u).
Proof.
  intros Ht Hu. unfold Before, ns, nanos in *. apply eq_bool_prop_intro.
  rewrite !Is_true_true, orb_true_iff, andb_true_iff, !Z.ltb_lt, Z.eqb_eq. lia.
Qed.

Lemma wrapS64_small z : - 2 ^ 63 <= z < 2 ^ 63 -> wrapS 64 z = z.
Proof. intros. apply wrapS_small; lia. Qed.

Lemma Add_sane t d : sane t -> - 2 ^ 63 <= d < 2 ^ 63 ->
  ns (Add t d) = ns t + d /\ 0 <= t_nsec (Add t d) < nanos.
Proof.
  intros [Hs Hn] Hd. unfold Add, ns, nanos in *.
  pose proof (Z.quot_rem' d 1000000000) as E.
  pose proof (Z.rem_bound_abs d 1000000000 ltac:(lia)) as B.
  set (q := d `quot` 1000000000) in *. set (r := d `rem` 1000000000) in *.
  clearbody q r.
  repeat case_match; simpl; rewrite wrapS64_small by lia; lia.
Qed.

Lemma ns_Unix s : - 2 ^ 62 <= s < 2 ^ 62 -> ns (Unix s 0) = (s + unixToInternal) * nanos.
Proof.
  intros. unfold ns, Unix; simpl. unfold unixToInternal. rewrite wrapS64_small; lia.
Qed.

Lemma toUnix_sane t : sane t -> toUnix t = t_sec t - unixToInternal.
Proof. intros [Hs _]. unfold toUnix, unixToInternal. apply wrapS64_small. lia. Qed.

Lemma ns_inj t u : 0 <= t_nsec t < nanos -> 0 <= t_nsec u < nanos -> ns t = ns u -> t = u.
Proof.
  destruct t as [s n], u as [s' n']. unfold ns, nanos; simpl. intros ? ? ?.
  assert (s = s' /\ n = n') as [-> ->] by lia. done.
Qed.

(** The saturating difference is the exact one, or lies at the end of the range. *)
Lemma Sub_sane t u : sane t -> sane u ->
  Sub t u = ns t - ns u \/ (ns t - ns u < minDuration /\ Sub t u = minDuration)
                        \/ (maxDuration < ns t - ns u /\ Sub t u = maxDuration).
Proof.
  intros Ht Hu. destruct Ht as [Hs Hn] eqn:?, Hu as [Hs' Hn'] eqn:?. unfold Sub.
  rewrite (wrapS64_small (t_sec t - t_sec u)) by lia.
  replace ((t_sec t - t_sec u) * nanos + (t_nsec t - t_nsec u)) with (ns t - ns u) by (unfold ns; lia).
  set (D := ns t - ns u). assert (- 2 ^ 63 <= wrapS 64 D < 2 ^ 63) as Hw.
  { unfold wrapS. change (2 ^ (64 - 1)) with (2 ^ 63). pose proof (Z.mod_pos_bound (D + 2 ^ 63) (2 ^ 64)). lia. }
  destruct (Add_sane u (wrapS 64 D) (conj Hs' Hn') Hw) as [Ha Hb].
  case_bool_decide as E.
  - left. apply (f_equal ns) in E. unfold D in *. lia.
  - assert (wrapS 64 D <> D) as Hne.
    { intros Ew. apply E. apply ns_inj; [done|done|]. unfold D in *. lia. }
    assert (~ (- 2 ^ 63 <= D < 2 ^ 63)) as Hr by (intros Hr; apply Hne; by apply wrapS64_small).
    rewrite Before_ns by done. unfold minDuration, maxDuration.
    destruct (Z.ltb_spec (ns t) (ns u)); [right; left|right; right]; unfold D in *; lia.
Qed.

(** A check of the age of a time stamp is exact, whatever the time stamp. *)
Lemma Abs_Sub t u d : sane t -> sane u -> 0 <= d < maxDuration ->
  Abs (Sub t u) <= d <-> Z.abs (ns t - ns u) <= d.
Proof.
  intros Ht Hu Hd. unfold Abs, minDuration, maxDuration in *.
  destruct (Sub_sane t u Ht Hu) as [E|[[? E]|[? E]]]; rewrite E; unfold minDuration, maxDuration in *;
    destruct (Z.leb_spec 0 (ns t - ns u)); simpl; try lia.
  destruct (Z.eqb_spec (ns t - ns u) (- 2 ^ 63)); lia.
  all: destruct (Z.eqb_spec (- 2 ^ 63) (- 2 ^ 63)); lia.
Qed.

Lemma sane_UnixMilli ms : - 2 ^ 63 <= ms < 2 ^ 63 -> sane (UnixMilli ms) /\
  ns (UnixMilli ms) = ms * Millisecond + unixToInternal * nanos.
Proof.
  intros H. unfold UnixMilli, Unix, sane, ns, nanos, Millisecond, unixToInternal; simpl.
  pose proof (Z.mod_pos_bound ms 1000). pose proof (Z.div_mod ms 1000).
  rewrite wrapS64_small by lia. lia.
Qed.

(** The millisecond of a time within 285 million years, rounded down. *)
Lemma toUnixMilli_ns t : sane t -> - 2 ^ 53 <= t_sec t < 2 ^ 53 ->
  - 2 ^ 63 <= toUnixMilli t < 2 ^ 63 /\
  toUnixMilli t * Millisecond + unixToInternal * nanos <= ns t <
  toUnixMilli t * Millisecond + unixToInternal * nanos + Millisecond.
Proof.
  intros Hs Hr. unfold toUnixMilli. rewrite toUnix_sane by done. destruct Hs as [_ Hn].
  unfold ns, nanos, Millisecond, unixToInternal in *.
  pose proof (Z.mod_pos_bound (t_nsec t) 1000000). pose proof (Z.div_mod (t_nsec t) 1000000).
  rewrite wrapS64_small by lia. lia.
Qed.
