(* ===== verification/GoNet.v ===== *)
(** [net.SplitHostPort] and [net.JoinHostPort] of Go's standard library. *)
From S2P Require Export GoStrings.
Local Open Scope Z_scope.

(** Index of the first and of the last occurrence of a byte. *)
Fixpoint index_byte (b : byte) (l : list byte) : option nat :=
  match l with
  | [] => None
  | c :: l => if bool_decide (c = b) then Some 0%nat else S <$> index_byte b l
  end.
Fixpoint last_index_byte (b : byte) (l : list byte) : option nat :=
  match l with
  | [] => None
  | c :: l => match last_index_byte b l with
              | Some i => Some (S i)
              | None => if bool_decide (c = b) then Some 0%nat else None
              end
  end.

Definition contains_byte (b : byte) (l : list byte) : bool := bool_decide (b ∈ l).

Definition colon : byte := x3a.
Definition lbrack : byte := x5b.
Definition rbrack : byte := x5d.

Definition AddrError (addr why : string) : error := Errorf "address %s: %s" [AStr addr; AStr why].
Definition missingPort : string := "missing port in address".
Definition tooManyColons : string := "too many colons in address".

Definition SplitHostPort (hostport : string) : result (string * string) :=
  let s := bytes_of hostport in
  match last_index_byte colon s with
  | None => Err (AddrError hostport missingPort)
  | Some i =>
      '(host, j, k) ←
        (if bool_decide (head s = Some lbrack) then
           match index_byte rbrack s with
           | None => Err (AddrError hostport "missing ']' in address")
           | Some e =>
               if (S e =? length s)%nat then Err (AddrError hostport missingPort)
               else if (S e =? i)%nat then Ok (slice s 1 e, 1%nat, S e)
               else if bool_decide (nth (S e) s x00 = colon)
                    then Err (AddrError hostport tooManyColons)
                    else Err (AddrError hostport missingPort)
           end
         else
           let host := take i s in
           refuse (contains_byte colon host) (AddrError hostport tooManyColons);;
           Ok (host, 0%nat, 0%nat));
      refuse (contains_byte lbrack (drop j s)) (AddrError hostport "unexpected '[' in address");;
      refuse (contains_byte rbrack (drop k s)) (AddrError hostport "unexpected ']' in address");;
      Ok (string_of host, string_of (drop (S i) s))
  end.

Definition JoinHostPort (host port : string) : string :=
  if contains_byte colon (bytes_of host) then "[" +:+ host +:+ "]:" +:+ port
  else host +:+ ":" +:+ port.

(** ** Splitting what was joined *)

Lemma last_index_app b l r : b ∉ r -> last_index_byte b (l ++ b :: r) = Some (length l).
Proof.
  intros Hr. assert (last_index_byte b r = None) as E.
  { induction r as [|c r IH]; [done|]. simpl. rewrite IH by set_solver.
    rewrite bool_decide_false; [done|set_solver]. }
  induction l as [|c l IH]; simpl.
  - rewrite E. by rewrite bool_decide_true.
  - by rewrite IH.
Qed.

Lemma index_byte_app b l r : b ∉ l -> index_byte b (l ++ b :: r) = Some (length l).
Proof.
  induction l as [|c l IH]; intros Hl; simpl; [by rewrite bool_decide_true|].
  rewrite bool_decide_false by set_solver. rewrite IH by set_solver. done.
Qed.

(** A host without brackets and a port without colons or brackets survive
    joining and splitting, IPv6 hosts included. *)
Lemma Split_JoinHostPort host port :
  lbrack ∉ bytes_of host -> rbrack ∉ bytes_of host ->
  colon ∉ bytes_of port -> lbrack ∉ bytes_of port -> rbrack ∉ bytes_of port ->
  SplitHostPort (JoinHostPort host port) = Ok (host, port).
Proof.
  intros Hh1 Hh2 Hp Hp1 Hp2. unfold JoinHostPort, SplitHostPort.
  destruct (contains_byte colon (bytes_of host)) eqn:Hc.
  - set (h := bytes_of host) in *. set (p := bytes_of port) in *.
    assert (bytes_of ("[" +:+ host +:+ "]:" +:+ port) = (lbrack :: h ++ [rbrack]) ++ colon :: p) as ->.
    { rewrite !bytes_of_app. simpl. by rewrite <- app_assoc. }
    rewrite last_index_app by done. cbn [app head]. rewrite bool_decide_true by done.
    assert (index_byte rbrack (lbrack :: (h ++ [rbrack]) ++ colon :: p) = Some (S (length h))) as ->.
    { change (lbrack :: (h ++ [rbrack]) ++ colon :: p) with ((lbrack :: h ++ [rbrack]) ++ colon :: p).
      replace ((lbrack :: h ++ [rbrack]) ++ colon :: p) with ((lbrack :: h) ++ rbrack :: colon :: p)
        by (cbn [app]; by rewrite <- app_assoc).
      apply (index_byte_app rbrack (lbrack :: h)). apply not_elem_of_cons. split; [discriminate|done]. }
    cbn [length]. rewrite !length_app. cbn [length].
    rewrite (proj2 (Nat.eqb_neq _ _)), (proj2 (Nat.eqb_eq _ _)) by lia. cbn [mbind result_bind drop].
    rewrite drop_0. assert (contains_byte lbrack ((h ++ [rbrack]) ++ colon :: p) = false) as ->.
    { apply bool_decide_eq_false. rewrite !elem_of_app, !elem_of_cons, elem_of_nil.
      intros [[?|[?|[]]]|[?|?]]; done. }
    cbn [refuse mbind result_bind].
    replace ((h ++ [rbrack]) ++ colon :: p) with (h ++ rbrack :: colon :: p) by (by rewrite <- app_assoc).
    rewrite !(drop_app_ge h) by lia. replace (S (length h) - length h)%nat with 1%nat by lia.
    replace (S (length h + 1) - length h)%nat with 2%nat by lia.
    cbn [drop]. rewrite ?drop_0. assert (contains_byte rbrack (colon :: p) = false) as ->.
    { apply bool_decide_eq_false. rewrite elem_of_cons. intros [?|?]; done. }
    cbn [refuse mbind result_bind]. do 2 f_equal.
    + apply (inj bytes_of). rewrite bytes_of_string_of. unfold slice. cbn [drop]. rewrite ?drop_0.
      replace (S (length h) - 1)%nat with (length h) by lia. apply take_app_length.
    + apply (inj bytes_of). by rewrite bytes_of_string_of.
  - set (h := bytes_of host) in *. set (p := bytes_of port) in *.
    assert (bytes_of (host +:+ ":" +:+ port) = h ++ colon :: p) as -> by (by rewrite !bytes_of_app).
    rewrite last_index_app by done. rewrite bool_decide_false.
    2:{ destruct h as [|b h]; cbn; [done|]. intros [= ->]. set_solver. }
    rewrite take_app_length.
    fold h in Hc. rewrite Hc.
    cbn [refuse mbind result_bind]. rewrite !drop_0.
    assert (contains_byte lbrack (h ++ colon :: p) = false /\ contains_byte rbrack (h ++ colon :: p) = false)
      as [-> ->] by (split; apply bool_decide_eq_false; rewrite !elem_of_app, !elem_of_cons; intros [?|[?|?]]; done).
    cbn [refuse mbind result_bind]. rewrite drop_app_ge by lia.
    replace (S (length h) - length h)%nat with 1%nat by lia. cbn [drop]. rewrite ?drop_0.
    unfold h, p. by rewrite !string_of_bytes_of.
Qed.
