(* ===== verification/GoIO.v ===== *)
(** [io.Writer], [io.Reader] and [io.ReadFull].

    The interfaces are type classes: the operation, an observation of the
    state (the bytes a writer has accepted, the bytes a reader still holds)
    and laws that state the documented contract.  The program's loops are
    proved against the classes.  [sink] and [source] are instances whose
    writes may be short or fail and whose reads come in arbitrary chunks. *)
From S2P Require Export GoBytes.
Local Open Scope Z_scope.

(** ** Writers *)

Class Writer (W : Type) := {
  w_write : W -> list byte -> Z * option error * W;
  w_sink : W -> list byte
}.

(** "It returns the number of bytes written from p (0 <= n <= len(p)) and any
    error encountered that caused the write to stop early."  The clause that a
    short write reports an error is not assumed: the callers check it. *)
Class WriterLaws (W : Type) `{!Writer W} : Prop :=
  w_write_spec : forall w p n e w', w_write w p = (n, e, w') ->
    0 <= n <= blen p /\ w_sink w' = w_sink w ++ take (Z.to_nat n) p.

(** A writer whose next answers are scheduled; without a schedule it accepts
    everything. *)
Record sink := mkSink { written : list byte; schedule : list (Z * option error) }.

#[export] Instance sink_writer : Writer sink := {|
  w_write w p :=
    match schedule w with
    | [] => (blen p, None, mkSink (written w ++ p) [])
    | (n, e) :: sch =>
        let n := Z.max 0 (Z.min n (blen p)) in
        (n, e, mkSink (written w ++ take (Z.to_nat n) p) sch)
    end;
  w_sink := written
|}.

#[export] Instance sink_laws : WriterLaws sink.
Proof.
  intros [l sch] p n e w'. simpl. pose proof (blen_nonneg p).
  destruct sch as [|[m e'] sch]; intros [= <- <- <-]; simpl.
  - split; [lia|]. unfold blen. by rewrite Nat2Z.id, take_ge by lia.
  - split; [lia|done].
Qed.

(** ** Readers *)

Class Reader (R : Type) := {
  r_read : R -> nat -> list byte * option error * R;
  r_rest : R -> list byte;      (** the bytes still to come *)
  r_end : R -> error;           (** the error reported after the last byte *)
  r_fuel : R -> nat             (** bounds the reads before that error *)
}.

Class ReaderLaws (R : Type) `{!Reader R} : Prop :=
  r_read_spec : forall r k d e r', (0 < k)%nat -> r_read r k = (d, e, r') ->
    (length d <= k)%nat /\ r_rest r = d ++ r_rest r' /\ r_end r' = r_end r /\
    match e with
    | None => (r_fuel r' < r_fuel r)%nat
    | Some err => err = r_end r /\ r_rest r' = []
    end.

(** [io.ReadFull(r, buf)] with [len(buf) = n], following [io.ReadAtLeast]. *)
Fixpoint read_loop `{!Reader R} (fuel : nat) (r : R) (n : nat) (acc : list byte)
    : result (list byte) * R :=
  if bool_decide (n <= length acc)%nat then (Ok acc, r)
  else match fuel with
       | O => (Err (ErrNew "unreachable"), r)
       | S fuel' =>
           let '(d, e, r') := r_read r (n - length acc) in
           let acc := acc ++ d in
           match e with
           | None => read_loop fuel' r' n acc
           | Some err =>
               if bool_decide (n <= length acc)%nat then (Ok acc, r')
               else match acc, err with
                    | _ :: _, EOF => (Err ErrUnexpectedEOF, r')
                    | _, _ => (Err err, r')
                    end
           end
       end.

Definition ReadFull `{!Reader R} (r : R) (n : nat) : result (list byte) * R :=
  read_loop (S (r_fuel r)) r n [].

(** The error of a read that hits the end after some bytes. *)
Definition end_error (got : list byte) (e : error) : error :=
  match got, e with _ :: _, EOF => ErrUnexpectedEOF | _, _ => e end.

Lemma read_loop_spec `{!Reader R, !ReaderLaws R} fuel r n acc :
  (r_fuel r < fuel)%nat -> (length acc <= n)%nat ->
  exists r', r_end r' = r_end r /\
    if bool_decide (n <= length acc + length (r_rest r))%nat
    then read_loop fuel r n acc = (Ok (acc ++ take (n - length acc) (r_rest r)), r') /\
         r_rest r' = drop (n - length acc) (r_rest r)
    else read_loop fuel r n acc = (Err (end_error (acc ++ r_rest r) (r_end r)), r') /\
         r_rest r' = [].
Proof.
  revert r acc; induction fuel as [|fuel IH]; intros r acc Hf Hn; [lia|]. simpl.
  destruct (decide (n <= length acc)%nat) as [Hfull|Hfull].
  { exists r. split; [done|]. rewrite !bool_decide_true by lia.
    replace (n - length acc)%nat with 0%nat by lia. simpl. by rewrite app_nil_r. }
  rewrite (bool_decide_false (n <= length acc)%nat) by done.
  destruct (r_read r (n - length acc)) as [[d e] r'] eqn:Er.
  apply r_read_spec in Er as (Hd & Hrest & Hend & He); [|lia].
  destruct e as [err|].
  - destruct He as [-> Hr']. exists r'. split; [done|].
    rewrite Hr', app_nil_r in Hrest. rewrite length_app, Hrest.
    case_bool_decide.
    + rewrite take_ge, drop_ge by lia. done.
    + split; [|done]. unfold end_error. destruct (acc ++ d), (r_end r); done.
  - destruct (IH r' (acc ++ d)) as (r'' & He'' & Hcase); [lia|rewrite length_app; lia|].
    exists r''. split; [congruence|]. rewrite Hrest, !length_app in *.
    rewrite <- Hend. rewrite Nat.add_assoc. rewrite bool_decide_decide in *.
    destruct (decide _); destruct Hcase as [-> ->]; split; try done.
    + f_equal. rewrite <- app_assoc. do 2 f_equal.
      rewrite take_app_ge by lia. do 2 f_equal. lia.
    + rewrite drop_app_ge by lia. f_equal. lia.
    + by rewrite <- app_assoc.
Qed.

(** [ReadFull] returns: it delivers the next [n] bytes when they are there,
    and otherwise reports the end of the stream, as [ErrUnexpectedEOF] when
    some bytes had arrived. *)
Lemma ReadFull_spec `{!Reader R, !ReaderLaws R} (r : R) (n : nat) :
  exists r', r_end r' = r_end r /\
    if bool_decide (n <= length (r_rest r))%nat
    then ReadFull r n = (Ok (take n (r_rest r)), r') /\ r_rest r' = drop n (r_rest r)
    else ReadFull r n = (Err (end_error (r_rest r) (r_end r)), r') /\ r_rest r' = [].
Proof.
  destruct (read_loop_spec (S (r_fuel r)) r n []) as (r' & He & H); [lia|simpl; lia|].
  exists r'. split; [done|]. cbn [length app Nat.add] in H. rewrite Nat.sub_0_r in H. exact H.
Qed.

Lemma ReadFull_ok `{!Reader R, !ReaderLaws R} (r : R) (d rest : list byte) :
  r_rest r = d ++ rest ->
  exists r', ReadFull r (length d) = (Ok d, r') /\ r_rest r' = rest /\ r_end r' = r_end r.
Proof.
  intros E. destruct (ReadFull_spec r (length d)) as (r' & He & H). exists r'.
  rewrite E, length_app, bool_decide_true in H by lia. destruct H as [-> ->].
  by rewrite take_app_length, drop_app_length.
Qed.

Lemma ReadFull_short `{!Reader R, !ReaderLaws R} (r : R) (n : nat) :
  (length (r_rest r) < n)%nat ->
  exists r', ReadFull r n = (Err (end_error (r_rest r) (r_end r)), r') /\ r_rest r' = [].
Proof.
  intros Hn. destruct (ReadFull_spec r n) as (r' & He & H). exists r'.
  by rewrite bool_decide_false in H by lia.
Qed.

Lemma ReadFull_inv `{!Reader R, !ReaderLaws R} (r : R) n d r' :
  ReadFull r n = (Ok d, r') ->
  length d = n /\ r_rest r = d ++ r_rest r' /\ r_end r' = r_end r.
Proof.
  intros E. destruct (ReadFull_spec r n) as (r1 & He & H). rewrite E in H.
  case_bool_decide; destruct H as [H1 H2]; simplify_eq.
  rewrite length_take, H2, take_drop. split_and!; [lia|done..].
Qed.

(** A reader that delivers its data in given chunks, some possibly empty. *)
Record source := mkSource { chunks : list (list byte); src_end : error }.

#[export] Instance source_reader : Reader source := {|
  r_read s k :=
    match chunks s with
    | [] => ([], Some (src_end s), s)
    | c :: cs =>
        (take k c, None,
         mkSource (match drop k c with [] => cs | c' => c' :: cs end) (src_end s))
    end;
  r_rest s := mjoin (chunks s);
  r_end := src_end;
  r_fuel s := (length (chunks s) + length (mjoin (chunks s)))%nat
|}.

#[export] Instance source_laws : ReaderLaws source.
Proof.
  intros [cs e0] k d e r' Hk. simpl. destruct cs as [|c cs]; intros [= <- <- <-]; simpl.
  { split_and!; auto; lia. }
  rewrite length_take. pose proof (length_drop c k) as Hd.
  destruct (drop k c) as [|b c'] eqn:E; simpl in *.
  - rewrite take_ge by lia. rewrite length_app. split_and!; auto; lia.
  - rewrite !length_app. rewrite <- (take_drop k c) at 2. rewrite E.
    split_and!; auto; [lia|by rewrite <- app_assoc|simpl; lia].
Qed.

(** ** Streams *)

(** An [io.ReadWriter] whose two directions are independent. *)
Class StreamLaws (ST : Type) `{!Reader ST, !Writer ST} : Prop := {
  stream_reader :: ReaderLaws ST;
  stream_writer :: WriterLaws ST;
  w_write_rest s p n e s' : w_write s p = (n, e, s') -> r_rest s' = r_rest s /\ r_end s' = r_end s;
  r_read_sink s k d e s' : r_read s k = (d, e, s') -> w_sink s' = w_sink s
}.

Lemma read_loop_sink `{!Reader ST, !Writer ST, !StreamLaws ST} fuel (s : ST) n acc res s' :
  read_loop fuel s n acc = (res, s') -> w_sink s' = w_sink s.
Proof.
  revert s acc; induction fuel as [|fuel IH]; intros s acc; simpl.
  - case_bool_decide; by intros [= <- <-].
  - case_bool_decide; [by intros [= <- <-]|].
    destruct (r_read s (n - length acc)) as [[d e] s1] eqn:E. apply r_read_sink in E.
    destruct e as [err|]; [|by intros ->%IH].
    case_bool_decide; [by intros [= <- <-]|].
    destruct (acc ++ d), err; by intros [= <- <-].
Qed.

Lemma ReadFull_sink `{!Reader ST, !Writer ST, !StreamLaws ST} (s : ST) n res s' :
  ReadFull s n = (res, s') -> w_sink s' = w_sink s.
Proof. apply read_loop_sink. Qed.

(** A peer that delivers [d_in] in its chunks and whose writes never fail. *)
Record duplex := mkDuplex { d_in : source; d_out : list byte }.

#[export] Instance duplex_reader : Reader duplex := {|
  r_read s k := let '(d, e, i) := r_read (d_in s) k in (d, e, mkDuplex i (d_out s));
  r_rest s := r_rest (d_in s);
  r_end s := r_end (d_in s);
  r_fuel s := r_fuel (d_in s)
|}.

#[export] Instance duplex_writer : Writer duplex := {|
  w_write s p := (blen p, None, mkDuplex (d_in s) (d_out s ++ p));
  w_sink := d_out
|}.

#[export] Instance duplex_laws : StreamLaws duplex.
Proof.
  split.
  - intros [i o] k d e s' Hk. cbn [r_read duplex_reader d_in d_out].
    destruct (r_read i k) as [[d1 e1] i1] eqn:E. intros [= <- <- <-].
    by apply r_read_spec in E.
  - intros [i o] p n e s' [= <- <- <-]. simpl. pose proof (blen_nonneg p). split; [lia|].
    unfold blen. by rewrite Nat2Z.id, take_ge by lia.
  - by intros [i o] p n e s' [= <- <- <-].
  - intros [i o] k d e s'. cbn [r_read duplex_reader d_in d_out].
    destruct (r_read i k) as [[d1 e1] i1] eqn:E. by intros [= <- <- <-].
Qed.
