(* ===== verification/GoBufio.v ===== *)
(** [bufio.Reader] over a stream, and readers that make progress.

    [bufio] is the reader's state with the stream it wraps: the bytes between its
    indices, the pending error, and the stream.  Writing through the state writes to the
    stream itself, as the callers do that keep both. *)
From S2P Require Export GoIO.
Local Open Scope Z_scope.

(** "Implementations of Read are discouraged from returning a zero byte count with a nil
    error": network streams never do. *)
Class ReaderProgress (R : Type) `{!Reader R} : Prop :=
  r_read_some : forall r k d e r', (0 < k)%nat -> r_read r k = (d, e, r') -> d <> [] \/ e <> None.

(** Writes that accept everything. *)
Class WriterReliable (W : Type) `{!Writer W} : Prop :=
  w_write_all : forall w p, exists w', w_write w p = (blen p, None, w').

Record bufio (R : Type) := mkBufio { b_buf : list byte; b_err : option error; b_rd : R }.
Arguments mkBufio {R} _ _ _.
Arguments b_buf {R} _.
Arguments b_err {R} _.
Arguments b_rd {R} _.

Definition bufSize : nat := 4096.
Definition maxConsecutiveEmptyReads : nat := 100.
Definition ErrNoProgress : error := ErrNew "multiple Read calls return no data or error".

Definition NewReader {R} (rd : R) : bufio R := mkBufio [] None rd.

Section bufio.
Context `{RD : !Reader R}.

(** [b.Read].  Go forgets the pending error once it is reported and asks the stream
    again, which reports its end again; the state keeps it. *)
Definition bufio_read (b : bufio R) (k : nat) : list byte * option error * bufio R :=
  match b_buf b with
  | [] =>
      match b_err b with
      | Some err => ([], Some err, b)
      | None =>
          if bool_decide (bufSize <= k)%nat then
            let '(d, e, rd) := r_read (b_rd b) k in (d, e, mkBufio [] e rd)
          else
            let '(d, e, rd) := r_read (b_rd b) bufSize in
            match d with
            | [] => ([], e, mkBufio [] e rd)
            | _ :: _ => (take k d, None, mkBufio (drop k d) e rd)
            end
      end
  | buf => (take k buf, None, mkBufio (drop k buf) (b_err b) (b_rd b))
  end.

#[export] Instance bufio_reader : Reader (bufio R) := {|
  r_read := bufio_read;
  r_rest b := b_buf b ++ match b_err b with None => r_rest (b_rd b) | Some _ => [] end;
  r_end b := default (r_end (b_rd b)) (b_err b);
  r_fuel b := (length (b_buf b) +
    match b_err b with None => length (r_rest (b_rd b)) + S (r_fuel (b_rd b)) | Some _ => 0 end)%nat
|}.

(** [b.fill] on an empty buffer. *)
Fixpoint fill (tries : nat) (rd : R) : bufio R :=
  match tries with
  | O => mkBufio [] (Some ErrNoProgress) rd
  | S tries =>
      let '(d, e, rd) := r_read rd bufSize in
      match e, d with
      | Some err, _ => mkBufio d (Some err) rd
      | None, _ :: _ => mkBufio d None rd
      | None, [] => fill tries rd
      end
  end.

Definition ReadByte (b : bufio R) : result byte * bufio R :=
  let take_byte b :=
    match b_buf b with
    | c :: buf => (Ok c, mkBufio buf (b_err b) (b_rd b))
    | [] => (Err (default ErrNoProgress (b_err b)), b)
    end in
  match b_buf b, b_err b with
  | [], None => take_byte (fill maxConsecutiveEmptyReads (b_rd b))
  | _, _ => take_byte b
  end.

#[export] Instance bufio_writer `{WR : !Writer R} : Writer (bufio R) := {|
  w_write b p := let '(n, e, rd) := w_write (b_rd b) p in (n, e, mkBufio (b_buf b) (b_err b) rd);
  w_sink b := w_sink (b_rd b)
|}.
End bufio.

Section laws.
Context `{RD : !Reader R, RL : !ReaderLaws R}.

#[export] Instance bufio_laws : ReaderLaws (bufio R).
Proof using RL.
  intros [buf err rd] k d e b' Hk. cbn [r_read r_rest r_end r_fuel bufio_reader]. unfold bufio_read.
  cbn [b_buf b_err b_rd]. destruct buf as [|c buf].
  - destruct err as [err|].
    { intros [= <- <- <-]. cbn. split_and!; auto; lia. }
    case_bool_decide as Hs.
    + destruct (r_read rd k) as [[d1 e1] rd1] eqn:E. intros [= <- <- <-].
      apply r_read_spec in E as (Hd & Hr & He & Hc); [|lia]. cbn [b_buf b_err b_rd app default length].
      destruct e1 as [err|].
      * destruct Hc as [-> H]. split_and!; auto. by rewrite Hr, H.
      * rewrite Hr, length_app. split_and!; auto. lia.
    + assert (0 < bufSize)%nat as Hb by (unfold bufSize; lia).
      destruct (r_read rd bufSize) as [[d1 e1] rd1] eqn:E.
      apply r_read_spec in E as (Hd & Hr & He & Hc); [|done].
      destruct d1 as [|c d1]; intros [= <- <- <-]; cbn [b_buf b_err b_rd app default].
      * destruct e1 as [err|]; [destruct Hc as [-> H]; split_and!; auto; [cbn; lia|by rewrite Hr, H]|].
        rewrite Hr. cbn [length app]. split_and!; auto; lia.
      * set (l := c :: d1) in *. rewrite length_take, length_drop, Hr, length_app.
        assert (0 < length l)%nat by (cbn; lia).
        split_and!; [lia| | |].
        { rewrite app_assoc, take_drop. destruct e1 as [err|]; [destruct Hc as [_ ->]|]; done. }
        { destruct e1 as [err|]; [by destruct Hc|done]. }
        { cbn [length]. destruct e1 as [err|]; lia. }
  - set (l := c :: buf). intros [= <- <- <-]. cbn [b_buf b_err b_rd].
    rewrite length_take, length_drop. assert (0 < length l)%nat by (cbn; lia).
    split_and!; [lia| |done|lia]. by rewrite app_assoc, take_drop.
Qed.

Context `{RP : !ReaderProgress R}.

(** [ReadByte] delivers the next byte when there is one and the end otherwise. *)
Lemma ReadByte_spec (b : bufio R) :
  exists b', r_end b' = r_end b /\
    match r_rest b with
    | c :: rest => ReadByte b = (Ok c, b') /\ r_rest b' = rest
    | [] => ReadByte b = (Err (r_end b), b') /\ r_rest b' = []
    end.
Proof using RL RP.
  destruct b as [[|c buf] [err|] rd]; cbn [r_rest r_end bufio_reader b_buf b_err b_rd app default];
    unfold ReadByte; cbn [b_buf b_err b_rd].
  - by exists (mkBufio [] (Some err) rd).
  - cbn [fill maxConsecutiveEmptyReads]. destruct (r_read rd bufSize) as [[d e] rd1] eqn:E.
    assert (0 < bufSize)%nat as Hb by (unfold bufSize; lia).
    pose proof (r_read_some rd bufSize d e rd1 Hb E) as Hp.
    apply r_read_spec in E as (_ & Hr & He & Hc); [|done]. rewrite Hr.
    destruct d as [|c d], e as [err|]; cbn [b_buf b_err b_rd app default]; [| |destruct Hc as [-> ->]|].
    + destruct Hc as [-> ->]. by exists (mkBufio [] (Some (r_end rd)) rd1).
    + by destruct Hp.
    + by exists (mkBufio d (Some (r_end rd)) rd1).
    + by exists (mkBufio d None rd1).
  - by exists (mkBufio buf (Some err) rd).
  - by exists (mkBufio buf None rd).
Qed.
End laws.

Section streams.
Context `{RD : !Reader R, WR : !Writer R, SL : !StreamLaws R}.

#[export] Instance bufio_stream : StreamLaws (bufio R).
Proof using SL.
  split.
  - apply _.
  - intros [buf err rd] p n e b'. cbn [w_write w_sink bufio_writer b_buf b_err b_rd].
    destruct (w_write rd p) as [[n1 e1] rd1] eqn:E. intros [= <- <- <-]. by apply w_write_spec in E.
  - intros [buf err rd] p n e b'. cbn [w_write bufio_writer r_rest r_end bufio_reader b_buf b_err b_rd].
    destruct (w_write rd p) as [[n1 e1] rd1] eqn:E. intros [= <- <- <-]. cbn [b_buf b_err b_rd].
    apply w_write_rest in E as [-> ->]. done.
  - intros [buf err rd] k d e b'. cbn [r_read bufio_reader]. unfold bufio_read. cbn [b_buf b_err b_rd].
    destruct buf; [|by intros [= <- <- <-]]. destruct err; [by intros [= <- <- <-]|].
    case_bool_decide.
    + destruct (r_read rd k) as [[d1 e1] rd1] eqn:E. intros [= <- <- <-]. by apply r_read_sink in E.
    + destruct (r_read rd bufSize) as [[d1 e1] rd1] eqn:E. apply r_read_sink in E.
      destruct d1; by intros [= <- <- <-].
Qed.

#[export] Instance bufio_reliable `{WA : !WriterReliable R} : WriterReliable (bufio R).
Proof.
  intros [buf err rd] p. cbn [w_write bufio_writer b_buf b_err b_rd].
  destruct (w_write_all rd p) as [rd' ->]. eauto.
Qed.

Lemma fill_sink tries (rd : R) : w_sink (b_rd (fill tries rd)) = w_sink rd.
Proof using SL.
  revert rd; induction tries as [|tries IH]; intros rd; cbn [fill]; [done|].
  destruct (r_read rd bufSize) as [[d e] rd1] eqn:E. apply r_read_sink in E.
  destruct e, d; cbn [b_rd]; try done. by rewrite IH.
Qed.

Lemma ReadByte_sink (b : bufio R) c b' : ReadByte b = (c, b') -> w_sink b' = w_sink b.
Proof using SL.
  destruct b as [buf err rd]. unfold ReadByte. cbn [b_buf b_err b_rd w_sink bufio_writer].
  pose proof (fill_sink maxConsecutiveEmptyReads rd) as Hf.
  destruct buf, err; cbn [b_buf b_err b_rd]; try by intros [= <- <-].
  destruct (fill maxConsecutiveEmptyReads rd) as [[|c1 buf] err rd1]; cbn [b_buf b_err b_rd] in *;
    by intros [= <- <-].
Qed.
End streams.

(** A network peer: at most [p_step + 1] bytes of its data arrive per read, and what it is
    sent is kept. *)
Record peer := mkPeer { p_in : list byte; p_step : nat; p_end : error; p_out : list byte }.

#[export] Instance peer_reader : Reader peer := {|
  r_read s k :=
    match p_in s with
    | [] => ([], Some (p_end s), s)
    | l => (take (k `min` S (p_step s)) l, None,
            mkPeer (drop (k `min` S (p_step s)) l) (p_step s) (p_end s) (p_out s))
    end;
  r_rest := p_in;
  r_end := p_end;
  r_fuel s := length (p_in s)
|}.
#[export] Instance peer_writer : Writer peer := {|
  w_write s p := (blen p, None, mkPeer (p_in s) (p_step s) (p_end s) (p_out s ++ p));
  w_sink := p_out
|}.

#[export] Instance peer_laws : StreamLaws peer.
Proof.
  split.
  - intros [[|c l] n e0 o] k d e s' Hk; cbn [r_read peer_reader p_in p_step p_end p_out].
    { intros [= <- <- <-]. cbn. split_and!; auto; lia. }
    set (i := c :: l). intros [= <- <- <-]. cbn [r_rest r_end r_fuel peer_reader p_in p_step p_end p_out].
    rewrite length_take, length_drop, take_drop. assert (0 < length i)%nat by (cbn; lia).
    split_and!; auto; lia.
  - intros s p n e s' [= <- <- <-]. cbn. pose proof (blen_nonneg p). split; [lia|].
    unfold blen. by rewrite Nat2Z.id, take_ge by lia.
  - by intros s p n e s' [= <- <- <-].
  - intros [[|c l] n e0 o] k d e s'; cbn [r_read peer_reader p_in p_step p_end p_out]; by intros [= <- <- <-].
Qed.
#[export] Instance peer_progress : ReaderProgress peer.
Proof.
  intros [[|c l] n e0 o] k d e s' Hk; cbn [r_read peer_reader p_in p_step]; intros [= <- <- <-]; [by right|].
  left. destruct k; [lia|done].
Qed.
#[export] Instance peer_reliable : WriterReliable peer.
Proof. intros s p. by eexists. Qed.
