(* ===== verification/GoIP.v ===== *)
(** [net.IP.String] of Go's standard library, for addresses of 4 and 16 bytes. *)
From S2P Require Export GoNet.
Local Open Scope Z_scope.

Definition join (sep : string) (l : list string) : string :=
  match l with
  | [] => ""
  | s :: l => foldl (fun acc s => acc +:+ sep +:+ s) s l
  end.

Definition ip4_string (ip : list byte) : string := join "." (itoa ∘ byte_Z <$> ip).

(** The eight 16-bit groups. *)
Fixpoint groups (ip : list byte) : list Z :=
  match ip with
  | a :: b :: ip => (byte_Z a * 256 + byte_Z b) :: groups ip
  | _ => []
  end.

(** Lower-case hexadecimal without leading zeros. *)
Definition hex16 (v : Z) : string :=
  string_of ((if 0x1000 <=? v then [hex_digit (v / 4096)] else []) ++
             (if 0x100 <=? v then [hex_digit (v / 256 mod 16)] else []) ++
             (if 0x10 <=? v then [hex_digit (v / 16 mod 16)] else []) ++
             [hex_digit (v mod 16)]).

Fixpoint zero_run (l : list Z) : nat :=
  match l with 0 :: l => S (zero_run l) | _ => O end.

(** The first longest run of at least two zero groups, as its bounds. *)
Fixpoint longest_zeros (i : nat) (l : list Z) (best : option (nat * nat)) : option (nat * nat) :=
  match l with
  | [] => best
  | _ :: rest =>
      let n := zero_run l in
      let size := match best with Some (s, e) => (e - s)%nat | None => O end in
      longest_zeros (S i) rest
        (if bool_decide (2 <= n)%nat && bool_decide (size < n)%nat then Some (i, i + n)%nat else best)
  end.

Definition ip6_string (ip : list byte) : string :=
  let l := groups ip in
  match longest_zeros 0 l None with
  | None => join ":" (hex16 <$> l)
  | Some (s, e) => join ":" (hex16 <$> take s l) +:+ "::" +:+ join ":" (hex16 <$> drop e l)
  end.

Definition v4_prefix : list byte := replicate 10 x00 ++ [xff; xff].

Definition IP_String (ip : list byte) : string :=
  match length ip with
  | 0%nat => "<nil>"
  | 4%nat => ip4_string ip
  | 16%nat => if bool_decide (take 12 ip = v4_prefix) then ip4_string (drop 12 ip) else ip6_string ip
  | _ => "?" +:+ hex_encode ip
  end.

Example ip_strings :
  IP_String [x7f; x00; x00; x01] = "127.0.0.1" /\
  IP_String (v4_prefix ++ [x0a; x00; x00; xff]) = "10.0.0.255" /\
  IP_String (replicate 15 x00 ++ [x01]) = "::1" /\
  IP_String (replicate 16 x00) = "::" /\
  IP_String ([x20; x01; x0d; xb8] ++ replicate 10 x00 ++ [x00; x10]) = "2001:db8::10" /\
  IP_String ([x00;x01; x00;x00; x00;x02; x00;x00; x00;x00; x00;x03; x00;x00; x00;x00]) = "1:0:2::3:0:0".
Proof. vm_compute. by repeat split. Qed.
