(* ===== verification/Datagram.v ===== *)
(** [protocol/datagram]: UDP packet boundaries over a reliable byte stream.

    [Write] and [Read] follow protocol/datagram/frames.go; the writer and the
    reader are the interfaces of [GoIO]. *)
From S2P Require Export GoIO.
Local Open Scope Z_scope.

Definition HeaderLength : nat := 2.
Definition MaxPayloadLength : Z := 65535.

Definition ErrPayloadTooLarge : error := ErrNew "datagram payload exceeds 65535 bytes".

Section write.
Context `{!Writer W}.

(** The loop of [writeAll]; every iteration that continues consumes at
    least one byte, so [len(value)] iterations are enough. *)
Fixpoint writeAll_loop (fuel : nat) (w : W) (value : list byte) : option error * W :=
  match value with
  | [] => (None, w)
  | _ =>
      match fuel with
      | O => (Some (ErrNew "unreachable"), w)
      | S fuel' =>
          let '(count, err, w') := w_write w value in
          let value := if 0 <? count then drop (Z.to_nat count) value else value in
          match err with
          | Some e => (Some e, w')
          | None =>
              if count =? 0 then (Some ErrShortWrite, w')
              else writeAll_loop fuel' w' value
          end
      end
  end.

Definition writeAll (w : W) (value : list byte) : option error * W :=
  writeAll_loop (length value) w value.

Definition Write (w : W) (payload : list byte) : option error * W :=
  if MaxPayloadLength <? blen payload then (Some ErrPayloadTooLarge, w)
  else
    let header := put_be HeaderLength (wrapU 16 (blen payload)) in
    match writeAll w header with
    | (Some err, w) => (Some (Wrapf "write datagram header: %w" [] err), w)
    | (None, w) =>
        match writeAll w payload with
        | (Some err, w) => (Some (Wrapf "write datagram payload: %w" [] err), w)
        | (None, w) => (None, w)
        end
    end.
End write.

Section read.
Context `{!Reader R}.

Definition Read (r : R) : result (list byte) * R :=
  match ReadFull r HeaderLength with
  | (Err err, r) => (Err err, r)
  | (Ok header, r) =>
      match ReadFull r (Z.to_nat (get_be header)) with
      | (Err err, r) => (Err (Wrapf "read datagram payload: %w" [] err), r)
      | (Ok payload, r) => (Ok payload, r)
      end
  end.
End read.

(** The bytes of one frame. *)
Definition frame (payload : list byte) : list byte :=
  put_be HeaderLength (blen payload) ++ payload.

(** ** Lemmas *)

Section write_lemmas.
Context `{!Writer W, !WriterLaws W}.

(** Whatever happens, a prefix of the value has been written; on success all of it. *)
Lemma writeAll_loop_spec fuel (w : W) value err w' :
  (length value <= fuel)%nat ->
  writeAll_loop fuel w value = (err, w') ->
  exists k, w_sink w' = w_sink w ++ take k value /\
            (err = None -> (length value <= k)%nat).
Proof.
  revert w value. induction fuel as [|fuel IH]; intros w [|b value] Hf;
    try (intros [= <- <-]; exists 0%nat; simpl; rewrite app_nil_r; split; [done|lia]);
    [simpl in Hf; lia|].
  cbn [writeAll_loop]. destruct (w_write w (b :: value)) as [[n e] w1] eqn:E.
  apply w_write_spec in E as [Hn Hs]. unfold blen in Hn.
  destruct e as [e|]; [intros [= <- <-]; by exists (Z.to_nat n)|].
  destruct (Z.eqb_spec n 0) as [->|Hn0].
  { intros [= <- <-]. by exists 0%nat. }
  rewrite (proj2 (Z.ltb_lt 0 n)) by lia.
  intros H. apply IH in H as (k & Hk & Hlen); [|rewrite length_drop; lia].
  exists (Z.to_nat n + k)%nat. rewrite Hk, Hs, <- app_assoc. split.
  - by rewrite take_take_drop.
  - intros He. specialize (Hlen He). rewrite length_drop in Hlen. lia.
Qed.

Lemma writeAll_ok (w : W) value w' :
  writeAll w value = (None, w') -> w_sink w' = w_sink w ++ value.
Proof.
  intros H. apply writeAll_loop_spec in H as (k & -> & Hk); [|done].
  by rewrite take_ge by auto.
Qed.

Lemma writeAll_prefix (w : W) value err w' :
  writeAll w value = (err, w') ->
  exists k, w_sink w' = w_sink w ++ take k value.
Proof. intros H. apply writeAll_loop_spec in H as (k & -> & _); eauto. Qed.

(** The iteration bound is never the reason to stop. *)
Lemma writeAll_loop_fuel fuel fuel' (w : W) value :
  (length value <= fuel)%nat -> (length value <= fuel')%nat ->
  writeAll_loop fuel w value = writeAll_loop fuel' w value.
Proof.
  revert fuel' w value. induction fuel as [|fuel IH];
    intros [|fuel'] w [|b value] H1 H2; simpl in H1, H2; try done; try lia.
  cbn [writeAll_loop]. destruct (w_write w (b :: value)) as [[n e] w1] eqn:E.
  apply w_write_spec in E as [Hn _]. unfold blen in Hn.
  destruct e; [done|]. destruct (Z.eqb_spec n 0); [done|].
  rewrite (proj2 (Z.ltb_lt 0 n)) by lia.
  apply IH; rewrite length_drop; simpl; lia.
Qed.

Lemma Write_ok (w : W) payload w' :
  Write w payload = (None, w') ->
  blen payload <= MaxPayloadLength /\ w_sink w' = w_sink w ++ frame payload.
Proof.
  unfold Write. destruct (Z.ltb_spec MaxPayloadLength (blen payload)) as [|Hle]; [done|].
  destruct (writeAll w _) as [[e|] w1] eqn:E1; [done|].
  destruct (writeAll w1 _) as [[e|] w2] eqn:E2; [done|]. intros [= <-].
  split; [done|]. apply writeAll_ok in E1, E2. rewrite E2, E1, <- app_assoc.
  unfold frame. rewrite wrapU_small; [done|].
  pose proof (blen_nonneg payload). unfold is_uint, MaxPayloadLength in *. lia.
Qed.
End write_lemmas.

Lemma frame_header payload : blen payload <= MaxPayloadLength ->
  get_be (put_be HeaderLength (blen payload)) = blen payload.
Proof.
  intros H. unfold HeaderLength. rewrite get_put_be. apply Z.mod_small.
  pose proof (blen_nonneg payload). unfold MaxPayloadLength in H. lia.
Qed.

Section read_lemmas.
Context `{!Reader R, !ReaderLaws R}.

Lemma Read_frame (r : R) payload rest :
  blen payload <= MaxPayloadLength ->
  r_rest r = frame payload ++ rest ->
  exists r', Read r = (Ok payload, r') /\ r_rest r' = rest /\ r_end r' = r_end r.
Proof.
  intros Hlen E. unfold frame in E. rewrite <- app_assoc in E. unfold Read.
  destruct (ReadFull_ok r _ _ E) as (r1 & E1 & H1 & He1).
  rewrite length_put_be in E1. rewrite E1, frame_header by done.
  destruct (ReadFull_ok r1 payload rest H1) as (r2 & E2 & H2 & He2).
  unfold blen. rewrite Nat2Z.id, E2. exists r2. by rewrite He2.
Qed.
End read_lemmas.

(** ** Sequences of datagrams *)

(** Successive [Write]s, stopping at the first error. *)
Fixpoint WriteMany `{!Writer W} (w : W) (payloads : list (list byte)) : option error * W :=
  match payloads with
  | [] => (None, w)
  | p :: ps => match Write w p with
               | (None, w) => WriteMany w ps
               | (Some e, w) => (Some e, w)
               end
  end.

(** The receiving loop: [Read] until it fails, at most [n] times. *)
Fixpoint ReadMany `{!Reader R} (n : nat) (r : R)
    : list (list byte) * option error * R :=
  match n with
  | O => ([], None, r)
  | S n => match Read r with
           | (Err e, r) => ([], Some e, r)
           | (Ok p, r) => let '(ps, e, r) := ReadMany n r in (p :: ps, e, r)
           end
  end.

Lemma WriteMany_ok `{!Writer W, !WriterLaws W} (w : W) ps w' :
  WriteMany w ps = (None, w') ->
  Forall (fun p => blen p <= MaxPayloadLength) ps /\
  w_sink w' = w_sink w ++ mjoin (frame <$> ps).
Proof.
  revert w; induction ps as [|p ps IH]; intros w; simpl.
  - intros [= <-]. by rewrite app_nil_r.
  - destruct (Write w p) as [[e|] w1] eqn:E; [done|]. apply Write_ok in E as [Hp E].
    intros [Hps ->]%IH. rewrite E, <- app_assoc. split; [by constructor|done].
Qed.

Lemma Read_end `{!Reader R, !ReaderLaws R} (r : R) :
  r_rest r = [] -> exists r', Read r = (Err (r_end r), r').
Proof.
  intros E. destruct (ReadFull_short r HeaderLength) as (r' & H & _).
  { rewrite E. unfold HeaderLength. simpl. lia. }
  exists r'. unfold Read. rewrite H, E. done.
Qed.

Lemma ReadMany_frames `{!Reader R, !ReaderLaws R} (r : R) ps :
  Forall (fun p => blen p <= MaxPayloadLength) ps ->
  r_rest r = mjoin (frame <$> ps) ->
  exists r', ReadMany (S (length ps)) r = (ps, Some (r_end r), r').
Proof.
  intros Hps. revert r; induction Hps as [|p ps Hp Hps IH]; intros r E.
  - destruct (Read_end r E) as (r' & H). exists r'. simpl. by rewrite H.
  - destruct (Read_frame r p (mjoin (frame <$> ps)) Hp E) as (r1 & H1 & E1 & He).
    destruct (IH r1 E1) as (r2 & H2). exists r2.
    change (ReadMany (S (length (p :: ps))) r) with
      (match Read r with
       | (Err e, r) => ([], Some e, r)
       | (Ok p, r) => let '(ps, e, r) := ReadMany (S (length ps)) r in (p :: ps, e, r)
       end).
    rewrite H1, H2, He. done.
Qed.

(** ** Properties *)

(** Packet boundaries survive the byte stream.  If a list of payloads is
    written without error, through a writer that may accept them piecemeal, then
    any reader that delivers the written bytes, in whatever chunks, yields exactly
    these payloads in order and then the end of the stream. *)
Theorem datagram_stream_roundtrip
    `{!Writer W, !WriterLaws W, !Reader R, !ReaderLaws R} (w w' : W) (r : R) ps :
  w_sink w = [] -> WriteMany w ps = (None, w') -> r_rest r = w_sink w' ->
  exists r', ReadMany (S (length ps)) r = (ps, Some (r_end r), r').
Proof.
  intros H0 Hw Hr. apply WriteMany_ok in Hw as [Hps Hs].
  apply ReadMany_frames; [done|]. by rewrite Hr, Hs, H0.
Qed.

(** Two datagrams, the second empty, written through a writer that accepts one
    byte, then two, and read in odd chunks. *)
Lemma datagram_stream_roundtrip_witness :
  exists r', ReadMany 3 (mkSource [[x00]; []; [x03; x61]; [x62; x63; x00; x00]] EOF)
             = ([[x61; x62; x63]; []], Some EOF, r').
Proof.
  exact (datagram_stream_roundtrip (mkSink [] [(1, None); (1, None); (2, None)])
           (mkSink [x00; x03; x61; x62; x63; x00; x00] [])
           (mkSource [[x00]; []; [x03; x61]; [x62; x63; x00; x00]] EOF)
           [[x61; x62; x63]; []] eq_refl eq_refl eq_refl).
Defined.

(** Truncation.  When the peer's stream ends inside a frame, [Read] fails
    and never invents a payload; the error counts as a clean [io.EOF] exactly when
    the stream ended before the frame or right after its header. *)
Theorem datagram_truncated `{!Reader R, !ReaderLaws R} (r : R) payload k :
  blen payload <= MaxPayloadLength -> (k < length (frame payload))%nat ->
  r_rest r = take k (frame payload) -> r_end r = EOF ->
  exists e r', Read r = (Err e, r') /\
    errors_Is e EOF = bool_decide (k = 0%nat \/ k = HeaderLength).
Proof.
  intros Hp Hk Hr He. unfold frame in *. rewrite length_app, length_put_be in Hk.
  destruct (decide (k < HeaderLength)%nat) as [Hlt|Hge].
  - destruct (ReadFull_short r HeaderLength) as (r' & H & _).
    { rewrite Hr, length_take. lia. }
    eexists _, r'. unfold Read. rewrite H. split; [done|]. rewrite Hr, He.
    unfold HeaderLength in *. destruct k as [|[|k]]; [done| |lia].
    rewrite bool_decide_false by lia. done.
  - rewrite take_app_ge, length_put_be in Hr by (rewrite length_put_be; lia).
    destruct (ReadFull_ok r _ _ Hr) as (r1 & E1 & H1 & He1). rewrite length_put_be in E1.
    destruct (ReadFull_short r1 (Z.to_nat (blen payload))) as (r2 & E2 & _).
    { rewrite H1, length_take. unfold blen. lia. }
    eexists _, r2. unfold Read. rewrite E1, frame_header, E2 by done. split; [done|].
    rewrite H1, He1, He. unfold HeaderLength in *.
    destruct (k - 2)%nat as [|m] eqn:Ek.
    + rewrite bool_decide_true by lia. done.
    + rewrite bool_decide_false by lia. destruct payload; [simpl in Hk; lia|]. done.
Qed.

(** A stream that ends right after the header of a three-byte datagram. *)
Lemma datagram_truncated_witness :
  exists e r', Read (mkSource [[x00; x03]] EOF) = (Err e, r') /\ errors_Is e EOF = true.
Proof.
  apply (datagram_truncated (mkSource [[x00; x03]] EOF) [x61; x62; x63] 2);
    vm_compute; try reflexivity; try discriminate; lia.
Defined.
