(* ===== verification/PtyFrames.v ===== *)
(** [protocol/pty]: the typed frames of an interactive terminal session
    (protocol/pty/frames.go). *)
From S2P Require Export GoIO.
Local Open Scope Z_scope.

Definition FrameData : byte := x00.
Definition FrameResize : byte := x01.
Definition MaxFrameLength : Z := 1024 * 1024.

Record Frame := mkFrame { f_Type : byte; f_Data : list byte }.

Definition errFrameTooLong : error := Errorf "PTY frame exceeds %d bytes" [AInt MaxFrameLength].

Section write.
Context `{!Writer W}.

Fixpoint writeFull_loop (fuel : nat) (w : W) (value : list byte) : option error * W :=
  match value with
  | [] => (None, w)
  | _ =>
      match fuel with
      | O => (Some (ErrNew "unreachable"), w)
      | S fuel' =>
          match w_write w value with
          | (_, Some err, w') => (Some err, w')
          | (count, None, w') =>
              if count =? 0 then (Some ErrShortWrite, w')
              else writeFull_loop fuel' w' (drop (Z.to_nat count) value)
          end
      end
  end.

Definition writeFull (w : W) (value : list byte) : option error * W :=
  writeFull_loop (length value) w value.

Definition WriteFrame (w : W) (kind : byte) (data : list byte) : option error * W :=
  if MaxFrameLength <? blen data then (Some errFrameTooLong, w)
  else
    let header := kind :: put_be 4 (wrapU 32 (blen data)) in
    match writeFull w header with
    | (Some err, w) => (Some err, w)
    | (None, w) => writeFull w data
    end.
End write.

Section read.
Context `{!Reader R}.

Definition ReadFrame (r : R) : result Frame * R :=
  match ReadFull r 5 with
  | (Err err, r) => (Err err, r)
  | (Ok header, r) =>
      let length := get_be (drop 1 header) in
      if MaxFrameLength <? length then (Err errFrameTooLong, r)
      else match ReadFull r (Z.to_nat length) with
           | (Err _, r) => (Err (ErrNew "PTY stream ended inside a frame"), r)
           | (Ok data, r) => (Ok (mkFrame (hd x00 header) data), r)
           end
  end.
End read.

Definition EncodeResize (columns rows : Z) : list byte :=
  let columns := if columns =? 0 then 1 else columns in
  let rows := if rows =? 0 then 1 else rows in
  put_be 2 columns ++ put_be 2 rows.

Definition DecodeResize (value : list byte) : result (Z * Z) :=
  if negb (blen value =? 4) then Err (ErrNew "PTY resize payload must contain 4 bytes")
  else
    let columns := get_be (slice value 0 2) in
    let rows := get_be (slice value 2 4) in
    let columns := if columns =? 0 then 1 else columns in
    let rows := if rows =? 0 then 1 else rows in
    Ok (columns, rows).

(** The bytes of one frame. *)
Definition encode (f : Frame) : list byte := f_Type f :: put_be 4 (blen (f_Data f)) ++ f_Data f.

(** ** Lemmas *)

Section write_lemmas.
Context `{!Writer W, !WriterLaws W}.

Lemma writeFull_loop_spec fuel (w : W) value err w' :
  (length value <= fuel)%nat ->
  writeFull_loop fuel w value = (err, w') ->
  exists k, w_sink w' = w_sink w ++ take k value /\
            (err = None -> (length value <= k)%nat).
Proof.
  revert w value. induction fuel as [|fuel IH]; intros w [|b value] Hf;
    try (intros [= <- <-]; exists 0%nat; simpl; rewrite app_nil_r; split; [done|lia]);
    [simpl in Hf; lia|].
  cbn [writeFull_loop]. destruct (w_write w (b :: value)) as [[n e] w1] eqn:E.
  apply w_write_spec in E as [Hn Hs]. unfold blen in Hn.
  destruct e as [e|]; [intros [= <- <-]; by exists (Z.to_nat n)|].
  destruct (Z.eqb_spec n 0) as [->|Hn0].
  { intros [= <- <-]. by exists 0%nat. }
  intros H. apply IH in H as (k & Hk & Hlen); [|rewrite length_drop; lia].
  exists (Z.to_nat n + k)%nat. rewrite Hk, Hs, <- app_assoc. split.
  - by rewrite take_take_drop.
  - intros He. specialize (Hlen He). rewrite length_drop in Hlen. lia.
Qed.

Lemma writeFull_ok (w : W) value w' :
  writeFull w value = (None, w') -> w_sink w' = w_sink w ++ value.
Proof.
  intros H. apply writeFull_loop_spec in H as (k & -> & Hk); [|done].
  by rewrite take_ge by auto.
Qed.

Lemma WriteFrame_ok (w : W) kind data w' :
  WriteFrame w kind data = (None, w') ->
  blen data <= MaxFrameLength /\ w_sink w' = w_sink w ++ encode (mkFrame kind data).
Proof.
  unfold WriteFrame. destruct (Z.ltb_spec MaxFrameLength (blen data)) as [|Hle]; [done|].
  destruct (writeFull w _) as [[e|] w1] eqn:E1; [done|]. intros E2.
  split; [done|]. apply writeFull_ok in E1, E2. rewrite E2, E1, <- app_assoc.
  unfold encode; simpl. rewrite wrapU_small; [done|].
  pose proof (blen_nonneg data). unfold is_uint, MaxFrameLength in *. lia.
Qed.
End write_lemmas.

Section read_lemmas.
Context `{!Reader R, !ReaderLaws R}.

Lemma ReadFrame_encode (r : R) f rest :
  blen (f_Data f) <= MaxFrameLength ->
  r_rest r = encode f ++ rest ->
  exists r', ReadFrame r = (Ok f, r') /\ r_rest r' = rest /\ r_end r' = r_end r.
Proof.
  intros Hlen E. destruct f as [k d]. unfold encode in E. cbn [f_Type f_Data] in *.
  rewrite app_comm_cons, <- app_assoc in E. unfold ReadFrame.
  destruct (ReadFull_ok r _ _ E) as (r1 & E1 & H1 & He1).
  cbn [length] in E1. rewrite length_put_be in E1. rewrite E1.
  change (drop 1 (k :: put_be 4 (blen d))) with (put_be 4 (blen d)).
  rewrite get_put_be, Z.mod_small
    by (pose proof (blen_nonneg d); unfold MaxFrameLength in *; lia).
  rewrite (proj2 (Z.ltb_ge _ _)) by done.
  destruct (ReadFull_ok r1 d rest H1) as (r2 & E2 & H2 & He2).
  unfold blen. rewrite Nat2Z.id, E2. exists r2. by rewrite He2.
Qed.

Lemma ReadFrame_inv (r : R) f r' :
  ReadFrame r = (Ok f, r') ->
  blen (f_Data f) <= MaxFrameLength /\ r_rest r = encode f ++ r_rest r'.
Proof.
  unfold ReadFrame. destruct (ReadFull r 5) as [[h|e] r1] eqn:E1; [|done].
  apply ReadFull_inv in E1 as (Hh & E1 & _).
  destruct h as [|k h]; [done|]. injection Hh as Hh.
  change (drop 1 (k :: h)) with h. cbn [hd].
  destruct (Z.ltb_spec MaxFrameLength (get_be h)) as [|Hle]; [done|].
  destruct (ReadFull r1 _) as [[d|e] r2] eqn:E2; [|done]. intros [= <- <-].
  apply ReadFull_inv in E2 as (Hd & E2 & _). cbn [f_Data].
  pose proof (get_be_range h). assert (blen d = get_be h) as Hb by (unfold blen; lia).
  split; [lia|]. rewrite E1, E2. unfold encode; cbn [f_Type f_Data].
  rewrite Hb, <- Hh, put_get_be. cbn. by rewrite <- app_assoc.
Qed.
End read_lemmas.

(** ** Properties *)

(** The PTY framing is lossless and unambiguous.  A frame written
    without error is read back as the same type and data whatever follows it; and
    every frame the reader accepts is one [WriteFrame] would have produced, of at
    most one mebibyte. *)
Theorem pty_frame_roundtrip
    `{!Writer W, !WriterLaws W, !Reader R, !ReaderLaws R} (w w' : W) kind data :
  WriteFrame w kind data = (None, w') ->
  (forall (r : R) rest, w_sink w ++ r_rest r = w_sink w' ++ rest ->
    exists r', ReadFrame r = (Ok (mkFrame kind data), r') /\ r_rest r' = rest) /\
  (forall (r r' : R) f, ReadFrame r = (Ok f, r') ->
    blen (f_Data f) <= MaxFrameLength /\ r_rest r = encode f ++ r_rest r').
Proof.
  intros Hw. apply WriteFrame_ok in Hw as [Hlen Hs]. split; [|intros; by apply ReadFrame_inv].
  intros r rest E. rewrite Hs, <- app_assoc in E. apply app_inv_head in E.
  destruct (ReadFrame_encode r (mkFrame kind data) rest Hlen E) as (r' & H & Hr & _).
  by exists r'.
Qed.

Lemma pty_frame_roundtrip_witness :
  exists r', ReadFrame (mkSource [[x01; x00]; [x00; x00; x02; x50; x18; x07]] EOF)
             = (Ok (mkFrame x01 [x50; x18]), r') /\ r_rest r' = [x07].
Proof.
  destruct (pty_frame_roundtrip (W := sink) (R := source) (mkSink [] [(3, None)])
    (mkSink [x01; x00; x00; x00; x02; x50; x18] []) x01 [x50; x18]) as [H _];
    [vm_compute; reflexivity|].
  apply (H (mkSource [[x01; x00]; [x00; x00; x02; x50; x18; x07]] EOF) [x07]). reflexivity.
Defined.

Lemma DecodeResize_Encode columns rows :
  is_uint 16 columns -> is_uint 16 rows ->
  DecodeResize (EncodeResize columns rows) = Ok (Z.max 1 columns, Z.max 1 rows).
Proof.
  unfold is_uint. intros Hc Hr.
  unfold DecodeResize, EncodeResize.
  set (c := if columns =? 0 then 1 else columns).
  set (r := if rows =? 0 then 1 else rows).
  assert (c = Z.max 1 columns /\ r = Z.max 1 rows) as [Ec Er]
    by (unfold c, r; split; case_match; lia).
  rewrite blen_app. unfold blen at 1 2. rewrite !length_put_be. cbn [negb].
  change (negb (Z.of_nat 2 + Z.of_nat 2 =? 4)) with false. cbv iota.
  unfold slice. rewrite drop_0. change (2 - 0)%nat with 2%nat. change (4 - 2)%nat with 2%nat.
  rewrite take_app_length' by done.
  rewrite drop_app_length' by done.
  rewrite take_ge by (rewrite length_put_be; lia).
  rewrite !get_put_be, !Z.mod_small by lia.
  rewrite Ec, Er. repeat case_match; do 2 f_equal; lia.
Qed.

(** Window sizes survive the wire, with a zero dimension raised to one,
    and the decoder accepts four bytes only and never yields a zero dimension. *)
Theorem pty_resize_roundtrip columns rows value :
  is_uint 16 columns -> is_uint 16 rows ->
  DecodeResize (EncodeResize columns rows) = Ok (Z.max 1 columns, Z.max 1 rows) /\
  match DecodeResize value with
  | Ok (c, r) => length value = 4%nat /\ 1 <= c < 65536 /\ 1 <= r < 65536
  | Err _ => length value <> 4%nat
  end.
Proof.
  intros Hc Hr. split.
  - by apply DecodeResize_Encode.
  - unfold DecodeResize. destruct (Z.eqb_spec (blen value) 4) as [E|E]; unfold blen in E; simpl.
    + pose proof (get_be_range (slice value 0 2)) as H1.
      pose proof (get_be_range (slice value 2 4)) as H2.
      rewrite length_slice in H1, H2 by lia. simpl in H1, H2.
      split_and!; [lia|..]; case_match; lia.
    + lia.
Qed.

Lemma pty_resize_roundtrip_witness :
  DecodeResize (EncodeResize 0 24) = Ok (1, 24) /\ length [x00; x01; x00] <> 4%nat.
Proof. apply (pty_resize_roundtrip 0 24 [x00; x01; x00]); unfold is_uint; lia. Defined.
