(* ===== verification/Ext.v ===== *)
(** The packages the program calls and that are not part of the repository, as
    interfaces: libp2p's peer, multiaddr and key packages, the CBOR codec
    (github.com/fxamacker/cbor), and the cryptographic primitives.  Each is a
    class of operations with a class of laws; the laws state documented
    behaviour only.  [ExtModel] gives instances that satisfy every law. *)
From S2P Require Export GoStrings GoTime.
Local Open Scope Z_scope.

(** ** libp2p peers and multiaddrs *)

(** A [peer.ID] is a Go string of raw bytes; [peer_String] is its text form. *)
Class Libp2p := {
  Multiaddr : Type;
  Multiaddr_eq_dec :: EqDecision Multiaddr;
  ma_String : Multiaddr -> string;
  NewMultiaddr : string -> result Multiaddr;
  AddrInfoFromP2pAddr : Multiaddr -> result (string * list Multiaddr);
  peer_String : string -> string;
  peer_Decode : string -> result string
}.

Class Libp2pLaws `{!Libp2p} : Prop := {
  NewMultiaddr_String m : NewMultiaddr (ma_String m) = Ok m;
  peer_Decode_String id id' : peer_Decode (peer_String id) = Ok id' -> id' = id
}.

#[export] Instance ma_String_inj `{!Libp2p, !Libp2pLaws} : Inj (=) (=) ma_String.
Proof.
  intros a b E. apply (f_equal NewMultiaddr) in E.
  rewrite !NewMultiaddr_String in E. congruence.
Qed.

(** ** libp2p keys *)

Class Keys := {
  PrivKey : Type;
  PubKey : Type;
  GetPublic : PrivKey -> PubKey;
  IDFromPublicKey : PubKey -> result string;
  key_Sign : PrivKey -> list byte -> result (list byte);
  key_Verify : PubKey -> list byte -> list byte -> result bool;
  MarshalPublicKey : PubKey -> result (list byte);
  UnmarshalPublicKey : list byte -> result PubKey
}.

(** [peer.IDFromPrivateKey(sk)] is [IDFromPublicKey(sk.GetPublic())]. *)
Definition IDFromPrivateKey `{!Keys} (sk : PrivKey) : result string :=
  IDFromPublicKey (GetPublic sk).

Class KeysLaws `{!Keys} : Prop := {
  key_Verify_Sign sk msg sig :
    key_Sign sk msg = Ok sig -> key_Verify (GetPublic sk) msg sig = Ok true;
  UnmarshalPublicKey_Marshal pk b :
    MarshalPublicKey pk = Ok b -> UnmarshalPublicKey b = Ok pk
}.

(** ** CBOR *)

(** Go values handed to or produced by the codec, with their dynamic type. *)
Inductive any :=
  | VUint64 (n : Z)
  | VInt64 (n : Z)
  | VString (s : string)
  | VBytes (b : list byte)
  | VStrings (l : list string)
  | VUint64s (l : list Z)
  | VOther (raw : list byte).

#[export] Instance any_eq_dec : EqDecision any.
Proof. solve_decision. Defined.

(** The limits of a [cbor.DecMode] that matter for the documents of the program. *)
Record DecMode := { MaxArrayElements : Z; MaxMapPairs : Z }.

Class Cbor := {
  (** [canonical.Marshal] of a [map[uint64]any]. *)
  Marshal : gmap Z any -> result (list byte);
  (** [strict.Unmarshal] into a [map[uint64]cbor.RawMessage] *)
  UnmarshalRaw : DecMode -> list byte -> result (gmap Z (list byte));
  (** into a [map[uint64]any] *)
  UnmarshalAny : DecMode -> list byte -> result (gmap Z any);
  (** and of one raw message into a [uint64], a [string], a [[]byte], a
      [[]string] and a [[]uint64]. *)
  UnmarshalUint : DecMode -> list byte -> result Z;
  UnmarshalText : DecMode -> list byte -> result string;
  UnmarshalBytes : DecMode -> list byte -> result (list byte);
  UnmarshalTexts : DecMode -> list byte -> result (list string);
  UnmarshalUints : DecMode -> list byte -> result (list Z);
  (** The canonical encoding of one value, which the laws mention. *)
  MarshalItem : any -> list byte
}.

(** The values the program encodes, within the limits of the decoder. *)
Definition encodable (mode : DecMode) (v : any) : Prop :=
  match v with
  | VUint64 n => is_uint 64 n
  | VInt64 _ | VOther _ => False
  | VString s => ValidString s = true /\ slen s < 2 ^ 32
  | VBytes b => blen b < 2 ^ 32
  | VStrings l => Forall (fun s => ValidString s = true /\ slen s < 2 ^ 32) l /\
                  Z.of_nat (length l) <= MaxArrayElements mode < 2 ^ 32
  | VUint64s l => Forall (is_uint 64) l /\ Z.of_nat (length l) <= MaxArrayElements mode < 2 ^ 32
  end.

Definition encodable_map (mode : DecMode) (m : gmap Z any) : Prop :=
  map_Forall (fun k v => is_uint 64 k /\ encodable mode v) m /\
  Z.of_nat (size m) <= MaxMapPairs mode < 2 ^ 32.

Lemma encodable_map_empty mode : 0 <= MaxMapPairs mode < 2 ^ 32 -> encodable_map mode ∅.
Proof. intros. split; [apply map_Forall_empty|]. rewrite map_size_empty. lia. Qed.

(** Adding a field to a document of at most [n] fields. *)
Lemma encodable_map_insert mode m k v :
  encodable_map mode m -> is_uint 64 k -> encodable mode v ->
  Z.of_nat (size m) < MaxMapPairs mode -> encodable_map mode (<[k := v]> m).
Proof.
  intros [Hm [_ Hn]] Hk Hv Hs. split; [by apply map_Forall_insert_2|].
  rewrite map_size_insert. case_match; simpl; lia.
Qed.

Lemma size_insert_le (m : gmap Z any) k v n :
  Z.of_nat (size m) <= n -> Z.of_nat (size (<[k := v]> m)) <= Z.succ n.
Proof. intros. rewrite map_size_insert. case_match; simpl; lia. Qed.

(** Reduces [encodable_map] of a literal map to its values. *)
Ltac enc_map :=
  rewrite <- ?insert_empty;
  repeat (apply encodable_map_insert;
    [ | by vm_compute | cbn [encodable]
      | eapply Z.le_lt_trans;
        [ repeat apply size_insert_le; rewrite map_size_empty; reflexivity | by vm_compute ] ]);
  try (apply encodable_map_empty; by vm_compute).

(** Decoding into [any] yields a signed integer for an unsigned one. *)
Definition as_any (v : any) : any := match v with VUint64 n => VInt64 n | _ => v end.
Definition any_range (v : any) : Prop :=
  match v with VUint64 n => n < 2 ^ 63 | VStrings _ | VUint64s _ => False | _ => True end.

Class CborLaws `{!Cbor} : Prop := {
  Marshal_encodable mode m : encodable_map mode m -> exists b, Marshal m = Ok b;
  UnmarshalRaw_Marshal mode m b :
    encodable_map mode m -> Marshal m = Ok b ->
    UnmarshalRaw mode b = Ok (MarshalItem <$> m);
  UnmarshalAny_Marshal mode m b :
    encodable_map mode m -> map_Forall (fun _ => any_range) m -> Marshal m = Ok b ->
    UnmarshalAny mode b = Ok (as_any <$> m);
  UnmarshalUint_Item mode n :
    encodable mode (VUint64 n) -> UnmarshalUint mode (MarshalItem (VUint64 n)) = Ok n;
  UnmarshalText_Item mode s :
    encodable mode (VString s) -> UnmarshalText mode (MarshalItem (VString s)) = Ok s;
  UnmarshalBytes_Item mode b :
    encodable mode (VBytes b) -> UnmarshalBytes mode (MarshalItem (VBytes b)) = Ok b;
  UnmarshalTexts_Item mode l :
    encodable mode (VStrings l) -> UnmarshalTexts mode (MarshalItem (VStrings l)) = Ok l;
  UnmarshalUints_Item mode l :
    encodable mode (VUint64s l) -> UnmarshalUints mode (MarshalItem (VUint64s l)) = Ok l;
  (** A signed non-negative integer is encoded like the unsigned one. *)
  Marshal_as_any mode m :
    encodable_map mode m -> map_Forall (fun _ => any_range) m ->
    Marshal (as_any <$> m) = Marshal m;
  (** An encoded document is not empty and holds every text it encodes. *)
  Marshal_size m b k l :
    Marshal m = Ok b -> m !! k = Some (VStrings l) ->
    foldr (fun s acc => slen s + acc) 0 l <= blen b;
  Marshal_nonempty m b : Marshal m = Ok b -> 0 < blen b
}.

(** ** Cryptography *)

Class Crypto := {
  sha256 : list byte -> list byte;
  hmac_sha256 : list byte -> list byte -> list byte;          (** key, message *)
  hkdf_sha256 : list byte -> list byte -> list byte -> list byte; (** secret, salt, info: 32 bytes *)
  argon2id : list byte -> list byte -> list byte;             (** password, salt: 32 bytes *)
  gcm_Seal : list byte -> list byte -> list byte -> list byte -> list byte;
      (** key, nonce, plaintext, additional data *)
  gcm_Open : list byte -> list byte -> list byte -> list byte -> option (list byte)
}.

Class CryptoLaws `{!Crypto} : Prop := {
  length_sha256 m : length (sha256 m) = 32%nat;
  length_hmac k m : length (hmac_sha256 k m) = 32%nat;
  length_hkdf s t i : length (hkdf_sha256 s t i) = 32%nat;
  gcm_Open_Seal k n p ad : gcm_Open k n (gcm_Seal k n p ad) ad = Some p;
  (** Opening recomputes the tag: only the sealed text of the result opens. *)
  gcm_Open_inv k n c ad p : gcm_Open k n c ad = Some p -> c = gcm_Seal k n p ad;
  length_gcm_Seal k n p ad : length (gcm_Seal k n p ad) = (length p + 16)%nat
}.

(** [multihash.Sum] with SHA2-256 and [cid.NewCidV1(cid.Raw, _)]. *)
Class Cids := {
  Cid : Type;
  RawCid : list byte -> result Cid
}.

(** SHA2-256 is a registered hash of full length: summing with it cannot fail. *)
Class CidsLaws `{!Cids} : Prop := { RawCid_ok b : exists c, RawCid b = Ok c }.
