(* ===== verification/ExtModel.v ===== *)
(** Instances of the interfaces of [Ext] that satisfy all their laws: the
    deterministic subset of RFC 8949 the program encodes, addresses and peers
    as plain text, and stand-in primitives for the cryptography.  They are the
    concrete parameters of the witnesses; no theorem depends on them. *)
From S2P Require Export Ext.
Local Open Scope Z_scope.

(** ** CBOR *)

(** The head of an item: major type and argument, in the shortest form. *)
Definition cbor_head (major n : Z) : list byte :=
  if n <? 24 then [Z_byte (major * 32 + n)]
  else if n <? 2 ^ 8 then Z_byte (major * 32 + 24) :: put_be 1 n
  else if n <? 2 ^ 16 then Z_byte (major * 32 + 25) :: put_be 2 n
  else if n <? 2 ^ 32 then Z_byte (major * 32 + 26) :: put_be 4 n
  else Z_byte (major * 32 + 27) :: put_be 8 n.

Definition take_exact (n : nat) (l : list byte) : option (list byte * list byte) :=
  if (n <=? length l)%nat then Some (take n l, drop n l) else None.

Definition parse_head (l : list byte) : option (Z * Z * list byte) :=
  match l with
  | [] => None
  | b :: r =>
      let major := byte_Z b / 32 in
      let info := byte_Z b mod 32 in
      if info <? 24 then Some (major, info, r)
      else
        let width := if info =? 24 then 1%nat else if info =? 25 then 2%nat
                     else if info =? 26 then 4%nat else 8%nat in
        if 27 <? info then None
        else '(arg, r) ← take_exact width r; Some (major, get_be arg, r)
  end.

Definition parse_text (l : list byte) : option (string * list byte) :=
  '(major, n, r) ← parse_head l;
  if major =? 3 then
    '(s, r) ← take_exact (Z.to_nat n) r;
    if ValidString (string_of s) then Some (string_of s, r) else None
  else None.

Definition parse_uint (l : list byte) : option (Z * list byte) :=
  '(major, n, r) ← parse_head l;
  if major =? 0 then Some (n, r) else None.

Fixpoint parse_seq {A} (item : list byte -> option (A * list byte)) (n : nat) (l : list byte)
    : option (list A * list byte) :=
  match n with
  | O => Some ([], l)
  | S n => '(a, l) ← item l; '(r, l) ← parse_seq item n l; Some (a :: r, l)
  end.

Definition parse_item (mode : DecMode) (l : list byte) : option (any * list byte) :=
  '(major, n, r) ← parse_head l;
  if major =? 0 then Some (VUint64 n, r)
  else if major =? 2 then
    '(b, r) ← take_exact (Z.to_nat n) r; Some (VBytes b, r)
  else if major =? 3 then
    '(s, r) ← parse_text l; Some (VString s, r)
  else if (major =? 4) && (n <=? MaxArrayElements mode) then
    match parse_seq parse_text (Z.to_nat n) r with
    | Some (l, r) => Some (VStrings l, r)
    | None => '(l, r) ← parse_seq parse_uint (Z.to_nat n) r; Some (VUint64s l, r)
    end
  else None.

Definition cbor_text (s : string) : list byte := cbor_head 3 (slen s) ++ bytes_of s.

Definition cbor_item (v : any) : list byte :=
  match v with
  | VUint64 n | VInt64 n => cbor_head 0 n
  | VString s => cbor_text s
  | VBytes b => cbor_head 2 (blen b) ++ b
  | VStrings l => cbor_head 4 (Z.of_nat (length l)) ++ mjoin (cbor_text <$> l)
  | VUint64s l => cbor_head 4 (Z.of_nat (length l)) ++ mjoin (cbor_head 0 <$> l)
  | VOther raw => raw
  end.

Definition key_le (a b : Z * any) : Prop := a.1 <= b.1.
#[export] Instance key_le_dec : RelDecision key_le := fun a b => Z_le_dec a.1 b.1.

Definition cbor_pairs (m : gmap Z any) : list (Z * any) := merge_sort key_le (map_to_list m).

Definition cbor_marshal (m : gmap Z any) : result (list byte) :=
  Ok (cbor_head 5 (Z.of_nat (size m)) ++
      mjoin ((fun kv => cbor_head 0 kv.1 ++ cbor_item kv.2) <$> cbor_pairs m)).

Definition parse_pair (mode : DecMode) (l : list byte) : option (Z * (any * list byte) * list byte) :=
  '(k, l) ← parse_uint l;
  '(v, r) ← parse_item mode l;
  Some (k, (v, take (length l - length r) l), r).

Definition cbor_unmarshal (mode : DecMode) (l : list byte) : result (gmap Z (any * list byte)) :=
  of_option (ErrNew "cbor")
    ('(major, n, r) ← parse_head l;
     if (major =? 5) && (n <=? MaxMapPairs mode) then
       '(pairs, r) ← parse_seq (parse_pair mode) (Z.to_nat n) r;
       if bool_decide (r = [] /\ NoDup pairs.*1) then Some (list_to_map pairs) else None
     else None).

Definition cbor_values {B} (f : any * list byte -> B) (mode : DecMode) (l : list byte)
    : result (gmap Z B) :=
  match cbor_unmarshal mode l with Ok m => Ok (f <$> m) | Err e => Err e end.

Definition whole {A} (o : option (A * list byte)) : result A :=
  match o with Some (a, []) => Ok a | _ => Err (ErrNew "cbor") end.
Definition as_texts (r : result any) : result (list string) :=
  match r with Ok (VStrings l) => Ok l | _ => Err (ErrNew "cbor") end.
Definition as_uints (r : result any) : result (list Z) :=
  match r with
  | Ok (VUint64s l) => Ok l
  | Ok (VStrings []) => Ok []
  | _ => Err (ErrNew "cbor")
  end.
Definition as_bytes (r : result any) : result (list byte) :=
  match r with Ok (VBytes b) => Ok b | _ => Err (ErrNew "cbor") end.

(** ** Parsing inverts printing *)

Lemma take_exact_app a r : take_exact (length a) (a ++ r) = Some (a, r).
Proof.
  unfold take_exact. rewrite length_app, take_app_length, drop_app_length.
  by rewrite (proj2 (Nat.leb_le _ _)) by lia.
Qed.

Lemma take_exact_be n v r : take_exact n (put_be n v ++ r) = Some (put_be n v, r).
Proof. rewrite <- (length_put_be n v) at 1. apply take_exact_app. Qed.

Lemma head_byte major info :
  0 <= major < 8 -> 0 <= info < 32 ->
  byte_Z (Z_byte (major * 32 + info)) / 32 = major /\
  byte_Z (Z_byte (major * 32 + info)) mod 32 = info.
Proof. intros. rewrite byte_Z_byte. rewrite Z.mod_small by lia. split; Z.to_euclidean_division_equations; lia. Qed.

Lemma parse_head_head major n r :
  0 <= major < 8 -> is_uint 64 n -> parse_head (cbor_head major n ++ r) = Some (major, n, r).
Proof.
  intros Hm Hn. unfold is_uint in Hn. unfold cbor_head.
  destruct (Z.ltb_spec n 24); [|destruct (Z.ltb_spec n (2 ^ 8)); [|
    destruct (Z.ltb_spec n (2 ^ 16)); [|destruct (Z.ltb_spec n (2 ^ 32))]]];
    cbn [app]; unfold parse_head;
    match goal with |- context [Z_byte (?m * 32 + ?i)] =>
      destruct (head_byte m i) as [-> ->]; [lia|lia|] end.
  { by rewrite (proj2 (Z.ltb_lt _ _)) by lia. }
  all: cbn -[take_exact put_be get_be]; rewrite take_exact_be; cbn -[put_be get_be];
    rewrite get_put_be, Z.mod_small by lia; done.
Qed.

Lemma parse_uint_head n r : is_uint 64 n -> parse_uint (cbor_head 0 n ++ r) = Some (n, r).
Proof. intros. unfold parse_uint. by rewrite parse_head_head. Qed.

Lemma parse_text_text s r :
  ValidString s = true -> slen s < 2 ^ 32 -> parse_text (cbor_text s ++ r) = Some (s, r).
Proof.
  intros Hv Hl. unfold parse_text, cbor_text. rewrite <- app_assoc, parse_head_head.
  - simpl. unfold slen. rewrite Nat2Z.id, take_exact_app. simpl.
    by rewrite string_of_bytes_of, Hv.
  - lia.
  - pose proof (slen_nonneg s). unfold is_uint. lia.
Qed.

Lemma parse_text_head n r : is_uint 64 n -> parse_text (cbor_head 0 n ++ r) = None.
Proof. intros. unfold parse_text. by rewrite parse_head_head. Qed.

Lemma parse_seq_join {A} (item : list byte -> option (A * list byte)) print (l : list A) r :
  Forall (fun a => forall r, item (print a ++ r) = Some (a, r)) l ->
  parse_seq item (length l) (mjoin (print <$> l) ++ r) = Some (l, r).
Proof.
  intros H. induction H as [|a l Ha Hl IH]; [done|].
  cbn [length parse_seq fmap list_fmap mjoin list_join]. rewrite <- app_assoc, Ha. simpl.
  setoid_rewrite IH. done.
Qed.

(** An empty array has no element type of its own. *)
Definition norm (v : any) : any := match v with VUint64s [] => VStrings [] | _ => v end.

Lemma parse_item_item mode v r :
  encodable mode v ->
  parse_item mode (cbor_item v ++ r) = Some (norm v, r).
Proof.
  intros Hv. unfold parse_item. destruct v as [n|n|s|b|l|l|raw]; simpl in Hv; try done; cbn [cbor_item].
  - by rewrite parse_head_head by (done || lia).
  - destruct Hv as [Hv Hl]. pose proof (slen_nonneg s).
    assert (parse_head (cbor_text s ++ r) = Some (3, slen s, bytes_of s ++ r)) as ->.
    { unfold cbor_text. by rewrite <- app_assoc, parse_head_head by (unfold is_uint; lia). }
    simpl. by rewrite parse_text_text.
  - pose proof (blen_nonneg b).
    rewrite <- app_assoc, parse_head_head by (unfold is_uint; lia). simpl.
    unfold blen. by rewrite Nat2Z.id, take_exact_app.
  - destruct Hv as [Hl Hn]. rewrite <- app_assoc, parse_head_head by (unfold is_uint; lia).
    simpl. rewrite (proj2 (Z.leb_le _ _)) by lia. rewrite Nat2Z.id, parse_seq_join; [done|].
    eapply Forall_impl; [exact Hl|]. intros s [] ?. by apply parse_text_text.
  - destruct Hv as [Hl Hn]. rewrite <- app_assoc, parse_head_head by (unfold is_uint; lia).
    simpl. rewrite (proj2 (Z.leb_le _ _)) by lia. rewrite Nat2Z.id.
    destruct l as [|n l]; [done|].
    assert (parse_seq parse_text (length (n :: l)) (mjoin (cbor_head 0 <$> n :: l) ++ r) = None) as ->.
    { cbn [length parse_seq fmap list_fmap mjoin list_join].
      apply Forall_inv in Hl. by rewrite <- app_assoc, parse_text_head. }
    rewrite parse_seq_join; [done|].
    eapply Forall_impl; [exact Hl|]. intros; simpl. by apply parse_uint_head.
Qed.

Lemma cbor_pairs_perm m : cbor_pairs m ≡ₚ map_to_list m.
Proof. apply merge_sort_Permutation. Qed.

Lemma NoDup_cbor_pairs m : NoDup (cbor_pairs m).*1.
Proof. rewrite cbor_pairs_perm. apply NoDup_fst_map_to_list. Qed.

Lemma list_to_map_pairs {B} (f : any -> B) m :
  list_to_map ((fun kv => (kv.1, f kv.2)) <$> cbor_pairs m) =@{gmap Z B} f <$> m.
Proof.
  assert (((fun kv : Z * any => (kv.1, f kv.2)) <$> cbor_pairs m) = prod_map id f <$> cbor_pairs m) as ->.
  { apply list_fmap_ext. by intros ? []. }
  rewrite list_to_map_fmap. f_equal.
  rewrite (list_to_map_proper _ _ (NoDup_cbor_pairs m) (cbor_pairs_perm m)).
  apply list_to_map_to_list.
Qed.

Lemma length_cbor_pairs m : length (cbor_pairs m) = size m.
Proof. rewrite cbor_pairs_perm. apply length_map_to_list. Qed.

Lemma Forall_cbor_pairs (P : Z -> any -> Prop) m :
  map_Forall P m -> Forall (fun kv => P kv.1 kv.2) (cbor_pairs m).
Proof.
  intros H. rewrite cbor_pairs_perm. apply Forall_forall. intros [k v] Hkv%elem_of_map_to_list.
  by apply H.
Qed.

#[export] Instance key_le_trans : Transitive key_le.
Proof. intros a b c. unfold key_le. lia. Qed.
#[export] Instance key_le_total : Total key_le.
Proof. intros a b. unfold key_le. lia. Qed.

Lemma cbor_pairs_fmap f m : cbor_pairs (f <$> m) = prod_map id f <$> cbor_pairs m.
Proof.
  apply (StronglySorted_unique_strong key_le).
  - intros [k1 v1] [k2 v2]. rewrite !cbor_pairs_perm.
    intros H1%elem_of_map_to_list ([k3 v3] & [= -> ->] & H2)%list_elem_of_fmap.
    apply elem_of_map_to_list in H2.
    unfold key_le; simpl. intros ??. assert (k1 = k3) as -> by lia.
    rewrite lookup_fmap, H2 in H1. simpl in H1. congruence.
  - apply (StronglySorted_merge_sort _).
  - assert (StronglySorted key_le (cbor_pairs m)) as H by apply (StronglySorted_merge_sort _).
    induction H as [|a l Hl IH Ha]; simpl; constructor; [done|].
    rewrite Forall_fmap. eapply Forall_impl; [exact Ha|]. done.
  - by rewrite !cbor_pairs_perm, map_to_list_fmap.
Qed.

(** What the decoder keeps of a pair: its key, its value and the raw value. *)
Definition kept (v : any) : any * list byte := (norm v, cbor_item v).

Lemma parse_pair_pair mode k v r :
  is_uint 64 k -> encodable mode v ->
  parse_pair mode ((cbor_head 0 k ++ cbor_item v) ++ r) = Some (k, kept v, r).
Proof.
  intros. unfold parse_pair. rewrite <- app_assoc, parse_uint_head by done. simpl.
  rewrite parse_item_item by done. simpl. unfold kept. repeat f_equal.
  rewrite length_app. replace (_ + _ - _)%nat with (length (cbor_item v)) by lia.
  apply take_app_length.
Qed.

Lemma unmarshal_marshal mode m b :
  encodable_map mode m -> cbor_marshal m = Ok b -> cbor_unmarshal mode b = Ok (kept <$> m).
Proof.
  intros [Hm Hn]. unfold cbor_marshal. intros [= <-]. unfold cbor_unmarshal.
  rewrite parse_head_head by (unfold is_uint; lia). simpl.
  rewrite (proj2 (Z.leb_le _ _)) by lia. rewrite Nat2Z.id, <- length_cbor_pairs.
  set (print := fun kv : Z * any => cbor_head 0 kv.1 ++ cbor_item kv.2).
  set (out := (fun kv : Z * any => (kv.1, kept kv.2)) <$> cbor_pairs m).
  assert (parse_seq (parse_pair mode) (length (cbor_pairs m)) (mjoin (print <$> cbor_pairs m))
          = Some (out, [])) as ->.
  { apply Forall_cbor_pairs in Hm. unfold out, print. rewrite <- (app_nil_r (mjoin _)).
    induction Hm as [|[k v] l [Hk Hv] _ IH]; [done|].
    cbn [length parse_seq fmap list_fmap mjoin list_join fst snd].
    rewrite <- app_assoc, parse_pair_pair by done. simpl. setoid_rewrite IH. done. }
  simpl. assert (out.*1 = (cbor_pairs m).*1) as Ho.
  { unfold out. rewrite <- list_fmap_compose. done. }
  rewrite bool_decide_true by (rewrite Ho; split; [done|apply NoDup_cbor_pairs]).
  simpl. f_equal. apply list_to_map_pairs.
Qed.

Lemma cbor_head_nonempty major n : (0 < length (cbor_head major n))%nat.
Proof. unfold cbor_head. repeat case_match; simpl; lia. Qed.

Lemma length_cbor_texts l :
  foldr (fun s acc => slen s + acc) 0 l <= blen (mjoin (cbor_text <$> l)).
Proof.
  induction l as [|s l IH]; [done|]. cbn [foldr fmap list_fmap mjoin list_join].
  rewrite blen_app. unfold cbor_text at 1. rewrite blen_app, blen_bytes_of.
  pose proof (blen_nonneg (cbor_head 3 (slen s))). unfold fmap, mjoin in *. lia.
Qed.

Lemma blen_mjoin_elem {A} (f : A -> list byte) l a :
  a ∈ l -> blen (f a) <= blen (mjoin (f <$> l)).
Proof.
  induction 1 as [|a b l _ IH]; cbn [fmap list_fmap mjoin list_join]; rewrite blen_app.
  - pose proof (blen_nonneg (mjoin (f <$> l))). unfold mjoin, fmap in *. lia.
  - pose proof (blen_nonneg (f b)). unfold mjoin, fmap in *. lia.
Qed.

(** ** Addresses, keys and primitives *)

(** The text after the last occurrence of [p]. *)
Fixpoint after_last (p l : list byte) : option (list byte) :=
  match l with
  | [] => None
  | _ :: r => match after_last p r with Some x => Some x | None => cut_prefix p l end
  end.

(** A 256-bit polynomial checksum. *)
Definition checksum (l : list byte) : list byte :=
  put_be 32 (foldl (fun acc b => (acc * 257 + byte_Z b + 1) mod 2 ^ 256) 7 l).

Definition gcm_tag (key nonce plain ad : list byte) : list byte :=
  take 16 (drop 16 (checksum (key ++ nonce ++ plain ++ ad))).

Module Ref.
#[export] Instance cbor : Cbor := {|
  Marshal := cbor_marshal;
  UnmarshalRaw mode l := cbor_values snd mode l;
  UnmarshalAny mode l := cbor_values (fun v => as_any v.1) mode l;
  UnmarshalUint mode l := whole (parse_uint l);
  UnmarshalText mode l := whole (parse_text l);
  UnmarshalBytes mode l := as_bytes (whole (parse_item mode l));
  UnmarshalTexts mode l := as_texts (whole (parse_item mode l));
  UnmarshalUints mode l := as_uints (whole (parse_item mode l));
  MarshalItem := cbor_item
|}.

Lemma item_whole mode v : encodable mode v -> whole (parse_item mode (cbor_item v)) = Ok (norm v).
Proof. intros H. rewrite <- (app_nil_r (cbor_item v)). by rewrite parse_item_item. Qed.

Lemma marshal_as_any m :
  map_Forall (fun _ => any_range) m -> cbor_marshal (as_any <$> m) = cbor_marshal m.
Proof.
  intros Hr. unfold cbor_marshal. rewrite map_size_fmap, cbor_pairs_fmap. do 2 f_equal.
  rewrite <- list_fmap_compose. f_equal. apply list_fmap_ext. intros i [k v] Hkv. simpl.
  by destruct v.
Qed.

#[export] Instance cbor_laws : CborLaws.
Proof.
  split; cbn [Marshal UnmarshalRaw UnmarshalAny UnmarshalUint UnmarshalText UnmarshalBytes
              UnmarshalTexts UnmarshalUints MarshalItem cbor].
  - intros. by eexists.
  - intros mode m b Hm E. unfold cbor_values. rewrite (unmarshal_marshal mode m b) by done.
    by rewrite <- map_fmap_compose.
  - intros mode m b Hm Hr E. unfold cbor_values. rewrite (unmarshal_marshal mode m b) by done.
    rewrite <- map_fmap_compose. f_equal. apply map_fmap_ext. intros k v Hv.
    specialize (Hr k v Hv). by destruct v.
  - intros mode n Hn. rewrite <- (app_nil_r (cbor_item _)). cbn [cbor_item].
    by rewrite parse_uint_head.
  - intros mode s [??]. rewrite <- (app_nil_r (cbor_item _)). cbn [cbor_item].
    by rewrite parse_text_text.
  - intros mode b Hb. by rewrite item_whole.
  - intros mode l Hl. by rewrite item_whole.
  - intros mode l Hl. rewrite item_whole by done. by destruct l.
  - intros mode m _. apply marshal_as_any.
  - intros m b k l [= <-] Hl. rewrite blen_app.
    assert ((k, VStrings l) ∈ cbor_pairs m) as Hin
      by (rewrite cbor_pairs_perm; by apply elem_of_map_to_list).
    apply (blen_mjoin_elem (fun kv => cbor_head 0 kv.1 ++ cbor_item kv.2)) in Hin.
    cbn [fst snd cbor_item] in Hin. rewrite !blen_app in Hin.
    pose proof (length_cbor_texts l). pose proof (blen_nonneg (cbor_head 5 (Z.of_nat (size m)))).
    pose proof (blen_nonneg (cbor_head 0 k)).
    pose proof (blen_nonneg (cbor_head 4 (Z.of_nat (length l)))). lia.
  - intros m b [= <-]. pose proof (cbor_head_nonempty 5 (Z.of_nat (size m))).
    unfold blen. rewrite length_app. lia.
Qed.

#[export] Instance libp2p : Libp2p := {|
  Multiaddr := string;
  ma_String m := m;
  NewMultiaddr s := Ok s;
  AddrInfoFromP2pAddr m :=
    match after_last (bytes_of "/p2p/") (bytes_of m) with
    | Some id => Ok (string_of id, [m])
    | None => Err (ErrNew "invalid p2p multiaddr")
    end;
  peer_String id := id;
  peer_Decode s := if bool_decide (s = "") then Err (ErrNew "invalid peer") else Ok s
|}.

#[export] Instance libp2p_laws : Libp2pLaws.
Proof. split; [done|]. intros id id'. simpl. case_bool_decide; congruence. Qed.

#[export] Instance keys : Keys := {|
  PrivKey := list byte;
  PubKey := list byte;
  GetPublic sk := sk;
  IDFromPublicKey pk := Ok (hex_encode pk);
  key_Sign sk msg := Ok (checksum (sk ++ msg));
  key_Verify pk msg sig := Ok (bool_decide (sig = checksum (pk ++ msg)));
  MarshalPublicKey pk := Ok pk;
  UnmarshalPublicKey b := Ok b
|}.

#[export] Instance keys_laws : KeysLaws.
Proof.
  split; simpl.
  - intros sk msg sig [= <-]. by rewrite bool_decide_true.
  - intros pk b [= <-]. done.
Qed.

#[export] Instance crypto : Crypto := {|
  sha256 := checksum;
  hmac_sha256 key m := checksum (key ++ m);
  hkdf_sha256 secret salt info := checksum (secret ++ salt ++ info);
  argon2id pw salt := checksum (pw ++ salt);
  gcm_Seal key nonce plain ad := plain ++ gcm_tag key nonce plain ad;
  gcm_Open key nonce c ad :=
    let plain := take (length c - 16) c in
    if bool_decide (c = plain ++ gcm_tag key nonce plain ad) then Some plain else None
|}.

Lemma length_gcm_tag k n p ad : length (gcm_tag k n p ad) = 16%nat.
Proof. done. Qed.

#[export] Instance crypto_laws : CryptoLaws.
Proof.
  split; cbn [sha256 hmac_sha256 hkdf_sha256 argon2id gcm_Seal gcm_Open crypto];
    intros; try apply length_put_be.
  - rewrite length_app, length_gcm_tag, Nat.add_sub, take_app_length.
    by rewrite bool_decide_true.
  - case_bool_decide; congruence.
  - rewrite length_app, length_gcm_tag. done.
Qed.

#[export] Instance cids : Cids := {| Cid := list byte; RawCid b := Ok (checksum b) |}.
#[export] Instance cids_laws : CidsLaws.
Proof. split. by eexists. Qed.
End Ref.

(** Closed side conditions: conjunctions and [Forall]s of computable facts. *)
Ltac ground :=
  repeat first [apply conj | apply Forall_nil | apply Forall_cons]; by vm_compute.
