(* ===== verification/Pairing.v ===== *)
(** [protocol/pairing]: the pairing token, its deterministic text form, the keys
    and rendezvous identifiers derived from it, and the sealed envelopes
    (protocol/pairing/pairing.go). *)
From S2P Require Export Ext.
From S2P Require Import ExtModel.
Local Open Scope Z_scope.

Definition TokenPrefix : string := "pnc1_".
Definition TokenVersion : Z := 1.
Definition SecretSize : Z := 32.
Definition MaxTokenSize : Z := 16 * 1024.
Definition MaxRelayHints : Z := 16.
Definition RendezvousInterval : Z := 300 * Second.

(** The limits of the [strict] decoding mode set up by [init]. *)
Definition strict : DecMode := {| MaxArrayElements := 64; MaxMapPairs := 32 |}.

Section pairing.
Context `{LP : !Libp2p, CB : !Cbor, CR : !Crypto, CI : !Cids}.

(** A nil multiaddr is [None]. *)
Record Token := mkToken {
  tk_Version : Z;
  tk_PeerID : string;
  tk_Service : Z;
  tk_Secret : list byte;
  tk_RelayHints : list (option Multiaddr);
  tk_ExpiresAt : option Z
}.

Definition hint_String (h : option Multiaddr) : string :=
  match h with Some m => ma_String m | None => "" end.

(** The loop of [Validate] over the relay hints. *)
Fixpoint validate_hints (seen : gset string) (hints : list (option Multiaddr)) : result unit :=
  match hints with
  | [] => Ok tt
  | None :: _ => Err (ErrNew "invalid relay hint in pairing token")
  | Some hint :: rest =>
      refuse (2048 <? slen (ma_String hint)) (ErrNew "invalid relay hint in pairing token");;
      match AddrInfoFromP2pAddr hint with
      | Ok (id, _) =>
          refuse (bool_decide (id = ""))
            (Errorf "relay hint must contain /p2p/PeerId: %s" [AStr (ma_String hint)])
      | Err _ => Err (Errorf "relay hint must contain /p2p/PeerId: %s" [AStr (ma_String hint)])
      end;;
      refuse (bool_decide (ma_String hint ∈ seen))
        (Errorf "relay hints must be unique: %s" [AStr (ma_String hint)]);;
      validate_hints ({[ma_String hint]} ∪ seen) rest
  end.

(** [Token.Validate]; a nil token is [None]. *)
Definition Validate (t : option Token) (now : Time) : result unit :=
  match t with
  | None => Err (ErrNew "pairing token is required")
  | Some t =>
      refuse (negb (tk_Version t =? TokenVersion))
        (Errorf "unsupported pairing token version: %d" [AInt (tk_Version t)]);;
      map_err (Wrapf "invalid PeerId in pairing token: %w" [])
        (peer_Decode (peer_String (tk_PeerID t)));;
      refuse (tk_Service t =? 0)
        (ErrNew "pairing token logical port must be between 1 and 65535");;
      refuse (MaxRelayHints <? Z.of_nat (length (tk_RelayHints t)))
        (Errorf "pairing token supports at most %d relay hints" [AInt MaxRelayHints]);;
      validate_hints ∅ (tk_RelayHints t);;
      match tk_ExpiresAt t with
      | None => Ok tt
      | Some expires =>
          refuse (expires =? 0)
            (ErrNew "pairing token expiration must be a positive Unix timestamp");;
          refuse (negb (IsZero now) && (expires <? wrapU 64 (toUnix now)))
            (Errorf "pairing token expired at Unix time %d" [AInt expires])
      end
  end.

(** [New]: [random] is what [rand.Read] put into the secret, or its error. *)
Definition New (peerID : string) (service : Z) (relayHints : list (option Multiaddr))
    (expiresAt : option Z) (random : result (list byte)) (now : Time) : result Token :=
  refuse (service =? 0) (ErrNew "logical port must be between 1 and 65535");;
  secret ← map_err (Wrapf "create pairing secret: %w" []) random;
  let token := mkToken TokenVersion peerID service secret relayHints expiresAt in
  Validate (Some token) now;;
  Ok token.

(** The CBOR document of a token, [fields] of [Encode]. *)
Definition token_fields (t : Token) : gmap Z any :=
  let fields : gmap Z any :=
    <[0 := VUint64 (tk_Version t)]> (<[1 := VString (peer_String (tk_PeerID t))]>
    (<[2 := VUint64 (tk_Service t)]> (<[3 := VBytes (tk_Secret t)]>
    {[4 := VStrings (sort_strings (hint_String <$> tk_RelayHints t))]}))) in
  match tk_ExpiresAt t with
  | Some expires => <[5 := VUint64 expires]> fields
  | None => fields
  end.

Definition Encode (t : Token) : result string :=
  Validate (Some t) zeroTime;;
  payload ← map_err (Wrapf "encode pairing token: %w" []) (Marshal (token_fields t));
  Ok (TokenPrefix +:+ EncodeToString payload).

(** [ma.NewMultiaddr] over the decoded hints. *)
Fixpoint parse_hints (values : list string) : result (list (option Multiaddr)) :=
  match values with
  | [] => Ok []
  | value :: rest =>
      hint ← map_err (Wrapf "invalid relay hint %q: %w" [AStr value]) (NewMultiaddr value);
      hints ← parse_hints rest;
      Ok (Some hint :: hints)
  end.

(** The field [key] of the decoded map; [Decode] has checked it is there. *)
Definition field (raw : gmap Z (list byte)) (key : Z) : list byte := default [] (raw !! key).

Definition Decode (text : string) : result Token :=
  let text := TrimSpace text in
  refuse (negb (HasPrefix text TokenPrefix))
    (Errorf "pairing token must start with %s" [AStr TokenPrefix]);;
  payload ← of_option
    (Wrapf "invalid pairing token base64url data: %w" [] (ErrNew "illegal base64 data"))
    (DecodeString (TrimPrefix text TokenPrefix));
  refuse ((blen payload =? 0) || (MaxTokenSize <? blen payload))
    (Errorf "pairing token must contain 1..%d bytes" [AInt MaxTokenSize]);;
  raw ← map_err (Wrapf "invalid deterministic CBOR pairing token: %w" [])
    (UnmarshalRaw strict payload);
  match base.filter (fun key => 5 < key) (elements (dom raw)) with
  | key :: _ => Err (Errorf "unknown pairing token field: %d" [AInt key])
  | [] => Ok tt
  end;;
  match base.filter (fun key => raw !! key = None) [0; 1; 2; 3; 4] with
  | key :: _ => Err (Errorf "missing pairing token field: %d" [AInt key])
  | [] => Ok tt
  end;;
  version ← map_err (Wrapf "pairing token version: %w" [])
    (UnmarshalUint strict (field raw 0));
  peerText ← map_err (Wrapf "PeerId pairing token: %w" [])
    (UnmarshalText strict (field raw 1));
  service ← map_err (fun _ => ErrNew "pairing token logical port must be between 1 and 65535")
    (UnmarshalUint strict (field raw 2));
  refuse ((service =? 0) || (65535 <? service))
    (ErrNew "pairing token logical port must be between 1 and 65535");;
  secret ← map_err (fun _ => Errorf "pairing secret must contain exactly %d bytes" [AInt SecretSize])
    (UnmarshalBytes strict (field raw 3));
  refuse (negb (blen secret =? SecretSize))
    (Errorf "pairing secret must contain exactly %d bytes" [AInt SecretSize]);;
  hints ← map_err (Wrapf "relay hints pairing token: %w" [])
    (UnmarshalTexts strict (field raw 4));
  refuse (MaxRelayHints <? Z.of_nat (length hints))
    (Errorf "pairing token supports at most %d relay hints" [AInt MaxRelayHints]);;
  peerID ← map_err (Wrapf "invalid PeerId in pairing token: %w" []) (peer_Decode peerText);
  relayHints ← parse_hints hints;
  expiresAt ←
    match raw !! 5 with
    | None => Ok None
    | Some value =>
        expires ← map_err (Wrapf "expiration pairing token: %w" []) (UnmarshalUint strict value);
        Ok (Some expires)
    end;
  let token := mkToken version peerID (wrapU 16 service) secret relayHints expiresAt in
  Validate (Some token) zeroTime;;
  reencoded ← Encode token;
  let expected := TokenPrefix +:+ EncodeToString payload in
  refuse (negb (bool_decide (reencoded = expected)))
    (ErrNew "CBOR pairing token is not deterministic RFC 8949 CBOR");;
  Ok token.

Definition key_purposes : list string := ["rendezvous"; "signaling"; "admission"; "route-record"].

Definition DeriveKey (t : Token) (purpose : string) : result (list byte) :=
  if bool_decide (purpose ∈ key_purposes)
  then Ok (hkdf_sha256 (tk_Secret t) (bytes_of "p2p-netcat/pairing/v1")
             (bytes_of ("p2p-netcat/" +:+ purpose +:+ "/v1")))
  else Err (Errorf "unsupported pairing key purpose: %s" [AStr purpose]).

Definition rendezvous_message (t : Token) (purpose : string) (epoch : Z) : list byte :=
  bytes_of "p2p-netcat/rendezvous/v1" ++ x00 :: bytes_of purpose ++
  x00 :: bytes_of (peer_String (tk_PeerID t)) ++ x00 :: bytes_of (itoa (tk_Service t)) ++
  x00 :: bytes_of (itoa epoch).

Definition RendezvousID (t : Token) (purpose : string) (epoch : Z) : result string :=
  refuse (negb (bool_decide (purpose ∈ ["dht"; "pubsub"; "signaling"])))
    (Errorf "unsupported rendezvous purpose: %s" [AStr purpose]);;
  key ← DeriveKey t "rendezvous";
  Ok (EncodeToString (hmac_sha256 key (rendezvous_message t purpose epoch))).

Definition ProviderCID (rendezvousID : string) : result Cid :=
  decoded ← of_option (ErrNew "invalid rendezvous identifier") (DecodeString rendezvousID);
  refuse (negb (blen decoded =? 32) ||
          negb (bool_decide (EncodeToString decoded = rendezvousID)))
    (ErrNew "invalid rendezvous identifier");;
  RawCid (bytes_of ("p2p-netcat:rendezvous:v1:" +:+ rendezvousID)).

(** The loop of [ProviderCIDs] over the offsets. *)
Fixpoint provider_cids (t : Token) (epoch : Z) (offsets : list Z) : result (list Cid) :=
  match offsets with
  | [] => Ok []
  | offset :: rest =>
      if epoch + offset <? 0 then provider_cids t epoch rest
      else
        id ← RendezvousID t "dht" (wrapU 64 (epoch + offset));
        value ← ProviderCID id;
        values ← provider_cids t epoch rest;
        Ok (value :: values)
  end.

Definition ProviderCIDs (t : Token) (now : Time) : result (list Cid) :=
  let epoch := Z.quot (toUnix now) (Z.quot RendezvousInterval Second) in
  provider_cids t epoch [-1; 0; 1].

Definition envelope_fields (version : Z) (nonce ciphertext : list byte) : gmap Z any :=
  <[0 := VUint64 version]> (<[1 := VBytes nonce]> {[2 := VBytes ciphertext]}).

(** [Seal]; [random] is the nonce [rand.Read] would produce, or its error. *)
Definition Seal (t : Token) (purpose : string) (plaintext additionalData : list byte)
    (nonce : option (list byte)) (random : result (list byte)) : result (list byte) :=
  key ← DeriveKey t purpose;
  nonce ← match nonce with Some n => Ok n | None => random end;
  refuse (negb (blen nonce =? 12)) (ErrNew "AES-GCM nonce must contain exactly 12 bytes");;
  Marshal (envelope_fields 1 nonce (gcm_Seal key nonce plaintext additionalData)).

Definition Open (t : Token) (purpose : string) (envelope additionalData : list byte)
    : result (list byte) :=
  fields ← map_err (Wrapf "invalid AES-GCM envelope: %w" []) (UnmarshalRaw strict envelope);
  refuse (negb (Z.of_nat (size fields) =? 3) || bool_decide (fields !! 0 = None)
          || bool_decide (fields !! 1 = None) || bool_decide (fields !! 2 = None))
    (ErrNew "AES-GCM envelope contains unknown or missing fields");;
  version ← map_err (fun _ => ErrNew "unsupported AES-GCM envelope version")
    (UnmarshalUint strict (field fields 0));
  refuse (negb (version =? 1)) (ErrNew "unsupported AES-GCM envelope version");;
  nonce ← map_err (fun _ => ErrNew "AES-GCM nonce must contain exactly 12 bytes")
    (UnmarshalBytes strict (field fields 1));
  refuse (negb (blen nonce =? 12)) (ErrNew "AES-GCM nonce must contain exactly 12 bytes");;
  ciphertext ← map_err
    (fun _ => ErrNew "AES-GCM ciphertext is shorter than the authentication tag")
    (UnmarshalBytes strict (field fields 2));
  refuse (blen ciphertext <? 16)
    (ErrNew "AES-GCM ciphertext is shorter than the authentication tag");;
  key ← DeriveKey t purpose;
  plaintext ← of_option (ErrNew "pairing payload authentication failed")
    (gcm_Open key nonce ciphertext additionalData);
  reencoded ← map_err
    (fun _ => ErrNew "AES-GCM envelope is not deterministic RFC 8949 CBOR")
    (Marshal (envelope_fields version nonce ciphertext));
  refuse (negb (bool_decide (reencoded = envelope)))
    (ErrNew "AES-GCM envelope is not deterministic RFC 8949 CBOR");;
  Ok plaintext.

(** ** Validation *)

(** What [Validate] asks of one relay hint. *)
Definition hint_ok (h : option Multiaddr) : Prop :=
  match h with
  | Some m => slen (ma_String m) <= 2048 /\
              match AddrInfoFromP2pAddr m with Ok (id, _) => id <> "" | Err _ => False end
  | None => False
  end.

Lemma validate_hints_Ok seen hints :
  validate_hints seen hints = Ok tt <->
  Forall hint_ok hints /\ NoDup (hint_String <$> hints) /\
  Forall (fun h => hint_String h ∉ seen) hints.
Proof.
  revert seen; induction hints as [|[m|] hints IH]; intros seen.
  - split; [|done]. intros _. repeat constructor.
  - rewrite fmap_cons, !Forall_cons, NoDup_cons. cbn [validate_hints hint_ok hint_String].
    rewrite !seq_Ok, !is_ok_refuse, IH, Z.ltb_ge, bool_decide_eq_false. split.
    + intros (Hl & Hi & Hs & Hf & Hd & Hn). split_and!; try done.
      * destruct AddrInfoFromP2pAddr as [[id addrs]|]; [|done].
        apply is_ok_refuse in Hi. by apply bool_decide_eq_false in Hi.
      * intros (h & E & Hh)%list_elem_of_fmap. rewrite Forall_forall in Hn.
        apply (Hn h Hh). set_solver.
      * eapply Forall_impl; [exact Hn|]. set_solver.
    + intros ([[Hl Hi] Hf] & [Hx Hd] & Hs & Hn). split_and!; try done.
      { destruct AddrInfoFromP2pAddr as [[id addrs]|]; [|done].
        by rewrite bool_decide_false. }
      rewrite Forall_forall in Hn |- *. intros h Hh [E%elem_of_singleton|?]%elem_of_union.
      * apply Hx. rewrite <- E. by apply list_elem_of_fmap_2.
      * by apply (Hn h).
  - split; [done|]. intros (HF & _). by apply Forall_inv in HF.
Qed.

(** The contract of [Validate]. *)
Definition token_ok (t : Token) (now : Time) : Prop :=
  tk_Version t = TokenVersion /\ is_ok (peer_Decode (peer_String (tk_PeerID t))) = true /\
  tk_Service t <> 0 /\ Z.of_nat (length (tk_RelayHints t)) <= MaxRelayHints /\
  Forall hint_ok (tk_RelayHints t) /\ NoDup (hint_String <$> tk_RelayHints t) /\
  match tk_ExpiresAt t with
  | None => True
  | Some e => e <> 0 /\ (IsZero now = true \/ wrapU 64 (toUnix now) <= e)
  end.

Lemma Validate_Ok t now : Validate (Some t) now = Ok tt <-> token_ok t now.
Proof.
  unfold token_ok, Validate. rewrite !seq_Ok, !is_ok_refuse, is_ok_map_err.
  rewrite negb_false_iff, Z.eqb_eq, Z.eqb_neq, Z.ltb_ge, is_ok_unit, validate_hints_Ok.
  assert (Forall (fun h => hint_String h ∉ (∅ : gset string)) (tk_RelayHints t))
    by (apply Forall_true; set_solver).
  destruct (tk_ExpiresAt t) as [e|]; [|naive_solver].
  rewrite seq_Ok, is_ok_refuse, refuse_Ok, Z.eqb_neq, andb_false_iff, negb_false_iff, Z.ltb_ge.
  naive_solver.
Qed.

(** ** Encoding and decoding *)

Lemma token_ok_perm t hints now :
  hints ≡ₚ tk_RelayHints t -> token_ok t now ->
  token_ok (mkToken (tk_Version t) (tk_PeerID t) (tk_Service t) (tk_Secret t) hints
              (tk_ExpiresAt t)) now.
Proof.
  intros Hh (Hv & Hp & Hs & Hl & Hf & Hd & He).
  unfold token_ok; cbn [tk_Version tk_PeerID tk_Service tk_Secret tk_RelayHints tk_ExpiresAt].
  split_and!; try done.
  - by rewrite (Permutation_length Hh).
  - by rewrite (Forall_Permutation _ _ (fun _ => iff_refl _) _ _ Hh).
  - by rewrite (fmap_Permutation hint_String _ _ Hh).
Qed.

(** The Go types of the fields, and the texts CBOR can carry. *)
Definition text_ok (s : string) : Prop := ValidString s = true /\ slen s < 2 ^ 32.
Definition token_typed (t : Token) : Prop :=
  blen (tk_Secret t) = SecretSize /\ is_uint 16 (tk_Service t) /\
  match tk_ExpiresAt t with Some e => is_uint 64 e | None => True end /\
  text_ok (peer_String (tk_PeerID t)) /\
  Forall (fun h => ValidString (hint_String h) = true) (tk_RelayHints t).

Lemma hint_text_ok h : hint_ok h -> ValidString (hint_String h) = true -> text_ok (hint_String h).
Proof. destruct h as [m|]; simpl; [|done]. intros [? _] ?. split; [done|lia]. Qed.

Lemma token_fields_encodable t now :
  token_ok t now -> token_typed t -> encodable_map strict (token_fields t).
Proof.
  intros (Hv & _ & _ & Hl & Hf & _) (Hs & Hp & He & Ht & Hu).
  assert (encodable strict (VStrings (sort_strings (hint_String <$> tk_RelayHints t)))) as Hh.
  { split.
    - rewrite sort_strings_perm, Forall_fmap. apply Forall_forall. intros h Hh.
      rewrite Forall_forall in Hf, Hu. apply hint_text_ok; auto.
    - rewrite length_sort_strings, length_fmap. unfold MaxRelayHints in Hl. simpl. lia. }
  unfold is_uint in Hp. unfold SecretSize in Hs.
  unfold token_fields. destruct (tk_ExpiresAt t) as [e|]; enc_map;
    first [assumption | unfold is_uint; rewrite ?Hv, ?Hs; unfold TokenVersion; lia].
Qed.

Lemma Encode_Ok t s :
  Encode t = Ok s <->
  token_ok t zeroTime /\
  exists payload, Marshal (token_fields t) = Ok payload /\ s = TokenPrefix +:+ EncodeToString payload.
Proof.
  unfold Encode. rewrite seq_Ok, is_ok_unit, Validate_Ok, bind_Ok.
  setoid_rewrite map_err_Ok. naive_solver.
Qed.

Lemma token_fields_lookup t :
  token_fields t !! 0 = Some (VUint64 (tk_Version t)) /\
  token_fields t !! 1 = Some (VString (peer_String (tk_PeerID t))) /\
  token_fields t !! 2 = Some (VUint64 (tk_Service t)) /\
  token_fields t !! 3 = Some (VBytes (tk_Secret t)) /\
  token_fields t !! 4 = Some (VStrings (sort_strings (hint_String <$> tk_RelayHints t))) /\
  token_fields t !! 5 = VUint64 <$> tk_ExpiresAt t.
Proof. unfold token_fields. destruct (tk_ExpiresAt t); split_and!; by simplify_map_eq. Qed.

Lemma token_fields_keys t : Forall (fun key => ~ 5 < key) (elements (dom (token_fields t))).
Proof.
  apply Forall_forall. intros k Hk%elem_of_elements. revert Hk.
  unfold token_fields. destruct (tk_ExpiresAt t); set_unfold; lia.
Qed.

Lemma token_text_trim payload :
  TrimSpace (TokenPrefix +:+ EncodeToString payload) = TokenPrefix +:+ EncodeToString payload.
Proof.
  apply TrimSpace_graphic. rewrite bytes_of_app. apply Forall_app.
  split; [by repeat constructor|apply EncodeToString_graphic].
Qed.

(** Two tokens that differ in the order of the hints encode alike. *)
Lemma token_fields_perm t hints :
  hints ≡ₚ tk_RelayHints t ->
  token_fields (mkToken (tk_Version t) (tk_PeerID t) (tk_Service t) (tk_Secret t) hints
                  (tk_ExpiresAt t)) = token_fields t.
Proof.
  intros Hh. unfold token_fields; cbn [tk_Version tk_PeerID tk_Service tk_Secret tk_RelayHints tk_ExpiresAt].
  rewrite (sort_strings_unique (sort_strings (hint_String <$> hints))
             (sort_strings (hint_String <$> tk_RelayHints t)));
    auto using sort_strings_sorted.
  by rewrite !sort_strings_perm, Hh.
Qed.

Context `{!Libp2pLaws, !CborLaws, !CryptoLaws, !CidsLaws}.

Lemma parse_hints_String hints :
  Forall hint_ok hints -> parse_hints (hint_String <$> hints) = Ok hints.
Proof.
  induction 1 as [|[m|] hints Hm Hh IH]; [done| |done].
  rewrite fmap_cons. cbn [hint_String parse_hints]. rewrite NewMultiaddr_String, IH. done.
Qed.

Lemma Decode_payload t payload hints :
  token_ok t zeroTime -> token_typed t -> Marshal (token_fields t) = Ok payload ->
  blen payload <= MaxTokenSize ->
  hints ≡ₚ tk_RelayHints t -> hint_String <$> hints = sort_strings (hint_String <$> tk_RelayHints t) ->
  Decode (TokenPrefix +:+ EncodeToString payload) =
    Ok (mkToken (tk_Version t) (tk_PeerID t) (tk_Service t) (tk_Secret t) hints (tk_ExpiresAt t)).
Proof.
  intros Ht Hty Hm Hl Hp Hs. pose proof (token_fields_encodable t _ Ht Hty) as Henc.
  pose proof (token_ok_perm t hints _ Hp Ht) as Ht'.
  set (t' := mkToken _ _ _ _ _ _) in *.
  assert (Encode t' = Ok (TokenPrefix +:+ EncodeToString payload)) as He.
  { apply Encode_Ok. split; [done|]. exists payload. split; [|done].
    unfold t'. by rewrite token_fields_perm. }
  unfold Decode. rewrite token_text_trim, HasPrefix_app, TrimPrefix_app, DecodeString_EncodeToString.
  cbn [negb refuse of_option mbind result_bind].
  pose proof (Marshal_nonempty _ _ Hm) as Hn.
  rewrite (proj2 (Z.eqb_neq _ _)), (proj2 (Z.ltb_ge _ _)) by lia. cbn [orb refuse mbind result_bind].
  rewrite (UnmarshalRaw_Marshal _ _ _ Henc Hm). cbn [map_err mbind result_bind].
  rewrite dom_fmap_L, (filter_none _ _ (token_fields_keys t)).
  destruct (token_fields_lookup t) as (E0 & E1 & E2 & E3 & E4 & E5).
  assert (forall k v, token_fields t !! k = Some v -> field (MarshalItem <$> token_fields t) k = MarshalItem v) as Hf.
  { intros k v E. unfold field. by rewrite lookup_fmap, E. }
  rewrite (filter_none _ [0; 1; 2; 3; 4])
    by (repeat constructor; rewrite lookup_fmap, ?E0, ?E1, ?E2, ?E3, ?E4; done).
  assert (forall k v, token_fields t !! k = Some v -> encodable strict v) as Hv
    by (intros k v E; by apply (proj1 Henc k v)).
  rewrite (Hf _ _ E0), (Hf _ _ E1), (Hf _ _ E2), (Hf _ _ E3), (Hf _ _ E4), lookup_fmap, E5.
  rewrite !UnmarshalUint_Item, UnmarshalText_Item, UnmarshalBytes_Item, UnmarshalTexts_Item by eauto.
  cbn [map_err mbind result_bind]. destruct Hty as (Hb & Hsv & Hex & _).
  destruct Ht as (Hver & Hpd & Hsv0 & Hlen & Hfh & _). unfold is_uint in Hsv.
  rewrite length_sort_strings, length_fmap, <- Hs, parse_hints_String by (by rewrite Hp).
  rewrite (proj2 (Z.eqb_neq (tk_Service t) 0)), (proj2 (Z.ltb_ge 65535 _)),
    (proj2 (Z.ltb_ge MaxRelayHints _)) by lia.
  rewrite Hb. cbn [orb negb refuse mbind result_bind SecretSize Z.eqb Pos.eqb].
  destruct peer_Decode as [id|] eqn:Eid; [|done]. apply peer_Decode_String in Eid as ->.
  cbn [map_err mbind result_bind].
  assert (match MarshalItem <$> (VUint64 <$> tk_ExpiresAt t) with
          | Some value =>
              expires ← map_err (Wrapf "expiration pairing token: %w" []) (UnmarshalUint strict value);
              Ok (Some expires)
          | None => Ok None
          end = Ok (tk_ExpiresAt t)) as ->.
  { destruct (tk_ExpiresAt t); [|done]. simpl. by rewrite UnmarshalUint_Item. }
  cbn [mbind result_bind]. rewrite wrapU_small by done. fold t'.
  apply Validate_Ok in Ht' as ->. cbn [mbind result_bind]. rewrite He.
  cbn [mbind result_bind]. by rewrite bool_decide_true.
Qed.

(** The hints of an encodable token, in the order of the encoding. *)
Lemma sorted_hints t :
  exists hints, hints ≡ₚ tk_RelayHints t /\
    hint_String <$> hints = sort_strings (hint_String <$> tk_RelayHints t).
Proof.
  destruct (Permutation_map_inv hint_String (tk_RelayHints t)
              (l1 := sort_strings (hint_String <$> tk_RelayHints t))) as (hints & E & Hp).
  { apply sort_strings_perm. }
  exists hints. split; [by symmetry|by rewrite E].
Qed.

Lemma Decode_Encode t text :
  token_typed t -> Encode t = Ok text ->
  slen text <= slen TokenPrefix + EncodedLen MaxTokenSize ->
  exists hints, hints ≡ₚ tk_RelayHints t /\ Sorted String.le (hint_String <$> hints) /\
    Decode text = Ok (mkToken (tk_Version t) (tk_PeerID t) (tk_Service t) (tk_Secret t)
                        hints (tk_ExpiresAt t)).
Proof.
  intros Hty (Ht & payload & Hm & ->)%Encode_Ok Hl.
  rewrite slen_app, slen_EncodeToString in Hl.
  destruct (sorted_hints t) as (hints & Hp & Hs). exists hints.
  split; [done|]. split; [rewrite Hs; apply sort_strings_sorted|].
  apply Decode_payload; try done. apply EncodedLen_le; [apply blen_nonneg|done|lia].
Qed.

(** A text over the limit is refused before anything is decoded. *)
Lemma Decode_oversize t text :
  Encode t = Ok text -> slen TokenPrefix + EncodedLen MaxTokenSize < slen text ->
  Decode text = Err (Errorf "pairing token must contain 1..%d bytes" [AInt MaxTokenSize]).
Proof.
  intros (Ht & payload & Hm & ->)%Encode_Ok Hl. rewrite slen_app, slen_EncodeToString in Hl. unfold Decode.
  rewrite token_text_trim, HasPrefix_app, TrimPrefix_app, DecodeString_EncodeToString.
  cbn [negb refuse of_option mbind result_bind].
  rewrite (proj2 (Z.ltb_lt MaxTokenSize _)), orb_true_r; [done|].
  destruct (Z_lt_le_dec MaxTokenSize (blen payload)) as [?|Hle]; [done|].
  pose proof (EncodedLen_mono (blen payload) MaxTokenSize (conj (blen_nonneg _) Hle)). lia.
Qed.

(** C9: the text form of a token is faithful up to the decoder's size limit.  A well-typed token
    that [Encode] accepts and whose text is at most as long as the encoding of [MaxTokenSize] bytes
    with the prefix decodes to the same token, its relay hints in the sorted order of the document;
    a longer text, which [Encode] produces without complaint, is refused. *)
Theorem token_roundtrip t text :
  token_typed t -> Encode t = Ok text ->
  if slen text <=? slen TokenPrefix + EncodedLen MaxTokenSize
  then exists hints, hints ≡ₚ tk_RelayHints t /\ Sorted String.le (hint_String <$> hints) /\
    Decode text = Ok (mkToken (tk_Version t) (tk_PeerID t) (tk_Service t) (tk_Secret t)
                        hints (tk_ExpiresAt t))
  else Decode text = Err (Errorf "pairing token must contain 1..%d bytes" [AInt MaxTokenSize]).
Proof.
  intros Hty He. destruct (Z.leb_spec (slen text) (slen TokenPrefix + EncodedLen MaxTokenSize)).
  - by apply Decode_Encode.
  - by eapply Decode_oversize.
Qed.

Lemma Decode_Ok text t :
  Decode text = Ok t ->
  exists payload, DecodeString (TrimPrefix (TrimSpace text) TokenPrefix) = Some payload /\
    HasPrefix (TrimSpace text) TokenPrefix = true /\ blen payload <= MaxTokenSize /\
    blen (tk_Secret t) = SecretSize /\ is_uint 16 (tk_Service t) /\
    token_ok t zeroTime /\ Encode t = Ok (TokenPrefix +:+ EncodeToString payload).
Proof.
  unfold Decode. intros HD. inv_ok. simplify_eq. eexists. split; [done|].
  repeat match goal with
  | H : negb _ = false |- _ => apply negb_false_iff in H
  | H : _ || _ = false |- _ => apply orb_false_iff in H as [??]
  | H : bool_decide _ = true |- _ => apply bool_decide_eq_true in H
  | H : (_ <? _) = false |- _ => apply Z.ltb_ge in H
  | H : (_ =? _) = true |- _ => apply Z.eqb_eq in H
  | H : Validate _ _ = Ok ?u |- _ => destruct u; apply Validate_Ok in H
  end.
  subst. split_and!; try done; apply wrapU_range; lia.
Qed.

(** C10: acceptance is canonical.  A text that decodes is, up to surrounding
    white space and line breaks inside it, the one text that encodes the token; the
    token is valid and its secret has 32 bytes. *)
Theorem token_decode_canonical text t :
  Decode text = Ok t ->
  token_ok t zeroTime /\ blen (tk_Secret t) = SecretSize /\
  Encode t = Ok (string_of (base.filter (fun b => is_newline b = false) (bytes_of (TrimSpace text)))).
Proof.
  intros (payload & Hd & Hp & _ & Hs & _ & Ht & He)%Decode_Ok. split_and!; [done..|].
  rewrite He. do 2 f_equal. apply EncodeToString_DecodeString in Hd. rewrite Hd.
  rewrite (HasPrefix_inv _ _ Hp) at 2. rewrite bytes_of_app, filter_app, string_of_app. done.
Qed.

(** ** Sealed envelopes *)

Lemma envelope_lookup v n c :
  envelope_fields v n c !! 0 = Some (VUint64 v) /\ envelope_fields v n c !! 1 = Some (VBytes n) /\
  envelope_fields v n c !! 2 = Some (VBytes c).
Proof. done. Qed.

Lemma size_envelope v n c : size (envelope_fields v n c) = 3%nat.
Proof. done. Qed.

Lemma envelope_encodable n c :
  blen n < 2 ^ 32 -> blen c < 2 ^ 32 -> encodable_map strict (envelope_fields 1 n c).
Proof. intros. unfold envelope_fields. enc_map; by first [assumption | unfold is_uint; lia]. Qed.

Lemma Seal_Ok t purpose plain ad nonce random env :
  Seal t purpose plain ad nonce random = Ok env <->
  exists key n, DeriveKey t purpose = Ok key /\
    match nonce with Some n => Ok n | None => random end = Ok n /\ blen n = 12 /\
    Marshal (envelope_fields 1 n (gcm_Seal key n plain ad)) = Ok env.
Proof.
  unfold Seal. rewrite bind_Ok. setoid_rewrite bind_Ok. setoid_rewrite seq_Ok.
  setoid_rewrite is_ok_refuse. setoid_rewrite negb_false_iff. setoid_rewrite Z.eqb_eq. naive_solver.
Qed.

Lemma Open_Seal t purpose plain ad nonce random env :
  blen plain + 16 < 2 ^ 32 -> Seal t purpose plain ad nonce random = Ok env ->
  Open t purpose env ad = Ok plain.
Proof.
  intros Hl (key & n & Hk & _ & Hn & HS)%Seal_Ok. set (c := gcm_Seal key n plain ad) in *.
  assert (blen c = blen plain + 16) as Hc by (unfold c, blen; rewrite length_gcm_Seal; lia).
  assert (encodable_map strict (envelope_fields 1 n c)) as Henc
    by (apply envelope_encodable; lia).
  unfold Open. rewrite (UnmarshalRaw_Marshal _ _ _ Henc HS). cbn [map_err mbind result_bind].
  rewrite map_size_fmap, size_envelope. destruct (envelope_lookup 1 n c) as (E0 & E1 & E2).
  unfold field. rewrite !lookup_fmap, E0, E1, E2.
  cbn [fmap option_fmap option_map from_option id Z.of_nat Pos.of_succ_nat Pos.succ Z.eqb Pos.eqb negb orb refuse
       mbind result_bind].
  rewrite UnmarshalUint_Item, !UnmarshalBytes_Item by (simpl; unfold is_uint; lia).
  cbn [map_err mbind result_bind Z.eqb Pos.eqb negb refuse].
  rewrite !bool_decide_false by done. cbn [orb refuse mbind result_bind]. rewrite (proj2 (Z.eqb_eq _ _) Hn).
  pose proof (blen_nonneg plain).
  rewrite (proj2 (Z.ltb_ge _ _)) by lia. cbn [negb refuse mbind result_bind].
  rewrite Hk. cbn [mbind result_bind]. 
  rewrite (gcm_Open_Seal key n plain ad : gcm_Open key n c ad = Some plain).
  cbn [of_option mbind result_bind]. rewrite HS. cbn [map_err mbind result_bind].
  by rewrite bool_decide_true.
Qed.

Lemma Open_inv t purpose env ad plain random :
  Open t purpose env ad = Ok plain ->
  exists nonce, Seal t purpose plain ad (Some nonce) random = Ok env.
Proof.
  unfold Open. intros HO. inv_ok.
  repeat match goal with
  | H : negb _ = false |- _ => apply negb_false_iff in H
  | H : (_ =? _) = true |- _ => apply Z.eqb_eq in H; subst
  | H : bool_decide _ = true |- _ => apply bool_decide_eq_true in H; subst
  | H : gcm_Open _ _ _ _ = Some _ |- _ => apply gcm_Open_inv in H; subst
  end.
  eexists. apply Seal_Ok. eauto 10.
Qed.

(** An envelope opens to a plaintext exactly when it is a [Seal] of that
    plaintext under the token's key for the purpose and the same additional data:
    nothing else is accepted and every sealed envelope is. *)
Theorem seal_open_exact t purpose plain ad env random :
  blen plain + 16 < 2 ^ 32 ->
  Open t purpose env ad = Ok plain <->
  exists nonce, Seal t purpose plain ad (Some nonce) random = Ok env.
Proof.
  intros Hl. split; [apply Open_inv|]. intros [nonce HS]. by eapply Open_Seal.
Qed.

(** ** Rendezvous *)

(** The content identifier of one epoch. *)
Definition epoch_cid (t : Token) (epoch : Z) : result Cid :=
  id ← RendezvousID t "dht" (wrapU 64 epoch); ProviderCID id.

Lemma epoch_cid_ok t epoch : exists c, epoch_cid t epoch = Ok c.
Proof.
  unfold epoch_cid, RendezvousID. rewrite bool_decide_true by set_solver.
  cbn [negb refuse mbind result_bind]. unfold DeriveKey. rewrite bool_decide_true by set_solver.
  cbn [mbind result_bind]. unfold ProviderCID. rewrite DecodeString_EncodeToString.
  cbn [of_option mbind result_bind]. unfold blen. rewrite length_hmac.
  rewrite bool_decide_true by done. apply RawCid_ok.
Qed.

Lemma provider_cids_ok t epoch offsets :
  exists l, provider_cids t epoch offsets = Ok l /\
    forall c, c ∈ l <-> exists offset, offset ∈ offsets /\ 0 <= epoch + offset /\
                          epoch_cid t (epoch + offset) = Ok c.
Proof.
  induction offsets as [|o offsets (l & IH & Hl)]; [exists []; split; [done|set_solver]|].
  cbn [provider_cids]. destruct (Z.ltb_spec (epoch + o) 0) as [Hlt|Hge].
  - exists l. split; [done|]. intros c. rewrite Hl. split.
    + intros (o' & ? & ?). exists o'. set_solver.
    + intros (o' & [->|?]%elem_of_cons & ? & ?); [lia|]. eauto.
  - destruct (epoch_cid_ok t (epoch + o)) as [c Hc]. pose proof Hc as Hc'. unfold epoch_cid in Hc.
    destruct RendezvousID as [id|]; [|done]. simpl in Hc |- *. rewrite Hc. simpl. rewrite IH. simpl.
    exists (c :: l). split; [done|]. intros c'. rewrite elem_of_cons, Hl. split.
    + intros [->|(o' & ? & ? & ?)]; [exists o|exists o']; set_solver.
    + intros (o' & [->|?]%elem_of_cons & ? & ?); [left; congruence|right; eauto].
Qed.

Lemma ProviderCIDs_ok t now :
  exists l, ProviderCIDs t now = Ok l /\
    forall c, c ∈ l <-> exists e, Z.quot (toUnix now) 300 - 1 <= e <= Z.quot (toUnix now) 300 + 1 /\
                          0 <= e /\ epoch_cid t e = Ok c.
Proof.
  unfold ProviderCIDs. change (Z.quot RendezvousInterval Second) with 300.
  destruct (provider_cids_ok t (Z.quot (toUnix now) 300) [-1; 0; 1]) as (l & E & Hl).
  exists l. split; [done|]. intros c. rewrite Hl. split.
  - intros (o & Ho & Hge & Hc). eexists. split_and!; [..|done|done];
      rewrite !elem_of_cons, elem_of_nil in Ho; lia.
  - intros (e & He & Hge & Hc). exists (e - Z.quot (toUnix now) 300).
    rewrite Z.add_comm, Z.sub_add. split_and!; [|done|done].
    rewrite !elem_of_cons, elem_of_nil. lia.
Qed.

(** Rendezvous windows meet.  Whatever their clocks show since 1970, two
    holders of the same token whose clocks differ by at most ten minutes always
    compute a common content identifier, so the advertiser of one is found by the
    other. *)
Theorem provider_cids_meet t now1 now2 :
  0 <= toUnix now1 -> 0 <= toUnix now2 -> Z.abs (toUnix now1 - toUnix now2) <= 600 ->
  exists l1 l2 c, ProviderCIDs t now1 = Ok l1 /\ ProviderCIDs t now2 = Ok l2 /\ c ∈ l1 /\ c ∈ l2.
Proof.
  intros H1' H2' Hd. destruct (ProviderCIDs_ok t now1) as (l1 & E1 & Hl1).
  destruct (ProviderCIDs_ok t now2) as (l2 & E2 & Hl2).
  set (e1 := Z.quot (toUnix now1) 300) in *. set (e2 := Z.quot (toUnix now2) 300) in *.
  assert (exists e, e1 - 1 <= e <= e1 + 1 /\ e2 - 1 <= e <= e2 + 1 /\ 0 <= e) as (e & He1 & He2 & He).
  { assert (0 <= e1 /\ 0 <= e2 /\ Z.abs (e1 - e2) <= 2) as (? & ? & ?)
      by (unfold e1, e2; Z.to_euclidean_division_equations; lia).
    exists (Z.min e1 e2 + Z.abs (e1 - e2) / 2). Z.to_euclidean_division_equations; lia. }
  destruct (epoch_cid_ok t e) as [c Hc]. exists l1, l2, c.
  rewrite Hl1, Hl2. split_and!; [done|done|exists e; done..].
Qed.

(** Rendezvous identifiers are computed from unambiguous inputs: two
    messages under the MAC agree only if purpose, peer, logical port and epoch do. *)
Theorem rendezvous_message_injective t1 t2 p1 p2 e1 e2 :
  p1 ∈ ["dht"; "pubsub"; "signaling"] -> p2 ∈ ["dht"; "pubsub"; "signaling"] ->
  x00 ∉ bytes_of (peer_String (tk_PeerID t1)) -> x00 ∉ bytes_of (peer_String (tk_PeerID t2)) ->
  is_uint 16 (tk_Service t1) -> is_uint 16 (tk_Service t2) -> is_uint 64 e1 -> is_uint 64 e2 ->
  rendezvous_message t1 p1 e1 = rendezvous_message t2 p2 e2 ->
  p1 = p2 /\ peer_String (tk_PeerID t1) = peer_String (tk_PeerID t2) /\
  tk_Service t1 = tk_Service t2 /\ e1 = e2.
Proof.
  unfold is_uint, rendezvous_message. intros Hp1 Hp2 Hn1 Hn2 Hs1 Hs2 He1 He2 E.
  apply app_inv_head in E. injection E as E.
  assert (forall p, p ∈ ["dht"; "pubsub"; "signaling"] -> x00 ∉ bytes_of p) as Hp.
  { intros p. rewrite !elem_of_cons, elem_of_nil.
    intros [->|[->|[->|[]]]]; by apply (bool_decide_unpack _). }
  apply app_sep_inj in E as [->%(inj bytes_of) E]; [|by apply Hp..].
  apply app_sep_inj in E as [->%(inj bytes_of) E]; [|done..].
  apply app_sep_inj in E as [->%(inj bytes_of)%itoa_inj E%(inj bytes_of)%itoa_inj];
    try lia; [done|apply itoa_no_nul; lia..].
Qed.

(** The size limit is one-sided.  [Encode] never checks [MaxTokenSize], so
    a token whose hints alone exceed it is encoded, and no decoder accepts the
    result. *)
Theorem token_oversize_undecodable t text :
  Encode t = Ok text ->
  MaxTokenSize < foldr (fun h acc => slen (hint_String h) + acc) 0 (tk_RelayHints t) ->
  Decode text = Err (Errorf "pairing token must contain 1..%d bytes" [AInt MaxTokenSize]).
Proof.
  intros (Ht & payload & Hm & ->)%Encode_Ok Hl. unfold Decode.
  rewrite token_text_trim, HasPrefix_app, TrimPrefix_app, DecodeString_EncodeToString.
  cbn [negb refuse of_option mbind result_bind].
  destruct (token_fields_lookup t) as (_ & _ & _ & _ & E4 & _).
  pose proof (Marshal_size _ _ _ _ Hm E4) as Hz. 
  rewrite (sum_slen_perm _ _ (sort_strings_perm _)), sum_slen_fmap in Hz.
  rewrite (proj2 (Z.ltb_lt _ _)), orb_true_r by lia. done.
Qed.
End pairing.

(** ** Witnesses *)

Module PairingWitness.
Import Ref.

(** A token with two hints out of order and an expiration. *)
Definition sample : Token :=
  mkToken 1 "12D3peer" 4242 (put_be 32 77)
    [Some "/ip4/10.0.0.2/tcp/9/p2p/R2"; Some "/ip4/10.0.0.1/tcp/9/p2p/R1"] (Some 1900000000).
Definition sample_text : string :=
  Eval vm_compute in match Encode sample with Ok text => text | Err _ => "" end.

Lemma sample_typed : token_typed sample.
Proof.
  unfold token_typed, text_ok, is_uint. cbn [sample tk_Secret tk_Service tk_ExpiresAt tk_PeerID tk_RelayHints].
  split_and!; try (vm_compute; reflexivity); try lia; repeat constructor.
Qed.

Lemma token_roundtrip_witness :
  exists hints, hints ≡ₚ tk_RelayHints sample /\ Sorted String.le (hint_String <$> hints) /\
    Decode sample_text = Ok (mkToken 1 "12D3peer" 4242 (put_be 32 77) hints (Some 1900000000)).
Proof.
  assert (Encode sample = Ok sample_text) as He by (vm_compute; reflexivity).
  pose proof (token_roundtrip sample sample_text sample_typed He) as H.
  assert ((slen sample_text <=? slen TokenPrefix + EncodedLen MaxTokenSize) = true) as E by (vm_compute; reflexivity).
  rewrite E in H. exact H.
Defined.

(** The text may be wrapped: line breaks inside it and spaces around it. *)
Definition wrapped_text : string :=
  Eval vm_compute in
    " " +:+ string_of (take 20 (bytes_of sample_text)) +:+ string_of [x0d; x0a] +:+
    string_of (drop 20 (bytes_of sample_text)) +:+ " ".
Definition decoded : Token :=
  mkToken 1 "12D3peer" 4242 (put_be 32 77)
    [Some "/ip4/10.0.0.1/tcp/9/p2p/R1"; Some "/ip4/10.0.0.2/tcp/9/p2p/R2"] (Some 1900000000).

Lemma token_decode_canonical_witness :
  token_ok decoded zeroTime /\ blen (tk_Secret decoded) = SecretSize /\
  Encode decoded =
    Ok (string_of (base.filter (fun b => is_newline b = false) (bytes_of (TrimSpace wrapped_text)))).
Proof. apply (token_decode_canonical wrapped_text decoded). vm_compute. reflexivity. Defined.

Definition envelope : list byte :=
  Eval vm_compute in
    match Seal sample "signaling" [x01; x02] [x03] (Some (put_be 12 5)) (Err EOF) with
    | Ok e => e | Err _ => [] end.

Lemma seal_open_exact_witness :
  Open sample "signaling" envelope [x03] = Ok [x01; x02] <->
  exists nonce, Seal sample "signaling" [x01; x02] [x03] (Some nonce) (Err EOF) = Ok envelope.
Proof. apply (seal_open_exact sample "signaling" [x01; x02] [x03] envelope (Err EOF)). by vm_compute. Defined.

Lemma provider_cids_meet_witness :
  exists l1 l2 c, ProviderCIDs sample (Unix 1700000099 0) = Ok l1 /\
    ProviderCIDs sample (Unix 1700000699 0) = Ok l2 /\ c ∈ l1 /\ c ∈ l2.
Proof.
  apply (provider_cids_meet sample (Unix 1700000099 0) (Unix 1700000699 0)); vm_compute; discriminate.
Defined.

Lemma rendezvous_message_injective_witness :
  "dht" = "dht" /\ peer_String (tk_PeerID sample) = peer_String (tk_PeerID decoded) /\
  tk_Service sample = tk_Service decoded /\ 7 = 7.
Proof.
  apply (rendezvous_message_injective sample decoded "dht" "dht" 7 7);
    first [set_solver | by apply (bool_decide_unpack _) | unfold is_uint; simpl; lia
          | vm_compute; reflexivity].
Defined.

(** Ten hints of about 1.8 kB each. *)
Definition big_hint (n : Z) : option (@Multiaddr libp2p) :=
  Some ("/dns4/" +:+ string_of (replicate 1800 x61) +:+ itoa n +:+ "/tcp/9/p2p/R").
Definition big : Token := mkToken 1 "12D3peer" 4242 (put_be 32 77) (big_hint <$> seqZ 0 10) None.

Lemma token_oversize_undecodable_witness :
  exists text, Encode big = Ok text /\
    Decode text = Err (Errorf "pairing token must contain 1..%d bytes" [AInt MaxTokenSize]).
Proof.
  assert (is_ok (Encode big) = true) as H by (vm_compute; reflexivity).
  destruct (Encode big) as [text|e] eqn:E; [|discriminate H].
  exists text. split; [reflexivity|].
  apply (token_oversize_undecodable big text E). vm_compute. reflexivity.
Defined.
End PairingWitness.
