(* ===== verification/Admission.v ===== *)
(** [protocol/admission]: the fixed-size mutual handshake that proves both ends
    hold the pairing token (protocol/admission/admission.go). *)
From S2P Require Export Pairing GoIO.
From S2P Require Import ExtModel.
Local Open Scope Z_scope.

Definition Version : byte := x01.
Definition ClientHello : byte := x01.
Definition ServerAck : byte := x02.
Definition NonceSize : Z := 16.
Definition MACSize : Z := 32.
Definition FrameSize : nat := 62.
Definition MaxClockSkew : Z := 120 * Second.

Definition magic : list byte := bytes_of "PNCA".

Record Hello := mkHello { h_Timestamp : Z; h_ClientNonce : list byte }.

Record auth_frame := mkAuthFrame {
  af_kind : byte; af_timestamp : Z; af_nonce : list byte; af_mac : list byte
}.

(** [encode]: the arrays have their Go sizes, 16 and 32. *)
Definition encode (kind : byte) (timestamp : Z) (nonce mac : list byte) : list byte :=
  magic ++ [Version; kind] ++ put_be 8 timestamp ++ nonce ++ mac.

Definition decode (encoded : list byte) (expectedKind : byte) : result auth_frame :=
  refuse (negb (length encoded =? FrameSize)%nat)
    (Errorf "admission frame must contain exactly %d bytes" [AInt 62]);;
  refuse (negb (bool_decide (slice encoded 0 4 = magic)))
    (ErrNew "invalid admission frame signature");;
  let version := nth 4 encoded x00 in
  refuse (negb (bool_decide (version = Version)))
    (Errorf "unsupported admission version: %d" [AInt (byte_Z version)]);;
  let kind := nth 5 encoded x00 in
  refuse (negb (bool_decide (kind = expectedKind)))
    (Errorf "unexpected admission frame type: %d" [AInt (byte_Z kind)]);;
  Ok (mkAuthFrame kind (get_be (slice encoded 6 14)) (slice encoded 14 30) (slice encoded 30 62)).

(** [fillNonce]; [random] is what [rand.Read] yields. *)
Definition fillNonce (source : option (list byte)) (random : result (list byte)) : result (list byte) :=
  match source with
  | None => random
  | Some source =>
      refuse (negb (blen source =? NonceSize))
        (Errorf "admission nonce must contain exactly %d bytes" [AInt NonceSize]);;
      Ok source
  end.

Section admission.
Context `{LP : !Libp2p, CR : !Crypto}.

Definition calculateMAC (token : Token) (message : list byte) : result (list byte) :=
  key ← DeriveKey token "admission";
  Ok (hmac_sha256 key message).

Definition macInput (role : string) (token : Token) (timestamp : Z)
    (clientNonce serverNonce : list byte) : list byte :=
  bytes_of "p2p-netcat/session-auth/v1" ++ x00 :: bytes_of role ++
  x00 :: bytes_of (peer_String (tk_PeerID token)) ++ x00 :: bytes_of (itoa (tk_Service token)) ++
  x00 :: bytes_of (itoa timestamp) ++ x00 :: clientNonce ++ serverNonce.

Definition CreateHello (token : Token) (now : Time) (nonce : option (list byte))
    (random : result (list byte)) : result (list byte * Hello) :=
  Validate (Some token) now;;
  let timestamp := wrapU 64 (toUnix now) in
  clientNonce ← fillNonce nonce random;
  mac ← calculateMAC token (macInput "client" token timestamp clientNonce []);
  Ok (encode ClientHello timestamp clientNonce mac, mkHello timestamp clientNonce).

Definition VerifyHello (token : Token) (encoded : list byte) (now : Time) (maxSkew : Z)
    : result Hello :=
  Validate (Some token) now;;
  value ← decode encoded ClientHello;
  let timestamp := Unix (wrapS 64 (af_timestamp value)) 0 in
  refuse ((maxSkew <? 0) || Before timestamp (Add now (- maxSkew))
          || After timestamp (Add now maxSkew))
    (ErrNew "admission handshake timestamp is outside the allowed window");;
  expected ← calculateMAC token (macInput "client" token (af_timestamp value) (af_nonce value) []);
  refuse (negb (bool_decide (expected = af_mac value)))
    (ErrNew "pairing-token authentication failed");;
  Ok (mkHello (af_timestamp value) (af_nonce value)).

Definition CreateAck (token : Token) (hello : Hello) (nonce : option (list byte))
    (random : result (list byte)) : result (list byte) :=
  serverNonce ← fillNonce nonce random;
  mac ← calculateMAC token
    (macInput "server" token (h_Timestamp hello) (h_ClientNonce hello) serverNonce);
  Ok (encode ServerAck (h_Timestamp hello) serverNonce mac).

Definition VerifyAck (token : Token) (hello : Hello) (encoded : list byte) : result unit :=
  value ← decode encoded ServerAck;
  refuse (negb (af_timestamp value =? h_Timestamp hello))
    (ErrNew "admission handshake timestamp changed");;
  expected ← calculateMAC token
    (macInput "server" token (h_Timestamp hello) (h_ClientNonce hello) (af_nonce value));
  refuse (negb (bool_decide (expected = af_mac value)))
    (ErrNew "server pairing-token confirmation failed").

(** [writeFull], as in protocol/pty. *)
Fixpoint writeFull_loop `{!Writer W} (fuel : nat) (w : W) (value : list byte) : option error * W :=
  match value with
  | [] => (None, w)
  | _ =>
      match fuel with
      | O => (Some (ErrNew "unreachable"), w)
      | S fuel' =>
          match w_write w value with
          | (_, Some err, w') => (Some err, w')
          | (count, None, w') =>
              if count =? 0 then (Some ErrShortWrite, w')
              else writeFull_loop fuel' w' (drop (Z.to_nat count) value)
          end
      end
  end.
Definition writeFull `{!Writer W} (w : W) (value : list byte) : option error * W :=
  writeFull_loop (length value) w value.

(** [AuthenticateClient]; [now] and [random] are what the clock and
    [rand.Read] yield.  The deadlines set on the stream are not part of the model. *)
Definition AuthenticateClient `{!Reader ST, !Writer ST} (stream : ST) (token : Token) (now : Time)
    (random : result (list byte)) : result unit * ST :=
  match CreateHello token now None random with
  | Err err => (Err err, stream)
  | Ok (encoded, hello) =>
      match writeFull stream encoded with
      | (Some err, stream) => (Err (Wrapf "send admission hello: %w" [] err), stream)
      | (None, stream) =>
          match ReadFull stream FrameSize with
          | (Err err, stream) => (Err (Wrapf "read admission acknowledgement: %w" [] err), stream)
          | (Ok ack, stream) => (VerifyAck token hello ack, stream)
          end
      end
  end.

(** [AuthenticateServer]; [now] is the time after the hello has been read. *)
Definition AuthenticateServer `{!Reader ST, !Writer ST} (stream : ST) (token : Token) (now : Time)
    (random : result (list byte)) : result unit * ST :=
  match ReadFull stream FrameSize with
  | (Err err, stream) => (Err (Wrapf "read admission hello: %w" [] err), stream)
  | (Ok encoded, stream) =>
      match VerifyHello token encoded now MaxClockSkew with
      | Err err => (Err err, stream)
      | Ok hello =>
          match CreateAck token hello None random with
          | Err err => (Err err, stream)
          | Ok ack =>
              match writeFull stream ack with
              | (Some err, stream) =>
                  (Err (Wrapf "send admission acknowledgement: %w" [] err), stream)
              | (None, stream) => (Ok tt, stream)
              end
          end
      end
  end.

(** ** Frames *)

Lemma decode_encode kind ts nonce mac :
  is_uint 64 ts -> length nonce = 16%nat -> length mac = 32%nat ->
  decode (encode kind ts nonce mac) kind = Ok (mkAuthFrame kind ts nonce mac).
Proof.
  intros Ht Hn Hm. pose proof (length_put_be 8 ts) as Hp. unfold decode.
  assert (length (encode kind ts nonce mac) = FrameSize) as ->.
  { unfold encode. by rewrite !length_app, Hp, Hn, Hm. }
  assert (slice (encode kind ts nonce mac) 0 4 = magic) as -> by done.
  assert (nth 4 (encode kind ts nonce mac) x00 = Version) as -> by done.
  assert (nth 5 (encode kind ts nonce mac) x00 = kind) as -> by done.
  rewrite !bool_decide_true by done. cbn [Nat.eqb FrameSize negb refuse mbind result_bind].
  unfold encode. do 2 f_equal.
  - rewrite (slice_app (magic ++ [Version; kind]) (put_be 8 ts) (nonce ++ mac)) by (by rewrite ?Hp).
    rewrite get_put_be. by apply Z.mod_small.
  - rewrite (app_assoc magic), (app_assoc (magic ++ _)). apply slice_app; rewrite !length_app, Hp, ?Hn; done.
  - rewrite (app_assoc magic), (app_assoc (magic ++ _)), (app_assoc (_ ++ put_be 8 ts)).
    rewrite <- (app_nil_r mac) at 1. apply slice_app; rewrite !length_app, Hp, Hn, ?Hm; done.
Qed.

Lemma decode_inv encoded kind f :
  decode encoded kind = Ok f ->
  encoded = encode kind (af_timestamp f) (af_nonce f) (af_mac f) /\ af_kind f = kind /\
  is_uint 64 (af_timestamp f) /\ length (af_nonce f) = 16%nat /\ length (af_mac f) = 32%nat.
Proof.
  unfold decode. intros HD. inv_ok. cbn [af_kind af_timestamp af_nonce af_mac].
  repeat match goal with
  | H : negb _ = false |- _ => apply negb_false_iff in H
  | H : bool_decide _ = true |- _ => apply bool_decide_eq_true in H
  | H : (_ =? _)%nat = true |- _ => apply Nat.eqb_eq in H
  end. unfold FrameSize in *.
  match goal with H : length encoded = _ |- _ => rename H into Hl end.
  assert (length (slice encoded 6 14) = 8%nat) as H8 by (rewrite length_slice; lia).
  split_and!; try done; try (rewrite length_slice; lia).
  - unfold encode. replace (put_be 8 _) with (slice encoded 6 14)
      by (by rewrite <- (put_get_be (slice encoded 6 14)) at 1; rewrite H8).
    rewrite <- (slice_all encoded 62 Hl) at 1.
    rewrite (slice_cat encoded 0 4 62), (slice_cat encoded 4 6 62), (slice_cat encoded 6 14 62),
      (slice_cat encoded 14 30 62), (slice_cat encoded 4 5 6), !slice_one by lia.
    repeat match goal with H : nth _ encoded _ = _ |- _ => rewrite H; clear H end.
    by match goal with H : slice encoded 0 4 = _ |- _ => rewrite H end.
  - pose proof (get_be_range (slice encoded 6 14)) as Hr. rewrite H8 in Hr. exact Hr.
Qed.

(** ** Message authentication *)

Lemma calculateMAC_ok token message :
  calculateMAC token message =
  Ok (hmac_sha256 (hkdf_sha256 (tk_Secret token) (bytes_of "p2p-netcat/pairing/v1")
                     (bytes_of "p2p-netcat/admission/v1")) message).
Proof. done. Qed.

(** The MAC input determines everything it authenticates.  Inputs of
    either role that coincide agree on role, peer, logical port, time and nonces; in
    particular no client hello can pass for a server acknowledgement. *)
Theorem mac_input_injective role1 role2 token1 token2 ts1 ts2 c1 c2 s1 s2 :
  role1 ∈ ["client"; "server"] -> role2 ∈ ["client"; "server"] ->
  x00 ∉ bytes_of (peer_String (tk_PeerID token1)) ->
  x00 ∉ bytes_of (peer_String (tk_PeerID token2)) ->
  is_uint 16 (tk_Service token1) -> is_uint 16 (tk_Service token2) ->
  is_uint 64 ts1 -> is_uint 64 ts2 -> length c1 = 16%nat -> length c2 = 16%nat ->
  macInput role1 token1 ts1 c1 s1 = macInput role2 token2 ts2 c2 s2 ->
  role1 = role2 /\ peer_String (tk_PeerID token1) = peer_String (tk_PeerID token2) /\
  tk_Service token1 = tk_Service token2 /\ ts1 = ts2 /\ c1 = c2 /\ s1 = s2.
Proof.
  unfold is_uint, macInput. intros Hr1 Hr2 Hn1 Hn2 Hs1 Hs2 Ht1 Ht2 Hc1 Hc2 E.
  apply app_inv_head in E. injection E as E.
  assert (forall r, r ∈ ["client"; "server"] -> x00 ∉ bytes_of r) as Hr.
  { intros r. rewrite !elem_of_cons, elem_of_nil.
    intros [->|[->|[]]]; by apply (bool_decide_unpack _). }
  apply app_sep_inj in E as [->%(inj bytes_of) E]; [|by apply Hr..].
  apply app_sep_inj in E as [->%(inj bytes_of) E]; [|done..].
  apply app_sep_inj in E as [->%(inj bytes_of)%itoa_inj E]; [|apply itoa_no_nul; lia..].
  apply app_sep_inj in E as [->%(inj bytes_of)%itoa_inj E]; [|apply itoa_no_nul; lia..].
  apply app_inj_1 in E as [-> ->]; [done|congruence].
Qed.

(** ** Verification of the hello *)

(** The clock window, on the instants the code compares. *)
Definition in_window (ts : Z) (now : Time) (maxSkew : Z) : Prop :=
  0 <= maxSkew /\ Z.abs ((ts + unixToInternal) * nanos - ns now) <= maxSkew.

Lemma window_spec ts now maxSkew :
  is_uint 64 ts -> sane now -> maxSkew < 2 ^ 62 -> unixToInternal * nanos + maxSkew <= ns now ->
  (maxSkew <? 0) || Before (Unix (wrapS 64 ts) 0) (Add now (- maxSkew))
    || After (Unix (wrapS 64 ts) 0) (Add now maxSkew) = false <->
  in_window ts now maxSkew.
Proof.
  intros Ht Hs Hm Hlo. unfold in_window. rewrite !orb_false_iff, Z.ltb_ge, Logic.and_assoc.
  apply and_iff_compat_l'. intros H0. unfold After.
  destruct (Add_sane now (- maxSkew) Hs) as [E1 R1]; [lia|].
  destruct (Add_sane now maxSkew Hs) as [E2 R2]; [lia|].
  assert (0 <= t_nsec (Unix (wrapS 64 ts) 0) < nanos) as R3 by done.
  rewrite !Before_ns, E1, E2, !Z.ltb_ge by done. destruct Hs as [Hs Hns].
  unfold ns, Unix, is_uint, unixToInternal, wrapS, nanos in *; cbn [t_sec t_nsec].
  change (2 ^ 64) with 18446744073709551616 in *. change (2 ^ (64 - 1)) with 9223372036854775808 in *.
  change (2 ^ 62) with 4611686018427387904 in *.
  Z.to_euclidean_division_equations; lia.
Qed.

Context `{CRL : !CryptoLaws}.

(** The MAC of a hello. *)
Definition hello_mac (token : Token) (ts : Z) (nonce : list byte) : list byte :=
  hmac_sha256 (hkdf_sha256 (tk_Secret token) (bytes_of "p2p-netcat/pairing/v1")
                 (bytes_of "p2p-netcat/admission/v1")) (macInput "client" token ts nonce []).

Lemma VerifyHello_Ok token encoded now maxSkew hello :
  sane now -> maxSkew < 2 ^ 62 -> unixToInternal * nanos + maxSkew <= ns now ->
  VerifyHello token encoded now maxSkew = Ok hello <->
  token_ok token now /\ is_uint 64 (h_Timestamp hello) /\ length (h_ClientNonce hello) = 16%nat /\
  in_window (h_Timestamp hello) now maxSkew /\
  encoded = encode ClientHello (h_Timestamp hello) (h_ClientNonce hello)
              (hello_mac token (h_Timestamp hello) (h_ClientNonce hello)).
Proof.
  intros Hs Hm Hlo. unfold VerifyHello. rewrite seq_Ok, is_ok_unit, Validate_Ok.
  apply and_iff_compat_l'. intros _. rewrite bind_Ok. split.
  - intros (f & (-> & _ & Ht & Hn & Hc)%decode_inv & H).
    rewrite calculateMAC_ok, seq_Ok, is_ok_refuse, window_spec in H by done. destruct H as [Hw H].
    cbn [mbind result_bind] in H. rewrite seq_Ok, is_ok_refuse, negb_false_iff, bool_decide_eq_true in H.
    destruct H as [<- [= <-]]. done.
  - intros (Ht & Hn & Hw & ->). eexists. rewrite decode_encode; [|done|done|apply length_hmac].
    split; [done|]. cbn [af_timestamp af_nonce af_mac].
    rewrite seq_Ok, is_ok_refuse, window_spec by done. split; [done|].
    rewrite calculateMAC_ok. cbn [mbind result_bind]. rewrite bool_decide_true by done.
    by destruct hello.
Qed.

(** C2: admission of a client is exact.  The server accepts a 62-byte hello
    exactly when the token is valid now, the client's second lies within the allowed
    skew of the server's clock and the frame is the one authenticated frame for its
    timestamp and nonce; neither wrap-around of the 64-bit time nor any other byte
    string gets through. *)
Theorem verify_hello_exact token encoded now maxSkew hello :
  sane now -> maxSkew < 2 ^ 62 -> unixToInternal * nanos + maxSkew <= ns now ->
  VerifyHello token encoded now maxSkew = Ok hello <->
  token_ok token now /\ is_uint 64 (h_Timestamp hello) /\ length (h_ClientNonce hello) = 16%nat /\
  in_window (h_Timestamp hello) now maxSkew /\
  encoded = encode ClientHello (h_Timestamp hello) (h_ClientNonce hello)
              (hello_mac token (h_Timestamp hello) (h_ClientNonce hello)).
Proof. apply VerifyHello_Ok. Qed.

(** ** The handshake *)

Lemma adm_writeFull_loop_rest `{!Reader ST, !Writer ST, !StreamLaws ST} fuel (st st' : ST) value e :
  writeFull_loop fuel st value = (e, st') -> r_rest st' = r_rest st.
Proof.
  revert st value; induction fuel as [|fuel IH]; intros st [|b value];
    try (by intros [= <- <-]). cbn [writeFull_loop].
  destruct (w_write st (b :: value)) as [[n err] st1] eqn:E. apply w_write_rest in E as [<- _].
  destruct err; [by intros [= <- <-]|]. destruct (n =? 0); [by intros [= <- <-]|].
  apply IH.
Qed.

Lemma adm_writeFull_loop_ok `{!Writer W, !WriterLaws W} fuel (w w' : W) value :
  (length value <= fuel)%nat -> writeFull_loop fuel w value = (None, w') ->
  w_sink w' = w_sink w ++ value.
Proof.
  revert w value; induction fuel as [|fuel IH]; intros w [|b value] Hf;
    try (intros [= <-]; by rewrite app_nil_r). cbn [writeFull_loop].
  destruct (w_write w (b :: value)) as [[n err] w1] eqn:E. apply w_write_spec in E as [Hn Hs].
  unfold blen in Hn. destruct err; [done|]. destruct (Z.eqb_spec n 0); [done|].
  intros H%IH; [|rewrite length_drop; lia]. rewrite H, Hs, <- app_assoc. f_equal.
  apply take_drop.
Qed.

Lemma length_encode kind ts nonce mac :
  length nonce = 16%nat -> length mac = 32%nat -> length (encode kind ts nonce mac) = FrameSize.
Proof. intros Hn Hm. unfold encode. by rewrite !length_app, length_put_be, Hn, Hm. Qed.

Lemma CreateHello_ok token now nonce :
  token_ok token now -> CreateHello token now None (Ok nonce) =
    Ok (encode ClientHello (wrapU 64 (toUnix now)) nonce
          (hello_mac token (wrapU 64 (toUnix now)) nonce),
        mkHello (wrapU 64 (toUnix now)) nonce).
Proof. intros Ht. unfold CreateHello. by rewrite (proj2 (Validate_Ok _ _) Ht). Qed.

Lemma VerifyAck_CreateAck token hello nonce ack :
  is_uint 64 (h_Timestamp hello) -> length nonce = 16%nat ->
  CreateAck token hello None (Ok nonce) = Ok ack -> VerifyAck token hello ack = Ok tt.
Proof.
  intros Ht Hn. unfold CreateAck. cbn [fillNonce mbind result_bind].
  rewrite calculateMAC_ok. intros [= <-].
  unfold VerifyAck. rewrite decode_encode; [|done|done|apply length_hmac].
  cbn [mbind result_bind af_timestamp af_nonce af_mac]. rewrite Z.eqb_refl, calculateMAC_ok.
  cbn [negb refuse mbind result_bind]. by rewrite bool_decide_true.
Qed.

(** C8: mutual admission completes.  Two ends with the same valid token,
    clocks within two minutes and working streams in which each reads what the other
    wrote both return success, whatever the chunking; the server sends one
    acknowledgement and the client one hello. *)
Theorem admission_handshake `{!Reader ST, !Writer ST, !StreamLaws ST}
    (client server : ST) token nowC nowS nonceC nonceS hello h ack restC restS :
  (forall (st : ST) value, (writeFull st value).1 = None) ->
  length nonceC = 16%nat -> length nonceS = 16%nat ->
  CreateHello token nowC None (Ok nonceC) = Ok (hello, h) ->
  CreateAck token h None (Ok nonceS) = Ok ack ->
  token_ok token nowS -> sane nowS -> unixToInternal * nanos + MaxClockSkew <= ns nowS ->
  in_window (h_Timestamp h) nowS MaxClockSkew ->
  r_rest server = hello ++ restS -> r_rest client = ack ++ restC ->
  exists client' server',
    AuthenticateClient client token nowC (Ok nonceC) = (Ok tt, client') /\
    AuthenticateServer server token nowS (Ok nonceS) = (Ok tt, server') /\
    w_sink client' = w_sink client ++ hello /\ w_sink server' = w_sink server ++ ack /\
    r_rest client' = restC /\ r_rest server' = restS.
Proof.
  intros Hw HnC HnS HH HA HtS HsS Hlo Hwin HrS HrC.
  assert (token_ok token nowC) as HtC.
  { unfold CreateHello in HH. apply seq_Ok in HH as [HH _]. by apply is_ok_unit, Validate_Ok in HH. }
  pose proof HH as HH'. rewrite CreateHello_ok in HH' by done. injection HH' as Eh <-.
  assert (is_uint 64 (wrapU 64 (toUnix nowC))) as Hts by (apply wrapU_range; lia).
  assert (VerifyAck token (mkHello (wrapU 64 (toUnix nowC)) nonceC) ack = Ok tt) as HV
    by (eapply VerifyAck_CreateAck; [exact Hts|exact HnS|done]).
  assert (VerifyHello token hello nowS MaxClockSkew = Ok (mkHello (wrapU 64 (toUnix nowC)) nonceC)) as HVH.
  { apply VerifyHello_Ok; [done|by vm_compute|done|]. split_and!; try done; by subst. }
  assert (length hello = FrameSize) as Hlh by (subst; by apply length_encode; [|apply length_hmac]).
  assert (length ack = FrameSize) as Hla.
  { unfold CreateAck in HA. cbn in HA. injection HA as <-. by apply length_encode; [|apply length_hmac]. }
  destruct (writeFull client hello) as [e c1] eqn:Ec. pose proof (Hw client hello) as He.
  rewrite Ec in He. simpl in He. subst e.
  pose proof (adm_writeFull_loop_rest _ _ _ _ _ Ec) as Hrc1.
  apply adm_writeFull_loop_ok in Ec as Hsc1; [|done].
  destruct (ReadFull_ok c1 ack restC) as (c2 & Ec2 & Hrc2 & _); [congruence|]. rewrite Hla in Ec2.
  destruct (ReadFull_ok server hello restS HrS) as (s1 & Es1 & Hrs1 & _). rewrite Hlh in Es1.
  destruct (writeFull s1 ack) as [e s2] eqn:Es. pose proof (Hw s1 ack) as He.
  rewrite Es in He. simpl in He. subst e.
  pose proof (adm_writeFull_loop_rest _ _ _ _ _ Es) as Hrs2.
  apply adm_writeFull_loop_ok in Es as Hss2; [|done].
  exists c2, s2. apply ReadFull_sink in Ec2 as Hsc2. apply ReadFull_sink in Es1 as Hss1.
  unfold AuthenticateClient, AuthenticateServer.
  rewrite HH, Ec, Ec2, HV, Es1, HVH, HA, Es. split_and!; congruence.
Qed.
End admission.

(** ** Witnesses *)

Module AdmissionWitness.
Import Ref.
Import PairingWitness.

Lemma mac_input_injective_witness :
  "client" = "client" /\ peer_String (tk_PeerID sample) = peer_String (tk_PeerID decoded) /\
  tk_Service sample = tk_Service decoded /\ 9 = 9 /\ put_be 16 1 = put_be 16 1 /\ [] =@{list byte} [].
Proof.
  apply (mac_input_injective "client" "client" sample decoded 9 9 (put_be 16 1) (put_be 16 1) [] []);
    first [set_solver | by apply (bool_decide_unpack _) | unfold is_uint; simpl; lia
          | vm_compute; reflexivity].
Defined.

Definition clock (s : Z) : Time := Unix s 500000000.
Definition hello_bytes : list byte :=
  Eval vm_compute in
    match CreateHello sample (clock 1700000000) None (Ok (put_be 16 1)) with
    | Ok (e, _) => e | Err _ => [] end.
Definition the_hello : Hello := mkHello 1700000000 (put_be 16 1).
Definition ack_bytes : list byte :=
  Eval vm_compute in
    match CreateAck sample the_hello None (Ok (put_be 16 2)) with Ok e => e | Err _ => [] end.

Lemma sample_ok : token_ok sample (clock 1700000100).
Proof. apply Validate_Ok. vm_compute. reflexivity. Qed.

Lemma sane_clock : sane (clock 1700000100).
Proof. ground. Qed.

Lemma window_ok : in_window 1700000000 (clock 1700000100) MaxClockSkew.
Proof. ground. Qed.

Lemma verify_hello_exact_witness :
  VerifyHello sample hello_bytes (clock 1700000100) MaxClockSkew = Ok the_hello.
Proof.
  apply (verify_hello_exact sample hello_bytes (clock 1700000100) MaxClockSkew the_hello sane_clock);
    [vm_compute; reflexivity|vm_compute; discriminate|].
  split; [exact sample_ok|]. split; [unfold is_uint; simpl; lia|].
  split; [reflexivity|]. split; [exact window_ok|vm_compute; reflexivity].
Defined.

Lemma duplex_writes (st : duplex) value : (writeFull st value).1 = None.
Proof.
  unfold writeFull. destruct value as [|b value]; [done|].
  cbn [length writeFull_loop w_write duplex_writer].
  rewrite (proj2 (Z.eqb_neq _ _)) by (unfold blen; simpl; lia).
  unfold blen. rewrite Nat2Z.id, drop_ge by done. by destruct (length value).
Qed.

(** The client reads the acknowledgement in two pieces, the server its hello
    in one, each with more data behind. *)
Lemma admission_handshake_witness :
  exists client' server',
    AuthenticateClient (mkDuplex (mkSource [take 5 ack_bytes; drop 5 ack_bytes ++ [x61]] EOF) [])
      sample (clock 1700000000) (Ok (put_be 16 1)) = (Ok tt, client') /\
    AuthenticateServer (mkDuplex (mkSource [hello_bytes; [x62]] EOF) [])
      sample (clock 1700000100) (Ok (put_be 16 2)) = (Ok tt, server') /\
    w_sink client' = [] ++ hello_bytes /\ w_sink server' = [] ++ ack_bytes /\
    r_rest client' = [x61] /\ r_rest server' = [x62].
Proof.
  exact (admission_handshake (LP := libp2p) (CR := crypto)
    (mkDuplex (mkSource [take 5 ack_bytes; drop 5 ack_bytes ++ [x61]] EOF) [])
    (mkDuplex (mkSource [hello_bytes; [x62]] EOF) [])
    sample (clock 1700000000) (clock 1700000100) (put_be 16 1) (put_be 16 2) hello_bytes the_hello
    ack_bytes [x61] [x62] duplex_writes eq_refl eq_refl ltac:(vm_compute; reflexivity)
    ltac:(vm_compute; reflexivity) sample_ok sane_clock
    ltac:(vm_compute; discriminate) window_ok eq_refl eq_refl).
Defined.
End AdmissionWitness.
