(* ===== verification/RouteRecord.v ===== *)
(** [protocol/routerecord]: signed deterministic-CBOR route records
    (protocol/routerecord/routerecord.go). *)
From S2P Require Export Ext.
From S2P Require Import ExtModel.
Local Open Scope Z_scope.

Definition Version : Z := 1.
Definition EnvelopeVersion : Z := 1.
Definition DefaultTTL : Z := 180 * Second.
Definition MaxPayloadBytes : Z := 64 * 1024.
Definition MaxAddresses : Z := 64.
Definition MaxServices : Z := 64.
Definition CapabilityTCP : Z := 1.
Definition CapabilityQUIC : Z := 2.
Definition CapabilityWS : Z := 4.
Definition CapabilityWSS : Z := 8.
Definition CapabilityWebTrans : Z := 16.
Definition CapabilityWebRTC : Z := 32.
Definition CapabilityRelay : Z := 64.
Definition allCapabilities : Z :=
  Z.lor CapabilityTCP (Z.lor CapabilityQUIC (Z.lor CapabilityWS (Z.lor CapabilityWSS
    (Z.lor CapabilityWebTrans (Z.lor CapabilityWebRTC CapabilityRelay))))).

(** The decoding mode of this package. *)
Definition strict : DecMode := {| MaxArrayElements := 128; MaxMapPairs := 32 |}.

(** [uniqueServices]: drops zeros and repetitions, then sorts. *)
Fixpoint unique_loop (seen : gset Z) (values : list Z) : list Z :=
  match values with
  | [] => []
  | value :: rest =>
      if value =? 0 then unique_loop seen rest
      else if bool_decide (value ∈ seen) then unique_loop seen rest
      else value :: unique_loop ({[value]} ∪ seen) rest
  end.
Definition uniqueServices (values : list Z) : list Z := merge_sort Z.le (unique_loop ∅ values).

Definition containsService (values : list Z) (expected : Z) : bool :=
  existsb (fun value => value =? expected) values.

(** ** Services *)

Lemma elem_of_unique_loop x seen l : x ∈ unique_loop seen l <-> x ∈ l /\ x <> 0 /\ x ∉ seen.
Proof.
  revert seen; induction l as [|y l IH]; intros seen; cbn [unique_loop]; [set_solver|].
  destruct (Z.eqb_spec y 0) as [->|Hy]; [rewrite IH; set_solver|].
  case_bool_decide as Hs; rewrite ?elem_of_cons, IH; [set_solver|].
  destruct (decide (x = y)) as [->|]; set_solver.
Qed.

Lemma NoDup_unique_loop seen l : NoDup (unique_loop seen l).
Proof.
  revert seen; induction l as [|y l IH]; intros seen; cbn [unique_loop]; [constructor|].
  repeat case_match; auto. constructor; [|auto]. rewrite elem_of_unique_loop. set_solver.
Qed.

Lemma length_unique_loop seen l : (length (unique_loop seen l) <= length l)%nat.
Proof.
  revert seen; induction l as [|y l IH]; intros seen; cbn [unique_loop]; [done|].
  pose proof (IH seen). pose proof (IH ({[y]} ∪ seen)). repeat case_match; simpl; lia.
Qed.

(** The form services have in a record: increasing, without repetitions or zero. *)
Definition canonical_services (l : list Z) : Prop := Sorted Z.le l /\ NoDup l /\ 0 ∉ l.

Lemma elem_of_uniqueServices x l : x ∈ uniqueServices l <-> x ∈ l /\ x <> 0.
Proof.
  unfold uniqueServices. rewrite merge_sort_Permutation, elem_of_unique_loop. set_solver.
Qed.

Lemma uniqueServices_canonical l : canonical_services (uniqueServices l).
Proof.
  split_and!.
  - apply (Sorted_merge_sort _).
  - unfold uniqueServices. rewrite merge_sort_Permutation. apply NoDup_unique_loop.
  - rewrite elem_of_uniqueServices. naive_solver.
Qed.

Lemma canonical_services_eq l1 l2 :
  canonical_services l1 -> canonical_services l2 -> (forall x, x ∈ l1 <-> x ∈ l2) -> l1 = l2.
Proof.
  intros (S1 & N1 & _) (S2 & N2 & _) E. apply (Sorted_unique Z.le); [done|done|].
  by apply NoDup_Permutation.
Qed.

Lemma uniqueServices_id l : canonical_services l -> uniqueServices l = l.
Proof.
  intros H. apply canonical_services_eq; [apply uniqueServices_canonical|done|].
  intros x. rewrite elem_of_uniqueServices. destruct H as (_ & _ & H).
  split; [naive_solver|]. intros Hx. split; [done|]. by intros ->.
Qed.

Lemma length_uniqueServices l : (length (uniqueServices l) <= length l)%nat.
Proof. unfold uniqueServices. rewrite merge_sort_Permutation. apply length_unique_loop. Qed.

Section routerecord.
Context `{LP : !Libp2p, KS : !Keys, CB : !Cbor}.

Record RouteRecord := mkRecord {
  rr_Version : Z;
  rr_PeerID : string;
  rr_Sequence : Z;
  rr_IssuedAt : Z;
  rr_ExpiresAt : Z;
  rr_Services : list Z;
  rr_Addresses : list (option Multiaddr);
  rr_RelayReservations : list (option Multiaddr);
  rr_Capabilities : Z
}.

Record VerifyOptions := mkVerifyOptions {
  vo_ExpectedPeerID : string;
  vo_ExpectedService : Z;
  vo_Now : Time;
  vo_ClockSkew : Z
}.

(** The map [seen] of [uniqueAddresses]: a later value replaces an earlier one. *)
Definition seen_addresses (values : list (option Multiaddr)) : gmap string Multiaddr :=
  foldl (fun seen value =>
           match value with Some m => <[ma_String m := m]> seen | None => seen end) ∅ values.

Definition uniqueAddresses (values : list (option Multiaddr)) : list (option Multiaddr) :=
  let seen := seen_addresses values in
  (fun key => seen !! key) <$> sort_strings (elements (dom seen)).

Definition addressString (value : option Multiaddr) : string :=
  match value with Some m => ma_String m | None => "" end.
Definition addressStrings (values : list (option Multiaddr)) : list string :=
  addressString <$> values.

Fixpoint parseAddresses (values : list string) : result (list (option Multiaddr)) :=
  match values with
  | [] => Ok []
  | value :: rest =>
      address ← NewMultiaddr value;
      addresses ← parseAddresses rest;
      Ok (Some address :: addresses)
  end.

Definition normalize (record : RouteRecord) : result RouteRecord :=
  refuse (negb (rr_Version record =? Version))
    (Errorf "unsupported route record version: %d" [AInt (rr_Version record)]);;
  refuse (bool_decide (rr_PeerID record = "")) (ErrNew "route record PeerId is required");;
  refuse (rr_ExpiresAt record <=? rr_IssuedAt record)
    (ErrNew "route record expiration must be later than issuedAt");;
  refuse ((Z.of_nat (length (rr_Services record)) =? 0)
          || (MaxServices <? Z.of_nat (length (rr_Services record))))
    (Errorf "route record must contain 1..%d services" [AInt MaxServices]);;
  refuse ((MaxAddresses <? Z.of_nat (length (rr_Addresses record)))
          || (MaxAddresses <? Z.of_nat (length (rr_RelayReservations record))))
    (Errorf "route record supports at most %d addresses of each type" [AInt MaxAddresses]);;
  refuse (negb (Z.ldiff (rr_Capabilities record) allCapabilities =? 0))
    (Errorf "invalid capability mask: %d" [AInt (rr_Capabilities record)]);;
  Ok (mkRecord (rr_Version record) (rr_PeerID record) (rr_Sequence record) (rr_IssuedAt record)
        (rr_ExpiresAt record) (uniqueServices (rr_Services record))
        (uniqueAddresses (rr_Addresses record)) (uniqueAddresses (rr_RelayReservations record))
        (rr_Capabilities record)).

(** [decodeMap]; [allowed] lists the keys of the Go map. *)
Definition decodeMap (input : list byte) (allowed : list Z) : result (gmap Z (list byte)) :=
  fields ← map_err (Wrapf "invalid deterministic CBOR route record: %w" [])
    (UnmarshalRaw strict input);
  match base.filter (fun key => key ∉ allowed) (elements (dom fields)) with
  | key :: _ => Err (Errorf "unknown route record field: %d" [AInt key])
  | [] => Ok tt
  end;;
  refuse (negb (size fields =? length allowed)%nat)
    (ErrNew "route record is missing required fields");;
  Ok fields.

Definition payload_fields (record : RouteRecord) : gmap Z any :=
  <[0 := VUint64 (rr_Version record)]> (<[1 := VString (peer_String (rr_PeerID record))]>
  (<[2 := VUint64 (rr_Sequence record)]> (<[3 := VUint64 (rr_IssuedAt record)]>
  (<[4 := VUint64 (rr_ExpiresAt record)]> (<[5 := VUint64s (rr_Services record)]>
  (<[6 := VStrings (addressStrings (rr_Addresses record))]>
  (<[7 := VStrings (addressStrings (rr_RelayReservations record))]>
  {[8 := VUint64 (rr_Capabilities record)]}))))))).

Definition EncodePayload (record : RouteRecord) : result (list byte) :=
  record ← normalize record;
  Marshal (payload_fields record).

(** The loop of [DecodePayload] over the services. *)
Fixpoint decode_services (services : list Z) : result (list Z) :=
  match services with
  | [] => Ok []
  | service :: rest =>
      refuse ((service =? 0) || (65535 <? service)) (ErrNew "invalid logical port in route record");;
      values ← decode_services rest;
      Ok (wrapU 16 service :: values)
  end.

Definition raw_field (fields : gmap Z (list byte)) (key : Z) : list byte := default [] (fields !! key).

Definition DecodePayload (payload : list byte) : result RouteRecord :=
  fields ← decodeMap payload [0; 1; 2; 3; 4; 5; 6; 7; 8];
  let wrap := Wrapf "decode route record: %w" [] in
  version ← map_err wrap (UnmarshalUint strict (raw_field fields 0));
  peerText ← map_err wrap (UnmarshalText strict (raw_field fields 1));
  sequence ← map_err wrap (UnmarshalUint strict (raw_field fields 2));
  issuedAt ← map_err wrap (UnmarshalUint strict (raw_field fields 3));
  expiresAt ← map_err wrap (UnmarshalUint strict (raw_field fields 4));
  services ← map_err wrap (UnmarshalUints strict (raw_field fields 5));
  addresses ← map_err wrap (UnmarshalTexts strict (raw_field fields 6));
  relays ← map_err wrap (UnmarshalTexts strict (raw_field fields 7));
  capabilities ← map_err wrap (UnmarshalUint strict (raw_field fields 8));
  peerID ← peer_Decode peerText;
  services ← decode_services services;
  addresses ← parseAddresses addresses;
  relays ← parseAddresses relays;
  record ← normalize (mkRecord version peerID sequence issuedAt expiresAt services addresses
                        relays capabilities);
  let bad := ErrNew "route record payload is not deterministic RFC 8949 CBOR" in
  reencoded ← map_err (fun _ => bad) (EncodePayload record);
  refuse (negb (bool_decide (reencoded = payload))) bad;;
  Ok record.

Definition envelope_fields (version : Z) (payload publicBytes signature : list byte) : gmap Z any :=
  <[0 := VUint64 version]> (<[1 := VBytes payload]> (<[2 := VBytes publicBytes]>
  {[3 := VBytes signature]})).

(** The record [Sign] signs: the key's peer and the defaults filled in. *)
Definition fill (record : RouteRecord) (peerID : string) (now : Time) : RouteRecord :=
  mkRecord (if rr_Version record =? 0 then Version else rr_Version record) peerID
    (rr_Sequence record)
    (if rr_IssuedAt record =? 0 then wrapU 64 (toUnix now) else rr_IssuedAt record)
    (if rr_ExpiresAt record =? 0 then wrapU 64 (toUnix (Add now DefaultTTL)) else rr_ExpiresAt record)
    (rr_Services record) (rr_Addresses record) (rr_RelayReservations record)
    (rr_Capabilities record).

Definition Sign (privateKey : PrivKey) (record : RouteRecord) (now : Time) : result (list byte) :=
  let publicKey := GetPublic privateKey in
  peerID ← IDFromPublicKey publicKey;
  payload ← EncodePayload (fill record peerID now);
  signature ← key_Sign privateKey payload;
  publicBytes ← MarshalPublicKey publicKey;
  Marshal (envelope_fields EnvelopeVersion payload publicBytes signature).

(** [Verify]; [clock] is [time.Now()], used when the options leave [Now] zero. *)
Definition Verify (envelope : list byte) (options : VerifyOptions) (clock : Time)
    : result RouteRecord :=
  fields ← decodeMap envelope [0; 1; 2; 3];
  let badVersion := ErrNew "unsupported route record envelope version" in
  version ← map_err (fun _ => badVersion) (UnmarshalUint strict (raw_field fields 0));
  refuse (negb (version =? EnvelopeVersion)) badVersion;;
  let badPayload := Errorf "route record payload must contain 1..%d bytes" [AInt MaxPayloadBytes] in
  payload ← map_err (fun _ => badPayload) (UnmarshalBytes strict (raw_field fields 1));
  refuse ((blen payload =? 0) || (MaxPayloadBytes <? blen payload)) badPayload;;
  let badKey := ErrNew "invalid route record key or signature" in
  publicBytes ← map_err (fun _ => badKey) (UnmarshalBytes strict (raw_field fields 2));
  signature ← map_err (fun _ => badKey) (UnmarshalBytes strict (raw_field fields 3));
  publicKey ← UnmarshalPublicKey publicBytes;
  let badSignature := ErrNew "route record signature is invalid" in
  valid ← map_err (fun _ => badSignature) (key_Verify publicKey payload signature);
  refuse (negb valid) badSignature;;
  record ← DecodePayload payload;
  authenticated ← IDFromPublicKey publicKey;
  refuse (negb (bool_decide (rr_PeerID record = authenticated)))
    (Errorf "route record PeerId %s does not match key %s"
       [AStr (peer_String (rr_PeerID record)); AStr (peer_String authenticated)]);;
  refuse (negb (bool_decide (vo_ExpectedPeerID options = ""))
          && negb (bool_decide (rr_PeerID record = vo_ExpectedPeerID options)))
    (Errorf "route record belongs to %s, not %s"
       [AStr (peer_String (rr_PeerID record)); AStr (peer_String (vo_ExpectedPeerID options))]);;
  refuse (negb (vo_ExpectedService options =? 0)
          && negb (containsService (rr_Services record) (vo_ExpectedService options)))
    (Errorf "route record does not advertise logical port %d" [AInt (vo_ExpectedService options)]);;
  let now := if IsZero (vo_Now options) then clock else vo_Now options in
  let skew := if vo_ClockSkew options =? 0 then 30 * Second else vo_ClockSkew options in
  refuse (After (Unix (wrapS 64 (rr_IssuedAt record)) 0) (Add now skew))
    (ErrNew "route record was issued in the future");;
  refuse (Before (Unix (wrapS 64 (rr_ExpiresAt record)) 0) (Add now (- skew)))
    (ErrNew "route record has expired");;
  let bad := ErrNew "route record envelope is not deterministic RFC 8949 CBOR" in
  reencoded ← map_err (fun _ => bad) (Marshal (envelope_fields version payload publicBytes signature));
  refuse (negb (bool_decide (reencoded = envelope))) bad;;
  Ok record.

(** ** Addresses *)

Context `{LPL : !Libp2pLaws}.

Lemma lookup_seen l k m : seen_addresses l !! k = Some m <-> Some m ∈ l /\ ma_String m = k.
Proof.
  unfold seen_addresses. induction l as [|[a|] l IH] using rev_ind; [set_solver|..];
    rewrite foldl_app; cbn [foldl]; [|rewrite IH; set_solver].
  rewrite lookup_insert_Some, IH, elem_of_app, list_elem_of_singleton. split.
  - intros [[<- ->]|[? [? ?]]]; set_solver.
  - intros [[?|[= ->]] E]; [|by left].
    destruct (decide (ma_String a = k)) as [<-|]; [|by right].
    left. split; [done|]. by apply (inj ma_String).
Qed.

Definition canonical_addresses (l : list (option Multiaddr)) : Prop :=
  Forall is_Some l /\ Sorted String.le (addressStrings l) /\ NoDup (addressStrings l).

Lemma lookup_seen_String l k m : seen_addresses l !! k = Some m -> ma_String m = k.
Proof. intros H%lookup_seen. apply H. Qed.

Lemma addressStrings_unique l :
  addressStrings (uniqueAddresses l) = sort_strings (elements (dom (seen_addresses l))).
Proof.
  unfold addressStrings, uniqueAddresses. rewrite <- list_fmap_compose.
  rewrite <- (list_fmap_id (sort_strings _)) at 2. apply list_fmap_ext.
  intros i k Hk%list_elem_of_lookup_2. rewrite sort_strings_perm in Hk.
  apply elem_of_elements, elem_of_dom in Hk as [m Hm]. simpl. rewrite Hm.
  by apply lookup_seen_String in Hm.
Qed.

Lemma elem_of_uniqueAddresses l m : Some m ∈ uniqueAddresses l <-> Some m ∈ l.
Proof.
  unfold uniqueAddresses. rewrite list_elem_of_fmap. split.
  - intros (k & E & _). symmetry in E. by apply lookup_seen in E as [? _].
  - intros Hm. exists (ma_String m). assert (seen_addresses l !! ma_String m = Some m) as E
      by (by apply lookup_seen). split; [done|].
    rewrite sort_strings_perm, elem_of_elements, elem_of_dom. by eexists.
Qed.

Lemma uniqueAddresses_canonical l : canonical_addresses (uniqueAddresses l).
Proof.
  split_and!.
  - unfold uniqueAddresses. rewrite Forall_fmap. apply Forall_forall. intros k.
    rewrite sort_strings_perm, elem_of_elements. by intros ?%elem_of_dom.
  - rewrite addressStrings_unique. apply sort_strings_sorted.
  - rewrite addressStrings_unique, sort_strings_perm. apply NoDup_elements.
Qed.

Lemma addressStrings_inj l1 l2 :
  Forall is_Some l1 -> Forall is_Some l2 -> addressStrings l1 = addressStrings l2 -> l1 = l2.
Proof.
  intros H1. revert l2; induction H1 as [|a l1 [m ->] H1 IH]; intros [|b l2] H2; try done.
  apply Forall_cons in H2 as [[m' ->] H2]. cbn. intros [= E%(inj ma_String) El].
  subst. f_equal. by apply IH.
Qed.

Lemma elem_of_addressStrings l k :
  Forall is_Some l -> k ∈ addressStrings l <-> exists m, Some m ∈ l /\ ma_String m = k.
Proof.
  intros H. rewrite Forall_forall in H. unfold addressStrings. rewrite list_elem_of_fmap. split.
  - intros (a & -> & Ha). destruct (H a Ha) as [m ->]. eauto.
  - intros (m & Hm & <-). by exists (Some m).
Qed.

Lemma uniqueAddresses_id l : canonical_addresses l -> uniqueAddresses l = l.
Proof.
  intros (Hs & Ho & Hn). destruct (uniqueAddresses_canonical l) as (Hs' & Ho' & Hn').
  apply addressStrings_inj; [done|done|]. apply sort_strings_unique; [|done|done].
  apply NoDup_Permutation; [done|done|]. intros k. rewrite !elem_of_addressStrings by done.
  by setoid_rewrite elem_of_uniqueAddresses.
Qed.

Lemma length_uniqueAddresses l : (length (uniqueAddresses l) <= length l)%nat.
Proof.
  rewrite <- (length_fmap addressString (uniqueAddresses l)), <- (length_fmap addressString l).
  apply submseteq_length, NoDup_submseteq; [apply uniqueAddresses_canonical|].
  intros k. fold (addressStrings (uniqueAddresses l)).
  rewrite elem_of_addressStrings by apply uniqueAddresses_canonical.
  intros (m & Hm & <-). rewrite elem_of_uniqueAddresses in Hm.
  rewrite list_elem_of_fmap. by exists (Some m).
Qed.

Lemma parseAddresses_strings l : Forall is_Some l -> parseAddresses (addressStrings l) = Ok l.
Proof.
  induction 1 as [|a l [m ->] H IH]; [done|].
  unfold addressStrings in *. rewrite fmap_cons. cbn [parseAddresses addressString].
  rewrite NewMultiaddr_String. cbn [mbind result_bind]. by rewrite IH.
Qed.

Ltac rr_proj := cbn [rr_Version rr_PeerID rr_Sequence rr_IssuedAt rr_ExpiresAt rr_Services
  rr_Addresses rr_RelayReservations rr_Capabilities].

(** ** Normal form *)

(** What [normalize] asks of its input ... *)
Definition acceptable (r : RouteRecord) : Prop :=
  rr_Version r = Version /\ rr_PeerID r <> "" /\ rr_IssuedAt r < rr_ExpiresAt r /\
  rr_Services r <> [] /\ Z.of_nat (length (rr_Services r)) <= MaxServices /\
  Z.of_nat (length (rr_Addresses r)) <= MaxAddresses /\
  Z.of_nat (length (rr_RelayReservations r)) <= MaxAddresses /\
  Z.ldiff (rr_Capabilities r) allCapabilities = 0.

(** ... and the record it returns. *)
Definition normal (r : RouteRecord) : RouteRecord :=
  mkRecord (rr_Version r) (rr_PeerID r) (rr_Sequence r) (rr_IssuedAt r)
    (rr_ExpiresAt r) (uniqueServices (rr_Services r)) (uniqueAddresses (rr_Addresses r))
    (uniqueAddresses (rr_RelayReservations r)) (rr_Capabilities r).

Lemma normalize_Ok r r' : normalize r = Ok r' <-> acceptable r /\ r' = normal r.
Proof.
  unfold normalize, acceptable. rewrite !seq_Ok, !is_ok_refuse.
  rewrite !negb_false_iff, !orb_false_iff, !Z.eqb_eq, bool_decide_eq_false, Z.leb_gt, Z.eqb_neq,
    !Z.ltb_ge. fold (normal r).
  assert (Z.of_nat (length (rr_Services r)) <> 0 <-> rr_Services r <> []) as ->.
  { rewrite <- (length_zero_iff_nil (rr_Services r)). lia. }
  split; [intros (?&?&?&[??]&[??]&?&[= <-])|intros [(?&?&?&?&?&?&?&?) ->]]; split_and!; done.
Qed.

Lemma normal_idemp r : normal (normal r) = normal r.
Proof.
  unfold normal. rr_proj. by rewrite (uniqueServices_id (uniqueServices _)),
    !(uniqueAddresses_id (uniqueAddresses _))
    by auto using uniqueServices_canonical, uniqueAddresses_canonical.
Qed.

Lemma acceptable_normal r :
  acceptable r -> uniqueServices (rr_Services r) <> [] -> acceptable (normal r).
Proof.
  intros (?&?&?&?&?&?&?&?) Hne. unfold acceptable, normal. rr_proj.
  pose proof (length_uniqueServices (rr_Services r)).
  pose proof (length_uniqueAddresses (rr_Addresses r)).
  pose proof (length_uniqueAddresses (rr_RelayReservations r)).
  split_and!; try done; lia.
Qed.

(** Normalisation is a normal form.  A record that [normalize] returns has
    its services increasing, distinct and non-zero and its addresses sorted and distinct,
    keeps exactly the advertised services and addresses, and is a fixed point of
    [normalize] whenever a service is left. *)
Theorem normalize_normal_form r r' :
  normalize r = Ok r' ->
  canonical_services (rr_Services r') /\
  canonical_addresses (rr_Addresses r') /\ canonical_addresses (rr_RelayReservations r') /\
  (forall x, x ∈ rr_Services r' <-> x ∈ rr_Services r /\ x <> 0) /\
  (forall m, Some m ∈ rr_Addresses r' <-> Some m ∈ rr_Addresses r) /\
  (forall m, Some m ∈ rr_RelayReservations r' <-> Some m ∈ rr_RelayReservations r) /\
  (rr_Services r' <> [] -> normalize r' = Ok r').
Proof.
  intros [Ha ->]%normalize_Ok. split_and!;
    [apply uniqueServices_canonical|apply uniqueAddresses_canonical..| | | |].
  - intros x. apply elem_of_uniqueServices.
  - intros m. apply elem_of_uniqueAddresses.
  - intros m. apply elem_of_uniqueAddresses.
  - intros Hne. apply normalize_Ok. split; [by apply acceptable_normal|by rewrite normal_idemp].
Qed.

(** ** Payloads *)

Definition text_ok (s : string) : Prop := ValidString s = true /\ slen s < 2 ^ 32.
Definition record_typed (r : RouteRecord) : Prop :=
  is_uint 64 (rr_Sequence r) /\ is_uint 64 (rr_IssuedAt r) /\ is_uint 64 (rr_ExpiresAt r) /\
  is_uint 64 (rr_Capabilities r) /\ Forall (is_uint 16) (rr_Services r) /\
  text_ok (peer_String (rr_PeerID r)) /\
  Forall text_ok (addressStrings (rr_Addresses r)) /\
  Forall text_ok (addressStrings (rr_RelayReservations r)).

Lemma addresses_encodable l :
  Z.of_nat (length l) <= MaxAddresses -> Forall text_ok (addressStrings l) ->
  encodable strict (VStrings (addressStrings (uniqueAddresses l))).
Proof.
  intros Hl Hf. split.
  - rewrite Forall_forall in Hf |- *. intros k.
    rewrite elem_of_addressStrings by apply uniqueAddresses_canonical.
    intros (m & Hm & <-). rewrite elem_of_uniqueAddresses in Hm. apply Hf.
    unfold addressStrings. rewrite list_elem_of_fmap. by exists (Some m).
  - unfold addressStrings. rewrite length_fmap. pose proof (length_uniqueAddresses l).
    unfold MaxAddresses in Hl. simpl. lia.
Qed.

Lemma services_encodable l :
  Z.of_nat (length l) <= MaxServices -> Forall (is_uint 16) l ->
  encodable strict (VUint64s (uniqueServices l)).
Proof.
  intros Hl Hf. pose proof (length_uniqueServices l). split; [|unfold MaxServices in *; simpl; lia].
  rewrite Forall_forall in Hf |- *. intros x [Hx _]%elem_of_uniqueServices.
  apply Hf in Hx. unfold is_uint in *. lia.
Qed.

Lemma payload_encodable r :
  acceptable r -> record_typed r -> encodable_map strict (payload_fields (normal r)).
Proof.
  intros (Hv&_&_&_&Hs&Ha&Hr&_) (?&?&?&?&?&?&?&?). unfold payload_fields, normal. rr_proj.
  pose proof (services_encodable _ Hs ltac:(done)).
  pose proof (addresses_encodable _ Ha ltac:(done)). pose proof (addresses_encodable _ Hr ltac:(done)).
  enc_map; try assumption. rewrite Hv. by vm_compute.
Qed.

Context `{CBL : !CborLaws}.

Lemma decodeMap_Marshal m b allowed :
  encodable_map strict m -> Marshal m = Ok b -> (forall k, k ∈ dom m -> k ∈ allowed) ->
  size m = length allowed -> decodeMap b allowed = Ok (MarshalItem <$> m).
Proof.
  intros He Hm Hk Hs. unfold decodeMap. rewrite (UnmarshalRaw_Marshal _ _ _ He Hm).
  cbn [map_err mbind result_bind]. rewrite filter_none.
  - rewrite map_size_fmap, Hs, Nat.eqb_refl. done.
  - apply Forall_forall. intros k. rewrite elem_of_elements, dom_fmap_L. intros H ?. by apply Hk in H.
Qed.

Lemma raw_field_Marshal (m : gmap Z any) k v :
  m !! k = Some v -> raw_field (MarshalItem <$> m) k = MarshalItem v.
Proof. intros E. unfold raw_field. by rewrite lookup_fmap, E. Qed.

Lemma payload_lookup r :
  payload_fields r !! 0 = Some (VUint64 (rr_Version r)) /\
  payload_fields r !! 1 = Some (VString (peer_String (rr_PeerID r))) /\
  payload_fields r !! 2 = Some (VUint64 (rr_Sequence r)) /\
  payload_fields r !! 3 = Some (VUint64 (rr_IssuedAt r)) /\
  payload_fields r !! 4 = Some (VUint64 (rr_ExpiresAt r)) /\
  payload_fields r !! 5 = Some (VUint64s (rr_Services r)) /\
  payload_fields r !! 6 = Some (VStrings (addressStrings (rr_Addresses r))) /\
  payload_fields r !! 7 = Some (VStrings (addressStrings (rr_RelayReservations r))) /\
  payload_fields r !! 8 = Some (VUint64 (rr_Capabilities r)).
Proof. done. Qed.

Lemma decode_services_id l :
  canonical_services l -> Forall (is_uint 16) l -> decode_services l = Ok l.
Proof.
  intros (_ & _ & H0) Hf. induction Hf as [|x l Hx Hf IH]; [done|]. cbn [decode_services].
  assert (x <> 0) by set_solver. unfold is_uint in Hx.
  rewrite (proj2 (Z.eqb_neq _ _)), (proj2 (Z.ltb_ge _ _)) by lia. cbn [orb refuse mbind result_bind].
  rewrite IH by set_solver. cbn [mbind result_bind]. by rewrite wrapU_small.
Qed.

Lemma Forall_uniqueServices l : Forall (is_uint 16) l -> Forall (is_uint 16) (uniqueServices l).
Proof.
  rewrite !Forall_forall. intros H x Hx. rewrite elem_of_uniqueServices in Hx. naive_solver.
Qed.

Lemma DecodePayload_Marshal r payload id' :
  acceptable r -> record_typed r -> uniqueServices (rr_Services r) <> [] ->
  peer_Decode (peer_String (rr_PeerID r)) = Ok id' ->
  Marshal (payload_fields (normal r)) = Ok payload -> DecodePayload payload = Ok (normal r).
Proof.
  intros Ha Hty Hne Hid Hm. pose proof (payload_encodable r Ha Hty) as Henc.
  pose proof (acceptable_normal r Ha Hne) as Hn.
  assert (EncodePayload (normal r) = Ok payload) as He.
  { unfold EncodePayload. rewrite (proj2 (normalize_Ok (normal r) (normal r))); [done|].
    by rewrite normal_idemp. }
  apply peer_Decode_String in Hid as Hid'. subst id'.
  unfold DecodePayload. rewrite (decodeMap_Marshal _ _ _ Henc Hm);
    [|unfold payload_fields; set_solver|done].
  cbn [mbind result_bind].
  assert (forall k v, payload_fields (normal r) !! k = Some v -> encodable strict v) as Hv
    by (intros k v E; by apply (proj1 Henc k v)).
  destruct (payload_lookup (normal r)) as (E0&E1&E2&E3&E4&E5&E6&E7&E8).
  rewrite (raw_field_Marshal _ _ _ E0), (raw_field_Marshal _ _ _ E1), (raw_field_Marshal _ _ _ E2),
    (raw_field_Marshal _ _ _ E3), (raw_field_Marshal _ _ _ E4), (raw_field_Marshal _ _ _ E5),
    (raw_field_Marshal _ _ _ E6), (raw_field_Marshal _ _ _ E7), (raw_field_Marshal _ _ _ E8).
  rewrite !UnmarshalUint_Item, UnmarshalText_Item, UnmarshalUints_Item, !UnmarshalTexts_Item
    by eauto.
  cbn [map_err mbind result_bind normal rr_PeerID]. rewrite Hid. cbn [mbind result_bind].
  rewrite decode_services_id by (first [apply uniqueServices_canonical|
    apply Forall_uniqueServices, Hty]). cbn [mbind result_bind].
  rewrite !parseAddresses_strings by apply uniqueAddresses_canonical. cbn [mbind result_bind].
  fold (normal r). change (mkRecord _ _ _ _ _ _ _ _ _) with (normal r).
  rewrite (proj2 (normalize_Ok (normal r) (normal r))) by (by rewrite normal_idemp).
  cbn [mbind result_bind]. rewrite He. cbn [map_err mbind result_bind].
  by rewrite bool_decide_true.
Qed.

Lemma EncodePayload_Ok r payload :
  EncodePayload r = Ok payload <->
  acceptable r /\ Marshal (payload_fields (normal r)) = Ok payload.
Proof.
  unfold EncodePayload. rewrite bind_Ok. setoid_rewrite normalize_Ok. naive_solver.
Qed.

(** Route record payloads round-trip.  The payload of a record that
    advertises at least one non-zero service decodes to the record's normal form. *)
Theorem payload_roundtrip r payload id :
  record_typed r -> peer_Decode (peer_String (rr_PeerID r)) = Ok id ->
  (exists service, service ∈ rr_Services r /\ service <> 0) ->
  EncodePayload r = Ok payload -> DecodePayload payload = Ok (normal r).
Proof.
  intros Hty Hid (x & Hx & Hx0) [Ha Hm]%EncodePayload_Ok. eapply DecodePayload_Marshal; try done.
  assert (x ∈ uniqueServices (rr_Services r)) as H by (by rewrite elem_of_uniqueServices).
  intros E. rewrite E in H. set_solver.
Qed.

Lemma DecodePayload_Ok payload r :
  DecodePayload payload = Ok r -> EncodePayload r = Ok payload /\ normal r = r.
Proof.
  unfold DecodePayload. intros HD. inv_ok.
  match goal with H : normalize _ = Ok _ |- _ => apply normalize_Ok in H as [_ ->] end.
  match goal with H : negb _ = false |- _ => apply negb_false_iff, bool_decide_eq_true in H as -> end.
  by rewrite normal_idemp.
Qed.

(** Decoded payloads are canonical.  A payload that decodes is the
    encoding of the record it decodes to, which is in normal form; so no two byte
    strings decode to the same record. *)
Theorem payload_canonical p1 p2 r :
  DecodePayload p1 = Ok r ->
  EncodePayload r = Ok p1 /\ normalize r = Ok r /\ (DecodePayload p2 = Ok r -> p2 = p1).
Proof.
  intros [He Hn]%DecodePayload_Ok. split_and!; [done| |].
  - apply EncodePayload_Ok in He as [Ha _]. by apply normalize_Ok.
  - intros [He' _]%DecodePayload_Ok. congruence.
Qed.

(** An advertisement without a usable service is signed but never
    accepted.  When every service is zero, [EncodePayload] counts them, accepts the
    record and encodes an empty list, which [DecodePayload] refuses. *)
Theorem zero_services_rejected r payload id :
  record_typed r -> peer_Decode (peer_String (rr_PeerID r)) = Ok id ->
  Forall (fun service => service = 0) (rr_Services r) -> EncodePayload r = Ok payload ->
  DecodePayload payload = Err (Errorf "route record must contain 1..%d services" [AInt MaxServices]).
Proof.
  intros Hty Hid Hz [Ha Hm]%EncodePayload_Ok. pose proof (payload_encodable r Ha Hty) as Henc.
  assert (uniqueServices (rr_Services r) = []) as Hs.
  { apply elem_of_nil_inv. intros x. rewrite elem_of_uniqueServices.
    rewrite Forall_forall in Hz. naive_solver. }
  unfold DecodePayload. rewrite (decodeMap_Marshal _ _ _ Henc Hm);
    [|unfold payload_fields; set_solver|done].
  cbn [mbind result_bind].
  assert (forall k v, payload_fields (normal r) !! k = Some v -> encodable strict v) as Hv
    by (intros k v E; by apply (proj1 Henc k v)).
  destruct (payload_lookup (normal r)) as (E0&E1&E2&E3&E4&E5&E6&E7&E8).
  rewrite (raw_field_Marshal _ _ _ E0), (raw_field_Marshal _ _ _ E1), (raw_field_Marshal _ _ _ E2),
    (raw_field_Marshal _ _ _ E3), (raw_field_Marshal _ _ _ E4), (raw_field_Marshal _ _ _ E5),
    (raw_field_Marshal _ _ _ E6), (raw_field_Marshal _ _ _ E7), (raw_field_Marshal _ _ _ E8).
  rewrite !UnmarshalUint_Item, UnmarshalText_Item, UnmarshalUints_Item, !UnmarshalTexts_Item
    by eauto.
  cbn [map_err mbind result_bind normal rr_PeerID rr_Services]. rewrite Hid, Hs. cbn [mbind result_bind decode_services].
  rewrite !parseAddresses_strings by apply uniqueAddresses_canonical. cbn [mbind result_bind].
  unfold normalize, normal. rr_proj. destruct Ha as (-> & Hp & Ht & _).
  apply peer_Decode_String in Hid as ->. rewrite bool_decide_false by done.
  rewrite (proj2 (Z.leb_gt _ _)) by done. done.
Qed.

(** ** Signatures *)

(** The validity window [Verify] checks, on the integers. *)
Definition valid_at (r : RouteRecord) (now : Time) (skew : Z) : Prop :=
  (rr_IssuedAt r + unixToInternal) * nanos <= ns now + skew /\
  ns now - skew <= (rr_ExpiresAt r + unixToInternal) * nanos /\
  rr_ExpiresAt r + unixToInternal < 2 ^ 63.

Lemma valid_at_spec r now skew :
  is_uint 64 (rr_IssuedAt r) -> is_uint 64 (rr_ExpiresAt r) -> rr_IssuedAt r < rr_ExpiresAt r ->
  sane now -> 0 <= skew < 2 ^ 62 -> unixToInternal * nanos + skew <= ns now ->
  After (Unix (wrapS 64 (rr_IssuedAt r)) 0) (Add now skew) = false /\
  Before (Unix (wrapS 64 (rr_ExpiresAt r)) 0) (Add now (- skew)) = false <->
  valid_at r now skew.
Proof.
  intros Hi He Hlt Hs Hk Hlo. unfold valid_at, After.
  destruct (Add_sane now (- skew) Hs) as [E1 R1]; [lia|].
  destruct (Add_sane now skew Hs) as [E2 R2]; [lia|].
  assert (forall z, 0 <= t_nsec (Unix z 0) < nanos) as R3 by done.
  rewrite !Before_ns, E1, E2, !Z.ltb_ge by done. destruct Hs as [Hs Hns].
  unfold ns, Unix, is_uint, unixToInternal, wrapS, nanos in *; cbn [t_sec t_nsec].
  change (2 ^ 64) with 18446744073709551616 in *. change (2 ^ (64 - 1)) with 9223372036854775808 in *.
  change (2 ^ 62) with 4611686018427387904 in *. change (2 ^ 63) with 9223372036854775808.
  generalize dependent (rr_IssuedAt r). generalize dependent (rr_ExpiresAt r). intros e He i Hi Hlt.
  Z.to_euclidean_division_equations; lia.
Qed.

(** What the caller of [Verify] asked for. *)
Definition expected (options : VerifyOptions) (r : RouteRecord) : Prop :=
  (vo_ExpectedPeerID options = "" \/ rr_PeerID r = vo_ExpectedPeerID options) /\
  (vo_ExpectedService options = 0 \/ vo_ExpectedService options ∈ rr_Services r).
Definition verify_now (options : VerifyOptions) (clock : Time) : Time :=
  if IsZero (vo_Now options) then clock else vo_Now options.
Definition verify_skew (options : VerifyOptions) : Z :=
  if vo_ClockSkew options =? 0 then 30 * Second else vo_ClockSkew options.

Lemma containsService_spec l x : containsService l x = true <-> x ∈ l.
Proof.
  unfold containsService. rewrite existsb_exists. setoid_rewrite Z.eqb_eq.
  setoid_rewrite <- list_elem_of_In. naive_solver.
Qed.

(** The acceptance conditions of [Verify] after decoding. *)
Definition authentic (env : list byte) (r : RouteRecord) : Prop :=
  exists payload publicBytes signature publicKey,
    Marshal (envelope_fields EnvelopeVersion payload publicBytes signature) = Ok env /\
    0 < blen payload <= MaxPayloadBytes /\
    UnmarshalPublicKey publicBytes = Ok publicKey /\
    key_Verify publicKey payload signature = Ok true /\
    IDFromPublicKey publicKey = Ok (rr_PeerID r) /\ EncodePayload r = Ok payload /\ normal r = r.

Lemma Verify_inv env options clock r :
  Verify env options clock = Ok r ->
  authentic env r /\ expected options r /\
  After (Unix (wrapS 64 (rr_IssuedAt r)) 0) (Add (verify_now options clock) (verify_skew options)) = false /\
  Before (Unix (wrapS 64 (rr_ExpiresAt r)) 0) (Add (verify_now options clock) (- verify_skew options)) = false.
Proof.
  unfold Verify. intros HV. inv_ok.
  repeat match goal with
  | H : negb _ = false |- _ => apply negb_false_iff in H
  | H : _ || _ = false |- _ => apply orb_false_iff in H as [??]
  | H : bool_decide _ = true |- _ => apply bool_decide_eq_true in H
  | H : (_ =? EnvelopeVersion) = true |- _ => apply Z.eqb_eq in H
  | H : DecodePayload _ = Ok _ |- _ => apply DecodePayload_Ok in H as [??]
  end. subst. unfold expected. split_and!; try done.
  - eexists _, _, _, _. split_and!; try done; [|by apply Z.ltb_ge].
    match goal with H : (blen ?p =? 0) = false |- _ =>
      apply Z.eqb_neq in H; pose proof (blen_nonneg p); lia end.
  - match goal with H : negb (bool_decide _) && _ = false |- _ =>
      apply andb_false_iff in H as [H|H]; apply negb_false_iff, bool_decide_eq_true in H; auto end.
  - match goal with H : negb (_ =? 0) && _ = false |- _ =>
      apply andb_false_iff in H as [H|H]; apply negb_false_iff in H;
      [left; by apply Z.eqb_eq|right; by apply containsService_spec] end.
Qed.

(** C24: A verified record is authentic and current.  Acceptance implies that
    the envelope is the one deterministic encoding of a signature, valid under the key whose
    peer ID the record names, over the payload of the returned normal-form record; that it
    is for the requested peer and service; and that it is inside its validity window up to
    the skew, with no wrap-around of 64-bit times. *)
Theorem verify_sound env options clock r :
  is_uint 64 (rr_IssuedAt r) -> is_uint 64 (rr_ExpiresAt r) ->
  sane (verify_now options clock) -> 0 <= verify_skew options < 2 ^ 62 ->
  unixToInternal * nanos + verify_skew options <= ns (verify_now options clock) ->
  Verify env options clock = Ok r ->
  authentic env r /\ expected options r /\
  valid_at r (verify_now options clock) (verify_skew options).
Proof.
  intros Hi He Hs Hk Hlo (Ha & Hx & Hw)%Verify_inv. split_and!; [done..|].
  apply valid_at_spec; try done.
  destruct Ha as (?&?&?&?&_&_&_&_&_&[(_&_&Hlt&_) _]%EncodePayload_Ok&_). done.
Qed.

Context `{KSL : !KeysLaws}.

Lemma record_envelope_lookup payload pk sig :
  envelope_fields EnvelopeVersion payload pk sig !! 0 = Some (VUint64 EnvelopeVersion) /\
  envelope_fields EnvelopeVersion payload pk sig !! 1 = Some (VBytes payload) /\
  envelope_fields EnvelopeVersion payload pk sig !! 2 = Some (VBytes pk) /\
  envelope_fields EnvelopeVersion payload pk sig !! 3 = Some (VBytes sig).
Proof. done. Qed.

Lemma record_envelope_encodable payload pk sig :
  blen payload < 2 ^ 32 -> blen pk < 2 ^ 32 -> blen sig < 2 ^ 32 ->
  encodable_map strict (envelope_fields EnvelopeVersion payload pk sig).
Proof. intros. unfold envelope_fields. enc_map; try assumption. by vm_compute. Qed.

Lemma Verify_intro env options clock r payload pkb sig pk :
  Marshal (envelope_fields EnvelopeVersion payload pkb sig) = Ok env ->
  0 < blen payload <= MaxPayloadBytes -> blen pkb < 2 ^ 32 -> blen sig < 2 ^ 32 ->
  UnmarshalPublicKey pkb = Ok pk -> key_Verify pk payload sig = Ok true ->
  DecodePayload payload = Ok r -> IDFromPublicKey pk = Ok (rr_PeerID r) -> expected options r ->
  After (Unix (wrapS 64 (rr_IssuedAt r)) 0) (Add (verify_now options clock) (verify_skew options)) = false ->
  Before (Unix (wrapS 64 (rr_ExpiresAt r)) 0) (Add (verify_now options clock) (- verify_skew options)) = false ->
  Verify env options clock = Ok r.
Proof.
  intros HM Hpl Hpk Hsg Hkey Hver HD Hid [Hx1 Hx2] Hv1 Hv2. unfold MaxPayloadBytes in Hpl.
  assert (encodable_map strict (envelope_fields EnvelopeVersion payload pkb sig)) as Henc
    by (apply record_envelope_encodable; lia).
  unfold verify_now, verify_skew in Hv1, Hv2.
  unfold Verify. rewrite (decodeMap_Marshal _ _ _ Henc HM); [|unfold envelope_fields; set_solver|done].
  destruct (record_envelope_lookup payload pkb sig) as (E0 & E1 & E2 & E3). cbn [mbind result_bind].
  rewrite (raw_field_Marshal _ _ _ E0), (raw_field_Marshal _ _ _ E1), (raw_field_Marshal _ _ _ E2),
    (raw_field_Marshal _ _ _ E3).
  rewrite UnmarshalUint_Item, !UnmarshalBytes_Item by (cbn [encodable]; first [lia | by vm_compute]).
  cbn [map_err mbind result_bind EnvelopeVersion Z.eqb Pos.eqb negb refuse].
  rewrite (proj2 (Z.eqb_neq (blen payload) 0)), (proj2 (Z.ltb_ge _ _)) by (unfold MaxPayloadBytes; lia).
  cbn [orb refuse mbind result_bind]. rewrite Hkey. cbn [mbind result_bind]. rewrite Hver.
  cbn [map_err negb refuse mbind result_bind]. rewrite HD. cbn [mbind result_bind]. rewrite Hid.
  cbn [mbind result_bind]. rewrite (bool_decide_true (rr_PeerID r = rr_PeerID r)) by done.
  cbn [negb refuse mbind result_bind].
  assert (negb (bool_decide (vo_ExpectedPeerID options = "")) &&
          negb (bool_decide (rr_PeerID r = vo_ExpectedPeerID options)) = false) as ->
    by (destruct Hx1 as [->|<-]; [done|rewrite (bool_decide_true (rr_PeerID r = rr_PeerID r)) by done; apply andb_false_r]).
  assert (negb (vo_ExpectedService options =? 0) &&
          negb (containsService (rr_Services r) (vo_ExpectedService options)) = false) as ->
    by (destruct Hx2 as [->|Hx2]; [done|rewrite (proj2 (containsService_spec _ _) Hx2); apply andb_false_r]).
  cbn [refuse mbind result_bind]. rewrite Hv1, Hv2.
  cbn [refuse mbind result_bind]. rewrite HM. cbn [map_err mbind result_bind].
  by rewrite bool_decide_true.
Qed.

(** Signing and verifying agree.  What [Sign] produces is accepted, and
    yields the normal form of the signed record under the signer's peer ID, by every verifier
    that expects that peer and a service of the record, while its clock is inside the validity
    window. *)
Theorem sign_verify sk record now env options clock id :
  let signed := fill record id now in
  Sign sk record now = Ok env ->
  IDFromPublicKey (GetPublic sk) = Ok id -> peer_Decode (peer_String id) = Ok id ->
  record_typed signed -> (exists service, service ∈ rr_Services record /\ service <> 0) ->
  (forall payload, EncodePayload signed = Ok payload -> blen payload <= MaxPayloadBytes) ->
  (forall b, MarshalPublicKey (GetPublic sk) = Ok b -> blen b < 2 ^ 32) ->
  (forall m b, key_Sign sk m = Ok b -> blen b < 2 ^ 32) ->
  expected options (normal signed) ->
  sane (verify_now options clock) -> 0 <= verify_skew options < 2 ^ 62 ->
  unixToInternal * nanos + verify_skew options <= ns (verify_now options clock) ->
  valid_at signed (verify_now options clock) (verify_skew options) ->
  Verify env options clock = Ok (normal signed).
Proof.
  intros signed HS Hid Hpd Hty Hne Hmax Hpk Hsg [Hx1 Hx2] Hs Hk Hlo Hv.
  unfold Sign in HS. rewrite Hid in HS. cbn [mbind result_bind] in HS. fold signed in HS.
  apply bind_Ok in HS as (payload & HE & HS). apply bind_Ok in HS as (sig & Hsig & HS).
  apply bind_Ok in HS as (pkb & Hpkb & HM).
  pose proof (Hmax _ HE) as Hpl. specialize (Hpk _ Hpkb). specialize (Hsg _ _ Hsig).
  pose proof HE as [Ha HMp]%EncodePayload_Ok. pose proof (Marshal_nonempty _ _ HMp) as Hpos.
  assert (DecodePayload payload = Ok (normal signed)) as HD.
  { destruct Hne as (x & Hxs & Hx0). eapply DecodePayload_Marshal; try done.
    assert (x ∈ uniqueServices (rr_Services record)) as H by (by rewrite elem_of_uniqueServices).
    intros E. change (rr_Services signed) with (rr_Services record) in E. rewrite E in H. set_solver. }
  apply valid_at_spec in Hv as [Hv1 Hv2]; [|apply Hty|apply Hty|apply Ha|done..].
  eapply Verify_intro; try done; auto using UnmarshalPublicKey_Marshal, key_Verify_Sign.
Qed.
End routerecord.

(** ** Witnesses *)

Module RouteRecordWitness.
Import Ref.

(** Repeated services and addresses, out of order, with a zero and a nil. *)
Definition sample : RouteRecord :=
  mkRecord 0 "" 7 1700000000 1700000180 [443; 0; 22; 443]
    [Some "/ip4/10.0.0.2/tcp/9"; None; Some "/ip4/10.0.0.1/tcp/9"; Some "/ip4/10.0.0.2/tcp/9"]
    [] 3.
Definition sk : @PrivKey keys := [x01; x02].
Definition id : string := "0102".
Definition clock : Time := Unix 1700000100 5.
Definition options : VerifyOptions := mkVerifyOptions id 22 zeroTime 0.
Definition signed : RouteRecord := fill sample id clock.
Definition payload : list byte :=
  Eval vm_compute in match EncodePayload signed with Ok p => p | Err _ => [] end.
Definition env : list byte :=
  Eval vm_compute in match Sign sk sample clock with Ok e => e | Err _ => [] end.

Lemma signed_typed : record_typed signed.
Proof. ground. Qed.

Lemma normalize_normal_form_witness :
  canonical_services [22; 443] /\
  normalize (normal signed) = Ok (normal signed).
Proof.
  assert (normalize signed = Ok (normal signed)) as E by (vm_compute; reflexivity).
  destruct (normalize_normal_form signed (normal signed) E) as (H1 & _ & _ & _ & _ & _ & H2).
  split; [exact H1|]. apply H2. vm_compute. discriminate.
Defined.

Lemma payload_roundtrip_witness : DecodePayload payload = Ok (normal signed).
Proof.
  apply (payload_roundtrip signed payload id signed_typed); [vm_compute; reflexivity| |vm_compute; reflexivity].
  exists 22. split; [set_solver|discriminate].
Defined.

Lemma payload_canonical_witness :
  EncodePayload (normal signed) = Ok payload /\ normalize (normal signed) = Ok (normal signed) /\
  (DecodePayload payload = Ok (normal signed) -> payload = payload).
Proof. apply (payload_canonical payload payload (normal signed)). vm_compute. reflexivity. Defined.

Definition idle : RouteRecord := mkRecord 1 id 7 1700000000 1700000180 [0] [] [] 3.
Definition idle_payload : list byte :=
  Eval vm_compute in match EncodePayload idle with Ok p => p | Err _ => [] end.

Lemma zero_services_rejected_witness :
  EncodePayload idle = Ok idle_payload /\
  DecodePayload idle_payload =
    Err (Errorf "route record must contain 1..%d services" [AInt MaxServices]).
Proof.
  assert (EncodePayload idle = Ok idle_payload) as E by (vm_compute; reflexivity).
  split; [exact E|]. apply (zero_services_rejected idle idle_payload id); [|vm_compute; reflexivity| |exact E].
  - ground.
  - repeat constructor.
Defined.

Lemma sane_now : sane (verify_now options clock).
Proof. ground. Qed.

Lemma verify_sound_witness :
  authentic env (normal signed) /\ expected options (normal signed) /\
  valid_at (normal signed) (verify_now options clock) (verify_skew options).
Proof.
  apply (verify_sound env options clock (normal signed));
    [by vm_compute|by vm_compute|exact sane_now|by vm_compute|by vm_compute|vm_compute; reflexivity].
Defined.

Lemma sign_verify_witness : Verify env options clock = Ok (normal signed).
Proof.
  apply (sign_verify sk sample clock env options clock id);
    [vm_compute; reflexivity|reflexivity|vm_compute; reflexivity|exact signed_typed| | | | | |
     exact sane_now|by vm_compute|by vm_compute|].
  - exists 22. split; [set_solver|discriminate].
  - intros p E. assert (p = payload) as -> by (vm_compute in E; injection E as <-; reflexivity).
    vm_compute. discriminate.
  - intros b [= <-]. by vm_compute.
  - intros m b E. assert (b = checksum (sk ++ m)) as -> by (unfold key_Sign, keys in E; congruence).
    unfold blen, checksum. rewrite length_put_be. by vm_compute.
  - split; right; [reflexivity|]. apply (bool_decide_unpack _). by vm_compute.
  - ground.
Defined.
End RouteRecordWitness.
