(* ===== verification/TokenFile.v ===== *)
(** [protocol/tokenfile]: pairing tokens encrypted under a password
    (protocol/tokenfile/tokenfile.go). *)
From S2P Require Export Pairing.
From S2P Require Import ExtModel.
Local Open Scope Z_scope.

Definition Prefix : string := "pnc1e_".
Definition Version : Z := 1.
Definition MinimumPasswordSize : Z := 8.
Definition MaximumPasswordSize : Z := 1024.
Definition MaxEnvelopeSize : Z := 64 * 1024.
Definition argonTime : Z := 3.
Definition argonMemory : Z := 64 * 1024.
Definition argonThreads : Z := 4.
Definition saltSize : Z := 16.
Definition nonceSize : Z := 12.

Definition keyVersion : Z := 0.
Definition keyKDF : Z := 1.
Definition keyKDFTime : Z := 2.
Definition keyKDFMemory : Z := 3.
Definition keyKDFThreads : Z := 4.
Definition keySalt : Z := 5.
Definition keyCipher : Z := 6.
Definition keyNonce : Z := 7.
Definition keyCiphertext : Z := 8.

Definition kdfName : string := "argon2id".
Definition cipherName : string := "aes-256-gcm".

Definition strict : DecMode := {| MaxArrayElements := 16; MaxMapPairs := 16 |}.

Definition additionalData : list byte :=
  bytes_of "p2p-netcat/encrypted-pairing-token/v1" ++ x00 :: bytes_of "argon2id" ++
  x00 :: bytes_of "aes-256-gcm".

Definition validatePassword (password : list byte) : result unit :=
  refuse (blen password <? MinimumPasswordSize)
    (Errorf "token password must contain at least %d bytes" [AInt MinimumPasswordSize]);;
  refuse (MaximumPasswordSize <? blen password)
    (Errorf "token password must contain at most %d bytes" [AInt MaximumPasswordSize]).

Definition unsignedInteger (value : option any) : option Z :=
  match value with
  | Some (VUint64 n) => Some n
  | Some (VInt64 n) => if 0 <=? n then Some (wrapU 64 n) else None
  | _ => None
  end.

(** The type assertions [value.(string)] and [value.([]byte)]. *)
Definition as_string (value : option any) : option string :=
  match value with Some (VString s) => Some s | _ => None end.
Definition as_byte_slice (value : option any) : option (list byte) :=
  match value with Some (VBytes b) => Some b | _ => None end.

Definition validateEnvelopeFields (fields : gmap Z any) : result unit :=
  refuse (negb (Z.of_nat (size fields) =? keyCiphertext + 1))
    (ErrNew "encrypted pairing token must contain exactly nine fields");;
  match base.filter (fun key => keyCiphertext < key) (elements (dom fields)) with
  | key :: _ => Err (Errorf "unknown encrypted pairing token field: %d" [AInt key])
  | [] => Ok tt
  end;;
  refuse (negb (bool_decide (unsignedInteger (fields !! keyVersion) = Some Version)))
    (ErrNew "unsupported encrypted pairing token version");;
  refuse (negb (bool_decide (as_string (fields !! keyKDF) = Some kdfName)))
    (ErrNew "unsupported encrypted pairing token KDF");;
  refuse (negb (bool_decide (unsignedInteger (fields !! keyKDFTime) = Some argonTime)))
    (ErrNew "unsupported encrypted pairing token Argon2 time cost");;
  refuse (negb (bool_decide (unsignedInteger (fields !! keyKDFMemory) = Some argonMemory)))
    (ErrNew "unsupported encrypted pairing token Argon2 memory cost");;
  refuse (negb (bool_decide (unsignedInteger (fields !! keyKDFThreads) = Some argonThreads)))
    (ErrNew "unsupported encrypted pairing token Argon2 parallelism");;
  refuse (negb (bool_decide (blen <$> as_byte_slice (fields !! keySalt) = Some saltSize)))
    (Errorf "encrypted pairing token salt must contain exactly %d bytes" [AInt saltSize]);;
  refuse (negb (bool_decide (as_string (fields !! keyCipher) = Some cipherName)))
    (ErrNew "unsupported encrypted pairing token cipher");;
  refuse (negb (bool_decide (blen <$> as_byte_slice (fields !! keyNonce) = Some nonceSize)))
    (Errorf "encrypted pairing token nonce must contain exactly %d bytes" [AInt nonceSize]);;
  refuse (match as_byte_slice (fields !! keyCiphertext) with
          | Some value => blen value <? 16
          | None => true
          end)
    (ErrNew "encrypted pairing token ciphertext is too short").

Section tokenfile.
Context `{LP : !Libp2p, CB : !Cbor, CR : !Crypto}.

(** [argon2.IDKey] with the constants above. *)
Definition deriveKey (password salt : list byte) : list byte := argon2id password salt.

Definition envelope (salt nonce ciphertext : list byte) : gmap Z any :=
  <[keyVersion := VUint64 Version]> (<[keyKDF := VString kdfName]>
  (<[keyKDFTime := VUint64 argonTime]> (<[keyKDFMemory := VUint64 argonMemory]>
  (<[keyKDFThreads := VUint64 argonThreads]> (<[keySalt := VBytes salt]>
  (<[keyCipher := VString cipherName]> (<[keyNonce := VBytes nonce]>
  {[keyCiphertext := VBytes ciphertext]}))))))).

(** [Encrypt]; [salt] and [nonce] are what [rand.Read] yields. *)
Definition Encrypt (tokenText : string) (password : list byte) (salt nonce : result (list byte))
    : result string :=
  let tokenText := TrimSpace tokenText in
  map_err (Wrapf "encrypt pairing token: %w" []) (Decode tokenText);;
  validatePassword password;;
  salt ← map_err (Wrapf "create encrypted token salt: %w" []) salt;
  nonce ← map_err (Wrapf "create encrypted token nonce: %w" []) nonce;
  let key := deriveKey password salt in
  let ciphertext := gcm_Seal key nonce (bytes_of tokenText) additionalData in
  payload ← map_err (Wrapf "encode encrypted pairing token: %w" [])
    (Marshal (envelope salt nonce ciphertext));
  Ok (Prefix +:+ EncodeToString payload).

Definition decodeEnvelope (text : string) : result (list byte * gmap Z any) :=
  let text := TrimSpace text in
  refuse (negb (HasPrefix text Prefix))
    (Errorf "encrypted pairing token must start with %s" [AStr Prefix]);;
  payload ← of_option
    (Wrapf "invalid encrypted pairing token base64url data: %w" [] (ErrNew "illegal base64 data"))
    (DecodeString (TrimPrefix text Prefix));
  refuse ((blen payload =? 0) || (MaxEnvelopeSize <? blen payload))
    (Errorf "encrypted pairing token must contain 1..%d bytes" [AInt MaxEnvelopeSize]);;
  fields ← map_err (Wrapf "invalid encrypted pairing token CBOR: %w" [])
    (UnmarshalAny strict payload);
  Ok (payload, fields).

Definition Decrypt (encryptedText : string) (password : list byte) : result string :=
  validatePassword password;;
  '(payload, fields) ← decodeEnvelope encryptedText;
  let bad := ErrNew "encrypted pairing token is not deterministic RFC 8949 CBOR" in
  reencoded ← map_err (fun _ => bad) (Marshal fields);
  refuse (negb (bool_decide (payload = reencoded))) bad;;
  validateEnvelopeFields fields;;
  let salt := default [] (as_byte_slice (fields !! keySalt)) in
  let nonce := default [] (as_byte_slice (fields !! keyNonce)) in
  let ciphertext := default [] (as_byte_slice (fields !! keyCiphertext)) in
  let key := deriveKey password salt in
  plaintext ← of_option
    (ErrNew "decrypt encrypted pairing token: password is incorrect or data is corrupted")
    (gcm_Open key nonce ciphertext additionalData);
  let tokenText := string_of plaintext in
  map_err (Wrapf "decrypted pairing token is invalid: %w" []) (Decode tokenText);;
  Ok tokenText.

Context `{LPL : !Libp2pLaws, CBL : !CborLaws, CRL : !CryptoLaws}.

Lemma file_envelope_encodable salt nonce c :
  blen salt = saltSize -> blen nonce = nonceSize -> blen c < 2 ^ 32 ->
  encodable_map strict (envelope salt nonce c).
Proof.
  unfold saltSize, nonceSize. intros. unfold envelope.
  enc_map; match goal with |- blen _ < _ => lia | _ => by vm_compute end.
Qed.

Lemma envelope_any_range salt nonce c : map_Forall (fun _ => any_range) (envelope salt nonce c).
Proof.
  unfold envelope. rewrite <- insert_empty.
  repeat (apply map_Forall_insert_2; [by vm_compute|]). apply map_Forall_empty.
Qed.

Lemma envelope_any_lookup salt nonce c :
  let fields := as_any <$> envelope salt nonce c in
  fields !! keyVersion = Some (VInt64 Version) /\ fields !! keyKDF = Some (VString kdfName) /\
  fields !! keyKDFTime = Some (VInt64 argonTime) /\ fields !! keyKDFMemory = Some (VInt64 argonMemory) /\
  fields !! keyKDFThreads = Some (VInt64 argonThreads) /\ fields !! keySalt = Some (VBytes salt) /\
  fields !! keyCipher = Some (VString cipherName) /\ fields !! keyNonce = Some (VBytes nonce) /\
  fields !! keyCiphertext = Some (VBytes c).
Proof. done. Qed.

Lemma validateEnvelopeFields_envelope salt nonce c :
  blen salt = saltSize -> blen nonce = nonceSize -> 16 <= blen c ->
  validateEnvelopeFields (as_any <$> envelope salt nonce c) = Ok tt.
Proof.
  intros Hs Hn Hc. unfold validateEnvelopeFields.
  destruct (envelope_any_lookup salt nonce c) as (E0&E1&E2&E3&E4&E5&E6&E7&E8).
  rewrite E0, E1, E2, E3, E4, E5, E6, E7, E8, map_size_fmap.
  rewrite filter_none.
  - cbn [as_byte_slice fmap option_fmap option_map]. rewrite Hs, Hn, (proj2 (Z.ltb_ge _ _)) by done. done.
  - apply Forall_forall. intros k. rewrite elem_of_elements, dom_fmap_L.
    unfold envelope, keyCiphertext. set_unfold.
    unfold keyVersion, keyKDF, keyKDFTime, keyKDFMemory, keyKDFThreads, keySalt, keyCipher, keyNonce,
      keyCiphertext. lia.
Qed.

Lemma prefixed_trim payload :
  TrimSpace (Prefix +:+ EncodeToString payload) = Prefix +:+ EncodeToString payload.
Proof.
  apply TrimSpace_graphic. rewrite bytes_of_app. apply Forall_app.
  split; [by repeat constructor|apply EncodeToString_graphic].
Qed.

(** Encryption is lossless.  A token encrypted under a password is
    recovered, unchanged up to surrounding white space, with that password. *)
Lemma Decrypt_Encrypt text password salt nonce encrypted :
  blen salt = saltSize -> blen nonce = nonceSize ->
  Encrypt text password (Ok salt) (Ok nonce) = Ok encrypted ->
  slen encrypted <= slen Prefix + EncodedLen MaxEnvelopeSize ->
  slen (TrimSpace text) + 16 < 2 ^ 32 ->
  Decrypt encrypted password = Ok (TrimSpace text).
Proof.
  intros Hs Hn HE Hl Ht. unfold Encrypt in HE. rewrite !seq_Ok, is_ok_map_err, is_ok_unit in HE.
  destruct HE as (Hd & Hp & HE). cbn [map_err mbind result_bind] in HE.
  apply bind_Ok in HE as (payload & HM%map_err_Ok & [= <-]).
  set (c := gcm_Seal _ _ _ _) in HM. rewrite slen_app, slen_EncodeToString in Hl.
  assert (blen c = slen (TrimSpace text) + 16) as Hc
    by (unfold c, blen, slen; rewrite length_gcm_Seal; lia).
  pose proof (slen_nonneg (TrimSpace text)).
  assert (encodable_map strict (envelope salt nonce c)) as Henc by (apply file_envelope_encodable; lia).
  unfold Decrypt. rewrite Hp. cbn [mbind result_bind]. unfold decodeEnvelope.
  rewrite prefixed_trim, HasPrefix_app, TrimPrefix_app, DecodeString_EncodeToString.
  cbn [negb refuse of_option mbind result_bind].
  pose proof (Marshal_nonempty _ _ HM).
  assert (blen payload <= MaxEnvelopeSize) by (apply EncodedLen_le; [apply blen_nonneg|done|lia]).
  rewrite (proj2 (Z.eqb_neq _ _)), (proj2 (Z.ltb_ge _ _)) by lia.
  cbn [orb refuse mbind result_bind].
  rewrite (UnmarshalAny_Marshal _ _ _ Henc (envelope_any_range _ _ _) HM).
  cbn [map_err mbind result_bind].
  rewrite (Marshal_as_any _ _ Henc (envelope_any_range _ _ _)), HM.
  cbn [map_err mbind result_bind]. rewrite bool_decide_true by done.
  cbn [negb refuse mbind result_bind]. rewrite validateEnvelopeFields_envelope by lia.
  cbn [mbind result_bind].
  destruct (envelope_any_lookup salt nonce c) as (_&_&_&_&_&E5&_&E7&E8). rewrite E5, E7, E8.
  cbn [as_byte_slice from_option id]. unfold c. rewrite gcm_Open_Seal.
  cbn [of_option mbind result_bind]. rewrite string_of_bytes_of. destruct (Decode (TrimSpace text)); [done|discriminate].
Qed.

(** What decrypts is an authenticated token.  Success implies a password of
    legal size, the fixed key-derivation and cipher parameters, a ciphertext that is the
    encryption of exactly the returned text under the password, and that the text is a valid
    pairing token. *)
Theorem decrypt_sound encrypted password text :
  Decrypt encrypted password = Ok text ->
  MinimumPasswordSize <= blen password <= MaximumPasswordSize /\
  exists payload fields salt nonce,
    decodeEnvelope encrypted = Ok (payload, fields) /\ Marshal fields = Ok payload /\
    validateEnvelopeFields fields = Ok tt /\
    fields !! keySalt = Some (VBytes salt) /\ fields !! keyNonce = Some (VBytes nonce) /\
    fields !! keyCiphertext = Some (VBytes (gcm_Seal (argon2id password salt) nonce (bytes_of text) additionalData)) /\
    blen salt = saltSize /\ blen nonce = nonceSize /\ is_ok (Decode text) = true.
Proof.
  unfold Decrypt. intros [Hp HD]%seq_Ok. apply bind_Ok in HD as ([payload fields] & Hd & HD).
  apply bind_Ok in HD as (re & HM%map_err_Ok & HD).
  rewrite !seq_Ok, is_ok_refuse, negb_false_iff, bool_decide_eq_true, is_ok_unit in HD.
  destruct HD as (-> & Hv & HD). apply bind_Ok in HD as (plain & Ho%of_option_Ok & HD).
  rewrite seq_Ok, is_ok_map_err in HD. destruct HD as [Hok [= <-]].
  apply gcm_Open_inv in Ho. split.
  { unfold validatePassword in Hp. apply is_ok_unit in Hp.
    rewrite seq_Ok, is_ok_refuse, refuse_Ok, !Z.ltb_ge in Hp. lia. }
  pose proof Hv as Hv'. unfold validateEnvelopeFields in Hv'.
  rewrite !seq_Ok, !is_ok_refuse, refuse_Ok, !negb_false_iff, !bool_decide_eq_true in Hv'.
  destruct Hv' as (_&_&_&_&_&_&_&Hs&_&Hn&Hc).
  destruct (fields !! keySalt) as [[]|] eqn:Es; try discriminate Hs.
  destruct (fields !! keyNonce) as [[]|] eqn:En; try discriminate Hn.
  destruct (fields !! keyCiphertext) as [[]|] eqn:Ec; try discriminate Hc.
  cbn [as_byte_slice from_option id fmap option_fmap option_map] in *.
  exists re, fields, b, b0. rewrite bytes_of_string_of. unfold deriveKey in Ho.
  split_and!; try done; congruence.
Qed.
End tokenfile.

(** ** Witnesses *)

Module TokenFileWitness.
Import Ref.
Import PairingWitness.

Definition password : list byte := bytes_of "correct horse".
Definition encrypted : string :=
  Eval vm_compute in
    match Encrypt (" " +:+ sample_text) password (Ok (put_be 16 3)) (Ok (put_be 12 4)) with
    | Ok e => e | Err _ => "" end.

Lemma decrypt_sound_witness : MinimumPasswordSize <= blen password <= MaximumPasswordSize.
Proof.
  destruct (decrypt_sound encrypted password sample_text) as [H _]; [vm_compute; reflexivity|exact H].
Defined.
End TokenFileWitness.
