(* ===== verification/Wire.v ===== *)
(** The native WebRTC wire format: frames, the authentication transcript and its
    signed responses (nativewebrtc/wire.go). *)
From S2P Require Export Ext.
From S2P Require Import ExtModel.
Local Open Scope Z_scope.

Definition ProtocolVersion : byte := x02.
Definition FrameData : byte := x00.
Definition FrameControl : byte := x01.
Definition FrameAuthChallenge : byte := x02.
Definition FrameAuthResponse : byte := x03.
Definition FrameAuthReady : byte := x04.
Definition AuthResponseVersionV1 : byte := x01.
Definition AuthResponseVersionV2 : byte := x02.
Definition AuthDomainV2 : string := "p2p-netcat/native-webrtc-auth/v2".
Definition maxSDPBytes : Z := 256 * 1024.

Record Frame := mkFrame { fr_Type : byte; fr_Payload : list byte }.

Record AuthTranscript := mkTranscript {
  at_SessionID : string; at_OfferSDP : string; at_AnswerSDP : string
}.

(** [clientIDPattern]: exactly 20 ASCII letters or digits. *)
Definition is_alnum (b : byte) : bool :=
  let z := byte_Z b in
  ((48 <=? z) && (z <=? 57)) || ((65 <=? z) && (z <=? 90)) || ((97 <=? z) && (z <=? 122)).
Definition clientIDPattern (s : string) : bool :=
  (slen s =? 20) && forallb is_alnum (bytes_of s).

Definition EncodeFrame (frameType : byte) (payload : list byte) : list byte :=
  ProtocolVersion :: frameType :: payload.

Definition DecodeFrame (value : list byte) : result Frame :=
  match value with
  | version :: frameType :: payload =>
      refuse (negb (bool_decide (version = ProtocolVersion)))
        (Errorf "unsupported native WebRTC version: %d" [AInt (byte_Z version)]);;
      Ok (mkFrame frameType payload)
  | _ => Err (ErrNew "native WebRTC frame is shorter than its header")
  end.

Definition encodeAuthResponse (version : byte) (publicKey signature : list byte) : result (list byte) :=
  refuse ((65535 <? blen publicKey) || (65535 <? blen signature))
    (ErrNew "WebRTC authentication response is too large");;
  Ok (version :: put_be 2 (wrapU 16 (blen publicKey)) ++ put_be 2 (wrapU 16 (blen signature)) ++
      publicKey ++ signature).

Definition EncodeAuthResponse (publicKey signature : list byte) : result (list byte) :=
  encodeAuthResponse AuthResponseVersionV1 publicKey signature.

Definition decodeAuthResponse (version : byte) (value : list byte)
    : result (list byte * list byte) :=
  refuse ((blen value <? 5) || negb (bool_decide (nth 0 value x00 = version)))
    (ErrNew "unsupported WebRTC authentication response");;
  let publicLength := get_be (slice value 1 3) in
  let signatureLength := get_be (slice value 3 5) in
  refuse (negb (5 + publicLength + signatureLength =? blen value))
    (ErrNew "malformed WebRTC authentication response");;
  Ok (slice value 5 (5 + Z.to_nat publicLength), drop (5 + Z.to_nat publicLength) value).

Definition DecodeAuthResponse (value : list byte) : result (list byte * list byte) :=
  decodeAuthResponse AuthResponseVersionV1 value.

Definition ClientIDFromChallenge (challenge : list byte) : string :=
  if negb (blen challenge =? 32) then ""
  else let value := string_of (take 20 challenge) in
       if negb (clientIDPattern value) then "" else value.

(** [CreateClientChallenge]; [random] is what [rand.Read] yields. *)
Definition CreateClientChallenge (clientID : string) (random : result (list byte))
    : result (list byte) :=
  refuse (negb (clientIDPattern clientID))
    (ErrNew "WebRTC client ID must contain exactly 20 ASCII letters or digits");;
  random ← random;
  Ok (take 32 (bytes_of clientID ++ drop (Z.to_nat (slen clientID)) random)).

(** Fields with a 32-bit length in front of each. *)
Definition prefixed (field : list byte) : list byte := put_be 4 (wrapU 32 (blen field)) ++ field.

Section wire.
Context `{LP : !Libp2p, KS : !Keys, CR : !Crypto}.

Definition RoomID (peerID : string) (service : Z) : result string :=
  refuse (bool_decide (peerID = "")) (ErrNew "PeerId is required");;
  refuse (service =? 0) (ErrNew "logical port must be between 1 and 65535");;
  Ok (peer_String peerID +:+ ":" +:+ itoa service).

Definition AuthPayload (peerID : string) (service : Z) (challenge : list byte) : result (list byte) :=
  refuse (negb (blen challenge =? 32))
    (Errorf "WebRTC challenge must contain 32 bytes; got %d" [AInt (blen challenge)]);;
  room ← RoomID peerID service;
  Ok (bytes_of "p2p-netcat/trystero-auth/v1" ++ x00 :: bytes_of room ++ x00 :: challenge).

Definition auth_fields (peerID : string) (service : Z) (challenge : list byte)
    (transcript : AuthTranscript) : list (list byte) :=
  [bytes_of AuthDomainV2; [AuthResponseVersionV2]; bytes_of "client"; bytes_of "server";
   bytes_of (peer_String peerID); put_be 2 service; bytes_of (at_SessionID transcript); challenge;
   sha256 (bytes_of (at_OfferSDP transcript)); sha256 (bytes_of (at_AnswerSDP transcript))].

Definition AuthPayloadV2 (peerID : string) (service : Z) (challenge : list byte)
    (transcript : AuthTranscript) : result (list byte) :=
  refuse (negb (blen challenge =? 32))
    (Errorf "WebRTC challenge must contain 32 bytes; got %d" [AInt (blen challenge)]);;
  RoomID peerID service;;
  refuse ((slen (at_SessionID transcript) <? 8) || (128 <? slen (at_SessionID transcript)))
    (ErrNew "WebRTC signaling session ID must contain between 8 and 128 bytes");;
  refuse (bool_decide (at_OfferSDP transcript = "") || (maxSDPBytes <? slen (at_OfferSDP transcript)))
    (ErrNew "WebRTC offer SDP is empty or exceeds the signaling limit");;
  refuse (bool_decide (at_AnswerSDP transcript = "") || (maxSDPBytes <? slen (at_AnswerSDP transcript)))
    (ErrNew "WebRTC answer SDP is empty or exceeds the signaling limit");;
  Ok (mjoin (prefixed <$> auth_fields peerID service challenge transcript)).

(** A nil private key is [None]. *)
Definition SignAuthResponse (privateKey : option PrivKey) (service : Z) (challenge : list byte)
    : result (list byte) :=
  privateKey ← of_option (ErrNew "libp2p private key is required") privateKey;
  peerID ← IDFromPrivateKey privateKey;
  payload ← AuthPayload peerID service challenge;
  signature ← key_Sign privateKey payload;
  publicKey ← MarshalPublicKey (GetPublic privateKey);
  EncodeAuthResponse publicKey signature.

Definition SignAuthResponseV2 (privateKey : option PrivKey) (service : Z) (challenge : list byte)
    (transcript : AuthTranscript) : result (list byte) :=
  privateKey ← of_option (ErrNew "libp2p private key is required") privateKey;
  peerID ← IDFromPrivateKey privateKey;
  payload ← AuthPayloadV2 peerID service challenge transcript;
  signature ← key_Sign privateKey payload;
  publicKey ← MarshalPublicKey (GetPublic privateKey);
  encodeAuthResponse AuthResponseVersionV2 publicKey signature.

Definition VerifyAuthResponse (value : list byte) (expected : string) (service : Z)
    (challenge : list byte) : result bool :=
  '(publicBytes, signature) ← DecodeAuthResponse value;
  publicKey ← UnmarshalPublicKey publicBytes;
  actual ← IDFromPublicKey publicKey;
  if negb (bool_decide (actual = expected)) then Ok false
  else
    payload ← AuthPayload expected service challenge;
    key_Verify publicKey payload signature.

Definition VerifyAuthResponseV2 (value : list byte) (expected : string) (service : Z)
    (challenge : list byte) (transcript : AuthTranscript) : result bool :=
  '(publicBytes, signature) ← decodeAuthResponse AuthResponseVersionV2 value;
  publicKey ← UnmarshalPublicKey publicBytes;
  actual ← IDFromPublicKey publicKey;
  if negb (bool_decide (actual = expected)) then Ok false
  else
    payload ← AuthPayloadV2 expected service challenge transcript;
    key_Verify publicKey payload signature.
End wire.

(** ** Frames *)

(** Framing is exact.  A value decodes to a frame exactly when it is that
    frame's encoding. *)
Theorem wire_frame_exact value frame :
  DecodeFrame value = Ok frame <-> value = EncodeFrame (fr_Type frame) (fr_Payload frame).
Proof.
  destruct value as [|v [|t payload]]; simpl; [split; discriminate..|].
  rewrite seq_Ok, is_ok_refuse, negb_false_iff, bool_decide_eq_true. unfold EncodeFrame.
  destruct frame as [t' p']; simpl. split; [intros [-> [= -> ->]]; done|intros [= -> -> ->]; done].
Qed.

(** ** Authentication responses *)

Lemma encodeAuthResponse_Ok version pk sig value :
  encodeAuthResponse version pk sig = Ok value <->
  blen pk <= 65535 /\ blen sig <= 65535 /\
  value = version :: put_be 2 (blen pk) ++ put_be 2 (blen sig) ++ pk ++ sig.
Proof.
  unfold encodeAuthResponse. rewrite seq_Ok, is_ok_refuse, orb_false_iff, !Z.ltb_ge.
  pose proof (blen_nonneg pk). pose proof (blen_nonneg sig). split.
  - intros [[Hp Hs] [= <-]]. by rewrite !wrapU_small by (unfold is_uint; lia).
  - intros (Hp & Hs & ->). by rewrite !wrapU_small by (unfold is_uint; lia).
Qed.

Lemma decode_encodeAuthResponse version pk sig value :
  encodeAuthResponse version pk sig = Ok value -> decodeAuthResponse version value = Ok (pk, sig).
Proof.
  intros (Hp & Hs & ->)%encodeAuthResponse_Ok. set (value := version :: _).
  assert (slice value 1 3 = put_be 2 (blen pk)) as E1
    by (apply (slice_app [version]); [done|by rewrite length_put_be]).
  assert (slice value 3 5 = put_be 2 (blen sig)) as E2.
  { unfold value. rewrite app_comm_cons.
    apply slice_app; cbn [length]; by rewrite !length_put_be. }
  assert (blen value = 5 + blen pk + blen sig) as El.
  { unfold value, blen. cbn [length]. rewrite !length_app, !length_put_be. lia. }
  pose proof (blen_nonneg pk). pose proof (blen_nonneg sig).
  assert (forall l : list byte, blen l <= 65535 -> get_be (put_be 2 (blen l)) = blen l) as Hg.
  { intros l Hl. rewrite get_put_be. apply Z.mod_small. pose proof (blen_nonneg l). simpl. lia. }
  unfold decodeAuthResponse. rewrite E1, E2, !Hg by done.
  rewrite El, (proj2 (Z.ltb_ge _ _)), Z.eqb_refl by lia.
  change (nth 0 value x00) with version. rewrite bool_decide_true by done.
  cbn [orb negb refuse mbind result_bind]. do 2 f_equal.
  - unfold value, blen. rewrite Nat2Z.id, !app_comm_cons, (app_assoc (version :: _)).
    apply slice_app; cbn [length]; rewrite length_app; cbn [length]; rewrite !length_put_be; lia.
  - unfold value, blen. rewrite Nat2Z.id, !app_comm_cons, !app_assoc.
    replace (5 + length pk)%nat with (length (((version :: put_be 2 (Z.of_nat (length pk))) ++
      put_be 2 (Z.of_nat (length sig))) ++ pk))
      by (rewrite !length_app; cbn [length]; rewrite !length_put_be; lia).
    apply drop_app_length.
Qed.

Lemma decodeAuthResponse_inv version value pk sig :
  decodeAuthResponse version value = Ok (pk, sig) -> encodeAuthResponse version pk sig = Ok value.
Proof.
  unfold decodeAuthResponse. rewrite !seq_Ok, !is_ok_refuse, orb_false_iff, Z.ltb_ge, !negb_false_iff,
    bool_decide_eq_true, Z.eqb_eq. intros ([Hl Hv] & Hlen & E).
  assert (pk = slice value 5 (5 + Z.to_nat (get_be (slice value 1 3))) /\
          sig = drop (5 + Z.to_nat (get_be (slice value 1 3))) value) as [-> ->] by (split; congruence).
  clear E. set (a := get_be (slice value 1 3)) in *. set (b := get_be (slice value 3 5)) in *.
  unfold blen in Hl, Hlen.
  assert (length (slice value 1 3) = 2%nat) as L1 by (rewrite length_slice; lia).
  assert (length (slice value 3 5) = 2%nat) as L2 by (rewrite length_slice; lia).
  pose proof (get_be_range (slice value 1 3)) as R1. pose proof (get_be_range (slice value 3 5)) as R2.
  rewrite L1 in R1. rewrite L2 in R2. change (256 ^ Z.of_nat 2) with 65536 in R1, R2.
  fold a in R1. fold b in R2.
  assert (blen (slice value 5 (5 + Z.to_nat a)) = a) as Ea
    by (unfold blen; rewrite length_slice; lia).
  assert (blen (drop (5 + Z.to_nat a) value) = b) as Eb by (unfold blen; rewrite length_drop; lia).
  apply encodeAuthResponse_Ok. rewrite Ea, Eb. split_and!; [lia|lia|].
  replace (put_be 2 a) with (slice value 1 3) by (rewrite <- (put_get_be (slice value 1 3)), L1; done).
  replace (put_be 2 b) with (slice value 3 5) by (rewrite <- (put_get_be (slice value 3 5)), L2; done).
  rewrite <- take_drop_slice, app_assoc, <- slice_cat, <- take_drop_slice by lia.
  destruct value as [|v value]; [simpl in Hl; lia|]. cbn [nth] in Hv. by subst.
Qed.

(** Authentication responses are exact.  A value decodes to a key and a
    signature exactly when it is their encoding for that version, so responses of one
    version are never read as the other and no trailing byte is accepted. *)
Theorem auth_response_exact version value pk sig :
  decodeAuthResponse version value = Ok (pk, sig) <->
  encodeAuthResponse version pk sig = Ok value.
Proof. split; [apply decodeAuthResponse_inv|apply decode_encodeAuthResponse]. Qed.

(** ** Client challenges *)

(** The challenge carries the client's signaling identity.  A challenge made
    for a client has 32 bytes, yields that client's ID and keeps 12 random bytes. *)
Theorem client_challenge_roundtrip clientID random challenge :
  length random = 32%nat -> CreateClientChallenge clientID (Ok random) = Ok challenge ->
  ClientIDFromChallenge challenge = clientID /\ blen challenge = 32 /\
  drop 20 challenge = drop 20 random.
Proof.
  unfold CreateClientChallenge. intros Hr [Hid H]%seq_Ok.
  apply is_ok_refuse, negb_false_iff in Hid. cbn [mbind result_bind] in H. injection H as <-.
  assert (length (bytes_of clientID) = 20%nat) as Hl.
  { unfold clientIDPattern in Hid. apply andb_true_iff in Hid as [H _]. apply Z.eqb_eq in H.
    unfold slen in H. lia. }
  unfold slen. rewrite Hl. change (Z.to_nat (Z.of_nat 20)) with 20%nat.
  rewrite take_ge by (rewrite length_app, length_drop; lia). rewrite <- Hl.
  rewrite drop_app_length. split_and!; [|unfold blen; rewrite length_app, length_drop; lia|done].
  unfold ClientIDFromChallenge, blen.
  rewrite (proj2 (Z.eqb_eq _ _)) by (rewrite length_app, length_drop; lia). cbn [negb].
  assert (take 20 (bytes_of clientID ++ drop (length (bytes_of clientID)) random) = bytes_of clientID) as ->
    by (rewrite <- Hl; apply take_app_length).
  by rewrite string_of_bytes_of, Hid.
Qed.

Lemma client_challenge_roundtrip_witness :
  ClientIDFromChallenge (bytes_of "abcdefghij0123456789" ++ replicate 12 xff)
    = "abcdefghij0123456789" /\
  blen (bytes_of "abcdefghij0123456789" ++ replicate 12 xff) = 32 /\
  drop 20 (bytes_of "abcdefghij0123456789" ++ replicate 12 xff) = drop 20 (replicate 32 xff).
Proof.
  exact (client_challenge_roundtrip "abcdefghij0123456789" (replicate 32 xff) _ eq_refl eq_refl).
Defined.

(** ** The signed transcript *)

Lemma prefixed_inj (a b r s : list byte) :
  blen a < 2 ^ 32 -> blen b < 2 ^ 32 -> prefixed a ++ r = prefixed b ++ s -> a = b /\ r = s.
Proof.
  intros Ha Hb. pose proof (blen_nonneg a). pose proof (blen_nonneg b). unfold prefixed.
  rewrite !wrapU_small by (unfold is_uint; lia). rewrite <- !app_assoc. intros E.
  apply app_inj_1 in E as [E1 E2]; [|by rewrite !length_put_be].
  apply put_be_inj in E1; [|simpl; lia..].
  apply app_inj_1 in E2; [done|]. unfold blen in E1. lia.
Qed.

Lemma prefixed_join_inj l1 l2 :
  length l1 = length l2 -> Forall (fun f => blen f < 2 ^ 32) l1 -> Forall (fun f => blen f < 2 ^ 32) l2 ->
  mjoin (prefixed <$> l1) = mjoin (prefixed <$> l2) -> l1 = l2.
Proof.
  intros Hl H1. revert l2 Hl; induction H1 as [|a l1 Ha H1 IH]; intros [|b l2] Hl H2 E; try done.
  apply Forall_cons in H2 as [Hb H2]. cbn [fmap list_fmap mjoin list_join] in E.
  apply prefixed_inj in E as [-> E]; [|done..]. f_equal. apply IH; [simpl in Hl; lia|done..].
Qed.

Section wire_properties.
Context `{LP : !Libp2p, KS : !Keys, CR : !Crypto, KSL : !KeysLaws, CRL : !CryptoLaws}.

Lemma AuthPayloadV2_Ok peerID service challenge tr payload :
  AuthPayloadV2 peerID service challenge tr = Ok payload ->
  blen challenge = 32 /\ slen (at_SessionID tr) <= 128 /\
  payload = mjoin (prefixed <$> auth_fields peerID service challenge tr).
Proof.
  unfold AuthPayloadV2. rewrite !seq_Ok, !is_ok_refuse, !orb_false_iff, negb_false_iff, Z.eqb_eq, !Z.ltb_ge.
  intros (Hc & _ & [_ Hs] & _ & _ & [= <-]). done.
Qed.

Lemma auth_fields_small peerID service challenge tr :
  blen challenge = 32 -> slen (at_SessionID tr) <= 128 -> slen (peer_String peerID) < 2 ^ 32 ->
  Forall (fun f => blen f < 2 ^ 32) (auth_fields peerID service challenge tr).
Proof.
  intros Hc Hs Hp. unfold auth_fields.
  repeat (apply Forall_cons; split);
    [by vm_compute|by vm_compute|by vm_compute|by vm_compute|exact Hp|..|apply Forall_nil];
    rewrite ?blen_bytes_of, ?Hc; unfold blen; rewrite ?length_put_be, ?length_sha256; lia.
Qed.

(** A signed transcript is bound to one exchange.  Two exchanges with the
    same authenticated payload agree on peer, logical port, session, challenge and the
    hashes of both session descriptions, and no version-1 payload equals a version-2 one. *)
Theorem transcript_binding p1 p2 s1 s2 c1 c2 t1 t2 payload :
  is_uint 16 s1 -> is_uint 16 s2 ->
  slen (peer_String p1) < 2 ^ 32 -> slen (peer_String p2) < 2 ^ 32 ->
  AuthPayloadV2 p1 s1 c1 t1 = Ok payload -> AuthPayloadV2 p2 s2 c2 t2 = Ok payload ->
  peer_String p1 = peer_String p2 /\ s1 = s2 /\ at_SessionID t1 = at_SessionID t2 /\ c1 = c2 /\
  sha256 (bytes_of (at_OfferSDP t1)) = sha256 (bytes_of (at_OfferSDP t2)) /\
  sha256 (bytes_of (at_AnswerSDP t1)) = sha256 (bytes_of (at_AnswerSDP t2)) /\
  forall p s c, AuthPayload p s c <> Ok payload.
Proof.
  intros Hs1 Hs2 Hp1 Hp2 (Hc1 & Ht1 & ->)%AuthPayloadV2_Ok (Hc2 & Ht2 & E)%AuthPayloadV2_Ok.
  pose proof E as E'. apply prefixed_join_inj in E'; [|done|by apply auth_fields_small..].
  assert (forall i, nth i (auth_fields p1 s1 c1 t1) [] = nth i (auth_fields p2 s2 c2 t2) []) as En
    by (by rewrite E').
  pose proof (En 4%nat) as Ep. pose proof (En 5%nat) as Es. pose proof (En 6%nat) as Et.
  pose proof (En 7%nat) as Ec. pose proof (En 8%nat) as Eo. pose proof (En 9%nat) as Ea.
  unfold auth_fields in Ep, Es, Et, Ec, Eo, Ea. cbn [nth] in Ep, Es, Et, Ec, Eo, Ea.
  apply (inj bytes_of) in Ep, Et. apply (put_be_inj 2) in Es; [|done..].
  split_and!; try done. intros p s c H. unfold AuthPayload in H.
  rewrite seq_Ok, bind_Ok in H. destruct H as (_ & room & _ & [= H]).
Qed.

(** Verification of a version-2 response is exact.  It succeeds for precisely
    the encodings of a key, whose peer ID is the expected one, and a signature of this
    transcript under that key. *)
Theorem verify_auth_v2_exact value expected service challenge tr :
  VerifyAuthResponseV2 value expected service challenge tr = Ok true <->
  exists pkb sig pk payload,
    encodeAuthResponse AuthResponseVersionV2 pkb sig = Ok value /\
    UnmarshalPublicKey pkb = Ok pk /\ IDFromPublicKey pk = Ok expected /\
    AuthPayloadV2 expected service challenge tr = Ok payload /\
    key_Verify pk payload sig = Ok true.
Proof.
  unfold VerifyAuthResponseV2. rewrite bind_Ok. split.
  - intros ([pkb sig] & Hd & H). apply bind_Ok in H as (pk & Hpk & H).
    apply bind_Ok in H as (id & Hid & H). case_bool_decide as He; [|done]. subst id. cbn [negb] in H.
    apply bind_Ok in H as (payload & Hp & H).
    exists pkb, sig, pk, payload. split_and!; try done. by apply decodeAuthResponse_inv.
  - intros (pkb & sig & pk & payload & He & Hpk & Hid & Hp & Hv). exists (pkb, sig).
    split; [by apply decode_encodeAuthResponse|]. rewrite Hpk. cbn [mbind result_bind].
    rewrite Hid. cbn [mbind result_bind]. rewrite bool_decide_true by done. cbn [negb].
    by rewrite Hp.
Qed.

(** Signed responses verify.  What a server signs for a challenge, in either
    version, is accepted by a client that expects that server. *)
Theorem sign_auth_verifies sk id service challenge tr v1 v2 :
  IDFromPrivateKey sk = Ok id ->
  (SignAuthResponse (Some sk) service challenge = Ok v1 ->
   VerifyAuthResponse v1 id service challenge = Ok true) /\
  (SignAuthResponseV2 (Some sk) service challenge tr = Ok v2 ->
   VerifyAuthResponseV2 v2 id service challenge tr = Ok true).
Proof.
  intros Hid. split; unfold SignAuthResponse, SignAuthResponseV2; cbn [of_option mbind result_bind];
    rewrite Hid; cbn [mbind result_bind]; intros H;
    apply bind_Ok in H as (payload & Hp & H); apply bind_Ok in H as (sig & Hs & H);
    apply bind_Ok in H as (pkb & Hk & H); apply decode_encodeAuthResponse in H;
    unfold VerifyAuthResponse, VerifyAuthResponseV2, DecodeAuthResponse;
    rewrite H; cbn [mbind result_bind]; rewrite (UnmarshalPublicKey_Marshal _ _ Hk);
    cbn [mbind result_bind]; unfold IDFromPrivateKey in Hid; rewrite Hid; cbn [mbind result_bind];
    rewrite bool_decide_true by done; cbn [negb]; rewrite Hp; cbn [mbind result_bind];
    by apply key_Verify_Sign.
Qed.
End wire_properties.

(** ** Witnesses *)

Module WireWitness.
Import Ref.

Definition transcript : AuthTranscript := mkTranscript "session-1" "v=0 offer" "v=0 answer".
Definition sk : @PrivKey keys := [x0a; x0b].
Definition payload : list byte :=
  Eval vm_compute in
    match AuthPayloadV2 "0a0b" 80 (replicate 32 x07) transcript with Ok p => p | Err _ => [] end.

Lemma transcript_binding_witness :
  peer_String "0a0b" = peer_String "0a0b" /\ 80 = 80 /\
  forall p s c, AuthPayload p s c <> Ok payload.
Proof.
  destruct (transcript_binding (CR := crypto) "0a0b" "0a0b" 80 80 (replicate 32 x07) (replicate 32 x07)
              transcript transcript payload) as (H1 & H2 & _ & _ & _ & _ & H3);
    [ground|ground|by vm_compute|by vm_compute|vm_compute; reflexivity|vm_compute; reflexivity|].
  split; [exact H1|]. split; [exact H2|exact H3].
Defined.

Definition response : list byte :=
  Eval vm_compute in
    match SignAuthResponseV2 (Some sk) 80 (replicate 32 x07) transcript with Ok v => v | Err _ => [] end.

Lemma sign_auth_verifies_witness :
  VerifyAuthResponseV2 response "0a0b" 80 (replicate 32 x07) transcript = Ok true.
Proof.
  apply (sign_auth_verifies (CR := crypto) sk "0a0b" 80 (replicate 32 x07) transcript [] response);
    vm_compute; reflexivity.
Defined.
End WireWitness.
