(* ===== verification/WebrtcStream.v ===== *)
(** The native WebRTC stream: a byte stream over framed messages with a bounded
    receive queue and credit-based flow control (nativewebrtc/stream.go).

    Every method is one transition of the stream's state.  The condition waits
    of [Read] and [Write] are partial transitions: [None] while the goroutine would
    wait.  Frames handed to [send] are returned; those sent from a goroutine of their
    own are the same list, and the two-ended system below lets them arrive late and in
    any order. *)
From S2P Require Export Wire.
Local Open Scope Z_scope.

Definition flowWindowBytes : Z := 256 * 1024.
Definition maxReadQueueBytes : Z := 1024 * 1024.

Record Stream := mkStream {
  readQueue : list (list byte);
  readQueued : Z;
  readOffset : nat;
  readErr : option error;
  closedRead : bool;
  writeClosed : bool;
  closed : bool;
  flowEnabled : bool;
  inFlight : Z
}.

Definition control (value : string) : Frame := mkFrame FrameControl (bytes_of value).

(** [NewStream]: the fresh stream announces flow control. *)
Definition NewStream : Stream * list Frame :=
  (mkStream [] 0 0 None false false false false 0, [control "flow:1"]).

Definition set_inFlight (s : Stream) (n : Z) : Stream :=
  mkStream (readQueue s) (readQueued s) (readOffset s) (readErr s) (closedRead s) (writeClosed s)
    (closed s) (flowEnabled s) n.
Definition set_flowEnabled (s : Stream) : Stream :=
  mkStream (readQueue s) (readQueued s) (readOffset s) (readErr s) (closedRead s) (writeClosed s)
    (closed s) true (inFlight s).
Definition set_closedRead (s : Stream) : Stream :=
  mkStream (readQueue s) (readQueued s) (readOffset s) (readErr s) true (writeClosed s)
    (closed s) (flowEnabled s) (inFlight s).
Definition set_writeClosed (s : Stream) : Stream :=
  mkStream (readQueue s) (readQueued s) (readOffset s) (readErr s) (closedRead s) true
    (closed s) (flowEnabled s) (inFlight s).
Definition set_queue (s : Stream) (queue : list (list byte)) (queued : Z) (offset : nat) : Stream :=
  mkStream queue queued offset (readErr s) (closedRead s) (writeClosed s) (closed s)
    (flowEnabled s) (inFlight s).

Definition fail (s : Stream) (err : error) : Stream :=
  if closed s then s
  else mkStream (readQueue s) (readQueued s) (readOffset s)
         (if negb (errors_Is err EOF) then Some err else readErr s) true true true
         (flowEnabled s) (inFlight s).

Definition acknowledge (s : Stream) (value : Z) : Stream :=
  let n := inFlight s - value in
  set_inFlight s (if n <? 0 then 0 else n).

(** [Read] into a buffer of [size] bytes. *)
Definition Read (s : Stream) (size : nat) : option (result (list byte) * Stream * list Frame) :=
  match readQueue s with
  | [] =>
      match readErr s with
      | Some err => Some (Err err, s, [])
      | None => if closedRead s then Some (Err EOF, s, []) else None
      end
  | chunk :: rest =>
      let value := take size (drop (readOffset s) chunk) in
      let offset := (readOffset s + length value)%nat in
      if (offset =? length chunk)%nat
      then Some (Ok value, set_queue s rest (readQueued s - blen chunk) 0,
                 [control ("ack:" +:+ itoa (blen chunk))])
      else Some (Ok value, set_queue s (readQueue s) (readQueued s) offset, [])
  end.

(** [Write]; [sendErr] is the outcome of [send] on the data frame. *)
Definition Write (s : Stream) (value : list byte) (sendErr : option error)
    : option (result Z * Stream * list Frame) :=
  if writeClosed s || closed s then Some (Err ErrClosedPipe, s, [])
  else if flowEnabled s && (0 <? inFlight s) && (flowWindowBytes <? inFlight s + blen value)
  then None
  else
    let s := if flowEnabled s then set_inFlight s (inFlight s + blen value) else s in
    match sendErr with
    | Some err => Some (Err err, acknowledge s (blen value), [])
    | None => Some (Ok (blen value), s, [mkFrame FrameData value])
    end.

Definition CloseWrite (s : Stream) (sendErr : option error) : option error * Stream * list Frame :=
  if writeClosed s then (None, s, [])
  else (sendErr, set_writeClosed s, match sendErr with None => [control "eof"] | Some _ => [] end).

(** [Close]; [closePeer] is [None] when there is no callback, otherwise its result. *)
Definition Close (s : Stream) (sendErr : option error) (closePeer : option (option error))
    : option error * Stream * list Frame :=
  let '(writeErr, s, frames) := CloseWrite s sendErr in
  let s := fail s EOF in
  match closePeer with
  | Some peerErr => (errors_Join writeErr peerErr, s, frames)
  | None => (writeErr, s, frames)
  end.

Definition Reset (s : Stream) (sendErr : option error) (closePeer : option (option error))
    : option error * Stream * list Frame :=
  let s := fail s (ErrNew "native WebRTC stream reset") in
  let frames := match sendErr with None => [control "abort"] | Some _ => [] end in
  match closePeer with
  | Some peerErr => (peerErr, s, frames)
  | None => (None, s, frames)
  end.

(** [receiveControl]: the new state and the frames sent in reply. *)
Definition receiveControl (s : Stream) (control_ : string) : Stream * list Frame :=
  if bool_decide (control_ = "eof") then (set_closedRead s, [])
  else if bool_decide (control_ = "abort")
  then (fail s (ErrNew "remote native WebRTC peer aborted the stream"), [])
  else if bool_decide (control_ = "flow:1") then (set_flowEnabled s, [])
  else if bool_decide (control_ = "resume") then (set_inFlight s 0, [control "flow:1"])
  else if HasPrefix control_ "ack:" then
    match Atoi (TrimPrefix control_ "ack:") with
    | Ok value => if 0 <? value then (acknowledge s value, []) else (s, [])
    | Err _ => (s, [])
    end
  else if bool_decide (control_ = "ping") then (s, [control "pong"])
  else (s, []).

Definition errQueueFull : error :=
  Errorf "native WebRTC receive queue exceeds %d bytes" [AInt maxReadQueueBytes].

Definition Receive (s : Stream) (frame : Frame) : option error * Stream * list Frame :=
  if bool_decide (fr_Type frame = FrameData) then
    if negb (closedRead s) && negb (closed s) then
      if maxReadQueueBytes - readQueued s <? blen (fr_Payload frame)
      then (Some errQueueFull, fail s errQueueFull, [])
      else (None, set_queue s (readQueue s ++ [fr_Payload frame])
                    (readQueued s + blen (fr_Payload frame)) (readOffset s), [])
    else (None, s, [])
  else if bool_decide (fr_Type frame = FrameControl) then
    let '(s, frames) := receiveControl s (string_of (fr_Payload frame)) in (None, s, frames)
  else (Some (Errorf "unexpected native WebRTC frame after authentication: %d"
                [AInt (byte_Z (fr_Type frame))]), s, []).

(** [Reconnected]; the outcomes of its two sends are given. *)
Definition Reconnected (s : Stream) (resumeErr flowErr : option error)
    : option error * Stream * list Frame :=
  let s := set_inFlight s 0 in
  match resumeErr with
  | Some err => (Some err, s, [])
  | None => (flowErr, s, control "resume" :: match flowErr with None => [control "flow:1"] | Some _ => [] end)
  end.

(** ** One end *)

(** The bytes received and not yet read. *)
Definition unread (s : Stream) : list byte := drop (readOffset s) (mjoin (readQueue s)).

Definition sum_len (l : list (list byte)) : Z := foldr (fun c acc => blen c + acc) 0 l.

Lemma sum_len_app l1 l2 : sum_len (l1 ++ l2) = sum_len l1 + sum_len l2.
Proof. induction l1 as [|c l1 IH]; [done|]. unfold sum_len in *. simpl. lia. Qed.

Lemma sum_len_nonneg l : 0 <= sum_len l.
Proof. induction l as [|c l IH]; [done|]. unfold sum_len in *. simpl. pose proof (blen_nonneg c). lia. Qed.

(** The accounting invariant of a stream. *)
Record stream_ok (s : Stream) : Prop := {
  ok_queued : readQueued s = sum_len (readQueue s);
  ok_bound : readQueued s <= maxReadQueueBytes;
  ok_offset : match readQueue s with
              | [] => readOffset s = 0%nat
              | c :: _ => readOffset s = 0%nat \/ (readOffset s < length c)%nat
              end;
  ok_inFlight : 0 <= inFlight s;
  ok_flow : flowEnabled s = false -> inFlight s = 0;
  ok_closed : closed s = true -> closedRead s = true /\ writeClosed s = true;
  ok_err : readErr s <> None -> closed s = true
}.

(** The transitions of one stream, with what its reader gets. *)
Inductive stream_step (s : Stream) : Stream -> Prop :=
  | do_read size r s' fs : Read s size = Some (r, s', fs) -> stream_step s s'
  | do_write value e r s' fs : Write s value e = Some (r, s', fs) -> stream_step s s'
  | do_close_write e r s' fs : CloseWrite s e = (r, s', fs) -> stream_step s s'
  | do_close e p r s' fs : Close s e p = (r, s', fs) -> stream_step s s'
  | do_reset e p r s' fs : Reset s e p = (r, s', fs) -> stream_step s s'
  | do_receive f r s' fs : Receive s f = (r, s', fs) -> stream_step s s'
  | do_reconnected e1 e2 r s' fs : Reconnected s e1 e2 = (r, s', fs) -> stream_step s s'.

Lemma fail_ok s err : stream_ok s -> stream_ok (fail s err).
Proof.
  intros H. unfold fail. destruct (closed s) eqn:E; [done|].
  split; simpl; try apply H; done.
Qed.

Lemma acknowledge_ok s value : 0 <= value -> stream_ok s -> stream_ok (acknowledge s value).
Proof.
  intros Hv H. pose proof (ok_inFlight s H). pose proof (ok_flow s H).
  unfold acknowledge. split; simpl; try apply H; destruct (Z.ltb_spec (inFlight s - value) 0); try lia.
  intros F. specialize (H1 F). lia.
Qed.

Lemma Read_ok s size r s' fs : stream_ok s -> Read s size = Some (r, s', fs) -> stream_ok s'.
Proof.
  intros H. pose proof (ok_queued s H) as Hq. pose proof (ok_bound s H) as Hb.
  pose proof (ok_offset s H) as Ho. unfold Read.
  destruct (readQueue s) as [|c rest] eqn:E.
  - destruct (readErr s); [by intros [= <- <- <-]|]. destruct (closedRead s); [by intros [= <- <- <-]|done].
  - unfold sum_len in Hq; simpl in Hq. fold (sum_len rest) in Hq.
    pose proof (sum_len_nonneg rest). pose proof (blen_nonneg c).
    rewrite length_take, length_drop. destruct (Nat.eqb_spec (readOffset s + size `min` (length c - readOffset s)) (length c));
      intros [= <- <- <-]; split; simpl; try apply H.
    + lia.
    + lia.
    + destruct rest; [done|]. by left.
    + unfold sum_len; simpl. fold (sum_len rest). lia.
    + lia.
Qed.

Lemma stream_Write_ok s value e r s' fs : stream_ok s -> Write s value e = Some (r, s', fs) -> stream_ok s'.
Proof.
  intros H. unfold Write. destruct (writeClosed s || closed s) eqn:Ec; [by intros [= <- <- <-]|].
  destruct (_ && _); [done|]. pose proof (blen_nonneg value). pose proof (ok_inFlight s H).
  assert (stream_ok (if flowEnabled s then set_inFlight s (inFlight s + blen value) else s)) as H1'.
  { destruct (flowEnabled s) eqn:Ef; [|done]. split; simpl; try apply H; [lia|congruence]. }
  destruct e; intros [= <- <- <-]; [by apply acknowledge_ok|done].
Qed.

Lemma CloseWrite_ok s e r s' fs : stream_ok s -> CloseWrite s e = (r, s', fs) -> stream_ok s'.
Proof.
  intros H. unfold CloseWrite. destruct (writeClosed s) eqn:E; intros [= <- <- <-]; [done|].
  split; simpl; try apply H. intros C. split; [by apply H|done].
Qed.

Lemma receiveControl_ok s c s' fs : stream_ok s -> receiveControl s c = (s', fs) -> stream_ok s'.
Proof.
  intros H. unfold receiveControl. pose proof (ok_inFlight s H).
  repeat case_bool_decide; try (intros [= <- <-]; by first [apply fail_ok|done]).
  - intros [= <- <-]. split; simpl; try apply H. intros C. split; [done|by apply H].
  - intros [= <- <-]. split; simpl; try apply H. done.
  - intros [= <- <-]. split; simpl; try apply H; done.
  - destruct (HasPrefix c "ack:"); [|by intros [= <- <-]].
    destruct Atoi as [v|]; [|by intros [= <- <-]].
    destruct (Z.ltb_spec 0 v); intros [= <- <-]; [apply acknowledge_ok; [lia|done]|done].
  - destruct (HasPrefix c "ack:"); [|by intros [= <- <-]].
    destruct Atoi as [v|]; [|by intros [= <- <-]].
    destruct (Z.ltb_spec 0 v); intros [= <- <-]; [apply acknowledge_ok; [lia|done]|done].
Qed.

Lemma Receive_ok s f r s' fs : stream_ok s -> Receive s f = (r, s', fs) -> stream_ok s'.
Proof.
  intros H. unfold Receive. case_bool_decide.
  - destruct (_ && _); [|by intros [= <- <- <-]].
    destruct (Z.ltb_spec (maxReadQueueBytes - readQueued s) (blen (fr_Payload f))); intros [= <- <- <-];
      [by apply fail_ok|].
    pose proof (ok_offset s H) as Ho. pose proof (ok_queued s H).
    split; simpl; try apply H; [rewrite sum_len_app; unfold sum_len at 2; simpl; lia|lia|].
    destruct (readQueue s); simpl; [by left|done].
  - case_bool_decide; [|by intros [= <- <- <-]].
    destruct (receiveControl s _) as [s1 fs1] eqn:E. intros [= <- <- <-]. by eapply receiveControl_ok.
Qed.

Lemma stream_step_ok s s' : stream_ok s -> stream_step s s' -> stream_ok s'.
Proof.
  intros H [size r s1 fs E|v e r s1 fs E|e r s1 fs E|e p r s1 fs E|e p r s1 fs E|f r s1 fs E|e1 e2 r s1 fs E].
  - by eapply Read_ok.
  - by eapply stream_Write_ok.
  - by eapply CloseWrite_ok.
  - unfold Close in E. destruct (CloseWrite s e) as [[w s2] fs2] eqn:E2.
    apply CloseWrite_ok in E2; [|done]. destruct p; injection E as <- <- <-; by apply fail_ok.
  - unfold Reset in E. destruct p; injection E as <- <- <-; by apply fail_ok.
  - by eapply Receive_ok.
  - unfold Reconnected in E. pose proof (ok_inFlight s H).
    assert (stream_ok (set_inFlight s 0)) by (split; simpl; try apply H; done).
    destruct e1; injection E as <- <- <-; done.
Qed.

(** ** Effects of the operations *)

(** Transitions that leave the queue and the flow-control counter alone. *)
Record quiet (s s' : Stream) : Prop := {
  quiet_queue : readQueue s' = readQueue s;
  quiet_queued : readQueued s' = readQueued s;
  quiet_offset : readOffset s' = readOffset s;
  quiet_inFlight : inFlight s' = inFlight s;
  quiet_writeClosed : writeClosed s = true -> writeClosed s' = true;
  quiet_closed : closed s = true -> closed s' = true
}.

Lemma quiet_refl s : quiet s s.
Proof. by split. Qed.
Lemma quiet_fail s err : quiet s (fail s err).
Proof. unfold fail. by destruct (closed s) eqn:E; split. Qed.
Lemma quiet_trans s1 s2 s3 : quiet s1 s2 -> quiet s2 s3 -> quiet s1 s3.
Proof. intros [] []. split; intros; try congruence; auto. Qed.
Lemma quiet_closedRead s : quiet s (set_closedRead s).
Proof. by split. Qed.
Lemma quiet_flowEnabled s : quiet s (set_flowEnabled s).
Proof. by split. Qed.
Lemma quiet_set_writeClosed s : quiet s (set_writeClosed s).
Proof. by split. Qed.
#[export] Hint Resolve quiet_refl quiet_fail quiet_closedRead quiet_flowEnabled
  quiet_set_writeClosed : netcat.

Lemma fail_closed s err : closed (fail s err) = true.
Proof. unfold fail. by destruct (closed s) eqn:E. Qed.

Lemma Write_sent s value k s' fs :
  Write s value None = Some (Ok k, s', fs) ->
  fs = [mkFrame FrameData value] /\ writeClosed s = false /\ closed s = false /\
  writeClosed s' = false /\
  inFlight s' = inFlight s + (if flowEnabled s then blen value else 0) /\
  (flowEnabled s = true -> inFlight s <= 0 \/ inFlight s + blen value <= flowWindowBytes).
Proof.
  unfold Write. destruct (writeClosed s) eqn:Ew; [done|]. destruct (closed s) eqn:Ec; [done|]. simpl.
  destruct (flowEnabled s) eqn:Ef; simpl.
  - destruct (Z.ltb_spec 0 (inFlight s)); destruct (Z.ltb_spec flowWindowBytes (inFlight s + blen value));
      simpl; try done; intros [= <- <- <-]; simpl; rewrite Ew; split_and!; try done; lia.
  - intros [= <- <- <-]. rewrite Ew. split_and!; try done. lia.
Qed.

Lemma Write_failed s value e r s' fs :
  stream_ok s -> Write s value (Some e) = Some (r, s', fs) -> fs = [] /\ s' = s.
Proof.
  intros H. pose proof (ok_inFlight s H) as Hi. pose proof (ok_flow s H) as Hf.
  pose proof (blen_nonneg value). unfold Write.
  destruct (writeClosed s || closed s); [by intros [= <- <- <-]|].
  destruct (_ && _); [done|]. intros [= <- <- <-]. split; [done|].
  unfold acknowledge. destruct s as [q n o re cr wc c [|] i]; cbn in *.
  - f_equal. destruct (Z.ltb_spec (i + blen value - blen value) 0); lia.
  - rewrite Hf by done. unfold set_inFlight; cbn. f_equal. destruct (Z.ltb_spec (0 - blen value) 0); lia.
Qed.

Lemma CloseWrite_effect s e r s' fs :
  CloseWrite s e = (r, s', fs) ->
  quiet s s' /\ writeClosed s' = true /\ (fs = [] \/ fs = [control "eof"]).
Proof.
  unfold CloseWrite. destruct (writeClosed s) eqn:E; intros [= <- <- <-].
  - auto with netcat.
  - destruct e; auto with netcat.
Qed.

Lemma Close_effect s e p r s' fs :
  Close s e p = (r, s', fs) ->
  quiet s s' /\ writeClosed s' = true /\ closed s' = true /\ (fs = [] \/ fs = [control "eof"]).
Proof.
  unfold Close. destruct (CloseWrite s e) as [[w s1] fs1] eqn:E.
  apply CloseWrite_effect in E as (Hq & Hw & Hf). intros H.
  assert (s' = fail s1 EOF /\ fs = fs1) as [-> ->] by (destruct p; by injection H as <- <- <-).
  split_and!; [eapply quiet_trans; [done|apply quiet_fail]| |apply fail_closed|done].
  by apply (quiet_writeClosed _ _ (quiet_fail s1 EOF)).
Qed.

Lemma Reset_effect s e p r s' fs :
  Reset s e p = (r, s', fs) -> quiet s s' /\ closed s' = true /\ (fs = [] \/ fs = [control "abort"]).
Proof.
  unfold Reset. intros H.
  assert (s' = fail s (ErrNew "native WebRTC stream reset") /\ (fs = [] \/ fs = [control "abort"])) as [-> Hf]
    by (destruct p, e; injection H as <- <- <-; auto).
  split_and!; [apply quiet_fail|apply fail_closed|done].
Qed.

Lemma Receive_data s p r s' fs :
  Receive s (mkFrame FrameData p) = (r, s', fs) ->
  fs = [] /\
  ((closedRead s = false /\ closed s = false /\ readQueued s + blen p <= maxReadQueueBytes /\ r = None /\
    s' = set_queue s (readQueue s ++ [p]) (readQueued s + blen p) (readOffset s)) \/
   (closedRead s = false /\ closed s = false /\ maxReadQueueBytes < readQueued s + blen p /\
    r = Some errQueueFull /\ s' = fail s errQueueFull) \/
   ((closedRead s = true \/ closed s = true) /\ r = None /\ s' = s)).
Proof.
  unfold Receive; cbn [fr_Type fr_Payload]. rewrite bool_decide_true by done.
  destruct (closedRead s), (closed s); cbn [negb andb]; try (intros [= <- <- <-]; auto 10).
  destruct (Z.ltb_spec (maxReadQueueBytes - readQueued s) (blen p)); intros [= <- <- <-];
    split; try done; [right; left|left]; split_and!; try done; lia.
Qed.

Lemma unread_receive s p :
  stream_ok s -> unread (set_queue s (readQueue s ++ [p]) (readQueued s + blen p) (readOffset s)) = unread s ++ p.
Proof.
  intros H. pose proof (ok_offset s H) as Ho. unfold unread; cbn [readQueue readOffset set_queue].
  rewrite join_app. cbn [mjoin list_join]. rewrite app_nil_r, drop_app_le; [done|].
  destruct (readQueue s) as [|c q]; cbn [mjoin list_join]; [lia|]. rewrite length_app. lia.
Qed.

Lemma take_drop_length {A} n (l : list A) : take n l ++ drop (length (take n l)) l = l.
Proof. revert l; induction n as [|n IH]; intros [|x l]; simpl; [done..|]. by rewrite IH. Qed.

Lemma Read_effect s size value s' fs :
  stream_ok s -> Read s size = Some (Ok value, s', fs) ->
  value ++ unread s' = unread s /\ closed s' = closed s /\ closedRead s' = closedRead s /\
  inFlight s' = inFlight s /\ flowEnabled s' = flowEnabled s /\
  ((fs = [] /\ readQueued s' = readQueued s) \/
   exists k, 0 <= k <= maxReadQueueBytes /\ fs = [control ("ack:" +:+ itoa k)] /\
             readQueued s' = readQueued s - k).
Proof.
  intros H. pose proof (ok_offset s H) as Ho. pose proof (ok_queued s H) as Hq.
  pose proof (ok_bound s H) as Hb. unfold Read, unread.
  destruct (readQueue s) as [|c rest] eqn:E; [by destruct (readErr s), (closedRead s)|].
  assert (readOffset s <= length c)%nat as Hc by lia.
  unfold sum_len in Hq; simpl in Hq. fold (sum_len rest) in Hq.
  pose proof (sum_len_nonneg rest). pose proof (blen_nonneg c).
  destruct (Nat.eqb_spec (readOffset s + length (take size (drop (readOffset s) c))) (length c)) as [Hd|Hd];
    intros [= <- <- <-]; cbn [readQueue readOffset set_queue mjoin list_join closed closedRead inFlight
      flowEnabled readQueued].
  - rewrite drop_0, drop_app_le by done. split_and!; try done.
    + f_equal. apply take_ge. rewrite length_take, length_drop in Hd. rewrite length_drop. lia.
    + right. exists (blen c). split_and!; try done; lia.
  - assert (length (take size (drop (readOffset s) c)) <= length c - readOffset s)%nat
      by (rewrite length_take, length_drop; lia).
    rewrite !drop_app_le by lia. split_and!; try done; [|by left].
    rewrite app_assoc. f_equal. rewrite <- drop_drop. apply take_drop_length.
Qed.

(** The stream's accounting never goes wrong.  In every state a stream can
    reach, by reads, writes, closes, resets, reconnections and any frames a peer may send, the
    byte counter is the size of the queue and never exceeds one mebibyte, the read offset lies in
    the first chunk, the flow-control counter is non-negative and zero while flow control is
    off, and a closed stream is closed in both directions. *)
Theorem stream_invariant s :
  reachable (fun s => s = fst NewStream) stream_step s -> stream_ok s.
Proof.
  apply invariant.
  - intros s0 ->. split; simpl; try done.
  - intros s1 s2 _ H1 H2. by eapply stream_step_ok.
Qed.

(** A frame arrives, then the stream is reset. *)
Lemma stream_invariant_witness :
  stream_ok (fail (set_queue (fst NewStream) [[x61; x62]] 2 0) (ErrNew "native WebRTC stream reset")).
Proof.
  apply (stream_invariant
    (fail (set_queue (fst NewStream) [[x61; x62]] 2 0) (ErrNew "native WebRTC stream reset"))).
  eapply reach_step; [eapply reach_step; [by apply reach_init|]|].
  - by apply (do_receive _ (mkFrame FrameData [x61; x62]) None _ []).
  - by apply (do_reset _ None None None _ [control "abort"]).
Defined.
