(* ===== verification/WebrtcFlow.v ===== *)
(** Two native WebRTC streams joined by data channels that may be lost and replaced, seen
    in one direction: end A writes, end B reads and acknowledges.  The theorems are about
    the running system, for every schedule of the two ends, of the channels and of the
    goroutines that send control frames, and for reconnections at any moment.

    A transport is a number.  Each end forwards the frames of the transport that its link
    is attached to, in the order of that transport; what is still on a transport when the
    receiving end leaves it is never received.  An end attaches a transport only while it
    has none, and calls [Reconnected] before it can leave it again (superviseClientConnection
    and Listener.activate of nativewebrtc/endpoint.go). *)
From S2P Require Export WebrtcStream.
Local Open Scope Z_scope.

Record side := mkSide {
  stream : Stream;
  link : option nat;       (** the transport the link is attached to *)
  used : list nat;         (** the transports attached so far, the last one first *)
  due : bool;              (** attached again, [Reconnected] is still to be called *)
  pend : list Frame        (** control frames handed to [sendControl], not yet sent *)
}.

Record net := mkNet {
  sideA : side;
  sideB : side;
  fwd : list (nat * Frame);      (** sent by A on a transport and not received, in the order sent *)
  back : list (nat * Frame);     (** sent by B on a transport and not received *)
  writing : list Frame;          (** the frame of A's [Write] or [CloseWrite] that is in [send], under [writeMu] *)
  writes : list (nat * list byte);   (** the writes of A that were sent, with their transports *)
  arrived : list (nat * list byte);  (** what B put into its queue, with the transports *)
  recvd : list byte;             (** returned by B's reads *)
  uncounted : Z;                 (** bytes A wrote before it saw flow control enabled *)
  resets : Z;                    (** how often A's counter was reset *)
  forgiven : Z                   (** the bytes the counter lost by this *)
}.

Definition endA (n : net) : Stream := stream (sideA n).
Definition endB (n : net) : Stream := stream (sideB n).

Definition side_init : side := mkSide (fst NewStream) (Some 0%nat) [0%nat] false (snd NewStream).
Definition net_init : net := mkNet side_init side_init [] [] [] [] [] [] 0 0 0.

Definition set_stream (d : side) (s : Stream) : side := mkSide s (link d) (used d) (due d) (pend d).
Definition add_pend (d : side) (fs : list Frame) : side := mkSide (stream d) (link d) (used d) (due d) (pend d ++ fs).
Definition set_pend (d : side) (fs : list Frame) : side := mkSide (stream d) (link d) (used d) (due d) fs.
Definition detach_side (d : side) : side := mkSide (stream d) None (used d) (due d) (pend d).
Definition attach_side (d : side) (T : nat) : side := mkSide (stream d) (Some T) (T :: used d) true (pend d).
Definition undue (d : side) : side := mkSide (stream d) (link d) (used d) false (pend d).

Definition set_A (n : net) (d : side) : net :=
  mkNet d (sideB n) (fwd n) (back n) (writing n) (writes n) (arrived n) (recvd n) (uncounted n) (resets n) (forgiven n).
Definition set_B (n : net) (d : side) : net :=
  mkNet (sideA n) d (fwd n) (back n) (writing n) (writes n) (arrived n) (recvd n) (uncounted n) (resets n) (forgiven n).
Definition set_fwd (n : net) (l : list (nat * Frame)) : net :=
  mkNet (sideA n) (sideB n) l (back n) (writing n) (writes n) (arrived n) (recvd n) (uncounted n) (resets n) (forgiven n).
Definition set_back (n : net) (l : list (nat * Frame)) : net :=
  mkNet (sideA n) (sideB n) (fwd n) l (writing n) (writes n) (arrived n) (recvd n) (uncounted n) (resets n) (forgiven n).
Definition set_writing (n : net) (fs : list Frame) : net :=
  mkNet (sideA n) (sideB n) (fwd n) (back n) fs (writes n) (arrived n) (recvd n) (uncounted n) (resets n) (forgiven n).
Definition add_writes (n : net) (l : list (nat * list byte)) : net :=
  mkNet (sideA n) (sideB n) (fwd n) (back n) (writing n) (writes n ++ l) (arrived n) (recvd n) (uncounted n) (resets n) (forgiven n).
Definition add_arrived (n : net) (l : list (nat * list byte)) : net :=
  mkNet (sideA n) (sideB n) (fwd n) (back n) (writing n) (writes n) (arrived n ++ l) (recvd n) (uncounted n) (resets n) (forgiven n).
Definition add_recvd (n : net) (value : list byte) : net :=
  mkNet (sideA n) (sideB n) (fwd n) (back n) (writing n) (writes n) (arrived n) (recvd n ++ value) (uncounted n) (resets n) (forgiven n).
Definition add_uncounted (n : net) (k : Z) : net :=
  mkNet (sideA n) (sideB n) (fwd n) (back n) (writing n) (writes n) (arrived n) (recvd n) (uncounted n + k) (resets n) (forgiven n).
(** A's counter is set to zero: what it held is no longer counted. *)
Definition count_reset (n : net) : net :=
  mkNet (sideA n) (sideB n) (fwd n) (back n) (writing n) (writes n) (arrived n) (recvd n) (uncounted n) (resets n + 1)
    (forgiven n + inFlight (endA n)).

(** The data of frames. *)
Definition data_of (f : Frame) : list byte :=
  if bool_decide (fr_Type f = FrameData) then fr_Payload f else [].
Definition data (l : list Frame) : list byte := mjoin (data_of <$> l).
Definition log_of (x : nat * Frame) : list (nat * list byte) :=
  if bool_decide (fr_Type (snd x) = FrameData) then [(fst x, fr_Payload (snd x))] else [].
Definition logs (l : list (nat * Frame)) : list (nat * list byte) := mjoin (log_of <$> l).

#[export] Instance Frame_eq_dec : EqDecision Frame.
Proof. solve_decision. Defined.

Definition resume_frame : Frame := control "resume".

(** A [Write] whose [send] fails gives back what it had reserved. *)
Lemma Write_send_fails s value e r s' fs :
  Write s value (Some e) = Some (r, s', fs) ->
  s' = s \/ exists k s0, Write s value None = Some (Ok k, s0, [mkFrame FrameData value]) /\ s' = acknowledge s0 (blen value).
Proof.
  unfold Write. destruct (writeClosed s || closed s); [intros [= <- <- <-]; by left|].
  destruct (_ && _); [done|]. intros [= <- <- <-]. right. eauto.
Qed.

Section system.
(** A bound on the size of one write. *)
Variable M : Z.

Inductive net_step (n : net) : net -> Prop :=
  (** [Write] until it calls [send], which may wait for a transport, and its return. *)
  | net_write value k s fs :
      writing n = [] -> blen value <= M -> Write (endA n) value None = Some (Ok k, s, fs) ->
      net_step n (add_uncounted (set_writing (set_A n (set_stream (sideA n) s)) fs)
        (if flowEnabled (endA n) then 0 else blen value))
  | net_close_write r s fs :
      writing n = [] -> CloseWrite (endA n) None = (r, s, fs) ->
      net_step n (set_writing (set_A n (set_stream (sideA n) s)) fs)
  | net_send f T :
      writing n = [f] -> link (sideA n) = Some T ->
      net_step n (add_writes (set_writing (set_fwd n (fwd n ++ [(T, f)])) []) (log_of (T, f)))
  | net_send_fails f :
      writing n = [f] ->
      net_step n (set_writing (set_A n (set_stream (sideA n)
        (if bool_decide (fr_Type f = FrameData) then acknowledge (endA n) (blen (fr_Payload f)) else endA n))) [])
  (** A fails (the second half of [Close], a reconnection that did not succeed), resets, sends a ping. *)
  | net_fail_a err : net_step n (set_A n (set_stream (sideA n) (fail (endA n) err)))
  | net_reset_a e p r s fs :
      Reset (endA n) e p = (r, s, fs) -> net_step n (set_A n (add_pend (set_stream (sideA n) s) fs))
  | net_ping_a : net_step n (set_A n (add_pend (sideA n) [control "ping"]))
  (** A control frame of A's is sent; a frame of B's is received. *)
  | net_flush_a l1 f l2 T :
      pend (sideA n) = l1 ++ f :: l2 -> link (sideA n) = Some T ->
      net_step n (set_fwd (set_A n (set_pend (sideA n) (l1 ++ l2))) (fwd n ++ [(T, f)]))
  | net_receive_a l1 T f l2 r s fs :
      back n = l1 ++ (T, f) :: l2 -> T ∉ l1.*1 -> link (sideA n) = Some T -> Receive (endA n) f = (r, s, fs) ->
      net_step n (set_back (set_A (if bool_decide (f = resume_frame) then count_reset n else n)
        (add_pend (set_stream (sideA n) s) fs)) (l1 ++ l2))
  (** A loses its transport, gets another, and resumes. *)
  | net_detach_a : due (sideA n) = false -> net_step n (set_A n (detach_side (sideA n)))
  | net_attach_a T :
      link (sideA n) = None -> T ∉ used (sideA n) -> net_step n (set_A n (attach_side (sideA n) T))
  | net_reconnected_a e1 e2 r s fs :
      due (sideA n) = true -> Reconnected (endA n) e1 e2 = (r, s, fs) ->
      net_step n (set_A (count_reset n) (undue (add_pend (set_stream (sideA n) s) fs)))
  (** The same for B, which reads. *)
  | net_deliver l1 T f l2 r s fs :
      fwd n = l1 ++ (T, f) :: l2 -> T ∉ l1.*1 -> link (sideB n) = Some T -> Receive (endB n) f = (r, s, fs) ->
      net_step n (add_arrived (set_fwd (set_B n (add_pend (set_stream (sideB n) s) fs)) (l1 ++ l2))
        (if closedRead (endB n) then [] else log_of (T, f)))
  | net_read size value s fs :
      Read (endB n) size = Some (Ok value, s, fs) ->
      net_step n (add_recvd (set_B n (add_pend (set_stream (sideB n) s) fs)) value)
  | net_close_b e p r s fs :
      Close (endB n) e p = (r, s, fs) -> net_step n (set_B n (add_pend (set_stream (sideB n) s) fs))
  | net_fail_b err : net_step n (set_B n (set_stream (sideB n) (fail (endB n) err)))
  | net_reset_b e p r s fs :
      Reset (endB n) e p = (r, s, fs) -> net_step n (set_B n (add_pend (set_stream (sideB n) s) fs))
  | net_ping_b : net_step n (set_B n (add_pend (sideB n) [control "ping"]))
  | net_flush_b l1 f l2 T :
      pend (sideB n) = l1 ++ f :: l2 -> link (sideB n) = Some T ->
      net_step n (set_back (set_B n (set_pend (sideB n) (l1 ++ l2))) (back n ++ [(T, f)]))
  | net_detach_b : due (sideB n) = false -> net_step n (set_B n (detach_side (sideB n)))
  | net_attach_b T :
      link (sideB n) = None -> T ∉ used (sideB n) -> net_step n (set_B n (attach_side (sideB n) T))
  | net_reconnected_b e1 e2 r s fs :
      due (sideB n) = true -> Reconnected (endB n) e1 e2 = (r, s, fs) ->
      net_step n (set_B n (undue (add_pend (set_stream (sideB n) s) fs))).

(** ** Frames in transit *)

Definition plain_controls : list string := ["flow:1"; "ping"; "pong"; "abort"].
Definition ack_frame (k : Z) : Frame := control ("ack:" +:+ itoa k).

Definition plain_frame (f : Frame) : Prop := exists c, c ∈ plain_controls /\ f = control c.
(** What A sends by itself, what it sends under [writeMu], and what B sends. *)
Definition ctl_frame (f : Frame) : Prop := plain_frame f \/ f = resume_frame.
Definition fwd_frame (f : Frame) : Prop :=
  (fr_Type f = FrameData /\ blen (fr_Payload f) <= M) \/ f = control "eof" \/ ctl_frame f.
Definition back_frame (f : Frame) : Prop :=
  f = control "eof" \/ ctl_frame f \/ exists k, 0 <= k <= maxReadQueueBytes /\ f = ack_frame k.

(** The credit a frame returns, and whether it resets the counter. *)
Definition ack_value (f : Frame) : Z :=
  if HasPrefix (string_of (fr_Payload f)) "ack:" then
    match Atoi (TrimPrefix (string_of (fr_Payload f)) "ack:") with Ok v => Z.max 0 v | Err _ => 0 end
  else 0.
Definition acks (l : list Frame) : Z := foldr (fun f acc => ack_value f + acc) 0 l.
Definition resumes (l : list Frame) : Z := foldr (fun f acc => (if bool_decide (f = resume_frame) then 1 else 0) + acc) 0 l.

Lemma data_app l1 l2 : data (l1 ++ l2) = data l1 ++ data l2.
Proof. unfold data. by rewrite fmap_app, join_app. Qed.
Lemma data_cons f l : data (f :: l) = data_of f ++ data l.
Proof. done. Qed.
Lemma acks_app l1 l2 : acks (l1 ++ l2) = acks l1 + acks l2.
Proof. induction l1 as [|f l1 IH]; [done|]. unfold acks in *. simpl. lia. Qed.
Lemma acks_cons f l : acks (f :: l) = ack_value f + acks l.
Proof. done. Qed.
Lemma resumes_app l1 l2 : resumes (l1 ++ l2) = resumes l1 + resumes l2.
Proof. induction l1 as [|f l1 IH]; [done|]. unfold resumes in *. simpl. lia. Qed.
Lemma resumes_cons f l : resumes (f :: l) = (if bool_decide (f = resume_frame) then 1 else 0) + resumes l.
Proof. done. Qed.

Lemma ack_value_nonneg f : 0 <= ack_value f.
Proof. unfold ack_value. repeat case_match; lia. Qed.
Lemma acks_nonneg l : 0 <= acks l.
Proof. induction l as [|f l IH]; [done|]. rewrite acks_cons. pose proof (ack_value_nonneg f). lia. Qed.
Lemma resumes_nonneg l : 0 <= resumes l.
Proof. induction l as [|f l IH]; [done|]. rewrite resumes_cons. case_bool_decide; lia. Qed.

Lemma ack_value_frame k : 0 <= k <= maxReadQueueBytes -> ack_value (ack_frame k) = k.
Proof.
  intros Hk. unfold maxReadQueueBytes in Hk. unfold ack_value, ack_frame, control.
  cbn [fr_Payload]. rewrite string_of_bytes_of, HasPrefix_app, TrimPrefix_app, Atoi_itoa by lia. lia.
Qed.
Lemma ack_not_resume k : ack_frame k <> resume_frame.
Proof. unfold ack_frame, resume_frame, control. by intros [= H%(inj bytes_of)]. Qed.

Lemma control_inj c d : control c = control d -> c = d.
Proof. unfold control. by intros [= H%(inj bytes_of)]. Qed.

Lemma plain_inv f (P : Frame -> Prop) :
  plain_frame f -> P (control "flow:1") -> P (control "ping") -> P (control "pong") -> P (control "abort") -> P f.
Proof.
  intros (c & Hc & ->) ? ? ? ?. unfold plain_controls in Hc. rewrite !elem_of_cons, elem_of_nil in Hc.
  by destruct Hc as [->|[->|[->|[->|[]]]]].
Qed.

(** Control frames that carry neither data, nor credit, nor the end of the stream. *)
Definition plain (fs : list Frame) : Prop := Forall plain_frame fs.

Lemma plain_values f : plain_frame f -> data_of f = [] /\ ack_value f = 0 /\ f <> resume_frame /\ f <> control "eof".
Proof. intros H. apply (plain_inv f); [done|..]; (split_and!; [done|by vm_compute| |]); by intros ?%control_inj. Qed.

Lemma plain_sums fs : plain fs -> data fs = [] /\ acks fs = 0 /\ resumes fs = 0 /\ control "eof" ∉ fs.
Proof.
  induction 1 as [|f fs (H1 & H2 & H3 & H4)%plain_values _ (I1 & I2 & I3 & I4)]; [split_and!; [done..|set_solver]|].
  rewrite data_cons, acks_cons, resumes_cons, H1, H2, I1, I2, I3, bool_decide_false by done.
  split_and!; try done. set_solver.
Qed.
Lemma plain_one c fs : c ∈ plain_controls -> fs = [] \/ fs = [control c] -> plain fs.
Proof. intros Hc [->| ->]; repeat constructor; exists c; auto. Qed.
Lemma plain_nil : plain [].
Proof. constructor. Qed.

Lemma ctl_data f : ctl_frame f -> data_of f = [] /\ f <> control "eof".
Proof. intros [(H1 & _ & _ & H2)%plain_values| ->]; [done|]. split; [done|]. by intros ?%control_inj. Qed.
Lemma ctls_data fs : Forall ctl_frame fs -> data fs = [] /\ control "eof" ∉ fs.
Proof.
  induction 1 as [|f fs [H1 H2]%ctl_data _ [I1 I2]]; [split; [done|set_solver]|].
  rewrite data_cons, H1, I1. split; [done|set_solver].
Qed.

(** ** What the two ends do with them *)

(** Transitions that keep the receive queue. *)
Record keeps_queue (s s' : Stream) : Prop := {
  kq_queue : readQueue s' = readQueue s;
  kq_queued : readQueued s' = readQueued s;
  kq_offset : readOffset s' = readOffset s
}.
Lemma quiet_keeps s s' : quiet s s' -> keeps_queue s s'.
Proof. by intros []. Qed.
Lemma keeps_unread s s' : keeps_queue s s' -> unread s' = unread s.
Proof. intros []. unfold unread. congruence. Qed.

Lemma Receive_control s c :
  Receive s (control c) = (let '(s, fs) := receiveControl s c in (None, s, fs)).
Proof. unfold Receive, control; cbn [fr_Type fr_Payload]. by rewrite string_of_bytes_of. Qed.

Lemma Receive_ack s k :
  0 <= k <= maxReadQueueBytes -> Receive s (ack_frame k) = (None, if 0 <? k then acknowledge s k else s, []).
Proof.
  intros Hk. unfold maxReadQueueBytes in Hk. unfold ack_frame. rewrite Receive_control. unfold receiveControl.
  rewrite !(bool_decide_false _) by (by intros [=]).
  rewrite HasPrefix_app, TrimPrefix_app, Atoi_itoa by lia. by destruct (0 <? k).
Qed.
Lemma Receive_resume s : Receive s resume_frame = (None, set_inFlight s 0, [control "flow:1"]).
Proof. unfold resume_frame. by rewrite Receive_control. Qed.
Lemma Receive_eof s : Receive s (control "eof") = (None, set_closedRead s, []).
Proof. by rewrite Receive_control. Qed.

Lemma Receive_plain s f r s' fs :
  plain_frame f -> Receive s f = (r, s', fs) ->
  r = None /\ plain fs /\ quiet s s' /\ (closed s' = false -> closedRead s' = closedRead s).
Proof.
  intros H. apply (plain_inv f); [done|..]; rewrite Receive_control; intros [= <- <- <-];
    (split_and!; [done|apply (plain_one "pong"); [set_solver|tauto]|auto with netcat|try done]).
  intros Hc. by rewrite fail_closed in Hc.
Qed.

(** ** Credit *)

Ltac net_proj := cbn [sideA sideB stream link used due pend fwd back writing writes arrived recvd uncounted resets
  forgiven set_stream add_pend set_pend detach_side attach_side undue set_A set_B set_fwd set_back set_writing add_writes add_arrived
  add_recvd add_uncounted count_reset] in *.
Ltac net_cbn := net_proj; unfold endA, endB in *; net_proj.


(** How often the ends attached a transport after the first. *)
Definition reconnections (n : net) : Z := Z.of_nat (length (used (sideA n))) + Z.of_nat (length (used (sideB n))) - 2.

(** Both streams are sound, only known frames are in transit, and what A has sent and B has
    not acknowledged is covered by A's counter, the uncounted bytes and what resets took out of the
    counter; a reset belongs to a reconnection of A or of B. *)
Record credit_ok (n : net) : Prop := {
  cr_A : stream_ok (endA n);
  cr_B : stream_ok (endB n);
  cr_fwd : Forall fwd_frame ((fwd n).*2 ++ writing n);
  cr_pendA : Forall ctl_frame (pend (sideA n));
  cr_back : Forall back_frame ((back n).*2 ++ pend (sideB n));
  cr_uncounted : 0 <= uncounted n;
  cr_window : inFlight (endA n) <= Z.max flowWindowBytes M;
  cr_forgiven : 0 <= forgiven n <= resets n * Z.max flowWindowBytes M;
  cr_resets : resets n + resumes (back n).*2 + resumes (pend (sideB n)) + Z.b2z (due (sideA n)) + Z.b2z (due (sideB n))
              <= reconnections n;
  cr_credit : blen (data (fwd n).*2) + blen (data (writing n)) + readQueued (endB n)
              + acks (back n).*2 + acks (pend (sideB n)) <= inFlight (endA n) + uncounted n + forgiven n
}.

Ltac sums := rewrite ?fmap_app, ?fmap_cons, ?data_app, ?data_cons, ?acks_app, ?acks_cons, ?resumes_app, ?resumes_cons,
  ?blen_app in *; cbn [fmap list_fmap fst snd] in *; try change (data []) with (@nil byte) in *; try change (acks []) with 0 in *;
  try change (resumes []) with 0 in *; try change (data_of (control "eof")) with (@nil byte) in *; cbn [app] in *;
  try change (blen []) with 0 in *.

(** A's transitions that keep its counter and add only control frames. *)
Lemma credit_A_quiet n s fs :
  credit_ok n -> stream_ok s -> inFlight s = inFlight (endA n) -> Forall ctl_frame fs ->
  credit_ok (set_A n (add_pend (set_stream (sideA n) s) fs)).
Proof.
  intros [HA HB Hf Hp Hb Hu Hw Hg Hr Hc] Hs Hi Hfs. split; unfold reconnections in *; net_cbn; try done.
  - apply Forall_app. done.
  - by rewrite Hi.
  - by rewrite Hi.
Qed.

(** B's transitions that keep its queue and add only frames without credit or reset. *)
Lemma credit_B_quiet n s fs :
  credit_ok n -> stream_ok s -> keeps_queue (endB n) s -> Forall back_frame fs -> acks fs = 0 -> resumes fs = 0 ->
  credit_ok (set_B n (add_pend (set_stream (sideB n) s) fs)).
Proof.
  intros [HA HB Hf Hp Hb Hu Hw Hg Hr Hc] Hs Hq Hfs Ha Hm. split; unfold reconnections in *; net_cbn; try done.
  - rewrite !Forall_app in *. tauto.
  - sums. lia.
  - sums. rewrite (kq_queued _ _ Hq). lia.
Qed.

Lemma add_pend_nil d s : add_pend (set_stream d s) [] = set_stream d s.
Proof. unfold add_pend, set_stream; cbn. by rewrite app_nil_r. Qed.

Lemma add_pend_same d fs : add_pend d fs = add_pend (set_stream d (stream d)) fs.
Proof. done. Qed.

Lemma plain_ctl fs : plain fs -> Forall ctl_frame fs.
Proof. intros H. eapply Forall_impl; [exact H|]. by left. Qed.
Lemma ctl_back fs : Forall ctl_frame fs -> Forall back_frame fs.
Proof. intros H. eapply Forall_impl; [exact H|]. intros f Hf. right. by left. Qed.

Lemma credit_B_plain n s fs :
  credit_ok n -> stream_ok s -> keeps_queue (endB n) s -> plain fs ->
  credit_ok (set_B n (add_pend (set_stream (sideB n) s) fs)).
Proof.
  intros H Hs Hq Hp. destruct (plain_sums fs Hp) as (_ & ? & ? & _). apply credit_B_quiet; auto using plain_ctl, ctl_back.
Qed.

(** A frame leaves the way from A to B. *)
Lemma credit_drop_fwd n l1 T f l2 :
  credit_ok n -> fwd n = l1 ++ (T, f) :: l2 -> credit_ok (set_fwd n (l1 ++ l2)).
Proof.
  intros [HA HB Hf Hp Hb Hu Hw Hg Hr Hc] E. rewrite E in Hf, Hc. split; unfold reconnections in *; net_cbn; try done.
  - rewrite !fmap_app, fmap_cons, !Forall_app, Forall_cons in *. tauto.
  - sums. pose proof (blen_nonneg (data_of f)). lia.
Qed.

Lemma credit_write n value k s fs :
  credit_ok n -> writing n = [] -> blen value <= M -> Write (endA n) value None = Some (Ok k, s, fs) ->
  credit_ok (add_uncounted (set_writing (set_A n (set_stream (sideA n) s)) fs)
    (if flowEnabled (endA n) then 0 else blen value)).
Proof.
  intros [HA HB Hf Hp Hb Hu Hw Hg Hr Hc] Ew HM HW. pose proof (stream_Write_ok _ _ _ _ _ _ HA HW) as Ha.
  apply Write_sent in HW as (-> & _ & _ & _ & Hi & Hfl). pose proof (blen_nonneg value).
  pose proof (ok_inFlight _ HA). rewrite Ew in Hf, Hc. split; unfold reconnections in *; net_cbn; try done.
  - rewrite Forall_app in *. split; [tauto|]. apply Forall_singleton. by left.
  - destruct (flowEnabled (stream (sideA n))); lia.
  - rewrite Hi. destruct (flowEnabled (stream (sideA n))); [|lia]. destruct (Hfl eq_refl); lia.
  - change (data [mkFrame FrameData value]) with (value ++ []). change (blen (data [])) with 0 in Hc.
    rewrite app_nil_r, Hi. destruct (flowEnabled (stream (sideA n))); lia.
Qed.

Lemma credit_send n f T :
  credit_ok n -> writing n = [f] ->
  credit_ok (add_writes (set_writing (set_fwd n (fwd n ++ [(T, f)])) []) (log_of (T, f))).
Proof.
  intros [HA HB Hf Hp Hb Hu Hw Hg Hr Hc] Ew. rewrite Ew in Hf, Hc. split; unfold reconnections in *; net_cbn; try done.
  - rewrite fmap_app, app_nil_r. done.
  - sums. lia.
Qed.

Lemma credit_send_fails n f :
  credit_ok n -> writing n = [f] ->
  credit_ok (set_writing (set_A n (set_stream (sideA n)
    (if bool_decide (fr_Type f = FrameData) then acknowledge (endA n) (blen (fr_Payload f)) else endA n))) []).
Proof.
  intros [HA HB Hf Hp Hb Hu Hw Hg Hr Hc] Ew. rewrite Ew in Hf, Hc. pose proof (blen_nonneg (fr_Payload f)).
  pose proof (ok_inFlight _ HA). apply Forall_app in Hf as [Hf _].
  assert (data [f] = if bool_decide (fr_Type f = FrameData) then fr_Payload f else []) as Ed
    by (rewrite data_cons; by rewrite app_nil_r). rewrite Ed in Hc.
  destruct (bool_decide (fr_Type f = FrameData)); (split; unfold reconnections in *; net_cbn; try done);
    try (by rewrite app_nil_r); try (by apply acknowledge_ok); sums; unfold acknowledge, set_inFlight; cbn [inFlight];
    try destruct (Z.ltb_spec (inFlight (stream (sideA n)) - blen (fr_Payload f)) 0); lia.
Qed.

Lemma credit_deliver n l1 T f l2 r s fs log :
  credit_ok n -> fwd n = l1 ++ (T, f) :: l2 -> Receive (endB n) f = (r, s, fs) ->
  credit_ok (add_arrived (set_fwd (set_B n (add_pend (set_stream (sideB n) s) fs)) (l1 ++ l2)) log).
Proof.
  intros H E HR. pose proof (Receive_ok _ _ _ _ _ (cr_B _ H) HR) as Hs.
  enough (credit_ok (set_fwd (set_B n (add_pend (set_stream (sideB n) s) fs)) (l1 ++ l2))) as [] by (by split).
  pose proof (credit_drop_fwd _ _ _ _ _ H E) as Hd.
  change (set_fwd (set_B n ?d) ?l) with (set_B (set_fwd n l) d).
  pose proof (cr_fwd _ H) as Hf. rewrite E, fmap_app, fmap_cons, !Forall_app, Forall_cons in Hf.
  cbn [snd] in Hf.
  destruct Hf as [(_ & [[Ht _]|[->|[Hp| ->]]] & _) _].
  - destruct f as [t p]; cbn in Ht; subst t. apply Receive_data in HR as [-> HR].
    destruct HR as [(_ & _ & _ & _ & ->)|[(_ & _ & _ & _ & ->)|(_ & _ & ->)]].
    + destruct H as [HA HB Hf Hp Hb Hu Hw Hg Hr Hc]. destruct Hd as [_ _ Hf' _ _ _ _ _ _ _]. rewrite E in Hc.
      split; unfold reconnections in *; net_cbn; rewrite ?app_nil_r; try done. sums.
      change (data_of (mkFrame FrameData p)) with p in Hc. cbn [readQueued set_queue]. lia.
    + apply (credit_B_plain (set_fwd n (l1 ++ l2))); auto using plain_nil, quiet_keeps with netcat.
    + apply (credit_B_plain (set_fwd n (l1 ++ l2))); auto using plain_nil, quiet_keeps with netcat.
  - rewrite Receive_eof in HR. injection HR as <- <- <-.
    apply (credit_B_plain (set_fwd n (l1 ++ l2))); auto using plain_nil, quiet_keeps with netcat.
  - apply Receive_plain in HR as (_ & Hpl & Hq & _); [|done].
    apply (credit_B_plain (set_fwd n (l1 ++ l2))); auto using quiet_keeps.
  - rewrite Receive_resume in HR. injection HR as <- <- <-.
    apply (credit_B_plain (set_fwd n (l1 ++ l2))); [done|done|by split|].
    apply (plain_one "flow:1"); [set_solver|by right].
Qed.

Lemma credit_read n size value s fs :
  credit_ok n -> Read (endB n) size = Some (Ok value, s, fs) ->
  credit_ok (add_recvd (set_B n (add_pend (set_stream (sideB n) s) fs)) value).
Proof.
  intros [HA HB Hf Hp Hb Hu Hw Hg Hr Hc] HR. pose proof (Read_ok _ _ _ _ _ HB HR) as Hs.
  apply Read_effect in HR as (_ & _ & _ & _ & _ & HR); [|done].
  destruct HR as [[-> Hq]|(k & Hk & -> & Hq)]; split; unfold reconnections in *; net_cbn; rewrite ?app_nil_r; try done; try lia.
  - rewrite !Forall_app in *. split_and!; try tauto. apply Forall_singleton. right. right. eauto.
  - sums. fold (ack_frame k). rewrite bool_decide_false by apply ack_not_resume. lia.
  - sums. fold (ack_frame k). rewrite ack_value_frame by done. lia.
Qed.

(** A's counter is reset. *)
Lemma credit_reset n :
  credit_ok n -> resets n + 1 + resumes (back n).*2 + resumes (pend (sideB n)) + Z.b2z (due (sideA n))
    + Z.b2z (due (sideB n)) <= reconnections n ->
  credit_ok (set_A (count_reset n) (set_stream (sideA n) (set_inFlight (endA n) 0))).
Proof.
  intros [HA HB Hf Hp Hb Hu Hw Hg Hr Hc] Hr'. pose proof (ok_inFlight _ HA).
  split; unfold reconnections in *; net_cbn; cbn [set_inFlight inFlight]; try done; try lia.
  split; try apply HA; cbn; done.
Qed.

Lemma credit_receive_a n l1 T f l2 r s fs :
  credit_ok n -> back n = l1 ++ (T, f) :: l2 -> Receive (endA n) f = (r, s, fs) ->
  credit_ok (set_back (set_A (if bool_decide (f = resume_frame) then count_reset n else n)
    (add_pend (set_stream (sideA n) s) fs)) (l1 ++ l2)).
Proof.
  intros H E HR. pose proof (Receive_ok _ _ _ _ _ (cr_A _ H) HR) as Hs.
  assert (credit_ok (set_back n (l1 ++ l2)) /\ back_frame f) as [Hd Hf].
  { destruct H as [HA HB Hf Hp Hb Hu Hw Hg Hr Hc]. rewrite E in Hb, Hr, Hc. pose proof (ack_value_nonneg f).
    rewrite fmap_app, fmap_cons, !Forall_app, Forall_cons in Hb. cbn [snd] in Hb. split; [|tauto].
    split; unfold reconnections in *; net_cbn; try done.
    - rewrite fmap_app, !Forall_app. tauto.
    - sums. case_bool_decide; lia.
    - sums. lia. }
  destruct Hf as [->|[[Hp| ->]|(k & Hk & ->)]].
  - rewrite bool_decide_false by (by intros ?%control_inj). rewrite Receive_eof in HR. injection HR as <- <- <-.
    by apply (credit_A_quiet (set_back n (l1 ++ l2))).
  - destruct (plain_values f Hp) as (_ & _ & Hn & _). rewrite bool_decide_false by done.
    apply Receive_plain in HR as (_ & Hpl & Hq & _); [|done].
    apply (credit_A_quiet (set_back n (l1 ++ l2))); auto using plain_ctl. apply Hq.
  - rewrite bool_decide_true by done. rewrite Receive_resume in HR. injection HR as <- <- <-.
    assert (credit_ok (set_A (count_reset (set_back n (l1 ++ l2)))
      (set_stream (sideA n) (set_inFlight (endA n) 0)))) as Hz.
    { apply (credit_reset (set_back n (l1 ++ l2)) Hd). pose proof (cr_resets _ H) as Hr. rewrite E in Hr.
      unfold reconnections in *; net_cbn. sums. rewrite bool_decide_true in Hr by done. lia. }
    apply (credit_A_quiet _ (set_inFlight (endA n) 0) [control "flow:1"] Hz); [done|done|].
    apply Forall_singleton. left. exists "flow:1". split; [set_solver|done].
  - rewrite bool_decide_false by apply ack_not_resume. rewrite Receive_ack in HR by done. injection HR as <- <- <-.
    destruct (Z.ltb_spec 0 k); [|by apply (credit_A_quiet (set_back n (l1 ++ l2)))].
    destruct H as [HA HB Hf Hp Hb Hu Hw Hg Hr Hc]. destruct Hd as [_ _ _ _ Hb' _ _ _ Hr' _]. pose proof (ok_inFlight _ HA).
    rewrite E in Hc. split; unfold reconnections in *; net_cbn; rewrite ?app_nil_r; try done;
      unfold acknowledge, set_inFlight; cbn [inFlight]; sums; rewrite ?ack_value_frame in Hc by done;
      destruct (Z.ltb_spec (inFlight (stream (sideA n)) - k) 0); lia.
Qed.

Lemma Reconnected_effect s e1 e2 r s' fs :
  Reconnected s e1 e2 = (r, s', fs) -> s' = set_inFlight s 0 /\ Forall ctl_frame fs /\ acks fs = 0 /\ resumes fs <= 1.
Proof.
  assert (ctl_frame (control "resume") /\ ctl_frame (control "flow:1")) as [H1 H2].
  { split; [by right|left]. exists "flow:1". split; [set_solver|done]. }
  unfold Reconnected. destruct e1, e2; intros [= <- <- <-]; (split_and!; [done|repeat (apply Forall_cons_2; [done|]); apply Forall_nil_2|by vm_compute|by vm_compute]).
Qed.

Lemma credit_reconnected_a n e1 e2 r s fs :
  credit_ok n -> due (sideA n) = true -> Reconnected (endA n) e1 e2 = (r, s, fs) ->
  credit_ok (set_A (count_reset n) (undue (add_pend (set_stream (sideA n) s) fs))).
Proof.
  intros H Hd (-> & Hfs & _ & _)%Reconnected_effect.
  assert (credit_ok (set_A n (undue (sideA n)))) as Hu.
  { destruct H as [HA HB Hf Hp Hb Hu Hw Hg Hr Hc]. rewrite Hd in Hr. cbn [Z.b2z] in Hr.
    split; unfold reconnections in *; net_cbn; try done. cbn [Z.b2z]. lia. }
  pose proof (cr_resets _ H) as Hr. rewrite Hd in Hr. cbn [Z.b2z] in Hr.
  apply credit_reset in Hu; [|unfold reconnections in *; net_cbn; cbn [Z.b2z]; lia].
  apply (credit_A_quiet _ (set_inFlight (endA n) 0) fs Hu); [apply (cr_A _ Hu)|done|done].
Qed.

Lemma credit_reconnected_b n e1 e2 r s fs :
  credit_ok n -> due (sideB n) = true -> Reconnected (endB n) e1 e2 = (r, s, fs) ->
  credit_ok (set_B n (undue (add_pend (set_stream (sideB n) s) fs))).
Proof.
  intros [HA HB Hf Hp Hb Hu Hw Hg Hr Hc] Hd HR.
  assert (stream_ok s) as Hs by (eapply stream_step_ok; [exact HB|by eapply do_reconnected]).
  apply Reconnected_effect in HR as (-> & Hfs & Ha & Hm). rewrite Hd in Hr. cbn [Z.b2z] in Hr.
  split; unfold reconnections in *; net_cbn; try done.
  - rewrite !Forall_app in *. split_and!; [tauto..|by apply ctl_back].
  - cbn [Z.b2z]. sums. lia.
  - sums. cbn [set_inFlight readQueued]. lia.
Qed.

Lemma plain_abort fs : fs = [] \/ fs = [control "abort"] -> plain fs.
Proof. apply plain_one. set_solver. Qed.

Lemma credit_links_a n d :
  credit_ok n -> stream d = endA n -> pend d = pend (sideA n) ->
  Z.b2z (due d) - Z.of_nat (length (used d)) <= Z.b2z (due (sideA n)) - Z.of_nat (length (used (sideA n))) ->
  credit_ok (set_A n d).
Proof.
  intros [HA HB Hf Hp Hb Hu Hw Hg Hr Hc] Es Ep Hd. split; unfold reconnections in *; net_cbn; rewrite ?Es, ?Ep; try done. lia.
Qed.
Lemma credit_links_b n d :
  credit_ok n -> stream d = endB n -> pend d = pend (sideB n) ->
  Z.b2z (due d) - Z.of_nat (length (used d)) <= Z.b2z (due (sideB n)) - Z.of_nat (length (used (sideB n))) ->
  credit_ok (set_B n d).
Proof.
  intros [HA HB Hf Hp Hb Hu Hw Hg Hr Hc] Es Ep Hd. split; unfold reconnections in *; net_cbn; rewrite ?Es, ?Ep; try done. lia.
Qed.

Lemma credit_flush_a n l1 f l2 T :
  credit_ok n -> pend (sideA n) = l1 ++ f :: l2 ->
  credit_ok (set_fwd (set_A n (set_pend (sideA n) (l1 ++ l2))) (fwd n ++ [(T, f)])).
Proof.
  intros [HA HB Hf Hp Hb Hu Hw Hg Hr Hc] E. rewrite E in Hp. rewrite Forall_app, Forall_cons in Hp.
  destruct Hp as (Hp1 & Hp & Hp2). split; unfold reconnections in *; net_cbn; try done.
  - rewrite fmap_app, !Forall_app in *. split_and!; [tauto| |tauto]. apply Forall_singleton. by right; right.
  - by apply Forall_app.
  - sums. destruct (ctl_data f Hp) as [-> _]. change (blen []) with 0. lia.
Qed.

Lemma credit_flush_b n l1 f l2 T :
  credit_ok n -> pend (sideB n) = l1 ++ f :: l2 ->
  credit_ok (set_back (set_B n (set_pend (sideB n) (l1 ++ l2))) (back n ++ [(T, f)])).
Proof.
  intros [HA HB Hf Hp Hb Hu Hw Hg Hr Hc] E. rewrite E in Hb, Hr, Hc. split; unfold reconnections in *; net_cbn; try done.
  - rewrite fmap_app, !Forall_app, !Forall_cons in *. cbn [fmap list_fmap snd]. rewrite Forall_singleton. tauto.
  - sums. lia.
  - sums. lia.
Qed.

Lemma credit_step n n' : credit_ok n -> net_step n n' -> credit_ok n'.
Proof.
  intros H Hs. pose proof (cr_A _ H) as HA. pose proof (cr_B _ H) as HB.
  destruct Hs as [value k s fs Ew Hl E|r s fs Ew E|f T Ew ET|f Ew|err|e p r s fs E| |l1 f l2 T E ET|l1 T f l2 r s fs Eb Hn ET E
    |Hd|T El Hu|e1 e2 r s fs Hd E|l1 T f l2 r s fs Ef Hn ET E|size value s fs E|e p r s fs E|err|e p r s fs E| |l1 f l2 T E ET
    |Hd|T El Hu|e1 e2 r s fs Hd E].
  - by eapply credit_write.
  - pose proof (CloseWrite_ok _ _ _ _ _ HA E) as Hs. apply CloseWrite_effect in E as (Hq & _ & Hf).
    destruct H as [_ _ Hw Hp Hb Hu Hi Hg Hr Hc]. rewrite Ew in Hw, Hc.
    split; unfold reconnections in *; net_cbn; rewrite ?(quiet_inFlight _ _ Hq); try done.
    + rewrite Forall_app in *. split; [tauto|]. destruct Hf as [->| ->]; [constructor|]. apply Forall_singleton. by right; left.
    + destruct Hf as [->| ->]; sums; lia.
  - by apply credit_send.
  - by apply credit_send_fails.
  - rewrite <- add_pend_nil. apply credit_A_quiet; auto using fail_ok. apply (quiet_fail (endA n) err).
  - pose proof (stream_step_ok _ _ HA (do_reset _ _ _ _ _ _ E)). apply Reset_effect in E as (Hq & _ & Hf%plain_abort).
    apply credit_A_quiet; auto using plain_ctl. apply Hq.
  - rewrite add_pend_same. apply credit_A_quiet; auto.
    apply plain_ctl, (plain_one "ping"); [set_solver|by right].
  - by apply credit_flush_a.
  - by eapply credit_receive_a.
  - apply credit_links_a; auto. cbn. lia.
  - apply credit_links_a; auto. cbn [attach_side due used Z.b2z length]. destruct (due (sideA n)); cbn [Z.b2z]; lia.
  - by eapply credit_reconnected_a.
  - by eapply credit_deliver.
  - by eapply credit_read.
  - pose proof (stream_step_ok _ _ HB (do_close _ _ _ _ _ _ E)) as Hs.
    apply Close_effect in E as (Hq & _ & _ & Hf). destruct Hf as [->| ->].
    + apply credit_B_plain; auto using plain_nil, quiet_keeps.
    + apply credit_B_quiet; auto using quiet_keeps. apply Forall_singleton. by left.
  - rewrite <- add_pend_nil. apply credit_B_plain; auto using fail_ok, plain_nil, quiet_keeps with netcat.
  - pose proof (stream_step_ok _ _ HB (do_reset _ _ _ _ _ _ E)). apply Reset_effect in E as (Hq & _ & Hf%plain_abort).
    apply credit_B_plain; auto using quiet_keeps.
  - rewrite add_pend_same. apply credit_B_plain; auto using quiet_keeps with netcat.
    apply (plain_one "ping"); [set_solver|by right].
  - by apply credit_flush_b.
  - apply credit_links_b; auto. cbn. lia.
  - apply credit_links_b; auto. cbn [attach_side due used Z.b2z length]. destruct (due (sideB n)); cbn [Z.b2z]; lia.
  - by eapply credit_reconnected_b.
Qed.

Lemma credit_init : 0 <= M -> credit_ok net_init.
Proof.
  intros HM. unfold flowWindowBytes.
  assert (plain [control "flow:1"]) as Hp by (apply (plain_one "flow:1"); [set_solver|by right]).
  split; unfold net_init, side_init, reconnections; net_cbn; cbn [NewStream fst snd inFlight];
    try done; try (cbn; lia); first [by apply plain_ctl | by apply (ctl_back [control "flow:1"]), plain_ctl | constructor].
Qed.

Lemma reachable_credit n : 0 <= M -> reachable (fun n => n = net_init) net_step n -> credit_ok n.
Proof.
  intros HM. apply invariant; [by intros ? ->; apply credit_init|]. intros s1 s2 _. apply credit_step.
Qed.

(** ** Order *)

(** The part of a log that concerns one transport. *)
Definition on (T : nat) (l : list (nat * list byte)) : list (nat * list byte) := base.filter (fun x => fst x = T) l.
(** The last transport an end attached. *)
Definition latest (d : side) : nat := hd 0%nat (used d).
(** What B may still receive as long as it attaches transports in order. *)
Definition from (T : nat) (l : list (nat * list byte)) : list (nat * list byte) :=
  base.filter (fun x => (T <= fst x)%nat) l.

(** Each end attached its transports in the order in which they were dialed. *)
Definition descending (l : list nat) : Prop := StronglySorted (fun x y => (y < x)%nat) l.
Definition in_order (n : net) : Prop := descending (used (sideA n)) /\ descending (used (sideB n)).

Definition nodata (fs : list Frame) : Prop := Forall (fun f => fr_Type f <> FrameData) fs.

(** No data behind the end-of-stream mark. *)
Fixpoint eof_last (l : list (nat * Frame)) : Prop :=
  match l with
  | [] => True
  | x :: l => (snd x = control "eof" -> logs l = []) /\ eof_last l
  end.

Lemma logs_app l1 l2 : logs (l1 ++ l2) = logs l1 ++ logs l2.
Proof. unfold logs. by rewrite fmap_app, join_app. Qed.
Lemma logs_cons x l : logs (x :: l) = log_of x ++ logs l.
Proof. done. Qed.
Lemma on_app T l1 l2 : on T (l1 ++ l2) = on T l1 ++ on T l2.
Proof. apply list.filter_app. Qed.
Lemma from_app T l1 l2 : from T (l1 ++ l2) = from T l1 ++ from T l2.
Proof. apply list.filter_app. Qed.

Lemma list_filter_empty_iff {A} (P : A -> Prop) `{!forall x, Decision (P x)} l :
  base.filter P l = [] <-> Forall (fun x => ~ P x) l.
Proof.
  induction l as [|x l IH]; [done|]. rewrite list.filter_cons, Forall_cons, <- IH. case_decide; naive_solver.
Qed.

Lemma on_none T l : T ∉ l.*1 -> on T l = [].
Proof.
  intros H. apply list_filter_empty_iff. apply Forall_forall. intros [T' v] Hx E. cbn in E. subst.
  apply H, list_elem_of_fmap. by exists (T, v).
Qed.
Lemma logs_tags T l : T ∈ (logs l).*1 -> T ∈ l.*1.
Proof.
  induction l as [|[T' f] l IH]; [done|]. rewrite logs_cons, fmap_app, elem_of_app. intros [H|H]; [|by right; apply IH].
  unfold log_of in H. cbn [fst snd] in H. case_bool_decide; [|set_solver]. cbn in H. set_solver.
Qed.
Lemma from_none T l : Forall (fun T' => (T' < T)%nat) l.*1 -> from T (logs l) = [].
Proof.
  intros H. apply list_filter_empty_iff, Forall_forall. intros [T' v] Hx. cbn.
  assert (T' ∈ l.*1) as Hin by (apply logs_tags, list_elem_of_fmap; by exists (T', v)).
  rewrite Forall_forall in H. apply H in Hin. lia.
Qed.
Lemma from_le T T' l : (T <= T')%nat -> from T' l `sublist_of` from T l.
Proof.
  intros HT. induction l as [|[U v] l IH]; [done|]. unfold from in *. rewrite !list.filter_cons.
  repeat case_decide; cbn in *; [by constructor|lia|by constructor|done].
Qed.
Lemma on_from T T' l : (T <= T')%nat -> from T l = [] -> on T' l = [].
Proof.
  intros HT H. apply list_filter_empty_iff in H. apply list_filter_empty_iff. eapply Forall_impl; [exact H|].
  intros [U v]; cbn. intros HU ->. lia.
Qed.

Lemma log_data T p : log_of (T, mkFrame FrameData p) = [(T, p)].
Proof. done. Qed.
Lemma log_control T c : log_of (T, control c) = [].
Proof. done. Qed.
Lemma ctl_log T f : ctl_frame f -> log_of (T, f) = [] /\ fr_Type f <> FrameData /\ f <> control "eof".
Proof.
  intros H. destruct (ctl_data f H) as [_ He]. destruct H as [(c & _ & ->)| ->]; done.
Qed.
Lemma nodata_logs T f : fr_Type f <> FrameData -> log_of (T, f) = [].
Proof. intros H. unfold log_of. cbn. by rewrite bool_decide_false. Qed.

Lemma eof_last_nil l : logs l = [] -> eof_last l.
Proof. induction l as [|x l IH]; [done|]. rewrite logs_cons. intros [_ H]%app_nil. simpl. auto. Qed.
Lemma eof_last_snoc l x : eof_last l -> log_of x = [] \/ control "eof" ∉ l.*2 -> eof_last (l ++ [x]).
Proof.
  intros H Hx. induction l as [|y l IH]; [done|]. destruct H as [H1 H2]. cbn [app eof_last]. split.
  - intros Hy. destruct Hx as [Hx|Hx]; [|cbn in Hx; set_solver]. rewrite logs_app, H1 by done. by rewrite logs_cons, Hx.
  - apply IH; [done|]. destruct Hx; [by left|right]. cbn in *. set_solver.
Qed.
Lemma eof_last_remove l1 x l2 : eof_last (l1 ++ x :: l2) -> eof_last (l1 ++ l2).
Proof.
  induction l1 as [|y l1 IH]; [by intros [_ ?]|]. cbn [app eof_last]. intros [H1 H2]. split; [|by apply IH].
  intros Hy. specialize (H1 Hy). rewrite logs_app, logs_cons in H1. rewrite logs_app.
  apply app_nil in H1 as [-> [_ ->]%app_nil]. done.
Qed.
Lemma eof_last_at l1 T l2 : eof_last (l1 ++ (T, control "eof") :: l2) -> logs l2 = [].
Proof. induction l1 as [|y l1 IH]; [intros [H _]; by apply H|]. intros [_ H]. by apply IH. Qed.

(** While B has not failed: B's reads and queue are what arrived; on each transport what arrived and what is
    still on it are what A wrote to it; and what arrived followed by what is on B's last and on later
    transports is a part of A's writes, in their order.  An end-of-stream mark follows all data. *)
Record order_ok (n : net) : Prop := {
  or_linkA T : link (sideA n) = Some T -> head (used (sideA n)) = Some T;
  or_linkB T : link (sideB n) = Some T -> head (used (sideB n)) = Some T;
  or_sorted : StronglySorted le (fwd n).*1;
  or_tags : Forall (fun T => T <= latest (sideA n))%nat (fwd n).*1;
  or_writes : Forall (fun T => T ∈ used (sideA n)) (writes n).*1;
  or_arrived : Forall (fun T => T <= latest (sideB n))%nat (arrived n).*1;
  or_bytes : recvd n ++ unread (endB n) = mjoin (arrived n).*2;
  or_each T : on T (arrived n) ++ on T (logs (fwd n)) = on T (writes n);
  or_sub : arrived n ++ from (latest (sideB n)) (logs (fwd n)) `sublist_of` writes n;
  or_eof : eof_last (fwd n);
  or_closed : control "eof" ∈ (fwd n).*2 -> writeClosed (endA n) = true /\ nodata (writing n);
  or_closing : control "eof" ∈ writing n -> writeClosed (endA n) = true /\ nodata (writing n);
  or_read : closedRead (endB n) = true ->
    writeClosed (endA n) = true /\ nodata (writing n) /\ from (latest (sideB n)) (logs (fwd n)) = [] /\
    exists T, T ∈ used (sideB n) /\ on T (arrived n) = on T (writes n) /\
      forall T', (T < T')%nat -> on T' (writes n) = []
}.

(** Transitions that concern none of this. *)
Lemma order_frame n n' :
  order_ok n ->
  fwd n' = fwd n -> writes n' = writes n -> arrived n' = arrived n -> recvd n' ++ unread (endB n') = recvd n ++ unread (endB n) ->
  used (sideA n') = used (sideA n) -> used (sideB n') = used (sideB n) ->
  (forall T, link (sideA n') = Some T -> link (sideA n) = Some T) ->
  (forall T, link (sideB n') = Some T -> link (sideB n) = Some T) ->
  closedRead (endB n') = closedRead (endB n) -> (writeClosed (endA n) = true -> writeClosed (endA n') = true) ->
  writing n' = writing n \/ writing n' = [] -> order_ok n'.
Proof.
  intros [H1 H2 H3 H4 H5 H6 H7 H8 H9 H10 H11 H12 H13] E1 E2 E3 E4 E5 E6 E7 E8 E9 E10 E11.
  assert (nodata (writing n) -> nodata (writing n')) as Hnd.
  { destruct E11 as [->| ->]; [done|]. intros _. constructor. }
  split; unfold latest in *; rewrite ?E1, ?E2, ?E3, ?E4, ?E5, ?E6, ?E9; try done.
  - intros T HT. apply H1. auto.
  - intros T HT. apply H2. auto.
  - intros [? ?]%H11. auto.
  - intros Hin. destruct E11 as [E|E]; rewrite E in *; [|set_solver]. destruct (H12 Hin). auto.
  - intros (? & ? & ? & ?)%H13. auto.
Qed.

Lemma from_sublist T l : from T l `sublist_of` l.
Proof. apply sublist_filter. Qed.
Lemma head_latest d T : head (used d) = Some T -> latest d = T /\ T ∈ used d.
Proof. unfold latest. destruct (used d); [done|]. intros [= ->]. split; [done|set_solver]. Qed.

(** A sends a frame. *)
Lemma order_append n n' T f :
  order_ok n -> link (sideA n) = Some T ->
  sideA n' = sideA n \/ sideA n' = set_pend (sideA n) (pend (sideA n')) -> sideB n' = sideB n ->
  fwd n' = fwd n ++ [(T, f)] -> writes n' = writes n ++ log_of (T, f) -> arrived n' = arrived n -> recvd n' = recvd n ->
  (fr_Type f = FrameData -> control "eof" ∉ (fwd n).*2 /\ closedRead (endB n) = false) ->
  (f = control "eof" -> writeClosed (endA n) = true /\ nodata (writing n')) ->
  writing n' = writing n \/ writing n' = [] -> order_ok n'.
Proof.
  intros [H1 H2 H3 H4 H5 H6 H7 H8 H9 H10 H11 H12 H13] HT EA EB E1 E2 E3 E4 Hd He Hw.
  assert (used (sideA n') = used (sideA n) /\ link (sideA n') = link (sideA n) /\ endA n' = endA n) as (Eu & El & Es)
    by (unfold endA; destruct EA as [->| ->]; done).
  assert (nodata (writing n) -> nodata (writing n')) as Hnd.
  { destruct Hw as [->| ->]; [done|]. intros _. constructor. }
  destruct (head_latest _ _ (H1 T HT)) as [HL HU].
  assert (log_of (T, f) = [] \/ fr_Type f = FrameData) as Hlog.
  { destruct (decide (fr_Type f = FrameData)); [by right|left]. by apply nodata_logs. }
  split; unfold endB, latest in *; rewrite ?EB, ?E1, ?E2, ?E3, ?E4, ?Eu, ?El, ?Es, ?fmap_app; try done.
  - apply StronglySorted_app_2; [|done|by repeat constructor]. intros x y Hx Hy%list_elem_of_singleton. cbn in Hy. subst y.
    rewrite Forall_forall in H4. rewrite <- HL. by apply H4.
  - apply Forall_app. split; [done|]. apply Forall_singleton. cbn. lia.
  - apply Forall_app. split; [done|]. unfold log_of. cbn. case_bool_decide; [|constructor]. by apply Forall_singleton.
  - intros U. by rewrite logs_app, !on_app, app_assoc, H8, logs_cons, on_app, app_nil_r.
  - rewrite logs_app, from_app, app_assoc. apply sublist_app; [done|]. rewrite logs_cons, app_nil_r. apply from_sublist.
  - apply eof_last_snoc; [done|]. destruct Hlog as [?|Hf]; [by left|right]. by apply Hd.
  - intros [[? ?]%H11|H]%elem_of_app; [auto|]. apply list_elem_of_singleton in H. cbn in H. by apply He.
  - intros Hin. destruct Hw as [E|E]; rewrite E in *; [|set_solver]. auto.
  - intros Hc. destruct (H13 Hc) as (R1 & R2 & R3 & R4).
    destruct Hlog as [Hl|Hf]; [|destruct (Hd Hf); congruence].
    rewrite logs_app, logs_cons, Hl. cbn [app]. rewrite !app_nil_r. auto.
Qed.

(** B receives a frame of its transport. *)
Lemma order_deliver n l1 T f l2 r s fs :
  credit_ok n -> order_ok n -> fwd n = l1 ++ (T, f) :: l2 -> T ∉ l1.*1 -> link (sideB n) = Some T ->
  Receive (endB n) f = (r, s, fs) -> closed s = false ->
  order_ok (add_arrived (set_fwd (set_B n (add_pend (set_stream (sideB n) s) fs)) (l1 ++ l2))
    (if closedRead (endB n) then [] else log_of (T, f))).
Proof.
  intros Hcr [H1 H2 H3 H4 H5 H6 H7 H8 H9 H10 H11 H12 H13] E Hn HT HR Hcl.
  destruct (head_latest _ _ (H2 T HT)) as [HL HU]. rewrite E in *.
  assert (Forall (fun U => (U < T)%nat) l1.*1) as Hlt.
  { rewrite fmap_app, fmap_cons in H3. apply Forall_forall. intros U HUin.
    pose proof (StronglySorted_app_1_elem_of _ _ _ U T H3 HUin (list_elem_of_here _ _)).
    destruct (decide (U = T)) as [->|]; [done|lia]. }
  assert (from T (logs (l1 ++ (T, f) :: l2)) = log_of (T, f) ++ from T (logs (l1 ++ l2))) as Hfrom.
  { rewrite !logs_app, !from_app, (from_none T l1), logs_cons, from_app by done. cbn [app]. f_equal.
    unfold log_of. cbn. case_bool_decide; [|done]. unfold from. rewrite list.filter_cons_True; [done|cbn; lia]. }
  assert (closedRead (endB n) = true -> log_of (T, f) = []) as Hlog.
  { intros Hc. destruct (H13 Hc) as (_ & _ & R & _). rewrite HL, Hfrom in R. by apply app_nil in R as [? _]. }
  assert ((if closedRead (endB n) then [] else log_of (T, f)) = log_of (T, f)) as ->.
  { destruct (closedRead (endB n)); [|done]. by rewrite Hlog. }
  pose proof (Receive_ok _ _ _ _ _ (cr_B _ Hcr) HR) as Hs.
  assert (fwd_frame f) as Hf.
  { pose proof (cr_fwd _ Hcr) as Hf. rewrite E, fmap_app, fmap_cons, !Forall_app, Forall_cons in Hf. by destruct Hf as [(_ & ? & _) _]. }
  (* what the frame does *)
  assert (unread s = unread (endB n) ++ mjoin (log_of (T, f)).*2 /\
    (closedRead s = true -> closedRead (endB n) = true \/ f = control "eof")) as [Hun Hcr'].
  { destruct Hf as [[Ht _]|[->|[Hp| ->]]].
    - destruct f as [t p]; cbn in Ht; subst t. rewrite log_data. apply Receive_data in HR as [-> HR].
      destruct HR as [(Hc' & _ & _ & _ & ->)|[(_ & _ & _ & _ & ->)|(Hd & _ & ->)]].
      + split; [|cbn; auto]. rewrite unread_receive by apply Hcr. cbn. by rewrite app_nil_r.
      + by rewrite fail_closed in Hcl.
      + destruct Hd as [Hd|Hd]; [|congruence]. by specialize (Hlog Hd).
    - rewrite Receive_eof in HR. injection HR as <- <- <-. rewrite log_control. cbn. rewrite app_nil_r. auto.
    - apply Receive_plain in HR as (_ & _ & Hq & Hc); [|done]. specialize (Hc Hcl).
      destruct (ctl_log T f (or_introl Hp)) as (-> & _ & _). cbn. rewrite app_nil_r.
      split; [by apply keeps_unread, quiet_keeps|]. rewrite Hc. auto.
    - rewrite Receive_resume in HR. injection HR as <- <- <-. cbn. rewrite app_nil_r. auto. }
  assert (forall U, on U (log_of (T, f)) ++ on U (logs (l1 ++ l2)) = on U (logs (l1 ++ (T, f) :: l2))) as Hon.
  { intros U. rewrite !logs_app, logs_cons, !on_app. destruct (decide (U = T)) as [->|HUT].
    - rewrite (on_none T (logs l1)); [done|]. intros Hin%logs_tags. done.
    - rewrite (on_none U (log_of (T, f))); [done|]. unfold log_of. cbn. case_bool_decide; cbn; set_solver. }
  split; unfold endA, endB, latest in *; net_cbn; try done.
  - rewrite fmap_app, fmap_cons, StronglySorted_app, StronglySorted_cons in H3. destruct H3 as (S1 & S2 & _ & S3).
    rewrite fmap_app. apply StronglySorted_app_2; [|done..]. intros x y Hx Hy. apply S1; [done|by right].
  - rewrite fmap_app, ?fmap_cons, ?Forall_app, ?Forall_cons in *. tauto.
  - rewrite fmap_app, Forall_app. split; [done|]. unfold log_of. cbn. case_bool_decide; [|constructor].
    apply Forall_singleton. cbn. lia.
  - rewrite Hun, app_assoc, H7, fmap_app, join_app. done.
  - intros U. rewrite on_app, <- app_assoc, Hon. apply H8.
  - rewrite HL in H9. by rewrite <- app_assoc, HL, <- Hfrom.
  - by eapply eof_last_remove.
  - intros Hin. apply H11. rewrite fmap_app, fmap_cons in *. set_solver.
  - intros Hc'. destruct (Hcr' Hc') as [Hc|Hc].
    + destruct (H13 Hc) as (R1 & R2 & R3 & R4). rewrite HL, Hfrom in R3. apply app_nil in R3 as [Hl R3].
      rewrite HL, Hl, app_nil_r. auto.
    + subst f. destruct H11 as [W1 W2]; [rewrite fmap_app, fmap_cons; set_solver|]. split_and!; [done..| |].
      * rewrite HL, logs_app, (eof_last_at _ _ _ H10), app_nil_r. by apply from_none.
      * exists T. rewrite log_control, app_nil_r. split_and!; [done| |].
        -- rewrite <- H8, <- Hon, log_control. cbn [app]. rewrite logs_app, (eof_last_at _ _ _ H10), app_nil_r.
           rewrite (on_none T (logs l1)), app_nil_r; [done|]. intros Hin%logs_tags. done.
        -- intros U HUT. rewrite <- H8, <- Hon, log_control. cbn [app].
           rewrite logs_app, (eof_last_at _ _ _ H10), app_nil_r.
           rewrite (on_none U (arrived n)), (on_none U (logs l1)); [done| |].
           ++ intros Hin%logs_tags. rewrite Forall_forall in Hlt. apply Hlt in Hin. lia.
           ++ intros Hin. rewrite Forall_forall in H6. apply H6 in Hin. lia.
Qed.

(** ** The whole system *)

Lemma Receive_writeClosed s f r s' fs :
  back_frame f -> Receive s f = (r, s', fs) -> writeClosed s = true -> writeClosed s' = true.
Proof.
  intros Hf HR Hw. destruct Hf as [->|[[Hp| ->]|(k & Hk & ->)]].
  - rewrite Receive_eof in HR. by injection HR as <- <- <-.
  - apply Receive_plain in HR as (_ & _ & Hq & _); [|done]. by apply Hq.
  - rewrite Receive_resume in HR. by injection HR as <- <- <-.
  - rewrite Receive_ack in HR by done. injection HR as <- <- <-. by destruct (0 <? k).
Qed.

(** A state in which the order counts: B has not failed and both ends attached in order. *)
Definition live (n : net) : Prop := closed (endB n) = false /\ in_order n.

Lemma descending_tail T l : descending (T :: l) -> descending l /\ (hd 0 l <= T)%nat.
Proof.
  intros [Hl Hd]%StronglySorted_inv. split; [done|]. destruct l as [|U l]; cbn; [lia|]. apply Forall_inv in Hd. lia.
Qed.

Lemma live_before n n' : net_step n n' -> live n' -> live n.
Proof.
  intros Hs [Hc [HA HB]]. assert (closed (endB n) = true -> closed (endB n') = true) as Hm.
  { intros Ht. destruct Hs as [| | | | | | | | | | | |l1 T f l2 r s fs Ef Hn ET E|size value s fs E|e p r s fs E|err|e p r s fs E| | | | |
      e1 e2 r s fs Hd E]; net_cbn; try done; try (by case_bool_decide).
    - unfold Receive, receiveControl in E. repeat case_match; simplify_eq; cbn; try done; unfold fail; by rewrite Ht.
    - unfold Read in E. repeat case_match; simplify_eq; done.
    - by apply Close_effect in E as (_ & _ & ? & _).
    - apply fail_closed.
    - by apply Reset_effect in E as (_ & ? & _).
    - apply Reconnected_effect in E as (-> & _). done. }
  split.
  { destruct (closed (endB n)); [|done]. by rewrite Hm in Hc. }
  destruct Hs; net_cbn; try done; try (by case_bool_decide).
  - split; [|done]. by apply descending_tail in HA as [? _].
  - split; [done|]. by apply descending_tail in HB as [? _].
Qed.

Lemma order_attach_a n T :
  order_ok n -> in_order (set_A n (attach_side (sideA n) T)) -> order_ok (set_A n (attach_side (sideA n) T)).
Proof.
  intros [H1 H2 H3 H4 H5 H6 H7 H8 H9 H10 H11 H12 H13] [[_ Hle]%descending_tail _]. split; unfold latest in *; net_cbn; try done.
  - eapply Forall_impl; [exact H4|]. cbn. lia.
  - eapply Forall_impl; [exact H5|]. cbn. set_solver.
Qed.

Lemma order_attach_b n T :
  order_ok n -> in_order (set_B n (attach_side (sideB n) T)) -> order_ok (set_B n (attach_side (sideB n) T)).
Proof.
  intros [H1 H2 H3 H4 H5 H6 H7 H8 H9 H10 H11 H12 H13] [_ [_ Hle]%descending_tail].
  split; unfold latest in *; net_cbn; cbn [hd]; try done.
  - eapply Forall_impl; [exact H6|]. cbn. lia.
  - etrans; [|exact H9]. apply sublist_app; [done|]. by apply from_le.
  - intros (R1 & R2 & R3 & U & R4 & R5)%H13. split_and!; [done..| |].
    + apply sublist_nil_r. rewrite <- R3. by apply from_le.
    + exists U. split; [by right|done].
Qed.

Lemma order_step n n' : credit_ok n -> (live n -> order_ok n) -> net_step n n' -> live n' -> order_ok n'.
Proof.
  intros Hcr Ho Hs Hlive. pose proof (live_before _ _ Hs Hlive) as Hl. specialize (Ho Hl). destruct Hlive as [Hcl Hin].
  pose proof (cr_A _ Hcr) as HA. pose proof (cr_B _ Hcr) as HB.
  destruct Hs as [value k s fs Ew Hv E|r s fs Ew E|f T Ew ET|f Ew|err|e p r s fs E| |l1 f l2 T E ET|l1 T f l2 r s fs Eb Hn ET E
    |Hd|T El Hu|e1 e2 r s fs Hd E|l1 T f l2 r s fs Ef Hn ET E|size value s fs E|e p r s fs E|err|e p r s fs E| |l1 f l2 T E ET
    |Hd|T El Hu|e1 e2 r s fs Hd E].
  - apply Write_sent in E as (-> & Hwc & _ & Hwc' & _). destruct Ho as [H1 H2 H3 H4 H5 H6 H7 H8 H9 H10 H11 H12 H13].
    split; net_cbn; try done.
    + intros [? _]%H11. congruence.
    + intros Hx%list_elem_of_singleton. discriminate.
    + intros [? _]%H13. congruence.
  - apply CloseWrite_effect in E as (Hq & Hw & Hf). destruct Ho as [H1 H2 H3 H4 H5 H6 H7 H8 H9 H10 H11 H12 H13].
    assert (nodata fs) by (destruct Hf as [->| ->]; repeat constructor; done).
    split; net_cbn; try done. intros (R1 & R2 & R3)%H13. done.
  - eapply (order_append n _ T f Ho ET); try done; [by left|..]; [| |by right].
    + intros Hf. split.
      * intros [_ Hx]%(or_closed _ Ho). rewrite Ew in Hx. by apply Forall_inv in Hx.
      * destruct (closedRead (endB n)) eqn:Ec; [|done]. apply (or_read _ Ho) in Ec as (_ & Hx & _). rewrite Ew in Hx. by apply Forall_inv in Hx.
    + intros ->. destruct (or_closing _ Ho) as [? _]; [rewrite Ew; set_solver|]. split; [done|constructor].
  - eapply order_frame; eauto. net_cbn. by case_bool_decide.
  - eapply order_frame; eauto. apply (quiet_fail (endA n) err).
  - apply Reset_effect in E as (Hq & _ & _). eapply order_frame; eauto. apply Hq.
  - eapply order_frame; eauto.
  - assert (ctl_frame f) as Hc.
    { pose proof (cr_pendA _ Hcr) as Hp. rewrite E, Forall_app, Forall_cons in Hp. tauto. }
    destruct (ctl_log T f Hc) as (Hlog & Hnd & Hne).
    eapply (order_append n _ T f Ho ET); try done; [by right| |by left]. rewrite Hlog. by rewrite app_nil_r.
  - assert (back_frame f) as Hb.
    { pose proof (cr_back _ Hcr) as Hp. rewrite Eb, fmap_app, fmap_cons, !Forall_app, Forall_cons in Hp. by destruct Hp as [(_ & ? & _) _]. }
    pose proof (Receive_writeClosed _ _ _ _ _ Hb E). case_bool_decide; eapply order_frame; eauto.
  - eapply order_frame; eauto. done.
  - by apply order_attach_a.
  - apply Reconnected_effect in E as (-> & _). eapply order_frame; eauto.
  - by eapply order_deliver.
  - apply Read_effect in E as (Hu & _ & Hc & _); [|done]. eapply order_frame; eauto. net_cbn. by rewrite <- app_assoc, Hu.
  - apply Close_effect in E as (_ & _ & ? & _). net_cbn. congruence.
  - net_cbn. by rewrite fail_closed in Hcl.
  - apply Reset_effect in E as (_ & ? & _). net_cbn. congruence.
  - eapply order_frame; eauto.
  - eapply order_frame; eauto.
  - eapply order_frame; eauto. done.
  - by apply order_attach_b.
  - apply Reconnected_effect in E as (-> & _). eapply order_frame; eauto.
Qed.

Lemma reachable_order n :
  0 <= M -> reachable (fun n => n = net_init) net_step n -> credit_ok n /\ (live n -> order_ok n).
Proof.
  intros HM. apply (invariant _ _ (fun n => credit_ok n /\ (live n -> order_ok n))).
  - intros ? ->. split; [by apply credit_init|]. intros _.
    split; unfold net_init, side_init, latest; net_cbn; cbn; try done; try constructor; set_solver.
  - intros s1 s2 _ [H1 H2] Hs. split; [by eapply credit_step|by eapply order_step].
Qed.

(** ** No credit is lost *)

Definition outstanding (n : net) : Z :=
  blen (data (fwd n).*2) + blen (data (writing n)) + readQueued (endB n) + acks (back n).*2 + acks (pend (sideB n)).

Lemma outstanding_receive_a n l1 T f l2 r s fs :
  credit_ok n -> inFlight (endA n) <= outstanding n -> back n = l1 ++ (T, f) :: l2 -> Receive (endA n) f = (r, s, fs) ->
  inFlight s <= outstanding n - ack_value f.
Proof.
  intros Hcr H E HR. assert (back_frame f) as Hb.
  { pose proof (cr_back _ Hcr) as Hp. rewrite E, fmap_app, fmap_cons, !Forall_app, Forall_cons in Hp. by destruct Hp as [(_ & ? & _) _]. }
  assert (ack_value f <= outstanding n) as Hle.
  { unfold outstanding. rewrite E. sums. pose proof (acks_nonneg l1.*2). pose proof (acks_nonneg l2.*2).
    pose proof (acks_nonneg (pend (sideB n))). pose proof (blen_nonneg (data (fwd n).*2)). pose proof (blen_nonneg (data (writing n))).
    pose proof (ok_queued _ (cr_B _ Hcr)). pose proof (sum_len_nonneg (readQueue (endB n))). lia. }
  destruct Hb as [->|[[Hp| ->]|(k & Hk & ->)]].
  - rewrite Receive_eof in HR. injection HR as <- <- <-. change (ack_value (control "eof")) with 0. cbn [inFlight set_closedRead]. lia.
  - destruct (plain_values f Hp) as (_ & -> & _). apply Receive_plain in HR as (_ & _ & Hq & _); [|done].
    rewrite (quiet_inFlight _ _ Hq). lia.
  - rewrite Receive_resume in HR. injection HR as <- <- <-. cbn [inFlight set_inFlight]. lia.
  - rewrite Receive_ack in HR by done. injection HR as <- <- <-. rewrite ack_value_frame in * by done.
    destruct (Z.ltb_spec 0 k); [|lia]. unfold acknowledge, set_inFlight; cbn [inFlight].
    destruct (Z.ltb_spec (inFlight (endA n) - k) 0); lia.
Qed.

Lemma outstanding_deliver n l1 T f l2 r s fs :
  credit_ok n -> order_ok n -> fwd n = l1 ++ (T, f) :: l2 -> T ∉ l1.*1 -> link (sideB n) = Some T ->
  Receive (endB n) f = (r, s, fs) -> closed s = false ->
  readQueued s = readQueued (endB n) + blen (data_of f) /\ acks fs = 0.
Proof.
  intros Hcr Ho E Hn HT HR Hcl. assert (fwd_frame f) as Hf.
  { pose proof (cr_fwd _ Hcr) as Hf. rewrite E, fmap_app, fmap_cons, !Forall_app, Forall_cons in Hf. by destruct Hf as [(_ & ? & _) _]. }
  destruct Hf as [[Ht _]|[->|[Hp| ->]]].
  - destruct f as [t p]; cbn in Ht; subst t. apply Receive_data in HR as [-> HR]. split; [|done].
    change (data_of (mkFrame FrameData p)) with p.
    destruct HR as [(_ & _ & _ & _ & ->)|[(_ & _ & _ & _ & ->)|(Hd & _ & ->)]]; [done|by rewrite fail_closed in Hcl|].
    destruct Hd as [Hd|Hd]; [|congruence]. destruct (or_read _ Ho Hd) as (_ & _ & R & _).
    destruct (head_latest _ _ (or_linkB _ Ho _ HT)) as [HL _]. rewrite HL, E, logs_app, from_app, logs_cons, log_data in R.
    apply app_nil in R as [_ R]. unfold from in R. cbn [app] in R. rewrite list.filter_cons_True in R; [done|cbn; lia].
  - rewrite Receive_eof in HR. injection HR as <- <- <-. change (blen (data_of (control "eof"))) with 0.
    cbn [readQueued set_closedRead]. split; [lia|done].
  - destruct (plain_values f Hp) as (-> & _). apply Receive_plain in HR as (_ & Hpl & Hq & _); [|done].
    rewrite (quiet_queued _ _ Hq). change (blen []) with 0. split; [lia|]. by apply plain_sums.
  - rewrite Receive_resume in HR. injection HR as <- <- <-. change (blen (data_of resume_frame)) with 0.
    cbn [readQueued set_inFlight]. split; [lia|done].
Qed.

Lemma outstanding_step n n' :
  credit_ok n -> (live n -> order_ok n) -> (live n -> inFlight (endA n) <= outstanding n) -> net_step n n' ->
  live n' -> inFlight (endA n') <= outstanding n'.
Proof.
  intros Hcr Ho Hc Hs Hlive. pose proof (live_before _ _ Hs Hlive) as Hl. specialize (Ho Hl). specialize (Hc Hl).
  destruct Hlive as [Hcl _]. pose proof (cr_A _ Hcr) as HA. pose proof (cr_B _ Hcr) as HB.
  destruct Hs as [value k s fs Ew Hv E|r s fs Ew E|f T Ew ET|f Ew|err|e p r s fs E| |l1 f l2 T E ET|l1 T f l2 r s fs Eb Hn ET E
    |Hd|T El Hu|e1 e2 r s fs Hd E|l1 T f l2 r s fs Ef Hn ET E|size value s fs E|e p r s fs E|err|e p r s fs E| |l1 f l2 T E ET
    |Hd|T El Hu|e1 e2 r s fs Hd E]; try done.
  - apply Write_sent in E as (-> & _ & _ & _ & Hi & _). unfold outstanding in *; net_cbn. rewrite Ew in Hc.
    rewrite Hi. change (data [mkFrame FrameData value]) with (value ++ []). rewrite app_nil_r. change (blen (data [])) with 0 in Hc.
    pose proof (blen_nonneg value). destruct (flowEnabled _); lia.
  - apply CloseWrite_effect in E as (Hq & _ & Hf). unfold outstanding in *; net_cbn. rewrite (quiet_inFlight _ _ Hq).
    rewrite Ew in Hc. destruct Hf as [->| ->]; sums; lia.
  - unfold outstanding in *; net_cbn. rewrite Ew in Hc. sums. lia.
  - unfold outstanding in *; net_cbn. rewrite Ew in Hc. rewrite data_cons, app_nil_r in Hc. unfold data_of in Hc.
    pose proof (blen_nonneg (data (fwd n).*2)). pose proof (acks_nonneg (back n).*2). pose proof (acks_nonneg (pend (sideB n))).
    pose proof (ok_queued _ HB). pose proof (sum_len_nonneg (readQueue (stream (sideB n)))). sums.
    case_bool_decide; unfold acknowledge, set_inFlight; cbn [inFlight];
      [destruct (Z.ltb_spec (inFlight (stream (sideA n)) - blen (fr_Payload f)) 0)|]; sums; lia.
  - net_cbn. by rewrite (quiet_inFlight _ _ (quiet_fail _ _)).
  - apply Reset_effect in E as (Hq & _). net_cbn. by rewrite (quiet_inFlight _ _ Hq).
  - unfold outstanding in *; net_cbn. sums. pose proof (blen_nonneg (data_of f)). lia.
  - pose proof (outstanding_receive_a _ _ _ _ _ _ _ _ Hcr Hc Eb E) as Hs. unfold outstanding in *; net_cbn.
    case_bool_decide; net_cbn; rewrite Eb in Hs; sums; lia.
  - apply Reconnected_effect in E as (-> & _). unfold outstanding in *; net_cbn. cbn [inFlight set_inFlight].
    pose proof (ok_inFlight _ HA). lia.
  - destruct (outstanding_deliver _ _ _ _ _ _ _ _ Hcr Ho Ef Hn ET E Hcl) as [Hq Ha]. unfold outstanding in *; net_cbn.
    rewrite Ef in Hc. sums. lia.
  - apply Read_effect in E as (_ & _ & _ & _ & _ & HR); [|done]. unfold outstanding in *; net_cbn.
    destruct HR as [[-> Hq]|(k & Hk & -> & Hq)]; rewrite Hq; sums; [lia|]. fold (ack_frame k). rewrite ack_value_frame by done. lia.
  - apply Close_effect in E as (_ & _ & ? & _). net_cbn. congruence.
  - net_cbn. by rewrite fail_closed in Hcl.
  - apply Reset_effect in E as (_ & ? & _). net_cbn. congruence.
  - unfold outstanding in *; net_cbn. sums. change (ack_value (control "ping")) with 0. lia.
  - unfold outstanding in *; net_cbn. rewrite E in Hc. sums. lia.
  - apply Reconnected_effect in E as (-> & _ & Ha & _). unfold outstanding in *; net_cbn. sums. cbn [readQueued set_inFlight]. lia.
Qed.

Lemma reachable_live n :
  0 <= M -> reachable (fun n => n = net_init) net_step n ->
  credit_ok n /\ (live n -> order_ok n /\ inFlight (endA n) <= outstanding n).
Proof.
  intros HM Hn. enough (credit_ok n /\ (live n -> order_ok n) /\ (live n -> inFlight (endA n) <= outstanding n)) by naive_solver.
  revert n Hn. apply (invariant _ _ (fun n => credit_ok n /\ (live n -> order_ok n) /\ (live n -> inFlight (endA n) <= outstanding n))).
  - intros ? ->. destruct (reachable_order net_init HM) as [? ?]; [by apply reach_init|]. split_and!; [done..|by vm_compute].
  - intros s1 s2 _ (H1 & H2 & H3) Hs. split_and!; [by eapply credit_step|by eapply order_step|by eapply outstanding_step].
Qed.


(** C11: flow control protects the receiver, up to reconnections.  Suppose writes are of at most [M] bytes.  Each
    time one of the ends attaches another transport, the counter of bytes in flight is reset although the
    receiver keeps its queue.  If the bytes A wrote before it knew of flow control and one window (or one
    oversized write), counted once and once more for each such reconnection of an end, fit the receive queue, then B
    refuses no frame that A's end has sent. *)
Theorem flow_control_no_overflow n l1 T f l2 :
  0 <= M -> reachable (fun n => n = net_init) net_step n -> fwd n = l1 ++ (T, f) :: l2 ->
  uncounted n + (1 + reconnections n) * Z.max flowWindowBytes M <= maxReadQueueBytes ->
  fst (fst (Receive (endB n) f)) = None.
Proof.
  intros HM Hn E Hfit. destruct (reachable_credit n HM Hn) as [HA HB Hf Hp Hb Hu Hw Hg Hr Hc].
  rewrite E in Hf, Hc. rewrite fmap_app, fmap_cons, !Forall_app, Forall_cons in Hf. cbn [snd] in Hf.
  destruct Hf as [(_ & [[Ht _]|[->|[Hpl| ->]]] & _) _]; [| |by destruct (Receive (endB n) f) as [[r s] fs] eqn:ER;
    apply Receive_plain in ER as (-> & _)|]; [|by rewrite Receive_eof|by rewrite Receive_resume].
  destruct f as [t p]; cbn in Ht; subst t.
  destruct (Receive (endB n) (mkFrame FrameData p)) as [[r b] fs] eqn:ER. cbn [fst].
  apply Receive_data in ER as [_ [(_ & _ & _ & -> & _)|[(_ & _ & Hov & _ & _)|(_ & -> & _)]]]; [done| |done].
  exfalso. sums. change (data_of (mkFrame FrameData p)) with p in Hc.
  assert (resets n <= reconnections n) as Hrr.
  { pose proof (resumes_nonneg (back n).*2). pose proof (resumes_nonneg (pend (sideB n))).
    destruct (due (sideA n)), (due (sideB n)); cbn [Z.b2z] in Hr; lia. }
  pose proof (blen_nonneg (data l1.*2)). pose proof (blen_nonneg (data l2.*2)). pose proof (blen_nonneg (data (writing n))).
  pose proof (acks_nonneg (back n).*2). pose proof (acks_nonneg (pend (sideB n))).
  assert (0 <= Z.max flowWindowBytes M) by lia. set (W := Z.max flowWindowBytes M) in *. nia.
Qed.

(** Flow control never starves the writer.  While B has not failed and there was no reconnection, a write
    that waits for credit waits for bytes that are still in the channel, in B's queue or in an
    acknowledgement on its way: credit is never lost, so draining these unblocks it. *)
Theorem flow_control_no_lost_credit n value e :
  0 <= M -> reachable (fun n => n = net_init) net_step n -> closed (endB n) = false ->
  used (sideA n) = [0%nat] -> used (sideB n) = [0%nat] -> writing n = [] ->
  Write (endA n) value e = None ->
  data (fwd n).*2 <> [] \/ readQueue (endB n) <> [] \/ 0 < acks (back n).*2 \/ 0 < acks (pend (sideB n)).
Proof.
  intros HM Hn Hc HuA HuB Hwr HW. destruct (reachable_live n HM Hn) as [Hcr Hl].
  destruct Hl as [_ Hl]; [split; [done|]; split; [rewrite HuA|rewrite HuB]; repeat constructor|].
  assert (0 < inFlight (endA n)) as Hi.
  { unfold Write in HW. destruct (writeClosed _ || closed _); [done|].
    destruct (flowEnabled (endA n)); [|by destruct e]. cbn [andb] in HW.
    destruct (Z.ltb_spec 0 (inFlight (endA n))); [done|]. by destruct e. }
  unfold outstanding in Hl. rewrite Hwr in Hl. pose proof (ok_queued _ (cr_B _ Hcr)) as Hq.
  pose proof (acks_nonneg (back n).*2). pose proof (acks_nonneg (pend (sideB n))). change (blen (data [])) with 0 in Hl.
  destruct (data (fwd n).*2) as [|x d]; [|by left]. destruct (readQueue (endB n)) as [|c q]; [|by right; left].
  change (blen []) with 0 in Hl. change (sum_len []) with 0 in Hq. lia.
Qed.
End system.

(** ** Reconnections defeat flow control *)

(** B's announcement of flow control has reached A. *)
Definition flushed : net := set_back (set_B net_init (set_pend (sideB net_init) [])) [(0%nat, control "flow:1")].
Definition announced : net :=
  set_back (set_A flushed (add_pend (set_stream (sideA flushed) (set_flowEnabled (endA flushed))) [])) [].

Lemma announced_reachable M : reachable (fun n => n = net_init) (net_step M) announced.
Proof.
  apply (reach_step _ _ flushed); [apply (reach_step _ _ net_init); [by apply reach_init|]|].
  - exact (net_flush_b _ net_init [] (control "flow:1") [] 0 eq_refl eq_refl).
  - refine (net_receive_a _ flushed [] 0 (control "flow:1") [] None _ [] eq_refl _ eq_refl eq_refl). apply not_elem_of_nil.
Qed.

(** The transports up to [T], the last one first. *)
Fixpoint down (T : nat) : list nat := match T with O => [O] | S k => T :: down k end.
Lemma down_le T U : U ∈ down T -> (U <= T)%nat.
Proof. induction T as [|T IH]; cbn [down]; [intros ?%list_elem_of_singleton; lia|]. intros [->|H%IH]%elem_of_cons; lia. Qed.
Lemma down_descending T : descending (down T).
Proof.
  induction T as [|T IH]; [repeat constructor|]. constructor; [done|]. apply Forall_forall. intros U H%down_le. lia.
Qed.
Lemma down_length T : length (down T) = S T.
Proof. induction T as [|T IH]; [done|]. cbn. by rewrite IH. Qed.

Section overflow.
Variable v : list byte.
Hypothesis Hv : blen v = flowWindowBytes.
Local Notation full := (mkFrame FrameData v).
Local Notation W := flowWindowBytes.

(** Both ends on a transport with nothing in flight and [q] bytes in B's queue. *)
Record ready (n : net) (T : nat) (q : Z) : Prop := {
  rd_reach : reachable (fun n => n = net_init) (net_step W) n;
  rd_writing : writing n = [];
  rd_fwd : fwd n = [];
  rd_links : link (sideA n) = Some T /\ link (sideB n) = Some T;
  rd_due : due (sideA n) = false /\ due (sideB n) = false;
  rd_used : used (sideA n) = down T /\ used (sideB n) = down T;
  rd_uncounted : uncounted n = 0;
  rd_A : writeClosed (endA n) = false /\ closed (endA n) = false /\ flowEnabled (endA n) = true /\ inFlight (endA n) = 0;
  rd_B : closedRead (endB n) = false /\ closed (endB n) = false /\ readQueued (endB n) = q
}.

(** A writes a whole window. *)
Definition reserved (n : net) : net :=
  add_uncounted (set_writing (set_A n (set_stream (sideA n) (set_inFlight (endA n) W))) [full]) 0.
Definition filled (n : net) (T : nat) : net :=
  add_writes (set_writing (set_fwd (reserved n) (fwd n ++ [(T, full)])) []) [(T, v)].

Lemma filled_reachable n T q : ready n T q -> reachable (fun n => n = net_init) (net_step W) (filled n T).
Proof.
  intros [Hr Hw Hf [HA HB] Hd Hu _ (Hwc & Hc & Hfl & Hi) Hb].
  assert (Write (endA n) v None = Some (Ok W, set_inFlight (endA n) W, [full])) as HW.
  { unfold Write. rewrite Hwc, Hc, Hfl, Hi, Hv. reflexivity. }
  pose proof (net_write W n v _ _ _ Hw ltac:(lia) HW) as H. rewrite Hfl in H.
  pose proof (reach_step _ _ _ _ Hr H) as H1. exact (reach_step _ _ _ _ H1 (net_send W (reserved n) full T eq_refl HA)).
Qed.

Lemma filled_Receive n T q : ready n T q -> W + q <= maxReadQueueBytes ->
  Receive (endB n) full = (None, set_queue (endB n) (readQueue (endB n) ++ [v]) (q + W) (readOffset (endB n)), []).
Proof.
  intros [_ _ _ _ _ _ _ _ (Hr & Hc & Hq)] Hle. unfold Receive. cbn [fr_Type fr_Payload]. rewrite bool_decide_true by done.
  rewrite Hr, Hc, Hq, Hv. cbn [negb andb]. destruct (Z.ltb_spec (maxReadQueueBytes - q) W); [lia|done].
Qed.

(** The window arrives, then both ends move to another transport. *)
Lemma ready_round n T q : ready n T q -> W + q <= maxReadQueueBytes -> exists n', ready n' (S T) (q + W).
Proof.
  intros H Hle. pose proof (filled_reachable n T q H) as Hf. pose proof (filled_Receive n T q H Hle) as HR.
  destruct H as [Hr Hw Ef [HA HB] [HdA HdB] [HuA HuB] Hun (Hwc & Hc & Hfl & Hi) (Hcr & Hcb & Hq)].
  assert (S T ∉ used (sideA n) /\ S T ∉ used (sideB n)) as [HnA HnB].
  { rewrite HuA, HuB. split; intros Hin%down_le; lia. }
  assert (fwd (filled n T) = [] ++ (T, full) :: []) as Ef' by (cbn; by rewrite Ef).
  eassert (reachable _ _ _) as H1 by (apply (reach_step _ _ _ _ Hf); by eapply (net_deliver W (filled n T) [] T full [] None _ [] Ef' (not_elem_of_nil _) HB HR)).
  eassert (reachable _ _ _) as H2 by (apply (reach_step _ _ _ _ H1); by eapply net_detach_a).
  eassert (reachable _ _ _) as H3 by (apply (reach_step _ _ _ _ H2); by eapply (net_attach_a W _ (S T))).
  eassert (reachable _ _ _) as H4 by (apply (reach_step _ _ _ _ H3); by eapply (net_reconnected_a W _ None None None)).
  eassert (reachable _ _ _) as H5 by (apply (reach_step _ _ _ _ H4); by eapply net_detach_b).
  eassert (reachable _ _ _) as H6 by (apply (reach_step _ _ _ _ H5); by eapply (net_attach_b W _ (S T))).
  eassert (reachable _ _ _) as H7 by (apply (reach_step _ _ _ _ H6); by eapply (net_reconnected_b W _ None None None)).
  eexists. split; [exact H7|..]; unfold endA, endB in *; cbn; rewrite ?HuA, ?HuB; try done. lia.
Qed.

Lemma ready_rounds k n : ready n 0 0 -> Z.of_nat k * W <= maxReadQueueBytes -> exists n', ready n' k (Z.of_nat k * W).
Proof.
  intros Hn. induction k as [|k IH]; intros Hk; [by exists n|].
  assert (0 <= W) by done. assert (Z.of_nat (S k) * W = Z.of_nat k * W + W) as E by lia. rewrite E in *.
  destruct IH as [n' Hn']; [lia|]. destruct (ready_round n' k _ Hn') as [m Hm]; [lia|]. by exists m.
Qed.

Lemma overflow_run :
  exists n, reachable (fun n => n = net_init) (net_step W) n /\ reconnections n = 8 /\ in_order n /\
    closed (endB n) = false /\ uncounted n = 0 /\
    exists T, fwd n = [(T, full)] /\ link (sideB n) = Some T /\
      Receive (endB n) full = (Some errQueueFull, fail (endB n) errQueueFull, []).
Proof.
  assert (ready announced 0 0) as H0 by (split; [apply announced_reachable|done..]).
  destruct (ready_rounds 4 announced H0) as [n Hn]; [by vm_compute|]. exists (filled n 4).
  pose proof (filled_reachable _ _ _ Hn) as Hf.
  destruct Hn as [Hr Hw Ef [HA HB] [HdA HdB] [HuA HuB] Hun (Hwc & Hc & Hfl & Hi) (Hcr & Hcb & Hq)].
  split_and!; [done| | |done| |].
  - unfold reconnections; cbn. rewrite HuA, HuB, !down_length. done.
  - split; cbn; rewrite ?HuA, ?HuB; apply down_descending.
  - cbn. lia.
  - exists 4%nat. split_and!; [cbn; by rewrite Ef|done|]. change (endB (filled n 4)) with (endB n). unfold Receive.
    cbn [fr_Type fr_Payload]. rewrite bool_decide_true by done. rewrite Hcr, Hcb, Hq, Hv. reflexivity.
Qed.
End overflow.

(** After four reconnections of both ends during which B does not read, a frame that A sent with the permission of
    its flow control is refused, and the stream fails. *)
Theorem reconnect_overflow :
  exists n v, reachable (fun n => n = net_init) (net_step flowWindowBytes) n /\ reconnections n = 8 /\ in_order n /\
    closed (endB n) = false /\ uncounted n = 0 /\
    exists T, fwd n = [(T, mkFrame FrameData v)] /\ link (sideB n) = Some T /\
      Receive (endB n) (mkFrame FrameData v) = (Some errQueueFull, fail (endB n) errQueueFull, []).
Proof.
  assert (blen (replicate (Z.to_nat flowWindowBytes) x00) = flowWindowBytes) as Hv.
  { unfold blen. rewrite length_replicate. by rewrite Z2Nat.id. }
  destruct (overflow_run _ Hv) as [n Hn]. eauto.
Qed.

(** ** Witnesses *)

Module FlowWitness.
Definition ab : list byte := [x61; x62].
Definition cd : list byte := [x63; x64].
Definition ef : list byte := [x65; x66].
Definition frame (v : list byte) : Frame := mkFrame FrameData v.

(** B's announcement reaches A, which writes twice; B receives the first write.  The second is lost with the
    transport; both ends reconnect, and a third write arrives. *)
Definition n2 : net := announced.
Definition wrote (n : net) (v : list byte) (k : Z) : net :=
  add_uncounted (set_writing (set_A n (set_stream (sideA n) (set_inFlight (endA n) k))) [frame v]) 0.
Definition sent (n : net) (T : nat) (v : list byte) : net :=
  add_writes (set_writing (set_fwd n (fwd n ++ [(T, frame v)])) []) [(T, v)].
Definition n3 : net := Eval vm_compute in sent (wrote n2 ab 2) 0 ab.
Definition got (n : net) (T : nat) (l : list (nat * Frame)) (v : list byte) : net :=
  add_arrived (set_fwd (set_B n (add_pend (set_stream (sideB n)
    (set_queue (endB n) (readQueue (endB n) ++ [v]) (readQueued (endB n) + blen v) (readOffset (endB n)))) [])) l) [(T, v)].
Definition n4 : net := Eval vm_compute in got n3 0 [] ab.
Definition n5 : net := Eval vm_compute in sent (wrote n4 cd 4) 0 cd.
Definition n6 : net := Eval vm_compute in set_A n5 (detach_side (sideA n5)).
Definition n7 : net := Eval vm_compute in set_A n6 (attach_side (sideA n6) 1).
Definition n8 : net := Eval vm_compute in
  set_A (count_reset n7) (undue (add_pend (set_stream (sideA n7) (set_inFlight (endA n7) 0)) [control "resume"; control "flow:1"])).
Definition n9 : net := Eval vm_compute in set_B n8 (detach_side (sideB n8)).
Definition n10 : net := Eval vm_compute in set_B n9 (attach_side (sideB n9) 1).
Definition n11 : net := Eval vm_compute in sent (wrote n10 ef 2) 1 ef.

Local Notation reached := (reachable (fun n => n = net_init) (net_step 65536)).

Lemma write_send_reached n T v k :
  reached n -> writing n = [] -> blen v <= 65536 -> flowEnabled (endA n) = true -> link (sideA n) = Some T ->
  Write (endA n) v None = Some (Ok (blen v), set_inFlight (endA n) k, [frame v]) -> reached (sent (wrote n v k) T v).
Proof.
  intros Hn Hw Hv Hf HT HW. apply (reach_step _ _ (wrote n v k)).
  - apply (reach_step _ _ n); [done|]. unfold wrote.
    pose proof (net_write 65536 n v _ _ _ Hw Hv HW) as H. by rewrite Hf in H.
  - exact (net_send 65536 (wrote n v k) (frame v) T eq_refl HT).
Qed.

Lemma n5_reached : reached n5.
Proof.
  apply (write_send_reached n4 0 cd 4); [|vm_compute; congruence..].
  apply (reach_step _ _ n3);
    [|refine (net_deliver _ n3 [] 0 (frame ab) [] None _ [] eq_refl _ eq_refl eq_refl); apply not_elem_of_nil].
  apply (write_send_reached n2 0 ab 2); [|vm_compute; congruence..].
  exact (announced_reachable 65536).
Qed.

Lemma n11_reached : reached n11.
Proof.
  apply (write_send_reached n10 1 ef 2); [|vm_compute; congruence..].
  apply (reach_step _ _ n9); [|refine (net_attach_b _ n9 1 eq_refl _); apply (bool_decide_unpack _); vm_compute; exact I].
  apply (reach_step _ _ n8); [|exact (net_detach_b _ n8 eq_refl)].
  apply (reach_step _ _ n7); [|exact (net_reconnected_a _ n7 None None None _ [control "resume"; control "flow:1"] eq_refl eq_refl)].
  apply (reach_step _ _ n6); [|refine (net_attach_a _ n6 1 eq_refl _); apply (bool_decide_unpack _); vm_compute; exact I].
  apply (reach_step _ _ n5); [exact n5_reached|exact (net_detach_a _ n5 eq_refl)].
Qed.



Lemma flow_control_no_overflow_witness : fst (fst (Receive (endB n11) (frame ef))) = None.
Proof.
  apply (flow_control_no_overflow 65536 n11 [(0%nat, frame cd)] 1 (frame ef) []); [discriminate|exact n11_reached|reflexivity|vm_compute; discriminate].
Defined.

(** A write of a full window waits behind the four bytes. *)
Lemma flow_control_no_lost_credit_witness :
  data (fwd n5).*2 <> [] \/ readQueue (endB n5) <> [] \/ 0 < acks (back n5).*2 \/ 0 < acks (pend (sideB n5)).
Proof.
  apply (flow_control_no_lost_credit 65536 n5 (replicate (Z.to_nat flowWindowBytes) x00) None);
    [discriminate|exact n5_reached|reflexivity..|].
  unfold Write. change (writeClosed (endA n5) || closed (endA n5)) with false. change (flowEnabled (endA n5)) with true.
  change (inFlight (endA n5)) with 4. cbn [andb]. unfold blen. rewrite length_replicate, Z2Nat.id by discriminate. reflexivity.
Defined.
End FlowWitness.
