(* ===== verification/TunnelConfig.v ===== *)
(** [internal/tunnelconfig]: the configuration of the multi-tunnel daemon and its
    validation (internal/tunnelconfig/config.go).  YAML decoding is the work of a
    library; [Parse] takes its result. *)
From S2P Require Export GoNet.
Local Open Scope Z_scope.

(** [TunnelType], [Mode] and [Protocol] are Go strings. *)
Definition TunnelForward : string := "forward".
Definition TunnelSOCKS : string := "socks".
Definition TunnelPTY : string := "pty".
Definition TunnelExec : string := "exec".
Definition ModeServer : string := "server".
Definition ModeClient : string := "client".
Definition ProtocolTCP : string := "tcp".
Definition ProtocolUDP : string := "udp".

Record Relay := mkRelay { rl_Addr : string; rl_Priority : Z }.

Record Tunnel := mkTunnel {
  tn_Name : string;
  tn_Type : string;
  tn_Mode : string;
  tn_LogicalPort : Z;
  tn_Protocol : string;
  tn_Target : string;
  tn_Listen : string;
  tn_Peer : string;
  tn_Exec : string;
  tn_TokenFile : string;
  tn_AllowUnauthenticated : bool
}.

Record Config := mkConfig {
  cf_Identity : string;
  cf_Relays : list Relay;
  cf_FallbackToPublicDHT : option bool;
  cf_UpstreamSOCKS : string;
  cf_Tunnels : list Tunnel
}.

#[export] Instance Tunnel_eq_dec : EqDecision Tunnel.
Proof. solve_decision. Defined.

(** [strings.TrimSpace(s) == ""]. *)
Definition blank (s : string) : bool := bool_decide (TrimSpace s = "").

Definition validPort (text : string) : bool :=
  match Atoi text with Ok value => (1 <=? value) && (value <=? 65535) | Err _ => false end.

Definition orIndex (name : string) (i : Z) : string :=
  if bool_decide (name = "") then "#" +:+ itoa i else name.

Definition FallbackEnabled (c : Config) : bool :=
  match cf_FallbackToPublicDHT c with None => true | Some b => b end.

(** The check of "host:port" shared by [target] and [listen]. *)
Definition check_endpoint (field value : string) : result unit :=
  match SplitHostPort value with
  | Err err => Err (Wrapf (field +:+ ": %w") [] err)
  | Ok (_, port) => refuse (negb (validPort port)) (Errorf (field +:+ ": invalid port %q") [AStr port])
  end.

Definition validate (t : Tunnel) : result unit :=
  (if bool_decide (tn_Type t ∈ [TunnelForward; TunnelSOCKS; TunnelPTY; TunnelExec]) then Ok tt
   else if bool_decide (tn_Type t = "") then Err (ErrNew "type is required (forward, socks, pty, or exec)")
   else Err (Errorf "unknown type %q" [AStr (tn_Type t)]));;
  (if bool_decide (tn_Mode t ∈ [ModeServer; ModeClient]) then Ok tt
   else if bool_decide (tn_Mode t = "") then Err (ErrNew "mode is required (server or client)")
   else Err (Errorf "unknown mode %q" [AStr (tn_Mode t)]));;
  refuse (tn_LogicalPort t =? 0) (ErrNew "logical_port must be between 1 and 65535");;
  (if bool_decide (tn_Mode t = ModeClient) then
     refuse (bool_decide (tn_Type t ∈ [TunnelSOCKS; TunnelPTY; TunnelExec]))
       (Errorf "type %q is server-only" [AStr (tn_Type t)]);;
     refuse (blank (tn_Peer t)) (ErrNew "peer is required in client mode")
   else Ok tt);;
  (if bool_decide (tn_Type t = TunnelForward) then
     refuse (negb (bool_decide (tn_Protocol t = ProtocolTCP)) && negb (bool_decide (tn_Protocol t = ProtocolUDP)))
       (Errorf "protocol must be %q or %q for a forward tunnel" [AStr ProtocolTCP; AStr ProtocolUDP]);;
     if bool_decide (tn_Mode t = ModeServer) then
       refuse (blank (tn_Target t)) (ErrNew "target is required for a server forward tunnel");;
       check_endpoint "target" (tn_Target t)
     else
       refuse (blank (tn_Listen t)) (ErrNew "listen is required for a client forward tunnel");;
       check_endpoint "listen" (tn_Listen t)
   else if bool_decide (tn_Type t = TunnelExec) then
     refuse (blank (tn_Exec t)) (ErrNew "exec is required for an exec tunnel")
   else Ok tt);;
  (if bool_decide (tn_Mode t = ModeServer) && negb (bool_decide (tn_Type t = TunnelForward)) then
     refuse (negb (tn_AllowUnauthenticated t) && blank (tn_TokenFile t))
       (Errorf "type %q requires token_file, or explicit allow_unauthenticated: true" [AStr (tn_Type t)])
   else Ok tt).

(** The loop of [Validate] over the relays. *)
Fixpoint validate_relays (i : Z) (relays : list Relay) : result unit :=
  match relays with
  | [] => Ok tt
  | relay :: rest =>
      refuse (blank (rl_Addr relay)) (Errorf "relays[%d]: addr is required" [AInt i]);;
      validate_relays (i + 1) rest
  end.

(** The loop over the tunnels, with the maps [names] and [serverPorts]. *)
Fixpoint validate_tunnels (i : Z) (names : gmap string Z) (serverPorts : gmap Z string)
    (tunnels : list Tunnel) : result unit :=
  match tunnels with
  | [] => Ok tt
  | t :: rest =>
      map_err (Wrapf "tunnels[%d] (%s): %w" [AInt i; AStr (orIndex (tn_Name t) i)]) (validate t);;
      refuse (bool_decide (tn_Name t = "")) (Errorf "tunnels[%d]: name is required" [AInt i]);;
      match names !! tn_Name t with
      | Some prev => Err (Errorf "tunnels[%d] (%s): name duplicates tunnels[%d]"
                            [AInt i; AStr (tn_Name t); AInt prev])
      | None => Ok tt
      end;;
      let names := <[tn_Name t := i]> names in
      if bool_decide (tn_Mode t = ModeServer) then
        match serverPorts !! tn_LogicalPort t with
        | Some prev => Err (Errorf "tunnels[%d] (%s): logical_port %d already used by server tunnel %q"
                              [AInt i; AStr (tn_Name t); AInt (tn_LogicalPort t); AStr prev])
        | None => Ok tt
        end;;
        validate_tunnels (i + 1) names (<[tn_LogicalPort t := tn_Name t]> serverPorts) rest
      else validate_tunnels (i + 1) names serverPorts rest
  end.

Definition Validate (c : Config) : result unit :=
  refuse (bool_decide (cf_Tunnels c = [])) (ErrNew "tunnel config: at least one tunnel is required");;
  (if bool_decide (cf_UpstreamSOCKS c = "") then Ok tt
   else map_err (Wrapf "upstream_socks: %w" []) (SplitHostPort (cf_UpstreamSOCKS c));; Ok tt);;
  validate_relays 0 (cf_Relays c);;
  validate_tunnels 0 ∅ ∅ (cf_Tunnels c).

(** [Parse]; [decoded] is what the YAML library makes of the bytes. *)
Definition Parse (decoded : result Config) : result Config :=
  cfg ← map_err (Wrapf "parse tunnel config: %w" []) decoded;
  Validate cfg;;
  Ok cfg.

(** ** What a valid configuration is *)

Definition endpoint_ok (value : string) : Prop :=
  blank value = false /\ exists host port, SplitHostPort value = Ok (host, port) /\ validPort port = true.

(** The four kinds of tunnels, and the credentials a privileged one needs. *)
Inductive tunnel_ok (t : Tunnel) : Prop :=
  | forward_server :
      tn_Type t = TunnelForward -> tn_Mode t = ModeServer ->
      tn_Protocol t = ProtocolTCP \/ tn_Protocol t = ProtocolUDP ->
      endpoint_ok (tn_Target t) -> tn_LogicalPort t <> 0 -> tunnel_ok t
  | forward_client :
      tn_Type t = TunnelForward -> tn_Mode t = ModeClient ->
      tn_Protocol t = ProtocolTCP \/ tn_Protocol t = ProtocolUDP ->
      endpoint_ok (tn_Listen t) -> blank (tn_Peer t) = false -> tn_LogicalPort t <> 0 -> tunnel_ok t
  | privileged_server :
      tn_Type t ∈ [TunnelSOCKS; TunnelPTY; TunnelExec] -> tn_Mode t = ModeServer ->
      (tn_Type t = TunnelExec -> blank (tn_Exec t) = false) ->
      tn_AllowUnauthenticated t = true \/ blank (tn_TokenFile t) = false ->
      tn_LogicalPort t <> 0 -> tunnel_ok t.

Definition server_ports (tunnels : list Tunnel) : list Z :=
  tn_LogicalPort <$> base.filter (fun t => tn_Mode t = ModeServer) tunnels.

Definition config_ok (c : Config) : Prop :=
  cf_Tunnels c <> [] /\
  (cf_UpstreamSOCKS c = "" \/ is_ok (SplitHostPort (cf_UpstreamSOCKS c)) = true) /\
  Forall (fun r => blank (rl_Addr r) = false) (cf_Relays c) /\
  Forall tunnel_ok (cf_Tunnels c) /\
  Forall (fun t => tn_Name t <> "") (cf_Tunnels c) /\
  NoDup (tn_Name <$> cf_Tunnels c) /\ NoDup (server_ports (cf_Tunnels c)).

Lemma check_endpoint_Ok field value :
  check_endpoint field value = Ok tt <->
  exists host port, SplitHostPort value = Ok (host, port) /\ validPort port = true.
Proof.
  unfold check_endpoint. destruct (SplitHostPort value) as [[h p]|e].
  - rewrite refuse_Ok, negb_false_iff. naive_solver.
  - naive_solver.
Qed.

Lemma validate_Ok t : validate t = Ok tt <-> tunnel_ok t.
Proof.
  unfold validate. rewrite !seq_Ok. split.
  - intros (Ht & Hm & Hp & Hc & Hf & Hs).
    assert (tn_Type t ∈ [TunnelForward; TunnelSOCKS; TunnelPTY; TunnelExec]) as Ht'
      by (revert Ht; clear; repeat case_bool_decide; done).
    assert (tn_Mode t ∈ [ModeServer; ModeClient]) as Hm'
      by (revert Hm; clear; repeat case_bool_decide; done).
    apply is_ok_refuse, Z.eqb_neq in Hp. clear Ht Hm.
    destruct (decide (tn_Type t = TunnelForward)) as [Et|Et].
    + rewrite (bool_decide_true (tn_Type t = TunnelForward)) in Hf by done.
      apply is_ok_unit in Hf. rewrite seq_Ok, is_ok_refuse in Hf. destruct Hf as [Hpr Hf].
      assert (tn_Protocol t = ProtocolTCP \/ tn_Protocol t = ProtocolUDP) as Hpr'.
      { apply andb_false_iff in Hpr as [H|H]; apply negb_false_iff, bool_decide_eq_true in H; auto. }
      rewrite !elem_of_cons, elem_of_nil in Hm'. destruct Hm' as [Em|[Em|[]]].
      * rewrite (bool_decide_true (tn_Mode t = ModeServer)), seq_Ok, is_ok_refuse, check_endpoint_Ok in Hf by done.
        by apply forward_server.
      * rewrite (bool_decide_false (tn_Mode t = ModeServer)), seq_Ok, is_ok_refuse, check_endpoint_Ok in Hf
          by (rewrite Em; discriminate).
        rewrite (bool_decide_true (tn_Mode t = ModeClient)) in Hc by done.
        apply is_ok_unit in Hc. rewrite seq_Ok, is_ok_refuse, refuse_Ok in Hc.
        by apply forward_client; try apply Hc.
    + assert (tn_Type t ∈ [TunnelSOCKS; TunnelPTY; TunnelExec]) as Ht2 by set_solver.
      assert (tn_Mode t = ModeServer) as Em.
      { rewrite !elem_of_cons, elem_of_nil in Hm'. destruct Hm' as [Em|[Em|[]]]; [done|].
        rewrite (bool_decide_true (tn_Mode t = ModeClient)) in Hc by done.
        apply is_ok_unit in Hc. rewrite seq_Ok, is_ok_refuse, bool_decide_eq_false in Hc. by destruct Hc. }
      rewrite (bool_decide_true (tn_Mode t = ModeServer)), (bool_decide_false (tn_Type t = TunnelForward)) in Hs by done.
      apply privileged_server; try done.
      * intros Ee. rewrite (bool_decide_false (tn_Type t = TunnelForward)), (bool_decide_true (tn_Type t = TunnelExec)) in Hf by done.
        by apply is_ok_refuse in Hf.
      * cbn [negb andb] in Hs. apply refuse_Ok, andb_false_iff in Hs as [H|H]; [left|by right].
        by apply negb_false_iff in H.
  - intros [Et Em Hpr [Hb He] Hp|Et Em Hpr [Hb He] Hpe Hp|Ht Em Hx Ha Hp];
      apply Z.eqb_neq in Hp; rewrite Hp, Em.
    + apply (check_endpoint_Ok "target") in He. rewrite Et, Hb, He. destruct Hpr as [->| ->]; done.
    + apply (check_endpoint_Ok "listen") in He. rewrite Et, Hb, He, Hpe. destruct Hpr as [->| ->]; done.
    + assert (negb (tn_AllowUnauthenticated t) && blank (tn_TokenFile t) = false) as ->
        by (destruct Ha as [->|Ha]; [done|rewrite Ha; apply andb_false_r]).
      rewrite !elem_of_cons, elem_of_nil in Ht. destruct Ht as [Et|[Et|[Et|[]]]]; rewrite Et; try done.
      by rewrite Hx by done.
Qed.

Lemma validate_relays_Ok i relays :
  validate_relays i relays = Ok tt <-> Forall (fun r => blank (rl_Addr r) = false) relays.
Proof.
  revert i; induction relays as [|r relays IH]; intros i; cbn [validate_relays]; [split; [constructor|done]|].
  by rewrite seq_Ok, is_ok_refuse, IH, Forall_cons.
Qed.

Lemma elem_of_server_ports p tunnels :
  p ∈ server_ports tunnels <-> exists t, t ∈ tunnels /\ tn_Mode t = ModeServer /\ tn_LogicalPort t = p.
Proof. unfold server_ports. rewrite list_elem_of_fmap. setoid_rewrite list_elem_of_filter. naive_solver. Qed.

Lemma validate_tunnels_Ok i names ports tunnels :
  validate_tunnels i names ports tunnels = Ok tt <->
  Forall tunnel_ok tunnels /\ Forall (fun t => tn_Name t <> "") tunnels /\
  NoDup (tn_Name <$> tunnels) /\ (forall n, n ∈ tn_Name <$> tunnels -> names !! n = None) /\
  NoDup (server_ports tunnels) /\ (forall p, p ∈ server_ports tunnels -> ports !! p = None).
Proof.
  revert i names ports; induction tunnels as [|t tunnels IH]; intros i names ports; cbn [validate_tunnels].
  { split; [|done]. intros _. split_and!; try constructor; set_solver. }
  rewrite !seq_Ok, is_ok_map_err, is_ok_refuse, is_ok_unit, validate_Ok, bool_decide_eq_false.
  rewrite fmap_cons, NoDup_cons, !Forall_cons.
  assert (is_ok (match names !! tn_Name t with
                 | Some prev => Err (Errorf "tunnels[%d] (%s): name duplicates tunnels[%d]"
                                       [AInt i; AStr (tn_Name t); AInt prev])
                 | None => Ok tt end) = true <-> names !! tn_Name t = None) as -> by (by destruct (names !! tn_Name t)).
  destruct (decide (tn_Mode t = ModeServer)) as [Em|Em].
  - rewrite bool_decide_true by done. rewrite seq_Ok, IH.
    assert (server_ports (t :: tunnels) = tn_LogicalPort t :: server_ports tunnels) as ->
      by (unfold server_ports; by rewrite filter_cons_True).
    rewrite NoDup_cons. setoid_rewrite elem_of_cons. setoid_rewrite lookup_insert_None.
    assert (forall (A : Type) (f : string -> A) e, is_ok (match ports !! tn_LogicalPort t with
             | Some prev => Err (e prev) | None => Ok tt end) = true <-> ports !! tn_LogicalPort t = None) as Hp
      by (intros; by destruct (ports !! tn_LogicalPort t)).
    rewrite (Hp string id). split.
    + intros (Ht & Hn & Hnames & Hport & Hf & Hne & Hd & Hn' & Hs & Hp'). split_and!; try done.
      * intros H. by destruct (Hn' _ H).
      * intros n [->|H]; [done|]. by apply Hn'.
      * intros H. by destruct (Hp' _ H).
      * intros p [->|H]; [done|]. by apply Hp'.
    + intros ([Ht Hf] & [Hn Hne] & [Hx Hd] & Hn' & [Hy Hs] & Hp'). split_and!; auto.
      * intros n H. split; [auto|]. intros E. by subst n.
      * intros p H. split; [auto|]. intros E. by subst p.
  - rewrite bool_decide_false by done. rewrite IH.
    assert (server_ports (t :: tunnels) = server_ports tunnels) as ->
      by (unfold server_ports; by rewrite filter_cons_False).
    setoid_rewrite elem_of_cons. setoid_rewrite lookup_insert_None. split.
    + intros (Ht & Hn & Hnames & Hf & Hne & Hd & Hn' & Hs & Hp'). split_and!; try done.
      * intros H. by destruct (Hn' _ H).
      * intros n [->|H]; [done|]. by apply Hn'.
    + intros ([Ht Hf] & [Hn Hne] & [Hx Hd] & Hn' & Hs & Hp'). split_and!; auto.
      intros n H. split; [auto|]. intros E. by subst n.
Qed.

Lemma Config_Validate_Ok c : Validate c = Ok tt <-> config_ok c.
Proof.
  unfold Validate, config_ok. rewrite !seq_Ok, is_ok_refuse, bool_decide_eq_false, validate_tunnels_Ok.
  assert (is_ok (if bool_decide (cf_UpstreamSOCKS c = "") then Ok tt
            else map_err (Wrapf "upstream_socks: %w" []) (SplitHostPort (cf_UpstreamSOCKS c));; Ok tt) = true
          <-> cf_UpstreamSOCKS c = "" \/ is_ok (SplitHostPort (cf_UpstreamSOCKS c)) = true) as ->.
  { case_bool_decide; [naive_solver|]. destruct (SplitHostPort _); naive_solver. }
  rewrite is_ok_unit, validate_relays_Ok. naive_solver.
Qed.

(** C39: validation is exact.  A configuration is accepted if and only if it has a
    tunnel, a parsable upstream proxy, non-blank relays, tunnels that each are a complete
    forward server, forward client or privileged server with its credentials, unique
    non-empty names and server ports that are pairwise distinct. *)
Theorem config_validate_exact c : Validate c = Ok tt <-> config_ok c.
Proof. apply Config_Validate_Ok. Qed.
