(* ===== verification/ListenerLock.v ===== *)
(** [internal/listenerlock]: one listener per logical port and user
    (internal/listenerlock/lock.go, lock_unix.go).

    [machine] is what the processes of one user share: the set of files under an
    exclusive [flock], and each process's table [processLocks.paths].  [PortLocks]
    is what the package promises to its callers. *)
From S2P Require Export GoStrings.
Local Open Scope Z_scope.

Record machine := mkMachine {
  flocked : gset string;
  processLocks : gmap Z (gset string)
}.

Definition paths (m : machine) (process : Z) : gset string := default ∅ (processLocks m !! process).

(** The outcomes of the system calls of [Acquire] other than lock contention. *)
Record lock_env := mkLockEnv {
  le_directory : result string;
  le_mkdir : option error;
  le_open : option error;
  le_flock : option error
}.

Definition inUseError (service : Z) : error :=
  Errorf "logical port %d already has an active listener" [AInt service].

(** [filepath.Join(directory, "<service>.lock")] for a clean directory. *)
Definition lock_path (directory : string) (service : Z) : string :=
  directory +:+ "/" +:+ itoa service +:+ ".lock".

(** [tryLockFile]: a non-blocking exclusive [flock] of a freshly opened file. *)
Definition tryLockFile (m : machine) (path : string) (err : option error) : result bool :=
  match err with
  | Some err => Err err
  | None => Ok (negb (bool_decide (path ∈ flocked m)))
  end.

(** [Acquire] in [process]; on success the path of the new [Lock]. *)
Definition Acquire (process : Z) (env : lock_env) (m : machine) (service : Z) : result string * machine :=
  if service =? 0 then (Err (ErrNew "logical port must be between 1 and 65535"), m)
  else match le_directory env with
  | Err err => (Err (Wrapf "resolve listener lock directory: %w" [] err), m)
  | Ok directory =>
  match le_mkdir env with
  | Some err => (Err (Wrapf "create listener lock directory: %w" [] err), m)
  | None =>
  let path := lock_path directory service in
  if bool_decide (path ∈ paths m process) then (Err (inUseError service), m)
  else match le_open env with
  | Some err => (Err (Wrapf "open listener lock for logical port %d: %w" [AInt service] err), m)
  | None =>
  match tryLockFile m path (le_flock env) with
  | Err err => (Err (Wrapf "lock logical port %d: %w" [AInt service] err), m)
  | Ok false => (Err (inUseError service), m)
  | Ok true => (Ok path, mkMachine ({[path]} ∪ flocked m)
                           (<[process := {[path]} ∪ paths m process]> (processLocks m)))
  end end end end.

(** A [Lock]: its path, and whether [once] has run. *)
Record Lock := mkLock { lk_path : string; lk_closed : bool }.

(** [Close]: the first call unlocks the file and clears the table entry, later
    calls and a nil lock do nothing. *)
Definition Close (process : Z) (m : machine) (lock : option Lock) : option Lock * machine :=
  match lock with
  | None => (None, m)
  | Some lock =>
      if lk_closed lock then (Some lock, m)
      else (Some (mkLock (lk_path lock) true),
            mkMachine (flocked m ∖ {[lk_path lock]})
              (<[process := paths m process ∖ {[lk_path lock]}]> (processLocks m)))
  end.

(** The operating system drops the locks of a process that ends. *)
Definition process_exit (process : Z) (m : machine) : machine :=
  mkMachine (flocked m ∖ paths m process) (delete process (processLocks m)).

(** ** All processes together *)

Inductive lock_step (m : machine) : machine -> Prop :=
  | step_acquire process env service r m' : Acquire process env m service = (r, m') -> lock_step m m'
  | step_close process path lock m' :
      path ∈ paths m process -> Close process m (Some (mkLock path false)) = (lock, m') -> lock_step m m'
  | step_exit process : lock_step m (process_exit process m).

Record machine_ok (m : machine) : Prop := {
  mo_flock process path : path ∈ paths m process -> path ∈ flocked m;
  mo_owner path : path ∈ flocked m -> exists process, path ∈ paths m process;
  mo_excl p q path : path ∈ paths m p -> path ∈ paths m q -> p = q
}.

Lemma paths_insert f m process s q :
  paths (mkMachine f (<[process := s]> (processLocks m))) q =
  if decide (process = q) then s else paths m q.
Proof.
  unfold paths; cbn [processLocks]. destruct (decide (process = q)) as [->|];
    [by rewrite lookup_insert_eq|by rewrite lookup_insert_ne].
Qed.

Lemma paths_delete f m process q :
  paths (mkMachine f (delete process (processLocks m))) q =
  if decide (process = q) then ∅ else paths m q.
Proof.
  unfold paths; cbn [processLocks]. destruct (decide (process = q)) as [->|];
    [by rewrite lookup_delete_eq|by rewrite lookup_delete_ne].
Qed.

Lemma Acquire_Ok process env m service path m' :
  Acquire process env m service = (Ok path, m') ->
  service <> 0 /\ (path ∉ flocked m) /\ (path ∉ paths m process) /\
  (exists directory, le_directory env = Ok directory /\ path = lock_path directory service) /\
  m' = mkMachine ({[path]} ∪ flocked m) (<[process := {[path]} ∪ paths m process]> (processLocks m)).
Proof.
  unfold Acquire. destruct (Z.eqb_spec service 0); [done|].
  destruct (le_directory env) as [d|]; [|done]. destruct (le_mkdir env); [done|].
  case_bool_decide as Hp; [done|]. destruct (le_open env); [done|].
  unfold tryLockFile. destruct (le_flock env); [done|]. case_bool_decide as Hf; [done|]. cbn [negb].
  intros [= <- <-]. split_and!; try done. eauto.
Qed.

Lemma Acquire_Err process env m service e m' :
  Acquire process env m service = (Err e, m') -> m' = m.
Proof.
  unfold Acquire, tryLockFile. repeat (case_match; try (by intros [= _ <-])).
Qed.

Lemma machine_step m m' : machine_ok m -> lock_step m m' -> machine_ok m'.
Proof.
  intros [Hf Ho He] [process env service [path|e] m1 E|process path lock m1 Hp E|process].
  - apply Acquire_Ok in E as (_ & Hnf & _ & _ & ->). split; cbn [flocked]; intros *; rewrite ?paths_insert.
    + case_decide as Hd; [subst|]; set_solver.
    + intros [->%elem_of_singleton|Hin]%elem_of_union.
      * exists process. rewrite paths_insert, decide_True by done. set_solver.
      * destruct (Ho _ Hin) as [q Hq]. exists q. rewrite paths_insert. case_decide; subst; set_solver.
    + assert (forall r x, x ∈ paths m r -> x <> path) as Hfresh by (intros r x Hx ->; by apply Hf in Hx).
      repeat case_decide; subst; try done; rewrite ?elem_of_union, ?elem_of_singleton.
      * intros [->|H1] H2; [by apply Hfresh in H2|by apply (He _ _ path0)].
      * intros H1 [->|H2]; [by apply Hfresh in H1|by apply (He _ _ path0)].
      * by apply He.
  - by apply Acquire_Err in E as ->.
  - injection E as <- <-. cbn [lk_path]. split; cbn [flocked]; intros *; rewrite ?paths_insert.
    + case_decide as Hd; [subst; set_solver|]. intros H. apply elem_of_difference. split; [by eapply Hf|].
      intros ->%elem_of_singleton. by apply Hd, (He _ _ path).
    + intros [Hin Hne]%elem_of_difference. destruct (Ho _ Hin) as [q Hq]. exists q.
      rewrite paths_insert. case_decide; subst; set_solver.
    + repeat case_decide; subst; try done; rewrite ?elem_of_difference; naive_solver.
  - unfold process_exit. split; cbn [flocked]; intros *; rewrite ?paths_delete.
    + case_decide as Hd; [set_solver|]. intros H. apply elem_of_difference. split; [by eapply Hf|].
      intros H'. by apply Hd, (He _ _ path).
    + intros [Hin Hne]%elem_of_difference. destruct (Ho _ Hin) as [q Hq]. exists q.
      rewrite paths_delete. case_decide; subst; [done|done].
    + repeat case_decide; subst; try done; set_solver.
Qed.

Definition machine_init : machine := mkMachine ∅ ∅.

Lemma reachable_ok m : reachable (fun m => m = machine_init) lock_step m -> machine_ok m.
Proof.
  apply invariant.
  - intros ? ->. split; unfold paths; set_solver.
  - intros s1 s2 _. apply machine_step.
Qed.

(** C38: listeners exclude each other.  Whatever processes acquire, close and die,
    no two processes ever hold the same port's lock; while any process holds it every attempt,
    its own included, is refused without changing anything; and once the holder closes it the
    port can be acquired again. *)
Theorem listener_exclusion m holder path directory service :
  reachable (fun m => m = machine_init) lock_step m ->
  service <> 0 -> path = lock_path directory service -> path ∈ paths m holder ->
  (forall other, path ∈ paths m other -> other = holder) /\
  (forall process, Acquire process (mkLockEnv (Ok directory) None None None) m service
     = (Err (inUseError service), m)) /\
  (forall process, exists m', Acquire process (mkLockEnv (Ok directory) None None None)
     (snd (Close holder m (Some (mkLock path false)))) service = (Ok path, m')).
Proof.
  intros Hm Hs -> Hp. destruct (reachable_ok m Hm) as [Hf Ho He]. split_and!.
  - intros other H. by eapply He.
  - intros process. unfold Acquire. rewrite (proj2 (Z.eqb_neq _ _)) by done. cbn [le_directory le_mkdir le_open le_flock].
    case_bool_decide; [done|]. unfold tryLockFile. rewrite bool_decide_true; [done|by eapply Hf].
  - intros process. eexists. cbn [Close lk_closed lk_path snd]. unfold Acquire.
    rewrite (proj2 (Z.eqb_neq _ _)) by done. cbn [le_directory le_mkdir le_open le_flock].
    rewrite paths_insert. rewrite bool_decide_false.
    + unfold tryLockFile. cbn [flocked]. rewrite bool_decide_false by set_solver. done.
    + case_decide as Hd; [set_solver|]. intros H. by apply Hd, (He _ _ (lock_path directory service)).
Qed.

Lemma listener_exclusion_witness :
  Acquire 2 (mkLockEnv (Ok "/c") None None None)
    (mkMachine {["/c/80.lock"]} {[1 := {["/c/80.lock"]}]}) 80
  = (Err (inUseError 80), mkMachine {["/c/80.lock"]} {[1 := {["/c/80.lock"]}]}).
Proof.
  apply (listener_exclusion (mkMachine {["/c/80.lock"]} {[1 := {["/c/80.lock"]}]}) 1 "/c/80.lock" "/c" 80);
    [|discriminate|reflexivity|apply (bool_decide_unpack _); vm_compute; exact I].
  eapply reach_step; [by apply reach_init|].
  apply (step_acquire _ 1 (mkLockEnv (Ok "/c") None None None) 80 (Ok "/c/80.lock")). vm_compute. reflexivity.
Defined.

(** ** The interface *)

(** What a process that opens listeners relies on: a port it holds, or that another
    process holds, cannot be acquired; a port nobody holds can; releasing gives it back. *)
Class PortLocks (L : Type) := {
  pl_acquire : L -> Z -> result unit * L;
  pl_release : L -> Z -> L;
  pl_held : L -> gset Z;
  pl_blocked : L -> Z -> bool;
  pl_wf : L -> Prop
}.

Class PortLocksLaws (L : Type) `{!PortLocks L} : Prop := {
  pl_acquire_free l port l' r :
    pl_wf l -> pl_acquire l port = (r, l') ->
    port <> 0 -> port ∉ pl_held l -> pl_blocked l port = false ->
    r = Ok tt /\ pl_wf l' /\ pl_held l' = {[port]} ∪ pl_held l /\
    (forall q, pl_blocked l' q = pl_blocked l q);
  pl_acquire_taken l port l' r :
    pl_wf l -> pl_acquire l port = (r, l') ->
    port = 0 \/ port ∈ pl_held l \/ pl_blocked l port = true -> is_ok r = false /\ l' = l;
  pl_release_spec l port :
    pl_wf l -> port ∈ pl_held l ->
    pl_wf (pl_release l port) /\ pl_held (pl_release l port) = pl_held l ∖ {[port]} /\
    (forall q, pl_blocked (pl_release l port) q = pl_blocked l q)
}.

(** One process's view of the machine, with the ports it holds. *)
Record view := mkView { v_machine : machine; v_process : Z; v_directory : string; v_ports : gset Z }.

Definition ok_env (directory : string) : lock_env := mkLockEnv (Ok directory) None None None.

#[export] Instance view_locks : PortLocks view := {|
  pl_acquire v port :=
    match Acquire (v_process v) (ok_env (v_directory v)) (v_machine v) port with
    | (Ok _, m) => (Ok tt, mkView m (v_process v) (v_directory v) ({[port]} ∪ v_ports v))
    | (Err e, m) => (Err e, mkView m (v_process v) (v_directory v) (v_ports v))
    end;
  pl_release v port :=
    mkView (snd (Close (v_process v) (v_machine v) (Some (mkLock (lock_path (v_directory v) port) false))))
      (v_process v) (v_directory v) (v_ports v ∖ {[port]});
  pl_held v := v_ports v;
  pl_blocked v port :=
    bool_decide (lock_path (v_directory v) port ∈ flocked (v_machine v)) &&
    negb (bool_decide (port ∈ v_ports v));
  pl_wf v := machine_ok (v_machine v) /\
    forall port, lock_path (v_directory v) port ∈ paths (v_machine v) (v_process v) <-> port ∈ v_ports v
|}.

#[export] Instance lock_path_inj directory : Inj (=) (=) (lock_path directory).
Proof.
  intros p q E. apply (f_equal bytes_of) in E. unfold lock_path in E. rewrite !bytes_of_app in E.
  apply app_inv_head, app_inv_head, app_inv_tail, (inj bytes_of) in E. by apply (inj itoa).
Qed.

#[export] Instance view_locks_laws : PortLocksLaws view.
Proof.
  split.
  - intros [m p d ports] port l' r. cbn [pl_wf pl_acquire pl_held pl_blocked view_locks v_machine v_process
      v_directory v_ports]. intros [Hm Hv] E H0 Hh Hb.
    assert (lock_path d port ∉ flocked m) as Hf.
    { apply andb_false_iff in Hb as [H%bool_decide_eq_false|H]; [done|].
      by apply negb_false_iff, bool_decide_eq_true in H. }
    assert (Acquire p (ok_env d) m port = (Ok (lock_path d port),
      mkMachine ({[lock_path d port]} ∪ flocked m) (<[p := {[lock_path d port]} ∪ paths m p]> (processLocks m)))) as EA.
    { unfold Acquire, ok_env, tryLockFile; cbn [le_directory le_mkdir le_open le_flock].
      rewrite (proj2 (Z.eqb_neq _ _)), !bool_decide_false; [done|done|by rewrite Hv|done]. }
    rewrite EA in E. injection E as <- <-. cbn [v_machine v_process v_directory v_ports]. split_and!; try done.
    + eapply machine_step; [done|]. by eapply step_acquire.
    + intros q. rewrite paths_insert, decide_True, elem_of_union, elem_of_singleton, Hv by done.
      rewrite elem_of_union, elem_of_singleton. split; (intros [E|?]; [left|by right]);
        [by apply (inj (lock_path d))|by subst].
    + intros q. cbn [flocked]. destruct (decide (q = port)) as [->|Hne].
      * rewrite Hb, (bool_decide_true (port ∈ {[port]} ∪ ports)) by set_solver. apply andb_false_r.
      * assert (lock_path d q <> lock_path d port) by (intros ?%(inj (lock_path d)); done).
        f_equal; [|f_equal]; apply bool_decide_ext; set_solver.
  - intros [m p d ports] port l' r. cbn [pl_wf pl_acquire pl_held pl_blocked view_locks v_machine v_process
      v_directory v_ports]. intros [[Hf Ho He] Hv] E Hc.
    destruct (Acquire p (ok_env d) m port) as [[path|e] m'] eqn:EA.
    + exfalso. apply Acquire_Ok in EA as (H0 & Hnf & Hnp & (d' & [= <-] & ->) & _).
      destruct Hc as [?|[Hc|Hc]]; [done| |].
      * by apply Hnp, Hv.
      * apply andb_true_iff in Hc as [Hc%bool_decide_eq_true _]. done.
    + apply Acquire_Err in EA as ->. by injection E as <- <-.
  - intros [m p d ports] port. cbn [pl_wf pl_release pl_held pl_blocked view_locks v_machine v_process
      v_directory v_ports Close lk_closed lk_path snd]. intros [Hm Hv] Hp. split_and!; try done.
    + eapply machine_step; [done|]. eapply (step_close _ p (lock_path d port)); [by apply Hv|done].
    + intros q. rewrite paths_insert, decide_True, elem_of_difference, Hv by done.
      rewrite elem_of_difference, !elem_of_singleton. naive_solver.
    + intros q. cbn [flocked]. destruct (decide (q = port)) as [->|Hne].
      * rewrite (bool_decide_false (lock_path d port ∈ _)), (bool_decide_true (port ∈ ports)) by set_solver.
        by rewrite andb_false_r.
      * assert (lock_path d q <> lock_path d port) by (intros ?%(inj (lock_path d)); done).
        f_equal; [|f_equal]; apply bool_decide_ext; set_solver.
Qed.
