(* ===== verification/Daemon.v ===== *)
(** [internal/daemon]: the supervisor that runs many tunnels on one node
    (internal/daemon/daemon.go, server.go, client.go).

    The daemon's state is what it owns: logical-port locks (through the interface
    [PortLocks]), protocol handlers registered on the node, local listeners, and the
    table of handles.  What the file system, the network and the pairing token of a tunnel
    answer is an environment. *)
From S2P Require Export TunnelConfig ListenerLock.
Local Open Scope Z_scope.

Definition ProtocolPrefix : string := "/p2p-netcat/1.0.0".
Definition DatagramProtocolPrefix : string := "/p2p-netcat/udp/1.0.0".
Definition ProtocolForService (service : Z) : string := ProtocolPrefix +:+ "/" +:+ itoa service.
Definition DatagramProtocolForService (service : Z) : string :=
  DatagramProtocolPrefix +:+ "/" +:+ itoa service.

Record tunnelHandle := mkHandle {
  th_lock : option Z;         (** the logical port of the lock *)
  th_proto : string;          (** empty when none is registered *)
  th_closer : option Z        (** the local listener *)
}.

(** What starting a tunnel meets outside the program. *)
Record start_env := mkStartEnv {
  se_token : Tunnel -> option error;      (** [loadTunnelToken] *)
  se_carrier : Tunnel -> option error;    (** the initial UDP carrier *)
  se_listen : Tunnel -> option error      (** binding the local listener *)
}.

Definition tunnelsByName (tunnels : list Tunnel) : gmap string Tunnel :=
  foldl (fun byName t => <[tn_Name t := t]> byName) ∅ tunnels.

(** One pass of the inner loop of [relayAddrs]: the element moves down past
    strictly greater priorities. *)
Fixpoint sink_down (r : Relay) (below : list Relay) : list Relay :=
  match below with
  | [] => [r]
  | prev :: rest => if rl_Priority r <? rl_Priority prev then prev :: sink_down r rest else r :: prev :: rest
  end.
(** The outer loop; the sorted prefix is kept in reverse. *)
Definition relay_sort (relays : list Relay) : list Relay :=
  reverse (foldl (fun sorted r => sink_down r sorted) [] relays).
Definition relayAddrs (relays : list Relay) : list string := rl_Addr <$> relay_sort relays.

(** What the node is built from, once, by [Run]. *)
Record node_params := mkNodeParams {
  np_identity : string;
  np_relays : list string;
  np_discover : bool;
  np_socks : string
}.
Definition node_params_of (cfg : Config) : node_params :=
  mkNodeParams (cf_Identity cfg) (relayAddrs (cf_Relays cfg)) (FallbackEnabled cfg) (cf_UpstreamSOCKS cfg).

Section daemon.
Context `{PL : !PortLocks L}.

Record Daemon := mkDaemon {
  d_locks : L;
  d_protos : gmap string Tunnel;   (** the stream handlers of the node, with the tunnel each closes over *)
  d_closers : gmap Z Tunnel;       (** the local listeners, with the tunnel each closes over *)
  d_next : Z;
  d_node : option node_params;     (** what the running node was built from *)
  d_cfg : Config;
  d_handles : gmap string tunnelHandle
}.

Definition set_handles (d : Daemon) (handles : gmap string tunnelHandle) : Daemon :=
  mkDaemon (d_locks d) (d_protos d) (d_closers d) (d_next d) (d_node d) (d_cfg d) handles.
Definition set_cfg (d : Daemon) (cfg : Config) : Daemon :=
  mkDaemon (d_locks d) (d_protos d) (d_closers d) (d_next d) (d_node d) cfg (d_handles d).

Definition tunnel_proto (t : Tunnel) : string :=
  if bool_decide (tn_Type t = TunnelForward) && bool_decide (tn_Protocol t = ProtocolUDP)
  then DatagramProtocolForService (tn_LogicalPort t) else ProtocolForService (tn_LogicalPort t).

Definition startServer (d : Daemon) (t : Tunnel) : result tunnelHandle * Daemon :=
  match pl_acquire (d_locks d) (tn_LogicalPort t) with
  | (Err err, locks) =>
      (Err (Wrapf "acquire logical port %d: %w" [AInt (tn_LogicalPort t)] err),
       mkDaemon locks (d_protos d) (d_closers d) (d_next d) (d_node d) (d_cfg d) (d_handles d))
  | (Ok _, locks) =>
      let proto := tunnel_proto t in
      (Ok (mkHandle (Some (tn_LogicalPort t)) proto None),
       mkDaemon locks (<[proto := t]> (d_protos d)) (d_closers d) (d_next d) (d_node d) (d_cfg d) (d_handles d))
  end.

Definition startClient (env : start_env) (d : Daemon) (t : Tunnel) : result tunnelHandle * Daemon :=
  if negb (bool_decide (tn_Type t = TunnelForward))
  then (Err (Errorf "client mode only supports type forward, got %q" [AStr (tn_Type t)]), d)
  else match SplitHostPort (tn_Listen t) with
  | Err err => (Err (Wrapf "listen: %w" [] err), d)
  | Ok (host, portText) =>
  match Atoi portText with
  | Err err => (Err (Wrapf "listen port: %w" [] err), d)
  | Ok port =>
  let listen :=
    match se_listen env t with
    | Some err => (Err err, d)
    | None =>
        (Ok (mkHandle None "" (Some (d_next d))),
         mkDaemon (d_locks d) (d_protos d) (<[d_next d := t]> (d_closers d)) (d_next d + 1) (d_node d)
           (d_cfg d) (d_handles d))
    end in
  if bool_decide (tn_Protocol t = ProtocolUDP) then
    match se_carrier env t with
    | Some err => (Err (Wrapf "establish initial UDP carrier: %w" [] err), d)
    | None => listen
    end
  else listen
  end end.

Definition start (env : start_env) (d : Daemon) (t : Tunnel) : result tunnelHandle * Daemon :=
  match se_token env t with
  | Some err => (Err err, d)
  | None => if bool_decide (tn_Mode t = ModeServer) then startServer d t else startClient env d t
  end.

Definition stop (d : Daemon) (name : string) : Daemon :=
  match d_handles d !! name with
  | None => d
  | Some handle =>
      mkDaemon
        (match th_lock handle with Some port => pl_release (d_locks d) port | None => d_locks d end)
        (if bool_decide (th_proto handle = "") then d_protos d else delete (th_proto handle) (d_protos d))
        (match th_closer handle with Some c => delete c (d_closers d) | None => d_closers d end)
        (d_next d) (d_node d) (d_cfg d) (delete name (d_handles d))
  end.

(** [Close]; the order of the names is that of a map range. *)
Definition Close (d : Daemon) (names : list string) : Daemon :=
  let d := foldl stop d names in
  mkDaemon (d_locks d) (d_protos d) (d_closers d) (d_next d) None (d_cfg d) (d_handles d).

(** The loop of [Run] over the tunnels: the daemon, and the failure if any. *)
Fixpoint run_tunnels (env : start_env) (d : Daemon) (tunnels : list Tunnel) : option error * Daemon :=
  match tunnels with
  | [] => (None, d)
  | t :: rest =>
      match start env d t with
      | (Err err, d) => (Some (Wrapf "tunnel %q: %w" [AStr (tn_Name t)] err), d)
      | (Ok handle, d) => run_tunnels env (set_handles d (<[tn_Name t := handle]> (d_handles d))) rest
      end
  end.

Definition daemon_init (locks : L) (cfg : Config) (node : option node_params) : Daemon :=
  mkDaemon locks ∅ ∅ 0 node cfg ∅.

(** [Run] with the outcomes of resolving the identity path, loading the identity
    and building the node; the second component is what is left when it returns. *)
Definition Run (locks : L) (cfg : option Config) (pathErr identityErr nodeErr : option error)
    (env : start_env) : result unit * Daemon :=
  match cfg with
  | None => (Err (ErrNew "tunnel config is required"),
             daemon_init locks (mkConfig "" [] None "" []) None)
  | Some cfg =>
  match Validate cfg with
  | Err err => (Err err, daemon_init locks cfg None)
  | Ok _ =>
  match pathErr with
  | Some err => (Err (Wrapf "identity path: %w" [] err), daemon_init locks cfg None)
  | None =>
  match identityErr with
  | Some err => (Err (Wrapf "load identity: %w" [] err), daemon_init locks cfg None)
  | None =>
  match nodeErr with
  | Some err => (Err (Wrapf "start p2p node: %w" [] err), daemon_init locks cfg None)
  | None =>
  match run_tunnels env (daemon_init locks cfg (Some (node_params_of cfg))) (cf_Tunnels cfg) with
  | (Some err, d) => (Err err, Close d (elements (dom (d_handles d))))
  | (None, d) => (Ok tt, d)
  end end end end end end.

(** The two loops of [Reload], over the names in the order of the map range. *)
Definition reload_stops (old new : gmap string Tunnel) (d : Daemon) (names : list string) : Daemon :=
  foldl (fun d name =>
           if bool_decide (new !! name = old !! name) then d else stop d name) d names.

Fixpoint reload_starts (env : start_env) (old new : gmap string Tunnel) (d : Daemon)
    (names : list string) : option error * Daemon :=
  match names with
  | [] => (None, d)
  | name :: rest =>
      match new !! name with
      | None => reload_starts env old new d rest
      | Some t =>
          if bool_decide (old !! name = Some t) then reload_starts env old new d rest
          else match start env d t with
               | (Err err, d) => (Some (Wrapf "reload: tunnel %q: %w" [AStr name] err), d)
               | (Ok handle, d) =>
                   reload_starts env old new (set_handles d (<[name := handle]> (d_handles d))) rest
               end
      end
  end.

Definition Reload (env : start_env) (d : Daemon) (newCfg : option Config)
    (oldNames newNames : list string) : result unit * Daemon :=
  match newCfg with
  | None => (Err (ErrNew "tunnel config is required"), d)
  | Some newCfg =>
  match Validate newCfg with
  | Err err => (Err err, d)
  | Ok _ =>
  let old := tunnelsByName (cf_Tunnels (d_cfg d)) in
  let new := tunnelsByName (cf_Tunnels newCfg) in
  match reload_starts env old new (reload_stops old new d oldNames) newNames with
  | (Some err, d) => (Err err, d)
  | (None, d) => (Ok tt, set_cfg d newCfg)
  end end end.

(** A map range visits every key once, in some order. *)
Definition range_of {A} (m : gmap string A) (names : list string) : Prop :=
  NoDup names /\ forall name, name ∈ names <-> is_Some (m !! name).

(** ** Ownership *)

(** The handle a running tunnel has. *)
Definition handle_for (t : Tunnel) (h : tunnelHandle) : Prop :=
  if bool_decide (tn_Mode t = ModeServer)
  then h = mkHandle (Some (tn_LogicalPort t)) (tunnel_proto t) None
  else exists c, h = mkHandle None "" (Some c).

(** The handler or listener of the handle works for this very tunnel. *)
Definition serves (d : Daemon) (t : Tunnel) (h : tunnelHandle) : Prop :=
  handle_for t h /\
  if bool_decide (tn_Mode t = ModeServer) then d_protos d !! th_proto h = Some t
  else exists c, th_closer h = Some c /\ d_closers d !! c = Some t.

Definition handle_shape (h : tunnelHandle) : Prop :=
  (exists port, h = mkHandle (Some port) (ProtocolForService port) None \/
                h = mkHandle (Some port) (DatagramProtocolForService port) None) \/
  (exists c, h = mkHandle None "" (Some c)).

(** Every lock, protocol handler and listener belongs to exactly one handle. *)
Record owned (d : Daemon) : Prop := {
  ow_wf : pl_wf (d_locks d);
  ow_shape n h : d_handles d !! n = Some h -> handle_shape h;
  ow_lock p : p ∈ pl_held (d_locks d) <-> exists n h, d_handles d !! n = Some h /\ th_lock h = Some p;
  ow_proto x : x ∈ dom (d_protos d) <-> exists n h, d_handles d !! n = Some h /\ th_proto h = x /\ x <> "";
  ow_closer c : c ∈ dom (d_closers d) <-> exists n h, d_handles d !! n = Some h /\ th_closer h = Some c;
  ow_lock_inj n1 n2 h1 h2 p : d_handles d !! n1 = Some h1 -> d_handles d !! n2 = Some h2 ->
    th_lock h1 = Some p -> th_lock h2 = Some p -> n1 = n2;
  ow_closer_inj n1 n2 h1 h2 c : d_handles d !! n1 = Some h1 -> d_handles d !! n2 = Some h2 ->
    th_closer h1 = Some c -> th_closer h2 = Some c -> n1 = n2;
  ow_next n h c : d_handles d !! n = Some h -> th_closer h = Some c -> c < d_next d
}.

Lemma proto_nonempty port : ProtocolForService port <> "" /\ DatagramProtocolForService port <> "".
Proof. split; discriminate. Qed.

(** Protocol identifiers of different ports differ. *)
Lemma proto_port p q x :
  x = ProtocolForService p \/ x = DatagramProtocolForService p ->
  x = ProtocolForService q \/ x = DatagramProtocolForService q -> p = q.
Proof.
  assert (forall a b c : string, a +:+ b = a +:+ c -> b = c) as Happ
    by (intros a b c E; apply (f_equal bytes_of) in E; rewrite !bytes_of_app in E;
        by apply app_inv_head, (inj bytes_of) in E).
  intros [->| ->] [E|E].
  - by apply Happ, Happ, (inj itoa) in E.
  - exfalso. apply (f_equal (fun s => nth 12 (bytes_of s) x00)) in E. discriminate E.
  - exfalso. apply (f_equal (fun s => nth 12 (bytes_of s) x00)) in E. discriminate E.
  - by apply Happ, Happ, (inj itoa) in E.
Qed.

Lemma shape_proto h x :
  handle_shape h -> th_proto h = x -> x <> "" ->
  exists p, th_lock h = Some p /\ (x = ProtocolForService p \/ x = DatagramProtocolForService p).
Proof. intros [(p & [->| ->])|(c & ->)]; cbn; naive_solver. Qed.

Lemma shape_lock h p :
  handle_shape h -> th_lock h = Some p ->
  th_proto h <> "" /\ (th_proto h = ProtocolForService p \/ th_proto h = DatagramProtocolForService p).
Proof.
  intros [(q & [->| ->])|(c & ->)]; cbn; intros [= ->]; (split; [discriminate|auto]).
Qed.

Lemma owned_proto_inj d n1 n2 h1 h2 x :
  owned d -> d_handles d !! n1 = Some h1 -> d_handles d !! n2 = Some h2 ->
  th_proto h1 = x -> th_proto h2 = x -> x <> "" -> n1 = n2.
Proof.
  intros Ho H1 H2 E1 E2 Hx.
  destruct (shape_proto h1 x (ow_shape _ Ho _ _ H1) E1 Hx) as (p & L1 & P1).
  destruct (shape_proto h2 x (ow_shape _ Ho _ _ H2) E2 Hx) as (q & L2 & P2).
  pose proof (proto_port p q x P1 P2) as ->. by eapply ow_lock_inj.
Qed.

Context `{PLL : !PortLocksLaws L}.

Lemma owned_stop d name : owned d -> owned (stop d name).
Proof.
  intros Ho. unfold stop. destruct (d_handles d !! name) as [h|] eqn:Eh; [|done].
  pose proof (owned_proto_inj d) as Hpi. destruct Ho as [Hw Hsh Hl Hp Hc Hli Hci Hn].
  assert (forall port, th_lock h = Some port -> port ∈ pl_held (d_locks d)) as Hheld
    by (intros port E; apply Hl; eauto).
  split; cbn [d_locks d_protos d_closers d_next d_handles].
  - destruct (th_lock h) as [port|] eqn:E; [|done]. by apply pl_release_spec; auto.
  - intros n h'. rewrite lookup_delete_Some. intros [_ H]. eauto.
  - intros p. setoid_rewrite lookup_delete_Some. destruct (th_lock h) as [port|] eqn:E.
    + destruct (pl_release_spec (d_locks d) port) as (_ & -> & _); [done|auto|].
      rewrite elem_of_difference, elem_of_singleton, Hl. split.
      * intros [(n & h' & H & Hk) Hne]. exists n, h'. split; [|done]. split; [|done].
        intros ->. congruence.
      * intros (n & h' & [Hne H] & Hk). split; [eauto|]. intros ->. by apply Hne, (Hli _ _ h h' port).
    + rewrite Hl. split; [|naive_solver]. intros (n & h' & H & Hk). exists n, h'.
      split; [|done]. split; [|done]. intros ->. congruence.
  - intros x. setoid_rewrite lookup_delete_Some. case_bool_decide as E.
    + rewrite Hp. split; [|naive_solver]. intros (n & h' & H & Hk & Hx). exists n, h'.
      split; [|done]. split; [|done]. intros ->. congruence.
    + rewrite dom_delete_L, elem_of_difference, elem_of_singleton, Hp. split.
      * intros [(n & h' & H & Hk & Hx) Hne]. exists n, h'. split; [|done]. split; [|done].
        intros ->. congruence.
      * intros (n & h' & [Hne H] & Hk & Hx). split; [eauto|]. intros ->.
        apply Hne, (Hpi _ _ h h' (th_proto h)); try done.
  - intros c. setoid_rewrite lookup_delete_Some. destruct (th_closer h) as [c0|] eqn:E.
    + rewrite dom_delete_L, elem_of_difference, elem_of_singleton, Hc. split.
      * intros [(n & h' & H & Hk) Hne]. exists n, h'. split; [|done]. split; [|done].
        intros ->. congruence.
      * intros (n & h' & [Hne H] & Hk). split; [eauto|]. intros ->. by apply Hne, (Hci _ _ h h' c0).
    + rewrite Hc. split; [|naive_solver]. intros (n & h' & H & Hk). exists n, h'.
      split; [|done]. split; [|done]. intros ->. congruence.
  - intros *. rewrite !lookup_delete_Some. intros [_ ?] [_ ?]. eauto.
  - intros *. rewrite !lookup_delete_Some. intros [_ ?] [_ ?]. eauto.
  - intros *. rewrite lookup_delete_Some. intros [_ ?]. eauto.
Qed.

Lemma pl_acquire_cases l port r l' :
  pl_wf l -> pl_acquire l port = (r, l') ->
  (r = Ok tt /\ port <> 0 /\ (port ∉ pl_held l) /\ pl_blocked l port = false /\ pl_wf l' /\
   pl_held l' = {[port]} ∪ pl_held l /\ (forall q, pl_blocked l' q = pl_blocked l q)) \/
  (is_ok r = false /\ l' = l).
Proof.
  intros Hw E. destruct (decide (port = 0 \/ port ∈ pl_held l \/ pl_blocked l port = true)) as [Hd|Hd].
  - right. by eapply pl_acquire_taken.
  - left. assert (port <> 0 /\ (port ∉ pl_held l) /\ pl_blocked l port = false) as (H1 & H2 & H3)
      by (destruct (pl_blocked l port); tauto).
    destruct (pl_acquire_free l port l' r Hw E H1 H2 H3) as (? & ? & ? & ?). by split_and!.
Qed.

Lemma tunnel_proto_shape t :
  tunnel_proto t = ProtocolForService (tn_LogicalPort t) \/
  tunnel_proto t = DatagramProtocolForService (tn_LogicalPort t).
Proof. unfold tunnel_proto. destruct (_ && _); auto. Qed.

Lemma mkDaemon_eta d :
  mkDaemon (d_locks d) (d_protos d) (d_closers d) (d_next d) (d_node d) (d_cfg d) (d_handles d) = d.
Proof. by destruct d. Qed.

(** A start that fails leaves nothing behind. *)
Lemma start_Err env d t e d' : pl_wf (d_locks d) -> start env d t = (Err e, d') -> d' = d.
Proof.
  intros Hw. unfold start, startServer, startClient.
  destruct (se_token env t); [by intros [= _ <-]|]. case_bool_decide.
  - destruct (pl_acquire (d_locks d) (tn_LogicalPort t)) as [r l] eqn:E.
    apply pl_acquire_cases in E as [(-> & _)|[Hr ->]]; [done| |done].
    destruct r; [done|]. intros [= _ <-]. apply mkDaemon_eta.
  - case_bool_decide; [|by intros [= _ <-]]. cbn [negb].
    destruct (SplitHostPort (tn_Listen t)) as [[h p]|]; [|by intros [= _ <-]].
    destruct (Atoi p); [|by intros [= _ <-]].
    destruct (se_listen env t), (se_carrier env t); case_bool_decide; by intros [= _ <-].
Qed.

Lemma owned_add_server d t name locks :
  owned d -> d_handles d !! name = None -> tn_LogicalPort t ∉ pl_held (d_locks d) ->
  pl_wf locks -> pl_held locks = {[tn_LogicalPort t]} ∪ pl_held (d_locks d) ->
  owned (mkDaemon locks (<[tunnel_proto t := t]> (d_protos d)) (d_closers d) (d_next d) (d_node d) (d_cfg d)
           (<[name := mkHandle (Some (tn_LogicalPort t)) (tunnel_proto t) None]> (d_handles d))).
Proof.
  intros [Hw Hsh Hl Hp Hc Hli Hci Hn] Hname Hnh Hw' Hh.
  set (port := tn_LogicalPort t) in *. pose proof (tunnel_proto_shape t) as Hts. fold port in Hts.
  split; cbn [d_locks d_protos d_closers d_next d_handles].
  - done.
  - intros n h. rewrite lookup_insert_Some. intros [[<- <-]|[_ H]]; [|eauto]. left. exists port.
    destruct Hts as [->| ->]; auto.
  - intros p. rewrite Hh, elem_of_union, elem_of_singleton, Hl. setoid_rewrite lookup_insert_Some. split.
    + intros [->|(n & h & H & Hk)]; [exists name; naive_solver|]. exists n, h. split; [|done].
      right. split; [|done]. intros ->. congruence.
    + intros (n & h & [[<- <-]|[_ H]] & Hk); [left; cbn in Hk; congruence|right; eauto].
  - intros x. rewrite dom_insert_L, elem_of_union, elem_of_singleton, Hp. setoid_rewrite lookup_insert_Some. split.
    + intros [->|(n & h & H & Hk & Hx)].
      * exists name, (mkHandle (Some port) (tunnel_proto t) None). split; [by left|]. split; [done|].
         destruct Hts as [->| ->]; discriminate.
      * exists n, h. split; [|done]. right. split; [|done]. intros ->. congruence.
    + intros (n & h & [[<- <-]|[_ H]] & Hk & Hx); [left; by cbn in Hk|right; eauto].
  - intros c. rewrite Hc. setoid_rewrite lookup_insert_Some. split.
    + intros (n & h & H & Hk). exists n, h. split; [|done]. right. split; [|done]. intros ->. congruence.
    + intros (n & h & [[<- <-]|[_ H]] & Hk); [done|eauto].
  - intros n1 n2 h1 h2 p. rewrite !lookup_insert_Some.
    intros [[<- <-]|[Hn1 H1]] [[<- <-]|[Hn2 H2]] K1 K2; cbn in K1, K2; try done; eauto;
      exfalso; simplify_eq; apply Hnh, Hl; eauto.
  - intros n1 n2 h1 h2 c. rewrite !lookup_insert_Some.
    intros [[<- <-]|[Hn1 H1]] [[<- <-]|[Hn2 H2]] K1 K2; cbn in K1, K2; try done; eauto.
  - intros n h c. rewrite lookup_insert_Some. intros [[<- <-]|[Hn1 H1]] K; [done|eauto].
Qed.

Lemma owned_add_client d t name :
  owned d -> d_handles d !! name = None ->
  owned (mkDaemon (d_locks d) (d_protos d) (<[d_next d := t]> (d_closers d)) (d_next d + 1) (d_node d) (d_cfg d)
           (<[name := mkHandle None "" (Some (d_next d))]> (d_handles d))).
Proof.
  intros [Hw Hsh Hl Hp Hc Hli Hci Hn] Hname.
  split; cbn [d_locks d_protos d_closers d_next d_handles].
  - done.
  - intros n h. rewrite lookup_insert_Some. intros [[<- <-]|[_ Hx]]; [|eauto]. right. by eexists.
  - intros q. rewrite Hl. setoid_rewrite lookup_insert_Some. split.
    + intros (n & h & Hx & Hk). exists n, h. split; [|done]. right. split; [|done]. intros ->. congruence.
    + intros (n & h & [[<- <-]|[_ Hx]] & Hk); [done|eauto].
  - intros x. rewrite Hp. setoid_rewrite lookup_insert_Some. split.
    + intros (n & h & Hx & Hk & Hne). exists n, h. split; [|done]. right. split; [|done]. intros ->. congruence.
    + intros (n & h & [[<- <-]|[_ Hx]] & Hk & Hne); [cbn in Hk; congruence|eauto].
  - intros c. rewrite dom_insert_L, elem_of_union, elem_of_singleton, Hc. setoid_rewrite lookup_insert_Some. split.
    + intros [->|(n & h & Hx & Hk)].
      * exists name, (mkHandle None "" (Some (d_next d))). split; [by left|done].
      * exists n, h. split; [|done]. right. split; [|done]. intros ->. congruence.
    + intros (n & h & [[<- <-]|[_ Hx]] & Hk); [left; cbn in Hk; congruence|right; eauto].
  - intros n1 n2 h1 h2 q. rewrite !lookup_insert_Some.
    intros [[<- <-]|[Hn1 H1]] [[<- <-]|[Hn2 H2]] K1 K2; cbn in K1, K2; try done; eauto.
  - intros n1 n2 h1 h2 c. rewrite !lookup_insert_Some.
    intros [[<- <-]|[Hn1 H1]] [[<- <-]|[Hn2 H2]] K1 K2; cbn in K1, K2; try done; eauto;
      exfalso; simplify_eq;
      match goal with K : th_closer _ = Some (d_next d) |- _ => eapply Hn in K; [|done]; lia end.
  - intros n h c. rewrite lookup_insert_Some. intros [[<- <-]|[Hn1 H1]] K.
    + cbn in K. simplify_eq. lia.
    + specialize (Hn _ _ _ H1 K). lia.
Qed.

(** A start that succeeds yields the tunnel's handle and keeps the others. *)
Lemma start_Ok env d t h d' :
  owned d -> start env d t = (Ok h, d') ->
  serves d' t h /\ d_handles d' = d_handles d /\ d_cfg d' = d_cfg d /\ d_node d' = d_node d /\
  (forall q, pl_blocked (d_locks d') q = pl_blocked (d_locks d) q) /\
  pl_held (d_locks d') = (if bool_decide (tn_Mode t = ModeServer) then {[tn_LogicalPort t]} else ∅)
                         ∪ pl_held (d_locks d) /\
  forall name, d_handles d !! name = None ->
    owned (set_handles d' (<[name := h]> (d_handles d'))).
Proof.
  intros Ho. unfold start, startServer, startClient, serves, handle_for. destruct (se_token env t); [done|].
  case_bool_decide as Em.
  - destruct (pl_acquire (d_locks d) (tn_LogicalPort t)) as [r l] eqn:E.
    apply pl_acquire_cases in E as [(-> & _ & Hnh & _ & Hw' & Hh & Hb)|[Hr ->]]; [| |apply Ho].
    2:{ destruct r; done. }
    intros [= <- <-]. split_and!; try done; [apply lookup_insert_eq|]. intros name Hname.
    exact (owned_add_server d t name l Ho Hname Hnh Hw' Hh).
  - case_bool_decide; [|done]. cbn [negb].
    destruct (SplitHostPort (tn_Listen t)) as [[host p]|]; [|done]. destruct (Atoi p); [|done].
    intros E.
    assert (h = mkHandle None "" (Some (d_next d)) /\
      d' = mkDaemon (d_locks d) (d_protos d) (<[d_next d := t]> (d_closers d)) (d_next d + 1) (d_node d)
             (d_cfg d) (d_handles d)) as [-> ->]
      by (revert E; case_bool_decide; [destruct (se_carrier env t); [done|]|];
          destruct (se_listen env t); [done|by intros [= <- <-]|done|by intros [= <- <-]]).
    split_and!; try done; [by eexists|exists (d_next d); split; [done|apply lookup_insert_eq]|by rewrite union_empty_l_L|]. intros name Hname.
    exact (owned_add_client d t name Ho Hname).
Qed.

(** What a transition of the daemon leaves to a running handle. *)
Definition keeps (d d' : Daemon) (h : tunnelHandle) : Prop :=
  (th_proto h <> "" -> d_protos d' !! th_proto h = d_protos d !! th_proto h) /\
  (forall c, th_closer h = Some c -> d_closers d' !! c = d_closers d !! c).

Lemma keeps_refl d h : keeps d d h.
Proof. done. Qed.
Lemma keeps_trans d1 d2 d3 h : keeps d1 d2 h -> keeps d2 d3 h -> keeps d1 d3 h.
Proof.
  intros [H1 H2] [H3 H4]. split; [intros Hx; by rewrite H3, H1|]. intros c Hc. by rewrite (H4 c Hc), (H2 c Hc).
Qed.

Lemma serves_keeps d d' t h : keeps d d' h -> serves d t h -> serves d' t h.
Proof.
  intros [Hp Hc] [Hf Hs]. split; [done|]. unfold handle_for in Hf. case_bool_decide.
  - rewrite Hp; [done|]. subst h. cbn. destruct (tunnel_proto_shape t) as [->| ->]; discriminate.
  - destruct Hs as (c & Ec & Hs). exists c. by rewrite Hc.
Qed.

Lemma start_keeps env d t r d' n h :
  owned d -> start env d t = (Ok r, d') -> d_handles d !! n = Some h -> keeps d d' h.
Proof.
  intros Ho. unfold start, startServer, startClient. destruct (se_token env t); [done|]. case_bool_decide as Em.
  - destruct (pl_acquire (d_locks d) (tn_LogicalPort t)) as [e l] eqn:E.
    apply pl_acquire_cases in E as [(-> & _ & Hnh & _)|[Hr ->]]; [| |apply Ho].
    2:{ destruct e; done. }
    intros [= <- <-] Hn. split; [|done]. intros Hx. cbn. apply lookup_insert_ne. intros E. apply Hnh.
    destruct (shape_proto h _ (ow_shape _ Ho _ _ Hn) eq_refl Hx) as (p & Hp & Hs).
    apply (ow_lock _ Ho). exists n, h. split; [done|]. rewrite Hp. f_equal.
    eapply proto_port; [exact Hs|]. rewrite <- E. apply tunnel_proto_shape.
  - case_bool_decide; [|done]. cbn [negb].
    destruct (SplitHostPort (tn_Listen t)) as [[host p]|]; [|done]. destruct (Atoi p); [|done].
    intros E Hn.
    assert (d' = mkDaemon (d_locks d) (d_protos d) (<[d_next d := t]> (d_closers d)) (d_next d + 1) (d_node d)
             (d_cfg d) (d_handles d)) as ->
      by (revert E; case_bool_decide; [destruct (se_carrier env t); [done|]|];
          destruct (se_listen env t); [done|by intros [= <- <-]|done|by intros [= <- <-]]).
    split; [done|]. intros c Hc. cbn. apply lookup_insert_ne.
    pose proof (ow_next _ Ho _ _ _ Hn Hc). lia.
Qed.

Lemma stop_keeps d name n h : owned d -> n <> name -> d_handles d !! n = Some h -> keeps d (stop d name) h.
Proof.
  intros Ho Hne Hn. unfold stop. destruct (d_handles d !! name) as [k|] eqn:Ek; [|done]. split; cbn.
  - intros Hx. case_bool_decide; [done|]. apply lookup_delete_ne. intros E. apply Hne.
    by eapply (owned_proto_inj d n name h k (th_proto h)).
  - intros c Hc. destruct (th_closer k) as [c'|] eqn:Ec; [|done]. apply lookup_delete_ne. intros ->. apply Hne.
    by eapply (ow_closer_inj _ Ho n name h k c).
Qed.

(** ** Stopping *)

Lemma stop_handles d name : d_handles (stop d name) = delete name (d_handles d).
Proof.
  unfold stop. destruct (d_handles d !! name) eqn:E; [done|]. by rewrite delete_id.
Qed.
Lemma stop_cfg d name : d_cfg (stop d name) = d_cfg d.
Proof. unfold stop. by destruct (d_handles d !! name). Qed.

Lemma stop_all_handles d names n :
  d_handles (foldl stop d names) !! n = if bool_decide (n ∈ names) then None else d_handles d !! n.
Proof.
  revert d; induction names as [|m names IH]; intros d; cbn [foldl]; [done|].
  rewrite IH, stop_handles. destruct (decide (n ∈ names)).
  - rewrite !bool_decide_true; set_solver.
  - rewrite (bool_decide_false (n ∈ names)) by done. destruct (decide (n = m)) as [->|].
    + rewrite bool_decide_true by set_solver. by rewrite lookup_delete_eq.
    + rewrite bool_decide_false by set_solver. by rewrite lookup_delete_ne.
Qed.

Lemma owned_stop_all d names : owned d -> owned (foldl stop d names).
Proof. revert d; induction names as [|m names IH]; intros d H; cbn [foldl]; auto using owned_stop. Qed.

(** Nothing is left of a daemon. *)
Definition released (d : Daemon) : Prop :=
  pl_held (d_locks d) = ∅ /\ d_protos d = ∅ /\ d_closers d = ∅ /\ d_handles d = ∅ /\ d_node d = None.

Lemma owned_empty d : owned d -> d_handles d = ∅ ->
  pl_held (d_locks d) = ∅ /\ d_protos d = ∅ /\ d_closers d = ∅.
Proof.
  intros [Hw Hsh Hl Hp Hc _ _ _] E. rewrite E in Hl, Hp, Hc.
  split_and!; [|apply dom_empty_inv_L..]; apply set_eq; intros x; [rewrite Hl|rewrite Hp|rewrite Hc];
    (split; [|set_solver]); intros (n & h & H & _); by rewrite lookup_empty in H.
Qed.

Lemma Close_released d names :
  owned d -> range_of (d_handles d) names -> released (Close d names).
Proof.
  intros Ho [_ Hr]. unfold Close. set (d' := foldl stop d names).
  assert (d_handles d' = ∅) as E.
  { apply map_eq. intros n. unfold d'. rewrite stop_all_handles, lookup_empty.
    case_bool_decide as Hin; [done|]. rewrite Hr in Hin. by apply eq_None_not_Some. }
  destruct (owned_empty d' (owned_stop_all _ _ Ho) E) as (? & ? & ?). by split_and!.
Qed.

(** ** Running *)

Lemma run_tunnels_spec env d tunnels r d' :
  owned d -> NoDup (tn_Name <$> tunnels) ->
  (forall n, n ∈ tn_Name <$> tunnels -> d_handles d !! n = None) ->
  run_tunnels env d tunnels = (r, d') ->
  owned d' /\ d_cfg d' = d_cfg d /\ d_node d' = d_node d /\
  (forall n h, d_handles d !! n = Some h -> keeps d d' h) /\
  (r = None ->
   (forall t, t ∈ tunnels -> exists h, d_handles d' !! tn_Name t = Some h /\ serves d' t h) /\
   (forall n, n ∉ tn_Name <$> tunnels -> d_handles d' !! n = d_handles d !! n)).
Proof.
  revert d; induction tunnels as [|t tunnels IH]; intros d Ho Hd Hf; cbn [run_tunnels].
  { intros [= <- <-]. split_and!; try done. set_solver. }
  rewrite fmap_cons in Hd, Hf. apply NoDup_cons in Hd as [Hnt Hd].
  destruct (start env d t) as [[h|e] d1] eqn:Es.
  - destruct (start_Ok _ _ _ _ _ Ho Es) as (Hh & Eh & Ec & En & _ & _ & Ho1).
    specialize (Ho1 (tn_Name t) ltac:(apply Hf; set_solver)).
    intros E. apply IH in E as (Ho' & Ec' & En' & Hkeep & Hr); [|done|done|].
    + cbn [set_handles d_cfg d_node d_handles] in *. split_and!; try congruence; try done.
      { intros n h' Hn. eapply keeps_trans; [by eapply start_keeps|].
        apply (Hkeep n h'). rewrite lookup_insert_ne, Eh; [done|]. intros <-. rewrite Hf in Hn; [done|set_solver]. }
      intros Hn. destruct (Hr Hn) as [Ht Hk]. split.
      * intros t' [->|Hin]%elem_of_cons; [|auto]. exists h. split.
        { rewrite Hk by done. by rewrite lookup_insert_eq. }
        eapply serves_keeps; [|exact Hh]. apply (Hkeep (tn_Name t)), lookup_insert_eq.
      * intros n Hnn. rewrite Hk by set_solver. rewrite lookup_insert_ne by set_solver. by rewrite Eh.
    + intros n Hn. cbn [set_handles d_handles]. rewrite lookup_insert_ne by set_solver.
      rewrite Eh. apply Hf. set_solver.
  - apply start_Err in Es as ->; [|apply Ho]. intros [= <- <-]. split_and!; done.
Qed.

Lemma tunnelsByName_snoc tunnels t :
  tunnelsByName (tunnels ++ [t]) = <[tn_Name t := t]> (tunnelsByName tunnels).
Proof. unfold tunnelsByName. by rewrite foldl_app. Qed.

Lemma lookup_tunnelsByName tunnels n t :
  NoDup (tn_Name <$> tunnels) -> tunnelsByName tunnels !! n = Some t <-> t ∈ tunnels /\ tn_Name t = n.
Proof.
  induction tunnels as [|u tunnels IH] using rev_ind; [set_solver|].
  rewrite fmap_app, NoDup_app. intros (Hd & Hn & _).
  rewrite tunnelsByName_snoc, lookup_insert_Some, IH, elem_of_app, list_elem_of_singleton by done. split.
  - intros [[<- ->]|[? [? ?]]]; auto.
  - intros [[Hin| ->] <-]; [|by left]. right. split; [|done].
    intros E. apply (Hn (tn_Name t)); [by apply list_elem_of_fmap_2|]. rewrite <- E. set_solver.
Qed.

(** The handles are those of the configuration, and each handler and listener works for its tunnel as the
    configuration has it. *)
Definition sync (d : Daemon) : Prop := forall n,
  match tunnelsByName (cf_Tunnels (d_cfg d)) !! n, d_handles d !! n with
  | Some t, Some h => serves d t h
  | None, None => True
  | _, _ => False
  end.

Lemma owned_init locks cfg node : pl_wf locks -> pl_held locks = ∅ -> owned (daemon_init locks cfg node).
Proof.
  intros Hw Hh. split; cbn [daemon_init d_locks d_protos d_closers d_next d_handles];
    try (intros *; rewrite ?Hh; try rewrite lookup_empty; done).
  - intros p. rewrite Hh. split; [set_solver|]. intros (n & h & H & _). by rewrite lookup_empty in H.
  - intros p. split; [set_solver|]. intros (n & h & H & _). by rewrite lookup_empty in H.
  - intros p. split; [set_solver|]. intros (n & h & H & _). by rewrite lookup_empty in H.
Qed.

(** The two outcomes of [Run]. *)
Lemma Run_spec locks cfg pathErr identityErr nodeErr env r d :
  pl_wf locks -> pl_held locks = ∅ ->
  Run locks cfg pathErr identityErr nodeErr env = (r, d) ->
  match r with
  | Ok _ => owned d /\ sync d /\ cfg = Some (d_cfg d) /\ d_node d = Some (node_params_of (d_cfg d))
  | Err _ => released d
  end.
Proof.
  intros Hw Hh. unfold Run.
  assert (forall c, released (daemon_init locks c None)) as Hi by done.
  destruct cfg as [cfg|]; [|by intros [= <- <-]].
  destruct (Validate cfg) as [[]|] eqn:Ev; [|by intros [= <- <-]].
  destruct pathErr; [by intros [= <- <-]|]. destruct identityErr; [by intros [= <- <-]|].
  destruct nodeErr; [by intros [= <- <-]|]. apply Config_Validate_Ok in Ev as (_ & _ & _ & _ & _ & Hd & _).
  destruct (run_tunnels env (daemon_init locks cfg (Some (node_params_of cfg))) (cf_Tunnels cfg)) as [o d1] eqn:E.
  apply run_tunnels_spec in E as (Ho & Ec & En & _ & Hr); [|by apply owned_init|done|done].
  cbn [daemon_init d_cfg d_node d_handles] in *.
  destruct o as [err|]; intros [= <- <-].
  - apply Close_released; [done|]. split; [apply NoDup_elements|].
    intros n. by rewrite elem_of_elements, elem_of_dom.
  - destruct (Hr eq_refl) as [Ht Hk]. split_and!; try congruence; try done. intros n. rewrite Ec.
    destruct (tunnelsByName (cf_Tunnels cfg) !! n) as [t|] eqn:Et.
    + apply lookup_tunnelsByName in Et as [Hin <-]; [|done]. by destruct (Ht t Hin) as (h & -> & Hh').
    + rewrite Hk, lookup_empty; [done|]. intros (t & -> & Hin)%list_elem_of_fmap.
      assert (tunnelsByName (cf_Tunnels cfg) !! tn_Name t = Some t) by (by apply lookup_tunnelsByName).
      congruence.
Qed.

(** C14: starting the daemon is atomic.  [Run] either starts every tunnel of a
    valid configuration, each with its handle and each lock, protocol handler and listener
    owned by exactly one tunnel, or fails and leaves no lock, handler, listener or node behind. *)
Theorem run_all_or_nothing locks cfg pathErr identityErr nodeErr env r d :
  pl_wf locks -> pl_held locks = ∅ ->
  Run locks cfg pathErr identityErr nodeErr env = (r, d) ->
  match r with
  | Ok _ => owned d /\ sync d /\ cfg = Some (d_cfg d) /\ d_node d = Some (node_params_of (d_cfg d))
  | Err _ => released d
  end.
Proof. apply Run_spec. Qed.

(** An environment in which nothing outside the program fails. *)
Definition cooperative (env : start_env) : Prop :=
  forall t, se_token env t = None /\ se_carrier env t = None /\ se_listen env t = None.

Lemma start_complete env d t :
  owned d -> cooperative env -> tunnel_ok t ->
  (tn_Mode t = ModeServer ->
   (tn_LogicalPort t ∉ pl_held (d_locks d)) /\ pl_blocked (d_locks d) (tn_LogicalPort t) = false) ->
  exists h d', start env d t = (Ok h, d').
Proof.
  intros Ho Hc Ht Hs. destruct (Hc t) as (H1 & H2 & H3). unfold start. rewrite H1.
  assert (tn_LogicalPort t <> 0) as Hp by (by destruct Ht).
  case_bool_decide as Em.
  - destruct (Hs Em) as [Hh Hb]. unfold startServer.
    destruct (pl_acquire (d_locks d) (tn_LogicalPort t)) as [r l] eqn:E.
    apply pl_acquire_free in E as (-> & _); [by eauto|apply Ho|done..].
  - destruct Ht as [? ?|Et _ Hpr [_ (host & port & Hsp & Hv)] _ _|? ?]; [done| |done].
    unfold startClient. rewrite bool_decide_true, Hsp by done. cbn [negb].
    unfold validPort in Hv. destruct (Atoi port); [|done]. rewrite H2, H3. case_bool_decide; eauto.
Qed.

Lemma run_tunnels_complete env d tunnels :
  owned d -> cooperative env -> Forall tunnel_ok tunnels -> NoDup (tn_Name <$> tunnels) ->
  (forall n, n ∈ tn_Name <$> tunnels -> d_handles d !! n = None) -> NoDup (server_ports tunnels) ->
  (forall p, p ∈ server_ports tunnels -> (p ∉ pl_held (d_locks d)) /\ pl_blocked (d_locks d) p = false) ->
  exists d', run_tunnels env d tunnels = (None, d').
Proof.
  revert d; induction tunnels as [|t tunnels IH]; intros d Ho Hc Ht Hd Hf Hs Hp; cbn [run_tunnels]; [eauto|].
  apply Forall_cons in Ht as [Ht Hts]. rewrite fmap_cons in Hd, Hf. apply NoDup_cons in Hd as [Hnt Hd].
  destruct (start_complete env d t Ho Hc Ht) as (h & d1 & Es).
  { intros Em. apply Hp, elem_of_server_ports. exists t. set_solver. }
  rewrite Es. destruct (start_Ok _ _ _ _ _ Ho Es) as (_ & Eh & _ & _ & Hb & Hh & Ho1).
  apply IH; [by apply Ho1, Hf; set_solver|done|done|done| | |].
  - intros n Hn. cbn [set_handles d_handles]. rewrite lookup_insert_ne by set_solver. rewrite Eh.
    apply Hf. set_solver.
  - unfold server_ports in *. destruct (decide (tn_Mode t = ModeServer));
      [rewrite filter_cons_True in Hs by done; by apply NoDup_cons in Hs as [_ Hs]
      |by rewrite filter_cons_False in Hs].
  - intros p Hin. cbn [set_handles d_locks]. rewrite Hb, Hh. split.
    + unfold server_ports in Hs, Hin. case_bool_decide as Em.
      * rewrite filter_cons_True in Hs by done. rewrite fmap_cons in Hs. apply NoDup_cons in Hs as [Hs _].
        assert (p ∉ pl_held (d_locks d)) by (apply Hp, elem_of_server_ports;
          apply elem_of_server_ports in Hin as (u & ? & ? & ?); exists u; set_solver).
        set_solver.
      * assert (p ∉ pl_held (d_locks d)) by (apply Hp, elem_of_server_ports;
          apply elem_of_server_ports in Hin as (u & ? & ? & ?); exists u; set_solver).
        set_solver.
    + apply Hp, elem_of_server_ports. apply elem_of_server_ports in Hin as (u & ? & ? & ?).
      exists u. set_solver.
Qed.

(** Validation suffices to start.  With a configuration [Validate] accepts,
    ports that no other process holds and an environment that does not fail, [Run] starts
    the daemon: validated tunnels never get in each other's way. *)
Theorem run_complete locks cfg env :
  pl_wf locks -> pl_held locks = ∅ -> cooperative env -> Validate cfg = Ok tt ->
  (forall p, p ∈ server_ports (cf_Tunnels cfg) -> pl_blocked locks p = false) ->
  fst (Run locks (Some cfg) None None None env) = Ok tt.
Proof.
  intros Hw Hh Hc Hv Hb. unfold Run. rewrite Hv.
  apply Config_Validate_Ok in Hv as (_ & _ & _ & Ht & _ & Hd & Hs).
  destruct (run_tunnels_complete env (daemon_init locks cfg (Some (node_params_of cfg))) (cf_Tunnels cfg)) as [d' E];
    [by apply owned_init|done..| |by rewrite E].
  intros p Hp. cbn [daemon_init d_locks]. rewrite Hh. split; [set_solver|auto].
Qed.

(** ** Reloading *)

Lemma reload_stops_handles old new d names n :
  d_handles (reload_stops old new d names) !! n =
  if bool_decide (n ∈ names /\ new !! n <> old !! n) then None else d_handles d !! n.
Proof.
  revert d; induction names as [|m names IH]; intros d; unfold reload_stops in *; cbn [foldl].
  { rewrite bool_decide_false by set_solver. done. }
  rewrite IH. destruct (decide (n ∈ names /\ new !! n <> old !! n)) as [H|H].
  - rewrite !bool_decide_true; set_solver.
  - rewrite (bool_decide_false (n ∈ names /\ _)) by done.
    destruct (decide (new !! m = old !! m)) as [E|E].
    + rewrite (bool_decide_true (new !! m = old !! m)) by done. rewrite bool_decide_false; [done|].
      intros [[->|?]%elem_of_cons ?]; tauto.
    + rewrite (bool_decide_false (new !! m = old !! m)) by done. rewrite stop_handles.
      destruct (decide (n = m)) as [->|Hne].
      * rewrite lookup_delete_eq, bool_decide_true by set_solver. done.
      * rewrite lookup_delete_ne by done. rewrite bool_decide_false; [done|].
        intros [[->|?]%elem_of_cons ?]; tauto.
Qed.

Lemma reload_stops_owned old new d names :
  owned d -> owned (reload_stops old new d names) /\ d_cfg (reload_stops old new d names) = d_cfg d /\
    d_node (reload_stops old new d names) = d_node d.
Proof.
  revert d; induction names as [|m names IH]; intros d Ho; unfold reload_stops in *; cbn [foldl]; [done|].
  case_bool_decide; [by apply IH|]. destruct (IH (stop d m)) as (H1 & H2 & H3); [by apply owned_stop|].
  split; [done|]. rewrite H2, H3. split; [apply stop_cfg|]. unfold stop. by destruct (d_handles d !! m).
Qed.

Lemma reload_stops_keeps old new d names n h :
  owned d -> d_handles d !! n = Some h -> new !! n = old !! n -> keeps d (reload_stops old new d names) h.
Proof.
  intros Ho Hn Hsame. revert d Ho Hn; induction names as [|m names IH]; intros d Ho Hn; unfold reload_stops in *; cbn [foldl]; [done|].
  case_bool_decide as Hm; [by apply IH|]. assert (n <> m) as Hne by congruence.
  eapply keeps_trans; [by eapply (stop_keeps d m n h)|]. apply IH; [by apply owned_stop|]. rewrite stop_handles. by rewrite lookup_delete_ne.
Qed.

Lemma reload_starts_spec env old new d names r d' :
  owned d -> NoDup names ->
  (forall n t, n ∈ names -> new !! n = Some t -> old !! n <> Some t -> d_handles d !! n = None) ->
  reload_starts env old new d names = (r, d') ->
  owned d' /\ d_cfg d' = d_cfg d /\ d_node d' = d_node d /\
  (forall n h, d_handles d !! n = Some h -> keeps d d' h) /\
  (forall n, (n ∉ names \/ new !! n = None \/ new !! n = old !! n) -> d_handles d' !! n = d_handles d !! n) /\
  (r = None -> forall n t, n ∈ names -> new !! n = Some t -> old !! n <> Some t ->
     exists h, d_handles d' !! n = Some h /\ serves d' t h).
Proof.
  revert d; induction names as [|m names IH]; intros d Ho Hd Hf; cbn [reload_starts].
  { intros [= <- <-]. split_and!; try done. set_solver. }
  apply NoDup_cons in Hd as [Hm Hd].
  assert (forall n t, n ∈ names -> new !! n = Some t -> old !! n <> Some t -> d_handles d !! n = None) as Hf'
    by (intros; eapply Hf; [set_solver|done|done]).
  destruct (new !! m) as [t|] eqn:Em.
  2:{ intros (Ho' & Ec & En & Hkeep & Hk & Hr)%IH; [|done..]. split_and!; try done; [set_solver|].
      intros Hn n t [->|Hin]%elem_of_cons; [congruence|by apply Hr]. }
  case_bool_decide as Eo.
  { intros (Ho' & Ec & En & Hkeep & Hk & Hr)%IH; [|done..]. split_and!; try done.
    - intros n Hn. apply Hk. destruct (decide (n = m)) as [->|]; [right; right; congruence|set_solver].
    - intros Hn n t' [->|Hin]%elem_of_cons; [congruence|by apply Hr]. }
  destruct (start env d t) as [[h|e] d1] eqn:Es.
  - destruct (start_Ok _ _ _ _ _ Ho Es) as (Hh & Eh & Ec1 & En1 & _ & _ & Ho1).
    assert (d_handles d !! m = None) as Hm0 by (eapply Hf; [set_solver|done|done]). specialize (Ho1 m Hm0).
    intros (Ho' & Ec & En & Hkeep & Hk & Hr)%IH; [|done|done|].
    + cbn [set_handles d_cfg d_handles d_node] in *. split_and!; [done|congruence|congruence| | |].
      * intros n h' Hn. eapply keeps_trans; [by eapply start_keeps|].
        apply (Hkeep n h'). rewrite lookup_insert_ne, Eh; [done|]. intros <-. congruence.
      * intros n Hn. destruct (decide (n = m)) as [->|Hne].
        { destruct Hn as [Hn|[Hn|Hn]]; [set_solver|congruence|congruence]. }
        rewrite Hk by set_solver. by rewrite lookup_insert_ne, Eh.
      * intros Hn n t' [->|Hin]%elem_of_cons Et Eo'; [|by apply (Hr Hn)].
        exists h. rewrite Em in Et. injection Et as <-. split.
        { rewrite Hk by auto. by rewrite lookup_insert_eq. }
        eapply serves_keeps; [|exact Hh]. apply (Hkeep m), lookup_insert_eq.
    + intros n t' Hin Et Eo'. cbn [set_handles d_handles]. rewrite lookup_insert_ne by set_solver.
      rewrite Eh. by eapply Hf'.
  - apply start_Err in Es as ->; [|apply Ho]. intros [= <- <-]. split_and!; done.
Qed.

(** What a successful [Reload] leaves. *)
Lemma Reload_Ok env d newCfg oldNames newNames d' :
  owned d -> sync d ->
  range_of (tunnelsByName (cf_Tunnels (d_cfg d))) oldNames ->
  range_of (tunnelsByName (cf_Tunnels newCfg)) newNames ->
  Reload env d (Some newCfg) oldNames newNames = (Ok tt, d') ->
  owned d' /\ sync d' /\ d_cfg d' = newCfg /\ d_node d' = d_node d /\
  (forall n t, tunnelsByName (cf_Tunnels (d_cfg d)) !! n = Some t ->
     tunnelsByName (cf_Tunnels newCfg) !! n = Some t ->
     d_handles d' !! n = d_handles d !! n /\ forall h, d_handles d !! n = Some h -> keeps d d' h).
Proof.
  intros Ho Hsy [Hd1 Hr1] [Hd2 Hr2]. unfold Reload.
  destruct (Validate newCfg) as [[]|]; [|done].
  set (old := tunnelsByName (cf_Tunnels (d_cfg d))) in *.
  set (new := tunnelsByName (cf_Tunnels newCfg)) in *.
  destruct (reload_stops_owned old new d oldNames Ho) as (Ho1 & _ & En1).
  pose proof (reload_stops_handles old new d oldNames) as Hst.
  destruct (reload_starts env old new (reload_stops old new d oldNames) newNames) as [[e|] d2] eqn:E; [done|].
  intros [= <-]. apply reload_starts_spec in E as (Ho2 & _ & En2 & Hkeep & Hk & Hr); [|done|done|].
  - assert (forall n, new !! n = old !! n -> d_handles d2 !! n = d_handles d !! n) as Hsame.
    { intros n Hn. rewrite Hk by auto. rewrite Hst, bool_decide_false by tauto. done. }
    assert (forall n h, new !! n = old !! n -> d_handles d !! n = Some h -> keeps d d2 h) as Hks.
    { intros n h Hn Hh. eapply keeps_trans; [by eapply reload_stops_keeps|]. apply (Hkeep n).
      rewrite Hst, bool_decide_false by tauto. done. }
    split_and!; [by destruct Ho2; split| |done|cbn; congruence|].
    + intros n. cbn [set_cfg d_cfg d_handles]. fold new. specialize (Hsy n). fold old in Hsy.
      destruct (decide (new !! n = old !! n)) as [En|En].
      { pose proof (fun h => Hks n h En) as Hkn. rewrite Hsame, En by done.
        destruct (old !! n) as [t|], (d_handles d !! n) as [h|]; try done.
        apply (serves_keeps d d2); [by apply Hkn|done]. }
      destruct (new !! n) as [t|] eqn:Et.
      * destruct (Hr eq_refl n t) as (h & -> & Hh); [rewrite Hr2; eauto|done|congruence|done].
      * rewrite Hk by auto. rewrite Hst. destruct (old !! n) eqn:Eo; [|done].
        rewrite bool_decide_true; [done|]. split; [rewrite Hr1; eauto|congruence].
    + intros n t Eo En. cbn [set_cfg d_handles]. assert (new !! n = old !! n) as Hn by congruence.
      split; [by apply Hsame|]. intros h Hh. by eapply Hks.
  - intros n t Hin Et Eo. rewrite Hst. specialize (Hsy n). fold old in Hsy.
    destruct (old !! n) as [u|] eqn:Eu.
    + rewrite bool_decide_true; [done|]. split; [rewrite Hr1; eauto|]. congruence.
    + case_bool_decide; [done|]. by destruct (d_handles d !! n).
Qed.

(** C15: A successful reload takes effect exactly, on the tunnels.  From a daemon whose handles are those of its
    configuration, which a failed reload may have undone, a [Reload] that returns nil leaves one handle for each
    tunnel of the new configuration, whose stream handler or local listener works for that tunnel with all its
    fields, and no other handle; it touches neither the handle nor the handler or listener of a tunnel that did not
    change, keeps every resource owned once, and leaves the node as it was built, whatever the new configuration says
    of identity, relays, proxy and discovery; all this whatever the order in which Go visits the maps. *)
Theorem reload_applies env d newCfg oldNames newNames d' :
  owned d -> sync d ->
  range_of (tunnelsByName (cf_Tunnels (d_cfg d))) oldNames ->
  range_of (tunnelsByName (cf_Tunnels newCfg)) newNames ->
  Reload env d (Some newCfg) oldNames newNames = (Ok tt, d') ->
  owned d' /\ sync d' /\ d_cfg d' = newCfg /\ d_node d' = d_node d /\
  (forall n t, tunnelsByName (cf_Tunnels (d_cfg d)) !! n = Some t ->
     tunnelsByName (cf_Tunnels newCfg) !! n = Some t ->
     d_handles d' !! n = d_handles d !! n /\ forall h, d_handles d !! n = Some h -> keeps d d' h).
Proof. apply Reload_Ok. Qed.

Lemma reload_stops_id old d names : reload_stops old old d names = d.
Proof.
  induction names as [|m names IH]; [done|]. unfold reload_stops in *; cbn [foldl].
  by rewrite bool_decide_true.
Qed.
Lemma reload_starts_id env old d names : reload_starts env old old d names = (None, d).
Proof.
  induction names as [|m names IH]; [done|]. cbn [reload_starts].
  destruct (old !! m); [|done]. by rewrite bool_decide_true.
Qed.

(** A failed reload cannot be undone by going back.  When a [Reload] fails after it
    has stopped tunnels, the daemon still records the old configuration, so reloading that very
    configuration succeeds without doing anything: what the failed call stopped stays down,
    the tunnels that only the old configuration has included. *)
Theorem failed_reload_revert env env' d newCfg oldNames newNames oldNames' newNames' e d1 :
  owned d -> Validate (d_cfg d) = Ok tt -> Validate newCfg = Ok tt ->
  range_of (tunnelsByName (cf_Tunnels newCfg)) newNames ->
  sync d -> range_of (tunnelsByName (cf_Tunnels (d_cfg d))) oldNames ->
  Reload env d (Some newCfg) oldNames newNames = (Err e, d1) ->
  Reload env' d1 (Some (d_cfg d)) oldNames' newNames' = (Ok tt, d1) /\
  (forall n t, tunnelsByName (cf_Tunnels (d_cfg d)) !! n = Some t ->
     tunnelsByName (cf_Tunnels newCfg) !! n = None -> d_handles d1 !! n = None).
Proof.
  intros Ho Hv Hn [Hd2 _] Hsy [_ Hr1]. unfold Reload at 1. rewrite Hn.
  set (old := tunnelsByName (cf_Tunnels (d_cfg d))) in *. set (new := tunnelsByName (cf_Tunnels newCfg)).
  destruct (reload_stops_owned old new d oldNames Ho) as (Ho1 & Ec1 & _).
  destruct (reload_starts env old new _ newNames) as [[e'|] d2] eqn:E; [|done]. intros [= _ <-].
  apply reload_starts_spec in E as (_ & Ec & _ & _ & Hk & _); [|done|done|].
  - assert (d_cfg d2 = d_cfg d) as Hc by congruence. split.
    + unfold Reload. rewrite Hv, Hc. rewrite reload_stops_id, reload_starts_id.
      unfold set_cfg. rewrite <- Hc. by rewrite mkDaemon_eta.
    + intros n t Eo En. fold new in En. rewrite Hk by auto. rewrite reload_stops_handles.
      rewrite bool_decide_true; [done|]. split; [rewrite Hr1; eauto|congruence].
  - intros n t Hin Et Eo. rewrite reload_stops_handles. specialize (Hsy n). fold old in Hsy.
    destruct (old !! n) as [u|] eqn:Eu.
    + rewrite bool_decide_true; [done|]. split; [rewrite Hr1; eauto|]. congruence.
    + case_bool_decide; [done|]. by destruct (d_handles d !! n).
Qed.

(** Closing releases everything the daemon owns. *)
Theorem close_releases d names :
  owned d -> range_of (d_handles d) names -> released (Close d names).
Proof. apply Close_released. Qed.
End daemon.

(** ** Relay priorities *)

Definition prio_le (a b : Relay) : Prop := rl_Priority a <= rl_Priority b.

Lemma sink_down_perm r l : sink_down r l ≡ₚ r :: l.
Proof.
  induction l as [|p l IH]; [done|]. cbn [sink_down]. case_match; [|done].
  rewrite IH. apply perm_swap.
Qed.

Lemma sink_down_sorted r l : StronglySorted (flip prio_le) l -> StronglySorted (flip prio_le) (sink_down r l).
Proof.
  induction 1 as [|p l Hl IH Hp]; [repeat constructor|]. cbn [sink_down].
  destruct (Z.ltb_spec (rl_Priority r) (rl_Priority p)).
  - constructor; [done|]. rewrite sink_down_perm. constructor; [unfold flip, prio_le; lia|done].
  - constructor; [by constructor|]. constructor; [unfold flip, prio_le; lia|].
    eapply Forall_impl; [exact Hp|]. unfold flip, prio_le. intros; lia.
Qed.

(** Relays of one priority keep their order. *)
Lemma sink_down_stable k r l :
  StronglySorted (flip prio_le) l ->
  base.filter (fun x => rl_Priority x = k) (sink_down r l) = base.filter (fun x => rl_Priority x = k) (r :: l).
Proof.
  induction 1 as [|p l Hl IH Hp]; [done|]. cbn [sink_down].
  destruct (Z.ltb_spec (rl_Priority r) (rl_Priority p)); [|done].
  rewrite filter_cons, IH, !filter_cons. repeat case_decide; try done. lia.
Qed.

Lemma relay_fold relays acc :
  StronglySorted (flip prio_le) acc ->
  StronglySorted (flip prio_le) (foldl (fun sorted r => sink_down r sorted) acc relays) /\
  (foldl (fun sorted r => sink_down r sorted) acc relays ≡ₚ acc ++ relays) /\
  forall k, base.filter (fun x => rl_Priority x = k) (foldl (fun sorted r => sink_down r sorted) acc relays)
            = reverse (base.filter (fun x => rl_Priority x = k) relays) ++ base.filter (fun x => rl_Priority x = k) acc.
Proof.
  revert acc; induction relays as [|r relays IH]; intros acc Ha; cbn [foldl].
  { rewrite app_nil_r. done. }
  destruct (IH (sink_down r acc)) as (H1 & H2 & H3); [by apply sink_down_sorted|]. split_and!; [done| |].
  - rewrite H2, sink_down_perm. cbn [app]. apply Permutation_middle.
  - intros k. rewrite H3, sink_down_stable, !filter_cons by done. case_decide; [|done].
    by rewrite reverse_cons, <- app_assoc.
Qed.

(** Relays are tried in priority order.  [relayAddrs] is a stable sort: all relays,
    by increasing priority, those of equal priority in the order of the configuration. *)
Theorem relay_order relays :
  StronglySorted prio_le (relay_sort relays) /\ relay_sort relays ≡ₚ relays /\
  (forall k, base.filter (fun x => rl_Priority x = k) (relay_sort relays)
             = base.filter (fun x => rl_Priority x = k) relays) /\
  relayAddrs relays = rl_Addr <$> relay_sort relays.
Proof.
  unfold relay_sort. destruct (relay_fold relays [] ltac:(constructor)) as (H1 & H2 & H3).
  split_and!; [| | |done].
  - revert H1. generalize (foldl (fun sorted r => sink_down r sorted) [] relays). clear.
    intros l. induction 1 as [|a l Hl IH Ha]; [constructor|]. rewrite reverse_cons.
    apply StronglySorted_app_2; [|done|repeat constructor].
    intros x y Hx Hy%list_elem_of_singleton. subst y. rewrite elem_of_reverse in Hx.
    rewrite Forall_forall in Ha. by apply Ha.
  - by rewrite reverse_Permutation, H2.
  - intros k. rewrite filter_reverse, H3, app_nil_r. apply reverse_involutive.
Qed.

(** ** Sessions of a server tunnel *)

(** The session [runServerSession] enters. *)
Inductive session_call :=
  | CallUDPForward (host : string) (port : Z)
  | CallTCPForward (host : string) (port : Z)
  | CallSOCKS
  | CallPTYServer
  | CallExec (command : string).

Definition runServerSession (t : Tunnel) : result session_call :=
  if bool_decide (tn_Type t = TunnelForward) then
    '(host, portText) ← map_err (Wrapf "target: %w" []) (SplitHostPort (tn_Target t));
    let host := if bool_decide (host = "") then "127.0.0.1" else host in
    port ← map_err (Wrapf "target port: %w" []) (Atoi portText);
    if bool_decide (tn_Protocol t = ProtocolUDP) then Ok (CallUDPForward host port)
    else Ok (CallTCPForward host port)
  else if bool_decide (tn_Type t = TunnelSOCKS) then Ok CallSOCKS
  else if bool_decide (tn_Type t = TunnelPTY) then Ok CallPTYServer
  else if bool_decide (tn_Type t = TunnelExec) then Ok (CallExec (tn_Exec t))
  else Err (Errorf "unsupported tunnel type %q" [AStr (tn_Type t)]).

(** Validated tunnels always have a session.  For a server tunnel that [validate]
    accepts, the dispatch never fails; a forward goes to a non-empty host and a port between 1
    and 65535, over UDP exactly when the tunnel says so. *)
Theorem validated_session t :
  validate t = Ok tt -> tn_Mode t = ModeServer ->
  exists call, runServerSession t = Ok call /\
    match call with
    | CallUDPForward host port | CallTCPForward host port =>
        host <> "" /\ 1 <= port <= 65535 /\ tn_Type t = TunnelForward /\
        (tn_Protocol t = ProtocolUDP <-> exists h p, call = CallUDPForward h p)
    | CallSOCKS => tn_Type t = TunnelSOCKS
    | CallPTYServer => tn_Type t = TunnelPTY
    | CallExec command => tn_Type t = TunnelExec /\ blank command = false
    end.
Proof.
  intros [Et _ Hpr [_ (host & port & Hsp & Hv)] _|Et Em _ _ _ _|Ht Em Hx _ _]%validate_Ok Hm.
  - unfold runServerSession. rewrite Hsp, bool_decide_true by done. cbn [map_err mbind result_bind].
    unfold validPort in Hv. destruct (Atoi port) as [p|]; [|done]. cbn [map_err mbind result_bind].
    apply andb_true_iff in Hv as [H1%Z.leb_le H2%Z.leb_le].
    assert ((if bool_decide (host = "") then "127.0.0.1" else host) <> "") by (by case_bool_decide).
    destruct (decide (tn_Protocol t = ProtocolUDP)) as [Hu|Hu];
      [rewrite (bool_decide_true (tn_Protocol t = ProtocolUDP)) by done
      |rewrite (bool_decide_false (tn_Protocol t = ProtocolUDP)) by done];
      eexists; (split; [reflexivity|]); (split_and!; [done|lia|lia|done|naive_solver..]).
  - rewrite Hm in Em. discriminate.
  - unfold runServerSession. rewrite !elem_of_cons, elem_of_nil in Ht.
    destruct Ht as [Et|[Et|[Et|[]]]]; rewrite Et; eexists; (split; [done|]); first [done|by split; [|apply Hx]].
Qed.

(** ** Instances *)

Module DaemonWitness.
Definition tunnel (name type mode : string) (port : Z) (target listen peer : string) : Tunnel :=
  mkTunnel name type mode port ProtocolTCP target listen peer "" "" false.
Definition ssh : Tunnel := tunnel "ssh" TunnelForward ModeServer 22 "127.0.0.1:22" "" "".
Definition web : Tunnel := tunnel "web" TunnelForward ModeClient 80 "" "127.0.0.1:8080" "12D3".
Definition dns : Tunnel := tunnel "dns" TunnelForward ModeServer 53 ":53" "" "".
Definition before : Config := mkConfig "" [] None "" [ssh; web].
Definition after : Config := mkConfig "" [] None "" [web; dns].

Definition works : start_env := mkStartEnv (fun _ => None) (fun _ => None) (fun _ => None).
(** Every token fails to load. *)
Definition tokenless : start_env :=
  mkStartEnv (fun _ => Some ErrNotExist) (fun _ => None) (fun _ => None).

Definition locks : view := mkView machine_init 1 "/c" ∅.
Definition running : Daemon := snd (Run locks (Some before) None None None works).
Definition names {A} (m : gmap string A) : list string := elements (dom m).
Definition byName (c : Config) : list string := names (tunnelsByName (cf_Tunnels c)).

Lemma names_range {A} (m : gmap string A) : range_of m (names m).
Proof. split; [apply NoDup_elements|]. intros n. unfold names. by rewrite elem_of_elements, elem_of_dom. Qed.

Lemma locks_wf : pl_wf locks.
Proof.
  split; [apply reachable_ok; by apply reach_init|].
  intros port. cbn [locks v_machine v_process v_directory v_ports]. set_solver.
Qed.

Lemma running_ok : owned running /\ sync running.
Proof.
  assert (fst (Run locks (Some before) None None None works) = Ok tt) as E by (vm_compute; reflexivity).
  destruct (Run locks (Some before) None None None works) as [r d] eqn:Er. cbn [fst] in E. subst r.
  pose proof (Run_spec locks (Some before) None None None works (Ok tt) d locks_wf eq_refl Er) as (? & ? & _).
  unfold running. by rewrite Er.
Qed.

Lemma run_all_or_nothing_witness :
  owned running /\ released (snd (Run locks (Some before) None None None tokenless)).
Proof.
  split.
  - pose proof (run_all_or_nothing locks (Some before) None None None works (Ok tt) running
      locks_wf eq_refl ltac:(vm_compute; reflexivity)) as (? & _). done.
  - pose proof (run_all_or_nothing locks (Some before) None None None tokenless
      (fst (Run locks (Some before) None None None tokenless)) _ locks_wf eq_refl
      (surjective_pairing _)) as H. exact H.
Defined.

Lemma run_complete_witness : fst (Run locks (Some before) None None None works) = Ok tt.
Proof.
  apply run_complete; [apply locks_wf|reflexivity|done|vm_compute; reflexivity|done].
Defined.

Lemma reload_applies_witness :
  sync (snd (Reload works running (Some after) (byName before) (byName after))).
Proof.
  destruct running_ok as [Ho Hs].
  apply (reload_applies works running after (byName before) (byName after));
    [done|done|apply names_range|apply names_range|vm_compute; reflexivity].
Defined.

(** [ssh] is stopped, [dns] does not start, and going back does not bring [ssh] up. *)
Lemma failed_reload_revert_witness :
  let d1 := snd (Reload tokenless running (Some after) (byName before) (byName after)) in
  Reload works d1 (Some before) (byName before) (byName before) = (Ok tt, d1) /\
  tunnelsByName (cf_Tunnels before) !! "ssh" = Some ssh /\ d_handles d1 !! "ssh" = None.
Proof.
  intros d1. destruct running_ok as [Ho Hs].
  destruct (failed_reload_revert tokenless works running after (byName before) (byName after)
    (byName before) (byName before) (Wrapf "reload: tunnel %q: %w" [AStr "dns"] ErrNotExist) d1) as [H1 H2];
    [done|vm_compute; reflexivity|vm_compute; reflexivity|apply names_range|done|apply names_range
    |vm_compute; reflexivity|].
  split; [exact H1|]. split; [vm_compute; reflexivity|]. apply (H2 _ ssh); vm_compute; reflexivity.
Defined.

(** A reload that adds two tunnels fails on the second.  The first runs but is not recorded, so
    the same reload, when nothing fails any more, stumbles over the lock the daemon itself
    holds: the new tunnels cannot be added without a restart. *)
Definition bad : Tunnel := tunnel "bad" TunnelForward ModeServer 54 ":54" "" "".
Definition grown : Config := mkConfig "" [] None "" [ssh; web; dns; bad].
Definition flaky : start_env :=
  mkStartEnv (fun t => if bool_decide (tn_Name t = "bad") then Some ErrNotExist else None)
    (fun _ => None) (fun _ => None).
Theorem failed_reload_retry :
  let order := ["ssh"; "web"; "dns"; "bad"] in
  let d1 := snd (Reload flaky running (Some grown) (byName before) order) in
  fst (Reload works d1 (Some grown) (byName before) order) =
    Err (Wrapf "reload: tunnel %q: %w" [AStr "dns"]
           (Wrapf "acquire logical port %d: %w" [AInt 53] (inUseError 53))).
Proof. vm_compute. reflexivity. Qed.

Lemma close_releases_witness : released (Close running (names (d_handles running))).
Proof.
  exact (close_releases running (names (d_handles running)) (proj1 running_ok) (names_range (d_handles running))).
Defined.

Lemma validated_session_witness : exists call, runServerSession dns = Ok call.
Proof.
  destruct (validated_session dns ltac:(vm_compute; reflexivity) eq_refl) as (call & H & _). by exists call.
Defined.
End DaemonWitness.
