(* ===== verification/Socks.v ===== *)
(** [session.SOCKS]: the SOCKS4, SOCKS4a and SOCKS5 server that runs on the remote side
    (session/forwarding.go).  It negotiates on a buffered reader over the stream, dials the
    target and bridges what the reader still holds. *)
From S2P Require Export GoBufio GoIP.
Local Open Scope Z_scope.

Definition maxSOCKS4UserIDLength : nat := 255.
Definition maxSOCKS4DomainLength : nat := 255.

(** What [SOCKS] meets: whether the handshake timer has fired when the negotiation ends, and
    the dialer (with its timeout). *)
Record socks_env := mkSocksEnv {
  expired : bool;
  dial : Z -> string -> result unit
}.

Definition errTimedOut : error := ErrNew "SOCKS handshake timed out".

Definition socks_timeout (timeout : Z) : Z := if timeout <=? 0 then 60 * 1000000000 else timeout.

Section socks.
Context `{RD : !Reader ST, WR : !Writer ST}.

(** The negotiation threads the reader; its writer is the stream below. *)
Definition M (A : Type) : Type := bufio ST -> result A * bufio ST.
#[local] Instance M_ret : MRet M := fun _ a b => (Ok a, b).
#[local] Instance M_bind : MBind M := fun _ _ k m b =>
  match m b with (Ok a, b) => k a b | (Err err, b) => (Err err, b) end.
Definition fail {A} (err : error) : M A := fun b => (Err err, b).
Definition readFull (n : nat) : M (list byte) := fun b => ReadFull b n.
Definition write (p : list byte) : M unit := fun b =>
  let '(_, e, b) := w_write b p in (match e with Some err => Err err | None => Ok tt end, b).
(** [_, _ = writer.Write(p)] *)
Definition write_ignored (p : list byte) : M unit := fun b => let '(_, _, b) := w_write b p in (Ok tt, b).

(** The host, the port, and the replies for success and failure. *)
Definition negotiated : Type := string * Z * list byte * list byte.

(** The switch on the address type. *)
Definition socks5_host (kind : Z) : M string :=
  match kind with
  | 1 => value ← readFull 4; mret (IP_String value)
  | 3 =>
      length ← ReadByte;
      value ← readFull (Z.to_nat (byte_Z length));
      mret (string_of value)
  | 4 => value ← readFull 16; mret (IP_String value)
  | _ => fail (Errorf "unsupported SOCKS5 address type: %d" [AInt kind])
  end.

Definition negotiateSOCKS5 : M negotiated :=
  count ← ReadByte;
  methods ← readFull (Z.to_nat (byte_Z count));
  if negb (bool_decide (x00 ∈ methods)) then
    write_ignored [x05; xff];;
    fail (ErrNew "SOCKS5 client did not offer the no-authentication method")
  else
  write [x05; x00];;
  header ← readFull 4;
  let at_ i := nth i header x00 in
  if negb (bool_decide (at_ 0%nat = x05)) || negb (bool_decide (at_ 1%nat = x01)) ||
     negb (bool_decide (at_ 2%nat = x00))
  then fail (ErrNew "only SOCKS5 CONNECT is supported")
  else
  host ← socks5_host (byte_Z (at_ 3%nat));
  portBytes ← readFull 2;
  let success := [x05; x00; x00; x01; x00; x00; x00; x00; x00; x00] in
  let failure := [x05; x05; x00; x01; x00; x00; x00; x00; x00; x00] in
  mret (host, get_be portBytes, success, failure).

(** [readSOCKS4Field]'s loop; [room] is what [maximum] leaves. *)
Fixpoint socks4_field_loop (maximum : nat) (name : string) (room : nat) (value : list byte) : M string :=
  current ← ReadByte;
  if bool_decide (current = x00) then mret (string_of value)
  else match room with
       | O => fail (Errorf "SOCKS4 %s exceeds %d bytes" [AStr name; AInt (Z.of_nat maximum)])
       | S room => socks4_field_loop maximum name room (value ++ [current])
       end.
Definition readSOCKS4Field (maximum : nat) (name : string) : M string :=
  socks4_field_loop maximum name maximum [].

Definition negotiateSOCKS4 : M negotiated :=
  command ← ReadByte;
  portBytes ← readFull 2;
  ip ← readFull 4;
  readSOCKS4Field maxSOCKS4UserIDLength "user ID";;
  if negb (bool_decide (command = x01)) then fail (ErrNew "only SOCKS4 CONNECT is supported")
  else
  host ←
    (if bool_decide (nth 0 ip x00 = x00) && bool_decide (nth 1 ip x00 = x00) &&
        bool_decide (nth 2 ip x00 = x00) && negb (bool_decide (nth 3 ip x00 = x00))
     then readSOCKS4Field maxSOCKS4DomainLength "domain"
     else mret (IP_String ip));
  mret (host, get_be portBytes, [x00; x5a] ++ portBytes ++ ip, [x00; x5b] ++ portBytes ++ ip).

(** The version byte and the switch on it. *)
Definition negotiate : M negotiated :=
  version ← ReadByte;
  if bool_decide (version = x05) then negotiateSOCKS5
  else if bool_decide (version = x04) then negotiateSOCKS4
  else fail (Errorf "unsupported SOCKS version: %d" [AInt (byte_Z version)]).

(** [SOCKS]: [Ok target] when it has dialled [target] and bridges it with the rest of the
    stream; the state is the reader's. *)
Definition SOCKS (env : socks_env) (timeout : Z) (stream : ST) : result string * bufio ST :=
  let timeout := socks_timeout timeout in
  match negotiate (NewReader stream) with
  | (Err err, b) => (Err (if expired env then errTimedOut else err), b)
  | (Ok (host, port, success, failure), b) =>
      if expired env then (Err errTimedOut, b)
      else
      let target := JoinHostPort host (itoa port) in
      match dial env timeout target with
      | Err err => let '(_, _, b) := w_write b failure in (Err err, b)
      | Ok _ =>
          match w_write b success with
          | (_, Some err, b) => (Err err, b)
          | (_, None, b) => (Ok target, b)
          end
      end
  end.
End socks.

(** ** The protocol *)

Inductive socks5_address :=
  | V4 (ip : list byte)
  | Domain (name : list byte)
  | V6 (ip : list byte).

(** The CONNECT requests of SOCKS5 (with the method negotiation), SOCKS4 and SOCKS4a. *)
Inductive socks_request :=
  | Socks5 (methods : list byte) (address : socks5_address) (port : Z)
  | Socks4 (port : Z) (ip user : list byte)
  | Socks4a (port : Z) (last : byte) (user domain : list byte).

Definition encode_address (a : socks5_address) : list byte :=
  match a with
  | V4 ip => x01 :: ip
  | Domain name => x03 :: Z_byte (blen name) :: name
  | V6 ip => x04 :: ip
  end.
Definition encode_request (q : socks_request) : list byte :=
  match q with
  | Socks5 methods a port =>
      [x05; Z_byte (blen methods)] ++ methods ++ [x05; x01; x00] ++ encode_address a ++ put_be 2 port
  | Socks4 port ip user => [x04; x01] ++ put_be 2 port ++ ip ++ user ++ [x00]
  | Socks4a port last user domain =>
      [x04; x01] ++ put_be 2 port ++ [x00; x00; x00; last] ++ user ++ [x00] ++ domain ++ [x00]
  end.

Definition address_ok (a : socks5_address) : Prop :=
  match a with
  | V4 ip => length ip = 4%nat
  | Domain name => (length name <= 255)%nat
  | V6 ip => length ip = 16%nat
  end.
(** A NUL-terminated field. *)
Definition field_ok (l : list byte) : Prop := (length l <= 255)%nat /\ (x00 ∉ l).
Definition request_ok (q : socks_request) : Prop :=
  match q with
  | Socks5 methods a port => (length methods <= 255)%nat /\ x00 ∈ methods /\ address_ok a /\ is_uint 16 port
  | Socks4 port ip user =>
      length ip = 4%nat /\ ~ (take 3 ip = [x00; x00; x00] /\ nth 3 ip x00 <> x00) /\ field_ok user /\ is_uint 16 port
  | Socks4a port last user domain => last <> x00 /\ field_ok user /\ field_ok domain /\ is_uint 16 port
  end.

Definition address_host (a : socks5_address) : string :=
  match a with V4 ip | V6 ip => IP_String ip | Domain name => string_of name end.
Definition request_target (q : socks_request) : string :=
  match q with
  | Socks5 _ a port => JoinHostPort (address_host a) (itoa port)
  | Socks4 port ip _ => JoinHostPort (IP_String ip) (itoa port)
  | Socks4a port _ _ domain => JoinHostPort (string_of domain) (itoa port)
  end.
(** What the server has written when it starts to bridge. *)
Definition request_replies (q : socks_request) : list byte :=
  match q with
  | Socks5 _ _ _ => [x05; x00] ++ [x05; x00; x00; x01; x00; x00; x00; x00; x00; x00]
  | Socks4 port ip _ => [x00; x5a] ++ put_be 2 port ++ ip
  | Socks4a port last _ _ => [x00; x5a] ++ put_be 2 port ++ [x00; x00; x00; last]
  end.

(** ** Negotiation *)

Section proofs.
Context `{RD : !Reader ST, WR : !Writer ST, SL : !StreamLaws ST}.
Context `{RP : !ReaderProgress ST, WA : !WriterReliable ST}.
Implicit Types b : bufio ST.
#[local] Existing Instances M_ret M_bind.

(** The reader moves over [d] and the stream is sent [out]. *)
Definition moves (d out : list byte) b b' : Prop :=
  r_rest b = d ++ r_rest b' /\ w_sink b' = w_sink b ++ out.

Lemma moves_trans d1 d2 o1 o2 b1 b2 b3 :
  moves d1 o1 b1 b2 -> moves d2 o2 b2 b3 -> moves (d1 ++ d2) (o1 ++ o2) b1 b3.
Proof. intros [H1 S1] [H2 S2]. split; [by rewrite H1, H2, app_assoc|by rewrite S2, S1, app_assoc]. Qed.

Lemma bind_inv {A B} (m : M A) (k : A -> M B) b y b'' :
  (m ≫= k) b = (Ok y, b'') <-> exists a b', m b = (Ok a, b') /\ k a b' = (Ok y, b'').
Proof. unfold mbind, M_bind. destruct (m b) as [[a|e] b']; naive_solver. Qed.

Lemma ReadByte_moves b c b' : ReadByte b = (Ok c, b') -> moves [c] [] b b'.
Proof using SL RP.
  intros E. pose proof (ReadByte_sink b _ _ E) as Hs. destruct (ReadByte_spec b) as (b1 & _ & H).
  destruct (r_rest b) as [|c1 rest] eqn:Er; rewrite E in H; destruct H as [H <-]; simplify_eq.
  split; [done|]. by rewrite app_nil_r.
Qed.
Lemma ReadByte_next b c rest :
  r_rest b = c :: rest -> exists b', ReadByte b = (Ok c, b') /\ moves [c] [] b b' /\ r_rest b' = rest.
Proof using SL RP.
  intros E. destruct (ReadByte_spec b) as (b1 & _ & H). rewrite E in H. destruct H as [H1 H2].
  exists b1. split_and!; [done|by apply ReadByte_moves|done].
Qed.

Lemma readFull_moves n b d b' : readFull n b = (Ok d, b') -> length d = n /\ moves d [] b b'.
Proof using SL.
  unfold readFull. intros E. pose proof (ReadFull_sink _ _ _ _ E) as Hs.
  apply ReadFull_inv in E as (H1 & H2 & _). split; [done|]. split; [done|]. by rewrite app_nil_r.
Qed.
Lemma readFull_next n b d rest :
  r_rest b = d ++ rest -> length d = n ->
  exists b', readFull n b = (Ok d, b') /\ moves d [] b b' /\ r_rest b' = rest.
Proof using SL.
  intros E <-. unfold readFull. destruct (ReadFull_ok b d rest E) as (b' & H1 & H2 & _).
  exists b'. split_and!; [done| |done]. by apply (readFull_moves (length d)) in H1 as [_ ?].
Qed.

Lemma write_moves p b : exists b', write p b = (Ok tt, b') /\ moves [] p b b' /\ r_rest b' = r_rest b.
Proof using SL WA.
  unfold write. destruct (w_write_all b p) as [b' E]. rewrite E. exists b'.
  pose proof (w_write_rest _ _ _ _ _ E) as [Hr _]. apply w_write_spec in E as [_ Hs].
  split_and!; [done| |done]. split; [done|]. rewrite Hs. unfold blen. by rewrite Nat2Z.id, take_ge by lia.
Qed.

(** A NUL-terminated field of at most [maximum] bytes, and nothing else. *)
Lemma field_loop_moves maximum name room value b host b' :
  socks4_field_loop maximum name room value b = (Ok host, b') ->
  exists l, (length l <= room)%nat /\ (x00 ∉ l) /\ host = string_of (value ++ l) /\ moves (l ++ [x00]) [] b b'.
Proof using SL RP WA.
  revert value b; induction room as [|room IH]; intros value b; cbn [socks4_field_loop];
    intros (c & b1 & H1%ReadByte_moves & H)%bind_inv; case_bool_decide as Hc.
  1, 3: subst c; injection H as <- <-; exists []; rewrite app_nil_r; cbn;
    (split_and!; [lia|set_solver|done|done]).
  - done.
  - apply IH in H as (l & Hl & Hn & -> & Hm). exists (c :: l). cbn [length].
    split_and!; [lia|set_solver|by rewrite <- app_assoc|].
    exact (moves_trans _ _ _ _ _ _ _ H1 Hm).
Qed.
Lemma field_loop_next maximum name room value b l rest :
  r_rest b = l ++ x00 :: rest -> (length l <= room)%nat -> x00 ∉ l ->
  exists b', socks4_field_loop maximum name room value b = (Ok (string_of (value ++ l)), b') /\
             moves (l ++ [x00]) [] b b' /\ r_rest b' = rest.
Proof using SL RP WA.
  revert value b room; induction l as [|c l IH]; intros value b room E Hl Hn.
  - destruct (ReadByte_next b x00 rest E) as (b' & H1 & H2 & H3). exists b'.
    rewrite app_nil_r. split_and!; [|done|done]. destruct room; cbn [socks4_field_loop];
      apply bind_inv; exists x00, b'; (split; [done|]); by rewrite bool_decide_true.
  - destruct room as [|room]; [cbn in Hl; lia|]. cbn [length] in Hl.
    destruct (ReadByte_next b c (l ++ x00 :: rest) E) as (b1 & H1 & H2 & H3).
    destruct (IH (value ++ [c]) b1 room H3) as (b' & H4 & H5 & H6); [lia|set_solver|].
    exists b'. split_and!; [|exact (moves_trans _ _ _ _ _ _ _ H2 H5)|done].
    cbn [socks4_field_loop]. apply bind_inv. exists c, b1. split; [done|].
    rewrite bool_decide_false by set_solver. rewrite H4. by rewrite <- app_assoc.
Qed.

Lemma Z_byte_length (c : byte) (l : list byte) : length l = Z.to_nat (byte_Z c) -> Z_byte (blen l) = c.
Proof using Type.
  intros E. unfold blen. rewrite E. pose proof (byte_Z_range c). rewrite Z2Nat.id by lia. apply Z_byte_Z.
Qed.
Lemma byte_Z_length (l : list byte) :
  (length l <= 255)%nat -> Z.to_nat (byte_Z (Z_byte (blen l))) = length l.
Proof using Type. intros H. unfold blen. rewrite byte_Z_byte, Z.mod_small by lia. lia. Qed.

Lemma socks5_host_moves c b host b' :
  socks5_host (byte_Z c) b = (Ok host, b') ->
  exists a, address_ok a /\ host = address_host a /\
    exists tail, encode_address a = c :: tail /\ moves tail [] b b'.
Proof using SL RP.
  assert (forall k, byte_Z c = byte_Z k -> c = k) as Hc by (intros k; apply (inj byte_Z)).
  unfold socks5_host. destruct (decide (byte_Z c = 1)) as [E|N1]; [|destruct (decide (byte_Z c = 3)) as [E|N3];
    [|destruct (decide (byte_Z c = 4)) as [E|N4]]].
  - rewrite E. intros (v & b1 & (Hl & Hm)%readFull_moves & [= <- <-])%bind_inv.
    exists (V4 v). split_and!; [done|done|]. exists v. by rewrite (Hc x01 E).
  - rewrite E. intros (n & b1 & H1%ReadByte_moves & (v & b2 & (Hl & Hm)%readFull_moves & [= <- <-])%bind_inv)%bind_inv.
    exists (Domain v). cbn [address_ok address_host encode_address]. pose proof (byte_Z_range n).
    split_and!; [lia|done|]. exists (n :: v). rewrite (Hc x03 E), (Z_byte_length n v Hl).
    split; [done|]. exact (moves_trans _ _ _ _ _ _ _ H1 Hm).
  - rewrite E. intros (v & b1 & (Hl & Hm)%readFull_moves & [= <- <-])%bind_inv.
    exists (V6 v). split_and!; [done|done|]. exists v. by rewrite (Hc x04 E).
  - intros H. exfalso. destruct (byte_Z c) as [|[[?|?|]|[?|[?|?|]|]|]|]; done.
Qed.

Lemma socks5_host_next a c tail b rest :
  address_ok a -> encode_address a = c :: tail -> r_rest b = tail ++ rest ->
  exists b', socks5_host (byte_Z c) b = (Ok (address_host a), b') /\ moves tail [] b b' /\ r_rest b' = rest.
Proof using SL RP.
  destruct a as [ip|name|ip]; cbn [address_ok encode_address address_host]; intros Hok [= <- <-] E.
  - destruct (readFull_next 4 b ip rest E Hok) as (b' & H1 & H2 & H3). exists b'. split_and!; [|done|done].
    change (byte_Z x01) with 1. cbn [socks5_host]. apply bind_inv. eauto.
  - destruct (ReadByte_next b _ _ E) as (b1 & H1 & M1 & R1).
    destruct (readFull_next _ b1 name rest R1 eq_refl) as (b' & H2 & M2 & R2). exists b'.
    split_and!; [|exact (moves_trans _ _ _ _ _ _ _ M1 M2)|done].
    change (byte_Z x03) with 3. cbn [socks5_host]. apply bind_inv. eexists _, b1. split; [done|].
    rewrite byte_Z_length by done. apply bind_inv. eauto.
  - destruct (readFull_next 16 b ip rest E Hok) as (b' & H1 & H2 & H3). exists b'. split_and!; [|done|done].
    change (byte_Z x04) with 4. cbn [socks5_host]. apply bind_inv. eauto.
Qed.

Definition socks5_tail (methods : list byte) (a : socks5_address) (port : Z) : list byte :=
  [Z_byte (blen methods)] ++ methods ++ [x05; x01; x00] ++ encode_address a ++ put_be 2 port.

Lemma port_bytes (l : list byte) : length l = 2%nat -> is_uint 16 (get_be l) /\ put_be 2 (get_be l) = l.
Proof using Type.
  intros E. pose proof (get_be_range l) as H. rewrite E in H. split; [exact H|].
  rewrite <- E at 1. apply put_get_be.
Qed.

Lemma header_cases (l : list byte) :
  length l = 4%nat ->
  negb (bool_decide (nth 0 l x00 = x05)) || negb (bool_decide (nth 1 l x00 = x01)) ||
  negb (bool_decide (nth 2 l x00 = x00)) = false -> l = [x05; x01; x00; nth 3 l x00].
Proof using Type.
  destruct l as [|c0 [|c1 [|c2 [|c3 [|]]]]]; try done. intros _. cbn [nth].
  rewrite !orb_false_iff, !negb_false_iff, !bool_decide_eq_true. by intros [[-> ->] ->].
Qed.

Lemma negotiateSOCKS5_moves b host port success failure b' :
  negotiateSOCKS5 b = (Ok (host, port, success, failure), b') ->
  exists methods a, request_ok (Socks5 methods a port) /\ host = address_host a /\
    success = [x05; x00; x00; x01; x00; x00; x00; x00; x00; x00] /\
    moves (socks5_tail methods a port) [x05; x00] b b'.
Proof using SL RP WA.
  unfold negotiateSOCKS5.
  intros (count & b1 & M1%ReadByte_moves & (methods & b2 & (L2 & M2)%readFull_moves & H)%bind_inv)%bind_inv.
  destruct (negb (bool_decide (x00 ∈ methods))) eqn:Em.
  { by apply bind_inv in H as (? & ? & ? & ?). }
  rewrite negb_false_iff, bool_decide_eq_true in Em.
  apply bind_inv in H as (? & b3 & H3 & (header & b4 & (L4 & M4)%readFull_moves & H)%bind_inv).
  destruct (write_moves [x05; x00] b2) as (b3' & H3' & M3 & _).
  rewrite H3' in H3. injection H3 as _ <-. cbv zeta in H.
  destruct (_ || _ || _) eqn:Eh; [done|]. apply header_cases in Eh; [|done].
  apply bind_inv in H as (h & b5 & (a & Ha & -> & tail & Et & M5)%socks5_host_moves & H).
  apply bind_inv in H as (pb & b6 & (L6 & M6)%readFull_moves & [= <- <- <- <- <-]).
  destruct (port_bytes pb L6) as [Hp Hpb]. pose proof (byte_Z_range count).
  exists methods, a. split_and!; [|done|done|].
  - cbn [request_ok]. split_and!; [lia|done|done|exact Hp].
  - unfold socks5_tail. rewrite (Z_byte_length count methods L2), Et, Hpb.
    pose proof (moves_trans _ _ _ _ _ _ _ M1 (moves_trans _ _ _ _ _ _ _ M2 (moves_trans _ _ _ _ _ _ _ M3
      (moves_trans _ _ _ _ _ _ _ M4 (moves_trans _ _ _ _ _ _ _ M5 M6))))) as Hm.
    rewrite Eh in Hm. exact Hm.
Qed.

Lemma negotiateSOCKS5_next methods a port b rest :
  request_ok (Socks5 methods a port) -> r_rest b = socks5_tail methods a port ++ rest ->
  exists failure b',
    negotiateSOCKS5 b = (Ok (address_host a, port, [x05; x00; x00; x01; x00; x00; x00; x00; x00; x00], failure), b')
    /\ moves (socks5_tail methods a port) [x05; x00] b b' /\ r_rest b' = rest.
Proof using SL RP WA.
  intros (Hm & Hz & Ha & Hp) E. unfold socks5_tail in E. rewrite <- !app_assoc in E.
  destruct (encode_address a) as [|c tail] eqn:Ea; [by destruct a|].
  destruct (ReadByte_next b _ _ E) as (b1 & H1 & M1 & R1).
  destruct (readFull_next _ b1 methods _ R1 eq_refl) as (b2 & H2 & M2 & R2).
  destruct (write_moves [x05; x00] b2) as (b3 & H3 & M3 & R3). rewrite R2 in R3.
  destruct (readFull_next 4 b3 [x05; x01; x00; c] (tail ++ put_be 2 port ++ rest)) as (b4 & H4 & M4 & R4);
    [done|done|].
  destruct (socks5_host_next a c tail b4 (put_be 2 port ++ rest) Ha Ea R4) as (b5 & H5 & M5 & R5).
  destruct (readFull_next 2 b5 (put_be 2 port) rest R5 eq_refl) as (b6 & H6 & M6 & R6).
  eexists _, b6. split_and!; [| |done].
  - unfold negotiateSOCKS5. apply bind_inv. eexists _, b1. split; [done|].
    rewrite byte_Z_length by done. apply bind_inv. exists methods, b2. split; [done|].
    rewrite bool_decide_true by done. cbn [negb]. apply bind_inv. exists tt, b3. split; [done|].
    apply bind_inv. eexists _, b4. split; [exact H4|]. cbn [nth]. rewrite !bool_decide_true by done.
    cbn [negb orb]. apply bind_inv. eexists _, b5. split; [exact H5|]. apply bind_inv.
    eexists _, b6. split; [exact H6|]. rewrite get_put_be, Z.mod_small by exact Hp. reflexivity.
  - unfold socks5_tail. rewrite Ea.
    exact (moves_trans _ _ _ _ _ _ _ M1 (moves_trans _ _ _ _ _ _ _ M2 (moves_trans _ _ _ _ _ _ _ M3
      (moves_trans _ _ _ _ _ _ _ M4 (moves_trans _ _ _ _ _ _ _ M5 M6))))).
Qed.

(** The host of a SOCKS4 address: the address itself, or the domain that follows. *)
Definition hidden (ip : list byte) : bool :=
  bool_decide (nth 0 ip x00 = x00) && bool_decide (nth 1 ip x00 = x00) &&
  bool_decide (nth 2 ip x00 = x00) && negb (bool_decide (nth 3 ip x00 = x00)).
Lemma hidden_true ip : length ip = 4%nat -> hidden ip = true ->
  ip = [x00; x00; x00; nth 3 ip x00] /\ nth 3 ip x00 <> x00.
Proof using Type.
  destruct ip as [|c0 [|c1 [|c2 [|c3 [|]]]]]; try done. intros _. unfold hidden. cbn [nth].
  rewrite !andb_true_iff, negb_true_iff, !bool_decide_eq_true, bool_decide_eq_false.
  by intros [[[-> ->] ->] ?].
Qed.
Lemma hidden_false ip : length ip = 4%nat -> hidden ip = false <->
  ~ (take 3 ip = [x00; x00; x00] /\ nth 3 ip x00 <> x00).
Proof using Type.
  destruct ip as [|c0 [|c1 [|c2 [|c3 [|]]]]]; try done. intros _. unfold hidden. cbn [nth take].
  rewrite <- not_true_iff_false, !andb_true_iff, negb_true_iff, !bool_decide_eq_true, bool_decide_eq_false.
  split; intros H K; apply H; [destruct K as [E ?]; by injection E as -> -> ->|by destruct K as [[[-> ->] ->] ?]].
Qed.

Lemma negotiateSOCKS4_moves b host port success failure b' :
  negotiateSOCKS4 b = (Ok (host, port, success, failure), b') ->
  exists q, request_ok q /\ request_target q = JoinHostPort host (itoa port) /\ request_replies q = success /\
    exists tail, encode_request q = x04 :: tail /\ moves tail [] b b'.
Proof using SL RP WA.
  unfold negotiateSOCKS4.
  intros (command & b1 & M1%ReadByte_moves & (pb & b2 & (L2 & M2)%readFull_moves & H)%bind_inv)%bind_inv.
  apply bind_inv in H as (ip & b3 & (L3 & M3)%readFull_moves & H).
  apply bind_inv in H as (user' & b4 & (user & Lu & Nu & _ & M4)%field_loop_moves & H).
  case_bool_decide as Ec; [|done]. subst command. cbn [negb] in H.
  destruct (port_bytes pb L2) as [Hp Hpb].
  pose proof (moves_trans _ _ _ _ _ _ _ M1 (moves_trans _ _ _ _ _ _ _ M2
    (moves_trans _ _ _ _ _ _ _ M3 M4))) as M5.
  apply bind_inv in H as (h & b5 & H & [= <- <- <- <- <-]). fold (hidden ip) in H.
  destruct (hidden ip) eqn:Eh.
  - apply field_loop_moves in H as (domain & Ld & Nd & -> & M6).
    destruct (hidden_true ip L3 Eh) as [Eip Hl].
    exists (Socks4a (get_be pb) (nth 3 ip x00) user domain). split_and!.
    + done.
    + done.
    + cbn [request_replies]. by rewrite Hpb, <- Eip.
    + eexists. split; [reflexivity|]. rewrite Hpb, <- Eip.
      pose proof (moves_trans _ _ _ _ _ _ _ M5 M6) as Hm. rewrite <- !app_assoc in Hm. exact Hm.
  - injection H as <- <-. apply hidden_false in Eh; [|done].
    exists (Socks4 (get_be pb) ip user). split_and!.
    + done.
    + done.
    + cbn [request_replies]. by rewrite Hpb.
    + eexists. split; [reflexivity|]. rewrite Hpb. exact M5.
Qed.

Lemma socks4_front port ip user b rest :
  is_uint 16 port -> length ip = 4%nat -> field_ok user ->
  r_rest b = [x01] ++ put_be 2 port ++ ip ++ user ++ x00 :: rest ->
  exists b1 b2 b3 b4, ReadByte b = (Ok x01, b1) /\ readFull 2 b1 = (Ok (put_be 2 port), b2) /\
    readFull 4 b2 = (Ok ip, b3) /\
    readSOCKS4Field maxSOCKS4UserIDLength "user ID" b3 = (Ok (string_of user), b4) /\
    moves ([x01] ++ put_be 2 port ++ ip ++ user ++ [x00]) [] b b4 /\ r_rest b4 = rest.
Proof using SL RP WA.
  intros Hp Hi [Lu Nu] E.
  destruct (ReadByte_next b _ _ E) as (b1 & H1 & M1 & R1).
  destruct (readFull_next 2 b1 (put_be 2 port) _ R1 eq_refl) as (b2 & H2 & M2 & R2).
  destruct (readFull_next 4 b2 ip _ R2 Hi) as (b3 & H3 & M3 & R3).
  destruct (field_loop_next maxSOCKS4UserIDLength "user ID" maxSOCKS4UserIDLength [] b3 user rest R3 Lu Nu)
    as (b4 & H4 & M4 & R4).
  exists b1, b2, b3, b4. split_and!; try done.
  exact (moves_trans _ _ _ _ _ _ _ M1 (moves_trans _ _ _ _ _ _ _ M2 (moves_trans _ _ _ _ _ _ _ M3 M4))).
Qed.

Lemma negotiateSOCKS4_next q tail b rest :
  request_ok q -> encode_request q = x04 :: tail -> r_rest b = tail ++ rest ->
  exists host port failure b', negotiateSOCKS4 b = (Ok (host, port, request_replies q, failure), b') /\
    JoinHostPort host (itoa port) = request_target q /\ moves tail [] b b' /\ r_rest b' = rest.
Proof using SL RP WA.
  destruct q as [|port ip user|port last user domain]; cbn [request_ok encode_request]; [done| |].
  - intros (Hi & Hh & Hu & Hp) Et E. injection Et as <-.
    cbn [app] in E. rewrite <- !app_assoc in E. cbn [app] in E.
    destruct (socks4_front port ip user b rest Hp Hi Hu) as (b1 & b2 & b3 & b4 & H1 & H2 & H3 & H4 & Hm & Hr);
      [done|]. apply hidden_false in Hh; [|done].
    exists (IP_String ip), port. eexists _, b4. split_and!; [|done|exact Hm|done].
    unfold negotiateSOCKS4. apply bind_inv. eexists _, b1. split; [done|].
    apply bind_inv. eexists _, b2. split; [done|]. apply bind_inv. eexists _, b3. split; [done|].
    apply bind_inv. eexists _, b4. split; [done|]. cbn [negb]. rewrite bool_decide_true by done. cbn [negb].
    fold (hidden ip). rewrite Hh, get_put_be, Z.mod_small by exact Hp. reflexivity.
  - intros (Hl & Hu & [Ld Nd] & Hp) Et E. injection Et as <-.
    cbn [app] in E. rewrite <- !app_assoc in E. cbn [app] in E.
    destruct (socks4_front port [x00; x00; x00; last] user b (domain ++ x00 :: rest) Hp eq_refl Hu)
      as (b1 & b2 & b3 & b4 & H1 & H2 & H3 & H4 & Hm & Hr); [by rewrite E, <- ?app_assoc|].
    destruct (field_loop_next maxSOCKS4DomainLength "domain" maxSOCKS4DomainLength [] b4 domain rest Hr Ld Nd)
      as (b5 & H5 & M5 & R5).
    exists (string_of domain), port. eexists _, b5. split_and!; [|done| |done].
    + unfold negotiateSOCKS4. apply bind_inv. eexists _, b1. split; [done|].
      apply bind_inv. eexists _, b2. split; [done|]. apply bind_inv. eexists _, b3. split; [done|].
      apply bind_inv. eexists _, b4. split; [done|]. rewrite bool_decide_true by done. cbn [negb nth].
      rewrite (bool_decide_false (last = x00)) by done. cbn [negb]. rewrite !bool_decide_true by done.
      cbn [andb]. apply bind_inv. eexists _, b5. split; [exact H5|].
      rewrite get_put_be, Z.mod_small by exact Hp. reflexivity.
    + pose proof (moves_trans _ _ _ _ _ _ _ Hm M5) as Hmm. rewrite <- !app_assoc in Hmm. exact Hmm.
Qed.

Lemma negotiate_moves b host port success failure b' :
  negotiate b = (Ok (host, port, success, failure), b') ->
  exists q out, request_ok q /\ request_target q = JoinHostPort host (itoa port) /\
    request_replies q = out ++ success /\ moves (encode_request q) out b b'.
Proof using SL RP WA.
  unfold negotiate. intros (v & b1 & M1%ReadByte_moves & H)%bind_inv.
  case_bool_decide; [subst v|case_bool_decide; [subst v|done]].
  - apply negotiateSOCKS5_moves in H as (methods & a & Hq & -> & -> & M2).
    exists (Socks5 methods a port), [x05; x00]. split_and!; [done|done|done|].
    exact (moves_trans _ _ _ _ _ _ _ M1 M2).
  - apply negotiateSOCKS4_moves in H as (q & Hq & Ht & Hr & tail & Et & M2).
    exists q, []. rewrite Et. split_and!; [done|done|done|]. exact (moves_trans _ _ _ _ _ _ _ M1 M2).
Qed.

Lemma negotiate_next q b rest :
  request_ok q -> r_rest b = encode_request q ++ rest ->
  exists host port success failure out b', negotiate b = (Ok (host, port, success, failure), b') /\
    JoinHostPort host (itoa port) = request_target q /\ request_replies q = out ++ success /\
    moves (encode_request q) out b b' /\ r_rest b' = rest.
Proof using SL RP WA.
  intros Hq E. unfold negotiate.
  assert ((exists methods a port, q = Socks5 methods a port) \/ exists tail, encode_request q = x04 :: tail)
    as [(methods & a & port & ->)|[tail Et]] by (destruct q; [left|right..]; cbn; eauto).
  - destruct (ReadByte_next b x05 (socks5_tail methods a port ++ rest) E) as (b1 & H1 & M1 & R1).
    destruct (negotiateSOCKS5_next methods a port b1 rest Hq R1) as (f & b' & H2 & M2 & R2).
    eexists _, _, _, f, [x05; x00], b'. split_and!; [|done|done|exact (moves_trans _ _ _ _ _ _ _ M1 M2)|done].
    apply bind_inv. eexists _, b1. split; [done|]. rewrite bool_decide_true by done. exact H2.
  - rewrite Et in *. destruct (ReadByte_next b x04 (tail ++ rest) E) as (b1 & H1 & M1 & R1).
    destruct (negotiateSOCKS4_next q tail b1 rest Hq Et R1) as (h & p & f & b' & H2 & Ht & M2 & R2).
    eexists h, p, _, f, [], b'. split_and!; [|done|done|exact (moves_trans _ _ _ _ _ _ _ M1 M2)|done].
    apply bind_inv. eexists _, b1. split; [done|]. rewrite bool_decide_false by done.
    rewrite bool_decide_true by done. exact H2.
Qed.

(** C35: the SOCKS server serves exactly the protocol.  [SOCKS] connects a client to
    [target] if and only if what the client sent starts with a well-formed SOCKS5, SOCKS4 or
    SOCKS4a CONNECT request for [target] (and the handshake is in time and the dial succeeds);
    the client has then been sent exactly the replies of that request, and the bridge starts
    with exactly the bytes that follow the request, none lost in the read buffer. *)
Theorem socks_exact env timeout (s : ST) target rest out :
  (exists b, SOCKS env timeout s = (Ok target, b) /\ r_rest b = rest /\ w_sink b = w_sink s ++ out) <->
  expired env = false /\ dial env (socks_timeout timeout) target = Ok tt /\
  exists q, request_ok q /\ r_rest s = encode_request q ++ rest /\
    target = request_target q /\ out = request_replies q.
Proof using SL RP WA.
  unfold SOCKS. split.
  - intros (b & H & <- & Hs).
    destruct (negotiate (NewReader s)) as [[[[[host port] success] failure]|e] b1] eqn:E; [|done].
    destruct (expired env); [done|]. apply negotiate_moves in E as (q & o & Hq & Ht & Hr & [Hm Hw]).
    destruct (dial env _ _) as [[]|] eqn:Ed; [|by destruct (w_write b1 failure) as [[? ?] ?]].
    destruct (w_write_all b1 success) as [b2 Ew]. rewrite Ew in H. injection H as <- <-.
    pose proof (w_write_rest _ _ _ _ _ Ew) as [Hr2 _]. apply w_write_spec in Ew as [_ Hs2].
    split_and!; [done|done|]. exists q. split_and!; [done| |done|].
    + by rewrite Hr2.
    + rewrite Hs2, Hw, Hr in *. unfold blen in Hs. rewrite Nat2Z.id, take_ge in Hs by lia.
      rewrite <- app_assoc in Hs. by apply app_inv_head in Hs.
  - intros (He & Hd & q & Hq & Hrs & -> & ->).
    destruct (negotiate_next q (NewReader s) rest Hq Hrs)
      as (host & port & success & failure & o & b & Hn & Ht & Hr & [_ Hw] & Hb).
    rewrite Hn, He, Ht, Hd. destruct (w_write_all b success) as [b2 Ew]. rewrite Ew. exists b2.
    pose proof (w_write_rest _ _ _ _ _ Ew) as [Hr2 _]. apply w_write_spec in Ew as [_ Hs2].
    split_and!; [done|congruence|]. rewrite Hs2, Hw, Hr. unfold blen. rewrite Nat2Z.id, take_ge by lia.
    by rewrite app_assoc.
Qed.
End proofs.

Module SocksWitness.
(** A SOCKS5 CONNECT to [::1], port 443, with the first bytes of the payload behind it,
    arriving three bytes at a time. *)
Definition request : socks_request := Socks5 [x00; x02] (V6 (replicate 15 x00 ++ [x01])) 443.
Definition client : peer := mkPeer (encode_request request ++ bytes_of "hello") 2 EOF [].
Definition env : socks_env := mkSocksEnv false (fun _ _ => Ok tt).

Lemma socks_exact_witness :
  exists b, SOCKS env 0 client = (Ok "[::1]:443", b) /\ r_rest b = bytes_of "hello" /\
    w_sink b = w_sink client ++ request_replies request.
Proof.
  apply (proj2 (socks_exact env 0 client "[::1]:443" (bytes_of "hello") (request_replies request))).
  split_and!; [reflexivity|reflexivity|]. exists request. split_and!; try (vm_compute; reflexivity).
  cbn [request request_ok address_ok]. split_and!; [cbn; lia|set_solver|reflexivity|].
  unfold is_uint. lia.
Defined.
End SocksWitness.
