(* ===== verification/Udp.v ===== *)
(** [session]'s UDP forwarding and the loops that supervise a bridge (session/udp.go,
    session/session.go).

    The local forwarder is a state machine: the listener goroutine looks a packet's source up
    under the mutex and then offers the packet to the queue of its association, and each
    association runs on its own, so the steps of the relation [udp_step] interleave freely. *)
From S2P Require Export Datagram.
Local Open Scope Z_scope.

Definition maxUDPAssociations : nat := 256.
Definition udpPacketQueueDepth : nat := 256.

Section udp.
Context `{WR : !Writer W}.

(** [udpAssociation] with the goroutine that serves it. *)
Record udpAssociation := mkAssociation {
  as_key : string;
  as_packets : list (list byte);        (** the buffered channel *)
  as_stream : option W;                 (** once [openStream] has returned *)
  as_sent : list (list byte);           (** what [datagram.Write] has accepted *)
  as_failed : option (list byte);       (** the packet whose write failed *)
  as_running : bool
}.

Record udp := mkUdp {
  associations : gmap string nat;       (** the map, with the identities of its pointers *)
  heap : gmap nat udpAssociation;
  next : nat;
  pending : option (nat * list byte);   (** the packet between the lookup and the queue *)
  history : list (string * list byte);  (** the packets the listener has read *)
  queued : nat;                         (** how many of them entered a queue *)
  dropped : list error                  (** the drops that were reported *)
}.

Definition udp_init : udp := mkUdp ∅ ∅ 0 None [] 0 [].

Definition errLimit (key : string) : error :=
  Errorf "UDP association limit of %d reached; dropped packet from %s" [AInt 256; AStr key].
Definition errFull (key : string) (size : Z) : error :=
  Errorf "UDP packet queue for %s is full; dropped %d-byte packet" [AStr key; AInt size].

(** The listener has read a packet: the part under the mutex. *)
Definition lookup_source (u : udp) (key : string) (payload : list byte) : udp :=
  let history := history u ++ [(key, payload)] in
  match associations u !! key with
  | Some id =>
      mkUdp (associations u) (heap u) (next u) (Some (id, payload)) history (queued u) (dropped u)
  | None =>
      if bool_decide (maxUDPAssociations <= size (associations u))%nat
      then mkUdp (associations u) (heap u) (next u) None history (queued u) (dropped u ++ [errLimit key])
      else
        let id := next u in
        mkUdp (<[key := id]> (associations u))
          (<[id := mkAssociation key [] None [] None true]> (heap u)) (S id)
          (Some (id, payload)) history (queued u) (dropped u)
  end.

Definition set_packets (a : udpAssociation) (packets : list (list byte)) : udpAssociation :=
  mkAssociation (as_key a) packets (as_stream a) (as_sent a) (as_failed a) (as_running a).
Definition set_association (u : udp) (id : nat) (a : udpAssociation) : udp :=
  mkUdp (associations u) (<[id := a]> (heap u)) (next u) (pending u) (history u) (queued u) (dropped u).

(** The non-blocking send on the queue. *)
Definition enqueue (u : udp) : udp :=
  match pending u with
  | None => u
  | Some (id, payload) =>
      match heap u !! id with
      | None => u
      | Some a =>
          if bool_decide (length (as_packets a) < udpPacketQueueDepth)%nat
          then mkUdp (associations u) (<[id := set_packets a (as_packets a ++ [payload])]> (heap u)) (next u)
                 None (history u) (S (queued u)) (dropped u)
          else mkUdp (associations u) (heap u) (next u) None (history u) (queued u)
                 (dropped u ++ [errFull (as_key a) (blen payload)])
      end
  end.

(** [openStream] returns a stream. *)
Definition opened (u : udp) (id : nat) (stream : W) : udp :=
  match heap u !! id with
  | Some a => set_association u id
      (mkAssociation (as_key a) (as_packets a) (Some stream) (as_sent a) (as_failed a) (as_running a))
  | None => u
  end.

(** One round of [bridgeLocalUDP]'s sending goroutine, which returns on an error. *)
Definition forward (u : udp) (id : nat) : udp :=
  match heap u !! id with
  | None => u
  | Some a =>
      match as_running a, as_failed a, as_stream a, as_packets a with
      | true, None, Some stream, payload :: packets =>
          match Write stream payload with
          | (None, stream) => set_association u id
              (mkAssociation (as_key a) packets (Some stream) (as_sent a ++ [payload]) None true)
          | (Some _, stream) => set_association u id
              (mkAssociation (as_key a) packets (Some stream) (as_sent a) (Some payload) true)
          end
      | _, _, _, _ => u
      end
  end.

(** The association's goroutine returns: its deferred calls. *)
Definition finish (u : udp) (id : nat) : udp :=
  match heap u !! id with
  | None => u
  | Some a =>
      mkUdp
        (if bool_decide (associations u !! as_key a = Some id)
         then delete (as_key a) (associations u) else associations u)
        (<[id := mkAssociation (as_key a) (as_packets a) (as_stream a) (as_sent a) (as_failed a) false]> (heap u))
        (next u) (pending u) (history u) (queued u) (dropped u)
  end.

Inductive udp_step (u : udp) : udp -> Prop :=
  | udp_receive key payload :
      pending u = None -> blen payload <= MaxPayloadLength -> udp_step u (lookup_source u key payload)
  | udp_enqueue : udp_step u (enqueue u)
  | udp_opened id a stream :
      heap u !! id = Some a -> as_running a = true -> as_stream a = None -> w_sink stream = [] ->
      udp_step u (opened u id stream)
  | udp_forward id : udp_step u (forward u id)
  | udp_finish id : udp_step u (finish u id).

(** ** Invariant *)

(** The packets of one source, in order. *)
Definition from (key : string) (h : list (string * list byte)) : list (list byte) :=
  snd <$> base.filter (fun x => x.1 = key) h.
Definition waiting (u : udp) (id : nat) : list (list byte) :=
  match pending u with Some (i, p) => if bool_decide (i = id) then [p] else [] | None => [] end.

Record association_ok (h : list (string * list byte)) (wait : list (list byte)) (a : udpAssociation) : Prop := {
  ao_order : as_sent a ++ option_list (as_failed a) ++ as_packets a ++ wait `sublist_of` from (as_key a) h;
  ao_depth : (length (as_packets a) <= udpPacketQueueDepth)%nat;
  ao_wire :
    match as_stream a with
    | None => as_sent a = [] /\ as_failed a = None
    | Some stream => exists tail, w_sink stream = mjoin (frame <$> as_sent a) ++ tail /\
        match as_failed a with None => tail = [] | Some p => tail `prefix_of` frame p end
    end
}.

Record udp_ok (u : udp) : Prop := {
  uo_limit : (size (associations u) <= maxUDPAssociations)%nat;
  uo_map key id : associations u !! key = Some id ->
    exists a, heap u !! id = Some a /\ as_key a = key /\ as_running a = true;
  uo_heap id a : heap u !! id = Some a -> (id < next u)%nat /\ association_ok (history u) (waiting u id) a;
  uo_pending id p : pending u = Some (id, p) -> is_Some (heap u !! id);
  uo_sizes : Forall (fun x => blen x.2 <= MaxPayloadLength) (history u);
  uo_count : length (history u) =
    (queued u + length (dropped u) + match pending u with Some _ => 1 | None => 0 end)%nat
}.
End udp.
Arguments udpAssociation : clear implicits.
Arguments udp : clear implicits.

(** ** Supervision of a bridge *)

(** What the select of a supervising loop can receive. *)
Inductive bridge_event :=
  | Cancelled (cause : error)        (** [ctx.Done()] *)
  | IdleFired                        (** the idle timer; never when it is off *)
  | Activity
  | Completed (err : option error).  (** a direction reports on [errorsCh] *)

(** The outcome of a supervising loop and whether it resets the stream; [None] while it
    still waits. *)
Definition outcome : Type := option (option error * bool).

(** The loop of [Bridge] over what it receives. *)
Fixpoint bridge_loop (inactivity : Z) (completed : nat) (events : list bridge_event) : outcome :=
  match completed with
  | O => Some (None, false)
  | S missing =>
      match events with
      | [] => None
      | Cancelled cause :: _ => Some (Some cause, true)
      | IdleFired :: rest =>
          if 0 <? inactivity
          then Some (Some (Errorf "inactivity timeout after %s" [AInt inactivity]), true)
          else bridge_loop inactivity completed rest
      | Activity :: rest => bridge_loop inactivity completed rest
      | Completed None :: rest => bridge_loop inactivity missing rest
      | Completed (Some err) :: rest =>
          if errors_Is err EOF then bridge_loop inactivity missing rest else Some (Some err, true)
      end
  end.
(** [completed] counts down from two. *)
Definition Bridge (inactivity : Z) (events : list bridge_event) : outcome := bridge_loop inactivity 2 events.

(** The loop of [bridgeBuffered], which does not reset the stream on an error. *)
Fixpoint bridgeBuffered (missing : nat) (events : list bridge_event) : outcome :=
  match missing with
  | O => Some (None, false)
  | S missing =>
      match events with
      | [] => None
      | Cancelled cause :: _ => Some (Some cause, true)
      | (IdleFired | Activity) :: rest => bridgeBuffered (S missing) rest
      | Completed None :: rest => bridgeBuffered missing rest
      | Completed (Some err) :: _ => Some (Some err, false)
      end
  end.

Fixpoint waitForDatagramBridge (idleTimeout : Z) (events : list bridge_event) : outcome :=
  match events with
  | [] => None
  | Cancelled cause :: _ => Some (Some cause, true)
  | IdleFired :: rest => if 0 <? idleTimeout then Some (None, false) else waitForDatagramBridge idleTimeout rest
  | Activity :: rest => waitForDatagramBridge idleTimeout rest
  | Completed None :: _ => Some (None, false)
  | Completed (Some err) :: _ =>
      if errors_Is err EOF || errors_Is err ErrNetClosed then Some (None, false) else Some (Some err, true)
  end.

(** ** Proofs *)

(** A failed [Write] leaves a part of the frame. *)
Lemma datagram_Write_failed `{WR : !Writer W, WL : !WriterLaws W} (w : W) payload err w' :
  blen payload <= MaxPayloadLength -> Write w payload = (Some err, w') ->
  exists tail, w_sink w' = w_sink w ++ tail /\ tail `prefix_of` frame payload.
Proof.
  intros Hp. unfold Write. rewrite (proj2 (Z.ltb_ge _ _)) by done.
  assert (put_be HeaderLength (wrapU 16 (blen payload)) = put_be HeaderLength (blen payload)) as ->.
  { rewrite wrapU_small; [done|]. pose proof (blen_nonneg payload). unfold is_uint, MaxPayloadLength in *. lia. }
  unfold frame. set (h := put_be HeaderLength (blen payload)).
  destruct (writeAll w h) as [[e|] w1] eqn:E1.
  - intros [= _ <-]. apply writeAll_prefix in E1 as (k & ->). exists (take k h). split; [done|].
    exists (drop k h ++ payload). by rewrite app_assoc, take_drop.
  - apply writeAll_ok in E1. destruct (writeAll w1 payload) as [[e|] w2] eqn:E2; [|done].
    intros [= _ <-]. apply writeAll_prefix in E2 as (k & ->). exists (h ++ take k payload).
    rewrite E1, <- app_assoc. split; [done|]. exists (drop k payload). by rewrite <- app_assoc, take_drop.
Qed.

Section udp_proofs.
Context `{WR : !Writer W, WL : !WriterLaws W}.
Implicit Types u : udp W.
Implicit Types a : udpAssociation W.

Lemma from_snoc key k p h : from key (h ++ [(k, p)]) = from key h ++ (if bool_decide (k = key) then [p] else []).
Proof.
  unfold from. rewrite filter_app, fmap_app. f_equal. rewrite filter_cons, filter_nil. cbn.
  case_decide; [by rewrite bool_decide_true|by rewrite bool_decide_false].
Qed.

Lemma association_ok_grow h h' wait wait' a :
  association_ok h wait a ->
  (forall l, l ++ wait `sublist_of` from (as_key a) h -> l ++ wait' `sublist_of` from (as_key a) h') ->
  association_ok h' wait' a.
Proof.
  intros [Ho Hd Hw] Hg. split; [|done|done]. rewrite !app_assoc in *. by apply Hg.
Qed.

(** Packets of other sources and new packets of the same source. *)
Lemma sublist_grow (l k k' : list (list byte)) : l ++ [] `sublist_of` k -> l `sublist_of` k ++ k'.
Proof. rewrite app_nil_r. apply sublist_inserts_r. Qed.

Lemma udp_ok_init : udp_ok (@udp_init W).
Proof. split; cbn; try done. rewrite map_size_empty. lia. Qed.

Lemma lookup_source_ok u key payload :
  udp_ok u -> pending u = None -> blen payload <= MaxPayloadLength -> udp_ok (lookup_source u key payload).
Proof.
  intros [Hl Hm Hh Hp Hs Hc] Hn Hlen. unfold lookup_source.
  assert (Forall (fun x => blen x.2 <= MaxPayloadLength) (history u ++ [(key, payload)])) as Hs'
    by (apply Forall_app; split; [done|by repeat constructor]).
  assert (forall id, waiting u id = []) as Hw by (intros id; unfold waiting; by rewrite Hn).
  assert (forall id a k, heap u !! id = Some a -> (k = [] \/ k = [payload] /\ as_key a = key) ->
    association_ok (history u ++ [(key, payload)]) k a) as Hold.
  { intros id a k [_ Ha]%Hh Hk. rewrite Hw in Ha. eapply association_ok_grow; [exact Ha|]. intros l Hsub.
    rewrite from_snoc. destruct Hk as [->|[-> Hk]].
    - rewrite app_nil_r. by apply sublist_grow.
    - rewrite bool_decide_true by done. rewrite app_nil_r in Hsub. apply sublist_app; [done|reflexivity]. }
  destruct (associations u !! key) as [id|] eqn:Ek.
  - destruct (Hm key id Ek) as (a & Ea & Hk & Hr). split; cbn [associations heap next pending history queued dropped].
    + done.
    + done.
    + intros i b Hb. split; [by eapply Hh|]. apply (Hold i); [done|]. unfold waiting. cbn [pending].
      case_bool_decide as Hi; [right|by left]. split; [done|]. subst i. congruence.
    + intros ? ? [= <- <-]. eauto.
    + done.
    + rewrite length_app, Hc, Hn. cbn. lia.
  - case_bool_decide as Hsz; split; cbn [associations heap next pending history queued dropped]; try done.
    + intros i b Hb. split; [by eapply Hh|]. apply (Hold i); [done|]. by left.
    + rewrite !length_app, Hc, Hn. cbn. lia.
    + rewrite map_size_insert_None by done. unfold maxUDPAssociations in *. lia.
    + intros k i. rewrite lookup_insert_Some. intros [[<- <-]|[Hne Hi]].
      * rewrite lookup_insert_eq. by eexists.
      * destruct (Hm k i Hi) as (a & Ha & ?). exists a. split; [|done].
        rewrite lookup_insert_ne; [done|]. intros E. apply Hh in Ha as [? _]. lia.
    + intros i b. rewrite lookup_insert_Some. unfold waiting. cbn [pending]. intros [[<- <-]|[Hne Hb]].
      * split; [lia|]. rewrite bool_decide_true by done. split; [|cbn; unfold udpPacketQueueDepth; lia|done].
        cbn [as_sent as_failed as_packets as_key app option_list]. rewrite from_snoc, bool_decide_true by done.
        by apply sublist_inserts_l.
      * rewrite bool_decide_false by done. split; [apply Hh in Hb as [? _]; lia|]. apply (Hold i); [done|]. by left.
    + intros ? ? [= <- <-]. rewrite lookup_insert_eq. eauto.
    + rewrite length_app, Hc, Hn. cbn. lia.
Qed.

Lemma enqueue_ok u : udp_ok u -> udp_ok (enqueue u).
Proof.
  intros Hu. pose proof Hu as [Hl Hm Hh Hp Hs Hc]. unfold enqueue.
  destruct (pending u) as [[id p]|] eqn:Ep; [|done].
  destruct (heap u !! id) as [a|] eqn:Ea; [|done].
  assert (forall i, waiting u i = if bool_decide (id = i) then [p] else []) as Hw
    by (intros i; unfold waiting; by rewrite Ep).
  assert (forall i b, i <> id -> heap u !! i = Some b -> association_ok (history u) [] b) as Hother.
  { intros i b Hne [_ Hb]%Hh. by rewrite Hw, bool_decide_false in Hb by done. }
  destruct (Hh id a Ea) as [Hid Ha]. rewrite Hw, bool_decide_true in Ha by done.
  case_bool_decide as Hd; split; cbn [associations heap next pending history queued dropped]; try done.
  - intros key i Hi. destruct (Hm key i Hi) as (b & Hb & Hk & Hr). destruct (decide (i = id)) as [->|Hne].
    + rewrite lookup_insert_eq. eexists. split; [done|]. by simplify_eq.
    + rewrite lookup_insert_ne by done. eauto.
  - intros i b. rewrite lookup_insert_Some. intros [[<- <-]|[Hne Hb]].
    + split; [done|]. destruct Ha as [Ho Hdep Hwire]. split; [|cbn; rewrite length_app; cbn; lia|done].
      unfold waiting. cbn [pending set_packets as_sent as_failed as_packets as_key]. by rewrite app_nil_r.
    + split; [by eapply Hh|]. by apply (Hother i).
  - rewrite Hc. lia.
  - intros i b Hb. split; [by eapply Hh|]. unfold waiting. cbn [pending].
    destruct (decide (i = id)) as [->|Hne]; [|by apply (Hother i)].
    simplify_eq. eapply association_ok_grow; [exact Ha|]. intros l Hsub. rewrite app_nil_r.
    etrans; [|exact Hsub]. by apply sublist_inserts_r.
  - rewrite length_app, Hc. cbn. lia.
Qed.

Lemma set_association_ok u id a a' :
  udp_ok u -> heap u !! id = Some a -> as_key a' = as_key a -> as_running a' = as_running a ->
  association_ok (history u) (waiting u id) a' -> udp_ok (set_association u id a').
Proof.
  intros [Hl Hm Hh Hp Hs Hc] Ea Ek Er Hok.
  split; cbn [set_association associations heap next pending history queued dropped]; try done.
  - intros key i Hi. destruct (Hm key i Hi) as (b & Hb & Hk & Hr). destruct (decide (i = id)) as [->|Hne].
    + rewrite lookup_insert_eq. simplify_eq. exists a'. by rewrite Ek, Er.
    + rewrite lookup_insert_ne by done. eauto.
  - intros i b. rewrite lookup_insert_Some. intros [[<- <-]|[Hne Hb]].
    + split; [by eapply Hh|done].
    + by apply Hh.
  - intros i q Hq. rewrite lookup_insert_is_Some'. right. by eapply Hp.
Qed.

Lemma opened_ok u id a stream :
  udp_ok u -> heap u !! id = Some a -> as_stream a = None -> w_sink stream = [] -> udp_ok (opened u id stream).
Proof.
  intros Hu Ea Es Hw. unfold opened. rewrite Ea. eapply set_association_ok; [done|done|done|done|].
  destruct (uo_heap _ Hu id a Ea) as [_ [Ho Hd Hwire]]. rewrite Es in Hwire. destruct Hwire as [H1 H2].
  split; [done|done|]. cbn [as_stream as_sent as_failed]. rewrite H1, H2. by exists [].
Qed.

Lemma forward_ok u id : udp_ok u -> udp_ok (forward u id).
Proof using WL.
  intros Hu. unfold forward. destruct (heap u !! id) as [a|] eqn:Ea; [|done].
  destruct (as_running a) eqn:Er; [|done]. destruct (as_failed a) eqn:Ef; [done|].
  destruct (as_stream a) as [w|] eqn:Es; [|done]. destruct (as_packets a) as [|p packets] eqn:Ep; [done|].
  destruct (uo_heap _ Hu id a Ea) as [_ [Ho Hd Hwire]].
  rewrite Ef, Ep in *. rewrite Es in Hwire. destruct Hwire as (tail & Hsink & ->). rewrite app_nil_r in Hsink.
  cbn [option_list app length] in Ho, Hd.
  assert (blen p <= MaxPayloadLength) as Hlen.
  { assert (p ∈ from (as_key a) (history u)) as Hin by (eapply elem_of_sublist; [|exact Ho]; set_solver).
    unfold from in Hin. apply list_elem_of_fmap in Hin as (x & -> & [_ Hx]%list_elem_of_filter).
    pose proof (uo_sizes _ Hu) as Hs. rewrite Forall_forall in Hs. by apply Hs. }
  destruct (Write w p) as [[err|] w'] eqn:Ew; (eapply set_association_ok; [done|done|done|done|]).
  - apply datagram_Write_failed in Ew as (tail & Hs & Ht); [|done]. split.
    + done.
    + cbn [as_packets]. lia.
    + cbn [as_stream as_sent as_failed]. exists tail. by rewrite Hs, Hsink.
  - apply Write_ok in Ew as [_ Hs]. split.
    + cbn [as_sent as_failed as_packets as_key option_list app]. by rewrite <- app_assoc.
    + cbn [as_packets]. lia.
    + cbn [as_stream as_sent as_failed]. exists []. rewrite fmap_app, Hs, Hsink, app_nil_r.
      split; [|done]. rewrite join_app. cbn. by rewrite app_nil_r.
Qed.

Lemma finish_ok u id : udp_ok u -> udp_ok (finish u id).
Proof.
  intros Hu. pose proof Hu as [Hl Hm Hh Hp Hs Hc]. unfold finish.
  destruct (heap u !! id) as [a|] eqn:Ea; [|done].
  split; cbn [associations heap next pending history queued dropped]; try done.
  - case_bool_decide; [|done]. etrans; [|exact Hl]. apply map_subseteq_size, delete_subseteq.
  - intros key i Hi.
    assert (associations u !! key = Some i /\ i <> id) as [Hi' Hne].
    { case_bool_decide as Hk.
      - apply lookup_delete_Some in Hi as [Hne Hi]. split; [done|]. intros ->.
        destruct (Hm key id Hi) as (b & Hb & Hkb & _). congruence.
      - split; [done|]. intros ->. destruct (Hm key id Hi) as (b & Hb & Hkb & _). congruence. }
    rewrite lookup_insert_ne by done. by apply Hm.
  - intros i b. rewrite lookup_insert_Some. intros [[<- <-]|[Hne Hb]].
    + destruct (Hh id a Ea) as [? [? ? ?]]. split; [done|]. by split.
    + by apply Hh.
  - intros i q Hq. rewrite lookup_insert_is_Some'. right. by eapply Hp.
Qed.

Lemma udp_reachable_ok u : reachable (fun u => u = udp_init) udp_step u -> udp_ok u.
Proof using WL.
  intros H. apply (invariant (fun u => u = udp_init) udp_step udp_ok); [| |done].
  - intros ? ->. apply udp_ok_init.
  - intros s s' _ Hs [key p ? ?| |id a w ? ? ? ?|id|id];
      eauto using lookup_source_ok, enqueue_ok, opened_ok, forward_ok, finish_ok.
Qed.

(** Packets of a source are datagrams. *)
Lemma from_sizes u key l :
  udp_ok u -> l `sublist_of` from key (history u) -> Forall (fun p => blen p <= MaxPayloadLength) l.
Proof using Type.
  intros Hu Hl. apply Forall_forall. intros p Hp.
  assert (p ∈ from key (history u)) as Hin by (by eapply elem_of_sublist).
  unfold from in Hin. apply list_elem_of_fmap in Hin as (x & -> & [_ Hx]%list_elem_of_filter).
  pose proof (uo_sizes _ Hu) as Hsz. rewrite Forall_forall in Hsz. by apply Hsz.
Qed.

(** UDP sources are isolated and ordered.  In every interleaving of the local
    forwarder: there are at most 256 associations and 256 queued packets in each; what an
    association has written to its stream reads back as datagrams of its own source, in the
    order they arrived, each once; and every packet read was queued, reported as dropped, or is
    the one being handled. *)
Theorem udp_isolation u :
  reachable (fun u => u = udp_init) udp_step u ->
  (size (associations u) <= 256)%nat /\
  (forall id a, heap u !! id = Some a ->
    (length (as_packets a) <= 256)%nat /\
    as_sent a ++ as_packets a `sublist_of` from (as_key a) (history u) /\
    forall stream, as_stream a = Some stream -> as_failed a = None ->
      forall `(!Reader R, !ReaderLaws R) (r : R), r_rest r = w_sink stream ->
      exists r', ReadMany (S (length (as_sent a))) r = (as_sent a, Some (r_end r), r')) /\
  length (history u) =
    (queued u + length (dropped u) + match pending u with Some _ => 1 | None => 0 end)%nat.
Proof using WL.
  intros Hu%udp_reachable_ok. split_and!; [apply Hu| |apply Hu]. intros id a Ha.
  destruct (uo_heap _ Hu id a Ha) as [_ [Ho Hd Hw]].
  assert (as_sent a ++ as_packets a `sublist_of` from (as_key a) (history u)) as Hsub.
  { etrans; [|exact Ho]. apply sublist_app; [done|]. apply sublist_inserts_l. by apply sublist_inserts_r. }
  split_and!; [done|done|]. intros stream Es Ef R RD RL r Hr. rewrite Es, Ef in Hw.
  destruct Hw as (tail & Hs & ->). rewrite app_nil_r in Hs. apply ReadMany_frames; [|congruence].
  eapply from_sizes in Hsub; [|done]. by apply Forall_app in Hsub as [].
Qed.
End udp_proofs.

(** What makes a loop stop with an error. *)
Definition bridge_fatal (inactivity : Z) (ev : bridge_event) : option error :=
  match ev with
  | Cancelled cause => Some cause
  | IdleFired => if 0 <? inactivity then Some (Errorf "inactivity timeout after %s" [AInt inactivity]) else None
  | Completed (Some err) => if errors_Is err EOF then None else Some err
  | _ => None
  end.
Definition completions (events : list bridge_event) : nat :=
  sum_list_with (fun ev => match ev with Completed _ => 1 | _ => 0 end)%nat events.

Lemma completions_cons ev events :
  completions (ev :: events) = (match ev with Completed _ => 1 | _ => 0 end + completions events)%nat.
Proof. done. Qed.

(** The outcome a supervising loop that waits for [n] completions should have. *)
Definition bridge_spec (inactivity : Z) (n : nat) (events : list bridge_event) (o : outcome) : Prop :=
  match o with
  | Some (None, reset) => reset = false /\ exists pre rest, events = pre ++ rest /\
      Forall (fun ev => bridge_fatal inactivity ev = None) pre /\ completions pre = n
  | Some (Some err, reset) => reset = true /\ exists pre ev rest, events = pre ++ ev :: rest /\
      Forall (fun ev => bridge_fatal inactivity ev = None) pre /\ (completions pre < n)%nat /\
      bridge_fatal inactivity ev = Some err
  | None => Forall (fun ev => bridge_fatal inactivity ev = None) events /\ (completions events < n)%nat
  end.

Lemma bridge_spec_pass inactivity n ev events o :
  bridge_fatal inactivity ev = None -> bridge_spec inactivity n events o ->
  bridge_spec inactivity (match ev with Completed _ => 1 | _ => 0 end + n)%nat (ev :: events) o.
Proof.
  intros Hf. destruct o as [[[err|] reset]|]; cbn [bridge_spec].
  - intros (-> & pre & ev' & rest & -> & Hp & Hc & He). split; [done|].
    exists (ev :: pre), ev', rest. rewrite completions_cons. split_and!; [done|by constructor|lia|done].
  - intros (-> & pre & rest & -> & Hp & Hc). split; [done|].
    exists (ev :: pre), rest. rewrite completions_cons. split_and!; [done|by constructor|lia].
  - intros [Hp Hc]. rewrite completions_cons. split; [by constructor|lia].
Qed.

Lemma bridge_spec_stop inactivity n ev events err :
  bridge_fatal inactivity ev = Some err -> bridge_spec inactivity (S n) (ev :: events) (Some (Some err, true)).
Proof.
  intros He. split; [done|]. exists [], ev, events. split_and!; [done|constructor|cbn; lia|done].
Qed.

Lemma bridge_loop_outcome inactivity n events :
  bridge_spec inactivity n events (bridge_loop inactivity n events).
Proof.
  revert n; induction events as [|ev events IH]; intros [|n].
  1, 3: split; [done|]; eexists [], _; by split_and!.
  { split; [constructor|cbn; lia]. }
  pose proof (bridge_spec_pass inactivity n ev events (bridge_loop inactivity n events)) as Hdone.
  pose proof (bridge_spec_pass inactivity (S n) ev events (bridge_loop inactivity (S n) events)) as Hskip.
  pose proof (bridge_spec_stop inactivity n ev events) as Hstop.
  destruct ev as [cause| | |[err|]]; cbn [bridge_loop bridge_fatal Nat.add] in *.
  - by apply Hstop.
  - destruct (0 <? inactivity); auto.
  - auto.
  - destruct (errors_Is err EOF); auto.
  - auto.
Qed.

(** A bridge ends exactly when it should.  [Bridge] returns nil, without a reset,
    exactly when both directions have completed and nothing fatal came before; it fails with the
    first fatal event (cancellation, the idle timer when it is on, an error other than EOF) if that
    comes before the second completion, and then always resets the stream; until then it waits. *)
Theorem bridge_outcome inactivity events : bridge_spec inactivity 2 events (Bridge inactivity events).
Proof. apply bridge_loop_outcome. Qed.

Module UdpWitness.
(** Two sources; the first one's packet has been forwarded. *)
Definition s1 : udp sink := lookup_source udp_init "10.0.0.1:5" [x61].
Definition s2 : udp sink := enqueue s1.
Definition s3 : udp sink := lookup_source s2 "10.0.0.2:6" [x62].
Definition s4 : udp sink := opened s3 0 (mkSink [] []).
Definition s5 : udp sink := enqueue s4.
Definition s6 : udp sink := forward s5 0.
Definition first : udpAssociation sink :=
  mkAssociation "10.0.0.1:5" [] (Some (mkSink [x00; x01; x61] [])) [[x61]] None true.

Lemma s6_reachable : reachable (fun u => u = udp_init) udp_step s6.
Proof.
  assert (MaxPayloadLength = 65535) as Hmax by done.
  apply (reach_step _ _ s5); [|exact (udp_forward s5 0)].
  apply (reach_step _ _ s4); [|exact (udp_enqueue s4)].
  apply (reach_step _ _ s3);
    [|apply (udp_opened s3 0 (mkAssociation "10.0.0.1:5" [[x61]] None [] None true)); vm_compute; reflexivity].
  apply (reach_step _ _ s2);
    [|apply (udp_receive s2 "10.0.0.2:6" [x62]); [vm_compute; reflexivity|rewrite Hmax; vm_compute; discriminate]].
  apply (reach_step _ _ s1); [|exact (udp_enqueue s1)].
  apply (reach_step _ _ udp_init);
    [|apply (udp_receive udp_init "10.0.0.1:5" [x61]); [reflexivity|rewrite Hmax; vm_compute; discriminate]].
  by apply reach_init.
Qed.

Lemma udp_isolation_witness :
  exists r', ReadMany 2 (mkSource [[x00; x01; x61]] EOF) = ([[x61]], Some EOF, r').
Proof.
  destruct (udp_isolation s6 s6_reachable) as (_ & H & _).
  assert (heap s6 !! 0%nat = Some first) as E by (vm_compute; reflexivity).
  destruct (H 0%nat first E) as (_ & _ & Hr).
  exact (Hr _ eq_refl eq_refl source _ _ (mkSource [[x00; x01; x61]] EOF) eq_refl).
Defined.
End UdpWitness.
