(* ===== verification/Forwarding.v ===== *)
(** Forwarding of TCP and UDP (session/forwarding.go, session/udp.go, session/session.go): the goroutines
    that copy between a stream and a socket, and the supervisor that waits for them.

    A datagram bridge is a machine: its two goroutines and the supervisor take steps in any order and share
    the channels [activity] and [errorsCh].  [UDPForward] and [bridgeLocalUDP] are the two uses of it. *)
From S2P Require Export Udp GoNet.
Local Open Scope Z_scope.

(** ** Packet sockets *)

Class PacketConn (C : Type) := {
  pc_write : C -> list byte -> Z * option error * C;
  pc_sent : C -> list (list byte)
}.
(** UDP sends a datagram whole or not at all. *)
Class PacketConnLaws (C : Type) `{!PacketConn C} : Prop :=
  pc_write_spec : forall c p n e c', pc_write c p = (n, e, c') ->
    pc_sent c' = pc_sent c ++ (if bool_decide (e = None /\ n = blen p) then [p] else []).

Definition writePacket `{!PacketConn C} (connection : C) (payload : list byte) : option error * C :=
  match pc_write connection payload with
  | (count, None, c) => (if negb (count =? blen payload) then Some ErrShortWrite else None, c)
  | (_, Some err, c) => (Some err, c)
  end.

(** ** A datagram bridge *)

(** Why a copying goroutine returned. *)
Inductive cause := ReadFailed (err : error) | WriteFailed (err : error).

Section datagrams.
Context `{RD : !Reader R, PC : !PacketConn C, WR : !Writer W}.

Record bridge := mkBridge {
  db_reader : R;                       (** the stream's incoming half *)
  db_conn : C;
  db_writer : W;                       (** the stream's outgoing half *)
  db_incoming : option cause;          (** the goroutine that reads the stream *)
  db_outgoing : option cause;          (** the goroutine that reads packets *)
  db_received : list (list byte);      (** the packets it has read *)
  db_activity : bool;                  (** the channel [activity] of capacity one *)
  db_errors : list error;              (** the channel [errorsCh] *)
  db_events : list bridge_event        (** what the supervisor has received *)
}.
Implicit Types s : bridge.

Definition bridge_init (r : R) (c : C) (w : W) : bridge := mkBridge r c w None None [] false [] [].

(** Whether the function has returned, and what. *)
Definition bridge_result (idle : Z) s : outcome := waitForDatagramBridge idle (db_events s).

(** One round of the goroutine that reads the stream.  [closed]: the socket was closed by the deferred call
    of [UDPForward]. *)
Definition stream_to_socket (closed : bool) s : bridge :=
  match db_incoming s with
  | Some _ => s
  | None =>
      match Read (db_reader s) with
      | (Err readErr, r) =>
          mkBridge r (db_conn s) (db_writer s) (Some (ReadFailed readErr)) (db_outgoing s) (db_received s)
            (db_activity s) (db_errors s ++ [readErr]) (db_events s)
      | (Ok payload, r) =>
          match (if closed then (Some ErrNetClosed, db_conn s) else writePacket (db_conn s) payload) with
          | (Some err, c) =>
              mkBridge r c (db_writer s) (Some (WriteFailed err)) (db_outgoing s) (db_received s)
                (db_activity s) (db_errors s ++ [err]) (db_events s)
          | (None, c) =>
              mkBridge r c (db_writer s) None (db_outgoing s) (db_received s) true (db_errors s) (db_events s)
          end
      end
  end.

(** One round of the goroutine that reads packets, given what it receives: a packet of the socket or of the
    queue, or the error of the socket or of the context. *)
Definition socket_to_stream (received : result (list byte)) s : bridge :=
  match db_outgoing s with
  | Some _ => s
  | None =>
      match received with
      | Err readErr =>
          mkBridge (db_reader s) (db_conn s) (db_writer s) (db_incoming s) (Some (ReadFailed readErr)) (db_received s)
            (db_activity s) (db_errors s ++ [readErr]) (db_events s)
      | Ok payload =>
          match Write (db_writer s) payload with
          | (Some err, w) =>
              mkBridge (db_reader s) (db_conn s) w (db_incoming s) (Some (WriteFailed err)) (db_received s ++ [payload])
                (db_activity s) (db_errors s ++ [err]) (db_events s)
          | (None, w) =>
              mkBridge (db_reader s) (db_conn s) w (db_incoming s) None (db_received s ++ [payload])
                true (db_errors s) (db_events s)
          end
      end
  end.

(** The supervisor receives. *)
Definition supervise (ev : bridge_event) s : bridge :=
  mkBridge (db_reader s) (db_conn s) (db_writer s) (db_incoming s) (db_outgoing s) (db_received s)
    (match ev with Activity => false | _ => db_activity s end)
    (match ev with Completed _ => tail (db_errors s) | _ => db_errors s end) (db_events s ++ [ev]).

(** [owns]: the function closes the socket when it returns, as [UDPForward] does. *)
Definition socket_closed (owns : bool) (idle : Z) s : bool :=
  owns && match bridge_result idle s with Some _ => true | None => false end.

Inductive bridge_step (owns : bool) (idle : Z) s : bridge -> Prop :=
  | bs_incoming : bridge_step owns idle s (stream_to_socket (socket_closed owns idle s) s)
  | bs_packet payload :
      socket_closed owns idle s = false -> blen payload <= MaxPayloadLength ->
      bridge_step owns idle s (socket_to_stream (Ok payload) s)
  | bs_packet_error err : bridge_step owns idle s (socket_to_stream (Err err) s)
  | bs_cancelled err : bridge_result idle s = None -> bridge_step owns idle s (supervise (Cancelled err) s)
  | bs_idle : bridge_result idle s = None -> 0 < idle -> bridge_step owns idle s (supervise IdleFired s)
  | bs_activity :
      bridge_result idle s = None -> db_activity s = true -> bridge_step owns idle s (supervise Activity s)
  | bs_error err rest :
      bridge_result idle s = None -> db_errors s = err :: rest ->
      bridge_step owns idle s (supervise (Completed (Some err)) s).

(** [UDPForward]: the socket is dialed first. *)
Definition udp_forward_start (host : string) (port : Z) (dialed : result C) (r : R) (w : W) : result bridge :=
  connection ← map_err (Wrapf "connect to UDP %s:%d: %w" [AStr host; AInt port]) dialed;
  Ok (bridge_init r connection w).

(** ** Invariant *)

Definition frames (ps : list (list byte)) : list byte := mjoin (frame <$> ps).
Definition ended (c : option cause) : nat := match c with Some _ => 1 | None => 0 end.

(** [ps] are the packets sent since the start. *)
Record bridge_ok (r0 : R) (c0 : C) (w0 : W) (s : bridge) (ps : list (list byte)) : Prop := {
  bo_sent : pc_sent (db_conn s) = pc_sent c0 ++ ps;
  bo_incoming :
    match db_incoming s with
    | None => r_rest r0 = frames ps ++ r_rest (db_reader s)
    | Some (ReadFailed err) => exists r r', r_rest r0 = frames ps ++ r_rest r /\ Read r = (Err err, r')
    | Some (WriteFailed _) => frames ps `prefix_of` r_rest r0
    end;
  bo_sizes : Forall (fun p => blen p <= MaxPayloadLength) ps;
  bo_received : Forall (fun p => blen p <= MaxPayloadLength) (db_received s);
  bo_outgoing : exists written, w_sink (db_writer s) = w_sink w0 ++ written /\
    written `prefix_of` frames (db_received s) /\
    match db_outgoing s with Some (WriteFailed _) => True | _ => written = frames (db_received s) end;
  bo_channel : (length (db_errors s) + completions (db_events s) = ended (db_incoming s) + ended (db_outgoing s))%nat
}.
End datagrams.
Arguments bridge : clear implicits.

(** ** Framing *)

Lemma frames_cat ps qs : frames (ps ++ qs) = frames ps ++ frames qs.
Proof. unfold frames. by rewrite fmap_app, join_app. Qed.
Lemma frames_cons p ps : frames (p :: ps) = frame p ++ frames ps.
Proof. done. Qed.
Lemma frames_one p : frames [p] = frame p.
Proof. rewrite frames_cons. apply app_nil_r. Qed.

Lemma Read_inv `{!Reader R, !ReaderLaws R} (r : R) payload r' :
  Read r = (Ok payload, r') -> blen payload <= MaxPayloadLength /\ r_rest r = frame payload ++ r_rest r'.
Proof.
  unfold Read. destruct (ReadFull r HeaderLength) as [[header|e] r1] eqn:E1; [|done].
  destruct (ReadFull r1 (Z.to_nat (get_be header))) as [[p|e] r2] eqn:E2; [|done]. intros [= <- <-].
  apply ReadFull_inv in E1 as (Hl & Hr & _), E2 as (Hp & Hr1 & _).
  pose proof (get_be_range header) as Hg. rewrite Hl in Hg. unfold HeaderLength in *.
  assert (blen p = get_be header) as Hb by (unfold blen; lia).
  split; [unfold MaxPayloadLength; rewrite Hb; cbn in Hg; lia|].
  unfold frame. rewrite Hb. unfold HeaderLength. rewrite <- Hl, put_get_be, Hr, Hr1. by rewrite app_assoc.
Qed.

(** Frames are a prefix code. *)
Lemma frame_prefix p q x y :
  blen p <= MaxPayloadLength -> blen q <= MaxPayloadLength -> frame p ++ x = frame q ++ y -> p = q /\ x = y.
Proof.
  intros Hp Hq. unfold frame. rewrite <- !app_assoc. intros [Hh H]%app_inj_1; [|by rewrite !length_put_be].
  apply (f_equal get_be) in Hh. rewrite !frame_header in Hh by done.
  apply app_inj_1 in H; [done|]. unfold blen in Hh. lia.
Qed.

Lemma frames_prefix ps qs rest :
  Forall (fun p => blen p <= MaxPayloadLength) ps -> Forall (fun p => blen p <= MaxPayloadLength) qs ->
  frames ps ++ rest `prefix_of` frames qs -> exists tl, qs = ps ++ tl /\ rest `prefix_of` frames tl.
Proof.
  intros Hps. revert qs; induction Hps as [|p ps Hp Hps IH]; intros qs Hqs Hpre.
  - by exists qs.
  - destruct Hqs as [|q qs Hq Hqs]; destruct Hpre as [k Hk].
    + exfalso. apply (f_equal length) in Hk. rewrite frames_cons in Hk. unfold frame in Hk.
      rewrite !length_app, length_put_be in Hk. unfold HeaderLength in Hk. cbn in Hk. lia.
    + rewrite !frames_cons, <- !app_assoc in Hk.
      apply frame_prefix in Hk as [-> Hk]; [|done..].
      destruct (IH qs Hqs) as (tl & -> & Htl); [exists k; by rewrite <- app_assoc|]. by exists tl.
Qed.

(** ** The invariant of a datagram bridge *)

Section datagram_proofs.
Local Arguments completions : simpl never.
Local Arguments frames : simpl never.
Context `{RD : !Reader R, RL : !ReaderLaws R, PC : !PacketConn C, PL : !PacketConnLaws C}.
Context `{WR : !Writer W, WL : !WriterLaws W}.
Implicit Types s : bridge R C W.

Lemma writePacket_ok (c c' : C) payload err :
  writePacket c payload = (err, c') ->
  pc_sent c' = pc_sent c ++ (match err with None => [payload] | Some _ => [] end).
Proof using PL.
  unfold writePacket. destruct (pc_write c payload) as [[n e] c1] eqn:E. apply pc_write_spec in E.
  destruct e as [e|]; [intros [= <- <-]; rewrite E, bool_decide_false; [done|naive_solver]|].
  intros [= <- <-]. rewrite E. destruct (Z.eqb_spec n (blen payload)); cbn.
  - by rewrite bool_decide_true.
  - rewrite bool_decide_false; [done|naive_solver].
Qed.

Lemma stream_to_socket_ok closed r0 c0 w0 s ps :
  bridge_ok r0 c0 w0 s ps -> exists ps', bridge_ok r0 c0 w0 (stream_to_socket closed s) ps'.
Proof using RL PL.
  intros [Hs Hi Hz Hrv Ho Hc]. unfold stream_to_socket. destruct (db_incoming s) as [|] eqn:Ei.
  { exists ps. split; rewrite ?Ei; done. }
  cbn in Hc.
  destruct (Read (db_reader s)) as [[payload|e] r] eqn:Er.
  - apply Read_inv in Er as [Hp Hr].
    destruct (if closed then _ else _) as [err c] eqn:Ew.
    assert (pc_sent c = pc_sent (db_conn s) ++ (match err with None => [payload] | Some _ => [] end)) as Hsent.
    { destruct closed; [injection Ew as <- <-; by rewrite app_nil_r|by eapply writePacket_ok]. }
    destruct err as [err|].
    + exists ps. split; cbn; [by rewrite Hsent, app_nil_r| |done..|].
      * rewrite Hi. by apply prefix_app_r.
      * rewrite length_app. cbn. lia.
    + exists (ps ++ [payload]). split; cbn; [by rewrite Hsent, Hs, app_assoc| | |done..].
      * by rewrite Hi, Hr, frames_cat, frames_one, <- app_assoc.
      * apply Forall_app. by repeat constructor.
  - exists ps. split; cbn; [done| |done..|rewrite length_app; cbn; lia]. by exists (db_reader s), r.
Qed.

Lemma socket_to_stream_ok received r0 c0 w0 s ps :
  (forall p, received = Ok p -> blen p <= MaxPayloadLength) ->
  bridge_ok r0 c0 w0 s ps -> bridge_ok r0 c0 w0 (socket_to_stream received s) ps.
Proof using WL.
  intros Hsize [Hs Hi Hz Hrv (bs & Hw & Hpre & Hbs) Hc]. unfold socket_to_stream.
  destruct (db_outgoing s) as [|] eqn:Eo; [split; rewrite ?Eo; eauto|]. subst bs. cbn in Hc.
  destruct received as [payload|e].
  - specialize (Hsize _ eq_refl). assert (Forall (fun p => blen p <= MaxPayloadLength) (db_received s ++ [payload])).
    { apply Forall_app. by repeat constructor. }
    destruct (Write (db_writer s) payload) as [[err|] w] eqn:Ew.
    + apply datagram_Write_failed in Ew as (tail & Ht & Hpt); [|done].
      split; cbn; try done; [|rewrite length_app; cbn; lia].
      exists (frames (db_received s) ++ tail). rewrite frames_cat, frames_one, Ht, Hw, app_assoc.
      split_and!; [done|by apply prefix_app|done].
    + apply Write_ok in Ew as [_ Ew]. split; cbn; try done.
      exists (frames (db_received s ++ [payload])). rewrite frames_cat, frames_one, Ew, Hw, app_assoc. done.
  - split; cbn; try done; [by eexists|rewrite length_app; cbn; lia].
Qed.

Lemma supervise_ok ev r0 c0 w0 s ps :
  (forall e, ev = Completed e -> db_errors s <> []) ->
  bridge_ok r0 c0 w0 s ps -> bridge_ok r0 c0 w0 (supervise ev s) ps.
Proof using Type.
  intros He [Hs Hi Hz Hrv Ho Hc]. split; cbn; try done. unfold completions in *. rewrite sum_list_with_app.
  destruct ev as [cause| | |e]; cbn; try lia. destruct (db_errors s) as [|e' es]; [by destruct (He e)|].
  cbn in *. lia.
Qed.

Lemma bridge_reachable_ok owns idle r0 c0 w0 s :
  reachable (fun s => s = bridge_init r0 c0 w0) (bridge_step owns idle) s -> exists ps, bridge_ok r0 c0 w0 s ps.
Proof using RL PL WL.
  intros H. induction H as [s ->|s s' Hr [ps IH] Hstep].
  - exists []. split; cbn; try done; [by rewrite app_nil_r|]. exists []. by rewrite app_nil_r.
  - destruct Hstep as [|payload _ Hp|err|err|_ _|_ _|err rest _ He];
      [by eapply stream_to_socket_ok| | |exists ps; by apply supervise_ok..|].
    + exists ps. apply socket_to_stream_ok; [naive_solver|done].
    + exists ps. by apply socket_to_stream_ok.
    + exists ps. apply supervise_ok; [|done]. by rewrite He.
Qed.

(** A packet that was received as frames, when the frames come from [qs]. *)
Lemma bridge_ok_from r0 c0 w0 s ps qs :
  bridge_ok r0 c0 w0 s ps -> Forall (fun p => blen p <= MaxPayloadLength) qs ->
  r_rest r0 `prefix_of` frames qs ->
  ps `prefix_of` qs /\
  (r_rest r0 = frames qs -> (exists err, db_incoming s = Some (ReadFailed err)) -> ps = qs).
Proof using RL.
  intros Hok Hqs Hpre. assert (frames ps ++ [] `prefix_of` frames qs) as Hp.
  { rewrite app_nil_r. etrans; [|exact Hpre]. pose proof (bo_incoming _ _ _ _ _ Hok) as Hi.
    destruct (db_incoming s) as [[err|err]|]; [|done|rewrite Hi; by apply prefix_app_r].
    destruct Hi as (r & r' & -> & _). by apply prefix_app_r. }
  destruct (frames_prefix _ _ _ (bo_sizes _ _ _ _ _ Hok) Hqs Hp) as (tl & -> & _).
  split; [by apply prefix_app_r|]. intros Hall [err Herr]. pose proof (bo_incoming _ _ _ _ _ Hok) as Hi.
  rewrite Herr in Hi. destruct Hi as (r & r' & Hr & Hread). rewrite Hall, frames_cat in Hr. simplify_list_eq.
  destruct tl as [|q tl]; [by rewrite app_nil_r|]. exfalso.
  apply Forall_app in Hqs as [_ [Hq _]%Forall_cons].
  destruct (Read_frame r q (frames tl)) as (r1 & E & _); [done|by rewrite <- Hr|]. by rewrite E in Hread.
Qed.

(** Both goroutines can always report, and a bridge that returned nil was idle or reached an end. *)
Lemma bridge_channel owns idle r0 c0 w0 s :
  reachable (fun s => s = bridge_init r0 c0 w0) (bridge_step owns idle) s -> (length (db_errors s) <= 2)%nat.
Proof using RL PL WL.
  intros [ps Hok]%bridge_reachable_ok. pose proof (bo_channel _ _ _ _ _ Hok).
  destruct (db_incoming s), (db_outgoing s); cbn in *; lia.
Qed.
End datagram_proofs.

(** ** The end of the local forwarder *)

Section local_forward.
Context `{WR : !Writer W}.

(** [StartLocalUDPForward]: the forwarder, whether its listener goroutine runs, and the associations it has
    cancelled. *)
Record local_forward := mkLocalForward { lf_udp : udp W; lf_open : bool; lf_cancelled : gset nat }.

(** Binding the socket. *)
Definition local_forward_start (resolved bound : result unit) : result local_forward :=
  map_err (Wrapf "resolve local UDP address: %w" []) resolved;;
  bound;;
  Ok (mkLocalForward udp_init true ∅).

(** The listener goroutine returns: what it reports, and its deferred function, which cancels every association of
    the map. *)
Definition listener_ended (ctxDone : bool) (readErr : error) : option error :=
  if negb ctxDone && negb (errors_Is readErr ErrNetClosed) then Some readErr else None.
Definition local_shutdown (l : local_forward) : local_forward :=
  mkLocalForward (lf_udp l) false (lf_cancelled l ∪ list_to_set (map_to_list (associations (lf_udp l))).*2).

Inductive local_step (l : local_forward) : local_forward -> Prop :=
  | ls_receive key payload :
      lf_open l = true -> pending (lf_udp l) = None -> blen payload <= MaxPayloadLength ->
      local_step l (mkLocalForward (lookup_source (lf_udp l) key payload) true (lf_cancelled l))
  | ls_enqueue : lf_open l = true -> local_step l (mkLocalForward (enqueue (lf_udp l)) true (lf_cancelled l))
  | ls_opened id a stream :
      heap (lf_udp l) !! id = Some a -> as_running a = true -> as_stream a = None -> w_sink stream = [] ->
      local_step l (mkLocalForward (opened (lf_udp l) id stream) (lf_open l) (lf_cancelled l))
  | ls_forward id : local_step l (mkLocalForward (forward (lf_udp l) id) (lf_open l) (lf_cancelled l))
  | ls_finish id : local_step l (mkLocalForward (finish (lf_udp l) id) (lf_open l) (lf_cancelled l))
  | ls_shutdown : lf_open l = true -> pending (lf_udp l) = None -> local_step l (local_shutdown l).

Lemma associations_opened (u : udp W) id stream : associations (opened u id stream) = associations u.
Proof. unfold opened. by destruct (heap u !! id). Qed.
Lemma associations_forward (u : udp W) id : associations (forward u id) = associations u.
Proof.
  unfold forward. destruct (heap u !! id) as [a|]; [|done].
  destruct (as_running a), (as_failed a), (as_stream a) as [stream|], (as_packets a); try done.
  by destruct (Write stream _) as [[|] ?].
Qed.
Lemma associations_finish (u : udp W) id key i :
  associations (finish u id) !! key = Some i -> associations u !! key = Some i.
Proof.
  unfold finish. destruct (heap u !! id) as [a|]; [|done]. cbn. case_bool_decide; [|done].
  rewrite lookup_delete_Some. by intros [_ ?].
Qed.

(** When the listener has ended, every association that is still in the map has been cancelled; and until then and
    afterwards the forwarder is in a state of [udp_step], so that all that is proved of those holds. *)
Lemma local_forward_shutdown l :
  reachable (fun l => l = mkLocalForward udp_init true ∅) local_step l ->
  reachable (fun u => u = udp_init) udp_step (lf_udp l) /\
  (lf_open l = false -> forall key id, associations (lf_udp l) !! key = Some id -> id ∈ lf_cancelled l).
Proof.
  intros H. induction H as [l ->|l l' Hr [IH Hc] Hstep]; [split; [by apply reach_init|done]|].
  destruct Hstep as [key payload Ho Hp Hs|Ho|id a stream Ha Hrun Hst Hsink|id|id|Ho Hp]; cbn.
  - split; [eapply reach_step; [exact IH|by apply udp_receive]|done].
  - split; [eapply reach_step; [exact IH|apply udp_enqueue]|done].
  - split; [eapply reach_step; [exact IH|by eapply udp_opened]|]. rewrite associations_opened. done.
  - split; [eapply reach_step; [exact IH|apply udp_forward]|]. rewrite associations_forward. done.
  - split; [eapply reach_step; [exact IH|apply udp_finish]|]. intros E key i Hi%associations_finish. by eapply Hc.
  - split; [done|]. intros _ key id Hid. apply elem_of_union_r, elem_of_list_to_set, list_elem_of_fmap.
    exists (key, id). split; [done|]. by apply elem_of_map_to_list.
Qed.
End local_forward.

(** ** From the local socket to the target and back *)

Section end_to_end.
Context `{WR : !Writer W, WL : !WriterLaws W}.
Context `{RD2 : !Reader R2, RL2 : !ReaderLaws R2, PC2 : !PacketConn C2, PL2 : !PacketConnLaws C2}.
Context `{WR2 : !Writer W2, WL2 : !WriterLaws W2}.
Context `{RD1 : !Reader R1, RL1 : !ReaderLaws R1, PC1 : !PacketConn C1, PL1 : !PacketConnLaws C1}.
Context `{WR1 : !Writer W1, WL1 : !WriterLaws W1}.

(** What an association has written is a prefix of frames of its source's packets. *)
Lemma association_frames (u : udp W) id a stream :
  udp_ok u -> heap u !! id = Some a -> as_stream a = Some stream ->
  w_sink stream `prefix_of` frames (as_sent a ++ option_list (as_failed a)) /\
  (as_failed a = None -> w_sink stream = frames (as_sent a)) /\
  as_sent a ++ option_list (as_failed a) `sublist_of` from (as_key a) (history u).
Proof using Type.
  intros Hu Ha Hs. destruct (uo_heap _ Hu id a Ha) as [_ [Ho _ Hw]]. rewrite Hs in Hw.
  destruct Hw as (tail & -> & Ht). rewrite frames_cat. split_and!.
  - apply prefix_app. destruct (as_failed a) as [p|]; [by rewrite <- frames_one in Ht|by rewrite Ht].
  - intros E. rewrite E in Ht. by rewrite Ht, app_nil_r.
  - etrans; [|exact Ho]. rewrite app_assoc. by apply sublist_inserts_r.
Qed.

(** C36: UDP forwarding end to end, in every interleaving of the local forwarder, the remote
    bridge ([UDPForward]) and the local bridge that returns replies.  The target receives packets of
    one source only, unchanged and in order, each at most once; when the remote bridge has read to the
    end of a stream on which no write failed, it received all that was sent.  The source
    receives, in order, unchanged and without a gap, packets that the target sent. *)
Theorem udp_end_to_end (u : udp W) id a stream idle (r0 : R2) (c0 : C2) (w0 : W2) (remote : bridge R2 C2 W2)
    idle' (r1 : R1) (c1 : C1) (w1 : W1) (local : bridge R1 C1 W1) :
  reachable (fun u => u = udp_init) udp_step u -> heap u !! id = Some a -> as_stream a = Some stream ->
  r_rest r0 `prefix_of` w_sink stream ->
  reachable (fun s => s = bridge_init r0 c0 w0) (bridge_step true idle) remote ->
  w_sink w0 = [] -> r_rest r1 `prefix_of` w_sink (db_writer remote) ->
  reachable (fun s => s = bridge_init r1 c1 w1) (bridge_step false idle') local ->
  (exists requests, pc_sent (db_conn remote) = pc_sent c0 ++ requests /\
    requests `sublist_of` from (as_key a) (history u) /\
    (as_failed a = None -> r_rest r0 = w_sink stream ->
     (exists err, db_incoming remote = Some (ReadFailed err)) -> requests = as_sent a)) /\
  (exists replies, pc_sent (db_conn local) = pc_sent c1 ++ replies /\ replies `prefix_of` db_received remote).
Proof using WL RL1 RL2 PL1 PL2 WL1 WL2.
  intros Hu%udp_reachable_ok Ha Hs Hr0 [requests Hremote]%bridge_reachable_ok Hw0 Hr1 [replies Hlocal]%bridge_reachable_ok.
  destruct (association_frames _ _ _ _ Hu Ha Hs) as (Hpre & Hall & Hsub). pose proof (from_sizes _ _ _ Hu Hsub) as Hsz.
  destruct (bridge_ok_from _ _ _ _ _ _ Hremote Hsz) as [Hreq Hend]; [by etrans|].
  destruct (bo_outgoing _ _ _ _ _ Hremote) as (written & Hw & Hwp & _). rewrite Hw0 in Hw.
  destruct (bridge_ok_from _ _ _ _ _ _ Hlocal (bo_received _ _ _ _ _ Hremote)) as [Hrep _].
  { etrans; [exact Hr1|]. by rewrite Hw. }
  split; [exists requests|exists replies; split; [apply Hlocal|done]]. split_and!; [apply Hremote| |].
  - destruct Hreq as [k Hk]. etrans; [|exact Hsub]. rewrite Hk. by apply sublist_inserts_r.
  - intros Ef Hfull Herr. rewrite Ef in Hend. cbn in Hend. rewrite app_nil_r in Hend. apply Hend; [|done].
    rewrite Hfull. by apply Hall.
Qed.
End end_to_end.

(** ** Byte streams *)

(** [io.Copy] and its buffer. *)
Definition copy_buffer : nat := Z.to_nat 32768.
Fixpoint io_copy_loop `{!Reader R, !Writer W} (fuel : nat) (src : R) (dst : W) : option error * R * W :=
  match fuel with
  | O => (Some (ErrNew "unreachable"), src, dst)
  | S fuel =>
      let '(data, er, src) := r_read src copy_buffer in
      let '(ew, dst) :=
        match data with
        | [] => (None, dst)
        | _ =>
            match w_write dst data with
            | (_, Some ew, dst) => (Some ew, dst)
            | (nw, None, dst) => (if negb (nw =? blen data) then Some ErrShortWrite else None, dst)
            end
        end in
      match ew, er with
      | Some ew, _ => (Some ew, src, dst)
      | None, Some EOF => (None, src, dst)
      | None, Some er => (Some er, src, dst)
      | None, None => io_copy_loop fuel src dst
      end
  end.
Definition io_Copy `{!Reader R, !Writer W} (dst : W) (src : R) : option error * R * W :=
  io_copy_loop (S (r_fuel src)) src dst.

(** The two goroutines of [Bridge]: what they report and what they have written.  The write side of the
    stream is closed after the copy ([closeErr] is its outcome), the output if it can be
    ([closeOutput]). *)
Definition first_error (err closeErr : option error) : option error :=
  match err with None => closeErr | Some _ => err end.
Definition copy_input `{!Reader R, !Writer W} (input : R) (stream : W) (closeErr : option error) : option error * W :=
  let '(err, _, stream) := io_Copy stream input in (first_error err closeErr, stream).
Definition copy_output `{!Reader R, !Writer W} (stream : R) (output : W) (closeOutput : option (option error))
    : option error * W :=
  let '(err, _, output) := io_Copy output stream in
  (match closeOutput with Some closeErr => first_error err closeErr | None => err end, output).

(** [TCPForward]: the connection is both input and output of [Bridge], without an idle timer. *)
Definition TCPForward {C} (host : string) (port : Z) (dialed : result C) (events : list bridge_event) : outcome :=
  match dialed with
  | Err err => Some (Some (Wrapf "connect to TCP %s:%d: %w" [AStr host; AInt port] err), false)
  | Ok _ => Bridge 0 events
  end.

(** The goroutine of [StartLocalForward] that serves an accepted connection: the errors it reports and
    the order of its deferred calls. *)
Inductive close_call := CloseStream | CloseConnection.
Definition forward_connection {ST} (opened : result ST) (bridged : option error) (ctxDone : bool)
    : list error * list close_call :=
  match opened with
  | Err streamErr => ([streamErr], [CloseConnection])
  | Ok _ =>
      (match bridged with Some err => if ctxDone then [] else [err] | None => [] end,
       [CloseStream; CloseConnection])
  end.
(** The accept loop: the connections served and the error reported when it ends. *)
Fixpoint accept_loop {C} (ctxDone : bool) (accepted : list (result C)) : list C * list error :=
  match accepted with
  | [] => ([], [])
  | Err acceptErr :: _ => ([], if ctxDone then [] else [acceptErr])
  | Ok connection :: rest =>
      let '(served, errs) := accept_loop ctxDone rest in (connection :: served, errs)
  end.

Section copy_proofs.
Context `{RD : !Reader R, RL : !ReaderLaws R, WR : !Writer W, WL : !WriterLaws W}.
Local Arguments copy_buffer : simpl never.

(** [io.Copy] returns; without an error it has copied everything up to EOF, and with one a prefix. *)
Lemma io_copy_loop_spec fuel (src src' : R) (dst dst' : W) err :
  (r_fuel src < fuel)%nat -> io_copy_loop fuel src dst = (err, src', dst') ->
  exists copied, w_sink dst' = w_sink dst ++ copied /\ copied `prefix_of` r_rest src /\
    (err = None -> copied = r_rest src /\ r_end src = EOF).
Proof using RL WL.
  revert src dst. induction fuel as [|fuel IH]; intros src dst Hf; [lia|]. cbn [io_copy_loop].
  destruct (r_read src copy_buffer) as [[data er] src1] eqn:Er.
  apply r_read_spec in Er as (_ & Hrest & Hend & Her); [|unfold copy_buffer; lia].
  destruct (match data with [] => _ | _ => _ end) as [ew dst1] eqn:Ew.
  assert (exists n, w_sink dst1 = w_sink dst ++ take n data /\ (ew = None -> (length data <= n)%nat)) as (n & Hd & Hn).
  { destruct data as [|b data]; [injection Ew as <- <-; exists 0%nat; cbn; by rewrite app_nil_r|].
    destruct (w_write dst (b :: data)) as [[nw e] dst2] eqn:Ewr. apply w_write_spec in Ewr as [Hr Hd].
    exists (Z.to_nat nw). destruct e as [e|]; simplify_eq; split; try done.
    destruct (Z.eqb_spec nw (blen (b :: data))) as [->|]; cbn [negb]; [unfold blen; lia|done]. }
  assert (forall err', ew = None -> (err', src1, dst1) = (err, src', dst') -> er = Some (r_end src) -> r_rest src1 = [] ->
    (err' = None -> r_end src = EOF) ->
    exists copied, w_sink dst' = w_sink dst ++ copied /\ copied `prefix_of` r_rest src /\
      (err = None -> copied = r_rest src /\ r_end src = EOF)) as Hlast.
  { intros err' -> [= -> <- <-] _ Hr Heof. exists data. rewrite Hd, take_ge by auto.
    rewrite Hrest, Hr, app_nil_r. split_and!; [done|done|]. by intros ->%Heof. }
  destruct ew as [ew|].
  - intros [= <- <- <-]. exists (take n data). rewrite Hd, Hrest. split_and!; [done| |done].
    apply prefix_app_r. exists (drop n data). by rewrite take_drop.
  - destruct er as [er|].
    + destruct Her as [-> Hr]. destruct (r_end src) eqn:Ee; intros H; eapply Hlast; eauto; done.
    + intros (copied & Hd' & Hp & He)%IH; [|lia]. exists (data ++ copied).
      rewrite Hd', Hd, take_ge, app_assoc, Hrest by auto. split_and!; [done|by apply prefix_app|].
      intros [-> Hx]%He. by rewrite <- Hend.
Qed.

Lemma io_Copy_spec (src src' : R) (dst dst' : W) err :
  io_Copy dst src = (err, src', dst') ->
  exists copied, w_sink dst' = w_sink dst ++ copied /\ copied `prefix_of` r_rest src /\
    (err = None -> copied = r_rest src /\ r_end src = EOF).
Proof using RL WL. apply io_copy_loop_spec. lia. Qed.

(** With a writer that accepts everything it copies all of a stream that ends. *)
Lemma io_Copy_complete (src : R) (dst : W) :
  (forall w p, exists w', w_write w p = (blen p, None, w')) -> r_end src = EOF ->
  exists src' dst', io_Copy dst src = (None, src', dst').
Proof using RL.
  intros Hw. unfold io_Copy. assert (r_fuel src < S (r_fuel src))%nat as Hf by lia. revert Hf.
  generalize (S (r_fuel src)) as fuel. intros fuel. revert src dst.
  induction fuel as [|fuel IH]; intros src dst Hf He; [lia|]. cbn [io_copy_loop].
  destruct (r_read src copy_buffer) as [[data er] src1] eqn:Er.
  apply r_read_spec in Er as (_ & _ & Hend & Her); [|unfold copy_buffer; lia].
  assert (exists dst1, (match data with
    | [] => (None, dst)
    | _ => match w_write dst data with
           | (_, Some ew, dst) => (Some ew, dst)
           | (nw, None, dst) => (if negb (nw =? blen data) then Some ErrShortWrite else None, dst)
           end
    end) = (None, dst1)) as [dst1 ->].
  { destruct data as [|b data]; [eauto|]. destruct (Hw dst (b :: data)) as [w' ->]. rewrite Z.eqb_refl. eauto. }
  destruct er as [er|]; [|apply IH; [lia|congruence]]. destruct Her as [-> _]. rewrite He. eauto.
Qed.
End copy_proofs.

(** ** A forwarded connection *)

(** What the two directions have reported, in the order it was received. *)
Definition completed (events : list bridge_event) : list (option error) :=
  omap (fun ev => match ev with Completed err => Some err | _ => None end) events.
(** The reports come from goroutines that report [e1] and [e2] once each. *)
Definition reports (e1 e2 : option error) (events : list bridge_event) : Prop :=
  completed events `prefix_of` [e1; e2] \/ completed events `prefix_of` [e2; e1].

Lemma length_completed events : length (completed events) = completions events.
Proof. induction events as [|[| | |]]; cbn; try done. by f_equal. Qed.

Lemma elem_of_completed err events : Completed err ∈ events <-> err ∈ completed events.
Proof. unfold completed. rewrite list_elem_of_omap. split; [eauto|]. by intros ([| | |] & ? & [= <-]). Qed.

Lemma reports_all e1 e2 pre rest :
  reports e1 e2 (pre ++ rest) -> completions pre = 2%nat -> Completed e1 ∈ pre /\ Completed e2 ∈ pre.
Proof.
  rewrite !elem_of_completed, <- length_completed. unfold reports, completed. rewrite omap_app.
  intros [[k Hk]|[k Hk]] H2; destruct (omap _ pre) as [|a [|b [|]]]; cbn in *; simplify_eq; set_solver.
Qed.

Lemma reports_elem e1 e2 err events : reports e1 e2 events -> Completed err ∈ events -> err = e1 \/ err = e2.
Proof.
  rewrite elem_of_completed. intros [[k Hk]|[k Hk]] H;
    (assert (err ∈ [e1; e2]) as Hin; [|set_solver]).
  - rewrite Hk. set_solver.
  - assert (err ∈ [e2; e1]); [rewrite Hk|]; set_solver.
Qed.

(** A bridge without an idle timer that is not cancelled succeeds when both directions do. *)
Lemma Bridge_result e1 e2 events err reset :
  reports e1 e2 events -> (forall cause, Cancelled cause ∉ events) ->
  (forall e, e1 = Some e \/ e2 = Some e -> errors_Is e EOF = false) ->
  Bridge 0 events = Some (err, reset) ->
  (err = None <-> e1 = None /\ e2 = None) /\ (reset = true <-> err <> None).
Proof.
  intros Hr Hc Heof HB. pose proof (bridge_loop_outcome 0 2 events) as Hs. unfold Bridge in HB. rewrite HB in Hs.
  destruct err as [err|]; cbn [bridge_spec] in Hs.
  - destruct Hs as (-> & pre & ev & rest & -> & _ & _ & Hf). split; [|done]. split; [done|]. intros [-> ->]. exfalso.
    destruct ev as [cause| | |[e|]]; try done; [set_solver|].
    destruct (reports_elem None None (Some e) _ Hr); [set_solver|done..].
  - destruct Hs as (-> & pre & rest & -> & Hp & H2). split; [|done]. split; [intros _|done].
    destruct (reports_all _ _ _ _ Hr H2) as [H1 H1']. rewrite Forall_forall in Hp.
    assert (forall e, Completed e ∈ pre -> e = e1 \/ e = e2 -> e = None) as Hn.
    { intros [e|] He Hor; [|done]. apply Hp in He. cbn in He. rewrite Heof in He by naive_solver. done. }
    split; apply Hn; auto.
Qed.

Section tcp.
Context `{RD1 : !Reader R1, RL1 : !ReaderLaws R1, WR1 : !Writer W1, WL1 : !WriterLaws W1}.
Context `{RD2 : !Reader R2, RL2 : !ReaderLaws R2, WR2 : !Writer W2, WL2 : !WriterLaws W2}.

(** A forwarded TCP connection about which nothing is reported was forwarded completely.  While the
    context lasts, a connection of [StartLocalForward] reports an error exactly when one of its directions failed;
    otherwise the stream has received every byte of the connection and the connection
    every byte of the stream, and the stream was not reset. *)
Theorem tcp_forward_reported (connection : R1) (stream : W1) (stream_in : R2) (connection_out : W2)
    closeErr closeOutput events e1 e2 stream' connection' err reset :
  copy_input connection stream closeErr = (e1, stream') ->
  copy_output stream_in connection_out closeOutput = (e2, connection') ->
  (forall e, e1 = Some e \/ e2 = Some e -> errors_Is e EOF = false) ->
  reports e1 e2 events -> (forall cause, Cancelled cause ∉ events) ->
  Bridge 0 events = Some (err, reset) ->
  ((forward_connection (Ok tt) err false).1 = [] <-> e1 = None /\ e2 = None) /\
  ((forward_connection (Ok tt) err false).1 = [] ->
    reset = false /\ closeErr = None /\
    w_sink stream' = w_sink stream ++ r_rest connection /\
    w_sink connection' = w_sink connection_out ++ r_rest stream_in).
Proof using RL1 RL2 WL1 WL2.
  intros H1 H2 Heof Hr Hc HB. destruct (Bridge_result _ _ _ _ _ Hr Hc Heof HB) as [Hn Hreset].
  assert ((forward_connection (Ok tt) err false).1 = [] <-> err = None) as -> by (destruct err; cbn; naive_solver).
  split; [done|]. intros E. destruct (proj1 Hn E) as [-> ->].
  unfold copy_input in H1. destruct (io_Copy stream connection) as [[ec r] w] eqn:E1.
  unfold copy_output in H2. destruct (io_Copy connection_out stream_in) as [[ec2 r2] w2] eqn:E2.
  injection H1 as H1 <-. injection H2 as H2 <-. destruct ec; [done|].
  assert (ec2 = None) as -> by (destruct closeOutput, ec2; cbn in *; congruence).
  apply io_Copy_spec in E1 as (c1 & -> & _ & [-> _]%(fun H => H eq_refl)).
  apply io_Copy_spec in E2 as (c2 & -> & _ & [-> _]%(fun H => H eq_refl)).
  split_and!; [|done..]. destruct reset; [|done]. by destruct (proj1 Hreset eq_refl).
Qed.
End tcp.

(** ** Witnesses *)

Module ForwardingWitness.
Import UdpWitness.

(** A socket that sends everything. *)
Definition packets : Type := list (list byte).
#[export] Instance packets_conn : PacketConn packets := {| pc_write c p := (blen p, None, c ++ [p]); pc_sent c := c |}.
#[export] Instance packets_laws : PacketConnLaws packets.
Proof. intros c p n e c' [= <- <- <-]. by rewrite bool_decide_true. Qed.

(** The remote bridge of [s6]: the request, a reply, and the end of the stream. *)
Definition request : source := mkSource [[x00; x01]; [x61]] EOF.
Definition b0 : bridge source packets sink := bridge_init request [] (mkSink [] []).
Definition b1 := stream_to_socket false b0.
Definition b2 := socket_to_stream (Ok [x62; x63]) b1.
Definition b3 := stream_to_socket false b2.
Definition b4 := supervise Activity b3.
Definition b5 := supervise (Completed (Some EOF)) b4.
Definition reply : source := mkSource [[x00; x02; x62; x63]] EOF.
Definition l0 : bridge source packets sink := bridge_init reply [] (mkSink [] []).
Definition l1 := stream_to_socket false l0.

Lemma b5_reachable : reachable (fun s => s = b0) (bridge_step true 0) b5.
Proof.
  apply (reach_step _ _ b4); [|by apply (bs_error true 0 b4 EOF [])].
  apply (reach_step _ _ b3); [|by apply (bs_activity true 0 b3)].
  apply (reach_step _ _ b2); [|apply (bs_incoming true 0 b2)].
  apply (reach_step _ _ b1); [|by apply (bs_packet true 0 b1 [x62; x63])].
  apply (reach_step _ _ b0); [|apply (bs_incoming true 0 b0)].
  by apply reach_init.
Qed.

Lemma udp_end_to_end_witness :
  bridge_result 0 b5 = Some (None, false) /\
  (exists requests, pc_sent (db_conn b5) = requests /\ requests = [[x61]]) /\
  (exists replies, pc_sent (db_conn l1) = replies /\ replies `prefix_of` [[x62; x63]]).
Proof.
  split; [vm_compute; reflexivity|].
  assert (heap s6 !! 0%nat = Some first) as E by (vm_compute; reflexivity).
  assert (reachable (fun s => s = l0) (bridge_step false 0) l1) as Hl.
  { apply (reach_step _ _ l0); [by apply reach_init|apply (bs_incoming false 0 l0)]. }
  assert (r_rest request `prefix_of` w_sink (mkSink [x00; x01; x61] [])) as Hr by (exists []; vm_compute; reflexivity).
  assert (r_rest reply `prefix_of` w_sink (db_writer b5)) as Hp by (exists []; vm_compute; reflexivity).
  destruct (udp_end_to_end s6 0 first (mkSink [x00; x01; x61] []) 0 request [] (mkSink [] []) b5
    0 reply [] (mkSink [] []) l1 s6_reachable E eq_refl Hr b5_reachable eq_refl Hp Hl)
    as [(qs & Hq & _ & Hall) (rs & Hrs & Hpre)].
  split; [exists qs|exists rs]; (split; [assumption|]); [|exact Hpre].
  apply Hall; [reflexivity|reflexivity|by exists EOF].
Defined.

Lemma tcp_forward_reported_witness :
  w_sink (copy_input (mkSource [[x61]; [x62]] EOF) (mkSink [] []) None).2 = [x61; x62].
Proof.
  assert (copy_input (mkSource [[x61]; [x62]] EOF) (mkSink [] []) None = (None, mkSink [x61; x62] [])) as H1
    by (vm_compute; reflexivity).
  assert (copy_output (mkSource [[x63]] EOF) (mkSink [] []) (Some None) = (None, mkSink [x63] [])) as H2
    by (vm_compute; reflexivity).
  destruct (tcp_forward_reported _ _ _ _ _ _ [Completed None; Activity; Completed None] _ _ _ _ None false H1 H2
    ltac:(naive_solver) ltac:(left; by exists []) ltac:(intros cause; set_solver) eq_refl) as [_ H].
  destruct (H eq_refl) as (_ & _ & Hs & _). rewrite H1. exact Hs.
Defined.
End ForwardingWitness.
