(* ===== verification/Cli.v ===== *)
(** [internal/cli]: the options of the command, the pairing token a process uses, and the
    listener that admits streams to sessions (internal/cli/root.go), with the scan that decides
    whether the process restarts itself under Tor (internal/app/run.go). *)
From S2P Require Export Admission GoNet.
From S2P Require Import ExtModel.
Local Open Scope Z_scope.

Definition DefaultService : Z := 31337.

Record options := mkOptions {
  o_listen : bool;
  o_keepOpen : bool;
  o_timeout : Z;
  o_timeoutExplicit : bool;
  o_quitDelay : Z;
  o_destination : string;
  o_port : Z;
  o_quiet : bool;
  o_socks : bool;
  o_tor : bool;
  o_upstreamSOCKS : string;
  o_interactive : bool;
  o_zero : bool;
  o_exec : string;
  o_udp : bool;
  o_udpIdleTimeout : Z;
  o_transportPort : Z;
  o_ipv4 : bool;
  o_ipv6 : bool;
  o_identity : string;
  o_relays : list string;
  o_bootstrap : list string;
  o_announce : list string;
  o_noDHT : bool;
  o_noMDNS : bool;
  o_noPubsub : bool;
  o_noQUIC : bool;
  o_noWebRTC : bool;
  o_allowUnauthenticatedListener : bool;
  o_allowUnauthenticatedNativeWebRTC : bool;
  o_pairingToken : string;
  o_pairingTokenFile : string;
  o_bind : string;
  o_json : bool;
  o_verbose : bool
}.

Definition privilegedListenerMode (opts : options) : bool :=
  o_interactive opts || negb (bool_decide (o_exec opts = "")) || o_socks opts || negb (o_port opts =? 0).

(** [tokenEnv] is the value of [P2P_NETCAT_TOKEN]. *)
Definition pairingTokenConfigured (opts : options) (tokenEnv : string) : bool :=
  negb (bool_decide (TrimSpace (o_pairingToken opts) = "")) ||
  negb (bool_decide (TrimSpace (o_pairingTokenFile opts) = "")) ||
  negb (bool_decide (TrimSpace tokenEnv = "")).

(** [validateOptions]; [changed] tells the flags given on the command line. *)
Definition validateOptions (changed : string -> bool) (tokenEnv : string) (opts : options) (args : list string)
    : result unit :=
  let exec_set := negb (bool_decide (o_exec opts = "")) in
  let destination_set := negb (bool_decide (o_destination opts = "")) in
  let port_set := negb (o_port opts =? 0) in
  let quit_set := negb (o_quitDelay opts =? 0) in
  refuse (o_timeout opts <=? 0) (ErrNew "-w/--timeout must be greater than zero");;
  refuse ((o_quitDelay opts <? 0) || (o_transportPort opts <? 0) || (65535 <? o_transportPort opts))
    (ErrNew "ports and delays cannot be negative");;
  refuse (o_udpIdleTimeout opts <? 0) (ErrNew "--udp-idle-timeout cannot be negative");;
  refuse (changed "udp-idle-timeout" && negb (o_udp opts)) (ErrNew "--udp-idle-timeout requires -u/--udp");;
  refuse ((o_port opts <? 0) || (65535 <? o_port opts) || (changed "port" && negb port_set))
    (ErrNew "-p/--port must be between 1 and 65535");;
  refuse (o_ipv4 opts && o_ipv6 opts) (ErrNew "-4 and -6 cannot be used together");;
  refuse (o_udp opts && negb port_set) (ErrNew "-u/--udp requires -p/--port for UDP forwarding");;
  refuse (o_udp opts && (o_socks opts || o_interactive opts || o_zero opts || exec_set || quit_set))
    (ErrNew "-u cannot be combined with -S, -i, -z, -e, or --quit-delay");;
  refuse (o_keepOpen opts && negb (o_listen opts)) (ErrNew "-k/--keep-open is available only with -l");;
  refuse (o_zero opts && o_listen opts) (ErrNew "-z/--zero is available only in client mode");;
  refuse (exec_set && negb (o_listen opts)) (ErrNew "-e is available only with -l");;
  refuse (exec_set && (port_set || destination_set || o_socks opts))
    (ErrNew "-e cannot be combined with -p, -d, or -S");;
  refuse (destination_set && (negb (o_listen opts) || negb port_set))
    (ErrNew "-d is available only with -l -p <port>");;
  refuse (o_socks opts && negb (o_listen opts)) (ErrNew "-S is available only with -l");;
  refuse (o_socks opts && (destination_set || port_set)) (ErrNew "-S cannot be combined with server-side -d/-p");;
  refuse (o_interactive opts && (exec_set || o_socks opts || port_set || destination_set))
    (ErrNew "-i cannot be combined with -e, -S, -p, or -d");;
  refuse (negb (o_listen opts) && port_set && (o_interactive opts || o_zero opts))
    (ErrNew "client-side -p cannot be combined with -i or -z");;
  refuse (o_tor opts && o_listen opts) (ErrNew "-T is supported only in client mode");;
  refuse (quit_set && (port_set || o_socks opts || o_interactive opts || o_zero opts || exec_set))
    (ErrNew "--quit-delay is available only for raw stream mode");;
  refuse (o_tor opts && bool_decide (o_relays opts = [])) (ErrNew "-T requires an explicit --relay");;
  refuse (existsb (fun relay => o_tor opts && Contains relay "/udp/") (o_relays opts))
    (ErrNew "Tor cannot carry QUIC/UDP; use a TCP/WS/WSS relay");;
  refuse (o_listen opts && (1 <? Z.of_nat (length args)))
    (ErrNew "listener mode accepts only a logical port: p2p-nc -l 8080");;
  let privileged := privilegedListenerMode opts in
  refuse (o_allowUnauthenticatedListener opts && (negb (o_listen opts) || negb privileged))
    (ErrNew "--allow-unauthenticated-listener requires -l with -i, -e, -S, or -p");;
  refuse (o_listen opts && privileged && negb (pairingTokenConfigured opts tokenEnv) &&
          negb (o_allowUnauthenticatedListener opts))
    (ErrNew "privileged listener modes require a pairing token; use --allow-unauthenticated-listener only if public access is intended");;
  refuse (o_tor opts && negb (bool_decide (o_upstreamSOCKS opts = "")))
    (ErrNew "-T/--tor and --upstream-socks cannot be combined");;
  refuse (o_allowUnauthenticatedNativeWebRTC opts && (o_noWebRTC opts || o_tor opts))
    (ErrNew "--allow-unauthenticated-native-webrtc cannot be combined with --no-webrtc or -T/--tor").

(** The session [runServerSession] enters. *)
Inductive cli_session :=
  | RunUDPForward (host : string) (port timeout idleTimeout : Z)
  | RunPTYServer
  | RunSOCKS (timeout : Z)
  | RunTCPForward (host : string) (port timeout : Z)
  | RunExec (command : string)
  | RunBridge (quitDelay inactivity : Z).

Definition seconds (n : Z) : Z := wrapS 64 (n * Second).
Definition forward_host (opts : options) : string :=
  if bool_decide (o_destination opts = "") then "127.0.0.1" else o_destination opts.

Definition runServerSession (opts : options) : cli_session :=
  let timeout := seconds (o_timeout opts) in
  if o_udp opts then RunUDPForward (forward_host opts) (o_port opts) timeout (seconds (o_udpIdleTimeout opts))
  else if o_interactive opts then RunPTYServer
  else if o_socks opts then RunSOCKS timeout
  else if negb (o_port opts =? 0) then RunTCPForward (forward_host opts) (o_port opts) timeout
  else if negb (bool_decide (o_exec opts = "")) then RunExec (o_exec opts)
  else RunBridge (seconds (o_quitDelay opts)) (if o_timeoutExplicit opts then timeout else 0).

Definition parseService (text : string) : result Z :=
  let err := Errorf "logical port must be an integer between 1 and 65535: %s" [AStr text] in
  match ParseUint text 16 with
  | Err _ => Err err
  | Ok value => if value =? 0 then Err err else Ok value
  end.

Definition nativeWebRTCEnabled (opts : options) (authenticated : bool) : bool :=
  negb (o_noWebRTC opts) && negb (o_tor opts) && (authenticated || o_allowUnauthenticatedNativeWebRTC opts).

Definition minDuration (left right : Z) : Z := if left <? right then left else right.

(** ** The scan of the arguments before they are parsed *)

Definition takes_value : list string :=
  ["-I"; "-w"; "-d"; "-p"; "-e"; "--identity"; "--timeout"; "--destination"; "--port"; "--exec"].

Fixpoint short_option_loop (skipNext : bool) (args : list string) (shorthand : byte) (longhand : string) : bool :=
  match args with
  | [] => false
  | value :: rest =>
      if skipNext then short_option_loop false rest shorthand longhand
      else if bool_decide (value = "--" +:+ longhand) || bool_decide (value = "-" +:+ string_of [shorthand]) then true
      else if bool_decide (value ∈ takes_value) then short_option_loop true rest shorthand longhand
      else if (slen value <? 3) || negb (HasPrefix value "-") || HasPrefix value "--"
           then short_option_loop false rest shorthand longhand
      else if contains_byte (nth 1 (bytes_of value) x00) (bytes_of "Iwdpe")
           then short_option_loop false rest shorthand longhand
      else if contains_byte shorthand (drop 1 (bytes_of value)) then true
      else short_option_loop false rest shorthand longhand
  end.
Definition booleanShortOptionRequested := short_option_loop false.
Definition QuietRequested (args : list string) : bool := booleanShortOptionRequested args x71 "quiet".
Definition TorRequested (args : list string) : bool := booleanShortOptionRequested args x54 "tor".

(** ** The pairing token and the listener *)

Section cli.
Context `{LP : !Libp2p, CB : !Cbor, CR : !Crypto}.

(** What a process meets outside: the environment variable, the token file's content (after
    its permission and size checks), the clock, the order of a map range, the peer of the
    persistent key, and the lock on a logical port. *)
Record cli_env := mkCliEnv {
  ce_tokenEnv : string;
  ce_tokenFile : string -> result string;
  ce_now : Time;
  ce_order : list string;
  ce_identity : result string;
  ce_acquire : Z -> result unit
}.

(** The sources of [loadToken] with their values. *)
Definition token_sources (env : cli_env) (opts : options) : result (gmap string string) :=
  let add label value (sources : gmap string string) :=
    if bool_decide (value = "") then sources else <[label := value]> sources in
  let sources := add "--pairing-token" (TrimSpace (o_pairingToken opts)) ∅ in
  let path := TrimSpace (o_pairingTokenFile opts) in
  sources ←
    (if bool_decide (path = "") then Ok sources
     else data ← ce_tokenFile env path; Ok (<["--pairing-token-file" := TrimSpace data]> sources));
  Ok (add "P2P_NETCAT_TOKEN" (TrimSpace (ce_tokenEnv env)) sources).

(** The range over the sources. *)
Fixpoint select_source (sources : gmap string string) (labels : list string) (selected : string)
    : result string :=
  match labels with
  | [] => Ok selected
  | label :: labels =>
      let value := default "" (sources !! label) in
      if negb (bool_decide (selected = "")) && negb (bool_decide (selected = value))
      then Err (Errorf "pairing token differs between sources, including %s" [AStr label])
      else select_source sources labels value
  end.

Definition loadToken (env : cli_env) (opts : options) : result (option Token) :=
  sources ← token_sources env opts;
  if bool_decide (sources = ∅) then Ok None
  else
  selected ← select_source sources (ce_order env) "";
  token ← Decode selected;
  Validate (Some token) (ce_now env);;
  Ok (Some token).

Definition validateTokenFor (token : Token) (expected : string) (service : Z) (now : Time) : result unit :=
  refuse (negb (bool_decide (tk_PeerID token = expected)))
    (Errorf "pairing token belongs to PeerId %s, not %s" [AStr (tk_PeerID token); AStr expected]);;
  refuse (negb (tk_Service token =? service))
    (Errorf "pairing token belongs to logical port %d, not %d" [AInt (tk_Service token); AInt service]);;
  Validate (Some token) now.

Definition relayStrings (token : Token) : list string := hint_String <$> tk_RelayHints token.

(** [runListener] up to the node: the logical port, the token and the relays. *)
Definition listener_setup (env : cli_env) (opts : options) (args : list string)
    : result (Z * option Token * list string) :=
  token ← loadToken env opts;
  service ←
    (match args with
     | [text] => parseService text
     | _ => Ok (match token with Some t => tk_Service t | None => DefaultService end)
     end);
  ce_acquire env service;;
  peerID ← ce_identity env;
  match token with
  | None => Ok (service, None, o_relays opts)
  | Some t =>
      validateTokenFor t peerID service (ce_now env);;
      Ok (service, Some t, if bool_decide (o_relays opts = []) then relayStrings t else o_relays opts)
  end.

Definition persistent (opts : options) : bool :=
  o_keepOpen opts || o_interactive opts || o_socks opts || negb (o_port opts =? 0).

(** ** Streams of a listener *)

Context `{RD : !Reader ST, WR : !Writer ST}.

(** Where a stream is in [handleStream], with the stream as it arrived. *)
Inductive phase :=
  | Authenticating (stream : ST)
  | Refused
  | AuthFailed (err : error)
  | InSession (stream : ST)
  | Ended (stream : ST).

Record listener := mkListener {
  l_accepted : bool;
  l_streams : gmap nat phase;
  l_sessions : list nat;                (** the streams given a session, in order *)
  l_result : option (option error)
}.
Definition listener_init : listener := mkListener false ∅ [] None.

Definition set_phase (l : listener) (id : nat) (p : phase) : listener :=
  mkListener (l_accepted l) (<[id := p]> (l_streams l)) (l_sessions l) (l_result l).
(** The flag is set and the session starts. *)
Definition start_session (l : listener) (id : nat) (stream : ST) : listener :=
  mkListener true (<[id := InSession stream]> (l_streams l)) (l_sessions l ++ [id]) (l_result l).

(** [handleStream] until its goroutine waits for the hello or the session. *)
Definition handleStream (keep : bool) (token : option Token) (l : listener) (id : nat) (stream : ST) : listener :=
  match token with
  | None => if l_accepted l && negb keep then set_phase l id Refused else start_session l id stream
  | Some _ => set_phase l id (Authenticating stream)
  end.

(** The goroutine's authentication and the second check of the flag. *)
Definition authenticate (keep : bool) (token : Token) (l : listener) (id : nat) (now : Time)
    (random : result (list byte)) : listener :=
  match l_streams l !! id with
  | Some (Authenticating stream) =>
      match fst (AuthenticateServer stream token now random) with
      | Err err => set_phase l id (AuthFailed err)
      | Ok _ => if l_accepted l && negb keep then set_phase l id Refused else start_session l id stream
      end
  | _ => l
  end.

(** The session returns; only the first result of a listener that is not persistent counts. *)
Definition session_end (keep : bool) (l : listener) (id : nat) (err : option error) : listener :=
  match l_streams l !! id with
  | Some (InSession stream) =>
      mkListener (l_accepted l) (<[id := Ended stream]> (l_streams l)) (l_sessions l)
        (if keep then l_result l else match l_result l with Some r => Some r | None => Some err end)
  | _ => l
  end.

(** A clock that has left 1970. *)
Definition plausible (now : Time) : Prop := sane now /\ unixToInternal * nanos + MaxClockSkew <= ns now.

(** What happens to a listener, with the clock the goroutine of a stream reads when it has the hello. *)
Inductive listener_event :=
  | StreamArrives (id : nat) (stream : ST)
  | Authenticates (id : nat) (now : Time) (random : result (list byte))
  | SessionEnds (id : nat) (err : option error).

Inductive listener_step (keep : bool) (token : option Token) (l : listener) : listener_event -> listener -> Prop :=
  | listener_stream id stream :
      l_streams l !! id = None ->
      listener_step keep token l (StreamArrives id stream) (handleStream keep token l id stream)
  | listener_auth id t now random :
      token = Some t -> plausible now ->
      listener_step keep token l (Authenticates id now random) (authenticate keep t l id now random)
  | listener_end id err : listener_step keep token l (SessionEnds id err) (session_end keep l id err).

(** A run of the listener: its events, the last one first, and the state they lead to. *)
Inductive listener_run (keep : bool) (token : option Token) : list listener_event -> listener -> Prop :=
  | run_start : listener_run keep token [] listener_init
  | run_event evs l ev l' :
      listener_run keep token evs l -> listener_step keep token l ev l' -> listener_run keep token (ev :: evs) l'.
End cli.
Arguments phase : clear implicits.
Arguments listener : clear implicits.
Arguments listener_event : clear implicits.

(** ** Choosing the token *)

Section token_proofs.
Context `{LP : !Libp2p, CB : !Cbor, CR : !Crypto}.
Implicit Types (env : cli_env) (opts : options).

Lemma select_source_spec sources labels selected text :
  select_source sources labels selected = Ok text ->
  (selected = "" \/ selected = text) /\
  forall label, label ∈ labels -> default "" (sources !! label) = "" \/ default "" (sources !! label) = text.
Proof.
  revert selected; induction labels as [|l labels IH]; intros selected; cbn [select_source].
  { intros [= ->]. split; [by right|set_solver]. }
  set (value := default "" (sources !! l)).
  destruct (negb (bool_decide (selected = "")) && negb (bool_decide (selected = value))) eqn:E; [done|].
  intros [Hv Hr]%IH. split.
  - rewrite andb_false_iff, !negb_false_iff, !bool_decide_eq_true in E. destruct E as [E| ->]; [by left|done].
  - intros label [->|Hin]%elem_of_cons; [done|by apply Hr].
Qed.

Lemma token_sources_empty env opts :
  token_sources env opts = Ok ∅ -> pairingTokenConfigured opts (ce_tokenEnv env) = false.
Proof.
  unfold token_sources, pairingTokenConfigured.
  assert (forall (m : gmap string string) k v, <[k := v]> m <> ∅) as Hne by (intros; apply insert_non_empty).
  repeat case_bool_decide; cbn [mbind result_bind negb orb]; try done;
    try (destruct (ce_tokenFile env _); cbn [mbind result_bind]; [|done]);
    intros [= E]; exfalso; by eapply Hne.
Qed.

Lemma loadToken_None env opts : loadToken env opts = Ok None -> pairingTokenConfigured opts (ce_tokenEnv env) = false.
Proof.
  unfold loadToken. intros (sources & Hs & H)%bind_Ok. case_bool_decide as E.
  - subst. by apply token_sources_empty.
  - apply bind_Ok in H as (? & _ & H). apply bind_Ok in H as (? & _ & H). by apply bind_Ok in H as (? & _ & ?).
Qed.

(** The labels of a map range. *)
Definition ranges_over env opts : Prop := forall sources, token_sources env opts = Ok sources ->
  NoDup (ce_order env) /\ forall label, label ∈ ce_order env <-> is_Some (sources !! label).

(** No source of a pairing token is overruled.  When [loadToken] returns a token, it
    is valid and every configured source (flag, file, environment) holds its text or is blank,
    whatever the order of the map range; it returns no token only when none is configured. *)
Theorem load_token_agrees env opts r :
  ranges_over env opts -> loadToken env opts = Ok r ->
  match r with
  | None => pairingTokenConfigured opts (ce_tokenEnv env) = false
  | Some t => exists text, Decode text = Ok t /\ token_ok t (ce_now env) /\
      forall sources label value, token_sources env opts = Ok sources -> sources !! label = Some value ->
        value = "" \/ value = text
  end.
Proof.
  intros Hr. destruct r as [t|]; [|apply loadToken_None].
  unfold loadToken. intros (sources & Hs & H)%bind_Ok. case_bool_decide as E; [done|].
  apply bind_Ok in H as (text & [_ Hsel]%select_source_spec & H). apply bind_Ok in H as (t' & Hd & H).
  apply bind_Ok in H as ([] & Hv%Validate_Ok & [= ->]). exists text. split_and!; [done|done|].
  intros sources' label value Hs' Hl. rewrite Hs in Hs'. injection Hs' as <-.
  specialize (Hsel label). rewrite Hl in Hsel. apply Hsel. apply (Hr sources Hs). eauto.
Qed.

Definition with_order env (order : list string) : cli_env :=
  mkCliEnv (ce_tokenEnv env) (ce_tokenFile env) (ce_now env) order (ce_identity env) (ce_acquire env).

(** A blank token file beside a token flag: whether the command starts depends on the order
    in which Go ranges over the map. *)
Theorem load_token_order_dependent env opts data t :
  TrimSpace (o_pairingToken opts) <> "" -> TrimSpace (o_pairingTokenFile opts) <> "" ->
  TrimSpace (ce_tokenEnv env) = "" ->
  ce_tokenFile env (TrimSpace (o_pairingTokenFile opts)) = Ok data -> TrimSpace data = "" ->
  Decode (TrimSpace (o_pairingToken opts)) = Ok t -> Validate (Some t) (ce_now env) = Ok tt ->
  is_ok (loadToken (with_order env ["--pairing-token"; "--pairing-token-file"]) opts) = false /\
  loadToken (with_order env ["--pairing-token-file"; "--pairing-token"]) opts = Ok (Some t).
Proof.
  intros H1 H2 H3 Hf Hb Hd Hv.
  set (sources := <["--pairing-token-file" := ""]> {["--pairing-token" := TrimSpace (o_pairingToken opts)]}
    : gmap string string).
  assert (forall order, token_sources (with_order env order) opts = Ok sources) as Hs.
  { intros order. unfold token_sources. cbn [ce_tokenEnv ce_tokenFile with_order].
    rewrite (bool_decide_false (TrimSpace (o_pairingTokenFile opts) = "")) by done. rewrite Hf.
    cbn [mbind result_bind]. rewrite H3, Hb, bool_decide_true by done.
    by rewrite bool_decide_false by done. }
  assert (sources <> ∅) as Hne by apply insert_non_empty.
  assert (sources !! "--pairing-token" = Some (TrimSpace (o_pairingToken opts))) as L1 by done.
  assert (sources !! "--pairing-token-file" = Some "") as L2 by done.
  unfold loadToken. rewrite !Hs. cbn [mbind result_bind]. rewrite !bool_decide_false by done.
  cbn [ce_order with_order select_source ce_now]. rewrite L1, L2. cbn [default id].
  rewrite (bool_decide_true ("" = "")) by done. cbn [negb andb].
  rewrite !(bool_decide_false (TrimSpace (o_pairingToken opts) = "")) by done. cbn [negb andb mbind result_bind id].
  split; [done|]. change (bool_decide ("" = "")) with true. cbn [negb andb mbind result_bind].
  rewrite Hd. cbn [mbind result_bind]. by rewrite Hv.
Qed.
End token_proofs.

(** ** Admission to sessions *)

(** Validated options: what the checks on a listener leave. *)
Lemma validateOptions_listener changed tokenEnv opts args :
  validateOptions changed tokenEnv opts args = Ok tt ->
  (o_udp opts = true -> o_port opts <> 0) /\
  (o_listen opts = true -> privilegedListenerMode opts = true ->
   pairingTokenConfigured opts tokenEnv = true \/ o_allowUnauthenticatedListener opts = true).
Proof.
  unfold validateOptions. intros H. inv_ok. split.
  - intros Hu E. match goal with H : o_udp opts && negb (negb _) = false |- _ => rewrite Hu, E in H; discriminate H end.
  - intros Hl Hp.
    match goal with H : o_listen opts && privilegedListenerMode opts && _ && _ = false |- _ =>
      rewrite Hl, Hp in H; cbn [andb] in H; revert H end.
    destruct (pairingTokenConfigured opts tokenEnv), (o_allowUnauthenticatedListener opts); auto.
Qed.

Section listener_proofs.
Context `{LP : !Libp2p, CB : !Cbor, CR : !Crypto, CRL : !CryptoLaws}.
Context `{RD : !Reader ST, WR : !Writer ST, SL : !StreamLaws ST}.
Implicit Types l : listener ST.

(** The stream began with an authentic hello for the token that is fresh at [now], when the token is valid. *)
Definition admitted (t : Token) (now : Time) (stream : ST) : Prop :=
  exists ts nonce rest, is_uint 64 ts /\ in_window ts now MaxClockSkew /\ token_ok t now /\
    r_rest stream = Admission.encode ClientHello ts nonce (hello_mac t ts nonce) ++ rest.

Lemma AuthenticateServer_admitted (stream : ST) t now random u :
  plausible now -> fst (AuthenticateServer stream t now random) = Ok u -> admitted t now stream.
Proof using CRL SL.
  intros [Hs Hlo]. unfold AuthenticateServer.
  destruct (ReadFull stream FrameSize) as [[encoded|e] s1] eqn:E; [|done].
  destruct (VerifyHello t encoded now MaxClockSkew) as [hello|e] eqn:Ev; [|done]. intros _.
  apply VerifyHello_Ok in Ev as (Ht & Hts & Hn & Hw & ->); [|done|by vm_compute|done].
  apply ReadFull_inv in E as (_ & Hr & _). unfold admitted. eauto 10.
Qed.

(** The run authenticated the stream, with a hello that was fresh at the very moment it was checked. *)
Definition authenticated_in (evs : list (listener_event ST)) (token : option Token) (id : nat) (stream : ST) : Prop :=
  match token with
  | Some t => exists now random, Authenticates id now random ∈ evs /\ admitted t now stream
  | None => True
  end.

Lemma authenticated_later ev evs token id stream :
  authenticated_in evs token id stream -> authenticated_in (ev :: evs) token id stream.
Proof. destruct token as [t|]; [|done]. intros (now & random & Hin & Ha). exists now, random. set_solver. Qed.
Hint Resolve authenticated_later : core.

Record listener_ok (keep : bool) (token : option Token) (evs : list (listener_event ST)) l : Prop := {
  lo_flag : l_accepted l = true <-> l_sessions l <> [];
  lo_once : keep = false -> (length (l_sessions l) <= 1)%nat;
  lo_refused id : l_streams l !! id = Some Refused -> l_accepted l = true;
  lo_session id stream :
    l_streams l !! id = Some (InSession stream) \/ l_streams l !! id = Some (Ended stream) ->
    l_accepted l = true /\ authenticated_in evs token id stream;
  lo_result r : l_result l = Some r -> l_accepted l = true
}.

Lemma listener_ok_init keep token : listener_ok keep token [] (@listener_init ST).
Proof. split; cbn; try done; [lia|]. intros id s [H|H]; by rewrite lookup_empty in H. Qed.

Lemma listener_ok_later keep token ev evs l : listener_ok keep token evs l -> listener_ok keep token (ev :: evs) l.
Proof. intros [Hf Ho Hr Hs Hres]. split; try done. intros id s [Ha Hin]%Hs. auto. Qed.

(** A phase that is not a session. *)
Lemma set_phase_ok keep token evs l id p :
  listener_ok keep token evs l -> (forall s, p <> InSession s /\ p <> Ended s) ->
  (p = Refused -> l_accepted l = true) -> listener_ok keep token evs (set_phase l id p).
Proof.
  intros [Hf Ho Hr Hs Hres] Hp Hpr. split; cbn [set_phase l_accepted l_streams l_sessions l_result]; try done.
  - intros i. rewrite lookup_insert_Some. intros [[_ ->]|[_ Hi]]; eauto.
  - intros i s [Hi|Hi]; rewrite lookup_insert_Some in Hi; destruct Hi as [[_ ->]|[_ Hi]];
      try (by destruct (Hp s)); eauto.
Qed.

Lemma start_session_ok keep token evs l id stream :
  listener_ok keep token evs l -> l_accepted l && negb keep = false ->
  authenticated_in evs token id stream ->
  listener_ok keep token evs (start_session l id stream).
Proof.
  intros [Hf Ho Hr Hs Hres] Hk Ha. split; cbn [start_session l_accepted l_streams l_sessions l_result].
  - split; [by destruct (l_sessions l)|done].
  - intros ->. rewrite andb_true_r in Hk. destruct (l_sessions l); [cbn; lia|].
    by rewrite (proj2 Hf) in Hk.
  - done.
  - intros i s [Hi|Hi]; rewrite lookup_insert_Some in Hi; destruct Hi as [[<- Hi]|[_ Hi]]; simplify_eq;
      (split; [done|]); try done; by apply (Hs i); auto.
  - done.
Qed.

Lemma listener_step_ok keep token evs l ev l' :
  listener_ok keep token evs l -> listener_step keep token l ev l' -> listener_ok keep token (ev :: evs) l'.
Proof using CRL SL.
  intros Hl Hstep. apply (listener_ok_later _ _ ev) in Hl.
  destruct Hstep as [id stream Hid|id t now random -> Hn|id err].
  - unfold handleStream. destruct token as [t|]; [by apply set_phase_ok|].
    destruct (l_accepted l && negb keep) eqn:E; [|by apply start_session_ok].
    apply set_phase_ok; [done|done|]. intros _. by apply andb_true_iff in E as [? _].
  - unfold authenticate. destruct (l_streams l !! id) as [[stream| | | |]|] eqn:Es; try done.
    destruct (fst (AuthenticateServer stream t now random)) as [u|e] eqn:Ea; [|by apply set_phase_ok].
    apply AuthenticateServer_admitted in Ea; [|done].
    destruct (l_accepted l && negb keep) eqn:E.
    + apply set_phase_ok; [done|done|]. intros _. by apply andb_true_iff in E as [? _].
    + apply start_session_ok; [done..|]. exists now, random. split; [by left|done].
  - unfold session_end. destruct (l_streams l !! id) as [[| | |stream|]|] eqn:Es; try done.
    pose proof Hl as [Hf Ho Hr Hs Hres]. destruct (Hs id stream (or_introl Es)) as [Hacc Hadm].
    split; cbn [l_accepted l_streams l_sessions l_result]; try done.
    intros i s [Hi|Hi]; rewrite lookup_insert_Some in Hi; destruct Hi as [[<- Hi]|[_ Hi]]; simplify_eq; eauto.
Qed.

Lemma listener_run_ok keep token evs l : listener_run keep token evs l -> listener_ok keep token evs l.
Proof using CRL SL. induction 1; [apply listener_ok_init|by eapply listener_step_ok]. Qed.

Lemma unprivileged_bridge opts :
  privilegedListenerMode opts = false -> (o_udp opts = true -> o_port opts <> 0) ->
  exists quitDelay inactivity, runServerSession opts = RunBridge quitDelay inactivity.
Proof using Type.
  unfold privilegedListenerMode, runServerSession.
  rewrite !orb_false_iff, !negb_false_iff, Z.eqb_eq. intros [[[-> He] ->] Hp] Hu.
  destruct (o_udp opts); [by destruct (Hu eq_refl)|]. rewrite Hp, He. cbn. eauto.
Qed.

(** C1: nobody reaches a privileged session unauthenticated.  In any run of a listener whose
    options were validated, with arriving streams, authentications and ending sessions interleaved:
    every stream that gets a session of a listener with a token was authenticated in the run, and at
    the clock that authentication read the token was valid and the stream began with an authentic
    hello of the token, at most the permitted skew old or ahead; the token is one for this peer and
    this logical port.  A listener without a token gives only raw bridge sessions, unless the
    operator asked for an unauthenticated listener. *)
Theorem listener_admission changed (env : cli_env) opts args service token relays evs l id stream :
  validateOptions changed (ce_tokenEnv env) opts args = Ok tt -> o_listen opts = true ->
  listener_setup env opts args = Ok (service, token, relays) ->
  listener_run (persistent opts) token evs l ->
  l_streams l !! id = Some (InSession stream) ->
  match token with
  | Some t => (exists now random, Authenticates id now random ∈ evs /\ admitted t now stream) /\
      tk_Service t = service /\ ce_identity env = Ok (tk_PeerID t)
  | None => pairingTokenConfigured opts (ce_tokenEnv env) = false /\
      (o_allowUnauthenticatedListener opts = true \/
       exists quitDelay inactivity, runServerSession opts = RunBridge quitDelay inactivity)
  end.
Proof using CRL SL.
  intros [Hu Hv]%validateOptions_listener Hl Hs Hr Hid.
  apply listener_run_ok in Hr. destruct (lo_session _ _ _ _ Hr id stream (or_introl Hid)) as [_ Ha].
  unfold listener_setup in Hs. apply bind_Ok in Hs as (tok & Ht & Hs). apply bind_Ok in Hs as (svc & _ & Hs).
  apply bind_Ok in Hs as (_ & _ & Hs). apply bind_Ok in Hs as (peerID & Hi & Hs).
  destruct tok as [t|].
  - apply bind_Ok in Hs as ([] & Hvt & [= -> <- _]). split; [done|]. unfold validateTokenFor in Hvt. inv_ok.
    repeat match goal with H : negb _ = false |- _ => apply negb_false_iff in H end.
    split; [by apply Z.eqb_eq|]. rewrite Hi. f_equal. symmetry. by eapply bool_decide_eq_true.
  - injection Hs as _ <- _. apply loadToken_None in Ht. split; [done|].
    destruct (privilegedListenerMode opts) eqn:Ep; [|right; by apply unprivileged_bridge].
    left. destruct (Hv Hl eq_refl); congruence.
Qed.

(** A one-shot listener serves one stream.  Without [-k] and the modes that imply it,
    at most one stream ever gets a session; a stream is refused only once one has; and until
    then failed authentications do not use the slot up: the next stream that authenticates
    gets it. *)
Theorem one_shot_listener token evs l :
  listener_run false token evs l ->
  (length (l_sessions l) <= 1)%nat /\
  (forall id, l_streams l !! id = Some Refused -> length (l_sessions l) = 1%nat) /\
  (forall r, l_result l = Some r -> length (l_sessions l) = 1%nat) /\
  (l_sessions l = [] -> forall id stream t now random u,
     l_streams l !! id = Some (Authenticating stream) ->
     fst (AuthenticateServer stream t now random) = Ok u ->
     l_streams (authenticate false t l id now random) !! id = Some (InSession stream)).
Proof using CRL SL.
  intros [Hf Ho Hr Hs Hres]%listener_run_ok. specialize (Ho eq_refl).
  assert (l_accepted l = true -> length (l_sessions l) = 1%nat) as H1
    by (intros Ha%Hf; destruct (l_sessions l); [done|cbn in *; lia]).
  split_and!; [done|eauto|eauto|]. intros Hn id stream t now random u Hid Ha.
  unfold authenticate. rewrite Hid, Ha. destruct (l_accepted l) eqn:E; [by apply Hf in Hn|].
  cbn [andb start_session l_streams]. by rewrite lookup_insert_eq.
Qed.
End listener_proofs.

(** ** Tor *)

(** The scan that decides whether the process restarts under torsocks does not see the
    documented form [--tor=true] of a boolean flag, which the flag parser accepts. *)
Theorem tor_flag_form_missed : TorRequested ["--tor=true"; "12D3"; "--relay"; "/ip4/192.0.2.1/tcp/4001"] = false.
Proof. vm_compute. reflexivity. Qed.

(** ** Instances *)

Module CliWitness.
Import Ref.
Import PairingWitness.
Import AdmissionWitness.

(** A one-shot listener that runs a command, with a token flag. *)
Definition opts : options :=
  mkOptions true false 60 false 0 "" 0 false false false "" false false "sh" false 300 0 false false
    "" [] [] [] false false false false false false false sample_text "" "127.0.0.1" false false.
Definition env : cli_env :=
  mkCliEnv "" (fun _ => Err ErrNotExist) (clock 1700000100) ["--pairing-token"] (Ok "12D3peer") (fun _ => Ok tt).
Definition stream : duplex := mkDuplex (mkSource [hello_bytes; [x62]] EOF) [].
Definition intruder : duplex := mkDuplex (mkSource [[x62]] EOF) [].

(** The intruder arrives first and fails; the client is admitted. *)
Definition l1 : listener duplex := handleStream false (Some decoded) listener_init 0 intruder.
Definition l2 : listener duplex := authenticate false decoded l1 0 (clock 1700000100) (Ok (put_be 16 2)).
Definition l3 : listener duplex := handleStream false (Some decoded) l2 1 stream.
Definition l4 : listener duplex := authenticate false decoded l3 1 (clock 1700000100) (Ok (put_be 16 2)).

Lemma clock_plausible : plausible (clock 1700000100).
Proof. split; [exact sane_clock|vm_compute; discriminate]. Qed.

Definition evs3 : list (listener_event duplex) :=
  [StreamArrives 1 stream; Authenticates 0 (clock 1700000100) (Ok (put_be 16 2)); StreamArrives 0 intruder].
Definition evs4 : list (listener_event duplex) := Authenticates 1 (clock 1700000100) (Ok (put_be 16 2)) :: evs3.

Lemma l3_run : listener_run false (Some decoded) evs3 l3.
Proof.
  apply (run_event _ _ _ l2); [|apply (listener_stream _ _ l2 1 stream); vm_compute; reflexivity].
  apply (run_event _ _ _ l1); [|exact (listener_auth _ _ l1 0 decoded _ _ eq_refl clock_plausible)].
  apply (run_event _ _ _ listener_init); [|apply (listener_stream _ _ listener_init 0 intruder); reflexivity].
  apply run_start.
Qed.
Lemma l4_run : listener_run false (Some decoded) evs4 l4.
Proof.
  apply (run_event _ _ _ l3); [exact l3_run|].
  exact (listener_auth _ _ l3 1 decoded _ _ eq_refl clock_plausible).
Qed.

Lemma load_token_agrees_witness : exists text, Decode text = Ok decoded.
Proof.
  destruct (load_token_agrees env opts (Some decoded)) as (text & H & _).
  - intros sources Hs.
    assert (token_sources env opts = Ok {["--pairing-token" := sample_text]}) as E by (vm_compute; reflexivity).
    rewrite E in Hs. injection Hs as <-. split; [apply NoDup_singleton|].
    intros label. cbn [env ce_order]. rewrite list_elem_of_singleton.
    destruct (decide (label = "--pairing-token")) as [->|Hne]; [rewrite lookup_singleton_eq; by eauto|].
    rewrite lookup_singleton_ne by done. split; [done|]. by intros [? ?].
  - vm_compute. reflexivity.
  - by exists text.
Defined.

Lemma listener_admission_witness :
  (exists now random, Authenticates 1 now random ∈ evs4 /\ admitted decoded now stream) /\ tk_Service decoded = 4242.
Proof.
  pose proof (listener_admission (fun _ => false) env opts [] 4242 (Some decoded) (relayStrings decoded) evs4 l4 1 stream
    ltac:(vm_compute; reflexivity) eq_refl ltac:(vm_compute; reflexivity) l4_run
    ltac:(vm_compute; reflexivity)) as (H1 & H2 & _).
  by split.
Defined.

Lemma one_shot_listener_witness :
  l_streams (authenticate false decoded l3 1 (clock 1700000100) (Ok (put_be 16 2))) !! 1%nat = Some (InSession stream).
Proof.
  destruct (one_shot_listener (Some decoded) evs3 l3 l3_run) as (_ & _ & _ & H).
  apply (H ltac:(vm_compute; reflexivity) 1%nat stream decoded _ _ tt); vm_compute; reflexivity.
Defined.
End CliWitness.
