(* ===== verification/P2PNode.v ===== *)
(** [p2p.New] and its helpers: the transports, listen addresses, relays and announced
    addresses a libp2p host is built with, and the order in which it dials (p2p/node.go); and
    the configuration the command line gives it (internal/cli/node_config.go).  The host itself
    is libp2p's. *)
From S2P Require Export Cli.
From S2P Require Import ExtModel.
Local Open Scope Z_scope.

Record NodeConfig := mkNodeConfig {
  nc_TransportPort : Z;
  nc_WebsocketPort : Z;
  nc_IPVersion : Z;
  nc_Announce : list string;
  nc_Relays : list string;
  nc_Bootstrap : list string;
  nc_EnableDHT : bool;
  nc_EnableMDNS : bool;
  nc_EnablePubSub : bool;
  nc_PubSubDiscover : bool;
  nc_EnableQUIC : bool;
  nc_EnableWebRTC : bool;
  nc_Listen : bool;
  nc_DHTServer : bool;
  nc_RelayServer : bool;
  nc_Verbose : bool;
  nc_UpstreamSOCKS : string
}.

Definition nodeConfig (opts : options) (listen dhtServer relayServer privateDiscovery : bool) : NodeConfig :=
  let ipVersion := if o_ipv4 opts then 4 else if o_ipv6 opts then 6 else 0 in
  let enableDHT := negb (o_noDHT opts) && negb (o_tor opts) in
  mkNodeConfig (o_transportPort opts) 0 ipVersion (o_announce opts) (o_relays opts)
    (if enableDHT then o_bootstrap opts else []) enableDHT
    (negb (o_noMDNS opts) && negb (o_tor opts)) (negb (o_noPubsub opts) && negb (o_tor opts))
    (negb privateDiscovery) (negb (o_noQUIC opts) && negb (o_tor opts))
    (negb (o_noWebRTC opts) && negb (o_tor opts)) listen dhtServer relayServer (o_verbose opts)
    (o_upstreamSOCKS opts).

Definition applyUpstreamSOCKSGuard (cfg : NodeConfig) : NodeConfig :=
  if bool_decide (nc_UpstreamSOCKS cfg = "") then cfg
  else mkNodeConfig (nc_TransportPort cfg) (nc_WebsocketPort cfg) (nc_IPVersion cfg) (nc_Announce cfg)
         (nc_Relays cfg) (nc_Bootstrap cfg) (nc_EnableDHT cfg) (nc_EnableMDNS cfg) (nc_EnablePubSub cfg)
         (nc_PubSubDiscover cfg) false false (nc_Listen cfg) (nc_DHTServer cfg) (nc_RelayServer cfg)
         (nc_Verbose cfg) (nc_UpstreamSOCKS cfg).

(** The transports a host can have; a TCP transport with a proxy dials only through it. *)
Inductive transport :=
  | TCP
  | TCPThrough (proxy : string)
  | WebSocket
  | QUIC
  | WebRTCDirect.

Definition node_transports (cfg : NodeConfig) : list transport :=
  (if bool_decide (nc_UpstreamSOCKS cfg = "") then [TCP; WebSocket] else [TCPThrough (nc_UpstreamSOCKS cfg)]) ++
  (if nc_EnableQUIC cfg then [QUIC] else []) ++
  (if nc_EnableWebRTC cfg then [WebRTCDirect] else []).

Definition listen_family (cfg : NodeConfig) (host : string) : list string :=
  let port := itoa (nc_TransportPort cfg) in
  [host +:+ "/tcp/" +:+ port] ++
  (if nc_EnableQUIC cfg then [host +:+ "/udp/" +:+ port +:+ "/quic-v1"] else []) ++
  (if nc_EnableWebRTC cfg then [host +:+ "/udp/" +:+ port +:+ "/webrtc-direct"] else []) ++
  (if 0 <? nc_WebsocketPort cfg then [host +:+ "/tcp/" +:+ itoa (nc_WebsocketPort cfg) +:+ "/ws"] else []).
Definition listenAddresses (cfg : NodeConfig) : list string :=
  (if nc_IPVersion cfg =? 6 then [] else listen_family cfg "/ip4/0.0.0.0") ++
  (if nc_IPVersion cfg =? 4 then [] else listen_family cfg "/ip6/::").

Section node.
Context `{LP : !Libp2p}.
(** [address.Encapsulate(circuit)], of the multiaddr library. *)
Variable Encapsulate : Multiaddr -> Multiaddr.

Fixpoint parseMultiaddrs (values : list string) : result (list Multiaddr) :=
  match values with
  | [] => Ok []
  | value :: rest =>
      address ← map_err (Wrapf "%q: %w" [AStr value]) (NewMultiaddr value);
      addresses ← parseMultiaddrs rest;
      Ok (address :: addresses)
  end.

Definition parseRelay (value : string) : result (Multiaddr * (string * list Multiaddr)) :=
  address ← map_err (Wrapf "invalid relay multiaddr %q: %w" [AStr value]) (NewMultiaddr (TrimSuffix value "/"));
  info ← map_err (fun _ => Errorf "relay multiaddr must contain /p2p/PeerId: %s" [AStr value])
    (AddrInfoFromP2pAddr address);
  Ok (address, info).

Fixpoint parseRelayInfos (values : list string) : result (list (string * list Multiaddr)) :=
  match values with
  | [] => Ok []
  | value :: rest =>
      '(_, info) ← parseRelay value;
      infos ← parseRelayInfos rest;
      Ok (info :: infos)
  end.

Fixpoint relayCircuitAddresses (values : list string) : result (list Multiaddr) :=
  match values with
  | [] => Ok []
  | value :: rest =>
      '(address, _) ← parseRelay value;
      addresses ← relayCircuitAddresses rest;
      Ok (Encapsulate address :: addresses)
  end.

Fixpoint unique_addrs_loop (seen : gset string) (values : list Multiaddr) : list Multiaddr :=
  match values with
  | [] => []
  | value :: rest =>
      if bool_decide (ma_String value ∈ seen) then unique_addrs_loop seen rest
      else value :: unique_addrs_loop ({[ma_String value]} ∪ seen) rest
  end.
Definition uniqueAddrs (values : list Multiaddr) : list Multiaddr := unique_addrs_loop ∅ values.

(** How the host gets relayed. *)
Inductive relay_mode :=
  | RelayService
  | StaticRelays (relays : list (string * list Multiaddr))
  | DiscoveredRelays
  | NoRelays.

(** The options [New] hands to [libp2p.New]. *)
Record host_plan := mkPlan {
  hp_transports : list transport;
  hp_listen : list string;
  hp_announce : list Multiaddr -> list Multiaddr;
  hp_relay : relay_mode
}.

(** [New] before it makes its context. *)
Definition node_checks (hasKey : bool) (cfg : NodeConfig) : result unit :=
  refuse (negb hasKey) (ErrNew "private key is required");;
  refuse (negb (nc_IPVersion cfg =? 0) && negb (nc_IPVersion cfg =? 4) && negb (nc_IPVersion cfg =? 6))
    (ErrNew "IP version must be 4, 6, or 0");;
  (if bool_decide (nc_UpstreamSOCKS cfg = "") then Ok tt
   else map_err (Wrapf "upstream SOCKS proxy: %w" []) (SplitHostPort (nc_UpstreamSOCKS cfg));; Ok tt).

(** The addresses of the relays that [New] adds to those to announce. *)
Definition circuit_announced (cfg : NodeConfig) : result (list Multiaddr) :=
  if nc_DHTServer cfg && negb (nc_RelayServer cfg) then relayCircuitAddresses (nc_Relays cfg) else Ok [].

(** The options [New] gives to [libp2p.New]. *)
Definition host_options (cfg : NodeConfig) (staticRelays : list (string * list Multiaddr)) (announced : list Multiaddr) : host_plan :=
  mkPlan (node_transports cfg) (if nc_Listen cfg then listenAddresses cfg else [])
    (fun current => match announced with [] => current | _ => uniqueAddrs (current ++ announced) end)
    (if nc_RelayServer cfg then RelayService
     else match staticRelays with
          | _ :: _ => StaticRelays staticRelays
          | [] => if nc_Listen cfg then DiscoveredRelays else NoRelays
          end).

(** [New] up to the host: what it makes of a configuration. *)
Definition New (hasKey : bool) (cfg : NodeConfig) : result host_plan :=
  node_checks hasKey cfg;;
  let cfg := applyUpstreamSOCKSGuard cfg in
  staticRelays ← parseRelayInfos (nc_Relays cfg);
  announced ← map_err (Wrapf "announce: %w" []) (parseMultiaddrs (nc_Announce cfg));
  circuits ← circuit_announced cfg;
  Ok (host_options cfg staticRelays (announced ++ circuits)).

(** ** Dialling *)

Definition dialAddressRank (address : Multiaddr) : Z :=
  let value := ma_String address in
  if Contains value "/webrtc-direct" then 0
  else if Contains value "/quic-v1" then 1
  else if Contains value "/webtransport" then 2
  else if Contains value "/wss" then 3
  else if Contains value "/ws" then 4
  else if Contains value "/tcp/" && negb (Contains value "/p2p-circuit") then 5
  else if Contains value "/p2p-circuit" then 6
  else 7.

(** [sort.SliceStable] by rank, as an insertion sort. *)
Fixpoint rank_insert (a : Multiaddr) (l : list Multiaddr) : list Multiaddr :=
  match l with
  | [] => [a]
  | b :: rest => if dialAddressRank b <? dialAddressRank a then b :: rank_insert a rest else a :: l
  end.
Definition rank_sort (addresses : list Multiaddr) : list Multiaddr := foldr rank_insert [] addresses.

Fixpoint rank_loop (lastRank delay : Z) (sorted : list Multiaddr) : list (Multiaddr * Z) :=
  match sorted with
  | [] => []
  | address :: rest =>
      let rank := dialAddressRank address in
      let delay := if (0 <=? lastRank) && negb (rank =? lastRank) then delay + 50 * Millisecond else delay in
      (address, delay) :: rank_loop rank delay rest
  end.
Definition PreferDialRanker (addresses : list Multiaddr) : list (Multiaddr * Z) :=
  rank_loop (-1) 0 (rank_sort addresses).
End node.

(** ** Proofs *)

Definition tcp_only (address : string) : Prop :=
  HasPrefix address "/ip4/0.0.0.0/tcp/" = true \/ HasPrefix address "/ip6/::/tcp/" = true.

Lemma listen_tcp_only cfg :
  nc_EnableQUIC cfg = false -> nc_EnableWebRTC cfg = false -> Forall tcp_only (listenAddresses cfg).
Proof.
  intros Hq Hw. unfold listenAddresses, listen_family. rewrite Hq, Hw. cbn [app].
  assert (forall s, tcp_only ("/ip4/0.0.0.0" +:+ "/tcp/" +:+ s)) as H4
    by (intros s; left; exact (HasPrefix_app "/ip4/0.0.0.0/tcp/" s)).
  assert (forall s, tcp_only ("/ip6/::" +:+ "/tcp/" +:+ s)) as H6
    by (intros s; right; exact (HasPrefix_app "/ip6/::/tcp/" s)).
  apply Forall_app; split; case_match; [constructor| |constructor|];
    (apply Forall_cons; split; [auto|]); (case_match; [apply Forall_cons; split; [auto|constructor]|constructor]).
Qed.

Section node_proofs.
Context `{LP : !Libp2p}.
Variable Encapsulate : Multiaddr -> Multiaddr.

(** A proxied node cannot bypass its proxy.  When an upstream SOCKS proxy is
    configured, the host is built with the TCP transport that dials through that proxy and no
    other, and listens on TCP addresses only, whatever the other flags say. *)
Theorem proxied_transports hasKey cfg plan :
  New Encapsulate hasKey cfg = Ok plan -> nc_UpstreamSOCKS cfg <> "" ->
  hp_transports plan = [TCPThrough (nc_UpstreamSOCKS cfg)] /\ Forall tcp_only (hp_listen plan).
Proof.
  unfold New. intros H Hup. inv_ok. unfold host_options. cbn [hp_transports hp_listen].
  assert (nc_EnableQUIC (applyUpstreamSOCKSGuard cfg) = false /\
          nc_EnableWebRTC (applyUpstreamSOCKSGuard cfg) = false /\
          nc_UpstreamSOCKS (applyUpstreamSOCKSGuard cfg) = nc_UpstreamSOCKS cfg) as (Hq & Hw & Hs)
    by (unfold applyUpstreamSOCKSGuard; by rewrite bool_decide_false).
  split; [|destruct (nc_Listen _); [by apply listen_tcp_only|constructor]].
  unfold node_transports. by rewrite Hq, Hw, Hs, bool_decide_false.
Qed.

(** ** The dial order *)

Definition rank_le (a b : Multiaddr) : Prop := dialAddressRank a <= dialAddressRank b.

Lemma rank_range a : 0 <= dialAddressRank a <= 7.
Proof. unfold dialAddressRank. repeat case_match; lia. Qed.

Lemma rank_insert_perm a l : rank_insert a l ≡ₚ a :: l.
Proof.
  induction l as [|b l IH]; [done|]. cbn [rank_insert]. case_match; [|done]. rewrite IH. apply perm_swap.
Qed.

Lemma rank_insert_sorted a l : StronglySorted rank_le l -> StronglySorted rank_le (rank_insert a l).
Proof.
  induction 1 as [|b l Hl IH Hb]; [repeat constructor|]. cbn [rank_insert].
  destruct (Z.ltb_spec (dialAddressRank b) (dialAddressRank a)).
  - constructor; [done|]. rewrite rank_insert_perm. constructor; [unfold rank_le; lia|done].
  - constructor; [by constructor|]. constructor; [unfold rank_le; lia|].
    eapply Forall_impl; [exact Hb|]. unfold rank_le. intros; lia.
Qed.

Lemma rank_insert_stable k a l :
  StronglySorted rank_le l ->
  base.filter (fun x => dialAddressRank x = k) (rank_insert a l)
  = base.filter (fun x => dialAddressRank x = k) (a :: l).
Proof.
  induction 1 as [|b l Hl IH Hb]; [done|]. cbn [rank_insert].
  destruct (Z.ltb_spec (dialAddressRank b) (dialAddressRank a)); [|done].
  rewrite filter_cons, IH, !filter_cons. repeat case_decide; try done. lia.
Qed.

Lemma rank_sort_spec l :
  StronglySorted rank_le (rank_sort l) /\ (rank_sort l ≡ₚ l) /\
  forall k, base.filter (fun x => dialAddressRank x = k) (rank_sort l)
            = base.filter (fun x => dialAddressRank x = k) l.
Proof.
  induction l as [|a l (IH1 & IH2 & IH3)]; [repeat constructor|]. cbn [rank_sort foldr] in *.
  fold (rank_sort l) in *. split_and!; [by apply rank_insert_sorted|by rewrite rank_insert_perm, IH2|].
  intros k. by rewrite rank_insert_stable, !filter_cons, IH3.
Qed.

(** Earlier entries: the same class starts together, a better class 50 ms earlier. *)
Definition staggered (x y : Multiaddr * Z) : Prop :=
  (dialAddressRank x.1 = dialAddressRank y.1 /\ x.2 = y.2) \/
  (dialAddressRank x.1 < dialAddressRank y.1 /\ x.2 + 50 * Millisecond <= y.2).

Lemma rank_loop_fst lastRank delay l : (rank_loop lastRank delay l).*1 = l.
Proof. revert lastRank delay; induction l as [|a l IH]; intros; cbn; [done|]. by rewrite IH. Qed.

Lemma rank_loop_staggered a0 delay l :
  StronglySorted rank_le (a0 :: l) ->
  StronglySorted staggered ((a0, delay) :: rank_loop (dialAddressRank a0) delay l).
Proof.
  revert a0 delay; induction l as [|a l IH]; intros a0 delay H; cbn [rank_loop]; [repeat constructor|].
  apply StronglySorted_inv in H as [Hl H0]. pose proof (rank_range a0).
  rewrite (proj2 (Z.leb_le 0 _)) by lia. cbn [andb]. apply Forall_cons in H0 as [H0 _]. unfold rank_le in H0.
  set (d := if negb (dialAddressRank a =? dialAddressRank a0) then delay + 50 * Millisecond else delay).
  assert (staggered (a0, delay) (a, d)) as Hs.
  { unfold staggered, d. cbn. destruct (Z.eqb_spec (dialAddressRank a) (dialAddressRank a0)); cbn [negb]; lia. }
  specialize (IH a d Hl). pose proof IH as [_ Hf]%StronglySorted_inv. constructor; [done|].
  constructor; [done|]. eapply Forall_impl; [exact Hf|]. intros y Hy.
  unfold staggered, Millisecond in *. cbn [fst snd] in *. lia.
Qed.

(** Dialling prefers better transports and races equal ones.  The addresses are
    all tried, in the order of their transport class and, within a class, in the order given;
    addresses of one class start at the same moment, and a worse class at least 50 ms
    after a better one; the first starts at once. *)
Theorem dial_order addresses :
  (PreferDialRanker addresses).*1 ≡ₚ addresses /\
  StronglySorted staggered (PreferDialRanker addresses) /\
  (forall k, base.filter (fun a => dialAddressRank a = k) (PreferDialRanker addresses).*1
             = base.filter (fun a => dialAddressRank a = k) addresses) /\
  (forall a d rest, PreferDialRanker addresses = (a, d) :: rest -> d = 0).
Proof.
  unfold PreferDialRanker. destruct (rank_sort_spec addresses) as (H1 & H2 & H3).
  rewrite rank_loop_fst. split_and!; [done| |done|].
  - destruct (rank_sort addresses) as [|a l]; [constructor|]. cbn [rank_loop Z.leb andb].
    by apply rank_loop_staggered.
  - destruct (rank_sort addresses) as [|a l]; cbn; intros ? ? ? E; [done|]. by injection E.
Qed.
End node_proofs.

(** ** Native WebRTC and the proxy *)

(** Options with an upstream proxy are accepted and yet start native WebRTC, which does not go
    through the proxy, for a process that has a pairing token. *)
Theorem proxy_does_not_disable_native_webrtc :
  exists opts, validateOptions (fun _ => false) "" opts ["12D3"] = Ok tt /\
    o_upstreamSOCKS opts = "127.0.0.1:1080" /\ nativeWebRTCEnabled opts true = true.
Proof.
  exists (mkOptions false false 60 false 0 "" 0 false false false "127.0.0.1:1080" false false "" false 300 0
    false false "" [] [] [] false false false false false false false "pnc1_x" "" "127.0.0.1" false false).
  by vm_compute.
Qed.

Module NodeWitness.
Import Ref.

Definition proxied : NodeConfig :=
  mkNodeConfig 4001 0 0 [] [] [] true true true true true true true true false false "127.0.0.1:1080".

Lemma proxied_transports_witness :
  exists plan, New (fun a => a) true proxied = Ok plan /\ hp_transports plan = [TCPThrough "127.0.0.1:1080"].
Proof.
  destruct (New (fun a => a) true proxied) as [plan|e] eqn:E; [|vm_compute in E; discriminate E].
  exists plan. split; [reflexivity|].
  apply (proxied_transports (fun a => a) true proxied plan E). discriminate.
Defined.
End NodeWitness.
