(* ===== verification/DaemonStreams.v ===== *)
(** The streams of the daemon's tunnels: the pairing token of a tunnel and the file it comes
    from (internal/daemon/token.go, internal/cli/token_files.go, internal/secretfile), the stream
    handler of a server tunnel (internal/daemon/server.go) and the opener that hands out a client
    tunnel's first carrier (internal/daemon/client.go). *)
From S2P Require Export Daemon Cli.
From S2P Require Import ExtModel.
Local Open Scope Z_scope.

(** ** Token files *)

(** What opening, inspecting and reading a path yields. *)
Record file_answer := mkFile {
  fa_open : option error;
  fa_stat : option error;
  fa_regular : bool;
  fa_perm : Z;                   (** the permission bits *)
  fa_data : result (list byte)
}.

Definition CheckPermissions (perm : Z) : result unit :=
  refuse (negb (Z.land perm 0x3f =? 0)) (ErrNew "permissions must not grant group or other access").

(** An error of a step, wrapped. *)
Definition step (format : string) (err : option error) : result unit :=
  match err with Some e => Err (Wrapf format [] e) | None => Ok tt end.

(** The largest token text, with room for a line break. *)
Definition maximum_token_file : Z := slen TokenPrefix + EncodedLen MaxTokenSize + 2.

Definition readTokenFile (file : file_answer) : result string :=
  step "open pairing token file: %w" (fa_open file);;
  step "inspect pairing token file: %w" (fa_stat file);;
  refuse (negb (fa_regular file)) (ErrNew "pairing token file must be a regular file");;
  map_err (Wrapf "pairing token file is not private: %w" []) (CheckPermissions (fa_perm file));;
  data ← map_err (Wrapf "read pairing token file: %w" []) (fa_data file);
  let data := take (Z.to_nat (maximum_token_file + 1)) data in
  refuse (maximum_token_file <? blen data) (Errorf "pairing token file exceeds %d bytes" [AInt maximum_token_file]);;
  Ok (string_of data).

(** The command line has its own copy. *)
Definition readPairingTokenFile : file_answer -> result string := readTokenFile.

Section streams.
Context `{LP : !Libp2p, CB : !Cbor, CR : !Crypto}.

(** What loading a tunnel's token meets. *)
Record token_env := mkTokenEnv {
  te_resolve : string -> result string;     (** [appdir.ResolvePath] *)
  te_file : string -> file_answer;
  te_now : Time
}.

Definition loadTunnelToken (env : token_env) (t : Tunnel) : result (option Token) :=
  if bool_decide (tn_TokenFile t = "") then Ok None
  else
  path ← map_err (Wrapf "tunnel %q: token_file: %w" [AStr (tn_Name t)]) (te_resolve env (tn_TokenFile t));
  raw ← map_err (Wrapf "tunnel %q: %w" [AStr (tn_Name t)]) (readTokenFile (te_file env path));
  token ← map_err (Wrapf "tunnel %q: decode pairing token: %w" [AStr (tn_Name t)]) (Decode (TrimSpace raw));
  map_err (Wrapf "tunnel %q: %w" [AStr (tn_Name t)]) (Pairing.Validate (Some token) (te_now env));;
  Ok (Some token).

Context `{RD : !Reader ST, WR : !Writer ST}.

(** The stream handler [startServer] registers: the session a stream gets. *)
Definition serve_stream (token : option Token) (t : Tunnel) (stream : ST) (now : Time)
    (random : result (list byte)) : result session_call :=
  match token with
  | None => Daemon.runServerSession t
  | Some tk =>
      match fst (AuthenticateServer stream tk now random) with
      | Err err => Err err
      | Ok _ => Daemon.runServerSession t
      end
  end.

Context `{CRL : !CryptoLaws, SL : !StreamLaws ST}.

(** C37: the daemon's privileged tunnels are authenticated.  For a server tunnel that
    [validate] accepts and whose token loads: with a token, a stream gets a session only if it
    began with an authentic, fresh hello of that token; without one, the tunnel is a plain
    forward or says [allow_unauthenticated], and names no token file. *)
Theorem tunnel_admission env t token stream now random call :
  TunnelConfig.validate t = Ok tt -> tn_Mode t = ModeServer ->
  loadTunnelToken env t = Ok token -> plausible now ->
  serve_stream token t stream now random = Ok call ->
  match token with
  | Some tk => admitted tk now stream /\ token_ok tk (te_now env)
  | None => tn_TokenFile t = "" /\ (tn_Type t = TunnelForward \/ tn_AllowUnauthenticated t = true)
  end.
Proof using CRL SL.
  intros Hv%validate_Ok Hm Hl Hn Hs. unfold loadTunnelToken in Hl. case_bool_decide as Ef.
  - injection Hl as <-. split; [done|]. destruct Hv as [Et|? Em|? ? ? [Ha|Hb]]; [by left| |by right|].
    + rewrite Hm in Em. discriminate.
    + rewrite Ef in Hb. discriminate.
  - inv_ok. cbn [serve_stream] in Hs.
    destruct (fst (AuthenticateServer stream _ now random)) as [u|e] eqn:Ea; [|done].
    split; [by eapply AuthenticateServer_admitted|]. apply Pairing.Validate_Ok.
    match goal with H : Pairing.Validate _ _ = Ok ?u |- _ => by destruct u end.
Qed.
End streams.

(** A token file that group or others can read is refused whatever it holds. *)
Lemma readTokenFile_private file s : readTokenFile file = Ok s -> Z.land (fa_perm file) 0x3f = 0.
Proof.
  unfold readTokenFile, CheckPermissions. intros H. inv_ok.
  match goal with H : negb (_ =? 0) = false |- _ => by apply negb_false_iff, Z.eqb_eq in H end.
Qed.

(** ** The preconnected carrier *)

(** [preconnectedOpener]: the stream it still holds. *)
Definition opener : Type := option Z.

(** [Open]; [fallback] is what a fresh dial yields. *)
Definition opener_Open (o : opener) (fallback : result Z) : result Z * opener :=
  match o with Some first => (Ok first, None) | None => (fallback, None) end.
(** [Close]: the stream it closes. *)
Definition opener_Close (o : opener) : option Z * opener := (o, None).

Inductive opener_call := CallOpen (fallback : result Z) | CallClose.

(** The streams handed out and the streams closed by a sequence of calls. *)
Fixpoint opener_run (o : opener) (calls : list opener_call) : list (result Z) * list Z :=
  match calls with
  | [] => ([], [])
  | CallOpen fallback :: rest =>
      let '(r, o) := opener_Open o fallback in
      let '(given, closed) := opener_run o rest in (r :: given, closed)
  | CallClose :: rest =>
      let '(c, o) := opener_Close o in
      let '(given, closed) := opener_run o rest in (given, option_list c ++ closed)
  end.

Lemma opener_run_empty calls :
  opener_run None calls =
  (calls ≫= (fun c => match c with CallOpen f => [f] | CallClose => [] end), []).
Proof.
  induction calls as [|[f|] calls IH]; [done| |]; cbn [opener_run opener_Open opener_Close];
    rewrite IH; done.
Qed.

(** The first carrier goes to the first [Open], or is closed by a [Close] before it; later
    streams are all fresh, and nothing is closed twice. *)
Lemma opener_once first calls :
  opener_run (Some first) calls =
  match calls with
  | [] => ([], [])
  | CallOpen _ :: rest => (Ok first :: fst (opener_run None rest), [])
  | CallClose :: rest => (fst (opener_run None rest), [first])
  end.
Proof. destruct calls as [|[f|] calls]; [done| |]; cbn; by rewrite opener_run_empty. Qed.

Module StreamsWitness.
Import Ref.
Import PairingWitness.
Import AdmissionWitness.

Definition shell : Tunnel :=
  mkTunnel "shell" TunnelPTY ModeServer 4242 "" "" "" "" "" "shell.token" false.
Definition env : token_env :=
  mkTokenEnv (fun p => Ok ("/home/" +:+ p))
    (fun _ => mkFile None None true 0x180 (Ok (bytes_of (sample_text +:+ string_of [x0a]))))
    (clock 1700000100).
Definition stream : duplex := mkDuplex (mkSource [hello_bytes; [x62]] EOF) [].

Lemma tunnel_admission_witness : admitted decoded (clock 1700000100) stream.
Proof.
  destruct (tunnel_admission env shell (Some decoded) stream (clock 1700000100) (Ok (put_be 16 2)) CallPTYServer)
    as [H _]; [vm_compute; reflexivity|reflexivity|vm_compute; reflexivity|exact CliWitness.clock_plausible
    |vm_compute; reflexivity|exact H].
Defined.
End StreamsWitness.
