(* ===== verification/Json.v ===== *)
(** The parts of encoding/json the program uses: [json.Marshal] of strings, integers, arrays
    and [map[string]any] values with its escapes, and [json.Unmarshal], whose scanner and unquoting
    are written out.

    A Go map is the list of its entries in key order.  A [float64] is the literal that
    [json.Marshal] writes for it; turning an arbitrary literal into that one is strconv's
    parsing and shortest formatting, which is an operation of the class [Floats]. *)
From S2P Require Export GoStrings.
Local Open Scope Z_scope.

#[warnings="-register-all"]
Inductive json :=
  | JNull
  | JBool (b : bool)
  | JNumber (literal : list byte)
  | JString (s : string)
  | JArray (l : list json)
  | JObject (fields : list (string * json)).

#[export] Instance json_eq_dec : EqDecision json.
Proof.
  refine (fix go (a b : json) {struct a} : Decision (a = b) :=
    match a, b with
    | JNull, JNull => left eq_refl
    | JBool x, JBool y => cast_if (decide (x = y))
    | JNumber x, JNumber y => cast_if (decide (x = y))
    | JString x, JString y => cast_if (decide (x = y))
    | JArray x, JArray y => cast_if (@list_eq_dec _ go x y)
    | JObject x, JObject y => cast_if (@list_eq_dec _ (@prod_eq_dec _ _ _ go) x y)
    | _, _ => right _
    end); clear go; abstract congruence.
Defined.

(** Induction with the hypotheses for nested values. *)
Section json_induction.
Context (P : json -> Prop) (Hnull : P JNull) (Hbool : forall b, P (JBool b))
  (Hnumber : forall n, P (JNumber n)) (Hstring : forall s, P (JString s))
  (Harray : forall l, Forall P l -> P (JArray l))
  (Hobject : forall fields, Forall (fun kv => P kv.2) fields -> P (JObject fields)).

Fixpoint json_nested_ind (v : json) : P v :=
  match v with
  | JNull => Hnull
  | JBool b => Hbool b
  | JNumber n => Hnumber n
  | JString s => Hstring s
  | JArray l => Harray l
      ((fix go l : Forall P l :=
          match l with
          | [] => List.Forall_nil _
          | v :: l => List.Forall_cons _ _ _ (json_nested_ind v) (go l)
          end) l)
  | JObject fields => Hobject fields
      ((fix go l : Forall (fun kv : string * json => P kv.2) l :=
          match l with
          | [] => List.Forall_nil _
          | kv :: l => List.Forall_cons _ _ _ (json_nested_ind kv.2) (go l)
          end) fields)
  end.
End json_induction.

(** ** Runes *)

(** The length of the multi-byte UTF-8 sequence at the head, if it is valid. *)
Definition utf8_seq (l : list byte) : option nat :=
  match l with
  | b :: c :: l2 =>
      if in_range 194 223 b then if cont c then Some 2%nat else None
      else match l2 with
      | d :: l3 =>
          let lo := if byte_Z b =? 224 then 160 else 128 in
          let hi := if byte_Z b =? 237 then 159 else 191 in
          if in_range 224 239 b then if in_range lo hi c && cont d then Some 3%nat else None
          else match l3 with
          | e :: _ =>
              let lo := if byte_Z b =? 240 then 144 else 128 in
              let hi := if byte_Z b =? 244 then 143 else 191 in
              if in_range 240 244 b && in_range lo hi c && cont d && cont e then Some 4%nat else None
          | [] => None
          end
      | [] => None
      end
  | _ => None
  end.

(** [utf8.AppendRune]. *)
Definition replacement : list byte := [xef; xbf; xbd].
Definition encode_rune (r : Z) : list byte :=
  if r <? 128 then [Z_byte r]
  else if r <? 2048 then [Z_byte (192 + r / 64); Z_byte (128 + r mod 64)]
  else if (55296 <=? r) && (r <=? 57343) || (1114111 <? r) then replacement
  else if r <? 65536 then
    [Z_byte (224 + r / 4096); Z_byte (128 + r / 64 mod 64); Z_byte (128 + r mod 64)]
  else [Z_byte (240 + r / 262144); Z_byte (128 + r / 4096 mod 64); Z_byte (128 + r / 64 mod 64);
        Z_byte (128 + r mod 64)].

(** ** Encoding *)

Definition hex4 (z : Z) : list byte :=
  [hex_digit (z / 4096 mod 16); hex_digit (z / 256 mod 16); hex_digit (z / 16 mod 16); hex_digit (z mod 16)].
Definition u_escape (z : Z) : list byte := [x5c; x75] ++ hex4 z.

(** One ASCII byte, with the HTML escapes that [json.Marshal] applies. *)
Definition escape_byte (b : byte) : list byte :=
  if bool_decide (b = x22 \/ b = x5c) then [x5c; b]
  else if bool_decide (b = x08) then [x5c; x62]
  else if bool_decide (b = x0c) then [x5c; x66]
  else if bool_decide (b = x0a) then [x5c; x6e]
  else if bool_decide (b = x0d) then [x5c; x72]
  else if bool_decide (b = x09) then [x5c; x74]
  else if (byte_Z b <? 32) || bool_decide (b = x3c \/ b = x3e \/ b = x26) then u_escape (byte_Z b)
  else [b].

Fixpoint escape (fuel : nat) (l : list byte) : list byte :=
  match fuel, l with
  | S fuel, b :: l1 =>
      if byte_Z b <? 128 then escape_byte b ++ escape fuel l1
      else match utf8_seq l with
      | Some n =>
          (if bool_decide (take 3 l = [xe2; x80; xa8]) then u_escape 8232
           else if bool_decide (take 3 l = [xe2; x80; xa9]) then u_escape 8233
           else take n l) ++ escape fuel (drop n l)
      | None => u_escape 65533 ++ escape fuel l1
      end
  | _, _ => []
  end.

Definition quote (s : string) : list byte := x22 :: escape (length (bytes_of s)) (bytes_of s) ++ [x22].

(** Elements with commas between them. *)
Fixpoint commas (l : list (list byte)) : list byte :=
  match l with
  | [] => []
  | [e] => e
  | e :: l => e ++ x2c :: commas l
  end.

Fixpoint Marshal_json (v : json) : list byte :=
  match v with
  | JNull => bytes_of "null"
  | JBool true => bytes_of "true"
  | JBool false => bytes_of "false"
  | JNumber literal => literal
  | JString s => quote s
  | JArray l => x5b :: commas (Marshal_json <$> l) ++ [x5d]
  | JObject fields =>
      x7b :: commas ((fun kv => quote kv.1 ++ x3a :: Marshal_json kv.2) <$> fields) ++ [x7d]
  end.

(** ** Scanning *)

Definition skip_ws : list byte -> list byte :=
  fix go l := match l with
  | b :: l' => if bool_decide (b = x20 \/ b = x09 \/ b = x0a \/ b = x0d) then go l' else l
  | [] => []
  end.

Definition hex_value (b : byte) : option Z :=
  let z := byte_Z b in
  if (48 <=? z) && (z <=? 57) then Some (z - 48)
  else if (97 <=? z) && (z <=? 102) then Some (z - 87)
  else if (65 <=? z) && (z <=? 70) then Some (z - 55)
  else None.

Definition hex4_value (l : list byte) : option (Z * list byte) :=
  match l with
  | a :: b :: c :: d :: rest =>
      a ← hex_value a; b ← hex_value b; c ← hex_value c; d ← hex_value d;
      Some (a * 4096 + b * 256 + c * 16 + d, rest)
  | _ => None
  end.

(** A [\u] escape after the [u], with a following low surrogate if there is one. *)
Definition unquote_u (l : list byte) : option (list byte * list byte) :=
  '(r, rest) ← hex4_value l;
  if (55296 <=? r) && (r <=? 57343) then
    match rest with
    | x5c :: x75 :: tail =>
        match hex4_value tail with
        | Some (r2, rest2) =>
            if (r <? 56320) && (56320 <=? r2) && (r2 <=? 57343)
            then Some (encode_rune ((r - 55296) * 1024 + (r2 - 56320) + 65536), rest2)
            else Some (replacement, rest)
        | None => Some (replacement, rest)
        end
    | _ => Some (replacement, rest)
    end
  else Some (encode_rune r, rest).

Definition unquote_escape (l : list byte) : option (list byte * list byte) :=
  match l with
  | x75 :: rest => unquote_u rest
  | x22 :: rest => Some ([x22], rest)
  | x5c :: rest => Some ([x5c], rest)
  | x2f :: rest => Some ([x2f], rest)
  | x62 :: rest => Some ([x08], rest)
  | x66 :: rest => Some ([x0c], rest)
  | x6e :: rest => Some ([x0a], rest)
  | x72 :: rest => Some ([x0d], rest)
  | x74 :: rest => Some ([x09], rest)
  | _ => None
  end.

(** The contents of a string after its opening quote, unquoted, and what follows. *)
Fixpoint parse_string (fuel : nat) (l : list byte) : option (list byte * list byte) :=
  match fuel, l with
  | S fuel, b :: l1 =>
      if bool_decide (b = x22) then Some ([], l1)
      else if bool_decide (b = x5c) then
        '(r, rest) ← unquote_escape l1;
        '(s, tail) ← parse_string fuel rest;
        Some (r ++ s, tail)
      else if byte_Z b <? 32 then None
      else if byte_Z b <? 128 then
        '(s, tail) ← parse_string fuel l1; Some (b :: s, tail)
      else match utf8_seq l with
      | Some n => '(s, tail) ← parse_string fuel (drop n l); Some (take n l ++ s, tail)
      | None => '(s, tail) ← parse_string fuel l1; Some (replacement ++ s, tail)
      end
  | _, _ => None
  end.

(** Digits at the head. *)
Fixpoint digits (l : list byte) : list byte * list byte :=
  match l with
  | b :: l1 => if is_digit b then let '(d, rest) := digits l1 in (b :: d, rest) else ([], l)
  | [] => ([], [])
  end.

Definition parse_int (l : list byte) : option (list byte * list byte) :=
  match digits l with
  | ([], _) => None
  | (b :: d, rest) => if bool_decide (b = x30) then Some ([b], drop 1 l) else Some (b :: d, rest)
  end.
(** At least one digit, after [lead]. *)
Definition digits1 (lead l : list byte) : option (list byte * list byte) :=
  match digits l with ([], _) => None | (d, rest) => Some (lead ++ d, rest) end.
Definition parse_frac (l : list byte) : option (list byte * list byte) :=
  match l with
  | b :: l1 => if bool_decide (b = x2e) then digits1 [b] l1 else Some ([], l)
  | [] => Some ([], [])
  end.
Definition parse_exp (l : list byte) : option (list byte * list byte) :=
  match l with
  | b :: l1 =>
      if bool_decide (b = x65 \/ b = x45) then
        match l1 with
        | c :: l2 => if bool_decide (c = x2b \/ c = x2d) then digits1 [b; c] l2 else digits1 [b] l1
        | [] => None
        end
      else Some ([], l)
  | [] => Some ([], [])
  end.
(** A number literal and what follows. *)
Definition parse_number (l : list byte) : option (list byte * list byte) :=
  let '(sign, l) :=
    match l with b :: l1 => if bool_decide (b = x2d) then ([b], l1) else ([], l) | [] => ([], l) end in
  '(int, l) ← parse_int l;
  '(frac, l) ← parse_frac l;
  '(exp, l) ← parse_exp l;
  Some (sign ++ int ++ frac ++ exp, l).

Definition maxNestingDepth : Z := 10000.

(** A value that starts at the head; [depth] is the nesting so far.  The elements of an array
    and the members of an object are read up to their closing bracket. *)
Fixpoint parse_value (fuel : nat) (depth : Z) (l : list byte) {struct fuel}
    : option (json * list byte) :=
  match fuel with
  | O => None
  | S fuel =>
  match l with
  | x22 :: l1 => '(s, rest) ← parse_string (length l1) l1; Some (JString (string_of s), rest)
  | x5b :: l1 =>
      if maxNestingDepth <=? depth then None
      else match skip_ws l1 with
      | x5d :: rest => Some (JArray [], rest)
      | l1 => '(vs, rest) ← parse_elements fuel (depth + 1) l1; Some (JArray vs, rest)
      end
  | x7b :: l1 =>
      if maxNestingDepth <=? depth then None
      else match skip_ws l1 with
      | x7d :: rest => Some (JObject [], rest)
      | l1 => '(ms, rest) ← parse_members fuel (depth + 1) l1; Some (JObject ms, rest)
      end
  | _ =>
      match cut_prefix (bytes_of "null") l, cut_prefix (bytes_of "true") l,
            cut_prefix (bytes_of "false") l with
      | Some rest, _, _ => Some (JNull, rest)
      | _, Some rest, _ => Some (JBool true, rest)
      | _, _, Some rest => Some (JBool false, rest)
      | None, None, None => '(n, rest) ← parse_number l; Some (JNumber n, rest)
      end
  end end
with parse_elements (fuel : nat) (depth : Z) (l : list byte) {struct fuel}
    : option (list json * list byte) :=
  match fuel with
  | O => None
  | S fuel =>
      '(v, rest) ← parse_value fuel depth l;
      match skip_ws rest with
      | x2c :: rest => '(vs, rest) ← parse_elements fuel depth (skip_ws rest); Some (v :: vs, rest)
      | x5d :: rest => Some ([v], rest)
      | _ => None
      end
  end
with parse_members (fuel : nat) (depth : Z) (l : list byte) {struct fuel}
    : option (list (string * json) * list byte) :=
  match fuel, l with
  | S fuel, x22 :: l1 =>
      '(key, rest) ← parse_string (length l1) l1;
      match skip_ws rest with
      | x3a :: rest =>
          '(v, rest) ← parse_value fuel depth (skip_ws rest);
          match skip_ws rest with
          | x2c :: rest =>
              '(ms, rest) ← parse_members fuel depth (skip_ws rest);
              Some ((string_of key, v) :: ms, rest)
          | x7d :: rest => Some ([(string_of key, v)], rest)
          | _ => None
          end
      | _ => None
      end
  | _, _ => None
  end.

(** A whole document: one value, with white space around it. *)
Definition parse_document (l : list byte) : option json :=
  '(v, rest) ← parse_value (S (2 * length l)) 0 (skip_ws l);
  match skip_ws rest with [] => Some v | _ => None end.

(** ** Go values *)

(** strconv's [ParseFloat] followed by the shortest formatting: the literal
    [json.Marshal] writes for the number a literal denotes, or no number when it overflows. *)
Class Floats := { reformat : list byte -> option (list byte) }.

Class FloatsLaws `{!Floats} : Prop := {
  reformat_idemp l l' : reformat l = Some l' -> reformat l' = Some l';
  reformat_literal l l' : reformat l = Some l' -> parse_number l' = Some (l', [])
}.

(** Setting a key of a [map[string]any]. *)
Fixpoint map_set (k : string) (v : json) (m : list (string * json)) : list (string * json) :=
  match m with
  | [] => [(k, v)]
  | (k', v') :: m' =>
      if bool_decide (k = k') then (k, v) :: m'
      else if bool_decide (String.le k k') then (k, v) :: m
      else (k', v') :: map_set k v m'
  end.

Section values.
Context `{FL : !Floats}.

(** Decoding into an [any]. *)
Fixpoint to_any (v : json) : option json :=
  match v with
  | JNull => Some JNull
  | JBool b => Some (JBool b)
  | JNumber n => JNumber <$> reformat n
  | JString s => Some (JString s)
  | JArray l => JArray <$>
      foldr (fun v acc => v ← to_any v; acc ← acc; Some (v :: acc)) (Some []) l
  | JObject fields => JObject <$>
      (fix go (acc : list (string * json)) fields :=
         match fields with
         | [] => Some acc
         | (k, v) :: fields => v ← to_any v; go (map_set k v acc) fields
         end) [] fields
  end.

(** Decoding the members of an object into an existing [map[string]any]. *)
Fixpoint merge_members (m : list (string * json)) (fields : list (string * json))
    : option (list (string * json)) :=
  match fields with
  | [] => Some m
  | (k, v) :: fields => v ← to_any v; merge_members (map_set k v m) fields
  end.

(** The values a program holds after decoding into an [any], nested at most [d] deep: texts are
    UTF-8, numbers are formatted and keys in order. *)
Definition key_lt (a b : string * json) : Prop := a.1 <> b.1 /\ String.le a.1 b.1.
#[warnings="-register-all"]
Inductive canonical : Z -> json -> Prop :=
  | canon_null d : canonical d JNull
  | canon_bool d b : canonical d (JBool b)
  | canon_number d n : reformat n = Some n -> canonical d (JNumber n)
  | canon_string d s : ValidString s = true -> canonical d (JString s)
  | canon_array d l : 0 < d -> Forall (canonical (d - 1)) l -> canonical d (JArray l)
  | canon_object d m : 0 < d -> StronglySorted key_lt m ->
      Forall (fun kv => ValidString kv.1 = true) m -> Forall (fun v => canonical (d - 1) v) (m.*2) ->
      canonical d (JObject m).
End values.

(** ** Strings round trip *)

Lemma utf8_valid_seq fuel b l :
  128 <= byte_Z b -> utf8_valid (S fuel) (b :: l) = true ->
  exists n, utf8_seq (b :: l) = Some n /\ (2 <= n <= S (length l))%nat /\
    utf8_valid fuel (drop n (b :: l)) = true.
Proof.
  intros Hb. cbn [utf8_valid]. rewrite (proj2 (Z.ltb_ge _ _) Hb).
  destruct l as [|c l]; [done|]. unfold utf8_seq.
  destruct (in_range 194 223 b).
  { intros [Hc H]%andb_true_iff. rewrite Hc. exists 2%nat. simpl; split_and!; [done|lia|lia|done]. }
  destruct l as [|d l]; [done|]. destruct (in_range 224 239 b).
  { intros [Hc H]%andb_true_iff. rewrite Hc. exists 3%nat. simpl; split_and!; [done|lia|lia|done]. }
  destruct l as [|e l]; [done|].
  intros [Hc H]%andb_true_iff. rewrite Hc. exists 4%nat. simpl; split_and!; [done|lia|lia|done].
Qed.

Lemma utf8_seq_app l r n : utf8_seq l = Some n -> utf8_seq (l ++ r) = Some n.
Proof.
  unfold utf8_seq. destruct l as [|b [|c [|d [|e l]]]]; simpl; try done; repeat case_match; try done.
Qed.

Lemma utf8_seq_take l n : utf8_seq l = Some n -> utf8_seq (take n l) = Some n.
Proof.
  destruct l as [|b [|c l]]; [done..|]. cbn [utf8_seq].
  destruct (in_range 194 223 b) eqn:E1.
  { destruct (cont c) eqn:E2; [intros [= <-]|done]. cbn [take utf8_seq]. by rewrite E1, E2. }
  destruct l as [|d l]; [done|]. destruct (in_range 224 239 b) eqn:E3.
  { destruct (_ && _) eqn:E2; [intros [= <-]|done]. cbn [take utf8_seq]. by rewrite E1, E3, E2. }
  destruct l as [|e l]; [done|].
  destruct (in_range 240 244 b && _ && _ && _) eqn:E2; [intros [= <-]|done].
  cbn [take utf8_seq]. by rewrite E1, E3, E2.
Qed.

Lemma parse_escape_byte b f tail :
  byte_Z b < 128 ->
  parse_string (S f) (escape_byte b ++ tail) = '(s, t) ← parse_string f tail; Some (b :: s, t).
Proof. destruct b; intros H; first [discriminate H | reflexivity]. Qed.

Lemma parse_string_high b t n f :
  128 <= byte_Z b -> utf8_seq (b :: t) = Some n ->
  parse_string (S f) (b :: t) =
  '(s, tail) ← parse_string f (drop n (b :: t)); Some (take n (b :: t) ++ s, tail).
Proof.
  intros Hb Hs. cbn [parse_string]. rewrite Hs.
  rewrite !bool_decide_false by (intros ->; vm_compute in Hb; congruence).
  by rewrite (proj2 (Z.ltb_ge (byte_Z b) 32)), (proj2 (Z.ltb_ge (byte_Z b) 128)) by lia.
Qed.

(** What is written in place of one rune, and its reading. *)
Lemma parse_escape_rune l n f tail :
  128 <= byte_Z (nth 0 l x00) -> utf8_seq l = Some n -> (2 <= n <= length l)%nat ->
  parse_string (S f)
    ((if bool_decide (take 3 l = [xe2; x80; xa8]) then u_escape 8232
      else if bool_decide (take 3 l = [xe2; x80; xa9]) then u_escape 8233
      else take n l) ++ tail) = '(s, t) ← parse_string f tail; Some (take n l ++ s, t).
Proof.
  intros Hb Hs Hn.
  assert (forall x y z : byte, take 3 l = [x; y; z] -> exists l', l = x :: y :: z :: l') as H3.
  { intros x y z E. exists (drop 3 l). rewrite <- (take_drop 3 l), E. done. }
  case_bool_decide as E1.
  { apply H3 in E1 as [l' ->]. assert (n = 3%nat) as -> by (vm_compute in Hs; congruence). reflexivity. }
  case_bool_decide as E2.
  { apply H3 in E2 as [l' ->]. assert (n = 3%nat) as -> by (vm_compute in Hs; congruence). reflexivity. }
  destruct l as [|b l]; [simpl in Hn; lia|]. cbn [nth] in Hb.
  assert (utf8_seq (take n (b :: l)) = Some n) as Ht.
  { by apply utf8_seq_take. }
  pose proof (utf8_seq_app _ tail _ Ht) as Ha.
  assert (length (take n (b :: l)) = n) as Hl by (rewrite length_take; simpl in *; lia).
  assert (drop n (take n (b :: l) ++ tail) = tail) as Hd by (rewrite <- Hl at 1; apply drop_app_length).
  assert (take n (take n (b :: l) ++ tail) = take n (b :: l)) as Hk
    by (rewrite <- Hl at 1; apply take_app_length).
  assert (exists t, take n (b :: l) ++ tail = b :: t) as [t Et] by (destruct n; [lia|]; by eexists).
  rewrite Et in *. rewrite (parse_string_high b t n f) by done. by rewrite Hd, Hk.
Qed.

Lemma parse_string_escape fuel l f rest :
  utf8_valid fuel l = true -> (length (escape fuel l) < f)%nat ->
  parse_string f (escape fuel l ++ x22 :: rest) = Some (l, rest).
Proof.
  revert l f. induction fuel as [|fuel IH]; intros l f Hv Hf.
  { destruct l; [|done]. destruct f; [simpl in Hf; lia|]. reflexivity. }
  destruct l as [|b l]; [destruct f; [simpl in Hf; lia|]; reflexivity|].
  cbn [escape] in *. destruct (Z.ltb_spec (byte_Z b) 128) as [Hb|Hb].
  - cbn [utf8_valid] in Hv. rewrite (proj2 (Z.ltb_lt _ _) Hb) in Hv.
    rewrite length_app in Hf. assert (0 < length (escape_byte b))%nat as H0 by (destruct b; by vm_compute; lia).
    destruct f as [|f]; [lia|]. rewrite <- app_assoc, parse_escape_byte by done.
    rewrite (IH l f Hv) by lia. done.
  - destruct (utf8_valid_seq _ _ _ Hb Hv) as (n & Hs & Hn & Hv').
    rewrite Hs in *. rewrite length_app in Hf.
    assert (0 < length (if bool_decide (take 3 (b :: l) = [xe2; x80; xa8]) then u_escape 8232
      else if bool_decide (take 3 (b :: l) = [xe2; x80; xa9]) then u_escape 8233
      else take n (b :: l)))%nat as H0.
    { repeat case_bool_decide; [by vm_compute; lia..|]. rewrite length_take. simpl. lia. }
    destruct f as [|f]; [lia|]. rewrite <- app_assoc, parse_escape_rune by (done || simpl; lia).
    rewrite (IH _ f Hv') by lia. cbn [mbind option_bind]. by rewrite take_drop.
Qed.

Lemma parse_quote s rest :
  ValidString s = true ->
  exists l1, quote s ++ rest = x22 :: l1 /\ parse_string (length l1) l1 = Some (bytes_of s, rest).
Proof.
  intros Hs. exists (escape (length (bytes_of s)) (bytes_of s) ++ x22 :: rest). split.
  { unfold quote. cbn [app]. by rewrite <- app_assoc. }
  apply parse_string_escape; [done|]. rewrite length_app. simpl. lia.
Qed.

(** ** Values round trip *)

(** What [json.Marshal] can be given: UTF-8 texts and number literals, nested at most [d] deep. *)
#[warnings="-register-all"]
Inductive printable : Z -> json -> Prop :=
  | print_null d : printable d JNull
  | print_bool d b : printable d (JBool b)
  | print_number d n : parse_number n = Some (n, []) -> printable d (JNumber n)
  | print_string d s : ValidString s = true -> printable d (JString s)
  | print_array d l : 0 < d -> Forall (printable (d - 1)) l -> printable d (JArray l)
  | print_object d m : 0 < d -> Forall (fun kv => ValidString kv.1 = true) m ->
      Forall (printable (d - 1)) (m.*2) -> printable d (JObject m).

(** What may follow a value. *)
Definition ends (rest : list byte) : Prop :=
  rest = [] \/ exists b r, rest = b :: r /\ (b = x2c \/ b = x5d \/ b = x7d).

Ltac ends_cases H := destruct H as [->|(? & ? & -> & [->|[->| ->]])].

Lemma digits_app l d rest r : digits l = (d, rest) -> ends r -> digits (l ++ r) = (d, rest ++ r).
Proof.
  revert d rest. induction l as [|b l IH]; intros d rest.
  - intros [= <- <-] Hr. by ends_cases Hr.
  - cbn [digits app]. destruct (is_digit b); [|by intros [= <- <-]].
    destruct (digits l) as [d' rest'] eqn:E. intros [= <- <-] Hr. by rewrite (IH d' rest').
Qed.

(** A literal is read the same with a delimiter after it. *)
Lemma parse_int_app l d rest r :
  parse_int l = Some (d, rest) -> ends r -> parse_int (l ++ r) = Some (d, rest ++ r).
Proof.
  unfold parse_int. intros H Hr. destruct (digits l) as [ds rest'] eqn:E.
  rewrite (digits_app _ _ _ r E Hr). destruct ds as [|b ds]; [done|].
  destruct l as [|b' l]; [done|]. cbn [drop app] in *. case_bool_decide; by injection H as <- <-.
Qed.

Lemma digits1_app lead l d rest r :
  digits1 lead l = Some (d, rest) -> ends r -> digits1 lead (l ++ r) = Some (d, rest ++ r).
Proof.
  unfold digits1. intros H Hr. destruct (digits l) as [ds rest'] eqn:E.
  rewrite (digits_app _ _ _ r E Hr). destruct ds; [done|by injection H as <- <-].
Qed.

Lemma parse_frac_app l d rest r :
  parse_frac l = Some (d, rest) -> ends r -> parse_frac (l ++ r) = Some (d, rest ++ r).
Proof.
  intros H Hr. destruct l as [|b l]; [injection H as <- <-; by ends_cases Hr|].
  cbn [parse_frac app] in *. case_bool_decide; [by apply digits1_app|by injection H as <- <-].
Qed.

Lemma parse_exp_app l d rest r :
  parse_exp l = Some (d, rest) -> ends r -> parse_exp (l ++ r) = Some (d, rest ++ r).
Proof.
  intros H Hr. destruct l as [|b l]; [injection H as <- <-; by ends_cases Hr|].
  cbn [parse_exp app] in *. case_bool_decide; [|by injection H as <- <-].
  destruct l as [|c l]; [done|]. cbn [app]. case_bool_decide; [by apply digits1_app|].
  by apply (digits1_app _ (c :: l)).
Qed.

Lemma parse_number_app n rest r :
  parse_number n = Some (n, rest) -> ends r -> parse_number (n ++ r) = Some (n, rest ++ r).
Proof.
  intros H Hr. destruct n as [|b n]; [discriminate H|]. unfold parse_number in *. cbn [app].
  assert (exists sign l, (if bool_decide (b = x2d) then ([b], n) else ([], b :: n)) = (sign, l) /\
    (if bool_decide (b = x2d) then ([b], n ++ r) else ([], b :: n ++ r)) = (sign, l ++ r))
    as (sign & l & E1 & E2) by (case_bool_decide; by do 2 eexists).
  rewrite E1 in H. rewrite E2. clear E1 E2.
  destruct (parse_int l) as [[i l1]|] eqn:Ei; [|done]. rewrite (parse_int_app _ _ _ r Ei Hr).
  cbn [mbind option_bind] in *. destruct (parse_frac l1) as [[fr l2]|] eqn:Ef; [|done].
  rewrite (parse_frac_app _ _ _ r Ef Hr). cbn [mbind option_bind] in *.
  destruct (parse_exp l2) as [[ex l3]|] eqn:Ee; [|done]. rewrite (parse_exp_app _ _ _ r Ee Hr).
  cbn [mbind option_bind] in *. congruence.
Qed.

(** A literal starts with a sign or a digit. *)
Lemma parse_number_head n :
  parse_number n = Some (n, []) -> exists b l, n = b :: l /\ (b = x2d \/ is_digit b = true).
Proof.
  destruct n as [|b n]; [done|]. intros H. exists b, n. split; [done|].
  destruct (is_digit b) eqn:E; [by right|left]. unfold parse_number in H.
  case_bool_decide; [done|]. unfold parse_int in H. cbn [digits] in H. by rewrite E in H.
Qed.

(** *** Integers *)

Lemma pretty_N_go_head x s : (0 < x)%N -> exists b l, bytes_of (pretty_N_go x s) = b :: l /\ b <> x30.
Proof.
  revert s. induction (N.lt_wf_0 x) as [x _ IH]; intros s Hx. rewrite pretty_N_go_step by done.
  destruct (decide (0 < x / 10)%N) as [Hq|Hq]; [apply IH; [apply N.div_lt; lia|done]|].
  apply N.nlt_ge, N.le_0_r in Hq as E0. rewrite E0, pretty_N_go_0, bytes_of_cons.
  do 2 eexists. split; [done|]. intros E. apply (f_equal byte_Z) in E.
  assert (x mod 10 < 10)%N by (apply N.mod_lt; lia). rewrite digit_char in E by done.
  change (byte_Z x30) with 48 in E. pose proof (N.div_mod x 10 ltac:(lia)) as Ed.
  rewrite E0 in Ed. set (m := (x mod 10)%N) in *. clearbody m. lia.
Qed.

Lemma digits_all l : Forall (fun b => is_digit b = true) l -> digits l = (l, []).
Proof. induction 1 as [|b l Hb Hl IH]; [done|]. cbn [digits]. by rewrite Hb, IH. Qed.

(** A formatted non-negative integer is a number literal. *)
Lemma itoa_literal z : 0 <= z -> parse_number (bytes_of (itoa z)) = Some (bytes_of (itoa z), []).
Proof.
  intros Hz. destruct (decide (z = 0)) as [->|Hn]; [done|].
  assert (exists b l, bytes_of (itoa z) = b :: l /\ b <> x30) as (b & l & E & Hb).
  { destruct z as [|p|p]; [done| |lia]. change (itoa (Z.pos p)) with (pretty (N.pos p)). unfold pretty, pretty_N.
    case_decide; [done|]. apply pretty_N_go_head. lia. }
  pose proof (itoa_digits z Hz) as Hd. rewrite E in *. unfold parse_number, parse_int.
  rewrite bool_decide_false by (intros ->; by inversion Hd). rewrite (digits_all _ Hd).
  rewrite bool_decide_false by done. cbn. by rewrite !app_nil_r.
Qed.

Lemma Marshal_head v d : printable d v ->
  exists b l, Marshal_json v = b :: l /\ (forall r, skip_ws (b :: r) = b :: r) /\ b <> x5d.
Proof.
  intros H. destruct H as [d|d b|d n Hn|d s Hs|d l Hd Hl|d m Hd Hk Hv].
  - by do 2 eexists.
  - destruct b; by do 2 eexists.
  - destruct (parse_number_head n Hn) as (b & l & -> & Hb).
    exists b, l. split; [done|]. destruct Hb as [->|Hb]; [done|]. split; [|by intros ->]. intros r.
    cbn [skip_ws]. by rewrite bool_decide_false by (intros [->|[->|[->| ->]]]; done).
  - by do 2 eexists.
  - by do 2 eexists.
  - by do 2 eexists.
Qed.

Lemma skip_ws_Marshal v d r : printable d v -> skip_ws (Marshal_json v ++ r) = Marshal_json v ++ r.
Proof. intros (b & l & -> & H & _)%Marshal_head. apply H. Qed.

Lemma parse_value_number n depth f rest :
  parse_number n = Some (n, []) -> ends rest ->
  parse_value (S f) depth (n ++ rest) = Some (JNumber n, rest).
Proof.
  intros Hn Hr. pose proof (parse_number_app _ _ _ Hn Hr) as H.
  destruct (parse_number_head n Hn) as (b & l & -> & Hb). cbn [app] in *.
  destruct b; try (exfalso; destruct Hb as [Hb|Hb]; discriminate Hb);
    cbn [parse_value cut_prefix bytes_of String.list_byte_of_string]; simpl; by rewrite H.
Qed.

(** Reading back a value, by the way it is nested. *)
Definition reads (v : json) : Prop := forall d depth f rest,
  printable d v -> depth + d <= maxNestingDepth -> ends rest ->
  (2 * length (Marshal_json v) <= f)%nat ->
  parse_value f depth (Marshal_json v ++ rest) = Some (v, rest).

Lemma ends_comma r : ends (x2c :: r).
Proof. right. by exists x2c, r; auto. Qed.
Lemma ends_bracket r : ends (x5d :: r).
Proof. right. by exists x5d, r; auto. Qed.
Lemma ends_brace r : ends (x7d :: r).
Proof. right. by exists x7d, r; auto. Qed.

Lemma parse_elements_Marshal l d depth f rest :
  l <> [] -> Forall reads l -> Forall (printable d) l -> depth + d <= maxNestingDepth ->
  (2 * length (commas (Marshal_json <$> l)) + 1 <= f)%nat ->
  parse_elements f depth (commas (Marshal_json <$> l) ++ x5d :: rest) = Some (l, rest).
Proof.
  intros Hne Hl. revert f Hne. induction Hl as [|v l Hv Hl IH]; intros f Hne Hc Hd Hf; [done|].
  apply Forall_cons in Hc as [Hcv Hc]. destruct f as [|f]; [lia|].
  destruct l as [|w l].
  - cbn [fmap list_fmap commas] in *. cbn [parse_elements].
    rewrite (Hv d) by (done || lia || apply ends_bracket). done.
  - remember (w :: l) as tl eqn:Etl.
    assert (commas (Marshal_json <$> v :: tl) =
      Marshal_json v ++ x2c :: commas (Marshal_json <$> tl)) as Ec by (by subst).
    rewrite Ec in *. rewrite length_app in Hf. cbn [length] in Hf. cbn [parse_elements].
    rewrite <- app_assoc. cbn [app]. rewrite (Hv d) by (done || lia || apply ends_comma).
    cbn [mbind option_bind]. change (skip_ws (x2c :: ?r)) with (x2c :: r). cbn beta iota.
    assert (skip_ws (commas (Marshal_json <$> tl) ++ x5d :: rest) = commas (Marshal_json <$> tl) ++ x5d :: rest) as ->.
    { subst tl. apply Forall_cons in Hc as [Hw _]. destruct l; cbn [fmap list_fmap commas]; rewrite <- ?app_assoc;
        by eapply skip_ws_Marshal. }
    rewrite IH by (subst; done || lia). done.
Qed.

Lemma parse_members_Marshal m d depth f rest :
  m <> [] -> Forall (fun kv => reads kv.2) m -> Forall (fun v => printable d v) (m.*2) ->
  Forall (fun kv => ValidString kv.1 = true) m -> depth + d <= maxNestingDepth ->
  (2 * length (commas ((fun kv => quote kv.1 ++ x3a :: Marshal_json kv.2) <$> m)) + 1 <= f)%nat ->
  parse_members f depth (commas ((fun kv => quote kv.1 ++ x3a :: Marshal_json kv.2) <$> m) ++ x7d :: rest)
  = Some (m, rest).
Proof.
  intros Hne Hm. revert f Hne. induction Hm as [|[k v] m Hv Hm IH]; intros f Hne Hc Hk Hd Hf; [done|].
  apply Forall_cons in Hk as [Hk1 Hk]. cbn [fst snd] in *. cbn [fmap list_fmap snd] in Hc.
  apply Forall_cons in Hc as [Hcv Hc]. destruct f as [|f]; [lia|].
  destruct m as [|kv m].
  - cbn [fmap list_fmap commas fst snd] in *. rewrite <- app_assoc. cbn [app].
    destruct (parse_quote k (x3a :: Marshal_json v ++ x7d :: rest) Hk1) as (l1 & -> & Hp).
    rewrite length_app in Hf. cbn [length] in Hf. cbn [parse_members]. rewrite Hp.
    cbn [mbind option_bind]. change (skip_ws (x3a :: ?r)) with (x3a :: r). cbn beta iota.
    rewrite (skip_ws_Marshal v d) by done. rewrite (Hv d) by (done || lia || apply ends_brace).
    cbn [mbind option_bind]. change (skip_ws (x7d :: ?r)) with (x7d :: r). cbn beta iota.
    by rewrite string_of_bytes_of.
  - remember (kv :: m) as tl eqn:Etl. set (F := fun kv => quote kv.1 ++ x3a :: Marshal_json kv.2) in *.
    assert (commas (F <$> (k, v) :: tl) =
      (quote k ++ x3a :: Marshal_json v) ++ x2c :: commas (F <$> tl)) as Ec by (by subst).
    rewrite Ec in *. rewrite !length_app in Hf. cbn [length] in Hf.
    rewrite <- ?app_assoc. cbn [app]. rewrite <- ?app_assoc. cbn [app].
    destruct (parse_quote k (x3a :: Marshal_json v ++ x2c :: commas (F <$> tl) ++ x7d :: rest) Hk1) as (l1 & -> & Hp).
    cbn [parse_members]. rewrite Hp.
    cbn [mbind option_bind]. change (skip_ws (x3a :: ?r)) with (x3a :: r). cbn beta iota.
    rewrite (skip_ws_Marshal v d) by done. rewrite (Hv d) by (done || lia || apply ends_comma).
    cbn [mbind option_bind]. change (skip_ws (x2c :: ?r)) with (x2c :: r). cbn beta iota.
    assert (skip_ws (commas (F <$> tl) ++ x7d :: rest) = commas (F <$> tl) ++ x7d :: rest) as ->.
    { subst tl. destruct m; reflexivity. }
    rewrite IH by (subst; done || lia). by rewrite string_of_bytes_of.
Qed.

Lemma parse_value_array f depth l :
  depth < maxNestingDepth -> skip_ws l = l -> (forall r, l <> x5d :: r) ->
  parse_value (S f) depth (x5b :: l) = '(vs, rest) ← parse_elements f (depth + 1) l; Some (JArray vs, rest).
Proof.
  intros Hd Hw Hb. cbn [parse_value]. rewrite Hw, (proj2 (Z.leb_gt _ _) Hd).
  destruct l as [|b r]; [done|]. specialize (Hb r). destruct b; first [done | exfalso; apply Hb; reflexivity].
Qed.

Lemma parse_value_object f depth l :
  depth < maxNestingDepth -> skip_ws l = l -> (forall r, l <> x7d :: r) ->
  parse_value (S f) depth (x7b :: l) = '(ms, rest) ← parse_members f (depth + 1) l; Some (JObject ms, rest).
Proof.
  intros Hd Hw Hb. cbn [parse_value]. rewrite Hw, (proj2 (Z.leb_gt _ _) Hd).
  destruct l as [|b r]; [done|]. specialize (Hb r). destruct b; first [done | exfalso; apply Hb; reflexivity].
Qed.

Lemma Marshal_reads v : reads v.
Proof.
  induction v as [|b|n|s|l IH|m IH] using json_nested_ind; intros d depth f rest Hc Hd Hr Hf.
  - destruct f; [simpl in Hf; lia|]. reflexivity.
  - destruct f; [destruct b; simpl in Hf; lia|]. destruct b; reflexivity.
  - inversion Hc as [| |? ? Hn| | |]; subst.
    destruct f; [destruct (parse_number_head n Hn) as (?&?&->&_); simpl in Hf; lia|].
    by apply parse_value_number.
  - inversion Hc; subst. destruct f; [simpl in Hf; lia|]. cbn [Marshal_json] in *.
    destruct (parse_quote s rest) as (l1 & -> & Hp); [done|]. cbn [parse_value]. rewrite Hp.
    cbn [mbind option_bind]. by rewrite string_of_bytes_of.
  - inversion Hc as [| | | |? ? H0 Hl|]; subst. cbn [Marshal_json] in *. cbn [length] in Hf.
    rewrite length_app in Hf. cbn [length] in Hf. destruct f as [|f]; [lia|]. cbn [app].
    rewrite <- app_assoc. cbn [app]. destruct l as [|v l].
    { cbn. rewrite (proj2 (Z.leb_gt maxNestingDepth depth)) by lia. done. }
    destruct (Marshal_head v (d - 1)) as (b & r & Eb & Hb & Hb5); [by inversion Hl|].
    assert (exists r', commas (Marshal_json <$> v :: l) ++ x5d :: rest = b :: r') as [r' Er].
    { cbn [fmap list_fmap]. destruct l; cbn [commas fmap list_fmap]; rewrite Eb; by eexists. }
    rewrite parse_value_array; [|lia|by rewrite Er, Hb|intros ?; rewrite Er; congruence].
    by rewrite (parse_elements_Marshal (v :: l) (d - 1)) by (done || lia).
  - inversion Hc as [| | | | |? ? H0 Hk Hl]; subst. cbn [Marshal_json] in *. cbn [length] in Hf.
    rewrite length_app in Hf. cbn [length] in Hf. destruct f as [|f]; [lia|]. cbn [app].
    rewrite <- app_assoc. cbn [app]. destruct m as [|kv m].
    { cbn. rewrite (proj2 (Z.leb_gt maxNestingDepth depth)) by lia. done. }
    rewrite parse_value_object; [|lia|by destruct m|by destruct m].
    by rewrite (parse_members_Marshal (kv :: m) (d - 1)) by (done || lia).
Qed.

(** A document of printable values is read back. *)
Lemma parse_document_Marshal v d : printable d v -> d <= maxNestingDepth ->
  parse_document (Marshal_json v) = Some v.
Proof.
  intros Hc Hd. unfold parse_document.
  pose proof (skip_ws_Marshal v d [] Hc) as Hw. rewrite app_nil_r in Hw. rewrite Hw.
  pose proof (Marshal_reads v d 0 (S (2 * length (Marshal_json v))) [] Hc) as H.
  rewrite app_nil_r in H. rewrite H; [done|lia|by left|lia].
Qed.

Section decoding.
Context `{FL : !Floats}.

Lemma map_set_last k v m :
  Forall (fun kv => kv.1 <> k /\ String.le kv.1 k) m -> map_set k v m = m ++ [(k, v)].
Proof.
  induction 1 as [|[k' v'] m [Hne Hle] Hm IH]; [done|]. cbn [map_set fst] in *.
  rewrite bool_decide_false by congruence.
  rewrite bool_decide_false; [by rewrite IH|].
  intros Hle'. apply Hne. by apply (anti_symm String.le).
Qed.

Lemma to_any_object fields : to_any (JObject fields) = JObject <$> merge_members [] fields.
Proof. reflexivity. Qed.

(** Entries in key order are merged into a map of smaller keys as they are. *)
Lemma merge_sorted m fields :
  StronglySorted key_lt (m ++ fields) -> Forall (fun kv => to_any kv.2 = Some kv.2) fields ->
  merge_members m fields = Some (m ++ fields).
Proof.
  revert m. induction fields as [|[k v] fields IH]; intros m Hs Hf; [by rewrite app_nil_r|].
  apply Forall_cons in Hf as [Hv Hf]. cbn [merge_members snd] in *. rewrite Hv. cbn [mbind option_bind].
  rewrite map_set_last.
  - rewrite IH; [by rewrite <- app_assoc|by rewrite <- app_assoc|done].
  - clear -Hs. induction m as [|x m IH]; [constructor|]. cbn [app] in Hs. apply StronglySorted_inv in Hs as [Hs Hx].
    constructor; [|by apply IH]. apply Forall_app in Hx as [_ Hx]. by inversion Hx.
Qed.

(** Decoded values are fixed points of decoding. *)
Lemma to_any_canonical v d : canonical d v -> to_any v = Some v.
Proof.
  revert d. induction v as [|b|n|s|l IH|m IH] using json_nested_ind; intros d Hc; try done.
  - inversion Hc; subst. cbn [to_any]. by rewrite H1.
  - inversion Hc as [| | | |? ? H0 Hl|]; subst. cbn [to_any]. clear Hc H0.
    assert (foldr (fun v acc => v ← to_any v; acc ← acc; Some (v :: acc)) (Some []) l = Some l) as ->; [|done].
    induction IH as [|v l Hv IH IHl]; [done|]. apply Forall_cons in Hl as [Hcv Hl]. cbn [foldr].
    rewrite (Hv _ Hcv), (IHl Hl). done.
  - inversion Hc as [| | | | |? ? H0 Hs Hk Hl]; subst. rewrite to_any_object, merge_sorted; [done|done|].
    clear Hc Hs Hk. induction IH as [|kv m Hv IH IHm]; constructor.
    + cbn [fmap list_fmap] in Hl. apply Forall_cons in Hl as [Hcv _]. by eapply Hv.
    + apply IHm. cbn [fmap list_fmap] in Hl. by apply Forall_cons in Hl as [_ Hl].
Qed.

Lemma canonical_printable `{!FloatsLaws} v d : canonical d v -> printable d v.
Proof.
  revert d. induction v as [|b|n|s|l IH|m IH] using json_nested_ind; intros d Hc; inversion Hc; subst;
    constructor; try done.
  - by eapply reformat_literal.
  - clear Hc. induction IH as [|v l Hv IH IHl]; [constructor|].
    match goal with H : Forall _ (_ :: _) |- _ => apply Forall_cons in H as [? ?] end.
    constructor; [by apply Hv|by apply IHl].
  - match goal with H : Forall _ (_.*2) |- _ => revert H end. clear -IH.
    induction IH as [|kv m Hv IH IHm]; intros H; cbn [fmap list_fmap] in *; [constructor|].
    apply Forall_cons in H as [? ?]. constructor; [by apply Hv|by apply IHm].
Qed.
End decoding.

(** ** Injectivity of quoted texts *)

(** Two UTF-8 texts with the same quoted form are the same. *)
Lemma quote_inj s1 s2 r1 r2 :
  ValidString s1 = true -> ValidString s2 = true -> quote s1 ++ r1 = quote s2 ++ r2 -> s1 = s2 /\ r1 = r2.
Proof.
  intros H1 H2 E. destruct (parse_quote s1 r1 H1) as (l1 & E1 & P1).
  destruct (parse_quote s2 r2 H2) as (l2 & E2 & P2). rewrite E1, E2 in E. injection E as ->.
  rewrite P1 in P2. injection P2 as E3 E4. split; [by apply (inj bytes_of)|done].
Qed.

(** ** An instance *)

(** Integers without sign, fraction or exponent and below 10^15 are formatted as they are; other
    literals are not used. *)
#[export] Instance integer_floats : Floats :=
  {| reformat l := if bool_decide (parse_number l = Some (l, []) /\ Forall (fun b => is_digit b = true) l /\
                                   (length l <= 15)%nat) then Some l else None |}.
#[export] Instance integer_floats_laws : FloatsLaws.
Proof.
  split; intros l l'; cbn [reformat integer_floats]; case_bool_decide as H; try done; intros [= <-].
  - by rewrite bool_decide_true.
  - apply H.
Qed.
