(* ===== verification/Signaling.v ===== *)
(** Signaling messages of native WebRTC: identities, room topics, and the preparation
    and opening of sealed signals (nativewebrtc/signaling.go). *)
From S2P Require Export Wire Pairing Json.
From S2P Require Import ExtModel.
Local Open Scope Z_scope.

Definition SignalVersion : Z := 2.
Definition signalTTL : Z := 120 * Second.
Definition maxCandidateBytes : Z := 64 * 1024.
Definition maxEncryptedSignalBytes : Z := 512 * 1024.
Definition maxSignalingMessageBytes : Z := 512 * 1024.

Record Signal := mkSignal {
  sg_Version : Z;
  sg_Room : string;
  sg_Type : string;
  sg_SessionID : string;
  sg_From : string;
  sg_To : string;
  sg_CreatedAt : Z;
  sg_SDP : string;
  sg_Candidate : option (list (string * json));
  sg_Encrypted : string
}.

#[export] Instance Signal_eq_dec : EqDecision Signal.
Proof. solve_decision. Defined.

(** [Signal{}] and assignments to its fields. *)
Definition emptySignal : Signal := mkSignal 0 "" "" "" "" "" 0 "" None "".
Definition set_payload (s : Signal) (sdp : string) (candidate : option (list (string * json))) : Signal :=
  mkSignal (sg_Version s) (sg_Room s) (sg_Type s) (sg_SessionID s) (sg_From s) (sg_To s) (sg_CreatedAt s)
    sdp candidate (sg_Encrypted s).
Definition set_encrypted (s : Signal) (encrypted : string) : Signal :=
  mkSignal (sg_Version s) (sg_Room s) (sg_Type s) (sg_SessionID s) (sg_From s) (sg_To s) (sg_CreatedAt s)
    (sg_SDP s) (sg_Candidate s) encrypted.
Definition stamp (s : Signal) (topic peerID : string) (now : Time) : Signal :=
  mkSignal SignalVersion topic (sg_Type s) (sg_SessionID s) peerID (sg_To s) (toUnixMilli now)
    (sg_SDP s) (sg_Candidate s) (sg_Encrypted s).

(** ** Identities and rooms *)

Definition alphabet : list byte :=
  bytes_of "0123456789ABCDEFGHIJKLMNOPQRSTUVWXYZabcdefghijklmnopqrstuvwxyz".

(** [random] is what [rand.Read] puts into the buffer of 20 bytes. *)
Definition CreateSignalingPeerID (random : result (list byte)) : result string :=
  random ← random;
  Ok (string_of ((fun value => nth (Z.to_nat (byte_Z value mod Z.of_nat (length alphabet))) alphabet x00) <$> random)).

Definition CreateSignalingSessionID (random : result (list byte)) : result string :=
  random ← random; Ok (hex_encode random).

(** SHA-1, for the info hash of a WebTorrent tracker. *)
Class Sha1 := { sha1 : list byte -> list byte }.
Class Sha1Laws `{!Sha1} : Prop := { length_sha1 m : length (sha1 m) = 20%nat }.

(** [strconv.FormatUint(v, 36)] of one byte. *)
Definition digit36 (z : Z) : byte := Z_byte (if z <? 10 then 48 + z else 87 + z).
Definition format36 (z : Z) : list byte := if z <? 36 then [digit36 z] else [digit36 (z / 36); digit36 (z mod 36)].

Definition TorrentInfoHash `{!Sha1} (topic : string) : string :=
  let result := mjoin ((fun value => format36 (byte_Z value)) <$> sha1 (bytes_of topic)) in
  string_of (if 20 <? blen result then take 20 result else result).

(** ** Sizes and additional data *)

Definition validateSignalPayloadSizes (signal : Signal) : result unit :=
  refuse (maxSDPBytes <? slen (sg_SDP signal))
    (Errorf "native signaling SDP exceeds %d bytes" [AInt maxSDPBytes]);;
  match sg_Candidate signal with
  | Some candidate =>
      let encoded := Marshal_json (JObject candidate) in
      refuse (maxCandidateBytes <? blen encoded)
        (Errorf "native signaling candidate exceeds %d bytes" [AInt maxCandidateBytes])
  | None => Ok tt
  end.

Definition signalAdditionalData (signal : Signal) : list byte :=
  Marshal_json (JArray [JNumber (bytes_of (itoa SignalVersion)); JString (sg_Room signal);
    JString (sg_Type signal); JString (sg_SessionID signal); JString (sg_From signal);
    JString (sg_To signal); JNumber (bytes_of (itoa (sg_CreatedAt signal)))]).

(** The sealed payload, a struct with [omitempty] fields. *)
Definition payload_fields (sdp : string) (candidate : option (list (string * json))) : list (string * json) :=
  (if bool_decide (sdp = "") then [] else [("sdp", JString sdp)]) ++
  match candidate with
  | None | Some [] => []
  | Some candidate => [("candidate", JObject candidate)]
  end.
Definition MarshalPayload (sdp : string) (candidate : option (list (string * json))) : list byte :=
  Marshal_json (JObject (payload_fields sdp candidate)).

(** How [json.Unmarshal] compares names: ASCII letters in upper case, the long s and the
    Kelvin sign as the letters they fold to. *)
Fixpoint fold_name (l : list byte) : list byte :=
  match l with
  | xc5 :: xbf :: l => x53 :: fold_name l
  | xe2 :: x84 :: xaa :: l => x4b :: fold_name l
  | b :: l => (if in_range 97 122 b then Z_byte (byte_Z b - 32) else b) :: fold_name l
  | [] => []
  end.

(** [json.Unmarshal] into the payload struct, field by field. *)
Fixpoint decode_fields `{!Floats} (sdp : string) (candidate : option (list (string * json)))
    (fields : list (string * json)) : option (string * option (list (string * json))) :=
  match fields with
  | [] => Some (sdp, candidate)
  | (name, value) :: fields =>
      let name := fold_name (bytes_of name) in
      if bool_decide (name = bytes_of "SDP") then
        match value with
        | JString s => decode_fields s candidate fields
        | JNull => decode_fields sdp candidate fields
        | _ => None
        end
      else if bool_decide (name = bytes_of "CANDIDATE") then
        match value with
        | JObject members =>
            merged ← merge_members (default [] candidate) members;
            decode_fields sdp (Some merged) fields
        | JNull => decode_fields sdp None fields
        | _ => None
        end
      else decode_fields sdp candidate fields
  end.
Definition UnmarshalPayload `{!Floats} (plaintext : list byte)
    : option (string * option (list (string * json))) :=
  value ← parse_document plaintext;
  match value with
  | JObject fields => decode_fields "" None fields
  | JNull => Some ("", None)
  | _ => None
  end.

(** ** Preparing and opening *)

Section signaling.
Context `{LP : !Libp2p, CB : !Cbor, CR : !Crypto, FL : !Floats}.

Definition SignalingRoomTopic (roomID : string) (token : option Token) : result string :=
  let roomID := TrimSpace roomID in
  refuse (bool_decide (roomID = "")) (ErrNew "native signaling roomId is required");;
  match token with
  | Some token => RendezvousID token "signaling" 0
  | None => Ok (hex_encode (sha256 (bytes_of ("p2p-netcat:native-webrtc:v2:" +:+ roomID))))
  end.

(** The payload a type needs. *)
Definition checkPayload (signal : Signal) : result unit :=
  if bool_decide (sg_Type signal = "offer" \/ sg_Type signal = "answer")
  then refuse (bool_decide (sg_SDP signal = ""))
         (Errorf "native signaling %s does not contain SDP" [AStr (sg_Type signal)])
  else if bool_decide (sg_Type signal = "candidate")
  then refuse (match sg_Candidate signal with Some _ => false | None => true end)
         (ErrNew "native signaling candidate is required")
  else if bool_decide (sg_Type signal = "bye") then Ok tt
  else Err (Errorf "unsupported native signaling type: %s" [AStr (sg_Type signal)]).

Definition prepareOutgoing (signal : Signal) (topic peerID : string) (token : option Token)
    (now : Time) (random : result (list byte)) : result Signal :=
  refuse (negb (clientIDPattern peerID))
    (ErrNew "native signaling peerId must contain exactly 20 ASCII letters or digits");;
  checkPayload signal;;
  validateSignalPayloadSizes signal;;
  refuse ((slen (sg_SessionID signal) <? 8) || (128 <? slen (sg_SessionID signal)))
    (ErrNew "native signaling sessionId is invalid");;
  refuse (negb (bool_decide (sg_To signal = "")) && negb (clientIDPattern (sg_To signal)))
    (ErrNew "native signaling destination peerId is invalid");;
  let signal := stamp signal topic peerID now in
  match token with
  | None => Ok signal
  | Some token =>
      let metadata := set_payload signal "" None in
      let plaintext := MarshalPayload (sg_SDP signal) (sg_Candidate signal) in
      let additional := signalAdditionalData metadata in
      sealed ← Seal token "signaling" plaintext additional None random;
      Ok (set_encrypted metadata (EncodeToString sealed))
  end.

(** The unsealing part of [openIncoming]. *)
Definition unseal (signal : Signal) (token : Token) : option Signal :=
  if bool_decide (sg_Encrypted signal = "") then None
  else
    let metadata := set_payload signal "" None in
    let additional := signalAdditionalData metadata in
    envelope ← DecodeString (sg_Encrypted signal);
    plaintext ← to_option (Open token "signaling" envelope additional);
    '(sdp, candidate) ← UnmarshalPayload plaintext;
    Some (set_payload signal sdp candidate).

Definition openIncoming (signal : Signal) (topic peerID : string) (token : option Token) (now : Time)
    : option Signal :=
  if (maxEncryptedSignalBytes <? slen (sg_Encrypted signal)) ||
     (slen (sg_SessionID signal) <? 8) || (128 <? slen (sg_SessionID signal)) ||
     negb (clientIDPattern (sg_From signal)) ||
     (negb (bool_decide (sg_To signal = "")) && negb (clientIDPattern (sg_To signal)))
  then None
  else
    signal ← match token with Some token => unseal signal token | None => Some signal end;
    if negb (sg_Version signal =? SignalVersion) || negb (bool_decide (sg_Room signal = topic)) ||
       bool_decide (sg_From signal = peerID)
    then None
    else if negb (bool_decide (sg_To signal = "")) && negb (bool_decide (sg_To signal = peerID)) then None
    else if bool_decide (sg_SessionID signal = "") || bool_decide (sg_From signal = "") ||
            (signalTTL <? Abs (Sub now (UnixMilli (sg_CreatedAt signal))))
    then None
    else if negb (is_ok (checkPayload signal)) then None
    else if negb (is_ok (validateSignalPayloadSizes signal)) then None
    else Some signal.
End signaling.

(** ** Identities *)

(** A created peer identity passes the pattern that both sides check. *)
Lemma CreateSignalingPeerID_pattern random id :
  length random = 20%nat -> CreateSignalingPeerID (Ok random) = Ok id -> clientIDPattern id = true.
Proof.
  intros Hl [= <-]. unfold clientIDPattern. rewrite slen_string_of, bytes_of_string_of.
  unfold blen. rewrite length_fmap, Hl. apply andb_true_intro. split; [done|].
  apply forallb_forall. intros b Hb. apply list_elem_of_In, list_elem_of_fmap in Hb as (r & -> & _).
  assert (forallb (fun k => is_alnum (nth k alphabet x00)) (seq 0 62) = true) as H by (by vm_compute).
  rewrite forallb_forall in H. apply H, in_seq.
  change (Z.of_nat (length alphabet)) with 62. pose proof (Z.mod_pos_bound (byte_Z r) 62). lia.
Qed.

(** An info hash always fills the 20 bytes of the tracker protocol. *)
Lemma TorrentInfoHash_length `{!Sha1, !Sha1Laws} topic : slen (TorrentInfoHash topic) = 20.
Proof.
  unfold TorrentInfoHash. rewrite slen_string_of.
  set (f := fun value => format36 (byte_Z value)).
  assert (forall l, (length l <= length (mjoin (f <$> l)))%nat) as Hj.
  { induction l as [|b l IH]; [done|]. change (mjoin (f <$> b :: l)) with (f b ++ mjoin (f <$> l)). rewrite length_app.
    assert (1 <= length (f b))%nat by (unfold f, format36; case_match; simpl; lia).
    cbn [length]. lia. }
  specialize (Hj (sha1 (bytes_of topic))). rewrite length_sha1 in Hj.
  destruct (Z.ltb_spec 20 (blen (mjoin (f <$> sha1 (bytes_of topic))))) as [Hlt|Hge]; unfold blen in *.
  - rewrite length_take. lia.
  - lia.
Qed.

(** ** The sealed payload round trips *)

Definition candidate_ok `{!Floats} (candidate : option (list (string * json))) : Prop :=
  match candidate with None => True | Some c => c <> [] /\ canonical 9999 (JObject c) end.

Lemma payload_printable `{!Floats, !FloatsLaws} sdp candidate :
  ValidString sdp = true -> candidate_ok candidate ->
  printable 10000 (JObject (payload_fields sdp candidate)).
Proof.
  intros Hs Hc. constructor; [lia|..]; unfold payload_fields; rewrite ?fmap_app; apply Forall_app; split.
  - case_bool_decide; repeat constructor.
  - destruct candidate as [[|kv c]|]; repeat constructor.
  - case_bool_decide; repeat constructor. exact Hs.
  - destruct candidate as [[|kv c]|]; [constructor| |constructor].
    destruct Hc as [_ Hc]. apply Forall_cons; split; [by apply canonical_printable in Hc|constructor].
Qed.

Lemma UnmarshalPayload_Marshal `{!Floats, !FloatsLaws} sdp candidate :
  ValidString sdp = true -> candidate_ok candidate ->
  UnmarshalPayload (MarshalPayload sdp candidate) = Some (sdp, candidate).
Proof.
  intros Hs Hc. unfold UnmarshalPayload, MarshalPayload.
  rewrite (parse_document_Marshal _ 10000) by (done || by apply payload_printable).
  cbn [mbind option_bind]. unfold payload_fields.
  assert (forall s, decode_fields s None
    match candidate with None | Some [] => [] | Some candidate => [("candidate", JObject candidate)] end
    = Some (s, candidate)) as Hd.
  { intros s. destruct candidate as [[|kv c]|]; [by destruct Hc| |done]. destruct Hc as [_ Hc].
    apply to_any_canonical in Hc. rewrite to_any_object in Hc. cbn [decode_fields].
    rewrite bool_decide_false, bool_decide_true by done. cbn [default].
    destruct (merge_members [] (kv :: c)) as [m|]; [|done]. by injection Hc as ->. }
  case_bool_decide as E; [subst; apply Hd|]. cbn [app decode_fields]. rewrite bool_decide_true by done. apply Hd.
Qed.

(** ** Additional data *)

Lemma signalAdditionalData_eq s :
  signalAdditionalData s = bytes_of "[2," ++ quote (sg_Room s) ++ x2c :: quote (sg_Type s) ++ x2c ::
    quote (sg_SessionID s) ++ x2c :: quote (sg_From s) ++ x2c :: quote (sg_To s) ++
    x2c :: bytes_of (itoa (sg_CreatedAt s)) ++ [x5d].
Proof.
  unfold signalAdditionalData. cbn [Marshal_json fmap list_fmap commas].
  change (bytes_of (itoa SignalVersion)) with [x32]. change (bytes_of "[2,") with [x5b; x32; x2c].
  cbn [app]. do 3 f_equal. do 6 (rewrite <- ?app_assoc; cbn [app]). reflexivity.
Qed.

Definition metadata_utf8 (s : Signal) : Prop :=
  ValidString (sg_Room s) = true /\ ValidString (sg_Type s) = true /\ ValidString (sg_SessionID s) = true /\
  ValidString (sg_From s) = true /\ ValidString (sg_To s) = true.

Lemma quote_comma_inj s1 s2 r1 r2 :
  ValidString s1 = true -> ValidString s2 = true ->
  quote s1 ++ x2c :: r1 = quote s2 ++ x2c :: r2 -> s1 = s2 /\ r1 = r2.
Proof. intros H1 H2 [-> E]%quote_inj; [|done..]. by injection E. Qed.

(** The additional data determines every field of the metadata. *)
Theorem signal_metadata_bound s1 s2 :
  metadata_utf8 s1 -> metadata_utf8 s2 -> signalAdditionalData s1 = signalAdditionalData s2 ->
  sg_Room s1 = sg_Room s2 /\ sg_Type s1 = sg_Type s2 /\ sg_SessionID s1 = sg_SessionID s2 /\
  sg_From s1 = sg_From s2 /\ sg_To s1 = sg_To s2 /\ sg_CreatedAt s1 = sg_CreatedAt s2.
Proof.
  intros (H1 & H2 & H3 & H4 & H5) (K1 & K2 & K3 & K4 & K5). rewrite !signalAdditionalData_eq. intros E.
  apply app_inv_head in E.
  apply quote_comma_inj in E as [E1 E]; [|done..].
  apply quote_comma_inj in E as [E2 E]; [|done..].
  apply quote_comma_inj in E as [E3 E]; [|done..].
  apply quote_comma_inj in E as [E4 E]; [|done..].
  apply quote_comma_inj in E as [E5 E]; [|done..].
  apply app_inv_tail in E. apply (inj bytes_of) in E. apply (inj pretty) in E. done.
Qed.

(** ** Lengths *)

Lemma length_escape_le fuel l : (length (escape fuel l) <= 6 * length l)%nat.
Proof.
  revert l. induction fuel as [|fuel IH]; intros [|b l]; cbn [escape length]; try lia.
  destruct (byte_Z b <? 128).
  - rewrite length_app. specialize (IH l). assert (length (escape_byte b) <= 6)%nat by (destruct b; vm_compute; lia). lia.
  - destruct (utf8_seq (b :: l)) as [n|] eqn:E.
    + assert (2 <= n <= length (b :: l))%nat as Hn.
      { revert E. unfold utf8_seq. repeat case_match; intros; simplify_eq; simpl; lia. }
      rewrite length_app. specialize (IH (drop n (b :: l))). rewrite length_drop in IH.
      assert (length (if bool_decide (take 3 (b :: l) = [xe2; x80; xa8]) then u_escape 8232
        else if bool_decide (take 3 (b :: l) = [xe2; x80; xa9]) then u_escape 8233 else take n (b :: l)) <= 6 * n)%nat.
      { repeat case_bool_decide; [change (length (u_escape 8232)) with 6%nat; lia
          |change (length (u_escape 8233)) with 6%nat; lia|rewrite length_take; lia]. }
      simpl in *. lia.
    + rewrite length_app. specialize (IH l). change (length (u_escape 65533)) with 6%nat. lia.
Qed.

Lemma blen_quote_le s : blen (quote s) <= 6 * slen s + 2.
Proof.
  unfold quote, blen, slen. cbn [length]. rewrite length_app. cbn [length].
  pose proof (length_escape_le (length (bytes_of s)) (bytes_of s)). lia.
Qed.

(** A payload within the limits stays far below the limit of the sealed format. *)
Lemma MarshalPayload_small s :
  is_ok (validateSignalPayloadSizes s) = true -> blen (MarshalPayload (sg_SDP s) (sg_Candidate s)) + 16 < 2 ^ 32.
Proof.
  unfold validateSignalPayloadSizes. rewrite is_ok_unit, seq_Ok, is_ok_refuse, Z.ltb_ge. intros [Hs Hc].
  pose proof (blen_quote_le (sg_SDP s)). unfold maxSDPBytes in *.
  assert (forall c, sg_Candidate s = Some c -> blen (Marshal_json (JObject c)) <= maxCandidateBytes) as Hcl.
  { intros c E. rewrite E in Hc. by apply refuse_Ok, Z.ltb_ge in Hc. }
  unfold MarshalPayload, payload_fields, maxCandidateBytes in *.
  assert (blen (quote "sdp") = 5 /\ blen (quote "candidate") = 11) as [E1 E2] by (by vm_compute).
  cbn [Marshal_json]. unfold blen. cbn [length]. rewrite length_app. cbn [length].
  unfold blen in *. case_bool_decide; destruct (sg_Candidate s) as [[|kv c]|] eqn:Ec; cbn [app fmap list_fmap commas length fst snd];
    try specialize (Hcl _ eq_refl); cbn [Marshal_json] in *; unfold blen in *;
    repeat (rewrite ?length_app in *; cbn [length] in * ); lia.
Qed.

(** ** Opening is exact *)

Section signaling_properties.
Context `{LP : !Libp2p, CB : !Cbor, CR : !Crypto, FL : !Floats,
  LPL : !Libp2pLaws, CBL : !CborLaws, CRL : !CryptoLaws, FLL : !FloatsLaws}.

Definition acceptable (topic me : string) (now : Time) (s : Signal) : Prop :=
  sg_Version s = SignalVersion /\ sg_Room s = topic /\ sg_From s <> me /\
  clientIDPattern (sg_From s) = true /\
  (sg_To s = "" \/ sg_To s = me /\ clientIDPattern me = true) /\ 8 <= slen (sg_SessionID s) <= 128 /\
  Abs (Sub now (UnixMilli (sg_CreatedAt s))) <= signalTTL /\
  checkPayload s = Ok tt /\ validateSignalPayloadSizes s = Ok tt.

(** A sealed signal for these metadata and payload. *)
Definition sealed_as (token : Token) (s : Signal) (sdp : string) (candidate : option (list (string * json))) : Prop :=
  exists envelope plaintext nonce, DecodeString (sg_Encrypted s) = Some envelope /\
    (forall random, Seal token "signaling" plaintext (signalAdditionalData s) (Some nonce) random = Ok envelope) /\
    UnmarshalPayload plaintext = Some (sdp, candidate).

Lemma to_option_Some {A} (r : result A) a : to_option r = Some a <-> r = Ok a.
Proof. destruct r; naive_solver. Qed.

Lemma signalAdditionalData_set_payload s sdp c :
  signalAdditionalData (set_payload s sdp c) = signalAdditionalData s.
Proof. done. Qed.

Lemma unseal_Some s token o : unseal s token = Some o ->
  exists sdp c, o = set_payload s sdp c /\ sealed_as token s sdp c.
Proof.
  unfold unseal. case_bool_decide; [done|]. rewrite signalAdditionalData_set_payload. intros HU.
  apply bind_Some in HU as (envelope & Hd & HU). apply bind_Some in HU as (plaintext & Ho & HU).
  apply bind_Some in HU as ([sdp c] & Hu & [= <-]). apply to_option_Some in Ho.
  destruct (Open_inv _ _ _ _ _ (Err EOF) Ho) as [nonce Hs].
  exists sdp, c. split; [done|]. exists envelope, plaintext, nonce. split_and!; [done| |done].
  intros random. rewrite <- Hs. done.
Qed.

Lemma openIncoming_checks s topic me token now o :
  openIncoming s topic me token now = Some o ->
  match token with Some token => unseal s token = Some o | None => o = s end /\
  slen (sg_Encrypted s) <= maxEncryptedSignalBytes /\ acceptable topic me now o.
Proof.
  unfold openIncoming. destruct (_ || _) eqn:E0; [done|]. intros H. apply bind_Some in H as (o' & Ho & H).
  assert (sg_SessionID o' = sg_SessionID s /\ sg_From o' = sg_From s /\ sg_To o' = sg_To s) as (Es & Ef & Et).
  { destruct token; [|by simplify_eq]. by apply unseal_Some in Ho as (sdp & c & -> & _). }
  repeat match type of H with (if ?c then None else _) = _ => destruct c eqn:?; [done|] end.
  injection H as <-. rewrite <- Es, <- Ef, <- Et in E0.
  repeat match goal with
  | H : (_ || _) = false |- _ => apply orb_false_iff in H as [? ?]
  | H : negb _ = false |- _ => apply negb_false_iff in H
  | H : (_ <? _) = false |- _ => apply Z.ltb_ge in H
  | H : (_ =? _) = true |- _ => apply Z.eqb_eq in H
  | H : bool_decide _ = true |- _ => apply bool_decide_eq_true in H
  | H : bool_decide _ = false |- _ => apply bool_decide_eq_false in H
  | H : is_ok _ = true |- _ => apply is_ok_unit in H
  end.
  split; [by destruct token; simplify_eq|]. split; [done|]. split_and!; try done.
  destruct (decide (sg_To o' = "")) as [?|Hne]; [by left|right].
  repeat match goal with
  | H : context [bool_decide (sg_To o' = "")] |- _ =>
      rewrite (bool_decide_false _ Hne) in H; cbn [negb andb] in H; apply negb_false_iff in H
  | H : bool_decide _ = true |- _ => apply bool_decide_eq_true in H
  end.
  split; congruence.
Qed.

(** What the size checks and the check of the type leave. *)
Definition within_limits (s : Signal) : Prop :=
  slen (sg_SDP s) <= maxSDPBytes /\
  (forall candidate, sg_Candidate s = Some candidate -> blen (Marshal_json (JObject candidate)) <= maxCandidateBytes).
Definition complete (s : Signal) : Prop :=
  match decide (sg_Type s = "offer" \/ sg_Type s = "answer") with
  | left _ => sg_SDP s <> ""
  | right _ => sg_Type s = "candidate" /\ sg_Candidate s <> None \/ sg_Type s = "bye"
  end.

Lemma validateSignalPayloadSizes_Ok s : validateSignalPayloadSizes s = Ok tt <-> within_limits s.
Proof using Type.
  unfold validateSignalPayloadSizes, within_limits. rewrite seq_Ok, is_ok_refuse, Z.ltb_ge.
  apply and_iff_compat_l. destruct (sg_Candidate s) as [c|]; [|naive_solver].
  rewrite refuse_Ok, Z.ltb_ge. naive_solver.
Qed.
Lemma checkPayload_Ok s : checkPayload s = Ok tt <-> complete s.
Proof using Type.
  unfold checkPayload, complete. destruct (decide _) as [H|H].
  - rewrite bool_decide_true by done. by rewrite refuse_Ok, bool_decide_eq_false.
  - rewrite bool_decide_false by done. case_bool_decide as Hc.
    + rewrite refuse_Ok. destruct (sg_Candidate s) as [c|]; [naive_solver|]. rewrite Hc. naive_solver.
    + case_bool_decide as Hb; naive_solver.
Qed.

(** C6: opening is sound.  With a token, a signal is accepted only if its encrypted part is a [Seal]
    under the token's signaling key of the payload it delivers, with exactly its room, type, session,
    sender, addressee and time as additional data; it is for this room and this peer, from a well-formed
    other peer, no more than 120 s old or ahead whatever its time stamp; an offer or answer has a
    description, a candidate signal a candidate, and no other type but bye is accepted; and it is within
    the limits: the encrypted part at most [maxEncryptedSignalBytes], the session 8 to 128 bytes, the
    description at most [maxSDPBytes] and an encoded candidate at most [maxCandidateBytes]. *)
Theorem signal_open_sound s topic me token now o :
  sane now -> - 2 ^ 63 <= sg_CreatedAt s < 2 ^ 63 ->
  openIncoming s topic me (Some token) now = Some o ->
  sealed_as token s (sg_SDP o) (sg_Candidate o) /\ o = set_payload s (sg_SDP o) (sg_Candidate o) /\
  sg_Version s = SignalVersion /\ sg_Room s = topic /\
  sg_From s <> me /\ clientIDPattern (sg_From s) = true /\ (sg_To s = "" \/ sg_To s = me) /\
  Z.abs (ns now - (sg_CreatedAt s * Millisecond + unixToInternal * nanos)) <= signalTTL /\
  (sg_Type o = "offer" \/ sg_Type o = "answer" -> sg_SDP o <> "") /\
  (sg_Type o = "candidate" -> sg_Candidate o <> None) /\
  sg_Type o ∈ ["offer"; "answer"; "candidate"; "bye"] /\
  slen (sg_Encrypted s) <= maxEncryptedSignalBytes /\ 8 <= slen (sg_SessionID s) <= 128 /\
  slen (sg_SDP o) <= maxSDPBytes /\
  (forall candidate, sg_Candidate o = Some candidate -> blen (Marshal_json (JObject candidate)) <= maxCandidateBytes).
Proof using CRL.
  clear LPL CBL FLL. intros Hn Hc (Hu & He & Ha)%openIncoming_checks. apply unseal_Some in Hu as (sdp & c & -> & Hs).
  destruct Ha as (Hv & Hr & Hf & Hid & Ht & Hlen & Hage & Hp%checkPayload_Ok & [Hz1 Hz2]%validateSignalPayloadSizes_Ok).
  unfold complete in Hp.
  cbn [set_payload sg_SDP sg_Candidate sg_Version sg_Room sg_From sg_To sg_CreatedAt sg_Type sg_SessionID] in *.
  destruct (sane_UnixMilli _ Hc) as [Hsane Hns].
  apply Abs_Sub in Hage; [|done|done|by vm_compute]. rewrite Hns in Hage.
  split_and!; try done; try lia; [naive_solver| | |].
  - intros Ho. by rewrite decide_True in Hp.
  - intros Ho. rewrite decide_False in Hp by (rewrite Ho; naive_solver). rewrite Ho in Hp. naive_solver.
  - destruct (decide _) as [[->| ->]|_]; [set_solver..|]. destruct Hp as [[-> _]| ->]; set_solver.
Qed.

(** What a successful preparation has checked. *)
Lemma prepareOutgoing_Ok s topic from token now random out :
  prepareOutgoing s topic from token now random = Ok out ->
  clientIDPattern from = true /\ checkPayload s = Ok tt /\ validateSignalPayloadSizes s = Ok tt /\
  8 <= slen (sg_SessionID s) <= 128 /\ (sg_To s = "" \/ clientIDPattern (sg_To s) = true) /\
  match token with
  | None => out = stamp s topic from now
  | Some token => exists sealed, out = set_encrypted (set_payload (stamp s topic from now) "" None) (EncodeToString sealed) /\
      Seal token "signaling" (MarshalPayload (sg_SDP s) (sg_Candidate s)) (signalAdditionalData out) None random = Ok sealed
  end.
Proof.
  unfold prepareOutgoing. rewrite !seq_Ok, !is_ok_refuse, !is_ok_unit, negb_false_iff, orb_false_iff, !Z.ltb_ge.
  intros (Hp & Hc & Hz & Hl & Ht & HP). split_and!; try done; try lia.
  - apply andb_false_iff in Ht as [Ht|Ht]; apply negb_false_iff in Ht; [|by right].
    apply bool_decide_eq_true in Ht. by left.
  - destruct token as [token|]; [|by injection HP as <-].
    apply bind_Ok in HP as (sealed & Hs & [= <-]). by exists sealed.
Qed.

Lemma EncodeToString_nonempty l : l <> [] -> EncodeToString l <> "".
Proof.
  intros Hl E. apply (f_equal DecodeString) in E. rewrite DecodeString_EncodeToString in E.
  vm_compute in E. congruence.
Qed.

(** What one peer prepares, with or without a token, another peer of the room
    opens to the same message, stamped with version, room, sender and time, if it is addressed to all
    or to that peer, the clocks differ by less than 120 s and the sealed form is within its limit. *)
Lemma openIncoming_prepareOutgoing s topic from me token now now' random out :
  prepareOutgoing s topic from token now random = Ok out ->
  ValidString (sg_SDP s) = true -> candidate_ok (sg_Candidate s) ->
  slen (sg_Encrypted out) <= maxEncryptedSignalBytes ->
  from <> me -> (sg_To s = "" \/ sg_To s = me) ->
  sane now -> sane now' -> - 2 ^ 53 <= t_sec now < 2 ^ 53 -> Z.abs (ns now' - ns now) + Millisecond <= signalTTL ->
  openIncoming out topic me token now' = Some (set_encrypted (stamp s topic from now) (sg_Encrypted out)).
Proof using CBL CRL FLL.
  intros (Hp & Hc & Hz & Hl & Ht & HP)%prepareOutgoing_Ok Hv Hk He Hne Hto Hn Hn' Hr Ha.
  destruct (toUnixMilli_ns now Hn Hr) as [Hm Hms]. destruct (sane_UnixMilli _ Hm) as [Hsane Hns].
  set (final := set_encrypted (stamp s topic from now) (sg_Encrypted out)).
  assert (sg_SessionID out = sg_SessionID s /\ sg_From out = from /\ sg_To out = sg_To s) as (Es & Ef & Et)
    by (destruct token; [destruct HP as (? & -> & _)|subst out]; done).
  assert (match token with Some token => unseal out token | None => Some out end = Some final) as Hu.
  { destruct token as [token|]; [|by subst]. destruct HP as (sealed & -> & Hs).
    unfold unseal. cbn [set_encrypted sg_Encrypted]. rewrite bool_decide_false; last first.
    { apply EncodeToString_nonempty. intros ->. apply Seal_Ok in Hs as (? & ? & _ & _ & _ & Hs).
      apply Marshal_nonempty in Hs. by vm_compute in Hs. }
    rewrite DecodeString_EncodeToString. cbn [mbind option_bind]. rewrite signalAdditionalData_set_payload.
    erewrite Open_Seal; [|apply MarshalPayload_small; by rewrite Hz|exact Hs].
    cbn [to_option mbind option_bind]. by rewrite UnmarshalPayload_Marshal. }
  unfold openIncoming. rewrite Es, Ef, Et, Hp, !(proj2 (Z.ltb_ge _ _)) by lia. cbn [orb negb].
  assert (negb (bool_decide (sg_To s = "")) && negb (clientIDPattern (sg_To s)) = false) as ->.
  { destruct Ht as [->| ->]; [done|]. by rewrite andb_false_r. }
  rewrite Hu. cbn [mbind option_bind].
  change (sg_Version final) with SignalVersion. change (sg_Room final) with topic. change (sg_From final) with from.
  change (sg_To final) with (sg_To s). change (sg_SessionID final) with (sg_SessionID s).
  change (sg_CreatedAt final) with (toUnixMilli now). change (checkPayload final) with (checkPayload s).
  change (validateSignalPayloadSizes final) with (validateSignalPayloadSizes s).
  rewrite Hc, Hz. rewrite Z.eqb_refl, (bool_decide_true (topic = topic)), (bool_decide_false (from = me)) by done.
  cbn [negb orb is_ok].
  assert (negb (bool_decide (sg_To s = "")) && negb (bool_decide (sg_To s = me)) = false) as ->.
  { destruct Hto as [->| ->]; [done|]. rewrite (bool_decide_true (me = me)) by done. by rewrite andb_false_r. }
  rewrite (bool_decide_false (sg_SessionID s = "")) by (intros E; rewrite E in Hl; change (slen "") with 0 in Hl; lia).
  rewrite (bool_decide_false (from = "")) by (intros E; rewrite E in Hp; discriminate Hp).
  cbn [orb]. rewrite (proj2 (Z.ltb_ge _ _)); [done|].
  apply Abs_Sub; [done|done|by vm_compute|]. rewrite Hns. lia.
Qed.
End signaling_properties.

(** ** Witnesses *)

Module SignalingWitness.
Import Ref.

Definition alice : string := "AliceAliceAliceAlice".
Definition bob : string := "BobBobBobBobBobBobBo".
Definition token : Token := mkToken 1 "12D3peer" 4242 (put_be 32 77) [] None.
Definition candidate : list (string * json) :=
  [("candidate", JString "udp <1>"); ("sdpMLineIndex", JNumber (bytes_of "0"))].
Definition offer : Signal :=
  mkSignal 0 "" "candidate" "session-1" "" bob 0 "" (Some candidate) "".
Definition now : Time := mkTime 63900000000 5000000.
Definition out : Signal :=
  Eval vm_compute in
    match prepareOutgoing offer "topic" alice (Some token) now (Ok (put_be 12 9)) with
    | Ok s => s | Err _ => emptySignal end.

Lemma candidate_canonical : candidate_ok (Some candidate).
Proof.
  split; [done|]. constructor; [lia| |by repeat constructor|].
  - constructor; [repeat constructor|]. constructor; [|constructor]. split; [done|].
    apply (bool_decide_unpack (String.le "candidate" "sdpMLineIndex")). by vm_compute.
  - repeat constructor.
Qed.

Lemma signal_open_sound_witness :
  sealed_as token out "" (Some candidate) /\ sg_Room out = "topic".
Proof.
  destruct (signal_open_sound out "topic" bob token now (set_payload out "" (Some candidate)))
    as (H & _ & _ & Hr & _); [ground|ground|vm_compute; reflexivity|].
  exact (conj H Hr).
Defined.
End SignalingWitness.
