(* ===== verification/NativePeer.v ===== *)
(** One native WebRTC transport and the link that binds it to a stream (the types [nativePeer]
    and [peerLink] of nativewebrtc/endpoint.go).

    A [nativePeer] is a peer connection of the pion library with at most one data channel.  The library
    calls back from its own goroutines; every callback is one transition of the peer's state, and a
    [select] with several ready cases takes the choice as an argument.  Data channels are numbered. *)
From S2P Require Export WebrtcStream.
Local Open Scope Z_scope.

Definition DataChannelLabel : string := "p2p-netcat-v2".
Definition nativeFrameQueueDepth : Z := 128.
Definition maxConcurrentHandshakes : Z := 32.
Definition maxConcurrentHandshakesPeer : Z := 2.
Definition ReconnectGrace : Z := 120 * Second.

Definition DefaultICEServers : list string :=
  ["stun:stun.l.google.com:19302"; "stun:stun1.l.google.com:19302"; "stun:stun2.l.google.com:19302";
   "stun:stun3.l.google.com:19302"; "stun:stun4.l.google.com:19302"; "stun:stun.counterpath.com:3478";
   "stun:stun.sipgate.net:3478"; "stun:stun.voipbuster.com:3478"; "stun:stun.internetcalls.com:3478"].

(** [webrtc.PeerConnectionState]. *)
Inductive connectionState :=
  | StateNew | StateConnecting | StateConnected | StateDisconnected | StateFailed | StateClosed.
#[export] Instance connectionState_eq_dec : EqDecision connectionState.
Proof. solve_decision. Defined.

Record nativePeer := mkPeer {
  np_iceServers : list string;
  np_state : connectionState;
  np_channel : option nat;
  np_frames : list Frame;
  np_open : bool;
  np_closed : bool;
  (** Goroutines that wait 8 s after a disconnection, and channels that were closed. *)
  np_timers : nat;
  np_closedChannels : list nat
}.

Definition set_frames (p : nativePeer) (frames : list Frame) : nativePeer :=
  mkPeer (np_iceServers p) (np_state p) (np_channel p) frames (np_open p) (np_closed p) (np_timers p)
    (np_closedChannels p).
Definition set_state (p : nativePeer) (state : connectionState) : nativePeer :=
  mkPeer (np_iceServers p) state (np_channel p) (np_frames p) (np_open p) (np_closed p) (np_timers p)
    (np_closedChannels p).
Definition set_timers (p : nativePeer) (timers : nat) : nativePeer :=
  mkPeer (np_iceServers p) (np_state p) (np_channel p) (np_frames p) (np_open p) (np_closed p) timers
    (np_closedChannels p).
Definition close_channel (p : nativePeer) (channel : nat) : nativePeer :=
  mkPeer (np_iceServers p) (np_state p) (np_channel p) (np_frames p) (np_open p) (np_closed p) (np_timers p)
    (channel :: np_closedChannels p).

(** [nativePeer.Close]; [connErr] is what closing the connection reports. *)
Definition peer_Close (p : nativePeer) (connErr : option error) : option error * nativePeer :=
  if np_closed p then (None, p)
  else (connErr, mkPeer (np_iceServers p) StateClosed None (np_frames p) (np_open p) true (np_timers p)
          (np_closedChannels p)).
(** [_ = p.Close()]. *)
Definition close_peer (p : nativePeer) : nativePeer := (peer_Close p None).2.

Definition attach (p : nativePeer) (channel : nat) : nativePeer :=
  if np_closed p then p
  else match np_channel p with
  | Some current =>
      if bool_decide (current = channel) then p else close_channel p channel
  | None =>
      mkPeer (np_iceServers p) (np_state p) (Some channel) (np_frames p) (np_open p) (np_closed p)
        (np_timers p) (np_closedChannels p)
  end.

(** [newNativePeer]: the outcome of [NewPeerConnection], and for an initiator that of
    [CreateDataChannel].  Nil servers stand for the default ones. *)
Definition newNativePeer (initiator : bool) (iceServers : option (list string)) (newErr : option error)
    (created : result nat) : result nativePeer :=
  let iceServers := default DefaultICEServers iceServers in
  match newErr with
  | Some err => Err err
  | None =>
      let value := mkPeer iceServers StateNew None [] false false 0 [] in
      if initiator then channel ← created; Ok (attach value channel) else Ok value
  end.

(** The callbacks. *)
Definition onDataChannel (p : nativePeer) (label : string) (channel : nat) : nativePeer :=
  if negb (bool_decide (label = DataChannelLabel)) then close_channel p channel else attach p channel.

Definition onConnectionStateChange (p : nativePeer) (state : connectionState) : nativePeer :=
  let p := set_state p state in
  match state with
  | StateFailed | StateClosed => close_peer p
  | StateDisconnected => set_timers p (S (np_timers p))
  | _ => p
  end.

(** The goroutine after a disconnection: its timer fires, or the peer is closed first. *)
Definition onDisconnectTimer (p : nativePeer) (fired : bool) : nativePeer :=
  let p := set_timers p (pred (np_timers p)) in
  if fired && bool_decide (np_state p = StateDisconnected) then close_peer p else p.

Definition onOpen (p : nativePeer) : nativePeer :=
  mkPeer (np_iceServers p) (np_state p) (np_channel p) (np_frames p) true (np_closed p) (np_timers p)
    (np_closedChannels p).

(** A message of the data channel; [pick] decides between room in the queue and a closed peer. *)
Definition onMessage (p : nativePeer) (data : list byte) (pick : bool) : nativePeer :=
  match DecodeFrame data with
  | Err _ => close_peer p
  | Ok frame =>
      let room := Z.of_nat (length (np_frames p)) <? nativeFrameQueueDepth in
      if room && (negb (np_closed p) || pick) then set_frames p (np_frames p ++ [frame])
      else if np_closed p then p
      else close_peer p
  end.

Definition onClose (p : nativePeer) : nativePeer := close_peer p.
Definition onError (p : nativePeer) : nativePeer := close_peer p.

(** [nativePeer.Send]: waits for the channel to open or the peer to close; [pick] decides when both
    have happened.  [sendErr] is the outcome of [channel.Send]. *)
Definition peer_Send (p : nativePeer) (frame : Frame) (pick : bool) (sendErr : option error)
    : option (option error * list (list byte)) :=
  if np_open p && (negb (np_closed p) || pick) then
    match np_channel p with
    | None => Some (Some ErrClosedPipe, [])
    | Some _ => Some (sendErr, match sendErr with
                               | None => [EncodeFrame (fr_Type frame) (fr_Payload frame)]
                               | Some _ => []
                               end)
    end
  else if np_closed p then Some (Some ErrClosedPipe, [])
  else None.

(** One round of [forwardFrames]: the frame at the head goes to the stream, or the closed peer is
    noticed; [None] while neither is ready. *)
Definition forwardFrames (p : nativePeer) (s : Stream) (pick : bool)
    : option (option error * nativePeer * Stream * list Frame) :=
  match np_frames p with
  | frame :: rest =>
      if negb (np_closed p) || pick then
        let '(err, s, replies) := Receive s frame in Some (err, set_frames p rest, s, replies)
      else Some (Some (ErrNew "native WebRTC peer disconnected"), p, s, [])
  | [] =>
      if np_closed p then Some (Some (ErrNew "native WebRTC peer disconnected"), p, s, []) else None
  end.

(** ** Links *)

(** Transports are numbered; a stream keeps its link across transports. *)
Record peerLink := mkLink { lk_peer : option nat; lk_closed : bool }.

Definition newPeerLink (peer : nat) : peerLink := mkLink (Some peer) false.

(** [peerLink.Send] up to the call of the peer's [Send]: [None] while the link waits for a
    transport. *)
Definition link_Send (l : peerLink) : option (result nat) :=
  if lk_closed l then Some (Err ErrClosedPipe)
  else match lk_peer l with Some peer => Some (Ok peer) | None => None end.

Definition link_Attach (l : peerLink) (peer : nat) : bool * peerLink :=
  if lk_closed l || bool_decide (is_Some (lk_peer l)) then (false, l)
  else (true, mkLink (Some peer) (lk_closed l)).

Definition link_Detach (l : peerLink) (peer : nat) : bool * peerLink :=
  if bool_decide (lk_peer l = Some peer) then (true, mkLink None (lk_closed l)) else (false, l).

(** [peerLink.Close]: the link and the transport to close, if any. *)
Definition link_Close (l : peerLink) : peerLink * option nat :=
  if lk_closed l then (l, None) else (mkLink None true, lk_peer l).

(** [peerLink.Interrupt]: the transport to close. *)
Definition link_Interrupt (l : peerLink) : result nat :=
  of_option (ErrNew "native WebRTC transport is already reconnecting") (lk_peer l).

(** ** The frame queue *)

(** A transport with the messages it was handed and the frames taken from its queue. *)
Record peer_run := mkRun { pr_peer : nativePeer; pr_messages : list (list byte); pr_taken : list Frame }.

Inductive run_step (r : peer_run) : peer_run -> Prop :=
  | run_dataChannel label channel :
      run_step r (mkRun (onDataChannel (pr_peer r) label channel) (pr_messages r) (pr_taken r))
  | run_state state :
      run_step r (mkRun (onConnectionStateChange (pr_peer r) state) (pr_messages r) (pr_taken r))
  | run_timer fired : np_timers (pr_peer r) <> 0%nat ->
      run_step r (mkRun (onDisconnectTimer (pr_peer r) fired) (pr_messages r) (pr_taken r))
  | run_open : run_step r (mkRun (onOpen (pr_peer r)) (pr_messages r) (pr_taken r))
  | run_message data pick :
      run_step r (mkRun (onMessage (pr_peer r) data pick) (pr_messages r ++ [data]) (pr_taken r))
  | run_close connErr : run_step r (mkRun (peer_Close (pr_peer r) connErr).2 (pr_messages r) (pr_taken r))
  | run_take frame rest : np_frames (pr_peer r) = frame :: rest ->
      run_step r (mkRun (set_frames (pr_peer r) rest) (pr_messages r) (pr_taken r ++ [frame])).

Inductive run_init : peer_run -> Prop :=
  | run_new initiator ice created p :
      newNativePeer initiator ice None created = Ok p -> run_init (mkRun p [] []).

(** The frames of the messages that decode, in order. *)
Definition decoded (messages : list (list byte)) : list Frame :=
  omap (fun data => to_option (DecodeFrame data)) messages.

Lemma decoded_snoc l data : decoded (l ++ [data]) =
  decoded l ++ match DecodeFrame data with Ok frame => [frame] | Err _ => [] end.
Proof. unfold decoded. rewrite omap_app. f_equal. simpl. by destruct (DecodeFrame data). Qed.

Record run_ok (r : peer_run) : Prop := {
  run_depth : Z.of_nat (length (np_frames (pr_peer r))) <= nativeFrameQueueDepth;
  run_order : (pr_taken r ++ np_frames (pr_peer r)) `sublist_of` decoded (pr_messages r);
  run_live : np_closed (pr_peer r) = false ->
    pr_taken r ++ np_frames (pr_peer r) = decoded (pr_messages r) /\
    Forall (fun data => is_ok (DecodeFrame data) = true) (pr_messages r);
  run_closed : np_closed (pr_peer r) = true -> np_channel (pr_peer r) = None
}.

(** What the transitions other than messages and takes keep. *)
Lemma run_ok_keep r p :
  run_ok r -> np_frames p = np_frames (pr_peer r) ->
  (np_closed p = false -> np_closed (pr_peer r) = false) ->
  (np_closed p = true -> np_channel p = None) ->
  run_ok (mkRun p (pr_messages r) (pr_taken r)).
Proof. intros [H1 H2 H3 H4] Ef Ec Ed. split; cbn [pr_peer pr_messages pr_taken]; rewrite ?Ef; auto. Qed.

Lemma close_peer_facts p :
  np_frames (close_peer p) = np_frames p /\ np_closed (close_peer p) = true /\
  (np_closed p = false -> np_channel (close_peer p) = None) /\
  (np_closed p = true -> close_peer p = p).
Proof. unfold close_peer, peer_Close. destruct (np_closed p) eqn:E; simpl; split_and!; done. Qed.

Lemma run_ok_close r p :
  run_ok r -> np_frames p = np_frames (pr_peer r) -> np_closed p = np_closed (pr_peer r) ->
  np_channel p = np_channel (pr_peer r) ->
  run_ok (mkRun (close_peer p) (pr_messages r) (pr_taken r)).
Proof.
  intros H Ef Ec Eh. destruct (close_peer_facts p) as (F1 & F2 & F3 & F4).
  apply run_ok_keep; [done|congruence|congruence|]. intros _.
  destruct (np_closed p) eqn:E; [|auto]. rewrite F4, Eh by done. apply (run_closed r H). congruence.
Qed.

Lemma attach_keep p channel :
  np_frames (attach p channel) = np_frames p /\ np_closed (attach p channel) = np_closed p /\
  (np_closed p = true -> attach p channel = p).
Proof. unfold attach. destruct (np_closed p) eqn:E; [done|]. repeat case_match; done. Qed.

Lemma run_step_ok r r' : run_ok r -> run_step r r' -> run_ok r'.
Proof.
  intros H Hs. pose proof (run_closed r H) as Hc. destruct Hs as [label channel|state|fired Ht| |data pick|connErr|frame rest E].
  - unfold onDataChannel. destruct (attach_keep (pr_peer r) channel) as (F1 & F2 & F3).
    case_match; apply run_ok_keep; try done; [congruence|]. rewrite F2. intros E. by rewrite F3, Hc.
  - unfold onConnectionStateChange. destruct state;
      first [by apply run_ok_close | apply run_ok_keep; done].
  - unfold onDisconnectTimer. case_match; [by apply run_ok_close|by apply run_ok_keep].
  - by apply run_ok_keep.
  - destruct H as [H1 H2 H3 H4]. unfold onMessage. pose proof (decoded_snoc (pr_messages r) data) as Es.
    destruct (DecodeFrame data) as [frame|e] eqn:Ed.
    + destruct (Z.ltb_spec (Z.of_nat (length (np_frames (pr_peer r)))) nativeFrameQueueDepth) as [Hlt|Hge].
      * cbn [andb]. destruct (negb _ || pick) eqn:Ep.
        -- split; cbn [pr_peer pr_messages pr_taken set_frames np_frames np_closed np_channel]; [|rewrite Es, app_assoc..|done].
           ++ rewrite length_app. cbn [length]. lia.
           ++ by apply sublist_app.
           ++ intros Eo. destruct (H3 Eo) as [-> H5]. split; [done|]. apply Forall_app. split; [done|].
              repeat constructor. by rewrite Ed.
        -- apply orb_false_iff in Ep as [Ep _]. apply negb_false_iff in Ep. rewrite Ep.
           split; cbn [pr_peer pr_messages pr_taken]; [done|rewrite Es; by apply sublist_inserts_r|congruence|auto].
      * cbn [andb]. destruct (np_closed (pr_peer r)) eqn:Ep.
        -- split; cbn [pr_peer pr_messages pr_taken]; [done|rewrite Es; by apply sublist_inserts_r|congruence|auto].
        -- destruct (close_peer_facts (pr_peer r)) as (F1 & F2 & F3 & F4).
           split; cbn [pr_peer pr_messages pr_taken]; rewrite ?F1, ?F2;
             [done|rewrite Es; by apply sublist_inserts_r|congruence|auto].
    + destruct (close_peer_facts (pr_peer r)) as (F1 & F2 & F3 & F4).
      split; cbn [pr_peer pr_messages pr_taken]; rewrite ?F1, ?F2, ?Es, ?app_nil_r; [done|done|congruence|].
      intros _. destruct (np_closed (pr_peer r)) eqn:Ep; [rewrite F4 by done; auto|auto].
  - unfold peer_Close. destruct (np_closed (pr_peer r)) eqn:Ep; simpl; apply run_ok_keep; try done. auto.
  - destruct H as [H1 H2 H3 H4]. rewrite E in *. split; cbn [pr_peer pr_messages pr_taken set_frames np_frames np_closed np_channel];
      rewrite <- ?app_assoc; cbn [app]; try done. cbn [length] in H1. lia.
Qed.

(** C34: no silent loss.  In every run of a transport its queue holds at most 128 frames and the frames
    taken and queued are, in order, frames of the messages it was handed.  As long as it is not closed
    they are all of them and every message was a frame: overload and malformed messages close it. *)
Theorem native_peer_no_silent_loss r :
  reachable run_init run_step r ->
  Z.of_nat (length (np_frames (pr_peer r))) <= nativeFrameQueueDepth /\
  (pr_taken r ++ np_frames (pr_peer r)) `sublist_of` decoded (pr_messages r) /\
  (np_closed (pr_peer r) = false ->
   pr_taken r ++ np_frames (pr_peer r) = decoded (pr_messages r) /\
   Forall (fun data => is_ok (DecodeFrame data) = true) (pr_messages r)).
Proof.
  intros H. assert (run_ok r) as [H1 H2 H3 _]; [|done]. revert r H. apply invariant.
  - intros r [initiator ice created p Hn]. cbn [newNativePeer] in Hn.
    assert (np_frames p = [] /\ np_closed p = false) as [Ef Ec].
    { destruct initiator; inv_ok; [|done]. unfold attach. done. }
    split; cbn [pr_peer pr_messages pr_taken]; rewrite ?Ef, ?Ec; done.
  - intros r r' _. apply run_step_ok.
Qed.

Module NativePeerWitness.
Definition p0 : nativePeer := mkPeer DefaultICEServers StateNew (Some 1%nat) [] false false 0 [].
Definition p1 : nativePeer := onMessage p0 (EncodeFrame FrameData [x07]) true.

Lemma native_peer_no_silent_loss_witness :
  [] ++ np_frames p1 = decoded [EncodeFrame FrameData [x07]].
Proof.
  apply (native_peer_no_silent_loss (mkRun p1 [EncodeFrame FrameData [x07]] [])); [|reflexivity].
  apply (reach_step _ _ (mkRun p0 [] [])).
  - apply reach_init. exact (run_new true None (Ok 1%nat) p0 eq_refl).
  - exact (run_message (mkRun p0 [] []) (EncodeFrame FrameData [x07]) true).
Defined.
End NativePeerWitness.
