(* ===== verification/Handshake.v ===== *)
(** Establishing an authenticated native WebRTC transport: the offering and the answering side of
    nativewebrtc/endpoint.go ([dialAuthenticatedPeer], [answerNativeOffer] and the negotiation
    steps of [nativePeer] they use).

    A run is a function of what its environment does: the outcomes of the WebRTC library, of the
    signaling session and of the random source, and for every [select] what it receives.  It yields
    the published signals, the frames sent and whether the transport was closed, and returns, fails or
    still waits. *)
From S2P Require Export Signaling NativePeer.
From S2P Require Import ExtModel.
Local Open Scope Z_scope.

Inductive effect :=
  | Published (s : Signal)
  | Sent (f : Frame)
  | ClosedPeer.

Inductive outcome (A : Type) :=
  | Done (a : A)
  | Failed (e : error)
  | Waiting.
Arguments Done {_} _.
Arguments Failed {_} _.
Arguments Waiting {_}.

(** Computations with effects, in order. *)
Definition run (A : Type) : Type := list effect * outcome A.
#[export] Instance run_ret : MRet run := fun _ a => ([], Done a).
#[export] Instance run_bind : MBind run := fun _ _ f m =>
  match m.2 with
  | Done a => let '(effects, o) := f a in (m.1 ++ effects, o)
  | Failed e => (m.1, Failed e)
  | Waiting => (m.1, Waiting)
  end.
Definition emit (e : effect) : run unit := ([e], Done tt).
Definition throw {A} (e : error) : run A := ([], Failed e).
Definition lift {A} (r : result A) : run A :=
  match r with Ok a => mret a | Err e => throw e end.
Definition check (e : option error) : run unit :=
  match e with Some e => throw e | None => mret tt end.
Definition wait {A} (o : option A) : run A :=
  match o with Some a => mret a | None => ([], Waiting) end.
(** [if err := m; err != nil { _ = closePeer(); return nil, err }]: [closePeer] publishes a goodbye
    and closes the transport. *)
Definition or_close {A} (bye : Signal) (m : run A) : run A :=
  match m.2 with
  | Failed e => (m.1 ++ [Published bye; ClosedPeer], Failed e)
  | _ => m
  end.

(** ** Negotiation *)

(** What the peer connection does when a description is created and set. *)
Record negotiation := mkNegotiation {
  ng_setRemote : option error;
  ng_create : option error;
  ng_setLocal : option error;
  (** [None] when gathering completes before the context ends. *)
  ng_gathering : option error;
  ng_localSDP : string
}.

Definition signal_of (type sessionID to sdp : string) : Signal :=
  mkSignal 0 "" type sessionID "" to 0 sdp None "".

(** [startOffer]; yields the description that was handed to [publish]. *)
Definition startOffer (ng : negotiation) (publishErr : option error) (sessionID : string) : run string :=
  check (ng_create ng);;
  check (ng_setLocal ng);;
  check (ng_gathering ng);;
  emit (Published (signal_of "offer" sessionID "" (ng_localSDP ng)));;
  check publishErr;;
  mret (ng_localSDP ng).

Definition acceptOffer (ng : negotiation) (publishErr : option error) (offer : Signal) : run string :=
  check (ng_setRemote ng);;
  check (ng_create ng);;
  check (ng_setLocal ng);;
  check (ng_gathering ng);;
  emit (Published (signal_of "answer" (sg_SessionID offer) (sg_From offer) (ng_localSDP ng)));;
  check publishErr;;
  mret (ng_localSDP ng).

Definition acceptAnswer (ng : negotiation) : run unit := check (ng_setRemote ng).

(** ** The offering side *)

Inductive signal_event :=
  | SignalIn (s : Signal)
  | SignalingClosed
  | SignalCtxDone (e : error).

(** The loop that waits for the answer of this session. *)
Fixpoint awaitAnswer (sessionID me : string) (events : list signal_event) : run Signal :=
  match events with
  | [] => wait None
  | SignalingClosed :: _ => throw (ErrNew "native WebRTC signaling session closed")
  | SignalCtxDone e :: _ => throw e
  | SignalIn signal :: events =>
      if negb (bool_decide (sg_SessionID signal = sessionID)) || negb (bool_decide (sg_To signal = me))
      then awaitAnswer sessionID me events
      else if bool_decide (sg_Type signal = "answer") then mret signal
      else awaitAnswer sessionID me events
  end.

Inductive open_event := ChannelOpen | ChannelClosed | OpenCtxDone (e : error).
Inductive frame_event := FrameIn (f : Frame) | FrameCtxDone (e : error).

Definition awaitOpen (event : open_event) : run unit :=
  match event with
  | ChannelOpen => mret tt
  | ChannelClosed => throw (ErrNew "native WebRTC data channel closed before authentication")
  | OpenCtxDone e => throw e
  end.

Record dial_env := mkDial {
  dl_random : result (list byte);
  dl_peer : result nativePeer;
  dl_negotiation : negotiation;
  dl_publishErr : option error;
  dl_signals : list signal_event;
  dl_opening : option open_event;
  dl_challenge : result (list byte);
  dl_sendChallenge : option error;
  dl_response : option frame_event;
  dl_sendReady : option error
}.

Section handshake.
Context `{LP : !Libp2p, KS : !Keys, CR : !Crypto}.

(** The check of the frame that answers the challenge. *)
Definition checkResponse (event : frame_event) (expected : string) (service : Z) (challenge : list byte)
    (transcript : AuthTranscript) : run unit :=
  match event with
  | FrameCtxDone e => throw e
  | FrameIn frame =>
      if negb (bool_decide (fr_Type frame = FrameAuthResponse))
      then throw (Errorf "expected a WebRTC auth response, received frame %d" [AInt (byte_Z (fr_Type frame))])
      else
        ok ← lift (VerifyAuthResponseV2 (fr_Payload frame) expected service challenge transcript);
        if ok : bool then mret tt else throw (ErrNew "native WebRTC PeerId authentication failed")
  end.

(** [dialAuthenticatedPeer] for a signaling session whose own peer is [me]; it yields the
    transport and the transcript it authenticated. *)
Definition dialAuthenticatedPeer (env : dial_env) (me expected : string) (service : Z)
    : run (nativePeer * AuthTranscript) :=
  sessionID ← lift (CreateSignalingSessionID (dl_random env));
  p2p ← lift (dl_peer env);
  let bye := signal_of "bye" sessionID "" "" in
  offerSDP ← or_close bye (startOffer (dl_negotiation env) (dl_publishErr env) sessionID);
  answer ← or_close bye (awaitAnswer sessionID me (dl_signals env));
  or_close bye (acceptAnswer (dl_negotiation env));;
  let transcript := mkTranscript sessionID offerSDP (sg_SDP answer) in
  opening ← wait (dl_opening env);
  or_close bye (awaitOpen opening);;
  challenge ← or_close bye (lift (dl_challenge env));
  or_close bye (check (dl_sendChallenge env));;
  emit (Sent (mkFrame FrameAuthChallenge challenge));;
  response ← wait (dl_response env);
  or_close bye (checkResponse response expected service challenge transcript);;
  or_close bye (check (dl_sendReady env));;
  emit (Sent (mkFrame FrameAuthReady []));;
  mret (p2p, transcript).

(** ** The answering side *)

Inductive answer_event :=
  | AnswerFrame (f : Frame) (sendErr : option error)
  | AnswerCtxDone (e : error)
  | AnswerPeerClosed.

(** The loop of [answerNativeOffer]; [sendErr] of a frame is the outcome of sending the response
    to it. *)
Fixpoint answerLoop (privateKey : option PrivKey) (service : Z) (bye : Signal) (transcript : AuthTranscript)
    (challengeAnswered : bool) (events : list answer_event) : run unit :=
  match events with
  | [] => wait None
  | AnswerFrame frame sendErr :: events =>
      if bool_decide (fr_Type frame = FrameAuthChallenge) then
        match SignAuthResponseV2 privateKey service (fr_Payload frame) transcript, sendErr with
        | Ok response, None =>
            emit (Sent (mkFrame FrameAuthResponse response));;
            answerLoop privateKey service bye transcript true events
        | _, _ => or_close bye (throw (ErrNew "send native WebRTC auth response"))
        end
      else if bool_decide (fr_Type frame = FrameAuthReady) then
        if negb challengeAnswered
        then or_close bye (throw (ErrNew "native WebRTC auth ready was received before the challenge"))
        else mret tt
      else or_close bye (throw (Errorf "unexpected native WebRTC auth frame: %d" [AInt (byte_Z (fr_Type frame))]))
  | AnswerCtxDone e :: _ => or_close bye (throw e)
  | AnswerPeerClosed :: _ => throw (ErrNew "native WebRTC peer closed during authentication")
  end.

Record answer_env := mkAnswer {
  an_peer : result nativePeer;
  an_negotiation : negotiation;
  an_publishErr : option error;
  an_events : list answer_event
}.

Definition answerNativeOffer (env : answer_env) (privateKey : option PrivKey) (service : Z) (offer : Signal)
    : run (nativePeer * AuthTranscript) :=
  p2p ← lift (an_peer env);
  let bye := signal_of "bye" (sg_SessionID offer) (sg_From offer) "" in
  answerSDP ← or_close bye (acceptOffer (an_negotiation env) (an_publishErr env) offer);
  let transcript := mkTranscript (sg_SessionID offer) (sg_SDP offer) answerSDP in
  answerLoop privateKey service bye transcript false (an_events env);;
  mret (p2p, transcript).
End handshake.

(** ** Inverting runs *)

Lemma run_bind_Done {A B} (m : run A) (f : A -> run B) eff b :
  m ≫= f = (eff, Done b) <->
  exists e1 a e2, m = (e1, Done a) /\ f a = (e2, Done b) /\ eff = e1 ++ e2.
Proof.
  destruct m as [e1 [a|e|]]; unfold mbind, run_bind; cbn [fst snd]; [|naive_solver..].
  destruct (f a) as [e2 o] eqn:E. split.
  - intros [= <- ->]. eauto 10.
  - intros (? & ? & ? & [= <- <-] & E' & ->). rewrite E in E'. by injection E' as -> ->.
Qed.

Lemma or_close_Done {A} bye (m : run A) eff a : or_close bye m = (eff, Done a) <-> m = (eff, Done a).
Proof. destruct m as [e [|?|]]; unfold or_close; simpl; naive_solver. Qed.
Lemma lift_Done {A} (r : result A) eff a : lift r = (eff, Done a) <-> eff = [] /\ r = Ok a.
Proof. destruct r; unfold lift, throw, mret, run_ret; naive_solver. Qed.
Lemma check_Done e eff u : check e = (eff, Done u) <-> eff = [] /\ e = None.
Proof. destruct e, u; unfold check, throw, mret, run_ret; naive_solver. Qed.
Lemma wait_Done {A} (o : option A) eff a : wait o = (eff, Done a) <-> eff = [] /\ o = Some a.
Proof. destruct o; unfold wait, mret, run_ret; naive_solver. Qed.
Lemma emit_Done e eff u : emit e = (eff, Done u) <-> eff = [e].
Proof. destruct u. unfold emit. naive_solver. Qed.
Lemma ret_Done {A} (x : A) eff a : (mret x : run A) = (eff, Done a) <-> eff = [] /\ a = x.
Proof. unfold mret, run_ret. naive_solver. Qed.

(** Inverts a run that returned. *)
Ltac inv_run :=
  repeat match goal with
  | H : (_ ≫= _) = (_, Done _) |- _ => apply run_bind_Done in H as (? & ? & ? & ? & H & ?)
  | H : or_close _ _ = (_, Done _) |- _ => apply or_close_Done in H
  | H : lift _ = (_, Done _) |- _ => apply lift_Done in H as [? ?]
  | H : check _ = (_, Done _) |- _ => apply check_Done in H as [? ?]
  | H : wait _ = (_, Done _) |- _ => apply wait_Done in H as [? ?]
  | H : emit _ = (_, Done _) |- _ => apply emit_Done in H
  | H : mret _ = (_, Done _) |- _ => apply ret_Done in H as [? ?]
  | H : throw _ = (_, Done _) |- _ => discriminate H
  | u : unit |- _ => destruct u
  end.

Lemma awaitAnswer_Done sessionID me events eff answer :
  awaitAnswer sessionID me events = (eff, Done answer) ->
  eff = [] /\ SignalIn answer ∈ events /\ sg_Type answer = "answer" /\
  sg_SessionID answer = sessionID /\ sg_To answer = me.
Proof.
  induction events as [|[s| |e] events IH]; cbn [awaitAnswer]; intros H; try discriminate H.
  destruct (negb _ || negb _) eqn:E.
  - destruct (IH H) as (? & ? & ?). split_and!; try done; [by apply list_elem_of_further|naive_solver..].
  - case_bool_decide as Et.
    + inv_run. subst. apply orb_false_iff in E as [E1 E2].
      apply negb_false_iff, bool_decide_eq_true in E1, E2. by repeat split; try done; apply list_elem_of_here.
    + destruct (IH H) as (? & ? & ?). split_and!; try done; [by apply list_elem_of_further|naive_solver..].
Qed.

(** Signals of other sessions or peers are skipped. *)
Lemma awaitAnswer_skip sessionID me noise answer rest :
  Forall (fun s => sg_SessionID s <> sessionID \/ sg_To s <> me \/ sg_Type s <> "answer") noise ->
  sg_Type answer = "answer" -> sg_SessionID answer = sessionID -> sg_To answer = me ->
  awaitAnswer sessionID me ((SignalIn <$> noise) ++ SignalIn answer :: rest) = mret answer.
Proof.
  intros Hn Ht Hs Ho. induction Hn as [|s noise Hs' Hn IH]; cbn [fmap list_fmap app awaitAnswer].
  - rewrite Ht, Hs, Ho. by rewrite !bool_decide_true.
  - destruct (negb _ || negb _) eqn:E; [done|]. apply orb_false_iff in E as [E1 E2].
    apply negb_false_iff, bool_decide_eq_true in E1, E2. rewrite bool_decide_false; [done|naive_solver].
Qed.

Section handshake_lemmas.
Context `{LP : !Libp2p, KS : !Keys, CR : !Crypto}.

Lemma checkResponse_Done event expected service challenge tr eff u :
  checkResponse event expected service challenge tr = (eff, Done u) ->
  eff = [] /\ exists r, event = FrameIn (mkFrame FrameAuthResponse r) /\
    VerifyAuthResponseV2 r expected service challenge tr = Ok true.
Proof.
  destruct event as [[t r]|e]; cbn [checkResponse fr_Type fr_Payload]; [|done].
  case_bool_decide as E; [|done]. cbn [negb]. subst t. intros H. inv_run. subst.
  match goal with H : (if ?b then _ else _) = _ |- _ => destruct b; [|discriminate H] end. inv_run. subst.
  split; [done|]. eauto.
Qed.

(** What a returning dialer has done. *)
Lemma dial_Done env me expected service eff p tr :
  dialAuthenticatedPeer env me expected service = (eff, Done (p, tr)) ->
  exists sessionID challenge answer r,
    CreateSignalingSessionID (dl_random env) = Ok sessionID /\ dl_peer env = Ok p /\
    eff = [Published (signal_of "offer" sessionID "" (ng_localSDP (dl_negotiation env)));
           Sent (mkFrame FrameAuthChallenge challenge); Sent (mkFrame FrameAuthReady [])] /\
    SignalIn answer ∈ dl_signals env /\ sg_Type answer = "answer" /\ sg_SessionID answer = sessionID /\
    sg_To answer = me /\ dl_opening env = Some ChannelOpen /\
    tr = mkTranscript sessionID (ng_localSDP (dl_negotiation env)) (sg_SDP answer) /\
    dl_challenge env = Ok challenge /\ dl_response env = Some (FrameIn (mkFrame FrameAuthResponse r)) /\
    VerifyAuthResponseV2 r expected service challenge tr = Ok true.
Proof.
  unfold dialAuthenticatedPeer, startOffer, acceptAnswer. intros H. inv_run. simplify_eq.
  repeat match goal with
  | H : awaitAnswer _ _ _ = _ |- _ => apply awaitAnswer_Done in H as (-> & ? & ? & ? & ?)
  | H : checkResponse _ _ _ _ _ = _ |- _ => apply checkResponse_Done in H as (-> & ? & -> & ?)
  | H : awaitOpen ?o = _ |- _ => destruct o; try discriminate H; injection H as <-
  end.
  do 4 eexists. split_and!; try done. 
Qed.
End handshake_lemmas.

(** ** Nothing is left open *)

(** A run that fails ends by publishing the goodbye and closing its transport, which happens in
    no other case. *)
Definition tidy {A} (bye : Signal) (m : run A) : Prop :=
  match m.2 with
  | Failed _ => exists pre, m.1 = pre ++ [Published bye; ClosedPeer] /\ ClosedPeer ∉ pre
  | _ => ClosedPeer ∉ m.1
  end.

Lemma tidy_bind {A B} bye (m : run A) (f : A -> run B) :
  tidy bye m -> (forall a, m.2 = Done a -> tidy bye (f a)) -> tidy bye (m ≫= f).
Proof.
  unfold tidy, mbind, run_bind. destruct m as [e1 [a|e|]]; cbn [fst snd]; intros Hm Hf; [|done..].
  specialize (Hf a eq_refl). destruct (f a) as [e2 [b|e|]]; cbn [fst snd] in *; [set_solver| |set_solver].
  destruct Hf as (pre & -> & Hp). exists (e1 ++ pre). split; [by rewrite app_assoc|set_solver].
Qed.

Lemma tidy_or_close {A} bye (m : run A) : ClosedPeer ∉ m.1 -> tidy bye (or_close bye m).
Proof. unfold tidy, or_close. destruct m as [e [a|err|]]; cbn [fst snd]; intros H; eauto. Qed.

Lemma tidy_quiet {A} bye (m : run A) : ClosedPeer ∉ m.1 -> (forall e, m.2 <> Failed e) -> tidy bye m.
Proof. unfold tidy. destruct m as [e [a|err|]]; cbn [fst snd]; intros H Hf; [done| |done]. by destruct (Hf err). Qed.

Lemma bind_quiet {A B} (m : run A) (f : A -> run B) :
  ClosedPeer ∉ m.1 -> (forall a, ClosedPeer ∉ (f a).1) -> ClosedPeer ∉ (m ≫= f).1.
Proof.
  unfold mbind, run_bind. destruct m as [e1 [a|e|]]; cbn [fst snd]; intros Hm Hf; [|done..].
  specialize (Hf a). destruct (f a); cbn [fst] in *. set_solver.
Qed.

Ltac quiet := repeat (apply bind_quiet; [|intros]);
  unfold check, wait, lift, throw, emit, mret, run_ret; repeat case_match; cbn [fst]; set_solver.

Lemma lift_bind {A B} (a : A) (f : A -> run B) : lift (Ok a) ≫= f = f a.
Proof. unfold lift, mret, run_ret, mbind, run_bind. cbn [fst snd app]. by destruct (f a). Qed.

(** Sequencing when a run may also end with its transport closed from outside. *)
Lemma tidy_or_bind {A B} bye P (m : run A) (f : A -> run B) :
  tidy bye m -> (forall a, tidy bye (f a) \/ P /\ ClosedPeer ∉ (f a).1) ->
  tidy bye (m ≫= f) \/ P /\ ClosedPeer ∉ (m ≫= f).1.
Proof.
  intros Hm Hf. destruct m as [e1 [a|e|]] eqn:E; [|by left..].
  destruct (Hf a) as [Ht|[HP Hq]]; [left|right].
  - apply tidy_bind; [done|]. by intros a' [= <-].
  - split; [done|]. unfold tidy in Hm. unfold mbind, run_bind. cbn [fst snd] in *.
    destruct (f a); cbn [fst] in *. set_solver.
Qed.

Lemma tidy_or_bind' {A B} bye P (m : run A) (f : A -> run B) :
  tidy bye m \/ P /\ ClosedPeer ∉ m.1 -> (forall a, tidy bye (f a)) ->
  tidy bye (m ≫= f) \/ P /\ ClosedPeer ∉ (m ≫= f).1.
Proof.
  intros [Hm|[HP Hq]] Hf; [left; by apply tidy_bind|].
  destruct m as [e1 [a|e|]] eqn:E; [|by right..]. left. by apply tidy_bind.
Qed.

Lemma awaitAnswer_quiet sessionID me events : ClosedPeer ∉ (awaitAnswer sessionID me events).1.
Proof.
  induction events as [|[s| |e] events IH]; cbn [awaitAnswer]; try (cbn; set_solver). repeat case_match; try done. cbn. set_solver.
Qed.

Section handshake_properties.
Context `{LP : !Libp2p, KS : !Keys, CR : !Crypto}.

Lemma checkResponse_quiet event expected service challenge tr :
  ClosedPeer ∉ (checkResponse event expected service challenge tr).1.
Proof. unfold checkResponse. destruct event; repeat case_match; quiet. Qed.

Lemma dial_tidy env me expected service sessionID p :
  CreateSignalingSessionID (dl_random env) = Ok sessionID -> dl_peer env = Ok p ->
  tidy (signal_of "bye" sessionID "" "") (dialAuthenticatedPeer env me expected service).
Proof.
  intros Hs Hp. unfold dialAuthenticatedPeer.
  apply tidy_bind; [rewrite Hs; apply tidy_quiet; [set_solver|done]|]. intros s Es. rewrite Hs in Es.
  injection Es as <-.
  apply tidy_bind; [rewrite Hp; apply tidy_quiet; [set_solver|done]|]. intros p' _.
  apply tidy_bind; [apply tidy_or_close; unfold startOffer; quiet|]. intros offerSDP _.
  apply tidy_bind; [apply tidy_or_close, awaitAnswer_quiet|]. intros answer _.
  apply tidy_bind; [apply tidy_or_close; unfold acceptAnswer; quiet|]. intros _ _.
  apply tidy_bind; [apply tidy_quiet; destruct (dl_opening env); (set_solver || done)|]. intros opening _.
  apply tidy_bind; [apply tidy_or_close; unfold awaitOpen; destruct opening; quiet|]. intros _ _.
  apply tidy_bind; [apply tidy_or_close; quiet|]. intros challenge _.
  apply tidy_bind; [apply tidy_or_close; quiet|]. intros _ _.
  apply tidy_bind; [apply tidy_quiet; [cbn; set_solver|done]|]. intros _ _.
  apply tidy_bind; [apply tidy_quiet; destruct (dl_response env); (set_solver || done)|]. intros response _.
  apply tidy_bind; [apply tidy_or_close, checkResponse_quiet|]. intros _ _.
  apply tidy_bind; [apply tidy_or_close; quiet|]. intros _ _.
  apply tidy_bind; [apply tidy_quiet; [cbn; set_solver|done]|]. intros _ _.
  apply tidy_quiet; [cbn; set_solver|done].
Qed.

Lemma answerLoop_tidy sk service bye tr answered events :
  tidy bye (answerLoop sk service bye tr answered events) \/
  AnswerPeerClosed ∈ events /\ ClosedPeer ∉ (answerLoop sk service bye tr answered events).1.
Proof.
  revert answered. induction events as [|[f e|e|] events IH]; intros answered; cbn [answerLoop].
  - left. apply tidy_quiet; [cbn; set_solver|done].
  - case_bool_decide; [|left; case_bool_decide; [destruct answered|]].
    + destruct (SignAuthResponseV2 _ _ _ _) as [r|]; [destruct e|];
        try (left; apply tidy_or_close; cbn; set_solver).
      destruct (IH true) as [Ht|[Hin Hq]]; [left|right].
      * apply tidy_bind; [apply tidy_quiet; [cbn; set_solver|done]|done].
      * split; [by apply list_elem_of_further|]. apply bind_quiet; [cbn; set_solver|done].
    + apply tidy_quiet; [cbn; set_solver|done].
    + apply tidy_or_close. cbn. set_solver.
    + apply tidy_or_close. cbn. set_solver.
  - left. apply tidy_or_close. cbn. set_solver.
  - right. split; [apply list_elem_of_here|cbn; set_solver].
Qed.

(** A failed handshake leaves nothing behind.  On both sides a transport that was created and whose
    handshake fails is closed, as the last thing that happens and after a goodbye to the other side
    (unless the transport had closed by itself), and a handshake that succeeds never closes it. *)
Theorem handshake_no_leak denv aenv me expected service sk offer :
  (forall sessionID p, CreateSignalingSessionID (dl_random denv) = Ok sessionID -> dl_peer denv = Ok p ->
   tidy (signal_of "bye" sessionID "" "") (dialAuthenticatedPeer denv me expected service)) /\
  (forall p, an_peer aenv = Ok p ->
   let run := answerNativeOffer aenv sk service offer in
   tidy (signal_of "bye" (sg_SessionID offer) (sg_From offer) "") run \/
   AnswerPeerClosed ∈ an_events aenv /\ ClosedPeer ∉ run.1).
Proof.
  split; [intros; by eapply dial_tidy|]. intros p Hp. cbn zeta. unfold answerNativeOffer. rewrite Hp, lift_bind.
  apply tidy_or_bind; [apply tidy_or_close; unfold acceptOffer; quiet|]. intros sdp.
  apply tidy_or_bind'; [apply answerLoop_tidy|]. intros _. apply tidy_quiet; [cbn; set_solver|done].
Qed.
End handshake_properties.

(** ** Agreement *)

Section agreement.
Context `{LP : !Libp2p, KS : !Keys, CR : !Crypto, KSL : !KeysLaws, CRL : !CryptoLaws}.

(** Every response the answering side sends is its signature of some challenge and its transcript. *)
Lemma answerLoop_sent sk service bye tr answered events r :
  Sent (mkFrame FrameAuthResponse r) ∈ (answerLoop sk service bye tr answered events).1 ->
  exists challenge, SignAuthResponseV2 sk service challenge tr = Ok r.
Proof.
  revert answered. induction events as [|[f e|e|] events IH]; intros answered; cbn [answerLoop]; try (cbn; set_solver).
  repeat case_bool_decide; try (cbn; set_solver).
  - destruct (SignAuthResponseV2 sk service (fr_Payload f) tr) as [r'|] eqn:E; [destruct e|]; try (cbn; set_solver).
    unfold mbind, run_bind. cbn [fst snd emit]. specialize (IH true).
    destruct (answerLoop _ _ _ _ _ _) as [e2 o]; cbn [fst] in *. intros [Hr|Hr]%elem_of_app; [|auto].
    apply list_elem_of_singleton in Hr as [= ->]. eauto.
  - destruct answered; cbn; set_solver.
Qed.

Lemma acceptOffer_Done ng publishErr offer eff sdp :
  acceptOffer ng publishErr offer = (eff, Done sdp) -> sdp = ng_localSDP ng.
Proof. unfold acceptOffer. intros H. inv_run. by subst. Qed.

Lemma acceptOffer_sent ng publishErr offer f :
  Sent f ∉ (or_close (signal_of "bye" (sg_SessionID offer) (sg_From offer) "") (acceptOffer ng publishErr offer)).1.
Proof.
  unfold acceptOffer, check, emit, throw, or_close, mret, run_ret, mbind, run_bind.
  repeat (case_match; simplify_eq/=); set_solver.
Qed.

Lemma answer_sent env sk service offer r eff o :
  answerNativeOffer env sk service offer = (eff, o) -> Sent (mkFrame FrameAuthResponse r) ∈ eff ->
  exists challenge, SignAuthResponseV2 sk service challenge
    (mkTranscript (sg_SessionID offer) (sg_SDP offer) (ng_localSDP (an_negotiation env))) = Ok r.
Proof.
  intros E Hin. apply (f_equal fst) in E. cbn [fst] in E. subst eff. revert Hin. unfold answerNativeOffer.
  destruct (an_peer env) as [p|]; [|cbn; set_solver]. rewrite lift_bind.
  pose proof (acceptOffer_sent (an_negotiation env) (an_publishErr env) offer (mkFrame FrameAuthResponse r)) as Hn.
  destruct (or_close _ (acceptOffer _ _ _)) as [e1 [sdp|err|]] eqn:Ea; cbn [fst] in Hn;
    unfold mbind, run_bind; cbn [fst snd]; [|set_solver..].
  apply or_close_Done, acceptOffer_Done in Ea as ->.
  pose proof (answerLoop_sent sk service (signal_of "bye" (sg_SessionID offer) (sg_From offer) "")
    (mkTranscript (sg_SessionID offer) (sg_SDP offer) (ng_localSDP (an_negotiation env))) false (an_events env) r) as Hs.
  destruct (answerLoop _ _ _ _ _ _) as [e2 [u|err|]]; cbn [fst snd mret run_ret] in *; set_solver.
Qed.

Lemma SignAuthResponseV2_Ok sk service challenge tr r :
  SignAuthResponseV2 (Some sk) service challenge tr = Ok r ->
  exists id payload sig pkb, IDFromPrivateKey sk = Ok id /\ AuthPayloadV2 id service challenge tr = Ok payload /\
    key_Sign sk payload = Ok sig /\ MarshalPublicKey (GetPublic sk) = Ok pkb /\
    encodeAuthResponse AuthResponseVersionV2 pkb sig = Ok r.
Proof. unfold SignAuthResponseV2. intros H. inv_ok. simplify_eq. eauto 10. Qed.

(** C3: both sides authenticated the same exchange.  If the dialer returns after a response that the
    answering side with key [sk] sent, then that key belongs to the expected peer, and the two sides
    agree on the logical port, the session and the hashes of both descriptions: an intermediary that
    changes the offer or the answer makes the dialer fail.  The signature scheme is assumed not to
    accept one signature for two messages. *)
Theorem handshake_agreement denv aenv me expected service service' sk offer effD effA p tr oA r :
  (forall m m' s, key_Sign sk m = Ok s -> key_Verify (GetPublic sk) m' s = Ok true -> m = m') ->
  is_uint 16 service -> is_uint 16 service' -> slen (peer_String expected) < 2 ^ 32 ->
  dialAuthenticatedPeer denv me expected service = (effD, Done (p, tr)) ->
  answerNativeOffer aenv (Some sk) service' offer = (effA, oA) ->
  dl_response denv = Some (FrameIn (mkFrame FrameAuthResponse r)) ->
  Sent (mkFrame FrameAuthResponse r) ∈ effA ->
  IDFromPrivateKey sk = Ok expected /\ service = service' /\ at_SessionID tr = sg_SessionID offer /\
  sha256 (bytes_of (at_OfferSDP tr)) = sha256 (bytes_of (sg_SDP offer)) /\
  sha256 (bytes_of (at_AnswerSDP tr)) = sha256 (bytes_of (ng_localSDP (an_negotiation aenv))).
Proof using KSL CRL.
  intros Hsig Hs Hs' Hp HD HA Hr Hin.
  destruct (dial_Done _ _ _ _ _ _ _ HD) as (sid & c & answer & r' & _ & _ & _ & _ & _ & _ & _ & _ & _ & _ & Hr' & Hv).
  rewrite Hr in Hr'. injection Hr' as <-. clear HD.
  destruct (answer_sent _ _ _ _ _ _ _ HA Hin) as [c' Hsign].
  apply SignAuthResponseV2_Ok in Hsign as (id & payload' & sig' & pkb' & Hid & Hpay' & Hsg & Hpk & Henc).
  apply verify_auth_v2_exact in Hv as (pkb & sig & pk & payload & Henc' & Hun & Hidp & Hpay & Hver).
  apply decode_encodeAuthResponse in Henc, Henc'. rewrite Henc in Henc'. injection Henc' as <- <-.
  apply UnmarshalPublicKey_Marshal in Hpk. rewrite Hpk in Hun. injection Hun as <-.
  unfold IDFromPrivateKey in *. rewrite Hid in Hidp. injection Hidp as ->.
  pose proof (Hsig _ _ _ Hsg Hver) as <-.
  destruct (transcript_binding expected expected service service' c c' tr _ _ Hs Hs' Hp Hp Hpay Hpay')
    as (_ & ? & ? & _ & ? & ? & _). done.
Qed.

(** C33: an honest handshake completes.  When every step of the environment succeeds, the offering side
    gets the answer (after any number of signals that are not for it) and the answering side the
    challenge, both return with the same transcript. *)
Theorem handshake_completes random challenge ngD ngA pD pA noise offer answer me expected service sk response :
  length random = 16%nat -> ng_setRemote ngD = None -> ng_create ngD = None -> ng_setLocal ngD = None ->
  ng_gathering ngD = None -> ng_setRemote ngA = None -> ng_create ngA = None -> ng_setLocal ngA = None ->
  ng_gathering ngA = None ->
  sg_SessionID offer = hex_encode random -> sg_SDP offer = ng_localSDP ngD ->
  sg_Type answer = "answer" -> sg_SessionID answer = hex_encode random -> sg_To answer = me ->
  sg_SDP answer = ng_localSDP ngA ->
  Forall (fun s => sg_SessionID s <> hex_encode random \/ sg_To s <> me \/ sg_Type s <> "answer") noise ->
  IDFromPrivateKey sk = Ok expected ->
  let tr := mkTranscript (hex_encode random) (ng_localSDP ngD) (ng_localSDP ngA) in
  SignAuthResponseV2 (Some sk) service challenge tr = Ok response ->
  (dialAuthenticatedPeer
     (mkDial (Ok random) (Ok pD) ngD None ((SignalIn <$> noise) ++ [SignalIn answer]) (Some ChannelOpen)
        (Ok challenge) None (Some (FrameIn (mkFrame FrameAuthResponse response))) None) me expected service).2
    = Done (pD, tr) /\
  (answerNativeOffer
     (mkAnswer (Ok pA) ngA None [AnswerFrame (mkFrame FrameAuthChallenge challenge) None;
                                 AnswerFrame (mkFrame FrameAuthReady []) None]) (Some sk) service offer).2
    = Done (pA, tr).
Proof using KSL.
  intros Hl D1 D2 D3 D4 A1 A2 A3 A4 Eo1 Eo2 Ea1 Ea2 Ea3 Ea4 Hn Hid tr Hsign.
  pose proof (proj2 (sign_auth_verifies sk expected service challenge tr [] response Hid) Hsign) as Hv.
  split.
  - unfold dialAuthenticatedPeer, startOffer, acceptAnswer.
    cbn [dl_random dl_peer dl_negotiation dl_publishErr dl_signals dl_opening dl_challenge dl_sendChallenge
         dl_response dl_sendReady].
    change (CreateSignalingSessionID (Ok random)) with (Ok (hex_encode random)). rewrite !lift_bind.
    rewrite D1, D2, D3, D4, (awaitAnswer_skip _ me noise answer []) by done.
    unfold checkResponse. cbn [fr_Type fr_Payload CreateSignalingSessionID mbind result_bind lift wait].
    with_strategy opaque [VerifyAuthResponseV2] cbn. rewrite Ea4. fold tr. rewrite Hv. done.
  - unfold answerNativeOffer, acceptOffer.
    cbn [an_peer an_negotiation an_publishErr an_events]. rewrite A1, A2, A3, A4, Eo1, Eo2.
    with_strategy opaque [SignAuthResponseV2] cbn. fold tr. rewrite Hsign. done.
Qed.
End agreement.

(** ** Witnesses *)

Module HandshakeWitness.
Import Ref.

(** Keys whose signature of a message is the message itself behind the key. *)
Definition plain_keys : Keys := {|
  PrivKey := list byte;
  PubKey := list byte;
  GetPublic sk := sk;
  IDFromPublicKey pk := Ok (hex_encode pk);
  key_Sign sk msg := Ok (sk ++ msg);
  key_Verify pk msg sig := Ok (bool_decide (sig = pk ++ msg));
  MarshalPublicKey pk := Ok pk;
  UnmarshalPublicKey b := Ok b
|}.
Lemma plain_keys_laws : @KeysLaws plain_keys.
Proof.
  split; simpl.
  - intros sk msg sig [= <-]. by rewrite bool_decide_true.
  - by intros pk b [= <-].
Qed.

Definition me : string := "AliceAliceAliceAlice".
Definition server : string := "BobBobBobBobBobBobBo".
Definition sk : list byte := [x0a; x0b].
Definition random : list byte := put_be 16 77.
Definition challenge : list byte := put_be 32 5.
Definition ngD : negotiation := mkNegotiation None None None None "v=0 offer".
Definition ngA : negotiation := mkNegotiation None None None None "v=0 answer".
Definition pD : nativePeer := mkPeer [] StateConnected (Some 1%nat) [] true false 0 [].
Definition pA : nativePeer := mkPeer [] StateConnected (Some 2%nat) [] true false 0 [].
Definition offer : Signal := mkSignal 2 "room" "offer" (hex_encode random) me "" 0 "v=0 offer" None "".
Definition answer : Signal := mkSignal 2 "room" "answer" (hex_encode random) server me 0 "v=0 answer" None "".
Definition noise : list Signal := [mkSignal 2 "room" "answer" "another session" server me 0 "v=0" None ""].
Definition tr : AuthTranscript := mkTranscript (hex_encode random) "v=0 offer" "v=0 answer".
Definition response : list byte :=
  Eval vm_compute in
    match SignAuthResponseV2 (KS := plain_keys) (Some sk) 80 challenge tr with Ok r => r | Err _ => [] end.
Definition denv : dial_env :=
  mkDial (Ok random) (Ok pD) ngD None ((SignalIn <$> noise) ++ [SignalIn answer]) (Some ChannelOpen)
    (Ok challenge) None (Some (FrameIn (mkFrame FrameAuthResponse response))) None.
Definition aenv : answer_env :=
  mkAnswer (Ok pA) ngA None [AnswerFrame (mkFrame FrameAuthChallenge challenge) None;
                             AnswerFrame (mkFrame FrameAuthReady []) None].

Lemma handshake_completes_witness :
  (dialAuthenticatedPeer (KS := plain_keys) denv me "0a0b" 80).2 = Done (pD, tr) /\
  (answerNativeOffer (KS := plain_keys) aenv (Some sk) 80 offer).2 = Done (pA, tr).
Proof.
  apply (handshake_completes (KS := plain_keys) (KSL := plain_keys_laws) random challenge ngD ngA pD pA noise offer answer
    me "0a0b" 80 sk response); try reflexivity.
  - apply Forall_cons. split; [left; by vm_compute|apply Forall_nil; exact I].
Defined.

Lemma handshake_agreement_witness :
  @IDFromPrivateKey plain_keys sk = Ok "0a0b" /\ at_SessionID tr = sg_SessionID offer.
Proof.
  destruct (handshake_agreement (KS := plain_keys) (KSL := plain_keys_laws) denv aenv me "0a0b" 80 80 sk offer
    (dialAuthenticatedPeer (KS := plain_keys) denv me "0a0b" 80).1
    (answerNativeOffer (KS := plain_keys) aenv (Some sk) 80 offer).1 pD tr (Done (pA, tr)) response)
    as (H1 & _ & H2 & _).
  - intros m m' s [= <-] [= H]. apply bool_decide_eq_true in H. by injection H.
  - ground.
  - ground.
  - by vm_compute.
  - vm_compute. reflexivity.
  - vm_compute. reflexivity.
  - reflexivity.
  - apply list_elem_of_further, list_elem_of_here.
  - exact (conj H1 H2).
Defined.

Lemma handshake_no_leak_witness :
  (dialAuthenticatedPeer (KS := plain_keys)
     (mkDial (Ok random) (Ok pD) ngD None [SignalingClosed] None (Ok challenge) None None None) me "0a0b" 80).1 =
  [Published (signal_of "offer" (hex_encode random) "" "v=0 offer");
   Published (signal_of "bye" (hex_encode random) "" ""); ClosedPeer].
Proof.
  destruct (proj1 (handshake_no_leak (KS := plain_keys)
     (mkDial (Ok random) (Ok pD) ngD None [SignalingClosed] None (Ok challenge) None None None) aenv me "0a0b" 80
     (Some sk) offer) (hex_encode random) pD eq_refl eq_refl) as (pre & H & _).
  vm_compute. reflexivity.
Defined.
End HandshakeWitness.
