(* ===== verification/WebrtcListener.v ===== *)
(** The native WebRTC listener of nativewebrtc/endpoint.go: admission of handshakes, activation of
    authenticated transports, reconnection within the grace period and shutdown.

    Every section of the code that holds a mutex is one function on the listener's state.  The
    goroutines around them are threads of a machine whose steps interleave freely.  Streams,
    transports and timers are numbered in the order of their creation. *)
From S2P Require Export NativePeer.
Local Open Scope Z_scope.

Record listenerStream := mkEntry {
  es_stream : Stream;
  es_link : peerLink;
  es_peer : option nat;
  es_timer : option nat
}.

(** A timer of [time.AfterFunc]: armed, or with its function already started. *)
Record timer := mkTimer { tm_remote : string; tm_entry : nat; tm_started : bool }.

Record Listener := mkListener {
  li_closed : bool;
  li_cancelled : bool;
  li_sessionsClosed : bool;
  (** [streams], by the remote signaling peer, and all entries that were allocated. *)
  li_streams : gmap string nat;
  li_entries : gmap nat listenerStream;
  li_timers : gmap nat timer;
  li_closedPeers : gset nat;
  li_handshakes : Z;
  li_peerHandshakes : gmap string Z;
  (** Calls of [onStream]. *)
  li_delivered : list (nat * string)
}.

Definition newListener : Listener :=
  mkListener false false false ∅ ∅ ∅ ∅ 0 ∅ [].

Definition set_streams (l : Listener) (streams : gmap string nat) : Listener :=
  mkListener (li_closed l) (li_cancelled l) (li_sessionsClosed l) streams (li_entries l) (li_timers l)
    (li_closedPeers l) (li_handshakes l) (li_peerHandshakes l) (li_delivered l).
Definition set_entry (l : Listener) (entry : nat) (value : listenerStream) : Listener :=
  mkListener (li_closed l) (li_cancelled l) (li_sessionsClosed l) (li_streams l)
    (<[entry := value]> (li_entries l)) (li_timers l)
    (li_closedPeers l) (li_handshakes l) (li_peerHandshakes l) (li_delivered l).
Definition set_timers (l : Listener) (timers : gmap nat timer) : Listener :=
  mkListener (li_closed l) (li_cancelled l) (li_sessionsClosed l) (li_streams l) (li_entries l) timers
    (li_closedPeers l) (li_handshakes l) (li_peerHandshakes l) (li_delivered l).
Definition closed_peer (l : Listener) (peer : option nat) : Listener :=
  match peer with
  | Some peer =>
      mkListener (li_closed l) (li_cancelled l) (li_sessionsClosed l) (li_streams l) (li_entries l) (li_timers l)
        ({[peer]} ∪ li_closedPeers l) (li_handshakes l) (li_peerHandshakes l) (li_delivered l)
  | None => l
  end.
Definition set_handshakes (l : Listener) (n : Z) (byPeer : gmap string Z) : Listener :=
  mkListener (li_closed l) (li_cancelled l) (li_sessionsClosed l) (li_streams l) (li_entries l) (li_timers l)
    (li_closedPeers l) n byPeer (li_delivered l).
Definition set_shutdown (l : Listener) (closed : bool) : Listener :=
  mkListener closed true true (li_streams l) (li_entries l) (li_timers l)
    (li_closedPeers l) (li_handshakes l) (li_peerHandshakes l) (li_delivered l).
Definition deliver (l : Listener) (entry : nat) (remote : string) : Listener :=
  mkListener (li_closed l) (li_cancelled l) (li_sessionsClosed l) (li_streams l) (li_entries l) (li_timers l)
    (li_closedPeers l) (li_handshakes l) (li_peerHandshakes l) (li_delivered l ++ [(entry, remote)]).

Definition set_stream (l : Listener) (entry : nat) (stream : Stream) : Listener :=
  match li_entries l !! entry with
  | Some e => set_entry l entry (mkEntry stream (es_link e) (es_peer e) (es_timer e))
  | None => l
  end.

(** ** Handshake slots *)

Definition beginHandshake (l : Listener) (remote : string) : bool * Listener :=
  if negb (clientIDPattern remote) then (false, l)
  else
    let current := default 0 (li_peerHandshakes l !! remote) in
    if (maxConcurrentHandshakes <=? li_handshakes l) || (maxConcurrentHandshakesPeer <=? current)
    then (false, l)
    else (true, set_handshakes l (li_handshakes l + 1) (<[remote := current + 1]> (li_peerHandshakes l))).

Definition endHandshake (l : Listener) (remote : string) : Listener :=
  let current := default 0 (li_peerHandshakes l !! remote) - 1 in
  set_handshakes l (li_handshakes l - 1)
    (if current =? 0 then delete remote (li_peerHandshakes l)
     else <[remote := current]> (li_peerHandshakes l)).

(** ** Streams *)

(** [timer.Stop()]: a function that has started is not stopped. *)
Definition stop_timer (timers : gmap nat timer) (t : option nat) : gmap nat timer :=
  match t with
  | Some t =>
      match timers !! t with
      | Some tm => if tm_started tm then timers else delete t timers
      | None => timers
      end
  | None => timers
  end.

(** [link.Close()] of an entry. *)
Definition close_link (l : Listener) (entry : nat) : Listener :=
  match li_entries l !! entry with
  | Some e =>
      let '(link, peer) := link_Close (es_link e) in
      closed_peer (set_entry l entry (mkEntry (es_stream e) link (es_peer e) (es_timer e))) peer
  | None => l
  end.

Inductive activation :=
  | Refused
  | Opened (entry : nat)
  | Rebound (entry : nat).

(** The locked part of [activate]; a new entry gets the number [fresh]. *)
Definition activate (l : Listener) (remote : string) (p2p fresh : nat) : activation * Listener :=
  if li_closed l then (Refused, closed_peer l (Some p2p))
  else match li_streams l !! remote with
  | None =>
      let e := mkEntry (NewStream).1 (newPeerLink p2p) (Some p2p) None in
      (Opened fresh, set_streams (set_entry l fresh e) (<[remote := fresh]> (li_streams l)))
  | Some entry =>
      match li_entries l !! entry with
      | None => (Refused, l)
      | Some e =>
          let '(attached, link) := link_Attach (es_link e) p2p in
          if bool_decide (is_Some (es_peer e)) || negb attached
          then (Refused, closed_peer l (Some p2p))
          else (Rebound entry,
                set_entry (set_timers l (stop_timer (li_timers l) (es_timer e))) entry
                  (mkEntry (es_stream e) link (Some p2p) None))
      end
  end.

(** The callback a stream calls when it is closed or reset. *)
Definition streamClosed (l : Listener) (remote : string) (entry : nat) : Listener :=
  let l :=
    match li_streams l !! remote with
    | Some current =>
        if bool_decide (current = entry)
        then set_streams (set_timers l (stop_timer (li_timers l) (li_entries l !! entry ≫= es_timer)))
               (delete remote (li_streams l))
        else l
    | None => l
    end in
  close_link l entry.

(** The end of [watch], once the frames of the transport are forwarded; a timer gets the
    number [fresh]. *)
Definition watchEnd (l : Listener) (remote : string) (entry p2p fresh : nat) : Listener :=
  match li_entries l !! entry with
  | None => l
  | Some e =>
      if negb (bool_decide (li_streams l !! remote = Some entry)) || negb (bool_decide (es_peer e = Some p2p))
      then l
      else
        let '(_, link) := link_Detach (es_link e) p2p in
        set_timers (set_entry l entry (mkEntry (es_stream e) link None (Some fresh)))
          (<[fresh := mkTimer remote entry false]> (li_timers l))
  end.

Definition errNotReconnected : error :=
  ErrNew "native WebRTC peer did not reconnect within 120 seconds".

(** [entry.stream.fail(err, true)]. *)
Definition fail_stream (l : Listener) (entry : nat) (err : error) : Listener :=
  match li_entries l !! entry with
  | Some e => set_entry l entry (mkEntry (fail (es_stream e) err) (es_link e) (es_peer e) (es_timer e))
  | None => l
  end.

(** The function of a reconnection timer. *)
Definition timerFired (l : Listener) (t : nat) : Listener :=
  match li_timers l !! t with
  | None => l
  | Some tm =>
      let l := set_timers l (delete t (li_timers l)) in
      if bool_decide (li_streams l !! tm_remote tm = Some (tm_entry tm)) &&
         bool_decide ((li_entries l !! tm_entry tm ≫= es_peer) = None)
      then close_link (fail_stream (set_streams l (delete (tm_remote tm) (li_streams l))) (tm_entry tm)
                         errNotReconnected) (tm_entry tm)
      else l
  end.

(** The loop of [Listener.Close] over the streams, in the order of a map range. *)
Fixpoint close_streams (l : Listener) (remotes : list string) : Listener :=
  match remotes with
  | [] => l
  | remote :: remotes =>
      let l :=
        match li_streams l !! remote with
        | Some entry =>
            let l := set_timers l (stop_timer (li_timers l) (li_entries l !! entry ≫= es_timer)) in
            let l := close_link (fail_stream l entry ErrCanceled) entry in
            set_streams l (delete remote (li_streams l))
        | None => l
        end in
      close_streams l remotes
  end.

(** [Listener.Close] up to its mutex: the context and the signaling sessions end. *)
Definition close_begin (l : Listener) : Listener := set_shutdown l (li_closed l).
(** Its locked part. *)
Definition close_locked (l : Listener) (remotes : list string) : Listener :=
  close_streams (set_shutdown l true) remotes.
Definition listener_Close (l : Listener) (remotes : list string) : Listener :=
  if li_cancelled l then l else close_locked (close_begin l) remotes.

(** ** The machine *)

Inductive thread :=
  | TSession                                        (** the loop over a session's events *)
  | THandshake (remote : string)                    (** [answerNativeOffer] *)
  | TActivate (remote : string) (p2p : nat)         (** about to lock in [activate] *)
  | TOpened (remote : string) (entry p2p : nat)     (** after it, with a new stream *)
  | TRebound (remote : string) (entry p2p : nat)    (** after it, with a stream that had lost its transport *)
  | TEnd (remote : string)                          (** the deferred [endHandshake] *)
  | TWatch (remote : string) (entry p2p : nat)
  | TStreamClose (remote : string) (entry : nat)    (** a stream calls back after [Close] or [Reset] *)
  | TClose                                          (** [Listener.Close] before its mutex *)
  | TWait.                                          (** and after it, in [wg.Wait] *)

Record machine := mkMachine {
  m_listener : Listener;
  m_threads : list thread;
  m_next : nat;
  m_returned : bool
}.

(** The goroutines [Close] waits for. *)
Definition counted (t : thread) : bool :=
  match t with
  | TSession | THandshake _ | TActivate _ _ | TOpened _ _ _ | TRebound _ _ _ | TEnd _ => true
  | _ => false
  end.

Inductive m_init : machine -> Prop :=
  | m_start sessions : (sessions <> 0)%nat ->
      m_init (mkMachine newListener (replicate sessions TSession) 0 false).

(** One thread moves; every step takes a number, which it may use for what it creates. *)
Inductive m_step (m : machine) : machine -> Prop :=
  | s_offer pre post remote l' :
      m_threads m = pre ++ TSession :: post -> beginHandshake (m_listener m) remote = (true, l') ->
      m_step m (mkMachine l' (pre ++ [TSession; THandshake remote] ++ post) (S (m_next m)) (m_returned m))
  | s_offer_ignored remote l' :
      TSession ∈ m_threads m -> beginHandshake (m_listener m) remote = (false, l') ->
      m_step m (mkMachine l' (m_threads m) (S (m_next m)) (m_returned m))
  | s_session_end pre post :
      m_threads m = pre ++ TSession :: post ->
      m_step m (mkMachine (m_listener m) (pre ++ [] ++ post) (S (m_next m)) (m_returned m))
  | s_handshake_failed pre post remote :
      m_threads m = pre ++ THandshake remote :: post ->
      m_step m (mkMachine (m_listener m) (pre ++ [TEnd remote] ++ post) (S (m_next m)) (m_returned m))
  | s_handshake_done pre post remote :
      m_threads m = pre ++ THandshake remote :: post ->
      m_step m (mkMachine (m_listener m) (pre ++ [TActivate remote (m_next m)] ++ post) (S (m_next m)) (m_returned m))
  | s_activate_refused pre post remote p2p l' :
      m_threads m = pre ++ TActivate remote p2p :: post ->
      activate (m_listener m) remote p2p (m_next m) = (Refused, l') ->
      m_step m (mkMachine l' (pre ++ [TEnd remote] ++ post) (S (m_next m)) (m_returned m))
  | s_activate_opened pre post remote p2p entry l' :
      m_threads m = pre ++ TActivate remote p2p :: post ->
      activate (m_listener m) remote p2p (m_next m) = (Opened entry, l') ->
      m_step m (mkMachine l' (pre ++ [TOpened remote entry p2p] ++ post) (S (m_next m)) (m_returned m))
  | s_activate_rebound pre post remote p2p entry l' :
      m_threads m = pre ++ TActivate remote p2p :: post ->
      activate (m_listener m) remote p2p (m_next m) = (Rebound entry, l') ->
      m_step m (mkMachine l' (pre ++ [TRebound remote entry p2p] ++ post) (S (m_next m)) (m_returned m))
  | s_opened pre post remote entry p2p :
      m_threads m = pre ++ TOpened remote entry p2p :: post ->
      m_step m (mkMachine (deliver (m_listener m) entry remote)
                  (pre ++ [TEnd remote; TWatch remote entry p2p] ++ post) (S (m_next m)) (m_returned m))
  | s_rebound pre post remote entry p2p e resumeErr stream' frames :
      m_threads m = pre ++ TRebound remote entry p2p :: post ->
      li_entries (m_listener m) !! entry = Some e ->
      Reconnected (es_stream e) resumeErr None = (None, stream', frames) ->
      m_step m (mkMachine (set_stream (m_listener m) entry stream')
                  (pre ++ [TEnd remote; TWatch remote entry p2p] ++ post) (S (m_next m)) (m_returned m))
  | s_rebound_failed pre post remote entry p2p e resumeErr flowErr err stream' frames :
      m_threads m = pre ++ TRebound remote entry p2p :: post ->
      li_entries (m_listener m) !! entry = Some e ->
      Reconnected (es_stream e) resumeErr flowErr = (Some err, stream', frames) ->
      m_step m (mkMachine (fail_stream (set_stream (m_listener m) entry stream') entry
                             (ErrNew "native WebRTC stream reset"))
                  (pre ++ [TStreamClose remote entry; TEnd remote] ++ post) (S (m_next m)) (m_returned m))
  | s_end pre post remote :
      m_threads m = pre ++ TEnd remote :: post ->
      m_step m (mkMachine (endHandshake (m_listener m) remote) (pre ++ [] ++ post) (S (m_next m)) (m_returned m))
  | s_stream entry e stream' :
      li_entries (m_listener m) !! entry = Some e -> stream_step (es_stream e) stream' ->
      m_step m (mkMachine (set_stream (m_listener m) entry stream') (m_threads m) (S (m_next m)) (m_returned m))
  | s_stream_close entry remote :
      (entry, remote) ∈ li_delivered (m_listener m) ->
      m_step m (mkMachine (m_listener m) ([TStreamClose remote entry] ++ m_threads m) (S (m_next m)) (m_returned m))
  | s_stream_closed pre post remote entry :
      m_threads m = pre ++ TStreamClose remote entry :: post ->
      m_step m (mkMachine (streamClosed (m_listener m) remote entry) (pre ++ [] ++ post) (S (m_next m)) (m_returned m))
  | s_watch_end pre post remote entry p2p :
      m_threads m = pre ++ TWatch remote entry p2p :: post ->
      m_step m (mkMachine (watchEnd (m_listener m) remote entry p2p (m_next m)) (pre ++ [] ++ post)
                  (S (m_next m)) (m_returned m))
  | s_timer_start t tm :
      li_timers (m_listener m) !! t = Some tm ->
      m_step m (mkMachine (set_timers (m_listener m)
                             (<[t := mkTimer (tm_remote tm) (tm_entry tm) true]> (li_timers (m_listener m))))
                  (m_threads m) (S (m_next m)) (m_returned m))
  | s_timer_fired t tm :
      li_timers (m_listener m) !! t = Some tm -> tm_started tm = true ->
      m_step m (mkMachine (timerFired (m_listener m) t) (m_threads m) (S (m_next m)) (m_returned m))
  | s_close_begin :
      li_cancelled (m_listener m) = false ->
      m_step m (mkMachine (close_begin (m_listener m)) ([TClose] ++ m_threads m) (S (m_next m)) (m_returned m))
  | s_close_locked pre post remotes :
      m_threads m = pre ++ TClose :: post ->
      remotes ≡ₚ elements (dom (li_streams (m_listener m))) ->
      m_step m (mkMachine (close_locked (m_listener m) remotes) (pre ++ [TWait] ++ post) (S (m_next m)) (m_returned m))
  | s_close_return pre post :
      m_threads m = pre ++ TWait :: post -> Forall (fun t => counted t = false) (m_threads m) ->
      m_step m (mkMachine (m_listener m) (pre ++ [] ++ post) (S (m_next m)) true).

(** ** Handshake slots are accounted for *)

(** The remote peer whose slot a thread holds. *)
Definition slot_of (t : thread) : option string :=
  match t with
  | THandshake r | TActivate r _ | TOpened r _ _ | TRebound r _ _ | TEnd r => Some r
  | _ => None
  end.
Definition slots (ts : list thread) : list string := omap slot_of ts.
Definition occ (r : string) (l : list string) : nat := length (base.filter (fun r' => r' = r) l).

Lemma slots_app a b : slots (a ++ b) = slots a ++ slots b.
Proof. apply omap_app. Qed.
Lemma slots_cons t ts :
  slots (t :: ts) = match slot_of t with Some r => r :: slots ts | None => slots ts end.
Proof. done. Qed.
Lemma occ_app r a b : occ r (a ++ b) = (occ r a + occ r b)%nat.
Proof. unfold occ. by rewrite filter_app, length_app. Qed.
Lemma occ_cons r r' l : occ r (r' :: l) = ((if decide (r' = r) then 1 else 0) + occ r l)%nat.
Proof. unfold occ. rewrite filter_cons. by destruct (decide (r' = r)). Qed.
Lemma occ_le r l : (occ r l <= length l)%nat.
Proof. apply length_filter. Qed.

Record slots_ok (l : Listener) (ts : list thread) : Prop := {
  so_total : li_handshakes l = Z.of_nat (length (slots ts));
  so_max : li_handshakes l <= maxConcurrentHandshakes;
  so_peer r : li_peerHandshakes l !! r =
    (if decide (occ r (slots ts) = 0%nat) then None else Some (Z.of_nat (occ r (slots ts))));
  so_peer_max r : Z.of_nat (occ r (slots ts)) <= maxConcurrentHandshakesPeer
}.

Lemma slots_ok_ext l l' ts ts' :
  slots_ok l ts -> li_handshakes l' = li_handshakes l -> li_peerHandshakes l' = li_peerHandshakes l ->
  slots ts' = slots ts -> slots_ok l' ts'.
Proof. intros [H1 H2 H3 H4] E1 E2 E3. split; rewrite ?E1, ?E2, ?E3; auto. Qed.

Lemma so_lookup l ts r : slots_ok l ts -> default 0 (li_peerHandshakes l !! r) = Z.of_nat (occ r (slots ts)).
Proof. intros H. rewrite (so_peer _ _ H). by destruct (decide _) as [->|]. Qed.

Lemma beginHandshake_slots l ts remote l' pre post :
  slots_ok l ts -> ts = pre ++ TSession :: post -> beginHandshake l remote = (true, l') ->
  slots_ok l' (pre ++ [TSession; THandshake remote] ++ post).
Proof.
  intros H Ets. unfold beginHandshake. destruct (negb _); [done|]. rewrite (so_lookup _ _ _ H).
  destruct (_ || _) eqn:E; [done|]. intros [= <-]. apply orb_false_iff in E as [E1 E2].
  apply Z.leb_gt in E1, E2. destruct H as [H1 H2 H3 H4].
  assert (forall r, occ r (slots (pre ++ [TSession; THandshake remote] ++ post)) =
    ((if decide (remote = r) then 1 else 0) + occ r (slots ts))%nat) as Ho.
  { intros r. subst ts. cbn [app]. rewrite !slots_app, !slots_cons. cbn [slot_of]. rewrite !occ_app, occ_cons. lia. }
  split; cbn [set_handshakes li_handshakes li_peerHandshakes].
  - rewrite H1. subst ts. cbn [app]. rewrite !slots_app, !slots_cons, !length_app. cbn [slot_of length]. lia.
  - lia.
  - intros r. rewrite Ho. destruct (decide (remote = r)) as [->|Hne].
    + rewrite lookup_insert_eq. destruct (decide _); [lia|]. f_equal. lia.
    + rewrite lookup_insert_ne by done. by rewrite H3.
  - intros r. rewrite Ho. destruct (decide (remote = r)) as [->|Hne]; [lia|]. apply H4.
Qed.

Lemma endHandshake_slots l remote pre post :
  slots_ok l (pre ++ TEnd remote :: post) -> slots_ok (endHandshake l remote) (pre ++ [] ++ post).
Proof.
  intros H. unfold endHandshake. rewrite (so_lookup _ _ _ H). destruct H as [H1 H2 H3 H4].
  assert (forall r, occ r (slots (pre ++ TEnd remote :: post)) =
    ((if decide (remote = r) then 1 else 0) + occ r (slots (pre ++ [] ++ post)))%nat) as Ho.
  { intros r. cbn [app]. rewrite !slots_app, !slots_cons. cbn [slot_of]. rewrite !occ_app, occ_cons. lia. }
  split; cbn [set_handshakes li_handshakes li_peerHandshakes].
  - rewrite H1. cbn [app]. rewrite !slots_app, !slots_cons, !length_app. cbn [slot_of length]. lia.
  - lia.
  - intros r. specialize (H3 r). rewrite Ho in H3. rewrite (Ho remote), decide_True by done.
    destruct (Z.eqb_spec (Z.of_nat (1 + occ remote (slots (pre ++ [] ++ post))) - 1) 0) as [E|E];
      destruct (decide (remote = r)) as [->|Hne].
    + rewrite lookup_delete_eq, decide_True; [done|lia].
    + by rewrite lookup_delete_ne.
    + rewrite lookup_insert_eq, decide_False by lia. f_equal. lia.
    + by rewrite lookup_insert_ne.
  - intros r. specialize (H4 r). rewrite Ho in H4. lia.
Qed.

(** The other operations touch neither the slots nor what was delivered. *)
Definition same_slots (l l' : Listener) : Prop :=
  li_handshakes l' = li_handshakes l /\ li_peerHandshakes l' = li_peerHandshakes l /\
  li_delivered l' = li_delivered l.

Lemma close_link_slots l entry : same_slots l (close_link l entry).
Proof. unfold close_link, link_Close. repeat case_match; simplify_eq; simpl; split_and!; try done; by destruct lk_peer. Qed.
Lemma fail_stream_slots l entry err : same_slots l (fail_stream l entry err).
Proof. unfold fail_stream. by case_match. Qed.
Lemma set_stream_slots l entry s : same_slots l (set_stream l entry s).
Proof. unfold set_stream. by case_match. Qed.
Lemma activate_slots l remote p2p fresh a l' : activate l remote p2p fresh = (a, l') -> same_slots l l'.
Proof. unfold activate. repeat case_match; intros; simplify_eq; done. Qed.

Lemma same_slots_trans l1 l2 l3 : same_slots l1 l2 -> same_slots l2 l3 -> same_slots l1 l3.
Proof. unfold same_slots. intros (-> & -> & ->) (-> & -> & ->). done. Qed.

Lemma streamClosed_slots l remote entry : same_slots l (streamClosed l remote entry).
Proof. unfold streamClosed. eapply same_slots_trans; [|apply close_link_slots]. by repeat case_match. Qed.
Lemma watchEnd_slots l remote entry p2p fresh : same_slots l (watchEnd l remote entry p2p fresh).
Proof. unfold watchEnd. by repeat case_match. Qed.
Lemma timerFired_slots l t : same_slots l (timerFired l t).
Proof.
  unfold timerFired. case_match; [|done]. case_match; [|done].
  eapply same_slots_trans; [|apply close_link_slots]. by eapply same_slots_trans; [|apply fail_stream_slots].
Qed.
Lemma close_streams_slots l remotes : same_slots l (close_streams l remotes).
Proof.
  revert l. induction remotes as [|r remotes IH]; intros l; [done|]. cbn [close_streams].
  eapply same_slots_trans; [|apply IH]. case_match; [|done].
  eapply same_slots_trans; [|done]. eapply same_slots_trans; [|apply close_link_slots].
  by eapply same_slots_trans; [|apply fail_stream_slots].
Qed.

Lemma m_step_slots m m' :
  slots_ok (m_listener m) (m_threads m) -> m_step m m' -> slots_ok (m_listener m') (m_threads m').
Proof.
  intros H Hs.
  assert (forall l' ts', same_slots (m_listener m) l' -> slots ts' = slots (m_threads m) -> slots_ok l' ts') as K
    by (intros l' ts' (E1 & E2 & _) E3; by eapply slots_ok_ext).
  destruct Hs; cbn [m_listener m_threads];
    try match goal with E : m_threads m = _ |- _ => rewrite E in * end.
  - by eapply beginHandshake_slots.
  - apply K; [|done]. unfold beginHandshake in *. repeat case_match; by simplify_eq.
  - apply K; [done|]. by rewrite !slots_app.
  - apply K; [done|]. by rewrite !slots_app.
  - apply K; [done|]. by rewrite !slots_app.
  - apply K; [by eapply activate_slots|]. by rewrite !slots_app.
  - apply K; [by eapply activate_slots|]. by rewrite !slots_app.
  - apply K; [by eapply activate_slots|]. by rewrite !slots_app.
  - eapply slots_ok_ext; [exact H|done|done|]. by rewrite !slots_app.
  - apply K; [apply set_stream_slots|]. by rewrite !slots_app.
  - apply K; [eapply same_slots_trans; [apply set_stream_slots|apply fail_stream_slots]|]. by rewrite !slots_app.
  - by apply endHandshake_slots.
  - apply K; [apply set_stream_slots|done].
  - apply K; [done|]. done.
  - apply K; [apply streamClosed_slots|]. by rewrite !slots_app.
  - apply K; [apply watchEnd_slots|]. by rewrite !slots_app.
  - apply K; done.
  - apply K; [apply timerFired_slots|done].
  - apply K; done.
  - apply K; [|by rewrite !slots_app]. unfold close_locked.
    eapply same_slots_trans; [|apply close_streams_slots]. done.
  - apply K; [done|]. by rewrite !slots_app.
Qed.

(** C21: handshakes are bounded and never leak.  However the goroutines interleave, the counters equal
    the numbers of handshakes in progress, in total and per remote peer; there are at most 32 and
    at most 2 per peer, and a peer without one has no counter. *)
Theorem listener_handshakes_bounded m :
  reachable m_init m_step m ->
  let l := m_listener m in
  0 <= li_handshakes l <= maxConcurrentHandshakes /\
  li_handshakes l = Z.of_nat (length (slots (m_threads m))) /\
  forall r, Z.of_nat (occ r (slots (m_threads m))) <= maxConcurrentHandshakesPeer /\
    li_peerHandshakes l !! r =
      (if decide (occ r (slots (m_threads m)) = 0%nat) then None else Some (Z.of_nat (occ r (slots (m_threads m))))).
Proof.
  intros H. assert (slots_ok (m_listener m) (m_threads m)) as Hok.
  { revert m H. apply invariant.
    - intros m [n Hn]. cbn [m_listener m_threads].
      assert (slots (replicate n TSession) = []) as E by (clear; by induction n).
      split; rewrite ?E; done.
    - intros m m' _. apply m_step_slots. }
  destruct Hok as [H1 H2 H3 H4]. cbn zeta. split_and!; [lia|done|done|]. intros r. split; [apply H4|apply H3].
Qed.

(** ** What the listener promises *)

(** For every remote peer at most one stream, with or without a transport. *)
Record spec := mkSpec { sp_closed : bool; sp_streams : gmap string (nat * option nat) }.

Inductive spec_step (s : spec) : spec -> Prop :=
  (** A peer without a stream gets a new one, *)
  | spec_open r e p :
      sp_closed s = false -> sp_streams s !! r = None ->
      (forall r' x, sp_streams s !! r' = Some x -> x.1 <> e) ->
      spec_step s (mkSpec false (<[r := (e, Some p)]> (sp_streams s)))
  (** a peer whose stream has lost its transport resumes that stream, *)
  | spec_resume r e p :
      sp_closed s = false -> sp_streams s !! r = Some (e, None) ->
      spec_step s (mkSpec false (<[r := (e, Some p)]> (sp_streams s)))
  (** a stream loses the transport it has, *)
  | spec_lose r e p :
      sp_streams s !! r = Some (e, Some p) ->
      spec_step s (mkSpec (sp_closed s) (<[r := (e, None)]> (sp_streams s)))
  (** a stream ends, *)
  | spec_end r x :
      sp_streams s !! r = Some x -> spec_step s (mkSpec (sp_closed s) (delete r (sp_streams s)))
  (** and the listener shuts down, which ends every stream. *)
  | spec_shutdown : spec_step s (mkSpec true ∅).

Definition abs (l : Listener) : spec :=
  mkSpec (li_closed l) ((fun e => (e, li_entries l !! e ≫= es_peer)) <$> li_streams l).

Lemma abs_ext l l' :
  li_closed l' = li_closed l -> li_streams l' = li_streams l ->
  (forall r e, li_streams l !! r = Some e -> (li_entries l' !! e ≫= es_peer) = (li_entries l !! e ≫= es_peer)) ->
  abs l' = abs l.
Proof.
  intros E1 E2 E3. unfold abs. rewrite E1, E2. f_equal. apply map_eq. intros r. rewrite !lookup_fmap.
  destruct (li_streams l !! r) as [e|] eqn:E; [|done]. simpl. by rewrite (E3 r e E).
Qed.

Lemma abs_lookup l r : sp_streams (abs l) !! r = (fun e => (e, li_entries l !! e ≫= es_peer)) <$> (li_streams l !! r).
Proof. unfold abs. simpl. apply lookup_fmap. Qed.

(** The invariant of the streams; numbers from [next] on are unused. *)
Record streams_ok (l : Listener) (next : nat) : Prop := {
  st_entry r e : li_streams l !! r = Some e -> exists en, li_entries l !! e = Some en /\
    lk_closed (es_link en) = false /\ lk_peer (es_link en) = es_peer en /\
    (es_peer en = None <-> is_Some (es_timer en));
  st_inj r r' e : li_streams l !! r = Some e -> li_streams l !! r' = Some e -> r = r';
  st_fresh e : is_Some (li_entries l !! e) -> (e < next)%nat;
  st_closed : li_closed l = true -> li_streams l = ∅
}.

(** An entry is known under one remote peer only. *)
Definition owns (l : Listener) (next : nat) (r : string) (e : nat) : Prop :=
  (e < next)%nat /\ forall r', li_streams l !! r' = Some e -> r' = r.

(** A transition of the listener that keeps the invariant and implements the promise. *)
Record good (l : Listener) (next : nat) (l' : Listener) : Prop := {
  good_ok : streams_ok l' (S next);
  good_spec : abs l' = abs l \/ spec_step (abs l) (abs l');
  good_sub r e : li_streams l' !! r = Some e -> li_streams l !! r = Some e \/ e = next
}.

Lemma streams_ok_S l next : streams_ok l next -> streams_ok l (S next).
Proof. intros [H1 H2 H3 H4]. split; try done. intros e He. apply H3 in He. lia. Qed.

Lemma good_same l next l' :
  streams_ok l next -> li_closed l' = li_closed l -> li_streams l' = li_streams l ->
  li_entries l' = li_entries l -> good l next l'.
Proof.
  intros H E1 E2 E3. split.
  - apply streams_ok_S in H as [H1 H2 H3 H4]. by split; rewrite ?E1, ?E2, ?E3.
  - left. apply abs_ext; [done..|]. by rewrite E3.
  - intros r e. rewrite E2. auto.
Qed.

(** Changing the stream of an entry. *)
Lemma entry_ok l next e en stream :
  streams_ok l next -> li_entries l !! e = Some en ->
  let l' := set_entry l e (mkEntry stream (es_link en) (es_peer en) (es_timer en)) in
  streams_ok l' next /\ abs l' = abs l /\ li_streams l' = li_streams l.
Proof.
  intros [H1 H2 H3 H4] He. cbn zeta. split_and!; [|apply abs_ext; [done..|]|done].
  - split; cbn [set_entry li_streams li_entries li_closed]; try done.
    + intros r e' Hr. destruct (H1 r e' Hr) as (en' & He' & Hx). destruct (decide (e = e')) as [->|Hne].
      * rewrite lookup_insert_eq. simplify_eq. by eexists.
      * rewrite lookup_insert_ne by done. by exists en'.
    + intros e'. destruct (decide (e = e')) as [->|Hne]; [intros _; apply H3; by eexists|].
      rewrite lookup_insert_ne by done. apply H3.
  - intros r e' _. cbn [set_entry li_entries].
    destruct (decide (e = e')) as [->|Hne]; [by rewrite lookup_insert_eq, He|by rewrite lookup_insert_ne].
Qed.

Lemma set_stream_ok l next e s : streams_ok l next ->
  streams_ok (set_stream l e s) next /\ abs (set_stream l e s) = abs l /\ li_streams (set_stream l e s) = li_streams l.
Proof. intros H. unfold set_stream. destruct (li_entries l !! e) eqn:E; [by apply entry_ok|done]. Qed.

Lemma fail_stream_ok l next e err : streams_ok l next ->
  streams_ok (fail_stream l e err) next /\ abs (fail_stream l e err) = abs l /\
  li_streams (fail_stream l e err) = li_streams l.
Proof. intros H. unfold fail_stream. destruct (li_entries l !! e) eqn:E; [by apply entry_ok|done]. Qed.

Lemma good_abs l next l' :
  streams_ok l' next -> abs l' = abs l -> li_streams l' = li_streams l -> good l next l'.
Proof. intros H1 H2 H3. split; [by apply streams_ok_S|by left|]. intros r e. rewrite H3. auto. Qed.

(** Closing the link of an entry that no remote peer has any more. *)
Lemma close_link_ok l next e :
  streams_ok l next -> (forall r, li_streams l !! r <> Some e) ->
  streams_ok (close_link l e) next /\ abs (close_link l e) = abs l /\ li_streams (close_link l e) = li_streams l.
Proof.
  intros [H1 H2 H3 H4] Hn. unfold close_link. destruct (li_entries l !! e) as [en|] eqn:E; [|by split].
  destruct (link_Close (es_link en)) as [link peer].
  set (l1 := set_entry l e _).
  assert (forall p, li_streams (closed_peer l1 p) = li_streams l /\ li_entries (closed_peer l1 p) = li_entries l1 /\
    li_closed (closed_peer l1 p) = li_closed l) as K by (by intros []).
  destruct (K peer) as (Es & Ee & Ec). split_and!; [|apply abs_ext; [done..|]|done].
  - split; rewrite ?Es, ?Ee, ?Ec; try done.
    + intros r e' Hr. destruct (H1 r e' Hr) as (en' & He' & Hx). exists en'. split; [|done].
      cbn. rewrite lookup_insert_ne; [done|]. intros ->. by apply (Hn r).
    + intros e'. cbn. destruct (decide (e = e')) as [->|Hne]; [intros _; apply H3; by eexists|].
      rewrite lookup_insert_ne by done. apply H3.
  - intros r e' Hr. rewrite Ee. cbn. rewrite lookup_insert_ne; [done|]. intros ->. by apply (Hn r).
Qed.

(** Removing the stream of a remote peer. *)
Lemma remove_ok l next r e :
  streams_ok l next -> li_streams l !! r = Some e ->
  let l' := set_streams l (delete r (li_streams l)) in
  streams_ok l' next /\ spec_step (abs l) (abs l') /\ (forall r', li_streams l' !! r' <> Some e) /\
  (forall r' e', li_streams l' !! r' = Some e' -> li_streams l !! r' = Some e').
Proof.
  intros [H1 H2 H3 H4] Hr. cbn zeta. split_and!.
  - split; cbn [set_streams li_streams li_entries li_closed]; try done.
    + intros r' e' [_ Hr']%lookup_delete_Some. by eapply H1.
    + intros r1 r2 e' [_ A]%lookup_delete_Some [_ B]%lookup_delete_Some. by eapply H2.
    + intros Hc. by rewrite H4, delete_empty.
  - assert (abs (set_streams l (delete r (li_streams l))) = mkSpec (sp_closed (abs l)) (delete r (sp_streams (abs l)))) as ->.
    { unfold abs. cbn. by rewrite fmap_delete. }
    apply (spec_end _ r (e, li_entries l !! e ≫= es_peer)). by rewrite abs_lookup, Hr.
  - cbn. intros r' [Hne Hr']%lookup_delete_Some. by destruct (H2 r r' e).
  - cbn. by intros r' e' [_ Hr']%lookup_delete_Some.
Qed.

Lemma activate_good l next r p a l' :
  streams_ok l next -> activate l r p next = (a, l') ->
  good l next l' /\
  match a with
  | Refused => True
  | Opened e => e = next
  | Rebound e => li_streams l !! r = Some e
  end.
Proof.
  intros H. unfold activate. destruct (li_closed l) eqn:Ec; [intros [= <- <-]; split; [by apply good_same|done]|].
  destruct (li_streams l !! r) as [e|] eqn:Er.
  - destruct (st_entry _ _ H r e Er) as (en & He & Hlc & Hlp & Ht). rewrite He.
    destruct (link_Attach (es_link en) p) as [attached link] eqn:Ea.
    destruct (_ || _) eqn:Eg; intros [= <- <-]; [split; [by apply good_same|done]|]. split; [|done].
    apply orb_false_iff in Eg as [Eg1 Eg2]. apply bool_decide_eq_false in Eg1. apply negb_false_iff in Eg2. subst attached.
    assert (es_peer en = None) as Ep by (destruct (es_peer en); [by destruct Eg1; eexists|done]).
    assert (link = mkLink (Some p) false) as ->.
    { unfold link_Attach in Ea. rewrite Hlc in Ea. destruct (_ || _); congruence. }
    split; cbn [set_entry set_timers li_streams li_entries li_closed].
    + apply streams_ok_S in H as [H1 H2 H3 H4]. split; cbn [set_entry set_timers li_streams li_entries li_closed]; try done.
      * intros r' e' Hr'. destruct (decide (e = e')) as [<-|Hne].
        -- rewrite lookup_insert_eq. eexists. split; [done|]. simpl. split_and!; [done|done|]. by split; [|intros [? ?]].
        -- rewrite lookup_insert_ne by done. by eapply H1.
      * intros e'. destruct (decide (e = e')) as [<-|Hne]; [intros _; apply H3; by eexists|].
        rewrite lookup_insert_ne by done. apply H3.
    + right. match goal with |- spec_step _ ?x => assert (x = mkSpec false (<[r := (e, Some p)]> (sp_streams (abs l)))) as -> end.
      { unfold abs. cbn. rewrite Ec. f_equal. apply map_eq. intros r'. rewrite lookup_fmap.
        destruct (decide (r = r')) as [<-|Hne].
        - rewrite Er, lookup_insert_eq. simpl. by rewrite lookup_insert_eq.
        - rewrite lookup_insert_ne, lookup_fmap by done. destruct (li_streams l !! r') as [e'|] eqn:Er'; [|done].
          simpl. rewrite lookup_insert_ne; [done|]. intros <-. apply Hne. by eapply (st_inj _ _ H). }
      apply spec_resume; [done|]. by rewrite abs_lookup, Er; simpl; rewrite He; simpl; rewrite Ep.
    + auto.
  - intros [= <- <-]. split; [|done].
    assert (forall r' e', li_streams l !! r' = Some e' -> e' <> next) as Hf.
    { intros r' e' Hr' ->. destruct (st_entry _ _ H _ _ Hr') as (en & He & _).
      specialize (st_fresh _ _ H next (ex_intro _ en He)). lia. }
    split; cbn [set_streams set_entry li_streams li_entries li_closed].
    + pose proof H as [H1 H2 H3 H4]. split; cbn [set_streams set_entry li_streams li_entries li_closed]; [..|congruence].
      * intros r' e' [[<- <-]|[Hne Hr']]%lookup_insert_Some.
        -- rewrite lookup_insert_eq. eexists. split; [done|]. simpl. split_and!; [done|done|]. by split; [|intros [? ?]].
        -- rewrite lookup_insert_ne by (intros ->; by eapply Hf). by eapply H1.
      * intros r1 r2 e' [[<- <-]|[N1 A]]%lookup_insert_Some [[<- E]|[N2 B]]%lookup_insert_Some; try done.
        -- by destruct (Hf _ _ B).
        -- subst e'. by destruct (Hf _ _ A).
        -- by eapply H2.
      * intros e' [x Hx]. apply lookup_insert_Some in Hx as [[<- _]|[_ Hx]]; [lia|].
        specialize (H3 e' (ex_intro _ x Hx)). lia.
    + right. match goal with |- spec_step _ ?x => assert (x = mkSpec false (<[r := (next, Some p)]> (sp_streams (abs l)))) as -> end.
      { unfold abs. cbn. rewrite Ec. f_equal. rewrite fmap_insert, lookup_insert_eq. f_equal.
        apply map_fmap_ext. intros r' e' Hr'. rewrite lookup_insert_ne; [done|]. intros ->. by eapply Hf. }
      apply spec_open; [done|by rewrite abs_lookup, Er|]. intros r' x Hx. rewrite abs_lookup in Hx.
      destruct (li_streams l !! r') as [e'|] eqn:Er'; [|done]. injection Hx as <-. by eapply Hf.
    + intros r' e' [[<- <-]|[_ Hr']]%lookup_insert_Some; auto.
Qed.

Lemma stop_timers_ok l next t : streams_ok l next ->
  streams_ok (set_timers l t) next /\ abs (set_timers l t) = abs l.
Proof. intros [H1 H2 H3 H4]. by split. Qed.

Lemma streamClosed_good l next r e :
  streams_ok l next -> owns l next r e -> good l next (streamClosed l r e).
Proof.
  intros H [_ Ho]. unfold streamClosed.
  destruct (decide (li_streams l !! r = Some e)) as [Er|Er].
  - rewrite Er, bool_decide_true by done.
    destruct (stop_timers_ok l next (stop_timer (li_timers l) (li_entries l !! e ≫= es_timer)) H) as [Ht At].
    destruct (remove_ok _ _ r e Ht Er) as (K1 & K2 & K3 & K4).
    cbn [set_timers li_streams] in K1, K2, K3, K4. rewrite At in K2.
    destruct (close_link_ok _ _ e K1 K3) as (L1 & L2 & L3).
    split; [by apply streams_ok_S|right; by rewrite L2|]. intros r' e'. rewrite L3. left. by apply K4.
  - assert (match li_streams l !! r with Some current => if bool_decide (current = e) then
        set_streams (set_timers l (stop_timer (li_timers l) (li_entries l !! e ≫= es_timer))) (delete r (li_streams l))
        else l | None => l end = l) as ->.
    { destruct (li_streams l !! r); [|done]. rewrite bool_decide_false; [done|congruence]. }
    destruct (close_link_ok l next e H) as (L1 & L2 & L3).
    { intros r' Hr'. apply Er. by rewrite <- (Ho r'). }
    split; [by apply streams_ok_S|by left|]. intros r' e'. rewrite L3. auto.
Qed.

Lemma timerFired_good l next t : streams_ok l next -> good l next (timerFired l t).
Proof.
  intros H. unfold timerFired. destruct (li_timers l !! t) as [tm|]; [|by apply good_same].
  destruct (_ && _) eqn:E; [|by apply good_same]. apply andb_true_iff in E as [E _]. apply bool_decide_eq_true in E.
  destruct (stop_timers_ok l next (delete t (li_timers l)) H) as [Ht At].
  destruct (remove_ok _ _ _ _ Ht E) as (K1 & K2 & K3 & K4). cbn zeta in K1, K2, K3, K4.
  set (l1 := set_streams _ _) in *.
  destruct (fail_stream_ok l1 next (tm_entry tm) errNotReconnected K1) as (F1 & F2 & F3).
  destruct (close_link_ok _ _ (tm_entry tm) F1) as (L1 & L2 & L3); [intros r; rewrite F3; apply K3|].
  split; [by apply streams_ok_S|right; by rewrite L2, F2, <- At|]. intros r e. rewrite L3, F3. left. by apply K4.
Qed.

Lemma watchEnd_good l next r e p : streams_ok l next -> good l next (watchEnd l r e p next).
Proof.
  intros H. unfold watchEnd. destruct (li_entries l !! e) as [en|] eqn:He; [|by apply good_same].
  destruct (_ || _) eqn:Eg; [by apply good_same|]. apply orb_false_iff in Eg as [E1 E2].
  apply negb_false_iff, bool_decide_eq_true in E1, E2.
  destruct (st_entry _ _ H r e E1) as (en' & He' & Hlc & Hlp & Ht). rewrite He in He'. injection He' as <-.
  unfold link_Detach. rewrite Hlp, E2, bool_decide_true by done.
  split; cbn [set_entry set_timers li_streams li_entries li_closed]; [| |auto].
  - apply streams_ok_S in H as [H1 H2 H3 H4]. split; cbn [set_entry set_timers li_streams li_entries li_closed]; try done.
    + intros r' e' Hr'. destruct (decide (e = e')) as [<-|Hne].
      * rewrite lookup_insert_eq. eexists. split; [done|]. simpl. split_and!; [done|done|]. split; [by eexists|done].
      * rewrite lookup_insert_ne by done. by eapply H1.
    + intros e'. destruct (decide (e = e')) as [<-|Hne]; [intros _; apply H3; by eexists|].
      rewrite lookup_insert_ne by done. apply H3.
  - right. match goal with |- spec_step _ ?x => assert (x = mkSpec (sp_closed (abs l)) (<[r := (e, None)]> (sp_streams (abs l)))) as -> end.
    { unfold abs. cbn. f_equal. apply map_eq. intros r'. rewrite lookup_fmap.
      destruct (decide (r = r')) as [<-|Hne].
      - rewrite E1, lookup_insert_eq. simpl. by rewrite lookup_insert_eq.
      - rewrite lookup_insert_ne, lookup_fmap by done. destruct (li_streams l !! r') as [e'|] eqn:Er'; [|done].
        simpl. rewrite lookup_insert_ne; [done|]. intros <-. apply Hne. by eapply (st_inj _ _ H). }
    apply (spec_lose _ r e p). rewrite abs_lookup, E1. simpl. rewrite He. simpl. by rewrite E2.
Qed.

(** Closing an entry's link or failing its stream keeps the set of entries and the streams. *)
Lemma close_link_frame l e :
  li_closed (close_link l e) = li_closed l /\ li_streams (close_link l e) = li_streams l /\
  forall e', is_Some (li_entries (close_link l e) !! e') <-> is_Some (li_entries l !! e').
Proof.
  unfold close_link. destruct (li_entries l !! e) as [en|] eqn:E; [|done].
  destruct (link_Close (es_link en)) as [link peer]. destruct peer; cbn; split_and!; try done; intros e';
    rewrite lookup_insert_is_Some'; split; auto; intros [<-|?]; try done; by eexists.
Qed.
Lemma fail_stream_frame l e err :
  li_closed (fail_stream l e err) = li_closed l /\ li_streams (fail_stream l e err) = li_streams l /\
  forall e', is_Some (li_entries (fail_stream l e err) !! e') <-> is_Some (li_entries l !! e').
Proof.
  unfold fail_stream. destruct (li_entries l !! e) as [en|] eqn:E; [|done]. cbn; split_and!; try done; intros e'.
  rewrite lookup_insert_is_Some'; split; auto; intros [<-|?]; try done; by eexists.
Qed.

Lemma close_streams_effect remotes l :
  li_closed (close_streams l remotes) = li_closed l /\
  (forall r, li_streams (close_streams l remotes) !! r = if decide (r ∈ remotes) then None else li_streams l !! r) /\
  forall e, is_Some (li_entries (close_streams l remotes) !! e) <-> is_Some (li_entries l !! e).
Proof.
  revert l. induction remotes as [|r0 remotes IH]; intros l.
  - cbn [close_streams]. split_and!; [done| |done]. intros r. by rewrite decide_False by set_solver.
  - cbn [close_streams]. destruct (li_streams l !! r0) as [e0|] eqn:E.
    + set (l1 := set_timers l _).
      destruct (fail_stream_frame l1 e0 ErrCanceled) as (F1 & F2 & F3).
      destruct (close_link_frame (fail_stream l1 e0 ErrCanceled) e0) as (C1 & C2 & C3).
      destruct (IH (set_streams (close_link (fail_stream l1 e0 ErrCanceled) e0)
        (delete r0 (li_streams (close_link (fail_stream l1 e0 ErrCanceled) e0))))) as (I1 & I2 & I3).
      split_and!; [by rewrite I1; cbn; rewrite C1, F1|..].
      * intros r. rewrite I2. cbn. rewrite C2, F2. cbn.
        destruct (decide (r ∈ remotes)); [by rewrite decide_True by set_solver|].
        destruct (decide (r0 = r)) as [<-|Hne]; [by rewrite lookup_delete_eq, decide_True by set_solver|].
        rewrite lookup_delete_ne by done. rewrite decide_False; [done|set_solver].
      * intros e. rewrite I3. cbn. rewrite C3, F3. done.
    + destruct (IH l) as (I1 & I2 & I3). split_and!; [done| |done]. intros r. rewrite I2.
      destruct (decide (r ∈ remotes)); [by rewrite decide_True by set_solver|].
      destruct (decide (r0 = r)) as [<-|Hne]; [by rewrite E; case_match|]. rewrite decide_False; [done|set_solver].
Qed.

Lemma close_locked_good l next remotes :
  streams_ok l next -> remotes ≡ₚ elements (dom (li_streams l)) ->
  good l next (close_locked l remotes) /\ li_closed (close_locked l remotes) = true.
Proof.
  intros H Hr. unfold close_locked. set (l1 := set_shutdown l true).
  destruct (close_streams_effect remotes l1) as (E1 & E2 & E3).
  assert (li_streams (close_streams l1 remotes) = ∅) as Es.
  { apply map_eq. intros r. rewrite E2, lookup_empty. case_decide as D; [done|]. cbn.
    destruct (li_streams l !! r) eqn:Er; [|done]. destruct D. rewrite Hr. apply elem_of_elements, elem_of_dom. by eexists. }
  split; [|by rewrite E1]. split.
  - split; rewrite ?Es; [done|done| |done]. intros e He. apply E3, (st_fresh _ _ H) in He. lia.
  - right. assert (abs (close_streams l1 remotes) = mkSpec true ∅) as ->; [|apply spec_shutdown].
    unfold abs. rewrite Es, E1. cbn. by rewrite fmap_empty.
  - intros r e. rewrite Es. by rewrite lookup_empty.
Qed.

(** ** The invariant of the machine *)

Definition thread_ok (l : Listener) (next : nat) (t : thread) : Prop :=
  match t with
  | TOpened r e _ | TRebound r e _ | TWatch r e _ | TStreamClose r e => owns l next r e
  | TWait => li_closed l = true
  | _ => True
  end.

Record machine_ok (m : machine) : Prop := {
  mo_streams : streams_ok (m_listener m) (m_next m);
  mo_threads : Forall (thread_ok (m_listener m) (m_next m)) (m_threads m);
  mo_delivered : Forall (fun d => owns (m_listener m) (m_next m) d.2 d.1) (li_delivered (m_listener m));
  mo_returned : m_returned m = true -> li_closed (m_listener m) = true
}.

Lemma owns_good l next l' r e : good l next l' -> owns l next r e -> owns l' (S next) r e.
Proof.
  intros G [Hn Ho]. split; [lia|]. intros r' Hr'. destruct (good_sub _ _ _ G _ _ Hr') as [?| ->]; [auto|lia].
Qed.

(** Once closed, always closed. *)
Lemma spec_closed_mono l l' next : good l next l' -> li_closed l = true -> li_closed l' = true.
Proof.
  intros G Hc. change (sp_closed (abs l') = true). destruct (good_spec _ _ _ G) as [->|Hs]; [done|].
  inversion Hs; simplify_eq; cbn in *; congruence.
Qed.

Lemma machine_ok_good m l' ts' returned' :
  machine_ok m -> good (m_listener m) (m_next m) l' ->
  (forall t, t ∈ ts' -> t ∈ m_threads m \/ thread_ok l' (S (m_next m)) t) ->
  Forall (fun d => d ∈ li_delivered (m_listener m) \/ owns l' (S (m_next m)) d.2 d.1) (li_delivered l') ->
  (returned' = true -> m_returned m = true \/ li_closed l' = true) ->
  machine_ok (mkMachine l' ts' (S (m_next m)) returned').
Proof.
  intros [H1 H2 H3 H4] G Ht Hd Hr. split; cbn [m_listener m_threads m_next m_returned].
  - apply G.
  - apply Forall_forall. intros t Hin. destruct (Ht t Hin) as [Hold|]; [|done].
    rewrite Forall_forall in H2. specialize (H2 t Hold). destruct t; cbn in *; try done; try by eapply owns_good.
    by eapply spec_closed_mono.
  - eapply Forall_impl; [exact Hd|]. intros d [Hold|]; [|done]. rewrite Forall_forall in H3.
    by eapply owns_good, H3.
  - intros Hret. destruct (Hr Hret) as [Hx|]; [|done]. by eapply spec_closed_mono, H4.
Qed.

(** Membership in the threads after one has moved. *)
Lemma moved_threads (P : thread -> Prop) pre post old new :
  Forall P new -> forall t, t ∈ pre ++ new ++ post -> t ∈ pre ++ old :: post \/ P t.
Proof.
  intros Hn t. rewrite !elem_of_app, elem_of_cons. intros [?|[Ht|?]]; auto. right. rewrite Forall_forall in Hn. auto.
Qed.
Lemma added_threads (P : thread -> Prop) ts new :
  Forall P new -> forall t, t ∈ new ++ ts -> t ∈ ts \/ P t.
Proof. intros Hn t. rewrite elem_of_app. intros [Ht|?]; auto. right. rewrite Forall_forall in Hn. auto. Qed.

Ltac moved := apply moved_threads; repeat (apply Forall_cons; split); try apply Forall_nil_2; cbn [thread_ok]; try done.

Lemma m_step_ok m m' : machine_ok m -> m_step m m' ->
  machine_ok m' /\ good (m_listener m) (m_next m) (m_listener m').
Proof.
  intros H Hs. pose proof (mo_streams m H) as HS. pose proof (mo_threads m H) as HT.
  pose proof (proj1 (Forall_forall _ _) (mo_delivered m H)) as HD.
  rewrite Forall_forall in HT.
  assert (forall l' ts' ret', good (m_listener m) (m_next m) l' -> li_delivered l' = li_delivered (m_listener m) ->
    (forall t, t ∈ ts' -> t ∈ m_threads m \/ thread_ok l' (S (m_next m)) t) ->
    (ret' = true -> m_returned m = true \/ li_closed l' = true) ->
    machine_ok (mkMachine l' ts' (S (m_next m)) ret') /\ good (m_listener m) (m_next m) l') as K.
  { intros l' ts' ret' G E Ht Hr. split; [|done]. apply machine_ok_good; try done. rewrite E. apply Forall_forall. auto. }
  assert (good (m_listener m) (m_next m) (m_listener m)) as G0 by (by apply good_same).
  destruct Hs; cbn [m_listener];
    try match goal with E : m_threads m = _ |- _ => rewrite E in K, HT end.
  - unfold beginHandshake in *. destruct (negb _); [done|]. destruct (_ || _); [done|]. simplify_eq.
    apply K; [by apply good_same|done|moved|auto].
  - apply K; [|unfold beginHandshake in *; repeat case_match; by simplify_eq|auto|auto].
    unfold beginHandshake in *. repeat case_match; simplify_eq; done.
  - apply K; [done|done|moved|auto].
  - apply K; [done|done|moved|auto].
  - apply K; [done|done|moved|auto].
  - destruct (activate_good _ _ _ _ _ _ HS H1) as [G _]. pose proof (activate_slots _ _ _ _ _ _ H1) as (_ & _ & ?).
    apply K; [done|done|moved|auto].
  - destruct (activate_good _ _ _ _ _ _ HS H1) as [G ->]. pose proof (activate_slots _ _ _ _ _ _ H1) as (_ & _ & ?).
    apply K; [done|done| |auto]. moved. split; [lia|]. intros r' Hr'.
    destruct (good_sub _ _ _ G _ _ Hr') as [Ho|_].
    + destruct (st_entry _ _ HS _ _ Ho) as (en & He & _). pose proof (st_fresh _ _ HS _ (ex_intro _ en He)). lia.
    + unfold activate in H1. repeat case_match; simplify_eq. cbn in Hr'. apply lookup_insert_Some in Hr' as [[<- _]|[_ Ho]]; [done|].
      destruct (st_entry _ _ HS _ _ Ho) as (en & He & _). pose proof (st_fresh _ _ HS _ (ex_intro _ en He)). lia.
  - destruct (activate_good _ _ _ _ _ _ HS H1) as [G Hr]. pose proof (activate_slots _ _ _ _ _ _ H1) as (_ & _ & ?).
    apply K; [done|done| |auto]. moved. apply (owns_good _ _ _ _ _ G).
    destruct (st_entry _ _ HS _ _ Hr) as (en & He & _). split; [by apply (st_fresh _ _ HS); eexists|].
    intros r' Hr'. by eapply (st_inj _ _ HS).
  - assert (owns (m_listener m) (m_next m) remote entry) as Ho by (apply (HT (TOpened remote entry p2p)); set_solver).
    split; [|by apply good_same]. apply machine_ok_good; [done|by apply good_same| | |auto].
    + rewrite H0. moved. split; [destruct Ho; lia|apply Ho].
    + cbn. apply Forall_app. split; [apply Forall_forall; auto|]. apply Forall_singleton. right. cbn. split; [destruct Ho; lia|apply Ho].
  - destruct (set_stream_ok (m_listener m) (m_next m) entry stream' HS) as (A1 & A2 & A3).
    assert (owns (m_listener m) (m_next m) remote entry) as Ho by (apply (HT (TRebound remote entry p2p)); set_solver).
    apply K; [by apply good_abs|apply set_stream_slots| |auto]. moved. unfold owns. rewrite A3. split; [destruct Ho; lia|apply Ho].
  - destruct (set_stream_ok (m_listener m) (m_next m) entry stream' HS) as (A1 & A2 & A3).
    destruct (fail_stream_ok _ _ entry (ErrNew "native WebRTC stream reset") A1) as (B1 & B2 & B3).
    assert (owns (m_listener m) (m_next m) remote entry) as Ho by (apply (HT (TRebound remote entry p2p)); set_solver).
    apply K; [apply good_abs; congruence| | |auto].
    + pose proof (set_stream_slots (m_listener m) entry stream') as (_ & _ & E1).
      pose proof (fail_stream_slots (set_stream (m_listener m) entry stream') entry (ErrNew "native WebRTC stream reset")) as (_ & _ & E2).
      congruence.
    + moved. unfold owns. rewrite B3, A3. split; [destruct Ho; lia|apply Ho].
  - apply K; [by apply good_same|done|moved|auto].
  - destruct (set_stream_ok (m_listener m) (m_next m) entry stream' HS) as (A1 & A2 & A3).
    apply K; [by apply good_abs|apply set_stream_slots|auto|auto].
  - apply K; [done|done| |auto]. apply added_threads, Forall_singleton. cbn. destruct (HD _ H0) as [Hn Ho].
    split; [cbn in Hn; lia|apply Ho].
  - apply K; [apply streamClosed_good; [done|apply (HT (TStreamClose remote entry)); set_solver]|apply streamClosed_slots|moved|auto].
  - apply K; [by apply watchEnd_good|apply watchEnd_slots|moved|auto].
  - apply K; [by apply good_same|done|auto|auto].
  - apply K; [by apply timerFired_good|apply timerFired_slots|auto|auto].
  - apply K; [by apply good_same|done|by apply added_threads, Forall_singleton|auto].
  - destruct (close_locked_good (m_listener m) (m_next m) remotes HS) as [G Hc]; [done|].
    apply K; [done| |moved|auto]. unfold close_locked.
    by pose proof (close_streams_slots (set_shutdown (m_listener m) true) remotes) as (_ & _ & ->).
  - apply K; [done|done|moved|]. intros _. right. apply (HT TWait). set_solver.
Qed.

(** ** Delivery and shutdown *)

(** Streams that are about to be handed to [onStream]. *)
Definition opening_of (t : thread) : option nat := match t with TOpened _ e _ => Some e | _ => None end.
Definition openings (ts : list thread) : list nat := omap opening_of ts.

Lemma openings_app a b : openings (a ++ b) = openings a ++ openings b.
Proof. apply omap_app. Qed.

Record delivery_ok (m : machine) : Prop := {
  do_once : NoDup ((li_delivered (m_listener m)).*1 ++ openings (m_threads m));
  do_quiet : m_returned m = true -> Forall (fun t => counted t = false) (m_threads m)
}.

Lemma m_step_delivery m m' : machine_ok m -> delivery_ok m -> m_step m m' -> delivery_ok m'.
Proof.
  intros H [D1 D2] Hs.
  assert (forall l' ts', li_delivered l' = li_delivered (m_listener m) -> openings ts' = openings (m_threads m) ->
    NoDup ((li_delivered l').*1 ++ openings ts')) as K1 by (intros l' ts' -> ->; done).
  assert (forall pre old post, m_threads m = pre ++ old :: post -> counted old = true -> m_returned m = false) as K2.
  { intros pre old post E Hc. destruct (m_returned m); [|done]. specialize (D2 eq_refl). rewrite E in D2.
    apply Forall_app in D2 as [_ D2]. apply Forall_cons in D2 as [D2 _]. congruence. }
  assert (forall pre old post new, m_threads m = pre ++ old :: post -> Forall (fun t => counted t = false) new ->
    m_returned m = true -> Forall (fun t => counted t = false) (pre ++ new ++ post)) as K3.
  { intros pre old post new E Hn Hr. specialize (D2 Hr). rewrite E in D2. apply Forall_app in D2 as [P1 P2].
    apply Forall_cons in P2 as [_ P2]. by rewrite !Forall_app. }
  assert (forall e, e ∈ (li_delivered (m_listener m)).*1 ++ openings (m_threads m) -> (e < m_next m)%nat) as Hlt.
  { intros e. rewrite elem_of_app. intros [Hd|Ho].
    - apply list_elem_of_fmap in Hd as (d & -> & Hd). pose proof (mo_delivered m H) as HD. rewrite Forall_forall in HD.
      by apply HD in Hd as [? _].
    - apply list_elem_of_omap in Ho as (t & Ht & Ho). pose proof (mo_threads m H) as HT. rewrite Forall_forall in HT.
      apply HT in Ht. destruct t; try done. injection Ho as <-. apply Ht. }
  destruct Hs; split; cbn [m_listener m_threads m_returned];
    try (intros Hr; exfalso; erewrite K2 in Hr by done; discriminate Hr);
    try (by eapply K3; [done|repeat constructor|done]); try done;
    try (match goal with E : m_threads m = _ |- _ => apply K1; [|by rewrite E, !openings_app] end).
  all: try (unfold beginHandshake in *; repeat case_match; by simplify_eq).
  all: try (by eapply activate_slots).
  all: try (apply set_stream_slots).
  all: try (apply streamClosed_slots).
  all: try (apply watchEnd_slots).
  all: try done.
  - pose proof (activate_slots _ _ _ _ _ _ H1) as (_ & _ & ->).
    destruct (activate_good _ _ _ _ _ _ (mo_streams m H) H1) as [_ ->].
    assert ((li_delivered (m_listener m)).*1 ++ openings (pre ++ [TOpened remote (m_next m) p2p] ++ post) ≡ₚ
      m_next m :: ((li_delivered (m_listener m)).*1 ++ openings (m_threads m))) as ->.
    { rewrite H0, !openings_app. cbn. solve_Permutation. }
    apply NoDup_cons. split; [|done]. intros Hin%Hlt. lia.
  - assert ((li_delivered (deliver (m_listener m) entry remote)).*1 ++
        openings (pre ++ [TEnd remote; TWatch remote entry p2p] ++ post) ≡ₚ
      (li_delivered (m_listener m)).*1 ++ openings (m_threads m)) as ->; [|done].
    rewrite H0, !openings_app. cbn [deliver li_delivered]. rewrite fmap_app. cbn. solve_Permutation.
  - pose proof (set_stream_slots (m_listener m) entry stream') as (_ & _ & E1).
    pose proof (fail_stream_slots (set_stream (m_listener m) entry stream') entry (ErrNew "native WebRTC stream reset")) as (_ & _ & E2).
    congruence.
  - apply K1; [apply set_stream_slots|done].
  - intros Hr. apply Forall_app. split; [by repeat constructor|by apply D2].
  - intros Hr. by eapply K3.
  - intros Hr. by eapply K3.
  - apply K1; [apply timerFired_slots|done].
  - intros Hr. apply Forall_app. split; [by repeat constructor|by apply D2].
  - unfold close_locked. by pose proof (close_streams_slots (set_shutdown (m_listener m) true) remotes) as (_ & _ & ->).
  - intros Hr. eapply K3; [done|by repeat constructor|done].
  - intros _. rewrite H0 in H1. apply Forall_app in H1 as [P1 P2]. apply Forall_cons in P2 as [_ P2]. by rewrite Forall_app.
Qed.

Lemma machine_reachable_ok m : reachable m_init m_step m -> machine_ok m /\ delivery_ok m.
Proof.
  revert m. apply invariant.
  - intros m [n Hn]. assert (openings (replicate n TSession) = []) as E by (clear; by induction n).
    split; split; cbn [m_listener m_threads m_next m_returned]; try done.
    + split; try done. intros e [x Hx]. discriminate Hx.
    + apply Forall_replicate. done.
    + rewrite E. constructor.
  - intros m m' _ [H1 H2] Hs. split; [by apply (m_step_ok m)|by apply (m_step_delivery m)].
Qed.

(** C5: the listener implements its promise.  Every step of the goroutines, in any interleaving, is
    invisible at the level of remote peers and their streams or is one of its transitions: a stream is
    resumed only after it lost its transport and keeps its identity, and nothing opens after shutdown. *)
Theorem listener_refines m m' :
  reachable m_init m_step m -> m_step m m' ->
  abs (m_listener m') = abs (m_listener m) \/ spec_step (abs (m_listener m)) (abs (m_listener m')).
Proof.
  intros [H _]%machine_reachable_ok Hs. destruct (m_step_ok _ _ H Hs) as [_ G]. apply G.
Qed.

(** C31: the listener's bookkeeping is consistent.  A stream that a remote peer has is linked to the
    transport its entry names and to no closed link; it has a reconnection timer exactly while it has no
    transport; no stream belongs to two peers or is handed out twice.  When [Close] has returned, no
    stream and no handshake is left. *)
Theorem listener_consistent m :
  reachable m_init m_step m ->
  let l := m_listener m in
  (forall r e, li_streams l !! r = Some e -> exists en, li_entries l !! e = Some en /\
     es_link en = mkLink (es_peer en) false /\ (es_peer en = None <-> is_Some (es_timer en))) /\
  (forall r r' e, li_streams l !! r = Some e -> li_streams l !! r' = Some e -> r = r') /\
  NoDup ((li_delivered l).*1) /\
  (m_returned m = true -> li_streams l = ∅ /\ slots (m_threads m) = []).
Proof.
  intros [[[S1 S2 S3 S4] _ _ R] [D1 D2]]%machine_reachable_ok. cbn zeta. split_and!.
  - intros r e Hr. destruct (S1 r e Hr) as (en & He & Hc & Hp & Ht). exists en. split_and!; [done| |apply Ht..].
    destruct (es_link en); simpl in *. by subst.
  - done.
  - by apply NoDup_app in D1 as [D1 _].
  - intros Hr. split; [by apply S4, R|]. specialize (D2 Hr). clear -D2.
    induction D2 as [|t ts Ht D2 IH]; [done|]. rewrite slots_cons. by destruct t.
Qed.

(** ** Witnesses *)

Module ListenerWitness.
Definition alice : string := "AliceAliceAliceAlice".
Definition m0 : machine := mkMachine newListener [TSession] 0 false.
Definition l1 : Listener := (beginHandshake newListener alice).2.
Definition m1 : machine := mkMachine l1 [TSession; THandshake alice] 1 false.
Definition m2 : machine := mkMachine l1 [TSession; TActivate alice 1] 2 false.
Definition l3 : Listener := (activate l1 alice 1 2).2.
Definition m3 : machine := mkMachine l3 [TSession; TOpened alice 2 1] 3 false.

Lemma reach_m1 : reachable m_init m_step m1.
Proof.
  apply (reach_step _ _ m0); [apply reach_init; by apply (m_start 1)|].
  exact (s_offer m0 [] [] alice l1 eq_refl eq_refl).
Qed.
Lemma reach_m2 : reachable m_init m_step m2.
Proof. apply (reach_step _ _ m1); [exact reach_m1|]. exact (s_handshake_done m1 [TSession] [] alice eq_refl). Qed.
Lemma step_m3 : m_step m2 m3.
Proof. exact (s_activate_opened m2 [TSession] [] alice 1 2 l3 eq_refl eq_refl). Qed.

Lemma listener_handshakes_bounded_witness :
  li_handshakes l1 = 1 /\ Z.of_nat (occ alice (slots (m_threads m1))) <= maxConcurrentHandshakesPeer.
Proof.
  destruct (listener_handshakes_bounded m1 reach_m1) as (_ & H1 & H2). split; [exact H1|apply (H2 alice)].
Defined.

Lemma listener_refines_witness :
  abs l3 = abs l1 \/ spec_step (abs l1) (abs l3).
Proof. exact (listener_refines m2 m3 reach_m2 step_m3). Defined.

Lemma listener_consistent_witness :
  exists en, li_entries l3 !! 2%nat = Some en /\ es_link en = mkLink (es_peer en) false.
Proof.
  destruct (listener_consistent m3 (reach_step _ _ m2 m3 reach_m2 step_m3)) as (H & _).
  destruct (H alice 2%nat eq_refl) as (en & H1 & H2 & _). exists en. exact (conj H1 H2).
Defined.
End ListenerWitness.
