(* ===== verification/WebrtcLocks.v ===== *)
(** The mutexes and condition variables of a listener's stream: which locks the methods of
    nativewebrtc/stream.go and of [peerLink] and [Listener] in nativewebrtc/endpoint.go take, in which
    order, and where they wait.

    A method is the list of its synchronisation actions; data that does not decide whether a goroutine
    waits is left out.  Goroutines interleave action by action. *)
From S2P Require Export Prelude.

Inductive mutex := writeMu | flowMu | readMu | linkMu | listenerMu.
#[export] Instance mutex_eq_dec : EqDecision mutex.
Proof. solve_decision. Defined.

(** An action may end its method early: it then skips the actions up to the end of it. *)
Inductive action :=
  | Lock (mu : mutex)
  | Unlock (mu : mutex)
  (** [if s.writeClosed || s.closed.Load() { return }]. *)
  | ReturnIfClosed (skip : nat)
  (** [if s.writeClosed { return }]. *)
  | ReturnIfWriteClosed (skip : nat)
  (** The loop on [flowCond] with the flow mutex, entered while there is no credit. *)
  | AwaitCredit
  (** [if s.closed.Load()] after that loop. *)
  | ReturnIfFailed (skip : nat)
  (** The loop on [cond] of [peerLink.Send] with the link's mutex. *)
  | AwaitTransport
  (** [if !s.closed.CompareAndSwap(false, true) { return }]. *)
  | CasClosed (skip : nat)
  (** Leaving out actions of another way out of the method. *)
  | Skip (skip : nat)
  | SetReadClosed
  | SetWriteClosed
  | AddCredit
  | AttachTransport
  | DetachTransport
  | SetLinkClosed.

Record shared := mkShared {
  sh_held : mutex -> option nat;
  sh_closed : bool;
  sh_readClosed : bool;
  sh_writeClosed : bool;
  sh_credit : bool;
  sh_transport : bool;
  sh_linkClosed : bool
}.

Definition set_held (s : shared) (mu : mutex) (holder : option nat) : shared :=
  mkShared (fun mu' => if decide (mu' = mu) then holder else sh_held s mu') (sh_closed s) (sh_readClosed s)
    (sh_writeClosed s) (sh_credit s) (sh_transport s) (sh_linkClosed s).

(** One action of goroutine [tid]: the new state and how many actions to skip, or [None]
    while it waits. *)
Definition exec (s : shared) (tid : nat) (a : action) : option (shared * nat) :=
  match a with
  | Lock mu =>
      match sh_held s mu with None => Some (set_held s mu (Some tid), 0) | Some _ => None end
  | Unlock mu => Some (set_held s mu None, 0)
  | ReturnIfClosed n => Some (s, if sh_writeClosed s || sh_closed s then n else 0)
  | ReturnIfWriteClosed n => Some (s, if sh_writeClosed s then n else 0)
  | AwaitCredit =>
      match sh_held s flowMu with
      | None => if sh_credit s || sh_closed s then Some (set_held s flowMu (Some tid), 0) else None
      | Some _ => None
      end
  | ReturnIfFailed n => Some (s, if sh_closed s then n else 0)
  | AwaitTransport =>
      match sh_held s linkMu with
      | None => if sh_transport s || sh_linkClosed s then Some (set_held s linkMu (Some tid), 0) else None
      | Some _ => None
      end
  | CasClosed n =>
      Some (mkShared (sh_held s) true (sh_readClosed s) (sh_writeClosed s) (sh_credit s) (sh_transport s)
              (sh_linkClosed s), if sh_closed s then n else 0)
  | Skip n => Some (s, n)
  | SetReadClosed =>
      Some (mkShared (sh_held s) (sh_closed s) true (sh_writeClosed s) (sh_credit s) (sh_transport s) (sh_linkClosed s), 0)
  | SetWriteClosed =>
      Some (mkShared (sh_held s) (sh_closed s) (sh_readClosed s) true (sh_credit s) (sh_transport s) (sh_linkClosed s), 0)
  | AddCredit =>
      Some (mkShared (sh_held s) (sh_closed s) (sh_readClosed s) (sh_writeClosed s) true (sh_transport s) (sh_linkClosed s), 0)
  | AttachTransport =>
      Some (mkShared (sh_held s) (sh_closed s) (sh_readClosed s) (sh_writeClosed s) (sh_credit s)
              (negb (sh_linkClosed s)) (sh_linkClosed s), 0)
  | DetachTransport =>
      Some (mkShared (sh_held s) (sh_closed s) (sh_readClosed s) (sh_writeClosed s) (sh_credit s) false (sh_linkClosed s), 0)
  | SetLinkClosed =>
      Some (mkShared (sh_held s) (sh_closed s) (sh_readClosed s) (sh_writeClosed s) (sh_credit s) false true, 0)
  end.

(** ** The methods *)

(** [peerLink.Send] up to the send of the transport, which takes none of these mutexes. *)
Definition sync_send : list action := [AwaitTransport; Unlock linkMu].
Definition sync_acknowledge : list action := [Lock flowMu; AddCredit; Unlock flowMu].
Definition sync_Read : list action := [Lock readMu; Unlock readMu].
(** [Write]; a failed send gives the credit back. *)
Definition sync_Write_then (sent : list action) : list action :=
  [Lock writeMu; ReturnIfClosed (7 + length sent); AwaitCredit; ReturnIfFailed (4 + length sent); Unlock flowMu] ++
  sync_send ++ sent ++ [Skip 1; Unlock flowMu; Unlock writeMu].
Definition sync_Write : list action := sync_Write_then [].
Definition sync_Write_failed : list action := sync_Write_then sync_acknowledge.
Definition sync_CloseWrite : list action :=
  [Lock writeMu; ReturnIfWriteClosed 3; SetWriteClosed] ++ sync_send ++ [Unlock writeMu].
Definition sync_fail : list action :=
  [CasClosed 8; Lock flowMu; Unlock flowMu; Lock readMu; SetReadClosed; Unlock readMu;
   Lock writeMu; SetWriteClosed; Unlock writeMu].
Definition sync_link_Close : list action := [Lock linkMu; SetLinkClosed; Unlock linkMu].
(** The callback of a listener's stream: it leaves [streams], then its link is closed. *)
Definition sync_closePeer : list action := [Lock listenerMu; Unlock listenerMu] ++ sync_link_Close.
Definition sync_Close : list action := sync_CloseWrite ++ sync_fail ++ sync_closePeer.
Definition sync_Reset : list action := sync_fail ++ sync_send ++ sync_closePeer.
Definition sync_Receive_data : list action := [Lock readMu; Unlock readMu].
Definition sync_Receive_abort : list action := sync_fail.
Definition sync_Receive_resume : list action := sync_acknowledge ++ sync_send.
Definition sync_Reconnected : list action := sync_acknowledge ++ sync_send ++ sync_send.
Definition sync_keepAlive : list action := sync_send.
(** The locked part of [activate] for a stream without a transport. *)
Definition sync_activate : list action :=
  [Lock listenerMu; Lock linkMu; AttachTransport; Unlock linkMu; Unlock listenerMu].
Definition sync_watch : list action :=
  [Lock listenerMu; Lock linkMu; DetachTransport; Unlock linkMu; Unlock listenerMu].
(** The function of the reconnection timer, and [Listener.Close]. *)
Definition sync_timer : list action := [Lock listenerMu] ++ sync_fail ++ sync_link_Close ++ [Unlock listenerMu].
Definition sync_Listener_Close : list action :=
  [Lock listenerMu] ++ sync_fail ++ sync_link_Close ++ [Unlock listenerMu].

Definition methods : list (list action) :=
  [sync_Read; sync_Write; sync_Write_failed; sync_CloseWrite; sync_Close; sync_Reset; sync_Receive_data; sync_Receive_abort;
   sync_Receive_resume; sync_acknowledge; sync_Reconnected; sync_keepAlive; sync_activate; sync_watch; sync_timer; sync_Listener_Close].

(** ** Goroutines *)

Record locks := mkLocks { lc_shared : shared; lc_threads : gmap nat (list action) }.

(** A stream that has lost its transport, with every mutex free. *)
Definition detached : shared := mkShared (fun _ => None) false false false true false false.

Inductive lock_step (m : locks) : locks -> Prop :=
  | l_call tid method : lc_threads m !! tid = None -> method ∈ methods ->
      lock_step m (mkLocks (lc_shared m) (<[tid := method]> (lc_threads m)))
  | l_exec tid a rest s' skip : lc_threads m !! tid = Some (a :: rest) -> exec (lc_shared m) tid a = Some (s', skip) ->
      lock_step m (mkLocks s' (<[tid := drop skip rest]> (lc_threads m))).

(** ** Deadlock *)

(** A writer holds the write mutex and waits for a transport; the timer holds the listener's mutex
    and waits for the write mutex. *)
Definition deadlocked (m : locks) : Prop :=
  lc_threads m !! 0%nat = Some (drop 5 sync_Write) /\
  lc_threads m !! 1%nat = Some (drop 7 sync_timer) /\
  sh_held (lc_shared m) writeMu = Some 0%nat /\ sh_held (lc_shared m) listenerMu = Some 1%nat /\
  sh_transport (lc_shared m) = false /\ sh_linkClosed (lc_shared m) = false.

(** What the rest of a goroutine may do without either of the two mutexes: nothing that would give
    the writer a transport or release the mutexes. *)
Fixpoint harmless (fuel : nat) (p : list action) : bool :=
  match fuel, p with
  | O, _ => false
  | _, [] => true
  | S fuel, a :: rest =>
      match a with
      | Lock writeMu | Lock listenerMu => true
      | Unlock writeMu | Unlock listenerMu | AttachTransport | SetLinkClosed => false
      | ReturnIfClosed n | ReturnIfWriteClosed n | ReturnIfFailed n | CasClosed n =>
          harmless fuel rest && harmless fuel (drop n rest)
      | Skip n => harmless fuel (drop n rest)
      | _ => harmless fuel rest
      end
  end.

Lemma harmless_mono fuel p : harmless fuel p = true -> harmless (S fuel) p = true.
Proof.
  revert p. induction fuel as [|fuel IH]; intros p; [done|]. destruct p as [|a p]; [done|].
  intros H. remember (S fuel) as f. cbn [harmless]. subst f. cbn [harmless] in H.
  destruct a as [[]|[]| | | | | | | | | | | | |]; try done; try (by apply IH);
    apply andb_true_iff in H as [H1 H2]; apply andb_true_iff; auto.
Qed.

(** A harmless goroutine stays harmless and touches neither mutex nor the transport. *)
Lemma harmless_exec fuel s tid a rest s' skip :
  harmless fuel (a :: rest) = true -> exec s tid a = Some (s', skip) ->
  is_Some (sh_held s writeMu) -> is_Some (sh_held s listenerMu) ->
  harmless fuel (drop skip rest) = true /\ sh_held s' writeMu = sh_held s writeMu /\
  sh_held s' listenerMu = sh_held s listenerMu /\
  (sh_transport s = false -> sh_transport s' = false) /\ sh_linkClosed s' = sh_linkClosed s.
Proof.
  intros H He [w Hw] [l Hl]. destruct fuel as [|fuel]; [done|].
  assert (forall p, harmless fuel p = true -> harmless (S fuel) p = true) as Hm by (intros; by apply harmless_mono).
  cbn [harmless] in H. destruct a as [[]|[]|n|n| |n| |n|n| | | | | |]; try discriminate H; cbn [exec] in He;
    try (rewrite Hw in He; discriminate He); try (rewrite Hl in He; discriminate He);
    try (apply andb_true_iff in H as [H1 H2]); repeat case_match; simplify_eq;
    (split; [apply Hm; done|]); done.
Qed.

Lemma methods_harmless method : method ∈ methods -> exists fuel, harmless fuel method = true.
Proof.
  intros H. exists 30%nat.
  assert (Forall (fun p => harmless 30 p = true) methods) as Hall by (repeat constructor).
  rewrite Forall_forall in Hall. auto.
Qed.

Definition stuck (m : locks) : Prop :=
  deadlocked m /\ forall tid p, lc_threads m !! tid = Some p -> tid <> 0%nat -> tid <> 1%nat ->
    exists fuel, harmless fuel p = true.

Lemma stuck_step m m' : stuck m -> lock_step m m' -> stuck m'.
Proof.
  intros [(T0 & T1 & W & L & Tr & Lc) Ho] Hs. destruct Hs as [tid method Hn Hm|tid a rest s' skip Ht He].
  - split; [|].
    + unfold deadlocked; cbn [lc_shared lc_threads].
      rewrite !lookup_insert_ne by (intros ->; congruence). done.
    + intros tid' p Hp N0 N1. cbn in Hp. apply lookup_insert_Some in Hp as [[_ <-]|[_ Hp]]; [exact (methods_harmless _ Hm)|eauto].
  - destruct (decide (tid = 0%nat)) as [->|N0].
    { rewrite T0 in Ht. injection Ht as <- <-. cbn [exec] in He. rewrite Tr, Lc in He.
      cbn [orb] in He. destruct (sh_held (lc_shared m) linkMu); discriminate He. }
    destruct (decide (tid = 1%nat)) as [->|N1].
    { rewrite T1 in Ht. injection Ht as <- <-. cbn [exec] in He. by rewrite W in He. }
    destruct (Ho tid (a :: rest) Ht N0 N1) as [fuel Hf].
    destruct (harmless_exec _ _ _ _ _ _ _ Hf He) as (H1 & H2 & H3 & H4 & H5); [by eexists..|].
    split.
    + unfold deadlocked; cbn [lc_shared lc_threads]. rewrite !lookup_insert_ne by done.
      split_and!; try done; [congruence|congruence|auto|congruence].
    + intros tid' p Hp N0' N1'. cbn in Hp. apply lookup_insert_Some in Hp as [[<- <-]|[_ Hp]]; eauto.
Qed.

(** Steps of given goroutines, as a function. *)
Fixpoint schedule (m : locks) (tids : list nat) : option locks :=
  match tids with
  | [] => Some m
  | tid :: tids =>
      match lc_threads m !! tid with
      | Some (a :: rest) =>
          match exec (lc_shared m) tid a with
          | Some (s', skip) => schedule (mkLocks s' (<[tid := drop skip rest]> (lc_threads m))) tids
          | None => None
          end
      | _ => None
      end
  end.

Lemma schedule_reachable init m tids m' :
  reachable init lock_step m -> schedule m tids = Some m' -> reachable init lock_step m'.
Proof.
  revert m. induction tids as [|tid tids IH]; intros m Hm; cbn [schedule]; [by intros [= <-]|].
  destruct (lc_threads m !! tid) as [[|a rest]|] eqn:E; [done| |done].
  destruct (exec (lc_shared m) tid a) as [[s' skip]|] eqn:Ee; [|done]. apply IH.
  eapply reach_step; [done|]. by eapply l_exec.
Qed.

(** C32: A stream that loses its transport while a write is in progress can deadlock its listener.
    A write after the loss holds the write mutex and waits for a transport.  When the reconnection timer
    fires, its function locks the listener and fails the stream, which needs the write mutex, before
    it closes the link, which would wake the writer.  Then both wait for ever, whatever other methods are
    called, and the listener stays locked. *)
Theorem reconnect_timeout_deadlock :
  exists m, reachable (fun m => m = mkLocks detached ∅) lock_step m /\ deadlocked m /\
    forall m', reachable (fun m0 => m0 = m) lock_step m' -> deadlocked m'.
Proof.
  set (m1 := mkLocks detached (<[1%nat := sync_timer]> (<[0%nat := sync_Write]> ∅))).
  assert (reachable (fun m => m = mkLocks detached ∅) lock_step m1) as H1.
  { set (ma := mkLocks detached (<[0%nat := sync_Write]> ∅)).
    assert (sync_Write ∈ methods /\ sync_timer ∈ methods) as [I0 I1] by (unfold methods; split; set_solver).
    apply (reach_step _ _ ma).
    - eapply reach_step; [by apply reach_init|]. exact (l_call (mkLocks detached ∅) 0 sync_Write eq_refl I0).
    - exact (l_call ma 1 sync_timer eq_refl I1). }
  destruct (schedule m1 (replicate 5 0%nat ++ replicate 7 1%nat)) as [m|] eqn:E; [|vm_compute in E; discriminate E].
  assert (stuck m) as Hs.
  { assert (deadlocked m /\ dom (lc_threads m) = {[0%nat; 1%nat]}) as [Hd Hdom].
    { vm_compute in E. injection E as <-. split; [by repeat split|]. by apply (bool_decide_unpack _). }
    split; [done|]. intros tid p Hp N0 N1. apply elem_of_dom_2 in Hp. rewrite Hdom in Hp. set_solver. }
  exists m. split; [by eapply schedule_reachable|]. split; [apply Hs|].
  intros m' Hm'. assert (stuck m') as [? _]; [|done]. revert m' Hm'. apply invariant; [by intros ? ->|].
  intros s s' _. apply stuck_step.
Qed.
