(* ===== verification/Trackers.v ===== *)
(** The two signaling services: WebTorrent trackers (nativewebrtc/torrent.go) and Nostr relays
    (nativewebrtc/nostr.go).

    A session's maps are its state; a WebSocket is connected or not, and writing to it has an
    outcome given from outside.  A [for range] over a map takes the order as an argument. *)
From S2P Require Export Signaling.
From S2P Require Import ExtModel.
Local Open Scope Z_scope.

(** ** Signals as JSON *)

Definition omit_string (name value : string) : list (string * json) :=
  if bool_decide (value = "") then [] else [(name, JString value)].
Definition omit_map (name : string) (value : option (list (string * json))) : list (string * json) :=
  match value with None | Some [] => [] | Some m => [(name, JObject m)] end.

(** [json.Marshal(signal)]: the fields in order, those with [omitempty] left out when empty. *)
Definition signal_fields (s : Signal) : list (string * json) :=
  [("version", JNumber (bytes_of (itoa (sg_Version s)))); ("room", JString (sg_Room s));
   ("type", JString (sg_Type s)); ("sessionId", JString (sg_SessionID s)); ("from", JString (sg_From s))] ++
  omit_string "to" (sg_To s) ++ [("createdAt", JNumber (bytes_of (itoa (sg_CreatedAt s))))] ++
  omit_string "sdp" (sg_SDP s) ++ omit_map "candidate" (sg_Candidate s) ++ omit_string "encrypted" (sg_Encrypted s).
Definition MarshalSignal (s : Signal) : list byte := Marshal_json (JObject (signal_fields s)).

(** Decoding into a string and into an integer field. *)
Definition set_string (value : json) (old : string) : option string :=
  match value with JString s => Some s | JNull => Some old | _ => None end.
Definition set_int (value : json) (old : Z) : option Z :=
  match value with JNumber n => to_option (Atoi (string_of n)) | JNull => Some old | _ => None end.
Definition set_map `{!Floats} (value : json) (old : option (list (string * json)))
    : option (option (list (string * json))) :=
  match value with
  | JObject members => Some <$> merge_members (default [] old) members
  | JNull => Some None
  | _ => None
  end.

(** One member of the document into the field whose name it folds to. *)
Definition decode_signal_field `{!Floats} (s : Signal) (name : string) (v : json) : option Signal :=
  let name := string_of (fold_name (bytes_of name)) in
  let 'mkSignal version room type session from to created sdp candidate encrypted := s in
  if bool_decide (name = "VERSION") then
    x ← set_int v version; Some (mkSignal x room type session from to created sdp candidate encrypted)
  else if bool_decide (name = "ROOM") then
    x ← set_string v room; Some (mkSignal version x type session from to created sdp candidate encrypted)
  else if bool_decide (name = "TYPE") then
    x ← set_string v type; Some (mkSignal version room x session from to created sdp candidate encrypted)
  else if bool_decide (name = "SESSIONID") then
    x ← set_string v session; Some (mkSignal version room type x from to created sdp candidate encrypted)
  else if bool_decide (name = "FROM") then
    x ← set_string v from; Some (mkSignal version room type session x to created sdp candidate encrypted)
  else if bool_decide (name = "TO") then
    x ← set_string v to; Some (mkSignal version room type session from x created sdp candidate encrypted)
  else if bool_decide (name = "CREATEDAT") then
    x ← set_int v created; Some (mkSignal version room type session from to x sdp candidate encrypted)
  else if bool_decide (name = "SDP") then
    x ← set_string v sdp; Some (mkSignal version room type session from to created x candidate encrypted)
  else if bool_decide (name = "CANDIDATE") then
    x ← set_map v candidate; Some (mkSignal version room type session from to created sdp x encrypted)
  else if bool_decide (name = "ENCRYPTED") then
    x ← set_string v encrypted; Some (mkSignal version room type session from to created sdp candidate x)
  else Some s.

Fixpoint decode_signal `{!Floats} (s : Signal) (fields : list (string * json)) : option Signal :=
  match fields with
  | [] => Some s
  | (name, v) :: fields => s ← decode_signal_field s name v; decode_signal s fields
  end.

Definition UnmarshalSignal `{!Floats} (data : list byte) : option Signal :=
  v ← parse_document data;
  match v with
  | JObject fields => decode_signal emptySignal fields
  | JNull => Some emptySignal
  | _ => None
  end.

(** ** WebTorrent trackers *)

Definition encryptedTrackerPrefix : string := "pnc-signal-v1:".

Section sessions.
Context `{LP : !Libp2p}.

Record TorrentSession := mkTorrent {
  ts_topic : string;
  ts_hash : string;
  ts_peerID : string;
  ts_token : option Token;
  (** [sockets]: by URL, whether it is connected. *)
  ts_sockets : gmap string bool;
  ts_offers : gmap string Signal;
  ts_offerOrigins : gmap string string;
  ts_seen : gmap string Time;
  (** The channel [events], of capacity 64. *)
  ts_events : list Signal;
  ts_cancelled : bool;
  ts_open : Z
}.

Definition upd_offers (s : TorrentSession) (offers : gmap string Signal) (origins : gmap string string) : TorrentSession :=
  mkTorrent (ts_topic s) (ts_hash s) (ts_peerID s) (ts_token s) (ts_sockets s) offers origins (ts_seen s)
    (ts_events s) (ts_cancelled s) (ts_open s).
Definition upd_seen (s : TorrentSession) (seen : gmap string Time) : TorrentSession :=
  mkTorrent (ts_topic s) (ts_hash s) (ts_peerID s) (ts_token s) (ts_sockets s) (ts_offers s) (ts_offerOrigins s) seen
    (ts_events s) (ts_cancelled s) (ts_open s).
Definition upd_events (s : TorrentSession) (events : list Signal) : TorrentSession :=
  mkTorrent (ts_topic s) (ts_hash s) (ts_peerID s) (ts_token s) (ts_sockets s) (ts_offers s) (ts_offerOrigins s)
    (ts_seen s) events (ts_cancelled s) (ts_open s).
Definition upd_sockets (s : TorrentSession) (sockets : gmap string bool) (open : Z) : TorrentSession :=
  mkTorrent (ts_topic s) (ts_hash s) (ts_peerID s) (ts_token s) sockets (ts_offers s) (ts_offerOrigins s)
    (ts_seen s) (ts_events s) (ts_cancelled s) open.

Definition DefaultTorrentURLs : list string :=
  ["wss://open.ftorrent.com"; "wss://tracker.webtorrent.dev"; "wss://tracker.openwebtorrent.com";
   "wss://tracker.btorrent.xyz"; "wss://tracker.files.fm:7073/announce"].

(** [torrentSocket.write]; [writeErr] is the outcome of [WriteJSON].  No result: there is no such
    socket and the receiver is nil. *)
Definition socket_write (s : TorrentSession) (writeErr : string -> option error) (url : string) (payload : json)
    : option (option error * list (string * json)) :=
  connected ← ts_sockets s !! url;
  if connected : bool then
    match writeErr url with
    | None => Some (None, [(url, payload)])
    | Some err => Some (Some err, [])
    end
  else Some (Some (ErrNew "tracker WebSocket is not connected"), []).

(** The loop of [writeAll], in the order [urls]: messages sent, and the first error. *)
Fixpoint write_each (s : TorrentSession) (writeErr : string -> option error) (payload : json)
    (urls : list string) : option (list (string * json) * option error) :=
  match urls with
  | [] => Some ([], None)
  | url :: urls =>
      '(err, sent) ← socket_write s writeErr url payload;
      '(rest, firstErr) ← write_each s writeErr payload urls;
      Some (sent ++ rest, match err with Some _ => err | None => firstErr end)
  end.
Definition writeAll (s : TorrentSession) (writeErr : string -> option error) (urls : list string) (payload : json)
    : option (option error * list (string * json)) :=
  '(sent, firstErr) ← write_each s writeErr payload urls;
  match sent with
  | [] => Some (Some (default (ErrNew "no WebTorrent tracker is connected") firstErr), [])
  | _ => Some (None, sent)
  end.

Definition trackerSignal (signal : Signal) : string :=
  if bool_decide (sg_Encrypted signal = "") then sg_SDP signal
  else encryptedTrackerPrefix +:+ EncodeToString (MarshalSignal signal).

Definition offer_entry (signal : Signal) : json :=
  JObject [("offer", JObject [("sdp", JString (trackerSignal signal)); ("type", JString "offer")]);
           ("offer_id", JString (sg_SessionID signal))].

(** [ids] is the order in which the offers are visited. *)
Definition announcePayload (s : TorrentSession) (ids : list string) : json :=
  let offers := take 3 (omap (fun id => offer_entry <$> (ts_offers s !! id)) ids) in
  JObject [("action", JString "announce"); ("info_hash", JString (ts_hash s)); ("numwant", JNumber [x33]);
           ("offers", JArray offers); ("peer_id", JString (ts_peerID s))].

Definition answer_payload (s : TorrentSession) (signal : Signal) : json :=
  JObject [("action", JString "announce");
           ("answer", JObject [("sdp", JString (trackerSignal signal)); ("type", JString "answer")]);
           ("info_hash", JString (ts_hash s)); ("offer_id", JString (sg_SessionID signal));
           ("peer_id", JString (ts_peerID s)); ("to_peer_id", JString (sg_To signal))].

Definition origin_key (sessionID peer : string) : string := sessionID +:+ ":" +:+ peer.

(** The type assertions [value[name].(string)] and [value[name].(map[string]any)]. *)
Definition member (value : list (string * json)) (name : string) : option json :=
  snd <$> find (fun kv => bool_decide (kv.1 = name)) value.
Definition member_string (value : list (string * json)) (name : string) : string :=
  match member value name with Some (JString s) => s | _ => "" end.
Definition member_map (value : list (string * json)) (name : string) : option (list (string * json)) :=
  match member value name with Some (JObject m) => Some m | _ => None end.

Context `{CB : !Cbor, CR : !Crypto, FL : !Floats, S1 : !Sha1}.

Definition NewTorrentSession (roomID peerID : string) (urls : list string) (token : option Token)
    : result TorrentSession :=
  topic ← SignalingRoomTopic roomID token;
  refuse (negb (clientIDPattern peerID))
    (ErrNew "native signaling peerId must contain exactly 20 ASCII letters or digits");;
  let urls := match urls with [] => DefaultTorrentURLs | _ => urls end in
  Ok (mkTorrent topic (TorrentInfoHash topic) peerID token (list_to_map ((fun url => (url, false)) <$> urls))
        ∅ ∅ ∅ [] false 0).

(** [Publish]: the error, the session and the messages written to trackers; [urls] and [ids] are the
    orders in which the sockets and the offers are visited. *)
Definition torrent_Publish (s : TorrentSession) (value : Signal) (now : Time) (random : result (list byte))
    (writeErr : string -> option error) (urls ids : list string)
    : option (option error * TorrentSession * list (string * json)) :=
  match prepareOutgoing value (ts_topic s) (ts_peerID s) (ts_token s) now random with
  | Err err => Some (Some err, s, [])
  | Ok signal =>
      if bool_decide (sg_Type signal = "candidate")
      then Some (Some (ErrNew "native BitTorrent signaling requires complete non-trickle SDP"), s, [])
      else
        let key := origin_key (sg_SessionID signal) (sg_To signal) in
        let s :=
          if bool_decide (sg_Type signal = "offer")
          then upd_offers s (<[sg_SessionID signal := signal]> (ts_offers s)) (ts_offerOrigins s)
          else if bool_decide (sg_Type signal = "bye")
          then upd_offers s (delete (sg_SessionID signal) (ts_offers s)) (delete key (ts_offerOrigins s))
          else s in
        let origin := default "" (ts_offerOrigins s !! key) in
        if bool_decide (sg_Type signal = "answer") then
          '(err, sent) ←
            (if bool_decide (origin = "") then writeAll s writeErr urls (answer_payload s signal)
             else socket_write s writeErr origin (answer_payload s signal));
          Some (err, s, sent)
        else '(err, sent) ← writeAll s writeErr urls (announcePayload s ids); Some (err, s, sent)
  end.

Definition trackerIncoming (s : TorrentSession) (value signalType sessionID from to : string) (now : Time) : Signal :=
  if negb (HasPrefix value encryptedTrackerPrefix)
  then mkSignal SignalVersion (ts_topic s) signalType sessionID from to (toUnixMilli now) value None ""
  else match DecodeString (TrimPrefix value encryptedTrackerPrefix) with
  | None => emptySignal
  | Some decoded =>
      match UnmarshalSignal decoded with
      | None => emptySignal
      | Some signal =>
          if negb (bool_decide (sg_Type signal = signalType)) || negb (bool_decide (sg_SessionID signal = sessionID)) ||
             negb (bool_decide (sg_From signal = from)) || negb (bool_decide (sg_Room signal = ts_topic s)) ||
             (negb (bool_decide (sg_To signal = "")) && negb (bool_decide (sg_To signal = to)))
          then emptySignal else signal
      end
  end.

(** Sending to [events]: blocked while the channel is full; [pick] decides if the session has ended. *)
Definition torrent_emit (s : TorrentSession) (signal : Signal) (pick : bool) : option TorrentSession :=
  if (Z.of_nat (length (ts_events s)) <? 64) && (negb (ts_cancelled s) || pick)
  then Some (upd_events s (ts_events s ++ [signal]))
  else if ts_cancelled s then Some s else None.

(** The part of [receive] after a signal was taken out of the message. *)
Definition accept_signal (s : TorrentSession) (signal : Signal) (now : Time) (pick : bool) : option TorrentSession :=
  match openIncoming signal (ts_topic s) (ts_peerID s) (ts_token s) now with
  | None => Some s
  | Some opened =>
      let key := sg_Type opened +:+ ":" +:+ sg_SessionID opened +:+ ":" +:+ sg_From opened in
      if match ts_seen s !! key with
         | Some seen => negb (IsZero seen) && (Sub now seen <? 5 * Second)
         | None => false
         end
      then Some s
      else
        let seen := base.filter (fun kv => ~ signalTTL < Sub now kv.2) (<[key := now]> (ts_seen s)) in
        torrent_emit (upd_seen s seen) opened pick
  end.

Definition torrent_receive (s : TorrentSession) (url : string) (value : list (string * json)) (now : Time) (pick : bool)
    : option TorrentSession :=
  let remote := member_string value "peer_id" in
  let offerID := member_string value "offer_id" in
  if bool_decide (remote = "") || bool_decide (remote = ts_peerID s) || bool_decide (offerID = "") then Some s
  else match member_map value "offer" with
  | Some offer =>
      let sdp := member_string offer "sdp" in
      if bool_decide (sdp = "") then Some s
      else
        let signal := trackerIncoming s sdp "offer" offerID remote (ts_peerID s) now in
        let s := upd_offers s (ts_offers s) (<[origin_key offerID remote := url]> (ts_offerOrigins s)) in
        accept_signal s signal now pick
  | None =>
      match member_map value "answer" with
      | Some answer =>
          let sdp := member_string answer "sdp" in
          let expected := ts_offers s !! offerID in
          let s := upd_offers s (delete offerID (ts_offers s)) (ts_offerOrigins s) in
          match expected with
          | Some _ =>
              if bool_decide (sdp = "") then Some s
              else accept_signal s (trackerIncoming s sdp "answer" offerID remote (ts_peerID s) now) now pick
          | None => Some s
          end
      | None => Some s
      end
  end.

Definition torrent_Close (s : TorrentSession) : TorrentSession :=
  if ts_cancelled s then s
  else mkTorrent (ts_topic s) (ts_hash s) (ts_peerID s) (ts_token s) ((fun _ => false) <$> ts_sockets s) (ts_offers s)
         (ts_offerOrigins s) (ts_seen s) (ts_events s) true (ts_open s).

(** One turn of [connectLoop]: the messages of a connection that was established, the random number
    [rand.Int64N] reduces for the pause after it and whether the pause was not cut short. *)
Record turn := mkTurn {
  tn_messages : option (list (list (string * json) * Time * bool));
  tn_random : Z;
  tn_waited : bool
}.

Definition nextRetry (retry : Z) : Z := Z.min (30 * Second) (retry * 2).

(** The reading loop of a connection. *)
Fixpoint read_messages (s : TorrentSession) (url : string) (messages : list (list (string * json) * Time * bool))
    : option TorrentSession :=
  match messages with
  | [] => Some s
  | (value, now, pick) :: messages =>
      if ts_cancelled s then Some s
      else s ← torrent_receive s url value now pick; read_messages s url messages
  end.

(** [connectLoop]: the session and the pauses. *)
Fixpoint connectLoop (s : TorrentSession) (url : string) (retry : Z) (turns : list turn)
    : option (TorrentSession * list Z) :=
  match turns with
  | [] => Some (s, [])
  | turn :: turns =>
      if ts_cancelled s then Some (s, [])
      else
        '(s, retry) ←
          match tn_messages turn with
          | None => Some (s, retry)
          | Some messages =>
              let s := upd_sockets s (<[url := true]> (ts_sockets s)) (ts_open s + 1) in
              s ← read_messages s url messages;
              Some (upd_sockets s (<[url := false]> (ts_sockets s)) (ts_open s - 1), Second)
          end;
        let pause := retry + tn_random turn mod retry in
        if tn_waited turn
        then '(s, pauses) ← connectLoop s url (nextRetry retry) turns; Some (s, pause :: pauses)
        else Some (s, [pause])
  end.

(** ** Nostr relays *)

Definition nostrEventKind : Z := 25050.
Definition DefaultNostrURLs : list string :=
  ["wss://nos.lol"; "wss://nostr-01.yakihonne.com"; "wss://relay.primal.net"; "wss://purplerelay.com";
   "wss://relay.nostr.place"].

Record NostrSession := mkNostr {
  no_topic : string;
  no_peerID : string;
  no_token : option Token;
  no_urls : list string;
  no_events : list Signal;
  no_cancelled : bool;
  no_open : Z
}.

Definition NewNostrSession (roomID peerID : string) (urls : list string) (token : option Token)
    (keyErr : option error) : result NostrSession :=
  topic ← SignalingRoomTopic roomID token;
  refuse (negb (clientIDPattern peerID))
    (ErrNew "native signaling peerId must contain exactly 20 ASCII letters or digits");;
  let urls := match urls with [] => DefaultNostrURLs | _ => urls end in
  match keyErr with
  | Some err => Err err
  | None => Ok (mkNostr topic peerID token urls [] false 0)
  end.

Definition nostr_opened (s : NostrSession) : NostrSession :=
  mkNostr (no_topic s) (no_peerID s) (no_token s) (no_urls s) (no_events s) (no_cancelled s) 1.

(** The results of [PublishMany]: the first success, or the first error. *)
Fixpoint publish_results (firstErr : option error) (results : list (option error)) : bool * option error :=
  match results with
  | [] => (false, firstErr)
  | None :: _ => (true, None)
  | Some err :: results => publish_results (match firstErr with None => Some err | _ => firstErr end) results
  end.

(** [Publish]: the error, the session and the content of the event that was sent. *)
Definition nostr_Publish (s : NostrSession) (value : Signal) (now : Time) (random : result (list byte))
    (signErr : option error) (results : list (option error)) : option error * NostrSession * option (list byte) :=
  match prepareOutgoing value (no_topic s) (no_peerID s) (no_token s) now random with
  | Err err => (Some err, s, None)
  | Ok signal =>
      let content := MarshalSignal signal in
      match signErr with
      | Some err => (Some err, s, None)
      | None =>
          let '(sent, err) := publish_results None results in
          (err, if sent : bool then nostr_opened s else s, Some content)
      end
  end.

(** One event of [subscribe]: absent, or its content and whether its signature is valid. *)
Definition nostr_receive (s : NostrSession) (event : option (list byte * bool)) (now : Time) (pick : bool)
    : option NostrSession :=
  let s := nostr_opened s in
  match event with
  | None => Some s
  | Some (content, valid) =>
      if maxSignalingMessageBytes <? blen content then Some s
      else if negb valid then Some s
      else match UnmarshalSignal content with
      | None => Some s
      | Some signal =>
          match openIncoming signal (no_topic s) (no_peerID s) (no_token s) now with
          | None => Some s
          | Some opened =>
              if (Z.of_nat (length (no_events s)) <? 64) && (negb (no_cancelled s) || pick)
              then Some (mkNostr (no_topic s) (no_peerID s) (no_token s) (no_urls s) (no_events s ++ [opened])
                           (no_cancelled s) (no_open s))
              else if no_cancelled s then Some s else None
          end
      end
  end.

Definition nostr_Close (s : NostrSession) : NostrSession :=
  mkNostr (no_topic s) (no_peerID s) (no_token s) (no_urls s) (no_events s) true (no_open s).
End sessions.

(** ** Signals round trip through JSON *)

Definition signal_ok `{!Floats} (s : Signal) : Prop :=
  0 <= sg_Version s < 2 ^ 63 /\ 0 <= sg_CreatedAt s < 2 ^ 63 /\ metadata_utf8 s /\
  ValidString (sg_SDP s) = true /\ ValidString (sg_Encrypted s) = true /\ candidate_ok (sg_Candidate s).

Lemma signal_printable `{!Floats, !FloatsLaws} s : signal_ok s -> printable 10000 (JObject (signal_fields s)).
Proof.
  intros (Hv & Hc & (H1 & H2 & H3 & H4 & H5) & Hs & He & Hk).
  assert (forall name v, ValidString v = true -> Forall (fun kv => printable 9999 kv.2) (omit_string name v)) as Ko.
  { intros name v Hv'. unfold omit_string. case_bool_decide; [constructor|]. by repeat constructor. }
  assert (forall name v, ValidString name = true -> Forall (fun kv => ValidString kv.1 = true) (omit_string name v)) as Kn.
  { intros name v Hv'. unfold omit_string. case_bool_decide; [constructor|]. by repeat constructor. }
  constructor; [lia|..].
  - unfold signal_fields. rewrite !Forall_app. split_and!; try (by apply Kn); try (by repeat constructor).
    unfold omit_map. destruct (sg_Candidate s) as [[|kv m]|]; by repeat constructor.
  - apply Forall_fmap. unfold compose, signal_fields. rewrite !Forall_app. split_and!; try (by apply Ko).
    + repeat (apply Forall_cons; split); try (by constructor). constructor. by apply itoa_literal; lia.
    + apply Forall_singleton. constructor. by apply itoa_literal; lia.
    + unfold omit_map. destruct (sg_Candidate s) as [[|kv m]|]; [constructor| |constructor].
      apply Forall_singleton. destruct Hk as [_ Hk]. by apply canonical_printable in Hk.
Qed.

(** The field each name sets. *)
Section decode_fields.
Context `{FL : !Floats}.

Lemma decode_version s v : decode_signal_field s "version" v =
  x ← set_int v (sg_Version s); Some (mkSignal x (sg_Room s) (sg_Type s) (sg_SessionID s) (sg_From s) (sg_To s) (sg_CreatedAt s) (sg_SDP s) (sg_Candidate s) (sg_Encrypted s)).
Proof. by destruct s. Qed.
Lemma decode_room s v : decode_signal_field s "room" v =
  x ← set_string v (sg_Room s); Some (mkSignal (sg_Version s) x (sg_Type s) (sg_SessionID s) (sg_From s) (sg_To s) (sg_CreatedAt s) (sg_SDP s) (sg_Candidate s) (sg_Encrypted s)).
Proof. by destruct s. Qed.
Lemma decode_type s v : decode_signal_field s "type" v =
  x ← set_string v (sg_Type s); Some (mkSignal (sg_Version s) (sg_Room s) x (sg_SessionID s) (sg_From s) (sg_To s) (sg_CreatedAt s) (sg_SDP s) (sg_Candidate s) (sg_Encrypted s)).
Proof. by destruct s. Qed.
Lemma decode_sessionId s v : decode_signal_field s "sessionId" v =
  x ← set_string v (sg_SessionID s); Some (mkSignal (sg_Version s) (sg_Room s) (sg_Type s) x (sg_From s) (sg_To s) (sg_CreatedAt s) (sg_SDP s) (sg_Candidate s) (sg_Encrypted s)).
Proof. by destruct s. Qed.
Lemma decode_from s v : decode_signal_field s "from" v =
  x ← set_string v (sg_From s); Some (mkSignal (sg_Version s) (sg_Room s) (sg_Type s) (sg_SessionID s) x (sg_To s) (sg_CreatedAt s) (sg_SDP s) (sg_Candidate s) (sg_Encrypted s)).
Proof. by destruct s. Qed.
Lemma decode_to s v : decode_signal_field s "to" v =
  x ← set_string v (sg_To s); Some (mkSignal (sg_Version s) (sg_Room s) (sg_Type s) (sg_SessionID s) (sg_From s) x (sg_CreatedAt s) (sg_SDP s) (sg_Candidate s) (sg_Encrypted s)).
Proof. by destruct s. Qed.
Lemma decode_createdAt s v : decode_signal_field s "createdAt" v =
  x ← set_int v (sg_CreatedAt s); Some (mkSignal (sg_Version s) (sg_Room s) (sg_Type s) (sg_SessionID s) (sg_From s) (sg_To s) x (sg_SDP s) (sg_Candidate s) (sg_Encrypted s)).
Proof. by destruct s. Qed.
Lemma decode_sdp s v : decode_signal_field s "sdp" v =
  x ← set_string v (sg_SDP s); Some (mkSignal (sg_Version s) (sg_Room s) (sg_Type s) (sg_SessionID s) (sg_From s) (sg_To s) (sg_CreatedAt s) x (sg_Candidate s) (sg_Encrypted s)).
Proof. by destruct s. Qed.
Lemma decode_candidate s v : decode_signal_field s "candidate" v =
  x ← set_map v (sg_Candidate s); Some (mkSignal (sg_Version s) (sg_Room s) (sg_Type s) (sg_SessionID s) (sg_From s) (sg_To s) (sg_CreatedAt s) (sg_SDP s) x (sg_Encrypted s)).
Proof. by destruct s. Qed.
Lemma decode_encrypted s v : decode_signal_field s "encrypted" v =
  x ← set_string v (sg_Encrypted s); Some (mkSignal (sg_Version s) (sg_Room s) (sg_Type s) (sg_SessionID s) (sg_From s) (sg_To s) (sg_CreatedAt s) (sg_SDP s) (sg_Candidate s) x).
Proof. by destruct s. Qed.
End decode_fields.

(** An optional string field, present or not. *)
Section decode_optional.
Context `{FL : !Floats}.
Variables (version created : Z) (room type session from to sdp encrypted : string)
  (candidate : option (list (string * json))) (rest : list (string * json)).

Lemma decode_optional_to :
  decode_signal (mkSignal version room type session from "" created sdp candidate encrypted) (omit_string "to" to ++ rest) =
  decode_signal (mkSignal version room type session from to created sdp candidate encrypted) rest.
Proof. unfold omit_string. case_bool_decide; [by subst|]. cbn [app decode_signal]. by rewrite decode_to. Qed.
Lemma decode_optional_sdp :
  decode_signal (mkSignal version room type session from to created "" candidate encrypted) (omit_string "sdp" sdp ++ rest) =
  decode_signal (mkSignal version room type session from to created sdp candidate encrypted) rest.
Proof. unfold omit_string. case_bool_decide; [by subst|]. cbn [app decode_signal]. by rewrite decode_sdp. Qed.
Lemma decode_optional_encrypted :
  decode_signal (mkSignal version room type session from to created sdp candidate "") (omit_string "encrypted" encrypted ++ rest) =
  decode_signal (mkSignal version room type session from to created sdp candidate encrypted) rest.
Proof. unfold omit_string. case_bool_decide; [by subst|]. cbn [app decode_signal]. by rewrite decode_encrypted. Qed.
Lemma decode_optional_candidate : candidate_ok candidate ->
  decode_signal (mkSignal version room type session from to created sdp None encrypted) (omit_map "candidate" candidate ++ rest) =
  decode_signal (mkSignal version room type session from to created sdp candidate encrypted) rest.
Proof.
  intros Hk. unfold omit_map. destruct candidate as [[|kv m]|]; [by destruct Hk| |done]. destruct Hk as [_ Hk].
  apply to_any_canonical in Hk. rewrite to_any_object in Hk. cbn [app decode_signal]. rewrite decode_candidate.
  cbn [set_map sg_Candidate default]. destruct (merge_members [] (kv :: m)); [|done]. by injection Hk as ->.
Qed.
End decode_optional.

(** What is written as JSON is read back. *)
Lemma UnmarshalSignal_Marshal `{!Floats, !FloatsLaws} s : signal_ok s -> UnmarshalSignal (MarshalSignal s) = Some s.
Proof.
  intros Hok. unfold UnmarshalSignal, MarshalSignal.
  rewrite (parse_document_Marshal _ 10000) by (done || by apply signal_printable). cbn [mbind option_bind].
  destruct Hok as (Hv & Hc & _ & _ & _ & Hk). destruct s as [version room type session from to created sdp candidate encrypted].
  cbn [sg_Version sg_CreatedAt sg_Candidate] in *. unfold signal_fields.
  cbn [sg_Version sg_Room sg_Type sg_SessionID sg_From sg_To sg_CreatedAt sg_SDP sg_Candidate sg_Encrypted app decode_signal].
  rewrite decode_version. unfold set_int at 1. rewrite string_of_bytes_of, Atoi_itoa by lia. cbn [to_option mbind option_bind].
  rewrite decode_room. cbn [set_string mbind option_bind]. rewrite decode_type. cbn [set_string mbind option_bind].
  rewrite decode_sessionId. cbn [set_string mbind option_bind]. rewrite decode_from. cbn [set_string mbind option_bind].
  cbn [emptySignal sg_Version sg_Room sg_Type sg_SessionID sg_From sg_To sg_CreatedAt sg_SDP sg_Candidate sg_Encrypted].
  rewrite decode_optional_to. cbn [app decode_signal].
  rewrite decode_createdAt. unfold set_int at 1. rewrite string_of_bytes_of, Atoi_itoa by lia. cbn [to_option mbind option_bind].
  cbn [sg_Version sg_Room sg_Type sg_SessionID sg_From sg_To sg_CreatedAt sg_SDP sg_Candidate sg_Encrypted].
  rewrite decode_optional_sdp, decode_optional_candidate by done.
  rewrite <- (app_nil_r (omit_string "encrypted" encrypted)). by rewrite decode_optional_encrypted.
Qed.

(** ** Delivery *)

Lemma clientIDPattern_utf8 s : clientIDPattern s = true -> ValidString s = true.
Proof.
  intros [_ Ha]%andb_prop. apply ValidString_ascii, Forall_forall. intros b Hb.
  rewrite forallb_forall in Ha. apply list_elem_of_In, Ha in Hb. unfold is_alnum in Hb. lia.
Qed.

(** [value], published by [from] at [now] and as [out] in transit, is for [me], who reads it at [now']. *)
Record deliverable `{!Floats} (topic from me : string) (now now' : Time) (value out : Signal) : Prop := {
  dv_topic : ValidString topic = true;
  dv_session : ValidString (sg_SessionID value) = true;
  dv_sdp : ValidString (sg_SDP value) = true;
  dv_candidate : candidate_ok (sg_Candidate value);
  dv_size : slen (sg_Encrypted out) <= maxEncryptedSignalBytes;
  dv_from : from <> me;
  dv_to : sg_To value = "" \/ sg_To value = me;
  dv_now : sane now /\ 0 <= toUnixMilli now /\ - 2 ^ 53 <= t_sec now < 2 ^ 53;
  dv_now' : sane now';
  dv_clocks : Z.abs (ns now' - ns now) + Millisecond <= signalTTL
}.

(** What the receiver's channel gets: the message with its stamp. *)
Definition delivered (topic from : string) (now : Time) (value out : Signal) : Signal :=
  set_encrypted (stamp value topic from now) (sg_Encrypted out).

Section delivery.
Context `{LP : !Libp2p, CB : !Cbor, CR : !Crypto, FL : !Floats, S1 : !Sha1,
  LPL : !Libp2pLaws, CBL : !CborLaws, CRL : !CryptoLaws, FLL : !FloatsLaws}.

Lemma openIncoming_delivered topic from me token now now' value out random :
  prepareOutgoing value topic from token now random = Ok out -> deliverable topic from me now now' value out ->
  openIncoming out topic me token now' = Some (delivered topic from now value out).
Proof using CBL CRL FLL. intros Hp []. eapply openIncoming_prepareOutgoing; naive_solver. Qed.

Lemma prepared_signal_ok topic from me token now now' value out random :
  prepareOutgoing value topic from (Some token) now random = Ok out -> deliverable topic from me now now' value out ->
  signal_ok out.
Proof.
  intros (Hp & Hc & Hz & Hl & Ht & sealed & -> & _)%prepareOutgoing_Ok [Htp Hs Hd _ _ _ _ (Hn & H0 & Hr) _ _].
  destruct (toUnixMilli_ns now Hn Hr) as [Hm _].
  assert (ValidString (sg_Type value) = true) as Hty.
  { revert Hc. unfold checkPayload. repeat case_bool_decide; try done; intros _.
    - by match goal with H : _ \/ _ |- _ => destruct H as [->| ->] end.
    - by match goal with H : sg_Type value = _ |- _ => rewrite H end.
    - by match goal with H : sg_Type value = _ |- _ => rewrite H end. }
  unfold signal_ok, metadata_utf8. cbn [set_encrypted set_payload stamp sg_Version sg_Room sg_Type sg_SessionID sg_From
    sg_To sg_CreatedAt sg_SDP sg_Encrypted sg_Candidate].
  split_and!; try done; try lia.
  - by apply clientIDPattern_utf8.
  - destruct Ht as [->|?]; [done|by apply clientIDPattern_utf8].
  - apply ValidString_graphic, EncodeToString_graphic.
Qed.

(** ** Nostr *)

(** A Nostr session delivers.  If publishing succeeds, the content sent, received by another session
    of the room with the same token in an event whose signature is valid, adds exactly the published
    message, stamped with sender and time, to that session's channel, if it is for that session. *)
Theorem nostr_delivery s1 s2 token value now now' random results s1' content pick out :
  nostr_Publish s1 value now random None results = (None, s1', Some content) ->
  prepareOutgoing value (no_topic s1) (no_peerID s1) (no_token s1) now random = Ok out ->
  no_topic s2 = no_topic s1 -> no_token s1 = Some token -> no_token s2 = Some token ->
  deliverable (no_topic s1) (no_peerID s1) (no_peerID s2) now now' value out ->
  blen content <= maxSignalingMessageBytes ->
  Z.of_nat (length (no_events s2)) < 64 -> no_cancelled s2 = false ->
  exists s2', nostr_receive s2 (Some (content, true)) now' pick = Some s2' /\
    no_events s2' = no_events s2 ++ [delivered (no_topic s1) (no_peerID s1) now value out].
Proof using CBL CRL FLL.
  intros Hpub Hprep Htop Htok1 Htok2 Hd Hlen Hroom Hopen. unfold nostr_Publish in Hpub. rewrite Hprep in Hpub.
  destruct (publish_results None results) as [sent err]. injection Hpub as _ _ <-. rewrite Htok1 in Hprep.
  unfold nostr_receive. rewrite (proj2 (Z.ltb_ge _ _)) by done. cbn [negb].
  rewrite UnmarshalSignal_Marshal by (by eapply prepared_signal_ok).
  cbn [nostr_opened no_topic no_peerID no_token no_events no_cancelled no_open]. rewrite Htop, Htok2.
  erewrite openIncoming_delivered by done.
  rewrite (proj2 (Z.ltb_lt _ _)) by done. rewrite Hopen. cbn [negb orb andb]. eexists. split; [done|]. done.
Qed.

(** ** Trackers *)

(** What a tracker makes of an announcement, as its protocol says: the message of the peer with one of
    its offers, or its answer. *)
Definition forwarded (kind : string) (payload body value : list (string * json)) : Prop :=
  member value "peer_id" = member payload "peer_id" /\ member value "offer_id" = member body "offer_id" /\
  member value kind = member body kind.

(** No copy of this message was accepted within the last 5 s. *)
Definition fresh (s : TorrentSession) (signal : Signal) (now : Time) : Prop :=
  match ts_seen s !! (sg_Type signal +:+ ":" +:+ sg_SessionID signal +:+ ":" +:+ sg_From signal) with
  | Some seen => 5 * Second <= Sub now seen
  | None => True
  end.

Definition receptive (s : TorrentSession) : Prop :=
  Z.of_nat (length (ts_events s)) < 64 /\ ts_cancelled s = false.

Lemma trackerIncoming_trackerSignal s topic from me token now now' value out random now'' :
  prepareOutgoing value topic from (Some token) now random = Ok out -> deliverable topic from me now now' value out ->
  ts_topic s = topic ->
  trackerIncoming s (trackerSignal out) (sg_Type out) (sg_SessionID out) (sg_From out) me now'' = out.
Proof using CBL CRL FLL.
  intros Hp Hd <-. pose proof (prepared_signal_ok _ _ _ _ _ _ _ _ _ Hp Hd) as Hok.
  destruct (prepareOutgoing_Ok _ _ _ _ _ _ _ Hp) as (_ & _ & _ & _ & _ & sealed & E & Hs).
  assert (sg_Encrypted out <> "") as He.
  { rewrite E. cbn [set_encrypted sg_Encrypted]. apply EncodeToString_nonempty. intros ->.
    apply Seal_Ok in Hs as (? & ? & _ & _ & _ & Hs). apply Marshal_nonempty in Hs. by vm_compute in Hs. }
  unfold trackerSignal, trackerIncoming. rewrite (bool_decide_false (sg_Encrypted out = "")) by done.
  rewrite HasPrefix_app, TrimPrefix_app, DecodeString_EncodeToString, UnmarshalSignal_Marshal by done. cbn [negb].
  rewrite !bool_decide_true by (done || by rewrite E). cbn [negb orb].
  destruct Hd as [_ _ _ _ _ _ Hto _ _ _]. assert (sg_To out = sg_To value) as -> by (by rewrite E).
  destruct Hto as [->| ->]; [done|]. rewrite (bool_decide_true (me = me)) by done. by rewrite andb_false_r.
Qed.

Lemma accept_signal_delivers s topic from token now now' value out random pick :
  prepareOutgoing value topic from (Some token) now random = Ok out ->
  deliverable topic from (ts_peerID s) now now' value out ->
  ts_topic s = topic -> ts_token s = Some token -> receptive s -> fresh s out now' ->
  exists s', accept_signal s out now' pick = Some s' /\
    ts_events s' = ts_events s ++ [delivered topic from now value out] /\
    ts_offers s' = ts_offers s /\ ts_offerOrigins s' = ts_offerOrigins s.
Proof using CBL CRL FLL.
  intros Hp Hd <- Htok [Hroom Hopen] Hf.
  assert (sg_Type (delivered (ts_topic s) from now value out) = sg_Type out /\
    sg_SessionID (delivered (ts_topic s) from now value out) = sg_SessionID out /\
    sg_From (delivered (ts_topic s) from now value out) = sg_From out) as (E1 & E2 & E3).
  { by destruct (prepareOutgoing_Ok _ _ _ _ _ _ _ Hp) as (_ & _ & _ & _ & _ & sealed & -> & _). }
  unfold accept_signal. rewrite Htok. erewrite openIncoming_delivered by done. rewrite E1, E2, E3.
  unfold fresh in Hf.
  assert (match ts_seen s !! (sg_Type out +:+ ":" +:+ sg_SessionID out +:+ ":" +:+ sg_From out) with
    | Some seen => negb (IsZero seen) && (Sub now' seen <? 5 * Second) | None => false end = false) as ->.
  { destruct (ts_seen s !! _); [|done]. rewrite (proj2 (Z.ltb_ge _ _)) by done. by rewrite andb_false_r. }
  unfold torrent_emit, upd_seen. cbn [ts_events ts_cancelled]. rewrite (proj2 (Z.ltb_lt _ _)) by done.
  rewrite Hopen. cbn [negb orb andb]. eexists. split; [reflexivity|done].
Qed.

(** Everything written is the payload, and goes to a socket of the session. *)
Lemma write_each_sent s writeErr payload urls sent err url p :
  write_each s writeErr payload urls = Some (sent, err) -> (url, p) ∈ sent -> p = payload /\ url ∈ urls.
Proof.
  revert sent err. induction urls as [|u urls IH]; intros sent err HW Hin; cbn [write_each] in HW.
  { injection HW as <- _. by apply not_elem_of_nil in Hin. }
  apply bind_Some in HW as ([e1 sent1] & H1 & HW). apply bind_Some in HW as ([rest e2] & H2 & [= <- _]).
  apply elem_of_app in Hin as [Hin|Hin].
  - unfold socket_write in H1. apply bind_Some in H1 as ([] & _ & H1); [destruct (writeErr u)|]; simplify_eq;
      [by apply not_elem_of_nil in Hin| |by apply not_elem_of_nil in Hin].
    apply list_elem_of_singleton in Hin. simplify_eq. split; [done|constructor].
  - destruct (IH _ _ H2 Hin) as [-> ?]. split; [done|by constructor].
Qed.

Lemma writeAll_sent s writeErr urls payload err sent url p :
  writeAll s writeErr urls payload = Some (err, sent) -> (url, p) ∈ sent -> p = payload /\ url ∈ urls.
Proof.
  unfold writeAll. intros HW Hin. apply bind_Some in HW as ([sent' e] & Hw & HW).
  destruct sent' as [|x sent']; simplify_eq; [by apply not_elem_of_nil in Hin|]. by eapply write_each_sent.
Qed.

Lemma length_omap_le {A B} (f : A -> option B) l : (length (omap f l) <= length l)%nat.
Proof.
  induction l as [|a l IH]; [done|].
  change (omap f (a :: l)) with (match f a with Some b => b :: omap f l | None => omap f l end).
  destruct (f a); cbn [length]; lia.
Qed.

(** The first three offers that are visited are announced; with three or fewer these are all. *)
Lemma announced s ids id signal :
  ids ≡ₚ (map_to_list (ts_offers s)).*1 -> id ∈ take 3 ids -> ts_offers s !! id = Some signal ->
  offer_entry signal ∈ take 3 (omap (fun id => offer_entry <$> (ts_offers s !! id)) ids).
Proof using Type.
  clear LPL CBL CRL FLL. intros Hp Hin Hl.
  assert (Forall (fun id => is_Some (ts_offers s !! id)) ids) as Hall.
  { apply Forall_forall. intros i. rewrite Hp. intros ([i' v] & -> & Hi%elem_of_map_to_list)%list_elem_of_fmap. by exists v. }
  clear Hp. generalize 3%nat as k, Hin. clear Hin. induction Hall as [|i ids [v Hi] _ IH]; intros [|k]; [set_solver..|].
  cbn [take omap list_omap]. rewrite Hi. cbn [fmap option_fmap option_map take].
  intros [->|H]%elem_of_cons; [rewrite Hl in Hi; injection Hi as ->; by left|right; by apply IH].
Qed.
Lemma few_offers_announced s ids id :
  ids ≡ₚ (map_to_list (ts_offers s)).*1 -> (size (ts_offers s) <= 3)%nat -> is_Some (ts_offers s !! id) -> id ∈ take 3 ids.
Proof using Type.
  clear LPL CBL CRL FLL. intros Hp Hs [v Hv]. rewrite take_ge by (rewrite Hp, length_fmap, length_map_to_list; lia).
  rewrite Hp. apply list_elem_of_fmap. exists (id, v). split; [done|]. by apply elem_of_map_to_list.
Qed.

Lemma prepared_fields topic from token now value out random :
  prepareOutgoing value topic from (Some token) now random = Ok out ->
  sg_Type out = sg_Type value /\ sg_SessionID out = sg_SessionID value /\ sg_From out = from /\ sg_To out = sg_To value /\
  sg_SessionID out <> "" /\ from <> "" /\ sg_Encrypted out <> "".
Proof.
  intros (Hp & _ & _ & Hl & _ & sealed & -> & Hs)%prepareOutgoing_Ok. split_and!; try done.
  - change (sg_SessionID value <> ""). intros E. rewrite E in Hl. change (slen "") with 0 in Hl. lia.
  - by intros ->.
  - cbn [set_encrypted sg_Encrypted]. apply EncodeToString_nonempty. intros ->.
    apply Seal_Ok in Hs as (? & ? & _ & _ & _ & Hs). apply Marshal_nonempty in Hs. by vm_compute in Hs.
Qed.

Lemma trackerSignal_nonempty s : sg_Encrypted s <> "" -> trackerSignal s <> "".
Proof. intros He. unfold trackerSignal. by rewrite bool_decide_false. Qed.

Lemma member_string_Some m name s : member m name = Some (JString s) -> member_string m name = s.
Proof. unfold member_string. by intros ->. Qed.

(** Receiving an entry of the announcement. *)
Lemma torrent_receive_offer s topic token value now now' out random from url m pick :
  prepareOutgoing value topic from (Some token) now random = Ok out -> sg_Type value = "offer" ->
  deliverable topic from (ts_peerID s) now now' value out ->
  ts_topic s = topic -> ts_token s = Some token -> receptive s -> fresh s out now' ->
  member m "peer_id" = Some (JString from) -> member m "offer_id" = Some (JString (sg_SessionID out)) ->
  member_map m "offer" = Some [("sdp", JString (trackerSignal out)); ("type", JString "offer")] ->
  exists s', torrent_receive s url m now' pick = Some s' /\
    ts_events s' = ts_events s ++ [delivered topic from now value out] /\
    ts_offerOrigins s' !! origin_key (sg_SessionID out) from = Some url.
Proof using CBL CRL FLL.
  intros Hp Hty Hd Htop Htok Hr Hf Hm1 Hm2 Hm3.
  destruct (prepared_fields _ _ _ _ _ _ _ Hp) as (Et & _ & Efr & _ & Hne & Hnf & He).
  apply member_string_Some in Hm1, Hm2. unfold torrent_receive. rewrite Hm1, Hm2, Hm3.
  rewrite (bool_decide_false (from = "")), (bool_decide_false (from = ts_peerID s)), (bool_decide_false (sg_SessionID out = ""))
    by (done || by destruct Hd). cbn [orb].
  change (member_string _ "sdp") with (trackerSignal out).
  rewrite bool_decide_false by (by apply trackerSignal_nonempty).
  pose proof (trackerIncoming_trackerSignal s _ _ _ _ _ _ _ _ _ now' Hp Hd Htop) as Hi.
  rewrite Et, Hty, Efr in Hi. rewrite Hi.
  set (s0 := upd_offers s (ts_offers s) _).
  destruct (accept_signal_delivers s0 topic from token now now' value out random pick) as (s' & Ha & Hev & _ & Hor);
    [done..|]. exists s'. split_and!; [done|done|]. rewrite Hor. apply lookup_insert_eq.
Qed.

(** Receiving the answer to an offer that was published. *)
Lemma torrent_receive_answer s topic token value now now' out random from url m pick :
  prepareOutgoing value topic from (Some token) now random = Ok out -> sg_Type value = "answer" ->
  deliverable topic from (ts_peerID s) now now' value out ->
  ts_topic s = topic -> ts_token s = Some token -> receptive s -> fresh s out now' ->
  is_Some (ts_offers s !! sg_SessionID out) ->
  member m "peer_id" = Some (JString from) -> member m "offer_id" = Some (JString (sg_SessionID out)) ->
  member_map m "offer" = None ->
  member_map m "answer" = Some [("sdp", JString (trackerSignal out)); ("type", JString "answer")] ->
  exists s', torrent_receive s url m now' pick = Some s' /\
    ts_events s' = ts_events s ++ [delivered topic from now value out] /\
    ts_offers s' = delete (sg_SessionID out) (ts_offers s).
Proof using CBL CRL FLL.
  intros Hp Hty Hd Htop Htok Hr Hf [offer Ho] Hm1 Hm2 Hm3 Hm4.
  destruct (prepared_fields _ _ _ _ _ _ _ Hp) as (Et & _ & Efr & _ & Hne & Hnf & He).
  apply member_string_Some in Hm1, Hm2. unfold torrent_receive. rewrite Hm1, Hm2, Hm3, Hm4.
  rewrite (bool_decide_false (from = "")), (bool_decide_false (from = ts_peerID s)), (bool_decide_false (sg_SessionID out = ""))
    by (done || by destruct Hd). cbn [orb]. rewrite Ho.
  change (member_string _ "sdp") with (trackerSignal out).
  rewrite bool_decide_false by (by apply trackerSignal_nonempty).
  set (s0 := upd_offers s _ _).
  pose proof (trackerIncoming_trackerSignal s0 _ _ _ _ _ _ _ _ _ now' Hp Hd Htop) as Hi.
  rewrite Et, Hty, Efr in Hi. change (ts_peerID s0) with (ts_peerID s) in *. rewrite Hi.
  destruct (accept_signal_delivers s0 topic from token now now' value out random pick) as (s' & Ha & Hev & Hof & _);
    [done..|]. by exists s'.
Qed.

(** The offers of an announcement that a tracker passes on, or the answer in it. *)
Definition carries (kind : string) (fields body : list (string * json)) : Prop :=
  if bool_decide (kind = "offer") then exists entries, member fields "offers" = Some (JArray entries) /\ JObject body ∈ entries
  else body = fields.

(** C13: the trackers deliver.  An announcement carries the first three pending offers the program happens to
    visit, which is all of them when there are three or fewer.  An offer among these, or the answer to an offer that
    the other session still has pending: if publishing succeeds, every message written carries it in a form
    that, forwarded by the tracker as its protocol says to the other session of the room with the same token,
    adds exactly the published message, stamped with sender and time, to that session's channel, provided it is
    read within 120 s by the two clocks, is not a copy of one accepted within 5 s, and the channel has room. *)
Theorem torrent_delivery s1 s2 token value now random writeErr urls ids s1' sent url payload out :
  torrent_Publish s1 value now random writeErr urls ids = Some (None, s1', sent) ->
  prepareOutgoing value (ts_topic s1) (ts_peerID s1) (ts_token s1) now random = Ok out ->
  ts_topic s2 = ts_topic s1 -> ts_token s1 = Some token -> ts_token s2 = Some token ->
  (sg_Type value = "offer" /\ ids ≡ₚ (map_to_list (ts_offers s1')).*1 /\ sg_SessionID value ∈ take 3 ids \/
   sg_Type value = "answer" /\ is_Some (ts_offers s2 !! sg_SessionID value)) ->
  receptive s2 -> (url, payload) ∈ sent ->
  exists fields body, payload = JObject fields /\ carries (sg_Type value) fields body /\
    forall m now' pick, forwarded (sg_Type value) fields body m ->
      (sg_Type value = "answer" -> member m "offer" = None) ->
      deliverable (ts_topic s1) (ts_peerID s1) (ts_peerID s2) now now' value out -> fresh s2 out now' ->
      exists s2', torrent_receive s2 url m now' pick = Some s2' /\
        ts_events s2' = ts_events s2 ++ [delivered (ts_topic s1) (ts_peerID s1) now value out].
Proof using CBL CRL FLL.
  intros Hpub Hprep Htop Htok1 Htok2 Hkind Hr Hin. unfold torrent_Publish in Hpub. rewrite Hprep in Hpub.
  rewrite Htok1 in Hprep. destruct (prepared_fields _ _ _ _ _ _ _ Hprep) as (Et & Es & Efr & _).
  rewrite Et in Hpub. destruct Hkind as [(Hk & Hids & Hfirst)|[Hk Hoff]]; rewrite Hk in *.
  - cbn in Hpub. set (s0 := upd_offers s1 _ _) in Hpub. apply bind_Some in Hpub as ([err sent'] & Hw & [= -> <- ->]).
    destruct (writeAll_sent _ _ _ _ _ _ _ _ Hw Hin) as [-> _]. do 2 eexists. split; [reflexivity|]. split.
    { unfold carries. rewrite bool_decide_true by done. eexists. split; [reflexivity|].
      apply (announced _ _ (sg_SessionID out) out); [done|by rewrite Es|]. apply lookup_insert_eq. }
    intros m now' pick (Hm1 & Hm2 & Hm3) _ Hd Hf.
    destruct (torrent_receive_offer s2 (ts_topic s1) token value now now' out random (ts_peerID s1) url m pick)
      as (s2' & Hrec & Hev & _); try done; [unfold member_map; by rewrite Hm3|by exists s2'].
  - cbn in Hpub. apply bind_Some in Hpub as ([err sent'] & Hw & [= -> <- ->]).
    assert (payload = answer_payload s1 out) as ->.
    { case_bool_decide; [by apply (writeAll_sent _ _ _ _ _ _ _ _ Hw Hin)|]. unfold socket_write in Hw.
      apply bind_Some in Hw as ([] & _ & Hw); [|done]. destruct (writeErr _); [done|]. injection Hw as <-.
      apply list_elem_of_singleton in Hin. by injection Hin as _ ->. }
    do 2 eexists. split; [reflexivity|]. split; [reflexivity|].
    intros m now' pick (Hm1 & Hm2 & Hm3) Hno Hd Hf. specialize (Hno eq_refl).
    destruct (torrent_receive_answer s2 (ts_topic s1) token value now now' out random (ts_peerID s1) url m pick)
      as (s2' & Hrec & Hev & _); try done; [by rewrite Es|unfold member_map; by rewrite Hno|unfold member_map; by rewrite Hm3|by exists s2'].
Qed.
End delivery.

(** ** The session's invariant *)

Section invariant.
Context `{LP : !Libp2p, CB : !Cbor, CR : !Crypto, FL : !Floats, S1 : !Sha1}.

(** What happens to a session: its methods, its connections, and the reader of its channel. *)
Inductive torrent_step : TorrentSession -> TorrentSession -> Prop :=
  | ts_publish s value now random writeErr urls ids err s' sent :
      torrent_Publish s value now random writeErr urls ids = Some (err, s', sent) -> torrent_step s s'
  | ts_message s url value now pick s' :
      url ∈ dom (ts_sockets s) -> torrent_receive s url value now pick = Some s' -> torrent_step s s'
  | ts_connection s url connected open :
      url ∈ dom (ts_sockets s) -> torrent_step s (upd_sockets s (<[url := connected]> (ts_sockets s)) open)
  | ts_take s signal rest : ts_events s = signal :: rest -> torrent_step s (upd_events s rest)
  | ts_end s : torrent_step s (torrent_Close s).

(** The signal was opened from one that came in. *)
Definition opened_for (topic peerID : string) (token : option Token) (signal : Signal) : Prop :=
  exists raw now, openIncoming raw topic peerID token now = Some signal.

Record torrent_inv (topic peerID : string) (token : option Token) (urls : gset string) (s : TorrentSession) : Prop := {
  ti_const : ts_topic s = topic /\ ts_peerID s = peerID /\ ts_token s = token /\ dom (ts_sockets s) = urls;
  ti_origins : map_Forall (fun _ url => url ∈ urls) (ts_offerOrigins s);
  ti_offers : map_Forall (fun id offer => sg_SessionID offer = id /\ sg_Type offer = "offer" /\
    exists value now random, prepareOutgoing value topic peerID token now random = Ok offer) (ts_offers s);
  ti_bound : (length (ts_events s) <= 64)%nat;
  ti_events : Forall (opened_for topic peerID token) (ts_events s)
}.

Lemma torrent_emit_inv topic peerID token urls s signal pick s' :
  torrent_inv topic peerID token urls s -> opened_for topic peerID token signal ->
  torrent_emit s signal pick = Some s' -> torrent_inv topic peerID token urls s'.
Proof.
  intros [] Ho. unfold torrent_emit. destruct (_ && _) eqn:E.
  - intros [= <-]. apply andb_prop in E as [E%Z.ltb_lt _]. split; try done; cbn [upd_events ts_events].
    + rewrite length_app. simpl. lia.
    + apply Forall_app. split; [done|]. by constructor.
  - destruct (ts_cancelled s); intros; by simplify_eq.
Qed.

Lemma accept_signal_inv topic peerID token urls s signal now pick s' :
  torrent_inv topic peerID token urls s ->
  accept_signal s signal now pick = Some s' -> torrent_inv topic peerID token urls s'.
Proof.
  intros Hi. pose proof (ti_const _ _ _ _ _ Hi) as (E1 & E2 & E3 & _). unfold accept_signal. rewrite E1, E2, E3.
  destruct (openIncoming _ _ _ _ _) as [opened|] eqn:Ho; [|by intros [= <-]]. case_match; [by intros [= <-]|].
  apply torrent_emit_inv; [by destruct Hi|]. by do 2 eexists.
Qed.

Lemma upd_offers_inv topic peerID token urls s offers origins :
  torrent_inv topic peerID token urls s ->
  map_Forall (fun _ url => url ∈ urls) origins ->
  map_Forall (fun id offer => sg_SessionID offer = id /\ sg_Type offer = "offer" /\
    exists value now random, prepareOutgoing value topic peerID token now random = Ok offer) offers ->
  torrent_inv topic peerID token urls (upd_offers s offers origins).
Proof. by intros []. Qed.

Lemma torrent_receive_inv topic peerID token urls s url value now pick s' :
  torrent_inv topic peerID token urls s -> url ∈ urls ->
  torrent_receive s url value now pick = Some s' -> torrent_inv topic peerID token urls s'.
Proof.
  intros Hi Hu. pose proof (ti_origins _ _ _ _ _ Hi) as Ho. pose proof (ti_offers _ _ _ _ _ Hi) as Hf.
  unfold torrent_receive. case_match; [by intros [= <-]|]. case_match.
  - case_match; [by intros [= <-]|]. apply accept_signal_inv, upd_offers_inv; [done| |done].
    by apply map_Forall_insert_2.
  - case_match; [|by intros [= <-]].
    assert (torrent_inv topic peerID token urls
      (upd_offers s (delete (member_string value "offer_id") (ts_offers s)) (ts_offerOrigins s))) as Hd
      by (apply upd_offers_inv; [done..|by apply map_Forall_delete]).
    case_match; [|by intros [= <-]]. case_match; [by intros [= <-]|]. by apply accept_signal_inv.
Qed.

(** What publishing leaves: the session with the offer added, or removed, or unchanged. *)
Lemma torrent_Publish_state s value now random writeErr urls ids err s' sent :
  torrent_Publish s value now random writeErr urls ids = Some (err, s', sent) ->
  s' = s \/
  (exists out, prepareOutgoing value (ts_topic s) (ts_peerID s) (ts_token s) now random = Ok out /\
    (sg_Type out = "offer" /\ s' = upd_offers s (<[sg_SessionID out := out]> (ts_offers s)) (ts_offerOrigins s) \/
     s' = upd_offers s (delete (sg_SessionID out) (ts_offers s))
            (delete (origin_key (sg_SessionID out) (sg_To out)) (ts_offerOrigins s)))).
Proof.
  unfold torrent_Publish. destruct (prepareOutgoing _ _ _ _ _ _) as [out|]; [|intros; simplify_eq; by left].
  case_match; [intros; simplify_eq; by left|]. set (s0 := if bool_decide (sg_Type out = "offer") then _ else _).
  intros HP. assert (s' = s0) as ->.
  { destruct (bool_decide (sg_Type out = "answer")); apply bind_Some in HP as ([e snt] & _ & HP); by simplify_eq. }
  clear HP. unfold s0. destruct (decide (sg_Type out = "offer")); [rewrite bool_decide_true by done; right; exists out; auto|].
  rewrite bool_decide_false by done. destruct (bool_decide (sg_Type out = "bye")); [right; exists out; auto|by left].
Qed.

Lemma torrent_step_inv topic peerID token urls s s' :
  torrent_inv topic peerID token urls s -> torrent_step s s' -> torrent_inv topic peerID token urls s'.
Proof.
  intros Hi Hstep. pose proof (ti_const _ _ _ _ _ Hi) as (E1 & E2 & E3 & E4).
  pose proof (ti_origins _ _ _ _ _ Hi) as Ho. pose proof (ti_offers _ _ _ _ _ Hi) as Hf.
  destruct Hstep as [s value now random writeErr us ids err s' sent Hp|s url value now pick s' Hu Hr|s url c n Hu|s sg rest Ht|s].
  - apply torrent_Publish_state in Hp as [->|(out & Hp & [[Hty ->]| ->])]; [done|..]; apply upd_offers_inv; try done.
    + apply map_Forall_insert_2; [|done]. split_and!; [done..|]. rewrite E1, E2, E3 in Hp. by do 3 eexists.
    + by apply map_Forall_delete.
    + by apply map_Forall_delete.
  - rewrite E4 in Hu. by eapply torrent_receive_inv.
  - destruct Hi as [Hc ? ? ? ?]. split; try done. cbn [upd_sockets ts_topic ts_peerID ts_token ts_sockets].
    split_and!; try done. rewrite dom_insert_L. set_solver.
  - destruct Hi as [? ? ? Hb He]. rewrite Ht in Hb, He. apply Forall_cons in He as [_ He].
    split; try done. cbn [upd_events ts_events]. simpl in Hb. lia.
  - unfold torrent_Close. destruct (ts_cancelled s); [done|]. destruct Hi. split; try done.
    cbn [ts_topic ts_peerID ts_token ts_sockets]. split_and!; try done. by rewrite dom_fmap_L.
Qed.

Lemma NewTorrentSession_inv room peerID urls token s :
  NewTorrentSession room peerID urls token = Ok s ->
  torrent_inv (ts_topic s) peerID token (dom (ts_sockets s)) s.
Proof.
  unfold NewTorrentSession. intros HN. apply bind_Ok in HN as (topic & _ & HN). apply seq_Ok in HN as [_ [= <-]].
  split; try done; cbn [ts_events length]; lia.
Qed.

Lemma writeAll_defined s writeErr urls payload :
  (forall url, url ∈ urls -> url ∈ dom (ts_sockets s)) -> is_Some (writeAll s writeErr urls payload).
Proof.
  intros Hu. unfold writeAll. assert (is_Some (write_each s writeErr payload urls)) as [[sent err] ->].
  { induction urls as [|url urls IH]; [done|]. cbn [write_each]. unfold socket_write.
    assert (url ∈ dom (ts_sockets s)) as [c ->]%elem_of_dom by (apply Hu; constructor). cbn [mbind option_bind].
    destruct IH as [[rest e] ->]; [intros; apply Hu; by constructor|].
    destruct c; [destruct (writeErr url)|]; done. }
  cbn. by destruct sent.
Qed.

(** A tracker session in any sequence of publishing, messages (genuine or not), connections and
    reads: what its channel holds was all opened from an incoming signal of the room and is at most 64
    messages; the offers it announces are its own, each under its session; and [Publish] never looks
    up a tracker it does not have. *)
Theorem torrent_session_invariant room peerID urls token s0 s :
  NewTorrentSession room peerID urls token = Ok s0 -> rtc torrent_step s0 s ->
  torrent_inv (ts_topic s0) peerID token (dom (ts_sockets s0)) s /\
  forall value now random writeErr order ids, (forall url, url ∈ order -> url ∈ dom (ts_sockets s)) ->
    is_Some (torrent_Publish s value now random writeErr order ids).
Proof.
  intros Hnew Hrtc.
  assert (torrent_inv (ts_topic s0) peerID token (dom (ts_sockets s0)) s) as Hi.
  { apply NewTorrentSession_inv in Hnew. revert Hnew. generalize (ts_topic s0) (dom (ts_sockets s0)).
    induction Hrtc as [|s0 s1 s Hstep _ IH]; [done|]. intros topic us Hi. by eapply IH, torrent_step_inv. }
  split; [done|]. intros value now random writeErr order ids Hu.
  unfold torrent_Publish. destruct (prepareOutgoing _ _ _ _ _ _) as [out|]; [|done]. case_bool_decide; [done|].
  set (s1 := if bool_decide (sg_Type out = "offer") then _ else _).
  assert (ts_sockets s1 = ts_sockets s) as Es by (unfold s1; by repeat case_bool_decide).
  assert (forall p, is_Some (writeAll s1 writeErr order p)) as Hw
    by (intros p; apply writeAll_defined; by rewrite Es).
  case_bool_decide as Ha; [|by destruct (Hw (announcePayload s1 ids)) as [[e snt] ->]].
  assert (s1 = s) as -> by (unfold s1; by rewrite Ha).
  case_bool_decide as Ho; [by destruct (Hw (answer_payload s out)) as [[e snt] ->]|].
  unfold socket_write. destruct (ts_offerOrigins s !! origin_key (sg_SessionID out) (sg_To out)) as [url|] eqn:El; [|done].
  apply (ti_origins _ _ _ _ _ Hi) in El. cbn [default id]. destruct (ti_const _ _ _ _ _ Hi) as (_ & _ & _ & Ed).
  rewrite <- Ed in El. apply elem_of_dom in El as [c ->]. cbn. destruct c; [|done]. by destruct (writeErr url).
Qed.
End invariant.

(** ** Pauses, and answers that are not authentic *)

Section behaviour.
Context `{LP : !Libp2p, CB : !Cbor, CR : !Crypto, FL : !Floats, S1 : !Sha1}.

(** The pauses between connections double up to 30 s, are drawn from up to twice that, and start
    again at a second after a connection. *)
Lemma connect_pauses s url retry turns s' pauses :
  Second <= retry <= 30 * Second -> connectLoop s url retry turns = Some (s', pauses) ->
  Forall (fun pause => Second <= pause < 60 * Second) pauses.
Proof.
  revert s retry pauses. induction turns as [|turn turns IH]; intros s retry pauses Hr HC; cbn [connectLoop] in HC.
  { injection HC as _ <-. constructor. }
  destruct (ts_cancelled s); [injection HC as _ <-; constructor|].
  apply bind_Some in HC as ([s1 r] & H1 & HC).
  assert (Second <= r <= 30 * Second) as Hb.
  { destruct (tn_messages turn); [|by simplify_eq]. apply bind_Some in H1 as (s2 & _ & [= _ <-]). by vm_compute. }
  unfold Second, nanos in Hb |- *. pose proof (Z.mod_pos_bound (tn_random turn) r ltac:(lia)) as Hj. destruct (tn_waited turn).
  - apply bind_Some in HC as ([s3 rest] & H2 & [= -> <-]). constructor; [lia|].
    eapply IH; [|exact H2]. unfold nextRetry, Second, nanos. lia.
  - injection HC as _ <-. constructor; [lia|constructor].
Qed.

(** An answer is expected until a message with the offer's identifier arrives, whoever sent it: an
    empty answer from any peer removes the offer without an event, and from then on the session drops
    every answer to it, the genuine one included, and no longer announces it. *)
Theorem forged_answer_consumes_offer s url remote id now pick :
  remote <> "" -> remote <> ts_peerID s -> id <> "" -> is_Some (ts_offers s !! id) ->
  exists s',
    torrent_receive s url [("answer", JObject []); ("offer_id", JString id); ("peer_id", JString remote)] now pick = Some s' /\
    ts_events s' = ts_events s /\ ts_offers s' !! id = None /\
    forall url' m now' pick', member m "offer_id" = Some (JString id) -> member_map m "offer" = None ->
      torrent_receive s' url' m now' pick' = Some s'.
Proof.
  intros Hr Hme Hid [offer Ho]. set (s' := upd_offers s (delete id (ts_offers s)) (ts_offerOrigins s)). exists s'.
  assert (ts_offers s' !! id = None) as Hn by apply lookup_delete_eq.
  split_and!; [|done|done|].
  - unfold torrent_receive. change (member_string _ "peer_id") with remote. change (member_string _ "offer_id") with id.
    rewrite !bool_decide_false by done. cbn [orb]. change (member_map _ "offer") with (@None (list (string * json))).
    change (member_map _ "answer") with (Some (@nil (string * json))). cbn iota beta zeta. by rewrite Ho.
  - intros url' m now' pick' Hm1 Hm2. apply member_string_Some in Hm1. unfold torrent_receive. rewrite Hm1, Hm2.
    case_match; [done|]. destruct (member_map m "answer"); [|done]. rewrite Hn. f_equal. unfold s', upd_offers. cbn.
    by rewrite delete_delete_eq.
Qed.
End behaviour.

(** ** Witnesses *)

Module TrackersWitness.
Import Ref SignalingWitness.

Definition tracker : string := "wss://tracker.example".
Definition the_session (me : string) (offers : gmap string Signal) : TorrentSession :=
  mkTorrent "topic" "hash" me (Some token) {[ tracker := true ]} offers ∅ ∅ [] false 1.
Definition the_offer : Signal := mkSignal 0 "" "offer" "session-1" "" "" 0 "v=0" None "".
Definition sealed_offer : Signal :=
  Eval vm_compute in
    match prepareOutgoing the_offer "topic" alice (Some token) now (Ok (put_be 12 9)) with
    | Ok s => s | Err _ => emptySignal end.

Lemma offer_deliverable : deliverable "topic" alice bob now (Add now Second) the_offer sealed_offer.
Proof. constructor; first [by vm_compute | by left | ground | exact I]. Qed.

Lemma nostr_delivery_witness : exists s content,
  nostr_receive (mkNostr "topic" bob (Some token) [] [] false 0) (Some (content, true)) (Add now Second) false = Some s /\
  no_events s = [delivered "topic" alice now the_offer sealed_offer].
Proof.
  destruct (nostr_delivery (mkNostr "topic" alice (Some token) [] [] false 0) (mkNostr "topic" bob (Some token) [] [] false 0)
    token the_offer now (Add now Second) (Ok (put_be 12 9)) [None] (mkNostr "topic" alice (Some token) [] [] false 1)
    (MarshalSignal sealed_offer) false sealed_offer) as (s & Hr & Hev);
    [by vm_compute|by vm_compute|reflexivity|reflexivity|reflexivity|exact offer_deliverable|by vm_compute|by vm_compute
    |reflexivity|].
  exists s, (MarshalSignal sealed_offer). split; [exact Hr|exact Hev].
Defined.

Definition announced_message : list (string * json) :=
  [("offer", JObject [("sdp", JString (trackerSignal sealed_offer)); ("type", JString "offer")]);
   ("offer_id", JString "session-1"); ("peer_id", JString alice)].

Lemma torrent_delivery_witness : exists s,
  torrent_receive (the_session bob ∅) tracker announced_message (Add now Second) false = Some s /\
  ts_events s = [delivered "topic" alice now the_offer sealed_offer].
Proof.
  destruct (torrent_delivery (the_session alice ∅) (the_session bob ∅) token the_offer now (Ok (put_be 12 9))
    (fun _ => None) [tracker] ["session-1"] (the_session alice {["session-1" := sealed_offer]})
    [(tracker, announcePayload (the_session alice {["session-1" := sealed_offer]}) ["session-1"])] tracker
    (announcePayload (the_session alice {["session-1" := sealed_offer]}) ["session-1"]) sealed_offer)
    as (fields & body & Hp & Hc & Hd);
    [by vm_compute|by vm_compute|done|done|done|left; split_and!; [done|by vm_compute|set_solver]|by vm_compute
    |constructor|].
  injection Hp as <-. destruct Hc as (entries & He & Hin). injection He as <-.
  apply list_elem_of_singleton in Hin. injection Hin as ->.
  destruct (Hd announced_message (Add now Second) false) as (s & Hs & Hev);
    [by vm_compute|done|exact offer_deliverable|by vm_compute|].
  exists s. split; [exact Hs|exact Hev].
Defined.

#[local] Instance padded_sha1 : Sha1 := {| sha1 l := take 20 (l ++ replicate 20 x00) |}.

Lemma torrent_session_invariant_witness :
  match NewTorrentSession "room" alice [tracker] (Some token) with
  | Ok s => torrent_inv (ts_topic s) alice (Some token) (dom (ts_sockets s)) (torrent_Close s)
  | Err _ => False
  end.
Proof.
  destruct (NewTorrentSession "room" alice [tracker] (Some token)) as [s|err] eqn:E; [|vm_compute in E; discriminate E].
  refine (proj1 (torrent_session_invariant "room" alice [tracker] (Some token) s (torrent_Close s) E _)).
  apply rtc_once, ts_end.
Defined.

Lemma forged_answer_consumes_offer_witness : exists s,
  torrent_receive (the_session alice {["session-1" := sealed_offer]}) tracker
    [("answer", JObject []); ("offer_id", JString "session-1"); ("peer_id", JString bob)] now false = Some s /\
  ts_offers s !! "session-1" = None.
Proof.
  destruct (forged_answer_consumes_offer (the_session alice {["session-1" := sealed_offer]}) tracker bob "session-1" now false)
    as (s & Hs & _ & Ho & _); [done|done|done|by eexists|]. exists s. split; [exact Hs|exact Ho].
Defined.
End TrackersWitness.
