(* ===== verification/Connect.v ===== *)
(** Connecting natively (nativewebrtc/endpoint.go): the race between the signaling sessions
    ([ConnectWithSignalingSessions]), a connection with its supervisor ([connectWithSession],
    [superviseClientConnection], [Connection]), and the entry points of both sides. *)
From S2P Require Export Trackers Handshake.
From S2P Require Import ExtModel.
Local Open Scope Z_scope.

(** ** The race *)

(** What the goroutine of a session came to. *)
Inductive attempt :=
  | Dialing
  | AttemptFailed
  | Established
  | ClosedAgain.

#[export] Instance attempt_eq_dec : EqDecision attempt.
Proof. solve_decision. Defined.

(** The state of [ConnectWithSignalingSessions]; the attempts and sessions are numbered. *)
Record race := mkRace {
  rc_attempts : list attempt;
  (** Which sessions were closed. *)
  rc_closed : list bool;
  (** [winnerOnce], with the attempt that ran it. *)
  rc_once : option nat;
  (** The channel [result], of capacity 1. *)
  rc_result : option nat;
  rc_errorsChannel : list error;
  rc_failures : list error;
  rc_returned : option (result nat)
}.

Definition newRace (names : list string) : race :=
  mkRace (replicate (length names) Dialing) (replicate (length names) false) None None [] [] None.

Definition attempt_failed (names : list string) (r : race) (i : nat) (err : error) : race :=
  mkRace (<[i := AttemptFailed]> (rc_attempts r)) (rc_closed r) (rc_once r) (rc_result r)
    (rc_errorsChannel r ++ [Wrapf "%s: %w" [AStr (default "" (names !! i))] err]) (rc_failures r) (rc_returned r).

(** The winner goes to the channel; any other connection is closed, which closes its session too. *)
Definition attempt_connected (r : race) (i : nat) : race :=
  match rc_once r with
  | None =>
      mkRace (<[i := Established]> (rc_attempts r)) (rc_closed r) (Some i) (Some i)
        (rc_errorsChannel r) (rc_failures r) (rc_returned r)
  | Some _ =>
      mkRace (<[i := ClosedAgain]> (rc_attempts r)) (<[i := true]> (rc_closed r)) (rc_once r) (rc_result r)
        (rc_errorsChannel r) (rc_failures r) (rc_returned r)
  end.

(** [case winner := <-result]. *)
Definition close_losers (names : list string) (winner : nat) (closed : list bool) : list bool :=
  zip_with (fun name c => c || negb (bool_decide (name = default "" (names !! winner)))) names closed.
Definition take_winner (names : list string) (r : race) (winner : nat) : race :=
  mkRace (rc_attempts r) (close_losers names winner (rc_closed r)) (rc_once r) None
    (rc_errorsChannel r) (rc_failures r) (Some (Ok winner)).

Definition close_all (r : race) (err : error) : race :=
  mkRace (rc_attempts r) ((fun _ => true) <$> rc_closed r) (rc_once r) (rc_result r)
    (rc_errorsChannel r) (rc_failures r) (Some (Err err)).

Definition join_all (errs : list error) : error :=
  default (ErrNew "") (foldr (fun e acc => errors_Join (Some e) acc) None errs).

(** [case failure := <-errorsChannel], and the end of the loop after the last failure. *)
Definition take_failure (names : list string) (r : race) (failure : error) (rest : list error) : race :=
  let r := mkRace (rc_attempts r) (rc_closed r) (rc_once r) (rc_result r) rest (rc_failures r ++ [failure])
             (rc_returned r) in
  if bool_decide (length (rc_failures r) < length names)%nat then r
  else close_all r (Wrapf "native WebRTC signaling failed: %w" [] (join_all (rc_failures r))).

(** [case <-attemptCtx.Done()]. *)
Definition take_timeout (r : race) (ctxErr : error) : race :=
  close_all r (Wrapf "native WebRTC did not establish a connection: %w" [] ctxErr).

Inductive race_step (names : list string) (r : race) : race -> Prop :=
  | race_failed i err : rc_attempts r !! i = Some Dialing -> race_step names r (attempt_failed names r i err)
  | race_connected i : rc_attempts r !! i = Some Dialing -> race_step names r (attempt_connected r i)
  | race_winner w : rc_returned r = None -> rc_result r = Some w -> race_step names r (take_winner names r w)
  | race_failure failure rest : rc_returned r = None -> rc_errorsChannel r = failure :: rest ->
      race_step names r (take_failure names r failure rest)
  | race_timeout ctxErr : rc_returned r = None -> race_step names r (take_timeout r ctxErr).

(** The checks before the race. *)
Definition checkConnect (expected : string) (service : Z) (sessions : list (option string)) : result (list string) :=
  refuse (bool_decide (expected = "")) (ErrNew "expected native WebRTC PeerId is required");;
  refuse (service =? 0) (ErrNew "logical port must be between 1 and 65535");;
  refuse (bool_decide (sessions = [])) (ErrNew "at least one native WebRTC signaling session is required");;
  of_option (ErrNew "native WebRTC signaling session cannot be nil") (mapM id sessions).
Definition connectTimeout (timeout : Z) : Z := if timeout <=? 0 then 30 * Second else timeout.

(** *** What the race guarantees *)

Definition failed_count (l : list attempt) : nat := length (base.filter (fun a => a = AttemptFailed) l).

Local Arguments failed_count : simpl never.

Record race_ok (names : list string) (r : race) : Prop := {
  ro_attempts : length (rc_attempts r) = length names;
  ro_sessions : length (rc_closed r) = length names;
  ro_count : (length (rc_errorsChannel r) + length (rc_failures r))%nat = failed_count (rc_attempts r);
  ro_established i : rc_attempts r !! i = Some Established <-> rc_once r = Some i;
  ro_closed i : rc_attempts r !! i = Some ClosedAgain -> rc_closed r !! i = Some true /\ is_Some (rc_once r);
  ro_running : rc_returned r = None -> rc_result r = rc_once r /\ (length (rc_failures r) < length names)%nat;
  ro_winner w : rc_returned r = Some (Ok w) -> rc_once r = Some w /\
    forall j, (j < length names)%nat -> names !! j <> names !! w -> rc_closed r !! j = Some true;
  ro_error e : rc_returned r = Some (Err e) ->
    (forall j, (j < length names)%nat -> rc_closed r !! j = Some true) /\
    ((exists ctxErr, e = Wrapf "native WebRTC did not establish a connection: %w" [] ctxErr) \/
     Forall (fun a => a = AttemptFailed) (rc_attempts r))
}.

Lemma failed_count_insert l i a : l !! i = Some Dialing ->
  failed_count (<[i := a]> l) = (failed_count l + if bool_decide (a = AttemptFailed) then 1 else 0)%nat.
Proof.
  intros Hl. rewrite insert_take_drop by (by eapply lookup_lt_Some). rewrite <- (take_drop_middle l i Dialing) at 3 by done.
  unfold failed_count. rewrite !filter_app, !filter_cons. cbn [app]. rewrite !length_app.
  rewrite (decide_False (P := Dialing = AttemptFailed)) by done.
  case_bool_decide; [rewrite decide_True by done|rewrite decide_False by done]; cbn [length]; lia.
Qed.

Lemma failed_count_le l : (failed_count l <= length l)%nat.
Proof. apply length_filter. Qed.

Lemma failed_count_all l : failed_count l = length l -> Forall (fun a => a = AttemptFailed) l.
Proof.
  unfold failed_count. induction l as [|a l IH]; [constructor|]. rewrite filter_cons. case_decide; cbn [length]; intros E.
  - constructor; [done|]. apply IH. lia.
  - pose proof (length_filter (fun a => a = AttemptFailed) l). lia.
Qed.
Lemma all_failed_count l : Forall (fun a => a = AttemptFailed) l -> failed_count l = length l.
Proof. unfold failed_count. induction 1; [done|]. rewrite filter_cons_True by done. cbn [length]. by f_equal. Qed.

Lemma lookup_all_true (l : list bool) j : (j < length l)%nat -> ((fun _ => true) <$> l) !! j = Some true.
Proof. intros Hj. apply lookup_lt_is_Some in Hj as [b Hb]. by rewrite list_lookup_fmap, Hb. Qed.

Lemma lookup_close_losers names w closed j : (j < length names)%nat -> length closed = length names ->
  close_losers names w closed !! j =
  Some (default false (closed !! j) || negb (bool_decide (default "" (names !! j) = default "" (names !! w)))).
Proof.
  intros Hj Hl. unfold close_losers. rewrite lookup_zip_with.
  destruct (lookup_lt_is_Some_2 names j Hj) as [name ->].
  destruct (lookup_lt_is_Some_2 closed j) as [c ->]; [lia|]. done.
Qed.

Lemma attempt_failed_ok names r i err : rc_attempts r !! i = Some Dialing ->
  race_ok names r -> race_ok names (attempt_failed names r i err).
Proof.
  intros Hi [Ha Hs Hc He Hcl Hr Hw Her]. pose proof (lookup_lt_Some _ _ _ Hi) as Hlt. split; cbn.
  - by rewrite length_insert.
  - done.
  - rewrite length_app, failed_count_insert by done. rewrite bool_decide_true by done. cbn [length]. lia.
  - intros j. rewrite <- He. destruct (decide (i = j)) as [<-|]; [|by rewrite list_lookup_insert_ne].
    rewrite list_lookup_insert_eq by done. rewrite Hi. naive_solver.
  - intros j. destruct (decide (i = j)) as [<-|]; [by rewrite list_lookup_insert_eq|].
    rewrite list_lookup_insert_ne by done. apply Hcl.
  - done.
  - done.
  - intros e Hret. destruct (Her e Hret) as [? [?|Hall]]; [by auto|].
    apply (Forall_lookup_1 _ _ _ _ Hall) in Hi. done.
Qed.

Lemma attempt_connected_ok names r i : rc_attempts r !! i = Some Dialing ->
  race_ok names r -> race_ok names (attempt_connected r i).
Proof.
  intros Hi [Ha Hs Hc He Hcl Hr Hw Her]. pose proof (lookup_lt_Some _ _ _ Hi) as Hlt.
  assert (forall e, rc_returned r = Some (Err e) -> ~ Forall (fun a => a = AttemptFailed) (rc_attempts r)) as Hnf.
  { intros e _ Hall. by apply (Forall_lookup_1 _ _ _ _ Hall) in Hi. }
  unfold attempt_connected. destruct (rc_once r) as [w|] eqn:Eo; split; cbn.
  - by rewrite length_insert.
  - by rewrite length_insert.
  - rewrite failed_count_insert by done. rewrite bool_decide_false by done. lia.
  - intros j. rewrite <- He. destruct (decide (i = j)) as [<-|]; [|by rewrite list_lookup_insert_ne].
    rewrite list_lookup_insert_eq by done. rewrite Hi. naive_solver.
  - intros j. destruct (decide (i = j)) as [<-|].
    + intros _. rewrite list_lookup_insert_eq by lia. eauto.
    + rewrite !list_lookup_insert_ne by done. apply Hcl.
  - exact Hr.
  - intros w' Hret. destruct (Hw w' Hret) as [Hw1 Hw2]. split; [done|]. intros j Hj Hn.
    destruct (decide (i = j)) as [<-|]; [by rewrite list_lookup_insert_eq by lia|].
    rewrite list_lookup_insert_ne by done. by apply Hw2.
  - intros e Hret. destruct (Her e Hret) as [Hall [?|?]]; [|by destruct (Hnf e)]. split; [|by left].
    intros j Hj. destruct (decide (i = j)) as [<-|]; [by rewrite list_lookup_insert_eq by lia|].
    rewrite list_lookup_insert_ne by done. by apply Hall.
  - by rewrite length_insert.
  - done.
  - rewrite failed_count_insert by done. rewrite bool_decide_false by done. lia.
  - intros j. destruct (decide (i = j)) as [<-|]; [by rewrite list_lookup_insert_eq|].
    rewrite list_lookup_insert_ne by done. rewrite He. naive_solver.
  - intros j. destruct (decide (i = j)) as [<-|]; [by rewrite list_lookup_insert_eq|].
    rewrite list_lookup_insert_ne by done. intros Hj. destruct (Hcl j Hj) as [? []]. congruence.
  - intros Hret. by destruct (Hr Hret).
  - intros w' Hret. destruct (Hw w' Hret). congruence.
  - intros e Hret. destruct (Her e Hret) as [Hall [?|?]]; [|by destruct (Hnf e)]. auto.
Qed.

Lemma close_all_ok names r err : race_ok names r ->
  (exists ctxErr, err = Wrapf "native WebRTC did not establish a connection: %w" [] ctxErr) \/
  Forall (fun a => a = AttemptFailed) (rc_attempts r) -> race_ok names (close_all r err).
Proof.
  intros [Ha Hs Hc He Hcl Hr Hw Her] Hwhy. split; cbn; try done.
  - by rewrite length_fmap.
  - intros j Hj. destruct (Hcl j Hj) as [Ht Ho]. split; [|done]. apply lookup_all_true. by eapply lookup_lt_Some.
  - intros e [= <-]. split; [|done]. intros j Hj. apply lookup_all_true. lia.
Qed.

Lemma race_step_ok names r r' : race_ok names r -> race_step names r r' -> race_ok names r'.
Proof.
  intros Hok [i err Hi|i Hi|w Hn Hw|failure rest Hn Hf|ctxErr Hn].
  - by apply attempt_failed_ok.
  - by apply attempt_connected_ok.
  - destruct Hok as [Ha Hs Hc He Hcl Hr Hwin Her]. destruct (Hr Hn) as [Heq Hlt]. split; cbn; try done.
    + unfold close_losers. rewrite length_zip_with. lia.
    + intros j Hj. destruct (Hcl j Hj) as [Ht Ho]. split; [|done].
      rewrite lookup_close_losers by (done || rewrite <- Hs; by eapply lookup_lt_Some). by rewrite Ht.
    + intros w' [= <-]. split; [congruence|]. intros j Hj Hne. rewrite lookup_close_losers by done.
      rewrite bool_decide_false; [by rewrite orb_true_r|]. intros Heqn. apply Hne.
      assert (w < length names)%nat as Hlw.
      { rewrite <- Ha. eapply lookup_lt_Some, He. congruence. }
      destruct (lookup_lt_is_Some_2 names j Hj) as [x Hx]. destruct (lookup_lt_is_Some_2 names w Hlw) as [y Hy].
      rewrite Hx, Hy in *. simpl in Heqn. congruence.
  - unfold take_failure. cbn [rc_failures]. set (r0 := mkRace _ _ _ _ _ _ _). rewrite length_app. cbn [length].
    assert (Hlen := ro_count _ _ Hok). rewrite Hf in Hlen. cbn [length] in Hlen.
    assert (Hle := failed_count_le (rc_attempts r)). rewrite (ro_attempts _ _ Hok) in Hle.
    case_bool_decide as Hb.
    + destruct Hok as [Ha Hs Hc He Hcl Hr Hwin Her]. destruct (Hr Hn) as [Heq Hlt]. split; cbn; try done.
      * rewrite length_app. cbn [length]. lia.
      * intros _. split; [done|]. rewrite length_app. cbn [length]. lia.
    + assert (Forall (fun a => a = AttemptFailed) (rc_attempts r)) as Hall.
      { apply failed_count_all. rewrite (ro_attempts _ _ Hok). lia. }
      assert (Ho : rc_once r = None).
      { destruct (rc_once r) as [w|] eqn:Eo; [|done]. apply (ro_established _ _ Hok) in Eo.
        by apply (Forall_lookup_1 _ _ _ _ Hall) in Eo. }
      destruct Hok as [Ha Hs Hc He Hcl Hr Hwin Her]. split; cbn; try done.
      * by rewrite length_fmap.
      * rewrite length_app. cbn [length]. lia.
      * intros j Hj. destruct (Hcl j Hj) as [Ht Hi]. split; [|done]. apply lookup_all_true. by eapply lookup_lt_Some.
      * intros e [= <-]. split; [|by right]. intros j Hj. apply lookup_all_true. lia.
  - apply close_all_ok; [done|]. left. by eexists.
Qed.

Lemma newRace_ok names : names <> [] -> race_ok names (newRace names).
Proof.
  intros Hne. assert (forall i a, replicate (length names) Dialing !! i = Some a -> a = Dialing) as Hd.
  { intros i a Hi. by apply lookup_replicate in Hi as [? _]. }
  split; cbn; try done.
  - by rewrite length_replicate.
  - by rewrite length_replicate.
  - unfold failed_count. clear. induction (length names); [done|]. cbn [replicate]. by rewrite filter_cons_False.
  - intros i. split; [|done]. intros Hi. by apply Hd in Hi.
  - intros i Hi. by apply Hd in Hi.
  - intros _. split; [done|]. destruct names; [done|]. simpl. lia.
Qed.

(** C7: the race of the signaling sessions, in any interleaving.  The error channel never holds more
    than its capacity; at most one attempt's connection is ever left open; a returned winner is open and
    every session of another name is closed; an error other than the timeout means that every attempt
    failed, and any error that every session is closed; and as long as the call has not returned and no
    attempt is still dialing, it has something to receive. *)
Theorem connect_race names r :
  names <> [] -> reachable (eq (newRace names)) (race_step names) r ->
  (length (rc_errorsChannel r) <= length names)%nat /\
  (forall i j, rc_attempts r !! i = Some Established -> rc_attempts r !! j = Some Established -> i = j) /\
  (forall w, rc_returned r = Some (Ok w) -> rc_attempts r !! w = Some Established /\
    forall j, (j < length names)%nat -> names !! j <> names !! w -> rc_closed r !! j = Some true) /\
  (forall e, rc_returned r = Some (Err e) ->
    (forall j, (j < length names)%nat -> rc_closed r !! j = Some true) /\
    ((exists ctxErr, e = Wrapf "native WebRTC did not establish a connection: %w" [] ctxErr) \/
     Forall (fun a => a = AttemptFailed) (rc_attempts r))) /\
  (rc_returned r = None -> Dialing ∉ rc_attempts r -> is_Some (rc_result r) \/ rc_errorsChannel r <> []).
Proof.
  intros Hne Hr. assert (race_ok names r) as Hok.
  { revert Hr. apply invariant; [intros ? <-; by apply newRace_ok|]. intros. by eapply race_step_ok. }
  pose proof (failed_count_le (rc_attempts r)) as Hle. rewrite (ro_attempts _ _ Hok) in Hle.
  destruct Hok as [Ha Hs Hc He Hcl Hrun Hw Her]. split_and!.
  - lia.
  - intros i j Hi Hj. apply He in Hi, Hj. congruence.
  - intros w Hret. destruct (Hw w Hret) as [Ho Hall]. split; [by apply He|done].
  - exact Her.
  - intros Hret Hd. destruct (Hrun Hret) as [Heq Hlt]. destruct (rc_once r) as [w|] eqn:Eo; [left; rewrite Heq; eauto|right].
    intros Hnil. rewrite Hnil in Hc. cbn [length] in Hc.
    assert (failed_count (rc_attempts r) = length (rc_attempts r)); [|lia].
    apply all_failed_count, Forall_forall. intros a Hin.
    destruct a; [done|done|..]; apply list_elem_of_lookup in Hin as [i Hi].
    + apply He in Hi. done.
    + apply Hcl in Hi as [_ []]. done.
Qed.

(** A connection can outlive the call.  The channel is buffered, so an attempt that succeeds as the
    timeout is taken leaves an open connection that nothing ever receives or closes. *)
Theorem connect_timeout_leak : exists r,
  reachable (eq (newRace ["Native Nostr"])) (race_step ["Native Nostr"]) r /\
  rc_returned r = Some (Err (Wrapf "native WebRTC did not establish a connection: %w" [] ErrDeadlineExceeded)) /\
  rc_attempts r = [Established] /\ forall r', rtc (race_step ["Native Nostr"]) r r' -> r' = r.
Proof.
  set (r0 := newRace ["Native Nostr"]). set (r1 := take_timeout r0 ErrDeadlineExceeded).
  exists (attempt_connected r1 0). split_and!; [|done|done|].
  - eapply reach_step; [eapply reach_step; [by apply reach_init|by apply race_timeout]|by apply race_connected].
  - intros r' [<-|(y & Hs & _)]%rtc_inv; [done|].
    destruct Hs as [[|i] err Hi|[|i] Hi|w Hn _|failure rest Hn _|ctxErr Hn]; first [vm_compute in Hi; discriminate Hi|vm_compute in Hn; discriminate Hn].
Qed.

(** ** Redialing *)

Definition redialPause : Z := 750 * Millisecond.

(** The loop of [superviseClientConnection] that dials again, [elapsed] after it started and until
    [deadline] (120 s, or earlier when the connection is closed); attempt [k] takes some time and
    yields a transport or fails.  Yields the transport and the number of dials; no result: out of
    fuel. *)
Fixpoint redial (fuel : nat) (deadline elapsed : Z) (attempt : nat -> Z * option nat) (k : nat)
    : option (option nat * nat) :=
  match fuel with
  | O => None
  | S fuel =>
      if deadline <=? elapsed then Some (None, k)
      else
        let '(took, next) := attempt k in
        match next with
        | Some next => Some (Some next, S k)
        | None =>
            let elapsed := elapsed + took + redialPause in
            if deadline <=? elapsed then Some (None, S k) else redial fuel deadline elapsed attempt (S k)
        end
  end.

(** C22: redialing ends, after at most 160 dials, with the first transport that was established, or
    with none when every dial failed. *)
Theorem redial_terminates deadline attempt :
  deadline <= ReconnectGrace -> (forall k, 0 <= (attempt k).1) ->
  exists next k, redial 161 deadline 0 attempt 0 = Some (next, k) /\ (k <= 160)%nat /\
    match next with
    | Some n => (0 < k)%nat /\ (attempt (pred k)).2 = Some n /\ forall i, (i < pred k)%nat -> (attempt i).2 = None
    | None => forall i, (i < k)%nat -> (attempt i).2 = None
    end.
Proof.
  intros Hd Ht.
  assert (forall fuel elapsed k, Z.of_nat k * redialPause <= elapsed -> (160 < fuel + k)%nat -> (k <= 160)%nat ->
    (forall i, (i < k)%nat -> (attempt i).2 = None) ->
    exists next k', redial fuel deadline elapsed attempt k = Some (next, k') /\ (k' <= 160)%nat /\
      match next with
      | Some n => (0 < k')%nat /\ (attempt (pred k')).2 = Some n /\ forall i, (i < pred k')%nat -> (attempt i).2 = None
      | None => forall i, (i < k')%nat -> (attempt i).2 = None
      end) as Hloop; [|by apply Hloop; (vm_compute; congruence) || lia].
  unfold ReconnectGrace, redialPause, Second, Millisecond, nanos in *.
  induction fuel as [|fuel IH]; intros elapsed k He Hf Hk Hall; [lia|]. cbn [redial].
  destruct (Z.leb_spec deadline elapsed) as [|Hlt]; [by exists None, k|].
  specialize (Ht k). destruct (attempt k) as [took next] eqn:Ek. cbn [fst] in Ht. destruct next as [n|].
  { exists (Some n), (S k). cbn [pred]. rewrite Ek. split_and!; [done|lia|lia|done|done]. }
  assert (forall i, (i < S k)%nat -> (attempt i).2 = None) as Hall'.
  { intros i Hi. destruct (decide (i = k)) as [->|]; [by rewrite Ek|apply Hall; lia]. }
  unfold redialPause, Millisecond, nanos. case_match eqn:E.
  - exists None, (S k). split_and!; [done|lia|done].
  - apply Z.leb_gt in E. apply IH; [lia|lia|lia|done].
Qed.

(** ** A connection and its supervisor *)

(** Where [superviseClientConnection] is: forwarding the frames of a transport, dialing again, about
    to attach what it dialed, about to resume the stream, about to report the new transport, in
    [stream.fail] before it closes the link, or returned. *)
Inductive phase :=
  | Forwarding (current : nat)
  | Redialing
  | Attaching (next : option nat)
  | Resuming (next : nat)
  | Notifying (next : nat)
  | Failing
  | Ended.

(** The objects [connectWithSession] makes; [cl_open] are the transports that were not closed. *)
Record client := mkClient {
  cl_link : peerLink;
  cl_stream : Stream;
  (** [connectionCtx] is cancelled, and the function of [closeOnce] has run to its end. *)
  cl_cancelled : bool;
  cl_closeDone : bool;
  (** The channel [reconnected], of capacity 1. *)
  cl_reconnected : bool;
  cl_open : gset nat;
  (** A [Write] or [CloseWrite] is in [link.Send] and holds the stream's write mutex. *)
  cl_writing : bool;
  cl_phase : phase
}.

Definition connectWithSession (p2p : nat) : client :=
  mkClient (newPeerLink p2p) (NewStream).1 false false false {[ p2p ]} false (Forwarding p2p).

Definition cl_set_phase (c : client) (phase : phase) : client :=
  mkClient (cl_link c) (cl_stream c) (cl_cancelled c) (cl_closeDone c) (cl_reconnected c) (cl_open c) (cl_writing c) phase.
Definition cl_set_link (c : client) (link : peerLink) : client :=
  mkClient link (cl_stream c) (cl_cancelled c) (cl_closeDone c) (cl_reconnected c) (cl_open c) (cl_writing c) (cl_phase c).
Definition cl_set_stream (c : client) (stream : Stream) : client :=
  mkClient (cl_link c) stream (cl_cancelled c) (cl_closeDone c) (cl_reconnected c) (cl_open c) (cl_writing c) (cl_phase c).
Definition cl_set_open (c : client) (open : gset nat) : client :=
  mkClient (cl_link c) (cl_stream c) (cl_cancelled c) (cl_closeDone c) (cl_reconnected c) open (cl_writing c) (cl_phase c).
Definition cl_set_reconnected (c : client) (reconnected : bool) : client :=
  mkClient (cl_link c) (cl_stream c) (cl_cancelled c) (cl_closeDone c) reconnected (cl_open c) (cl_writing c) (cl_phase c).

Definition cl_set_writing (c : client) (writing : bool) : client :=
  mkClient (cl_link c) (cl_stream c) (cl_cancelled c) (cl_closeDone c) (cl_reconnected c) (cl_open c) writing (cl_phase c).

(** [link.Close()]. *)
Definition close_client_link (c : client) : client :=
  let '(link, peer) := link_Close (cl_link c) in
  cl_set_open (cl_set_link c link) (cl_open c ∖ match peer with Some peer => {[ peer ]} | None => ∅ end).

(** The stream's [closePeer]: [cancel()], then [link.Close()]; the signaling session is closed with it. *)
Definition close_cancel (c : client) : client :=
  mkClient (cl_link c) (cl_stream c) true (cl_closeDone c) (cl_reconnected c) (cl_open c) (cl_writing c) (cl_phase c).
Definition close_finish (c : client) : client :=
  let c := close_client_link c in
  mkClient (cl_link c) (cl_stream c) (cl_cancelled c) true (cl_reconnected c) (cl_open c) (cl_writing c) (cl_phase c).

(** After [forwardFrames]. *)
Definition forward_end (c : client) (current : nat) : client :=
  if cl_cancelled c then cl_set_phase c Ended
  else cl_set_phase (cl_set_link c (link_Detach (cl_link c) current).2) Redialing.

(** [stream.fail(err, true)], which ends with the write mutex, then [link.Close()] and the return. *)
Definition stop_waiting (c : client) (err : error) : client :=
  cl_set_phase (cl_set_stream c (fail (cl_stream c) err)) Failing.
Definition abandon (c : client) : client := cl_set_phase (close_client_link c) Ended.

Definition redialed (c : client) (next : option nat) : client :=
  cl_set_phase (cl_set_open c (cl_open c ∪ match next with Some next => {[ next ]} | None => ∅ end)) (Attaching next).

Definition attach_next (c : client) (next : option nat) : client :=
  let err := ErrNew "native WebRTC peer did not reconnect within 120 seconds" in
  match next with
  | None => stop_waiting c err
  | Some next =>
      let '(attached, link) := link_Attach (cl_link c) next in
      if negb attached then stop_waiting c err else cl_set_phase (cl_set_link c link) (Resuming next)
  end.

Definition resume (c : client) (next : nat) (resumeErr flowErr : option error) : client :=
  let '(err, stream, _) := Reconnected (cl_stream c) resumeErr flowErr in
  let c := cl_set_stream c stream in
  match err with
  | Some err => stop_waiting c err
  | None => cl_set_phase c (Notifying next)
  end.

Definition notify (c : client) (next : nat) : client :=
  cl_set_phase (cl_set_reconnected c true) (Forwarding next).

(** [Connection.Reconnect] up to its wait: it drains the channel and closes the transport. *)
Definition Reconnect (c : client) : result client :=
  let c := cl_set_reconnected c false in
  peer ← link_Interrupt (cl_link c);
  Ok (cl_set_open c (cl_open c ∖ {[ peer ]})).

(** What this end does. *)
Inductive client_step (c : client) : client -> Prop :=
  | cs_gone current : cl_phase c = Forwarding current -> current ∉ cl_open c -> client_step c (forward_end c current)
  | cs_refused current frame err stream replies :
      cl_phase c = Forwarding current -> Receive (cl_stream c) frame = (Some err, stream, replies) ->
      client_step c (forward_end (cl_set_stream c stream) current)
  | cs_redial deadline attempt next k : cl_phase c = Redialing -> deadline <= ReconnectGrace ->
      (forall n, next = Some n -> n ∉ cl_open c) ->
      redial 161 deadline 0 attempt 0 = Some (next, k) -> client_step c (redialed c next)
  | cs_attach next : cl_phase c = Attaching next -> client_step c (attach_next c next)
  | cs_resume next resumeErr flowErr : cl_phase c = Resuming next -> client_step c (resume c next resumeErr flowErr)
  | cs_notify next : cl_phase c = Notifying next -> client_step c (notify c next)
  (** [fail] goes on when nobody holds the write mutex. *)
  | cs_abandon : cl_phase c = Failing -> cl_writing c = false -> client_step c (abandon c)
  | cs_reconnect c' : Reconnect c = Ok c' -> client_step c c'
  (** A write takes the mutex and calls [link.Send], which returns when there is a transport or the link is
      closed. *)
  | cs_write : cl_writing c = false -> client_step c (cl_set_writing c true)
  | cs_written : cl_writing c = true -> link_Send (cl_link c) <> None -> client_step c (cl_set_writing c false)
  (** [Close] and [Reset] come to [closePeer]: the first has had the write mutex, the second has sent a frame. *)
  | cs_cancel : cl_writing c = false \/ link_Send (cl_link c) <> None -> client_step c (close_cancel c)
  | cs_close : cl_cancelled c = true -> client_step c (close_finish c)
  | cs_stream stream : stream_step (cl_stream c) stream -> client_step c (cl_set_stream c stream).

(** What the other end and the network do: a transport ends. *)
Definition peer_gone (c : client) (peer : nat) : client := cl_set_open c (cl_open c ∖ {[ peer ]}).
Inductive connection_step (c : client) : client -> Prop :=
  | cn_own c' : client_step c c' -> connection_step c c'
  | cn_gone peer : connection_step c (peer_gone c peer).





Lemma close_client_link_phase c : cl_phase (close_client_link c) = cl_phase c.
Proof. unfold close_client_link. by destruct (link_Close _). Qed.






(** A write that waits for a transport when the supervisor gives up makes both wait for ever, whatever else is
    called on the connection: [fail] waits for the write mutex, the write for the link that would be closed next. *)
Theorem supervisor_blocked :
  exists c, reachable (eq (connectWithSession 0)) connection_step c /\
    forall c', rtc connection_step c c' -> cl_phase c' = Failing /\ cl_writing c' = true /\ link_Send (cl_link c') = None.
Proof.
  set (c0 := connectWithSession 0). set (never := fun _ : nat => (0, @None nat)).
  set (u1 := forward_end (peer_gone c0 0) 0). set (u2 := cl_set_writing u1 true).
  set (u3 := redialed u2 None). exists (attach_next u3 None). split.
  - eapply reach_step; [eapply reach_step; [eapply reach_step; [eapply reach_step; [eapply reach_step;
      [by apply reach_init|by apply (cn_gone _ 0)]|]|]|]|]; apply cn_own.
    + by apply cs_gone; [|vm_compute].
    + by apply cs_write.
    + by apply (cs_redial _ 0 never None 0).
    + by apply (cs_attach _ None).
  - intros c' Hr. cut (cl_link c' = mkLink None false /\ cl_phase c' = Failing /\ cl_writing c' = true /\ cl_cancelled c' = false).
    { intros (El & -> & -> & _). by rewrite El. }
    assert (cl_link (attach_next u3 None) = mkLink None false /\ cl_phase (attach_next u3 None) = Failing /\
      cl_writing (attach_next u3 None) = true /\ cl_cancelled (attach_next u3 None) = false) as H0 by done.
    revert H0. induction Hr as [c|c c1 c2 Hs _ IH]; [done|]. intros (El & Eph & Ew & Ec). apply IH. clear IH.
    destruct Hs as [c1 Hs|peer]; [|done].
    destruct Hs as [current Hph _|current frame err stream replies Hph _|deadline attempt next k Hph _ _ _|next Hph
      |next resumeErr flowErr Hph|next Hph|_ Hw|c' Hr|Hw|_ Hl|Hg|Hcc|stream _]; try congruence; try done.
    + unfold Reconnect in Hr. cbn [cl_set_reconnected cl_link] in Hr. by rewrite El in Hr.
    + by rewrite El in Hl.
    + rewrite El in Hg. destruct Hg; [congruence|done].
Qed.

(** *** Transports that are not closed *)

(** Once the link is closed, a transport it does not hold is out of this end's reach. *)
Lemma abandoned_forever c c' n :
  cl_link c = mkLink None true -> cl_phase c = Ended -> n ∈ cl_open c -> rtc client_step c c' ->
  n ∈ cl_open c' /\ cl_phase c' = Ended.
Proof.
  intros El Eph Hn Hr. cut (cl_link c' = mkLink None true /\ n ∈ cl_open c' /\ cl_phase c' = Ended); [tauto|].
  revert El Eph Hn. induction Hr as [c|c c1 c2 Hs _ IH]; [done|]. intros El Eph Hn. cut
    (cl_link c1 = mkLink None true /\ cl_phase c1 = Ended /\ n ∈ cl_open c1); [naive_solver|]. clear IH.
  destruct Hs as [current Hph _|current frame err stream replies Hph _|deadline attempt next k Hph _ _ _|next Hph
    |next resumeErr flowErr Hph|next Hph|Hph _|c' Hr|_|_ _|_|_|stream _]; try congruence.
  - unfold Reconnect in Hr. cbn [cl_set_reconnected cl_link] in Hr. by rewrite El in Hr.
  - done.
  - done.
  - done.
  - unfold close_finish, close_client_link. rewrite El. cbn. by rewrite difference_empty_L.
  - done.
Qed.

(** A transport can be lost without being closed.  The supervisor detaches the transport it stops
    reading because of a bad frame, and drops the one it dialed when the connection was closed
    meanwhile; in both cases the connection ends with that transport still open, and nothing this end
    does afterwards closes it. *)
Theorem supervisor_leaks_transport :
  (exists c, reachable (eq (connectWithSession 0)) connection_step c /\ cl_phase c = Ended /\
     cl_closeDone c = true /\ forall c', rtc client_step c c' -> 0%nat ∈ cl_open c') /\
  (exists c, reachable (eq (connectWithSession 0)) connection_step c /\ cl_phase c = Ended /\
     cl_closeDone c = true /\ forall c', rtc client_step c c' -> 1%nat ∈ cl_open c').
Proof.
  set (c0 := connectWithSession 0). set (bad := mkFrame FrameAuthReady []).
  set (never := fun _ : nat => (0, @None nat)). set (once := fun _ : nat => (0, Some 1%nat)).
  set (u1 := forward_end (cl_set_stream c0 (cl_stream c0)) 0).
  set (u2 := redialed u1 (Some 1%nat)). set (u3 := close_finish (close_cancel u2)). set (u4 := abandon (attach_next u3 (Some 1%nat))).
  set (v3 := close_finish (close_cancel u1)). set (v4 := abandon (attach_next (redialed v3 None) None)).
  assert (reachable (eq c0) connection_step u1) as H1.
  { eapply reach_step; [by apply reach_init|]. apply cn_own. by eapply (cs_refused _ _ bad). }
  split.
  - exists v4. split_and!; [|done|done|].
    + eapply reach_step; [eapply reach_step; [eapply reach_step; [eapply reach_step; [eapply reach_step; [exact H1|]|]|]|]|];
        apply cn_own; [by apply cs_cancel; left|by apply cs_close|apply (cs_redial _ 0 never None 0); done
        |by apply (cs_attach _ None)|by apply cs_abandon].
    + intros c' Hr. eapply abandoned_forever; [| | |exact Hr]; [done|done|by vm_compute].
  - exists u4. split_and!; [|done|done|].
    + eapply reach_step; [eapply reach_step; [eapply reach_step; [eapply reach_step; [eapply reach_step; [exact H1|]|]|]|]|]; apply cn_own;
        [apply (cs_redial _ ReconnectGrace once (Some 1%nat) 1); [done|done| |done]|by apply cs_cancel; left|by apply cs_close
        |by apply (cs_attach _ (Some 1%nat))|by apply cs_abandon].
      intros n [= <-]. by vm_compute.
    + intros c' Hr. eapply abandoned_forever; [| | |exact Hr]; [done|done|by vm_compute].
Qed.

(** [Reconnect] may return without a new transport.  It is called between the resumption of a stream
    and its report: it closes the transport just attached, then takes the report of that very
    transport for the one it waits for. *)
Theorem reconnect_spurious : exists c1 c2 c3,
  reachable (eq (connectWithSession 0)) connection_step c1 /\ Reconnect c1 = Ok c2 /\ cl_reconnected c2 = false /\
  client_step c2 c3 /\ cl_reconnected c3 = true /\ lk_peer (cl_link c3) = lk_peer (cl_link c1) /\
  forall n, lk_peer (cl_link c3) = Some n -> n ∉ cl_open c3.
Proof.
  set (c0 := connectWithSession 0). set (once := fun _ : nat => (0, Some 1%nat)).
  set (u1 := forward_end (peer_gone c0 0) 0). set (u2 := redialed u1 (Some 1%nat)).
  set (u3 := attach_next u2 (Some 1%nat)). set (u4 := resume u3 1 None None).
  exists u4, (cl_set_open u4 (cl_open u4 ∖ {[1%nat]})), (notify (cl_set_open u4 (cl_open u4 ∖ {[1%nat]})) 1).
  split_and!; [|done|done|by apply cs_notify|done|done|intros n [= <-]; by vm_compute].
  - eapply reach_step; [eapply reach_step; [eapply reach_step; [eapply reach_step; [eapply reach_step; [by apply reach_init|]|]|]|]|].
    + by apply (cn_gone _ 0).
    + by apply cn_own, cs_gone; [|vm_compute].
    + apply cn_own, (cs_redial _ ReconnectGrace once (Some 1%nat) 1); [done|done| |done]. intros n [= <-]. by vm_compute.
    + by apply cn_own, cs_attach.
    + by apply cn_own, cs_resume.
Qed.

(** ** Entry points *)

Section entry_points.
Context `{LP : !Libp2p}.

Inductive SignalingSession :=
  | SNostr (s : NostrSession)
  | STorrent (s : TorrentSession).
Definition session_Name (s : SignalingSession) : string :=
  match s with SNostr _ => "Native Nostr" | STorrent _ => "Native BitTorrent" end.
Definition session_PeerID (s : SignalingSession) : string :=
  match s with SNostr s => no_peerID s | STorrent s => ts_peerID s end.


Context `{CB : !Cbor, CR : !Crypto, KS : !Keys, S1 : !Sha1}.

(** [createSessions]; [keyErr] is the outcome of deriving the Nostr key. *)
Definition createSessions (room peerID : string) (token : option Token) (nostrURLs torrentURLs : list string)
    (keyErr : option error) : result (list SignalingSession) :=
  match NewNostrSession room peerID nostrURLs token keyErr, NewTorrentSession room peerID torrentURLs token with
  | Ok nostr, Ok torrent => Ok [SNostr nostr; STorrent torrent]
  | Ok nostr, Err _ => Ok [SNostr nostr]
  | Err _, Ok torrent => Ok [STorrent torrent]
  | Err nostrErr, Err torrentErr => Err (ErrJoin nostrErr torrentErr)
  end.

(** [Connect] up to the race: the sessions that take part and the timeout. *)
Definition Connect (expected : string) (service : Z) (token : option Token) (timeout : Z) (nos torrents : list string)
    (random : result (list byte)) (keyErr : option error) : result (list SignalingSession * Z) :=
  let timeout := connectTimeout timeout in
  room ← RoomID expected service;
  peerID ← CreateSignalingPeerID random;
  sessions ← createSessions room peerID token nos torrents keyErr;
  _ ← checkConnect expected service ((fun s => Some (session_Name s)) <$> sessions);
  Ok (sessions, connectTimeout timeout).

(** [StartListenerWithSignalingSessions] up to the listener. *)
Definition checkListener (privateKey : option PrivKey) (service : Z) (sessions : list (option string)) : result (list string) :=
  match privateKey with
  | None => Err (ErrNew "libp2p private key is required")
  | Some key =>
      _ ← IDFromPrivateKey key;
      refuse (service =? 0) (ErrNew "logical port must be between 1 and 65535");;
      refuse (bool_decide (sessions = [])) (ErrNew "at least one native WebRTC signaling session is required");;
      of_option (ErrNew "native WebRTC signaling session cannot be nil") (mapM id sessions)
  end.

(** [StartListener] up to the listener: its sessions. *)
Definition StartListener (privateKey : option PrivKey) (service : Z) (token : option Token) (nos torrents : list string)
    (random : result (list byte)) (keyErr : option error) : result (list SignalingSession) :=
  match privateKey with
  | None => Err (ErrNew "libp2p private key is required")
  | Some key =>
      id ← IDFromPrivateKey key;
      room ← RoomID id service;
      signalingPeerID ← CreateSignalingPeerID random;
      sessions ← createSessions room signalingPeerID token nos torrents keyErr;
      _ ← checkListener privateKey service ((fun s => Some (session_Name s)) <$> sessions);
      Ok sessions
  end.

(** What [Connect] hands to the race: sessions of different names, with a valid identity of their own. *)
Lemma Connect_sessions expected service token timeout nos torrents random keyErr sessions t :
  Connect expected service token timeout nos torrents random keyErr = Ok (sessions, t) ->
  sessions <> [] /\ NoDup (session_Name <$> sessions) /\ 0 < t /\
  Forall (fun s => clientIDPattern (session_PeerID s) = true) sessions.
Proof.
  unfold Connect. intros HC. apply bind_Ok in HC as (room & _ & HC). apply bind_Ok in HC as (peerID & _ & HC).
  apply bind_Ok in HC as (ss & Hs & HC). apply bind_Ok in HC as (names & Hn & [= <- <-]).
  assert (0 < connectTimeout (connectTimeout timeout)) as Ht.
  { unfold connectTimeout. repeat case_match; try (by vm_compute); lia. }
  assert (forall n, NewNostrSession room peerID nos token keyErr = Ok n -> clientIDPattern (no_peerID n) = true) as Hno.
  { unfold NewNostrSession. intros n H'. apply bind_Ok in H' as (topic & _ & H'). apply seq_Ok in H' as [Hp H'].
    apply is_ok_refuse, negb_false_iff in Hp. destruct keyErr; [done|]. by injection H' as <-. }
  assert (forall n, NewTorrentSession room peerID torrents token = Ok n -> clientIDPattern (ts_peerID n) = true) as Hto.
  { unfold NewTorrentSession. intros n H'. apply bind_Ok in H' as (topic & _ & H'). apply seq_Ok in H' as [Hp H'].
    apply is_ok_refuse, negb_false_iff in Hp. by injection H' as <-. }
  unfold createSessions in Hs. destruct (NewNostrSession _ _ _ _ _) as [n|], (NewTorrentSession _ _ _ _) as [m|]; simplify_eq;
    (split_and!; [done| |done|repeat (apply Forall_cons; split; [by (apply Hno || apply Hto)|]); by apply Forall_nil]).
  - apply NoDup_cons. split; [by intros ?%list_elem_of_singleton|apply NoDup_singleton].
  - apply NoDup_singleton.
  - apply NoDup_singleton.
Qed.
End entry_points.

(** ** Witnesses *)

Module ConnectWitness.

Definition names : list string := ["Native Nostr"; "Native BitTorrent"].
Definition finished : race := take_winner names (attempt_connected (newRace names) 1) 1.

Lemma connect_race_witness : rc_closed finished !! 0%nat = Some true.
Proof.
  assert (reachable (eq (newRace names)) (race_step names) finished) as Hr.
  { eapply reach_step; [eapply reach_step; [by apply reach_init|by apply (race_connected _ _ 1)]|by apply race_winner]. }
  destruct (connect_race names finished) as (_ & _ & Hw & _ & _); [done|exact Hr|].
  destruct (Hw 1%nat eq_refl) as [_ Hall]. apply Hall; [simpl; lia|done].
Defined.

Lemma redial_terminates_witness : exists next k,
  redial 161 ReconnectGrace 0 (fun k => (0, if bool_decide (k = 159%nat) then Some 7%nat else None)) 0 = Some (next, k) /\
  (k <= 160)%nat.
Proof.
  destruct (redial_terminates ReconnectGrace (fun k => (0, if bool_decide (k = 159%nat) then Some 7%nat else None)))
    as (next & k & Hr & Hk & _); [reflexivity|simpl; lia|]. exists next, k. exact (conj Hr Hk).
Defined.

(** Dialing for the 160th time is possible: the bound is exact. *)
Example redial_exact :
  redial 161 ReconnectGrace 0 (fun k => (0, if bool_decide (k = 159%nat) then Some 7%nat else None)) 0 = Some (Some 7%nat, 160%nat).
Proof. by vm_compute. Qed.

End ConnectWitness.
