(* ===== verification/Client.v ===== *)
(** The client of the command line: the target and its resolution (p2p/node.go), the race between
    libp2p and native WebRTC and the admission of the stream it yields ([runClient] and
    [openAnyStream] of internal/cli/root.go). *)
From S2P Require Export Cli P2PNode.
From S2P Require Import ExtModel.
Local Open Scope Z_scope.

(** ** Resolving the target *)

(** What the node does while it resolves. *)
Inductive node_effect `{!Libp2p, !Cids} :=
  | AddAddrs (id : string) (addrs : list Multiaddr)
  | FindProviders (c : Cid)
  | FindPeer (id : string).

Section resolve.
Context `{LP : !Libp2p, CB : !Cbor, CR : !Crypto, CI : !Cids}.
(** [relay.Encapsulate("/p2p-circuit/p2p/" + id)] and [peer.ToCid]. *)
Variable EncapsulateCircuit : Multiaddr -> string -> Multiaddr.
Variable ToCid : string -> Cid.

(** What the address book and the DHT hold. *)
Record lookup_env := mkLookup {
  le_known : string -> list Multiaddr;
  le_dht : bool;
  le_providers : Cid -> list (string * list Multiaddr);
  le_findPeer : string -> result (string * list Multiaddr);
  le_now : Time
}.

Definition errFullMultiaddr : error := ErrNew "full multiaddr must contain /p2p/PeerId".

Definition peerIDFromTarget (target : string) : result string :=
  if negb (HasPrefix target "/") then peer_Decode target
  else
    address ← NewMultiaddr target;
    '(id, _) ← map_err (fun _ => errFullMultiaddr) (AddrInfoFromP2pAddr address);
    Ok id.

(** The loop over the providers of one CID: the first that is the target and has an address. *)
Fixpoint usable_provider (targetID : string) (infos : list (string * list Multiaddr))
    : option (string * list Multiaddr) :=
  match infos with
  | [] => None
  | (id, addrs) :: infos =>
      if negb (bool_decide (id = targetID)) || bool_decide (addrs = []) then usable_provider targetID infos
      else Some (id, addrs)
  end.

(** The loop over the CIDs. *)
Fixpoint search_providers (env : lookup_env) (targetID : string) (cids : list Cid) : list node_effect * bool :=
  match cids with
  | [] => ([], false)
  | c :: cids =>
      match usable_provider targetID (le_providers env c) with
      | Some (id, addrs) => ([FindProviders c; AddAddrs id addrs], true)
      | None => let '(effects, found) := search_providers env targetID cids in (FindProviders c :: effects, found)
      end
  end.

Definition resolve (env : lookup_env) (target : string) (relays : list string) (token : option Token)
    : list node_effect * result string :=
  if HasPrefix target "/" then
    match NewMultiaddr target with
    | Err err => ([], Err err)
    | Ok address =>
        match AddrInfoFromP2pAddr address with
        | Err _ => ([], Err errFullMultiaddr)
        | Ok (id, addrs) => ([AddAddrs id addrs], Ok id)
        end
    end
  else match peer_Decode target with
  | Err err => ([], Err (Wrapf "invalid PeerId %q: %w" [AStr target] err))
  | Ok targetID =>
      match relays with
      | relay :: _ =>
          match NewMultiaddr (TrimSuffix relay "/") with
          | Err err => ([], Err err)
          | Ok relayAddress =>
              match AddrInfoFromP2pAddr (EncapsulateCircuit relayAddress targetID) with
              | Err err => ([], Err (Wrapf "build relay route: %w" [] err))
              | Ok (_, addrs) => ([AddAddrs targetID addrs], Ok targetID)
              end
          end
      | [] =>
          if negb (bool_decide (le_known env targetID = [])) then ([], Ok targetID)
          else if negb (le_dht env)
          then ([], Err (ErrNew "PeerId was not found locally and the DHT is disabled; provide a full multiaddr or --relay"))
          else match (match token with None => Ok [ToCid targetID] | Some t => ProviderCIDs t (le_now env) end) with
          | Err err => ([], Err err)
          | Ok cids =>
              let '(effects, found) := search_providers env targetID cids in
              if found : bool then (effects, Ok targetID)
              else
                let notFound := Errorf "could not find PeerId %s; provide --relay or a full multiaddr" [AStr targetID] in
                match token with
                | Some _ => (effects, Err notFound)
                | None =>
                    match le_findPeer env targetID with
                    | Ok (id, addrs) =>
                        if bool_decide (addrs = []) then (effects ++ [FindPeer targetID], Err notFound)
                        else (effects ++ [FindPeer targetID; AddAddrs id addrs], Ok targetID)
                    | Err _ => (effects ++ [FindPeer targetID], Err notFound)
                    end
                end
          end
      end
  end.

(** ** Setup *)

Record client_plan := mkPlanClient {
  cp_target : string;
  cp_targetID : string;
  cp_service : Z;
  cp_token : option Token;
  cp_relays : list string
}.

(** [runClient] up to the node. *)
Definition client_setup (env : cli_env) (opts : options) (args : list string) : result client_plan :=
  token ← loadToken env opts;
  let target := match args, token with
    | target :: _, _ => target
    | [], Some t => peer_String (tk_PeerID t)
    | [], None => ""
    end in
  refuse (bool_decide (target = "")) (ErrNew "PeerId is required; example: p2p-nc 12D3KooW... 8080");;
  service ←
    (match args with
     | [_; text] => parseService text
     | _ => Ok (match token with Some t => tk_Service t | None => DefaultService end)
     end);
  targetID ← peerIDFromTarget target;
  match token with
  | None => Ok (mkPlanClient target targetID service None (o_relays opts))
  | Some t =>
      validateTokenFor t targetID service (ce_now env);;
      Ok (mkPlanClient target targetID service (Some t)
            (if bool_decide (o_relays opts = []) then relayStrings t else o_relays opts))
  end.

(** ** The stream *)

Context `{RD : !Reader ST, WR : !Writer ST}.

(** [openStream] of [runClient] after [openAnyStream]: the stream to use, or the error after the
    stream was reset. *)
Definition admit_stream (token : option Token) (stream : ST) (now : Time) (random : result (list byte))
    : result ST :=
  match token with
  | None => Ok stream
  | Some t =>
      match AuthenticateClient stream t now random with
      | (Ok _, stream) => Ok stream
      | (Err err, _) => Err err
      end
  end.

(** What [runClient] does with the stream. *)
Inductive client_session :=
  | ClientForwardUDP (bind : string) (port : Z)
  | ClientForwardTCP (bind : string) (port : Z)
  | ClientProbe
  | ClientPTY
  | ClientBridge (quitDelay inactivity : Z).
Definition client_session_of (opts : options) : client_session :=
  if negb (o_port opts =? 0)
  then if o_udp opts then ClientForwardUDP (o_bind opts) (o_port opts) else ClientForwardTCP (o_bind opts) (o_port opts)
  else if o_zero opts then ClientProbe
  else if o_interactive opts then ClientPTY
  else ClientBridge (seconds (o_quitDelay opts)) (if o_timeoutExplicit opts then seconds (o_timeout opts) else 0).
End resolve.

(** ** The race of [openAnyStream] *)

(** One of the two goroutines: dialing, waiting in its [select] with a stream or an error, or done:
    its stream was taken, or reset, or its error was taken or dropped. *)
Inductive leg :=
  | LegDialing
  | LegStream
  | LegError (err : error)
  | LegTaken
  | LegReset
  | LegFailed.

#[export] Instance leg_eq_dec : EqDecision leg.
Proof. solve_decision. Defined.

(** The libp2p leg is [false] and the native one [true]. *)
Record any_race := mkAny {
  ar_legs : bool -> leg;
  (** The caller's context, and [raceCtx] below it. *)
  ar_ctxDone : bool;
  ar_raceDone : bool;
  ar_failures : list error;
  ar_returned : option (result bool)
}.

Definition openAnyStream : any_race := mkAny (fun _ => LegDialing) false false [] None.

Definition set_leg (r : any_race) (i : bool) (l : leg) : any_race :=
  mkAny (fun j => if bool_decide (j = i) then l else ar_legs r j) (ar_ctxDone r) (ar_raceDone r) (ar_failures r) (ar_returned r).

(** [case attempt := <-attempts] with a stream: [cancel()] and the return. *)
Definition take_stream (r : any_race) (i : bool) : any_race :=
  let r := set_leg r i LegTaken in
  mkAny (ar_legs r) (ar_ctxDone r) true (ar_failures r) (Some (Ok i)).

(** [case attempt := <-attempts] with an error; after the second one the call returns. *)
Definition take_error (r : any_race) (i : bool) (err : error) : any_race :=
  let r := set_leg r i LegFailed in
  let failures := ar_failures r ++ [err] in
  match failures with
  | [a; b] => mkAny (ar_legs r) (ar_ctxDone r) true failures (Some (Err (ErrJoin a b)))
  | _ => mkAny (ar_legs r) (ar_ctxDone r) (ar_raceDone r) failures (ar_returned r)
  end.

(** [case <-ctx.Done()]: the return runs the deferred [cancel()]. *)
Definition take_ctx (r : any_race) (ctxErr : error) : any_race :=
  mkAny (ar_legs r) (ar_ctxDone r) true (ar_failures r) (Some (Err ctxErr)).

Inductive any_step (r : any_race) : any_race -> Prop :=
  | any_dialed i : ar_legs r i = LegDialing -> any_step r (set_leg r i LegStream)
  | any_failed i err : ar_legs r i = LegDialing -> any_step r (set_leg r i (LegError err))
  | any_take i : ar_returned r = None -> ar_legs r i = LegStream -> any_step r (take_stream r i)
  | any_take_error i err : ar_returned r = None -> ar_legs r i = LegError err -> any_step r (take_error r i err)
  | any_ctx ctxErr : ar_returned r = None -> ar_ctxDone r = true -> any_step r (take_ctx r ctxErr)
  | any_cancel : any_step r (mkAny (ar_legs r) true true (ar_failures r) (ar_returned r))
  | any_reset i : ar_raceDone r = true -> ar_legs r i = LegStream -> any_step r (set_leg r i LegReset)
  | any_drop i err : ar_raceDone r = true -> ar_legs r i = LegError err -> any_step r (set_leg r i LegFailed).

(** How many legs have failed. *)
Definition failed_legs (r : any_race) : nat :=
  (if bool_decide (ar_legs r false = LegFailed) then 1 else 0) + (if bool_decide (ar_legs r true = LegFailed) then 1 else 0).

Record any_ok (r : any_race) : Prop := {
  ao_taken i : ar_legs r i = LegTaken <-> ar_returned r = Some (Ok i);
  ao_done : is_Some (ar_returned r) -> ar_raceDone r = true;
  ao_ctx : ar_returned r = None -> ar_raceDone r = ar_ctxDone r;
  ao_running : ar_returned r = None -> (length (ar_failures r) <= 1)%nat;
  ao_count : ar_returned r = None -> ar_ctxDone r = false ->
    (forall i, ar_legs r i <> LegReset) /\ failed_legs r = length (ar_failures r);
  ao_error e : ar_returned r = Some (Err e) -> ar_ctxDone r = true \/ forall i, ar_legs r i = LegFailed
}.

Lemma set_leg_at r i l : ar_legs (set_leg r i l) i = l.
Proof. cbn. by rewrite bool_decide_true. Qed.
Lemma set_leg_other r i j l : j <> i -> ar_legs (set_leg r i l) j = ar_legs r j.
Proof. intros. cbn. by rewrite bool_decide_false. Qed.

(** Changing one leg that was not finished. *)
Lemma failed_legs_set r i l : ar_legs r i <> LegFailed ->
  failed_legs (set_leg r i l) = (failed_legs r + if bool_decide (l = LegFailed) then 1 else 0)%nat.
Proof.
  intros Hi. unfold failed_legs. destruct i; rewrite set_leg_at, set_leg_other by done.
  - rewrite (bool_decide_false (ar_legs r true = LegFailed)) by done. lia.
  - rewrite (bool_decide_false (ar_legs r false = LegFailed)) by done. lia.
Qed.

Lemma set_leg_ok r i l : any_ok r -> ar_legs r i <> LegFailed -> ar_legs r i <> LegTaken -> l <> LegTaken ->
  (l = LegReset \/ l = LegFailed -> ar_returned r = None -> ar_ctxDone r = true) -> any_ok (set_leg r i l).
Proof.
  intros [Ht Hd Hc Hr Hn He] H1 H2 H3 H4. split; try done.
  - intros j. destruct (decide (j = i)) as [->|]; [rewrite set_leg_at|by rewrite set_leg_other].
    cbn. rewrite <- Ht. naive_solver.
  - cbn. intros Hret Hctx. destruct (Hn Hret Hctx) as [Hn1 Hn2]. split.
    + intros j. destruct (decide (j = i)) as [->|]; [|by rewrite bool_decide_false]. rewrite bool_decide_true by done.
      intros ->. rewrite H4 in Hctx by auto. done.
    + change (failed_legs (set_leg r i l) = length (ar_failures r)). rewrite failed_legs_set by done.
      rewrite bool_decide_false; [lia|]. intros ->. rewrite H4 in Hctx by auto. done.
  - cbn. intros e Hret. destruct (He e Hret) as [?|Hall]; [by left|]. by destruct (H1 (Hall i)).
Qed.

Lemma any_step_ok r r' : any_ok r -> any_step r r' -> any_ok r'.
Proof.
  intros Hok Hs. destruct Hs as [i Hl|i err Hl|i Hret Hl|i err Hret Hl|ctxErr Hret Hctx| |i Hrd Hl|i err Hrd Hl].
  - apply set_leg_ok; try done; rewrite ?Hl; try done; naive_solver.
  - apply set_leg_ok; try done; rewrite ?Hl; try done; naive_solver.
  - destruct Hok as [Ht Hd Hc Hr Hn He]. split; cbn; try done. intros j. split.
    + intros E. destruct (decide (j = i)) as [->|]; [done|]. rewrite bool_decide_false in E by done.
      apply Ht in E. congruence.
    + intros [= <-]. by rewrite bool_decide_true.
  - destruct Hok as [Ht Hd Hc Hr Hn He]. specialize (Hr Hret).
    assert (forall j, ar_legs (set_leg r i LegFailed) j = LegTaken <-> False) as Hnt.
    { intros j. destruct (decide (j = i)) as [->|]; [by rewrite set_leg_at|]. rewrite set_leg_other, Ht, Hret by done. naive_solver. }
    unfold take_error. cbn [set_leg ar_failures ar_ctxDone ar_raceDone ar_returned].
    destruct (ar_failures r) as [|a [|b rest]] eqn:Ef; cbn [app]; [..|by simpl in Hr; lia].
    + split; cbn [ar_legs ar_returned ar_raceDone ar_ctxDone ar_failures]; rewrite ?Hret; try done.
      * intros j. rewrite Hnt. naive_solver.
      * auto.
      * intros _ Hctx. destruct (Hn Hret Hctx) as [Hn1 Hn2]. split.
        -- intros j. destruct (decide (j = i)) as [->|]; [by rewrite set_leg_at|by rewrite set_leg_other].
        -- change (failed_legs (set_leg r i LegFailed) = 1%nat). rewrite failed_legs_set by (by rewrite Hl). rewrite Hn2. done.
    + split; cbn [ar_legs ar_returned ar_raceDone ar_ctxDone ar_failures]; try done.
      * intros j. rewrite Hnt. naive_solver.
      * intros e _. destruct (ar_ctxDone r) eqn:Ec; [by left|right]. destruct (Hn Hret eq_refl) as [_ Hn2].
        intros j. destruct (decide (j = i)) as [->|Hj]; [by rewrite set_leg_at|]. rewrite set_leg_other by done.
        unfold failed_legs in Hn2. simpl in Hn2.
        destruct i, j; try done; rewrite Hl in Hn2; rewrite (bool_decide_false (LegError err = LegFailed)) in Hn2 by done;
          by case_bool_decide.
  - destruct Hok as [Ht Hd Hc Hr Hn He]. split; cbn; try done.
    + intros j. rewrite Ht, Hret. naive_solver.
    + auto.
  - destruct Hok as [Ht Hd Hc Hr Hn He]. split; cbn; try done. auto.
  - pose proof (ao_ctx _ Hok). apply set_leg_ok; try done; rewrite ?Hl; try done. intros _ ?. rewrite <- Hrd. symmetry. auto.
  - pose proof (ao_ctx _ Hok). apply set_leg_ok; try done; rewrite ?Hl; try done. intros _ ?. rewrite <- Hrd. symmetry. auto.
Qed.

(** The race of libp2p and native WebRTC, in any interleaving.  The stream that is returned is the
    only one taken from a goroutine; once the call has returned, a goroutine that still has a stream can
    reset it, so that none is left over; an error means that both failed or the context has ended; and
    before it returns the call always has something to wait for. *)
Theorem open_any_stream_no_leak r :
  reachable (eq openAnyStream) any_step r ->
  (forall i, ar_legs r i = LegTaken <-> ar_returned r = Some (Ok i)) /\
  (forall i, is_Some (ar_returned r) -> ar_legs r i = LegStream -> any_step r (set_leg r i LegReset)) /\
  (forall e, ar_returned r = Some (Err e) -> ar_ctxDone r = true \/ forall i, ar_legs r i = LegFailed) /\
  (ar_returned r = None -> ar_ctxDone r = true \/
     exists i, ar_legs r i = LegDialing \/ ar_legs r i = LegStream \/ exists err, ar_legs r i = LegError err).
Proof.
  intros Hr. assert (any_ok r) as Hok.
  { revert Hr. apply invariant; [|intros; by eapply any_step_ok]. intros ? <-. split; cbn; try done; (naive_solver || lia). }
  split_and!.
  - apply Hok.
  - intros i Hret Hl. apply any_reset; [by apply Hok|done].
  - apply Hok.
  - intros Hret. destruct (ar_ctxDone r) eqn:Ec; [by left|right]. destruct (ao_count _ Hok Hret Ec) as [Hn1 Hn2].
    pose proof (ao_running _ Hok Hret) as Hle. rewrite <- Hn2 in Hle. unfold failed_legs in Hle.
    assert (exists i, ar_legs r i <> LegFailed) as [i Hi].
    { case_bool_decide; [|by exists false]. case_bool_decide; [lia|by exists true]. }
    exists i. specialize (Hn1 i). destruct (ar_legs r i) eqn:El; eauto; try done.
    apply (ao_taken _ Hok) in El. congruence.
Qed.

(** ** The target is the one that was asked for *)

Section client_properties.
Context `{LP : !Libp2p, CB : !Cbor, CR : !Crypto, CI : !Cids}.
Variable EncapsulateCircuit : Multiaddr -> string -> Multiaddr.
Variable ToCid : string -> Cid.

Lemma usable_provider_Some targetID infos id addrs :
  usable_provider targetID infos = Some (id, addrs) -> id = targetID /\ (id, addrs) ∈ infos /\ addrs <> [].
Proof.
  induction infos as [|[id' as'] infos IH]; [done|]. cbn [usable_provider].
  destruct (negb _ || _) eqn:E; [intros (? & ? & ?)%IH; split_and!; [done|by constructor|done]|].
  apply orb_false_iff in E as [E1%negb_false_iff%bool_decide_eq_true E2%bool_decide_eq_false].
  intros [= <- <-]. split_and!; [done|constructor|done].
Qed.

Lemma search_providers_spec env targetID cids effects found :
  search_providers env targetID cids = (effects, found) ->
  Forall (fun e => match e with
    | AddAddrs i addrs => i = targetID /\ addrs <> []
    | FindProviders c => c ∈ cids
    | FindPeer _ => False
    end) effects.
Proof.
  revert effects found. induction cids as [|c cids IH]; intros effects found; cbn [search_providers]; [intros [= <- _]; constructor|].
  destruct (usable_provider _ _) as [[id addrs]|] eqn:E.
  - apply usable_provider_Some in E as (-> & _ & E). intros [= <- _]. repeat constructor; done.
  - destruct (search_providers env targetID cids) as [eff fnd]. intros [= <- _]. constructor; [constructor|].
    eapply Forall_impl; [by eapply IH|]. intros [] H'; try done. by constructor.
Qed.

(** What a resolution may touch: addresses of the target alone; with a token only the token's
    rendezvous keys in the DHT; with a relay nothing in the DHT. *)
Definition allowed (env : lookup_env) (id : string) (relays : list string) (token : option Token) (e : node_effect) : Prop :=
  match e with
  | AddAddrs i _ => i = id
  | FindProviders c => relays = [] /\
      match token with None => c = ToCid id | Some t => exists cids, ProviderCIDs t (le_now env) = Ok cids /\ c ∈ cids end
  | FindPeer i => relays = [] /\ i = id /\ token = None
  end.

Lemma resolve_allowed env target relays token id effects res :
  (token = None -> forall i p addrs, le_findPeer env i = Ok (p, addrs) -> p = i) ->
  peerIDFromTarget target = Ok id ->
  resolve EncapsulateCircuit ToCid env target relays token = (effects, res) ->
  (forall id', res = Ok id' -> id' = id) /\ Forall (allowed env id relays token) effects.
Proof.
  intros Hfind Hid. unfold peerIDFromTarget in Hid. unfold resolve. destruct (HasPrefix target "/"); cbn [negb] in Hid.
  - apply bind_Ok in Hid as (address & Ha & Hid). rewrite Ha. apply bind_Ok in Hid as ([i addrs] & Hi & [= <-]).
    apply map_err_Ok in Hi. rewrite Hi. intros [= <- <-]. split; [by intros id' [= <-]|]. by repeat constructor.
  - rewrite Hid. destruct relays as [|relay relays].
    + destruct (negb (bool_decide _)); [intros [= <- <-]; split; [by intros ? [= <-]|constructor]|].
      destruct (negb (le_dht env)); [intros [= <- <-]; split; [done|constructor]|].
      set (keys := match token with None => Ok [ToCid id] | Some t => ProviderCIDs t (le_now env) end).
      destruct keys as [cids|err] eqn:Ek; [|intros [= <- <-]; split; [done|constructor]].
      destruct (search_providers env id cids) as [eff found] eqn:Es. apply search_providers_spec in Es.
      assert (Forall (allowed env id [] token) eff) as Heff.
      { eapply Forall_impl; [exact Es|]. intros [i addrs|c|i] He; [naive_solver| |done]. split; [done|].
        unfold keys in Ek. destruct token as [t|]; [by eauto|]. injection Ek as <-. by apply list_elem_of_singleton in He. }
      destruct found; [intros [= <- <-]; split; [by intros ? [= <-]|done]|].
      destruct token as [t|]; [intros [= <- <-]; split; done|].
      assert (forall tl, Forall (allowed env id [] None) tl -> Forall (allowed env id [] None) (eff ++ tl)) as Happ
        by (intros tl Htl; apply Forall_app; by split).
      destruct (le_findPeer env id) as [[p addrs]|] eqn:Ef.
      * apply (Hfind eq_refl) in Ef as ->. case_bool_decide; intros [= <- <-].
        -- split; [done|]. apply Happ. repeat constructor.
        -- split; [by intros ? [= <-]|]. apply Happ. repeat constructor.
      * intros [= <- <-]. split; [done|]. apply Happ. repeat constructor.
    + destruct (NewMultiaddr _) as [ra|]; [|intros [= <- <-]; split; [done|constructor]].
      destruct (AddrInfoFromP2pAddr _) as [[i addrs]|]; intros [= <- <-]; [|split; [done|constructor]].
      split; [by intros ? [= <-]|]. by repeat constructor.
Qed.

Lemma client_setup_Ok env opts args plan :
  client_setup env opts args = Ok plan ->
  loadToken env opts = Ok (cp_token plan) /\ peerIDFromTarget (cp_target plan) = Ok (cp_targetID plan) /\
  match cp_token plan with
  | Some t => tk_PeerID t = cp_targetID plan /\ tk_Service t = cp_service plan /\ Validate (Some t) (ce_now env) = Ok tt
  | None => cp_relays plan = o_relays opts
  end.
Proof.
  unfold client_setup. intros HC. apply bind_Ok in HC as (token & Hl & HC). apply seq_Ok in HC as [_ HC].
  apply bind_Ok in HC as (service & _ & HC). apply bind_Ok in HC as (targetID & Hp & HC).
  destruct token as [t|]; [|by injection HC as <-]. apply seq_Ok in HC as [Hv [= <-]].
  apply is_ok_unit in Hv. unfold validateTokenFor in Hv. apply seq_Ok in Hv as [H1 Hv]. apply seq_Ok in Hv as [H2 Hv].
  apply is_ok_refuse, negb_false_iff in H1, H2. apply bool_decide_eq_true in H1. apply Z.eqb_eq in H2. done.
Qed.

Context `{RD : !Reader ST, WR : !Writer ST, SL : !StreamLaws ST}.

(** The server answered this hello with a confirmation that only the token's secret allows. *)
Definition confirmed (t : Token) (hello : Hello) (stream stream' : ST) : Prop :=
  exists serverNonce mac, calculateMAC t (macInput "server" t (h_Timestamp hello) (h_ClientNonce hello) serverNonce) = Ok mac /\
    r_rest stream = Admission.encode ServerAck (h_Timestamp hello) serverNonce mac ++ r_rest stream'.

Lemma AuthenticateClient_confirmed t (stream stream' : ST) now random u :
  AuthenticateClient stream t now random = (Ok u, stream') ->
  exists encoded hello, CreateHello t now None random = Ok (encoded, hello) /\ confirmed t hello stream stream'.
Proof using SL.
  unfold AuthenticateClient. destruct (CreateHello t now None random) as [[encoded hello]|]; [|done].
  destruct (writeFull stream encoded) as [[err|] s1] eqn:Ew; [done|].
  destruct (ReadFull s1 FrameSize) as [[ack|err] s2] eqn:Er; [|done]. intros [= Hv <-].
  exists encoded, hello. split; [done|]. apply ReadFull_inv in Er as (_ & Er & _).
  apply adm_writeFull_loop_rest in Ew. rewrite Ew in Er.
  unfold VerifyAck in Hv. apply bind_Ok in Hv as (value & Hd & Hv). apply seq_Ok in Hv as [Ht Hv].
  apply is_ok_refuse, negb_false_iff, Z.eqb_eq in Ht. apply bind_Ok in Hv as (mac & Hm & Hv).
  apply refuse_Ok, negb_false_iff, bool_decide_eq_true in Hv. apply decode_inv in Hd as (-> & _).
  exists (af_nonce value), mac. split; [done|]. rewrite Er, Ht, Hv. done.
Qed.

(** C4: A client with a pairing token talks to the token's peer alone.  Whatever the target on the command
    line, the address book and the DHT say: if the setup succeeds and the target resolves, it resolves
    to the token's peer and the logical port is the token's; the address book is changed for that
    peer alone and only the token's rendezvous keys are looked up, never the peer itself; and the stream
    is used only after the server has confirmed the hello with the token's secret. *)
Theorem client_admission env lookup opts args plan t effects id (stream stream' : ST) now random :
  client_setup env opts args = Ok plan -> cp_token plan = Some t ->
  resolve EncapsulateCircuit ToCid lookup (cp_target plan) (cp_relays plan) (cp_token plan) = (effects, Ok id) ->
  admit_stream (cp_token plan) stream now random = Ok stream' ->
  id = tk_PeerID t /\ cp_service plan = tk_Service t /\
  Forall (fun e => match e with
    | AddAddrs i _ => i = tk_PeerID t
    | FindProviders c => exists cids, ProviderCIDs t (le_now lookup) = Ok cids /\ c ∈ cids
    | FindPeer _ => False
    end) effects /\
  exists encoded hello, CreateHello t now None random = Ok (encoded, hello) /\ confirmed t hello stream stream'.
Proof using SL.
  intros (_ & Hp & Hv)%client_setup_Ok Ht Hr Ha. rewrite Ht in *. destruct Hv as (Hid & Hs & _).
  destruct (resolve_allowed _ _ _ (Some t) _ _ _ ltac:(done) Hp Hr) as [Hok Heff]. split_and!; [|done| |].
  - rewrite Hid. by apply Hok.
  - eapply Forall_impl; [exact Heff|]. intros [i addrs|c|i] He; cbn in He; naive_solver.
  - unfold admit_stream in Ha. destruct (AuthenticateClient stream t now random) as [[u|err] s] eqn:E; [|done].
    injection Ha as <-. by eapply AuthenticateClient_confirmed.
Qed.
End client_properties.

(** ** Witnesses *)

Module ClientWitness.
Import Ref.
Import PairingWitness.
Import AdmissionWitness.
Import CliWitness.

Definition circuit (relay : Multiaddr) (id : string) : Multiaddr := relay +:+ "/p2p-circuit/p2p/" +:+ id.
Definition to_cid (id : string) : @Cid cids := bytes_of id.
Definition plan : client_plan :=
  mkPlanClient (peer_String (tk_PeerID decoded)) (tk_PeerID decoded) (tk_Service decoded) (Some decoded) (relayStrings decoded).
Definition lookup_nothing : lookup_env :=
  mkLookup (fun _ => []) true (fun _ => []) (fun _ => Err ErrNotExist) (clock 1700000100).
Definition route : list (@node_effect libp2p cids) :=
  [@AddAddrs libp2p cids "12D3peer" ["/ip4/10.0.0.1/tcp/9/p2p/R1/p2p-circuit/p2p/12D3peer"]].
Definition client_stream : duplex := mkDuplex (mkSource [take 5 ack_bytes; drop 5 ack_bytes ++ [x61]] EOF) [].
Definition admitted_stream : duplex := mkDuplex (mkSource [[x61]] EOF) hello_bytes.

Lemma client_admission_witness : "12D3peer" = tk_PeerID decoded /\ cp_service plan = 4242.
Proof.
  destruct (client_admission circuit to_cid env lookup_nothing opts [] plan decoded
    route "12D3peer" client_stream admitted_stream
    (clock 1700000000) (Ok (put_be 16 1))) as (H1 & H2 & _);
    [vm_compute; reflexivity|reflexivity|reflexivity|vm_compute; reflexivity|].
  exact (conj H1 H2).
Defined.

(** Both legs have a stream; libp2p's is taken. *)
Definition both : any_race := set_leg (set_leg openAnyStream false LegStream) true LegStream.

Lemma open_any_stream_no_leak_witness : any_step (take_stream both false) (set_leg (take_stream both false) true LegReset).
Proof.
  assert (reachable (eq openAnyStream) any_step (take_stream both false)) as Hr.
  { apply (reach_step _ _ both); [|by apply any_take].
    apply (reach_step _ _ (set_leg openAnyStream false LegStream)); [|by apply any_dialed].
    apply (reach_step _ _ openAnyStream); [by apply reach_init|by apply any_dialed]. }
  destruct (open_any_stream_no_leak _ Hr) as (_ & Hreset & _). apply Hreset; [by eexists|reflexivity].
Defined.
End ClientWitness.
