(* ===== verification/Files.v ===== *)
(** Secrets on disk: a file system as a map from absolute paths to what they name, and the password
    and token files of internal/cli/token_files.go. *)
From S2P Require Export DaemonStreams TokenFile.
From S2P Require Import ExtModel.
Local Open Scope Z_scope.

(** ** Files *)

(** What a path names: a regular file, something else that opens (a device, a pipe), or a symbolic
    link whose target does not exist. *)
Inductive kind := Regular | Special | Dangling.

#[export] Instance kind_eq_dec : EqDecision kind.
Proof. solve_decision. Defined.

Record node := mkNode { nd_data : list byte; nd_perm : Z; nd_kind : kind }.
Notation fs := (gmap string node).

(** [os.Open], [Stat] and [io.ReadAll] of a path; a dangling link does not open. *)
Definition inspect (f : fs) (path : string) : file_answer :=
  match f !! path with
  | Some (mkNode _ _ Dangling) | None => mkFile (Some ErrNotExist) None false 0 (Ok [])
  | Some n => mkFile None None (bool_decide (nd_kind n = Regular)) (nd_perm n) (Ok (nd_data n))
  end.

(** [0o600]. *)
Definition ownerOnly : Z := 384.

(** [secretfile.Protect]. *)
Definition Protect (f : fs) (path : string) : fs := alter (fun n => mkNode (nd_data n) ownerOnly (nd_kind n)) path f.

(** What the file system calls of one write do: errors, and the mode bits the process masks. *)
Record write_env := mkWriteEnv {
  we_abs : string -> result string;
  we_mkdir : option error;
  we_create : option error;
  we_write : option error;
  we_written : nat;                (** how much a failing write has written *)
  we_protect : option error;
  we_close : option error;
  we_umask : Z
}.

(** [os.OpenFile] with [O_CREATE|O_EXCL] and mode [0o600]. *)
Definition create_exclusive (env : write_env) (f : fs) (path : string) : result fs :=
  match f !! path with
  | Some _ => Err ErrExist
  | None =>
      match we_create env with
      | Some err => Err err
      | None => Ok (<[path := mkNode [] (Z.land ownerOnly (Z.lnot (we_umask env))) Regular]> f)
      end
  end.

Definition write_data (f : fs) (path : string) (data : list byte) : fs :=
  alter (fun n => mkNode (nd_data n ++ data) (nd_perm n) (nd_kind n)) path f.

(** [writeExclusiveTokenFile]; the deferred removal of an incomplete file is in every error branch
    after the creation. *)
Definition writeExclusiveTokenFile (env : write_env) (f : fs) (path value : string) : option error * fs :=
  if bool_decide (path = "") then (Some (ErrNew "token output path is required"), f)
  else match we_abs env path with
  | Err err => (Some (Wrapf "resolve token output path: %w" [] err), f)
  | Ok absolute =>
      match we_mkdir env with
      | Some err => (Some (Wrapf "create token output directory: %w" [] err), f)
      | None =>
          match create_exclusive env f absolute with
          | Err err => (Some (Wrapf "create token output file: %w" [] err), f)
          | Ok f =>
              match we_write env with
              | Some err =>
                  (Some (Wrapf "write token output file: %w" [] err),
                   delete absolute (write_data f absolute (take (we_written env) (bytes_of value ++ [x0a]))))
              | None =>
                  let f := write_data f absolute (bytes_of value ++ [x0a]) in
                  match we_protect env with
                  | Some err => (Some (Wrapf "protect token output file: %w" [] err), delete absolute f)
                  | None =>
                      let f := Protect f absolute in
                      match we_close env with
                      | Some err => (Some (Wrapf "close token output file: %w" [] err), delete absolute f)
                      | None => (None, f)
                      end
                  end
              end
          end
      end
  end.

(** The guards that the readers of secret files share. *)
Definition check_secret (what : string) (file : file_answer) : result (list byte) :=
  step ("open " +:+ what +:+ ": %w") (fa_open file);;
  step ("inspect " +:+ what +:+ ": %w") (fa_stat file);;
  refuse (negb (fa_regular file)) (ErrNew (what +:+ " must be a regular file"));;
  map_err (Wrapf (what +:+ " is not private: %w") []) (CheckPermissions (fa_perm file));;
  map_err (Wrapf ("read " +:+ what +:+ ": %w") []) (fa_data file).

(** [bytes.TrimSuffix] of one byte. *)
Definition trim_suffix_byte (b : byte) (data : list byte) : list byte :=
  match reverse data with
  | c :: rest => if bool_decide (c = b) then reverse rest else data
  | [] => []
  end.

Definition readPasswordFile (file : file_answer) : result (list byte) :=
  data ← check_secret "password file" file;
  let data := take (Z.to_nat (MaximumPasswordSize + 3)) data in
  let data := trim_suffix_byte x0a data in
  let data := trim_suffix_byte x0d data in
  refuse (MaximumPasswordSize <? blen data)
    (Errorf "token password must contain at most %d bytes" [AInt MaximumPasswordSize]);;
  Ok data.

Definition validateTokenPasswordSize (password : list byte) : result unit :=
  refuse (blen password <? MinimumPasswordSize)
    (Errorf "token password must contain at least %d bytes" [AInt MinimumPasswordSize]);;
  refuse (MaximumPasswordSize <? blen password)
    (Errorf "token password must contain at most %d bytes" [AInt MaximumPasswordSize]).

(** What the terminal answers: the outcome of each prompt. *)
Record terminal := mkTerminal {
  tm_isTerminal : bool;
  tm_password : result (list byte);
  tm_repeated : result (list byte)
}.

Definition readTokenPassword (file : string -> file_answer) (t : terminal) (path : string) (confirm : bool)
    : result (list byte) :=
  if negb (bool_decide (path = "")) then
    password ← readPasswordFile (file path);
    validateTokenPasswordSize password;;
    Ok password
  else
    refuse (negb (tm_isTerminal t))
      (ErrNew "password input requires a terminal; use --password-file for non-interactive operation");;
    password ← tm_password t;
    validateTokenPasswordSize password;;
    if negb confirm then Ok password
    else
      repeated ← tm_repeated t;
      refuse (negb (bool_decide (password = repeated))) (ErrNew "token passwords do not match");;
      Ok password.

Definition readEncryptedTokenFile (file : file_answer) : result string :=
  data ← check_secret "encrypted token file" file;
  let data := take (Z.to_nat (MaxEnvelopeSize * 2 + 1)) data in
  refuse (MaxEnvelopeSize * 2 <? blen data) (ErrNew "encrypted token file is too large");;
  Ok (string_of data).

(** *** Exclusive writing *)

Lemma create_exclusive_Ok env f path f' :
  create_exclusive env f path = Ok f' ->
  f !! path = None /\ f' = <[path := mkNode [] (Z.land ownerOnly (Z.lnot (we_umask env))) Regular]> f.
Proof. unfold create_exclusive. destruct (f !! path); [done|]. destruct (we_create env); [done|]. by intros [= <-]. Qed.

Lemma delete_write_data f path n data :
  f !! path = None -> delete path (write_data (<[path := n]> f) path data) = f.
Proof. intros Hn. unfold write_data. rewrite alter_insert_eq. by rewrite delete_insert_id. Qed.

(** A token file is written completely, private and under a new name, or the file system is as it
    was. *)
Lemma write_exclusive_all_or_nothing env f path value err f' :
  writeExclusiveTokenFile env f path value = (err, f') ->
  match err with
  | None => exists absolute, we_abs env path = Ok absolute /\ f !! absolute = None /\
      f' = <[absolute := mkNode (bytes_of value ++ [x0a]) ownerOnly Regular]> f
  | Some _ => f' = f
  end.
Proof.
  unfold writeExclusiveTokenFile. case_bool_decide; [by intros [= <- <-]|].
  destruct (we_abs env path) as [absolute|e]; [|by intros [= <- <-]].
  destruct (we_mkdir env); [by intros [= <- <-]|].
  destruct (create_exclusive env f absolute) as [f1|e] eqn:Ec; [|by intros [= <- <-]].
  apply create_exclusive_Ok in Ec as [Hn ->].
  destruct (we_write env); [intros [= <- <-]; by apply delete_write_data|].
  destruct (we_protect env); [intros [= <- <-]; by apply delete_write_data|].
  unfold Protect, write_data. rewrite !alter_insert_eq.
  destruct (we_close env); intros [= <- <-]; [by rewrite delete_insert_id|].
  by exists absolute.
Qed.
