(* ===== verification/Identity.v ===== *)
(** The persistent identity (internal/identity/identity.go): [LoadOrCreate] as a program of calls on
    the file system that several processes run at the same time, and the command [id] of
    internal/cli/root.go. *)
From S2P Require Export Files.
From S2P Require Import ExtModel.
Local Open Scope Z_scope.

(** ** The persistent identity *)

Definition maxIdentityFileSize : Z := 64 * 1024.

(** libp2p's encoding of private keys, [crypto.MarshalPrivateKey] and [crypto.UnmarshalPrivateKey]. *)
Class KeyFiles `{!Keys} := {
  MarshalPrivateKey : PrivKey -> result (list byte);
  UnmarshalPrivateKey : list byte -> result PrivKey
}.

(** The two are inverse, the encoding of a key is short, and the message has required fields, so that
    the empty input is not one. *)
Class KeyFilesLaws `{!Keys, !KeyFiles} : Prop := {
  UnmarshalPrivateKey_Marshal k b : MarshalPrivateKey k = Ok b -> UnmarshalPrivateKey b = Ok k;
  MarshalPrivateKey_size k b : MarshalPrivateKey k = Ok b -> blen b <= maxIdentityFileSize;
  UnmarshalPrivateKey_nil : is_ok (UnmarshalPrivateKey []) = false
}.

Section identity.
Context `{KS : !Keys, KF : !KeyFiles}.

(** What a run of [LoadOrCreate] meets: errors of the calls on an existing file, of the calls that
    make a new one, and the key of each [crypto.GenerateEd25519Key]. *)
Record id_env := mkIdEnv {
  ie_open : option error;
  ie_stat : option error;
  ie_read : option error;
  ie_closeRead : option error;
  ie_write : write_env;
  ie_generate : nat -> result PrivKey
}.

Definition fault {A} (err : option error) (r : result A) : result A :=
  match err with Some e => Err e | None => r end.

(** The file as this run sees it. *)
Definition observe (env : id_env) (f : fs) (absolute : string) : file_answer :=
  let file := inspect f absolute in
  mkFile (match fa_open file with Some e => Some e | None => ie_open env end)
    (ie_stat env) (fa_regular file) (fa_perm file) (fault (ie_read env) (fa_data file)).

(** The branch of an opened file. *)
Definition read_identity (absolute : string) (closeErr : option error) (file : file_answer) : result PrivKey :=
  match fa_stat file with
  | Some err => Err (Wrapf "inspect private key %s: %w" [AStr absolute] err)
  | None => Ok tt
  end;;
  refuse (negb (fa_regular file)) (Errorf "private key %s must be a regular file" [AStr absolute]);;
  map_err (Wrapf "private key %s is not private: %w" [AStr absolute]) (CheckPermissions (fa_perm file));;
  data ← map_err (Wrapf "read private key %s: %w" [AStr absolute]) (fa_data file);
  let data := take (Z.to_nat (maxIdentityFileSize + 1)) data in
  match closeErr with
  | Some err => Err (Wrapf "close private key %s: %w" [AStr absolute] err)
  | None => Ok tt
  end;;
  refuse (maxIdentityFileSize <? blen data)
    (Errorf "private key %s exceeds %d bytes" [AStr absolute; AInt maxIdentityFileSize]);;
  map_err (Wrapf "read private key %s: %w" [AStr absolute]) (UnmarshalPrivateKey data).

(** Where a run of [LoadOrCreate] stands between two calls that touch the file system. *)
Inductive id_phase :=
  | IOpen (attempt : nat)                            (** before [os.Open] *)
  | ICreate (attempt : nat)                          (** the file did not exist; before [os.OpenFile] *)
  | IWrite (key : PrivKey) (encoded : list byte)     (** before [file.Write] *)
  | IProtect (key : PrivKey)                         (** before [secretfile.Protect] *)
  | IClose (key : PrivKey)                           (** before [file.Close] *)
  | IRemove (err : error)                            (** before [os.Remove] *)
  | IDone (r : result PrivKey).

(** One step.  Opening, inspecting and reading an existing file are one step: the file is written by
    one call, its name is removed at most once, and its mode is private at every moment, so that the
    calls give what they give together when the data is read, or just before the name goes. *)
Definition id_step (env : id_env) (absolute : string) (f : fs) (ph : id_phase) : fs * id_phase :=
  match ph with
  | IOpen attempt =>
      let file := observe env f absolute in
      match fa_open file with
      | None => (f, IDone (read_identity absolute (ie_closeRead env) file))
      | Some err =>
          if negb (errors_Is err ErrNotExist)
          then (f, IDone (Err (Wrapf "read private key %s: %w" [AStr absolute] err)))
          else (f, ICreate attempt)
      end
  | ICreate attempt =>
      match step "create identity directory: %w" (we_mkdir (ie_write env)) with
      | Err err => (f, IDone (Err err))
      | Ok _ =>
          match ie_generate env attempt with
          | Err err => (f, IDone (Err (Wrapf "create Ed25519 identity: %w" [] err)))
          | Ok key =>
              match MarshalPrivateKey key with
              | Err err => (f, IDone (Err err))
              | Ok encoded =>
                  match create_exclusive (ie_write env) f absolute with
                  | Err err =>
                      if errors_Is err ErrExist then (f, IOpen (S attempt))
                      else (f, IDone (Err (Wrapf "create identity %s: %w" [AStr absolute] err)))
                  | Ok f => (f, IWrite key encoded)
                  end
              end
          end
      end
  | IWrite key encoded =>
      match we_write (ie_write env) with
      | Some err => (write_data f absolute (take (we_written (ie_write env)) encoded),
                     IRemove (Wrapf "write identity %s: %w" [AStr absolute] err))
      | None => (write_data f absolute encoded, IProtect key)
      end
  | IProtect key =>
      match we_protect (ie_write env) with
      | Some err => (f, IRemove (Wrapf "protect identity %s: %w" [AStr absolute] err))
      | None => (Protect f absolute, IClose key)
      end
  | IClose key =>
      match we_close (ie_write env) with
      | Some err => (f, IRemove err)
      | None => (f, IDone (Ok key))
      end
  | IRemove err => (delete absolute f, IDone (Err err))
  | IDone r => (f, IDone r)
  end.

Fixpoint id_run (fuel : nat) (env : id_env) (absolute : string) (f : fs) (ph : id_phase)
    : fs * option (result PrivKey) :=
  match ph with
  | IDone r => (f, Some r)
  | _ =>
      match fuel with
      | O => (f, None)
      | S fuel => let '(f, ph) := id_step env absolute f ph in id_run fuel env absolute f ph
      end
  end.

(** [LoadOrCreate]; [None] when the fuel runs out.  The call for a file that another process has just
    made repeats [filepath.Abs], which keeps an absolute path. *)
Definition LoadOrCreate (fuel : nat) (env : id_env) (f : fs) (path : string) : fs * option (result PrivKey) :=
  if bool_decide (path = "") then (f, Some (ie_generate env 0))
  else match we_abs (ie_write env) path with
  | Err err => (f, Some (Err err))
  | Ok absolute => id_run fuel env absolute f (IOpen 0)
  end.

(** Processes that share the file system: [id_sched] lets process [i] take a step.  A process that
    is not scheduled any more has crashed. *)
Definition id_sched (envs : nat -> id_env) (absolute : string) (st : fs * list id_phase) (i : nat)
    : fs * list id_phase :=
  let '(f, procs) := st in
  match procs !! i with
  | None => (f, procs)
  | Some ph => let '(f, ph) := id_step (envs i) absolute f ph in (f, <[i := ph]> procs)
  end.

Definition id_interleave (envs : nat -> id_env) (absolute : string) : list nat -> fs * list id_phase -> fs * list id_phase :=
  fun schedule st => foldl (id_sched envs absolute) st schedule.
End identity.
Arguments id_env {_}.
Arguments id_phase {_}.

Section agreement.
Context `{KS : !Keys, KF : !KeyFiles, KFL : !KeyFilesLaws}.

(** The identity that a node holds, for a reader that meets no errors. *)
Definition reads (absolute : string) (n : node) : result PrivKey :=
  read_identity absolute None (inspect {[absolute := n]} absolute).

(** No write, protection or close of a file just made fails. *)
Definition writes_succeed (env : id_env) : Prop :=
  we_write (ie_write env) = None /\ we_protect (ie_write env) = None /\ we_close (ie_write env) = None.

Lemma inspect_singleton (f : fs) absolute n :
  f !! absolute = Some n -> inspect f absolute = inspect {[absolute := n]} absolute.
Proof. intros H. unfold inspect. by rewrite H, lookup_singleton_eq. Qed.

Lemma read_identity_Ok absolute closeErr file key :
  read_identity absolute closeErr file = Ok key <->
  fa_stat file = None /\ fa_regular file = true /\ is_ok (CheckPermissions (fa_perm file)) = true /\
  closeErr = None /\ exists data, fa_data file = Ok data /\ blen data <= maxIdentityFileSize /\
    UnmarshalPrivateKey data = Ok key.
Proof.
  unfold read_identity. split.
  - intros H. destruct (fa_stat file); [done|]. cbn [mbind result_bind] in H.
    rewrite !seq_Ok, is_ok_refuse, negb_false_iff, is_ok_map_err in H. destruct H as (Hr & Hp & H).
    apply bind_Ok in H as (data & Hd%map_err_Ok & H). destruct closeErr; [done|].
    cbn [mbind result_bind] in H. rewrite seq_Ok, is_ok_refuse, Z.ltb_ge in H. destruct H as [Hl Hu%map_err_Ok].
    unfold blen in *. rewrite length_take in Hl.
    assert (length data <= Z.to_nat maxIdentityFileSize)%nat by (unfold maxIdentityFileSize in *; lia).
    rewrite take_ge in Hu by (unfold maxIdentityFileSize in *; lia).
    split_and!; try done. exists data. split_and!; [done| |done]. unfold maxIdentityFileSize in *; lia.
  - intros (-> & -> & Hp & -> & data & -> & Hl & Hu). cbn [mbind result_bind negb refuse map_err].
    destruct (CheckPermissions (fa_perm file)); [|done]. cbn [mbind result_bind negb refuse map_err].
    unfold blen in *. rewrite take_ge by (unfold maxIdentityFileSize in *; lia).
    rewrite (proj2 (Z.ltb_ge _ _)) by done. cbn [mbind result_bind refuse]. by rewrite Hu.
Qed.

Lemma reads_node absolute data perm k key :
  reads absolute (mkNode data perm k) = Ok key <->
  k = Regular /\ is_ok (CheckPermissions perm) = true /\ blen data <= maxIdentityFileSize /\
  UnmarshalPrivateKey data = Ok key.
Proof.
  unfold reads. rewrite read_identity_Ok. unfold inspect. rewrite lookup_singleton_eq.
  destruct k; simpl; naive_solver.
Qed.

Lemma create_perm env : is_ok (CheckPermissions (Z.land ownerOnly (Z.lnot env))) = true.
Proof.
  unfold CheckPermissions. rewrite (Z.land_comm ownerOnly), <- Z.land_assoc.
  change (Z.land ownerOnly 0x3f) with 0. by rewrite Z.land_0_r.
Qed.

(** A run that returns an identity it found, found the one of the node. *)
Lemma observe_reads env absolute (f : fs) closeErr key :
  fa_open (observe env f absolute) = None ->
  read_identity absolute closeErr (observe env f absolute) = Ok key ->
  exists n, f !! absolute = Some n /\ reads absolute n = Ok key.
Proof.
  intros Ho (Hs & Hr & Hp & _ & data & Hd & Hl & Hu)%read_identity_Ok.
  destruct (f !! absolute) as [n|] eqn:E.
  - exists n. split; [done|]. unfold reads. apply read_identity_Ok. rewrite <- (inspect_singleton f) by done.
    unfold observe in *. simpl in *. split_and!; try done.
    + unfold inspect in *. rewrite E in *. by destruct n as [? ? []].
    + exists data. unfold fault in Hd. by destruct (ie_read env).
  - unfold observe, inspect in Ho. by rewrite E in Ho.
Qed.

(** The phases of a process that has not made the file, and of the one that has. *)
Definition reader (absolute : string) (f : fs) (ph : id_phase) : Prop :=
  match ph with
  | IOpen _ | ICreate _ | IDone (Err _) => True
  | IDone (Ok key) => exists n, f !! absolute = Some n /\ reads absolute n = Ok key
  | _ => False
  end.

Definition creator (absolute : string) (f : fs) (ph : id_phase) : Prop :=
  match ph with
  | IWrite key encoded => MarshalPrivateKey key = Ok encoded /\
      exists perm, f !! absolute = Some (mkNode [] perm Regular) /\ is_ok (CheckPermissions perm) = true
  | IProtect key | IClose key => exists n, f !! absolute = Some n /\ reads absolute n = Ok key
  | _ => False
  end.

Definition id_inv (absolute : string) (st : fs * list id_phase) : Prop :=
  exists c : option nat, forall i ph, snd st !! i = Some ph ->
    if decide (c = Some i) then creator absolute (fst st) ph else reader absolute (fst st) ph.

(** A reader that does not step keeps its phase as long as the file keeps its identity. *)
Lemma reader_mono absolute (f f' : fs) ph :
  (forall n key, f !! absolute = Some n -> reads absolute n = Ok key ->
     exists n', f' !! absolute = Some n' /\ reads absolute n' = Ok key) ->
  reader absolute f ph -> reader absolute f' ph.
Proof. intros H. destruct ph as [| | | | | |[key|]]; simpl; try done. intros (n & Hn & Hr). eauto. Qed.

Lemma reader_step env absolute (f f' : fs) ph ph' :
  reader absolute f ph -> id_step env absolute f ph = (f', ph') ->
  f' = f /\ reader absolute f ph' \/ f !! absolute = None /\ creator absolute f' ph'.
Proof.
  destruct ph as [n|n|key enc|key|key|e|r]; simpl; try done.
  - intros _. change (match fa_open (inspect f absolute) with Some e => Some e | None => ie_open env end)
      with (fa_open (observe env f absolute)).
    destruct (fa_open (observe env f absolute)) as [err|] eqn:E.
    + destruct (negb (errors_Is err ErrNotExist)); intros [= <- <-]; by left.
    + intros [= <- <-]. left. split; [done|].
      destruct (read_identity _ _ _) eqn:Er; simpl; [|done]. by eapply observe_reads.
  - intros _ HS. destruct (step _ _); [|injection HS as <- <-; by left].
    destruct (ie_generate env n) as [key|]; [|injection HS as <- <-; by left].
    destruct (MarshalPrivateKey key) as [encoded|] eqn:Em; [|injection HS as <- <-; by left].
    destruct (create_exclusive _ _ _) as [g|e] eqn:Ec.
    + injection HS as <- <-. right. apply create_exclusive_Ok in Ec as [Hn ->]. split; [done|].
      simpl. split; [done|]. eexists. rewrite lookup_insert_eq. split; [done|apply create_perm].
    + destruct (errors_Is e ErrExist); injection HS as <- <-; by left.
  - intros Hr [= <- <-]. by left.
Qed.

Lemma creator_step env absolute (f f' : fs) ph ph' :
  writes_succeed env -> creator absolute f ph -> id_step env absolute f ph = (f', ph') ->
  (creator absolute f' ph' \/ reader absolute f' ph') /\
  (forall other, reader absolute f other -> reader absolute f' other).
Proof.
  intros (Hw & Hp & Hc). destruct ph as [n|n|key enc|key|key|e|r]; simpl; try done.
  - intros (Hm & perm & Hf & Hperm). rewrite Hw. intros [= <- <-]. split.
    + left. exists (mkNode enc perm Regular). unfold write_data. rewrite lookup_alter, decide_True, Hf by done.
      split; [done|]. apply reads_node. split_and!; [done|done|by eapply MarshalPrivateKey_size|by apply UnmarshalPrivateKey_Marshal].
    + intros other. apply reader_mono. intros n key' Hn Hr. simplify_eq.
      apply reads_node in Hr as (_ & _ & _ & Hu). pose proof UnmarshalPrivateKey_nil as Hnil. by rewrite Hu in Hnil.
  - intros ([data perm k] & Hf & Hr). rewrite Hp. intros [= <- <-].
    apply reads_node in Hr as (-> & _ & Hl & Hu). split.
    + left. exists (mkNode data ownerOnly Regular). unfold Protect. rewrite lookup_alter, decide_True, Hf by done.
      split; [done|]. by apply reads_node.
    + intros other. apply reader_mono. intros n key' Hn Hr. simplify_eq. apply reads_node in Hr as (_ & _ & Hl' & Hu').
      exists (mkNode data ownerOnly Regular). unfold Protect. rewrite lookup_alter, decide_True, Hf by done.
      split; [done|]. by apply reads_node.
  - intros Hr. rewrite Hc. intros [= <- <-]. split; [by right|done].
Qed.

Lemma id_sched_inv envs absolute st i :
  (forall j, writes_succeed (envs j)) -> id_inv absolute st -> id_inv absolute (id_sched envs absolute st i).
Proof.
  intros Hw [c Hc]. destruct st as [f procs]. unfold id_sched. destruct (procs !! i) as [ph|] eqn:Ei; [|by exists c].
  destruct (id_step (envs i) absolute f ph) as [f' ph'] eqn:Es. pose proof (Hc i ph Ei) as Hi. simpl in Hc, Hi.
  destruct (decide (c = Some i)) as [->|Hne].
  - destruct (creator_step _ _ _ _ _ _ (Hw i) Hi Es) as [[H|H] Hothers].
    + exists (Some i). intros j phj. simpl. rewrite list_lookup_insert_Some.
      intros [(<- & <- & _)|[Hij Hj]]; [by rewrite decide_True|].
      specialize (Hc j phj Hj). rewrite decide_False in Hc by congruence. rewrite decide_False by congruence. auto.
    + exists None. intros j phj. simpl. rewrite list_lookup_insert_Some.
      intros [(<- & <- & _)|[Hij Hj]]; [done|].
      specialize (Hc j phj Hj). rewrite decide_False in Hc by congruence. auto.
  - destruct (reader_step _ _ _ _ _ _ Hi Es) as [[-> H]|[Hn H]].
    + exists c. intros j phj. simpl. rewrite list_lookup_insert_Some.
      intros [(<- & <- & _)|[Hij Hj]]; [by rewrite decide_False|]. by apply Hc.
    + exists (Some i). intros j phj. simpl. rewrite list_lookup_insert_Some.
      intros [(<- & <- & _)|[Hij Hj]]; [by rewrite decide_True|]. rewrite decide_False by congruence.
      specialize (Hc j phj Hj). destruct (decide (c = Some j)).
      * destruct phj; simpl in Hc; naive_solver.
      * eapply reader_mono, Hc. intros ? ? Hs. congruence.
Qed.

Lemma id_interleave_inv envs absolute schedule st :
  (forall j, writes_succeed (envs j)) -> id_inv absolute st -> id_inv absolute (id_interleave envs absolute schedule st).
Proof.
  intros Hw. unfold id_interleave. revert st. induction schedule as [|i schedule IH]; intros st H; [done|].
  simpl. apply IH. by apply id_sched_inv.
Qed.

Lemma id_inv_start absolute (f : fs) n : id_inv absolute (f, replicate n (IOpen 0)).
Proof. exists None. intros i ph. simpl. by intros [-> _]%lookup_replicate. Qed.

(** In every interleaving the processes that have finished hold the identity of the file. *)
Lemma id_interleave_done envs absolute schedule (f : fs) n f' procs i key :
  (forall j, writes_succeed (envs j)) ->
  id_interleave envs absolute schedule (f, replicate n (IOpen 0)) = (f', procs) ->
  procs !! i = Some (IDone (Ok key)) ->
  exists nd, f' !! absolute = Some nd /\ reads absolute nd = Ok key.
Proof.
  intros Hw HI Hi. pose proof (id_interleave_inv envs absolute schedule _ Hw (id_inv_start absolute f n)) as [c Hc].
  rewrite HI in Hc. specialize (Hc i _ Hi). simpl in Hc. by destruct (decide _).
Qed.

(** A run without errors on a file that holds an identity returns it and changes nothing. *)
Lemma LoadOrCreate_existing env (f : fs) path absolute nd key :
  path <> "" -> we_abs (ie_write env) path = Ok absolute ->
  ie_open env = None -> ie_stat env = None -> ie_read env = None -> ie_closeRead env = None ->
  f !! absolute = Some nd -> reads absolute nd = Ok key ->
  LoadOrCreate 1 env f path = (f, Some (Ok key)).
Proof.
  intros Hp Ha Ho Hs Hr Hc Hn Hk. unfold LoadOrCreate. rewrite bool_decide_false, Ha by done. simpl.
  assert (observe env f absolute = inspect {[absolute := nd]} absolute) as ->.
  { unfold observe. rewrite (inspect_singleton _ _ _ Hn), Ho, Hs, Hr.
    unfold inspect. rewrite lookup_singleton_eq. destruct nd as [data perm []]; [done|done|].
    by apply reads_node in Hk as [? _]. }
  destruct nd as [data perm k]. pose proof Hk as Hk'. apply reads_node in Hk' as (-> & _).
  unfold reads in Hk. rewrite Hc, Hk. unfold inspect. by rewrite Hn, Ho.
Qed.

Lemma lookup_created env (f : fs) absolute :
  f !! absolute = None -> we_create (ie_write env) = None ->
  create_exclusive (ie_write env) f absolute =
  Ok (<[absolute := mkNode [] (Z.land ownerOnly (Z.lnot (we_umask (ie_write env)))) Regular]> f).
Proof. intros Hn Hc. unfold create_exclusive. by rewrite Hn, Hc. Qed.

(** A first run without errors: five steps make the file. *)
Lemma LoadOrCreate_new env (f : fs) path absolute key encoded :
  path <> "" -> we_abs (ie_write env) path = Ok absolute -> f !! absolute = None ->
  we_mkdir (ie_write env) = None -> we_create (ie_write env) = None -> writes_succeed env ->
  ie_generate env 0 = Ok key -> MarshalPrivateKey key = Ok encoded ->
  LoadOrCreate 5 env f path = (<[absolute := mkNode encoded ownerOnly Regular]> f, Some (Ok key)).
Proof.
  intros Hp Ha Hn Hd Hc (Hw & Hpr & Hcl) Hg Hm. unfold LoadOrCreate. rewrite bool_decide_false, Ha by done.
  simpl. unfold inspect. rewrite Hn. simpl. rewrite Hd. simpl. rewrite Hg, Hm, lookup_created by done.
  simpl. rewrite Hw. simpl. rewrite Hpr. simpl. rewrite Hcl. simpl. unfold Protect, write_data.
  by rewrite !alter_insert_eq.
Qed.

(** C19: A returned identity is the only one.  Any number of processes start at the same time on one identity
    file and are scheduled in any order, some stopped at any point, and no write, protection or close of a file one
    of them has made fails.  Then all processes that have returned a key have returned the same one, and once one
    has, a start that meets no error returns it again and leaves the file as it is.  Nothing is said when no process
    returned a key: one that was stopped between making the file and writing it blocks all later starts
    ([identity_start_race]); and a failing protection or close removes a file others may have read
    ([identity_removed]). *)
Theorem identity_agreement envs absolute schedule (f : fs) n f' procs i j key1 key2 env path :
  (forall j, writes_succeed (envs j)) ->
  id_interleave envs absolute schedule (f, replicate n (IOpen 0)) = (f', procs) ->
  procs !! i = Some (IDone (Ok key1)) -> procs !! j = Some (IDone (Ok key2)) ->
  path <> "" -> we_abs (ie_write env) path = Ok absolute ->
  ie_open env = None -> ie_stat env = None -> ie_read env = None -> ie_closeRead env = None ->
  key1 = key2 /\ LoadOrCreate 1 env f' path = (f', Some (Ok key1)).
Proof.
  intros Hw HI Hi Hj Hp Ha Ho Hs Hr Hc.
  destruct (id_interleave_done _ _ _ _ _ _ _ _ _ Hw HI Hi) as (nd & Hn & Hk).
  destruct (id_interleave_done _ _ _ _ _ _ _ _ _ Hw HI Hj) as (nd' & Hn' & Hk').
  split; [congruence|]. by apply (LoadOrCreate_existing env f' path absolute nd key1).
Qed.

(** A start that meets the empty file fails and leaves it. *)
Lemma id_step_empty env (f : fs) absolute perm n :
  ie_open env = None -> f !! absolute = Some (mkNode [] perm Regular) ->
  exists err, id_step env absolute f (IOpen n) = (f, IDone (Err err)).
Proof.
  intros Ho Hf. unfold id_step.
  assert (fa_open (observe env f absolute) = None) as Eo by (unfold observe, inspect; by rewrite Hf).
  rewrite Eo. destruct (read_identity _ _ _) as [key|err] eqn:E; [|eauto].
  apply observe_reads in E as (nd & Hn & Hk); [|done]. simplify_eq.
  apply reads_node in Hk as (_ & _ & _ & Hu). pose proof UnmarshalPrivateKey_nil as Hnil. by rewrite Hu in Hnil.
Qed.

(** The start race.  From a state without an identity file, a process that starts while another
    is between creating the file and writing it fails on the empty file; the other goes on and
    succeeds, unless it stops there, and then every start fails from then on. *)
Theorem identity_start_race (envs : nat -> id_env) absolute (f : fs) key encoded env path :
  f !! absolute = None ->
  (forall i, ie_open (envs i) = None /\ we_mkdir (ie_write (envs i)) = None /\
     we_create (ie_write (envs i)) = None /\ writes_succeed (envs i)) ->
  ie_generate (envs 0%nat) 0 = Ok key -> MarshalPrivateKey key = Ok encoded ->
  path <> "" -> we_abs (ie_write env) path = Ok absolute -> ie_open env = None ->
  exists crashed err err',
    id_interleave envs absolute [0; 0; 1]%nat (f, [IOpen 0; IOpen 0]) = (crashed, [IWrite key encoded; IDone (Err err)]) /\
    LoadOrCreate 1 env crashed path = (crashed, Some (Err err')) /\
    snd (id_interleave envs absolute [0; 0; 1; 0; 0; 0]%nat (f, [IOpen 0; IOpen 0])) =
      [IDone (Ok key); IDone (Err err)].
Proof.
  intros Hn He Hg Hm Hp Ha Ho. destruct (He 0%nat) as (Ho0 & Hd0 & Hc0 & Hw0 & Hp0 & Hcl0), (He 1%nat) as (Ho1 & _).
  assert (exists crashed perm, crashed !! absolute = Some (mkNode [] perm Regular) /\
    id_interleave envs absolute [0; 0]%nat (f, [IOpen 0; IOpen 0]) = (crashed, [IWrite key encoded; IOpen 0]))
    as (crashed & perm & Hcr & Hrun).
  { eexists _, _. split; [|unfold id_interleave; simpl; unfold inspect; rewrite Hn; simpl; rewrite Hd0; simpl;
      rewrite Hg, Hm, lookup_created by done; reflexivity]. apply lookup_insert_eq. }
  destruct (id_step_empty (envs 1%nat) crashed absolute perm 0 Ho1 Hcr) as [err Herr].
  destruct (id_step_empty env crashed absolute perm 0 Ho Hcr) as [err' Herr'].
  exists crashed, err, err'.
  assert (id_interleave envs absolute [0; 0; 1]%nat (f, [IOpen 0; IOpen 0]) = (crashed, [IWrite key encoded; IDone (Err err)]))
    as Hrun3.
  { change [0; 0; 1]%nat with ([0; 0] ++ [1])%nat. unfold id_interleave in *. rewrite foldl_app, Hrun.
    cbn [foldl id_sched lookup list_lookup]. by rewrite Herr. }
  split_and!; [done| |].
  - unfold LoadOrCreate. rewrite bool_decide_false, Ha by done. cbn [id_run]. by rewrite Herr'.
  - change [0; 0; 1; 0; 0; 0]%nat with ([0; 0; 1] ++ [0; 0; 0])%nat. unfold id_interleave in *.
    rewrite foldl_app, Hrun3. simpl. rewrite Hw0. simpl. rewrite Hp0. simpl. by rewrite Hcl0.
Qed.

(** An identity path that is a symbolic link to nothing makes [LoadOrCreate] call itself for
    ever: opening says that there is no file, creating that there is one. *)
Theorem identity_dangling_link env (f : fs) path absolute data perm fuel :
  path <> "" -> we_abs (ie_write env) path = Ok absolute ->
  f !! absolute = Some (mkNode data perm Dangling) -> we_mkdir (ie_write env) = None ->
  (forall n, exists key encoded, ie_generate env n = Ok key /\ MarshalPrivateKey key = Ok encoded) ->
  LoadOrCreate fuel env f path = (f, None).
Proof.
  intros Hp Ha Hf Hd Hg. unfold LoadOrCreate. rewrite bool_decide_false, Ha by done.
  assert (forall n, id_step env absolute f (IOpen n) = (f, ICreate n)) as Hopen.
  { intros n. simpl. unfold inspect. by rewrite Hf. }
  assert (forall n, id_step env absolute f (ICreate n) = (f, IOpen (S n))) as Hcreate.
  { intros n. simpl. rewrite Hd. simpl. destruct (Hg n) as (key & encoded & -> & ->).
    unfold create_exclusive. by rewrite Hf. }
  generalize 0%nat as n. induction fuel as [fuel IH] using lt_wf_ind. intros n.
  destruct fuel as [|[|fuel]]; cbn [id_run]; [done|by rewrite Hopen|].
  rewrite Hopen. cbn [id_run]. rewrite Hcreate. apply IH. lia.
Qed.
End agreement.

(** ** The command [id] *)

Section command.
Context `{KS : !Keys, KF : !KeyFiles}.

(** The identity file of a command: the one named by the flag, or [identity.DefaultPath()]. *)
Definition identity_path (flag defaultPath : string) : string :=
  if bool_decide (flag = "") then defaultPath else flag.

(** [newIDCommand]: the line it prints. *)
Definition newIDCommand (fuel : nat) (env : id_env) (f : fs) (flag defaultPath : string)
    : fs * option (result string) :=
  match LoadOrCreate fuel env f (identity_path flag defaultPath) with
  | (f, None) => (f, None)
  | (f, Some (Err err)) => (f, Some (Err err))
  | (f, Some (Ok key)) => (f, Some (IDFromPrivateKey key))
  end.
End command.

(** ** Witnesses *)

Module IdentityWitness.
Import Ref.

(** A tagged encoding, which the empty input is not. *)
#[export] Instance key_files : KeyFiles := {|
  MarshalPrivateKey (k : @PrivKey keys) := if bool_decide (length k <= 1000)%nat then Ok (x08 :: k) else Err EOF;
  UnmarshalPrivateKey b := match b with x08 :: k => Ok (k : @PrivKey keys) | _ => Err EOF end
|}.

#[export] Instance key_files_laws : KeyFilesLaws.
Proof.
  split; simpl.
  - intros k b. case_bool_decide; [by intros [= <-]|done].
  - intros k b. case_bool_decide as H; [|done]. intros [= <-]. unfold blen, maxIdentityFileSize. simpl length.
    change (@length (@PrivKey keys)) with (@length byte) in H. lia.
  - done.
Qed.

Definition root : string -> result string := fun path => Ok ("/work/" +:+ path).
Definition plain : write_env := mkWriteEnv root None None None 0 None None 18.
Definition run (seed : Z) : id_env := mkIdEnv None None None None plain (fun n => Ok (put_be 32 (seed + Z.of_nat n))).
Definition runs (i : nat) : id_env := run (100 * Z.of_nat i).

Definition key0 : PrivKey := put_be 32 0.
Definition encoded0 : list byte := x08 :: put_be 32 0.

(** Two processes that both find no file: the second loses the race for its creation, reads the file
    of the first, and a third start agrees. *)
Lemma identity_agreement_witness :
  key0 = key0 /\
  LoadOrCreate 1 (run 7) {["/work/id" := mkNode encoded0 ownerOnly Regular]} "id" =
    ({["/work/id" := mkNode encoded0 ownerOnly Regular]}, Some (Ok key0)).
Proof.
  apply (identity_agreement runs "/work/id" [0; 1; 0; 0; 1; 1; 0; 0; 1]%nat ∅ 2
    {["/work/id" := mkNode encoded0 ownerOnly Regular]}
    [IDone (Ok key0); IDone (Ok key0)] 0 1 key0 key0 (run 7) "id");
    try reflexivity; [done|by vm_compute].
Defined.

Lemma identity_start_race_witness :
  exists crashed err err',
    id_interleave runs "/work/id" [0; 0; 1]%nat (∅, [IOpen 0; IOpen 0]) =
      (crashed, [IWrite key0 encoded0; IDone (Err err)]) /\
    LoadOrCreate 1 (run 7) crashed "id" = (crashed, Some (Err err')) /\
    snd (id_interleave runs "/work/id" [0; 0; 1; 0; 0; 0]%nat (∅, [IOpen 0; IOpen 0])) =
      [IDone (Ok key0); IDone (Err err)].
Proof.
  apply (identity_start_race runs "/work/id" ∅ key0 encoded0 (run 7) "id"); done.
Defined.

(** The first process makes and writes the file, the second reads it and returns the key; then the protection
    fails for the first, which removes the file: the next start makes another identity. *)
Definition unprotected : id_env :=
  mkIdEnv None None None None (mkWriteEnv root None None None 0 (Some EIO) None 18) (fun n => Ok (put_be 32 (Z.of_nat n))).
Definition removing (i : nat) : id_env := if decide (i = 0%nat) then unprotected else run 100.
Lemma identity_removed :
  id_interleave removing "/work/id" [0; 0; 0; 1; 0; 0]%nat (∅, [IOpen 0; IOpen 0]) =
    (∅, [IDone (Err (Wrapf "protect identity %s: %w" [AStr "/work/id"] EIO)); IDone (Ok key0)]) /\
  snd (LoadOrCreate 5 (run 7) ∅ "id") = Some (Ok (put_be 32 7)) /\ put_be 32 7 <> key0.
Proof. split; [reflexivity|]. split; [reflexivity|]. vm_compute. discriminate. Qed.

Lemma identity_dangling_link_witness :
  LoadOrCreate 1000 (run 7) {["/work/id" := mkNode [] 511 Dangling]} "id" =
    ({["/work/id" := mkNode [] 511 Dangling]}, None).
Proof.
  apply (identity_dangling_link (run 7) _ "id" "/work/id" [] 511); try done.
  intros n. exists (put_be 32 (7 + Z.of_nat n)), (x08 :: put_be 32 (7 + Z.of_nat n)). split; [done|].
  cbn [MarshalPrivateKey key_files]. rewrite bool_decide_true; [done|]. change (@length (@PrivKey keys)) with (@length byte). rewrite length_put_be. lia.
Defined.
End IdentityWitness.
