(* ===== verification/Commands.v ===== *)
(** The commands [token] and [token unlock] of internal/cli/root.go. *)
From S2P Require Export Identity.
From S2P Require Import ExtModel.
Local Open Scope Z_scope.

(** ** [token] *)

Record token_flags := mkTokenFlags {
  tf_identity : string;
  tf_relays : list string;
  tf_expiresIn : Z;
  tf_expiresChanged : bool;              (** [Flags().Changed("expires-in")] *)
  tf_encryptTo : string;
  tf_passwordFile : string
}.

(** What a command leaves besides the file system: a line on standard output, or the name of the file
    it reports to have written. *)
Inductive output := Printed (line : string) | Written (path : string).

Section commands.
Context `{LP : !Libp2p, CB : !Cbor, CR : !Crypto, KS : !Keys, KF : !KeyFiles}.

(** What a command meets: the identity file, the clock, [rand.Read], the terminal, the file a path
    opens, and the errors of writing. *)
Record cmd_env := mkCmdEnv {
  cm_defaultIdentity : string;
  cm_identity : id_env;
  cm_now : Time;
  cm_secret : result (list byte);
  cm_salt : result (list byte);
  cm_nonce : result (list byte);
  cm_terminal : terminal;
  cm_resolve : string -> string;
  cm_write : write_env
}.

Definition open_path (env : cmd_env) (f : fs) (path : string) : file_answer := inspect f (cm_resolve env path).

(** The relay hints. *)
Fixpoint relay_addresses (relays : list string) : result (list (option Multiaddr)) :=
  match relays with
  | [] => Ok []
  | value :: relays =>
      address ← NewMultiaddr value;
      addresses ← relay_addresses relays;
      Ok (Some address :: addresses)
  end.

(** The expiration: [uint64(time.Now().Unix() + int64(expiresIn))]. *)
Definition token_expires (now : Time) (flags : token_flags) : result (option Z) :=
  if (tf_expiresIn flags <? 0) || (tf_expiresChanged flags && (tf_expiresIn flags =? 0))
  then Err (ErrNew "--expires-in must be greater than zero")
  else Ok (if 0 <? tf_expiresIn flags then Some (wrapU 64 (wrapS 64 (toUnix now + tf_expiresIn flags))) else None).

(** From the identity to the token and its text. *)
Definition create_token (env : cmd_env) (key : PrivKey) (flags : token_flags) (args : list string)
    : result (Token * string) :=
  id ← IDFromPrivateKey key;
  service ← match args with [arg] => parseService arg | _ => Ok DefaultService end;
  addresses ← relay_addresses (tf_relays flags);
  expires ← token_expires (cm_now env) flags;
  token ← New id service addresses expires (cm_secret env) (cm_now env);
  encoded ← Encode token;
  Ok (token, encoded).

(** [writeExclusiveTokenFile] as the last step of a command. *)
Definition write_output (env : cmd_env) (f : fs) (path : string) (value : result string)
    : fs * option (result output) :=
  match value with
  | Err err => (f, Some (Err err))
  | Ok value =>
      match writeExclusiveTokenFile (cm_write env) f path value with
      | (Some err, f) => (f, Some (Err err))
      | (None, f) => (f, Some (Ok (Written path)))
      end
  end.

(** [newTokenCommand]; [None] when [LoadOrCreate] has not returned. *)
Definition newTokenCommand (fuel : nat) (env : cmd_env) (f : fs) (flags : token_flags) (args : list string)
    : fs * option (result output) :=
  if negb (bool_decide (tf_passwordFile flags = "")) && bool_decide (tf_encryptTo flags = "")
  then (f, Some (Err (ErrNew "--password-file requires --encrypt-to")))
  else match LoadOrCreate fuel (cm_identity env) f (identity_path (tf_identity flags) (cm_defaultIdentity env)) with
  | (f, None) => (f, None)
  | (f, Some (Err err)) => (f, Some (Err err))
  | (f, Some (Ok key)) =>
      match create_token env key flags args with
      | Err err => (f, Some (Err err))
      | Ok (_, encoded) =>
          if bool_decide (tf_encryptTo flags = "") then (f, Some (Ok (Printed encoded)))
          else write_output env f (tf_encryptTo flags)
            (password ← readTokenPassword (open_path env f) (cm_terminal env) (tf_passwordFile flags) true;
             Encrypt encoded password (cm_salt env) (cm_nonce env))
      end
  end.

(** [newTokenUnlockCommand]. *)
Definition newTokenUnlockCommand (env : cmd_env) (f : fs) (outputPath passwordFile arg : string)
    : fs * option (result output) :=
  if bool_decide (outputPath = "") then (f, Some (Err (ErrNew "--output is required")))
  else write_output env f outputPath
    (encrypted ← readEncryptedTokenFile (open_path env f arg);
     password ← readTokenPassword (open_path env f) (cm_terminal env) passwordFile false;
     Decrypt encrypted password).

Context `{LPL : !Libp2pLaws, CBL : !CborLaws, CRL : !CryptoLaws}.

Lemma Encode_graphic t text : Encode t = Ok text -> Forall (fun b => graphic b = true) (bytes_of text).
Proof.
  intros (_ & payload & _ & ->)%Encode_Ok. rewrite bytes_of_app. apply Forall_app.
  split; [by repeat constructor|apply EncodeToString_graphic].
Qed.

(** The text of a token that decodes is short enough to be read back. *)
Lemma Encode_size t text :
  Encode t = Ok text -> is_ok (Decode text) = true -> slen text <= slen TokenPrefix + EncodedLen MaxTokenSize.
Proof.
  intros (_ & payload & _ & ->)%Encode_Ok Hd. rewrite slen_app, slen_EncodeToString.
  unfold Decode in Hd. rewrite token_text_trim, HasPrefix_app, TrimPrefix_app, DecodeString_EncodeToString in Hd.
  cbn [negb refuse of_option mbind result_bind] in Hd.
  destruct (Z.ltb_spec MaxTokenSize (blen payload)); [by rewrite orb_true_r in Hd|].
  pose proof (blen_nonneg payload). unfold EncodedLen, MaxTokenSize in *. Z.to_euclidean_division_equations; lia.
Qed.

Lemma parseService_range text service : parseService text = Ok service -> is_uint 16 service.
Proof.
  unfold parseService. destruct (ParseUint text 16) as [v|] eqn:E; [|done].
  destruct (v =? 0); [done|]. intros [= <-]. by apply ParseUint_range in E.
Qed.

Lemma relay_addresses_valid relays addresses :
  (forall s m, s ∈ relays -> NewMultiaddr s = Ok m -> ValidString (ma_String m) = true) ->
  relay_addresses relays = Ok addresses ->
  Forall (fun h => ValidString (hint_String h) = true) addresses.
Proof.
  revert addresses. induction relays as [|value relays IH]; intros addresses Hv H; simpl in H.
  - injection H as <-. constructor.
  - inv_ok. constructor; [eapply Hv; [apply list_elem_of_here|done]|].
    apply IH; [|done]. intros s m Hs. apply Hv. by apply list_elem_of_further.
Qed.

Lemma create_token_typed env key flags args token encoded :
  (forall secret, cm_secret env = Ok secret -> blen secret = SecretSize) ->
  (forall id, IDFromPrivateKey key = Ok id -> Pairing.text_ok (peer_String id)) ->
  (forall s m, s ∈ tf_relays flags -> NewMultiaddr s = Ok m -> ValidString (ma_String m) = true) ->
  create_token env key flags args = Ok (token, encoded) -> token_typed token /\ Encode token = Ok encoded.
Proof.
  intros Hsec Hid Hma H. unfold create_token in H. apply bind_Ok in H as (id & Eid & H).
  apply bind_Ok in H as (service & Es & H). apply bind_Ok in H as (addresses & Ea & H).
  apply bind_Ok in H as (expires & Ee & H). apply bind_Ok in H as (t & Et & H).
  apply bind_Ok in H as (enc & Een & [= -> ->]). split; [|done].
  unfold New in Et. rewrite seq_Ok in Et. destruct Et as [_ Et]. apply bind_Ok in Et as (secret & Esec%map_err_Ok & Et).
  rewrite seq_Ok in Et. destruct Et as [_ [= <-]]. unfold token_typed.
  cbn [tk_Secret tk_Service tk_ExpiresAt tk_PeerID tk_RelayHints]. split_and!.
  - auto.
  - destruct args as [|a [|]]; [by injection Es as <-|by eapply parseService_range|by injection Es as <-].
  - unfold token_expires in Ee. destruct (_ || _); [done|]. injection Ee as <-.
    destruct (0 <? _); [by apply wrapU_range|done].
  - by apply Hid.
  - by eapply relay_addresses_valid.
Qed.

(** A private regular file that is not too long is read as it is. *)
Lemma check_secret_inspect what (f : fs) path data :
  f !! path = Some (mkNode data ownerOnly Regular) -> check_secret what (inspect f path) = Ok data.
Proof. intros H. unfold inspect. rewrite H. by vm_compute. Qed.

Lemma readEncryptedTokenFile_written (f : fs) path text :
  f !! path = Some (mkNode (bytes_of text ++ [x0a]) ownerOnly Regular) ->
  slen text <= slen Prefix + EncodedLen MaxEnvelopeSize ->
  readEncryptedTokenFile (inspect f path) = Ok (text +:+ string_of [x0a]).
Proof.
  intros Hf Hl. unfold readEncryptedTokenFile. rewrite (check_secret_inspect _ _ _ _ Hf). cbn [mbind result_bind].
  change (slen Prefix + EncodedLen MaxEnvelopeSize) with 87388 in Hl. unfold slen in Hl.
  change (MaxEnvelopeSize * 2) with 131072 in *.
  rewrite take_ge by (rewrite length_app; simpl; lia). unfold blen. rewrite length_app. simpl.
  rewrite (proj2 (Z.ltb_ge _ _)) by lia. simpl. by rewrite string_of_app, string_of_bytes_of.
Qed.

Lemma readPairingTokenFile_written (f : fs) path text :
  f !! path = Some (mkNode (bytes_of text ++ [x0a]) ownerOnly Regular) ->
  slen text <= slen TokenPrefix + EncodedLen MaxTokenSize ->
  readPairingTokenFile (inspect f path) = Ok (text +:+ string_of [x0a]).
Proof.
  intros Hf Hl. unfold readPairingTokenFile, readTokenFile, inspect. rewrite Hf. simpl.
  change maximum_token_file with 21853 in *. change (slen TokenPrefix + EncodedLen MaxTokenSize) with 21851 in Hl.
  unfold slen in Hl.
  rewrite take_ge by (rewrite length_app; simpl; lia). unfold blen. rewrite length_app. simpl.
  rewrite (proj2 (Z.ltb_ge _ _)) by lia. simpl. by rewrite string_of_app, string_of_bytes_of.
Qed.

(** [Decrypt] does not see the line break a file ends with. *)
Lemma Decrypt_line text password :
  Forall (fun b => graphic b = true) (bytes_of text) ->
  Decrypt (text +:+ string_of [x0a]) password = Decrypt text password.
Proof.
  intros Hg. unfold Decrypt, decodeEnvelope. by rewrite TrimSpace_line, TrimSpace_graphic.
Qed.

Lemma Encrypt_graphic text password salt nonce encrypted :
  Encrypt text password salt nonce = Ok encrypted -> Forall (fun b => graphic b = true) (bytes_of encrypted).
Proof.
  intros H. unfold Encrypt in H. inv_ok. rewrite bytes_of_app. apply Forall_app.
  split; [by repeat constructor|apply EncodeToString_graphic].
Qed.

Lemma write_output_Ok env (f : fs) path value f' p :
  write_output env f path value = (f', Some (Ok (Written p))) ->
  exists text absolute, value = Ok text /\ path <> "" /\ we_abs (cm_write env) path = Ok absolute /\
    f !! absolute = None /\ f' = <[absolute := mkNode (bytes_of text ++ [x0a]) ownerOnly Regular]> f.
Proof.
  unfold write_output. destruct value as [text|]; [|done].
  destruct (writeExclusiveTokenFile (cm_write env) f path text) as [[err|] g] eqn:E; [done|].
  intros [= <- <-]. pose proof E as E'. apply write_exclusive_all_or_nothing in E as (absolute & Ha & Hn & ->).
  exists text, absolute. split_and!; try done. intros ->. by vm_compute in E'.
Qed.

(** C17: A token written encrypted comes back.  When [token --encrypt-to] reports success, then
    [token unlock] with the same password succeeds on the file it wrote, under any new name; the
    unlocked file is private, holds the text of the token that was created, and what reads it
    decodes that token, its hints in order. *)
Theorem token_command_roundtrip fuel env uenv (f f0 f1 : fs) flags args key password salt nonce
    out arg passwordFile encPath outPath :
  LoadOrCreate fuel (cm_identity env) f (identity_path (tf_identity flags) (cm_defaultIdentity env)) = (f0, Some (Ok key)) ->
  (forall secret, cm_secret env = Ok secret -> blen secret = SecretSize) ->
  cm_salt env = Ok salt -> blen salt = saltSize -> cm_nonce env = Ok nonce -> blen nonce = nonceSize ->
  (forall id, IDFromPrivateKey key = Ok id -> Pairing.text_ok (peer_String id)) ->
  (forall s m, s ∈ tf_relays flags -> NewMultiaddr s = Ok m -> ValidString (ma_String m) = true) ->
  readTokenPassword (open_path env f0) (cm_terminal env) (tf_passwordFile flags) true = Ok password ->
  newTokenCommand fuel env f flags args = (f1, Some (Ok (Written (tf_encryptTo flags)))) ->
  we_abs (cm_write env) (tf_encryptTo flags) = Ok encPath ->
  (forall nd, f1 !! encPath = Some nd -> blen (nd_data nd) <= slen Prefix + EncodedLen MaxEnvelopeSize + 1) ->
  cm_resolve uenv arg = encPath ->
  readTokenPassword (open_path uenv f1) (cm_terminal uenv) passwordFile false = Ok password ->
  out <> "" -> we_abs (cm_write uenv) out = Ok outPath -> f1 !! outPath = None ->
  we_mkdir (cm_write uenv) = None -> we_create (cm_write uenv) = None -> we_write (cm_write uenv) = None ->
  we_protect (cm_write uenv) = None -> we_close (cm_write uenv) = None ->
  exists token text hints,
    create_token env key flags args = Ok (token, text) /\
    let f2 := <[outPath := mkNode (bytes_of text ++ [x0a]) ownerOnly Regular]> f1 in
    newTokenUnlockCommand uenv f1 out passwordFile arg = (f2, Some (Ok (Written out))) /\
    readPairingTokenFile (inspect f2 outPath) = Ok (text +:+ string_of [x0a]) /\
    hints ≡ₚ tk_RelayHints token /\ Sorted String.le (hint_String <$> hints) /\
    Decode (TrimSpace (text +:+ string_of [x0a])) =
      Ok (mkToken (tk_Version token) (tk_PeerID token) (tk_Service token) (tk_Secret token) hints (tk_ExpiresAt token)).
Proof.
  intros HL Hsec Hsalt Hs Hnonce Hno Hid Hma Hpw HC Henc Hsize Harg Hupw Hout Houtp Hnone Hmk Hcr Hwr Hpr Hcl.
  unfold newTokenCommand in HC. rewrite HL in HC. destruct (_ && _); [done|].
  destruct (create_token env key flags args) as [[token text]|] eqn:Ec; [|done].
  destruct (create_token_typed _ _ _ _ _ _ Hsec Hid Hma Ec) as [Hty Hen].
  case_bool_decide; [done|]. apply write_output_Ok in HC as (encrypted & absolute & HE & _ & Habs & _ & Hf1).
  rewrite Henc in Habs. injection Habs as <-. rewrite Hpw, Hsalt, Hnonce in HE. cbn [mbind result_bind] in HE.
  assert (f1 !! encPath = Some (mkNode (bytes_of encrypted ++ [x0a]) ownerOnly Regular)) as Hlook
    by (rewrite Hf1; apply lookup_insert_eq). clear Hf1.
  pose proof (TrimSpace_graphic _ (Encode_graphic _ _ Hen)) as Htrim.
  assert (is_ok (Decode text) = true) as Hdec.
  { unfold Encrypt in HE. rewrite Htrim, seq_Ok, is_ok_map_err in HE. by destruct HE. }
  pose proof (Encode_size _ _ Hen Hdec) as Hlen.
  specialize (Hsize _ Hlook). cbn [nd_data] in Hsize.
  assert (slen encrypted <= slen Prefix + EncodedLen MaxEnvelopeSize) as Hel.
  { unfold blen in Hsize. rewrite length_app in Hsize. simpl length in Hsize. unfold slen at 1. lia. }
  destruct (Decode_Encode _ _ Hty Hen Hlen) as (hints & Hp & Hsort & Hdecode).
  exists token, text, hints. split; [done|]. cbv zeta. split_and!; [| |done|done|].
  - unfold newTokenUnlockCommand. rewrite bool_decide_false by done. change (open_path uenv f1 arg) with (inspect f1 (cm_resolve uenv arg)). rewrite Harg.
    rewrite (readEncryptedTokenFile_written _ _ encrypted Hlook Hel), Hupw.
    cbn [mbind result_bind]. rewrite (Decrypt_line _ _ (Encrypt_graphic _ _ _ _ _ HE)).
    rewrite (Decrypt_Encrypt _ _ _ _ _ Hs Hno HE Hel), Htrim
      by (rewrite Htrim; change (slen TokenPrefix + EncodedLen MaxTokenSize) with 21851 in Hlen; lia).
    cbn [write_output]. unfold writeExclusiveTokenFile. rewrite bool_decide_false, Houtp, Hmk by done.
    unfold create_exclusive. rewrite Hnone, Hcr, Hwr, Hpr, Hcl. unfold Protect, write_data. by rewrite !alter_insert_eq.
  - apply readPairingTokenFile_written; [apply lookup_insert_eq|done].
  - by rewrite (TrimSpace_line _ (Encode_graphic _ _ Hen)).
Qed.
End commands.

(** ** Witnesses *)

Module CommandsWitness.
Import Ref IdentityWitness.

Definition flags : token_flags := mkTokenFlags "" ["/ip4/10.0.0.2/tcp/9/p2p/R2"; "/ip4/10.0.0.1/tcp/9/p2p/R1"] 3600 true "shared.enc" "pw".
Definition keyboard : terminal := mkTerminal false (Err EOF) (Err EOF).
Definition start_fs : fs := {["/work/pw" := mkNode (bytes_of "correct horse" ++ [x0d; x0a]) 256 Regular]}.
Definition env : cmd_env :=
  mkCmdEnv "id" (run 7) (Unix 1700000000 0) (Ok (put_be 32 77)) (Ok (put_be 16 3)) (Ok (put_be 12 4)) keyboard
    (fun path => "/work/" +:+ path) plain.

Definition key7 : PrivKey := put_be 32 7.
Definition with_identity : fs := <["/work/id" := mkNode (x08 :: put_be 32 7) ownerOnly Regular]> start_fs.
Definition after_token : fs := Eval vm_compute in fst (newTokenCommand 5 env start_fs flags ["4242"]).

Lemma token_command_roundtrip_witness :
  exists token text hints,
    create_token env key7 flags ["4242"] = Ok (token, text) /\
    let f2 := <["/work/plain" := mkNode (bytes_of text ++ [x0a]) ownerOnly Regular]> after_token in
    newTokenUnlockCommand env after_token "plain" "pw" "shared.enc" = (f2, Some (Ok (Written "plain"))) /\
    readPairingTokenFile (inspect f2 "/work/plain") = Ok (text +:+ string_of [x0a]) /\
    hints ≡ₚ tk_RelayHints token /\ Sorted String.le (hint_String <$> hints) /\
    Decode (TrimSpace (text +:+ string_of [x0a])) =
      Ok (mkToken (tk_Version token) (tk_PeerID token) (tk_Service token) (tk_Secret token) hints (tk_ExpiresAt token)).
Proof.
  apply (token_command_roundtrip 5 env env start_fs with_identity after_token flags ["4242"] key7
    (bytes_of "correct horse") (put_be 16 3) (put_be 12 4) "plain" "shared.enc" "pw" "/work/shared.enc" "/work/plain");
    lazymatch goal with |- forall _, _ => idtac | |- _ = _ => vm_compute; reflexivity | |- _ => discriminate end.
  - by intros secret [= <-].
  - intros id [= <-]. by vm_compute.
  - intros s m Hs [= <-]. revert s Hs. apply Forall_forall. repeat constructor.
  - intros nd Hnd. vm_compute in Hnd. injection Hnd as <-. vm_compute. discriminate.
Defined.
End CommandsWitness.
