(* ===== verification/PtySession.v ===== *)
(** Interactive sessions (session/pty.go; the loops of session/pty_windows.go are the same): the
    keyboard of the client with its escape sequence, the frames both sides exchange, the shell's
    terminal on the server, and how the two ends finish. *)
From S2P Require Export PtyFrames GoBufio.
Local Open Scope Z_scope.

(** ** The keyboard *)

(** The escape character, Ctrl-E, and the key that ends the session after it. *)
Definition escapeByte : byte := x05.
Definition quitByte : byte := x71.

(** The loop over one read: the bytes to send and the pending escape, or [None] for the end of the
    session. *)
Fixpoint filter_keys (escape : bool) (output chunk : list byte) : option (list byte * bool) :=
  match chunk with
  | [] => Some (output, escape)
  | value :: chunk =>
      if escape then
        if bool_decide (value = quitByte) then None
        else filter_keys false (output ++ [escapeByte; value]) chunk
      else if bool_decide (value = escapeByte) then filter_keys true output chunk
      else filter_keys false (output ++ [value]) chunk
  end.

(** What reaches the client: a read of standard input, or a change of the window size. *)
Inductive key_event :=
  | EvRead (chunk : list byte) (err : option error)
  | EvResize (size : option (Z * Z)).        (** [term.GetSize]; [None] for an error *)

Inductive keyboard :=
  | Typing (escape : bool)
  | Finished (err : option error).           (** what the goroutine has sent to [errorsCh] *)

Record client (W : Type) := mkClient { cl_keys : keyboard; cl_stream : W; cl_closedWrite : bool }.
Arguments mkClient {W} _ _ _.
Arguments cl_keys {W} _.
Arguments cl_stream {W} _.
Arguments cl_closedWrite {W} _.

Section client.
Context `{WR : !Writer W}.

Definition sendResize (size : option (Z * Z)) (w : W) : W :=
  match size with
  | None => w
  | Some (columns, rows) => snd (WriteFrame w FrameResize (EncodeResize (wrapU 16 columns) (wrapU 16 rows)))
  end.

(** The goroutine that reads the keyboard, one turn of its loop. *)
Definition read_keys (escape : bool) (c : client W) (chunk : list byte) (readErr : option error) : client W :=
  let next escape w :=
    match readErr with
    | Some err => mkClient (Finished (Some err)) w (cl_closedWrite c)
    | None => mkClient (Typing escape) w (cl_closedWrite c)
    end in
  match chunk with
  | [] => next escape (cl_stream c)
  | _ =>
      match filter_keys escape [] chunk with
      | None => mkClient (Finished None) (cl_stream c) true
      | Some ([], escape) => next escape (cl_stream c)
      | Some (output, escape) =>
          match WriteFrame (cl_stream c) FrameData output with
          | (Some err, w) => mkClient (Finished (Some err)) w (cl_closedWrite c)
          | (None, w) => next escape w
          end
      end
  end.

(** The writes of the two goroutines in the order in which they hold the lock.  After [CloseWrite] a write
    fails, and [sendResize] does not look at that. *)
Definition keyboard_step (c : client W) (ev : key_event) : client W :=
  match ev with
  | EvResize size =>
      if cl_closedWrite c then c else mkClient (cl_keys c) (sendResize size (cl_stream c)) (cl_closedWrite c)
  | EvRead chunk err =>
      match cl_keys c with
      | Typing escape => read_keys escape c chunk err
      | Finished _ => c
      end
  end.

(** [PTYClient] sends the size of the window first. *)
Definition client_run (w : W) (size : option (Z * Z)) (events : list key_event) : client W :=
  foldl keyboard_step (mkClient (Typing false) (sendResize size w) false) events.
End client.

(** The goroutine that shows what the shell writes: the error it sends to [errorsCh] and standard
    output; [None] when the fuel is spent. *)
Fixpoint client_display `{!Reader R, !Writer T} (fuel : nat) (r : R) (stdout : T) : option (error * T) :=
  match fuel with
  | O => None
  | S fuel =>
      match ReadFrame r with
      | (Err readErr, _) => Some (readErr, stdout)
      | (Ok frame, r) =>
          if bool_decide (f_Type frame = FrameData) then
            match w_write stdout (f_Data frame) with
            | (_, Some writeErr, stdout) => Some (writeErr, stdout)
            | (_, None, stdout) => client_display fuel r stdout
            end
          else client_display fuel r stdout
      end
  end.

(** How [PTYClient] returns. *)
Inductive client_end := ClientCancelled (err : error) | ClientResult (err : option error).
Definition PTYClient_result (e : client_end) : option error :=
  match e with
  | ClientCancelled err => Some err
  | ClientResult (Some err) => if errors_Is err EOF then None else Some err
  | ClientResult None => None
  end.

(** ** The shell *)

(** The goroutine that feeds the shell: its error, the terminal and the window sizes set. *)
Fixpoint shell_input `{!Reader R, !Writer T} (fuel : nat) (r : R) (terminal : T) (sizes : list (Z * Z))
    : option (error * T * list (Z * Z)) :=
  match fuel with
  | O => None
  | S fuel =>
      match ReadFrame r with
      | (Err readErr, _) => Some (readErr, terminal, sizes)
      | (Ok frame, r) =>
          if bool_decide (f_Type frame = FrameData) then
            match w_write terminal (f_Data frame) with
            | (_, Some writeErr, terminal) => Some (writeErr, terminal, sizes)
            | (_, None, terminal) => shell_input fuel r terminal sizes
            end
          else if bool_decide (f_Type frame = FrameResize) then
            match DecodeResize (f_Data frame) with
            | Err resizeErr => Some (resizeErr, terminal, sizes)
            | Ok size => shell_input fuel r terminal (sizes ++ [size])
            end
          else Some (Errorf "unknown PTY frame: %d" [AInt (byte_Z (f_Type frame))], terminal, sizes)
      end
  end.

(** The goroutine that sends what the shell writes, over the reads of the terminal; [None] while it
    has not ended. *)
Fixpoint shell_output `{!Writer W} (reads : list (list byte * option error)) (w : W) : option error * W :=
  match reads with
  | [] => (None, w)
  | (data, readErr) :: reads =>
      match (match data with [] => (None, w) | _ => WriteFrame w FrameData data end) with
      | (Some writeErr, w) => (Some writeErr, w)
      | (None, w) =>
          match readErr with
          | Some err => (Some err, w)
          | None => shell_output reads w
          end
      end
  end.

Definition isPTYEnd (err : error) : bool := errors_Is err EOF || errors_Is err EIO.

Inductive server_end := ServerCancelled (err : error) | ServerResult (err : error) (fromOutput : bool).
Inductive shell_action := Kill | Wait | CloseWrite.

(** How [PTYServer] ends: what it does to the shell and the stream, and the error it returns;
    [closeErr] is the outcome of [stream.CloseWrite]. *)
Definition PTYServer_end (e : server_end) (closeErr : option error) : list shell_action * option error :=
  match e with
  | ServerCancelled err => ([Kill; Wait], Some err)
  | ServerResult err fromOutput =>
      if fromOutput && isPTYEnd err then ([CloseWrite; Wait], closeErr)
      else ([Kill; Wait], if errors_Is err EOF then None else Some err)
  end.

(** ** What the keyboard means *)

(** The reference: the bytes typed as one sequence, cut at the escape sequence; the result tells
    whether an escape is pending at the end. *)
Inductive typed := More (pending : bool) | Quit.
Fixpoint keys_ref (escape : bool) (input : list byte) : list byte * typed :=
  match input with
  | [] => ([], More escape)
  | value :: input =>
      if escape then
        if bool_decide (value = quitByte) then ([], Quit)
        else let '(out, t) := keys_ref false input in (escapeByte :: value :: out, t)
      else if bool_decide (value = escapeByte) then keys_ref true input
      else let '(out, t) := keys_ref false input in (value :: out, t)
  end.

Lemma filter_keys_ref escape output chunk :
  filter_keys escape output chunk =
  match keys_ref escape chunk with
  | (out, More escape') => Some (output ++ out, escape')
  | (_, Quit) => None
  end.
Proof.
  revert escape output. induction chunk as [|value chunk IH]; intros escape output; simpl; [by rewrite app_nil_r|].
  destruct escape; case_bool_decide; [done|..]; rewrite IH;
    destruct (keys_ref _ chunk) as [out [e|]]; simpl; by rewrite <- ?app_assoc.
Qed.

(** The reference does not depend on where the input is split. *)
Lemma keys_ref_app escape l l' :
  keys_ref escape (l ++ l') =
  match keys_ref escape l with
  | (out, More escape') => let '(out', t) := keys_ref escape' l' in (out ++ out', t)
  | (out, Quit) => (out, Quit)
  end.
Proof.
  revert escape. induction l as [|value l IH]; intros escape; simpl; [by destruct (keys_ref escape l')|].
  destruct escape; case_bool_decide; [done|..]; rewrite IH;
    destruct (keys_ref _ l) as [out [e|]]; simpl; try done; by destruct (keys_ref e l').
Qed.

Lemma length_keys_ref escape l : (length (fst (keys_ref escape l)) <= S (length l))%nat.
Proof.
  enough (length (fst (keys_ref escape l)) <= (if escape then 1 else 0) + length l)%nat by (destruct escape; lia).
  revert escape. induction l as [|value l IH]; intros escape; simpl; [lia|].
  destruct escape; case_bool_decide; simpl; try lia;
    [specialize (IH false)|specialize (IH true)|specialize (IH false)];
    destruct (keys_ref _ l) as [out t]; simpl in *; lia.
Qed.

(** ** Sessions as sequences of frames *)

Definition frame_ok (f : Frame) : Prop :=
  blen (f_Data f) <= MaxFrameLength /\
  (f_Type f = FrameData \/
   f_Type f = FrameResize /\ exists size, DecodeResize (f_Data f) = Ok size).

Definition frame_data (frames : list Frame) : list byte :=
  frames ≫= fun f => if bool_decide (f_Type f = FrameData) then f_Data f else [].
Definition frame_sizes (frames : list Frame) : list (Z * Z) :=
  frames ≫= fun f =>
    if bool_decide (f_Type f = FrameData) then []
    else match DecodeResize (f_Data f) with Ok size => [size] | Err _ => [] end.

(** What is typed: the reads up to the first error. *)
Fixpoint keyboard_bytes (events : list key_event) : list byte :=
  match events with
  | [] => []
  | EvResize _ :: events => keyboard_bytes events
  | EvRead chunk (Some _) :: _ => chunk
  | EvRead chunk None :: events => chunk ++ keyboard_bytes events
  end.

Definition window (size : option (Z * Z)) : list (Z * Z) :=
  match size with Some (c, r) => [(Z.max 1 (wrapU 16 c), Z.max 1 (wrapU 16 r))] | None => [] end.
Definition window_sizes (events : list key_event) : list (Z * Z) :=
  events ≫= fun ev => match ev with EvResize size => window size | EvRead _ _ => [] end.

(** Reads fill at most the buffer. *)
Definition event_ok (ev : key_event) : Prop :=
  match ev with EvRead chunk _ => blen chunk <= 32 * 1024 | EvResize _ => True end.

Section sending.
Context `{WR : !Writer W, WL : !WriterLaws W, WA : !WriterReliable W}.

Lemma writeFull_reliable (w : W) value : exists w', writeFull w value = (None, w').
Proof.
  unfold writeFull. destruct value as [|b value]; [by exists w|].
  destruct (w_write_all w (b :: value)) as [w1 E]. exists w1. cbn [length writeFull_loop]. rewrite E.
  unfold blen. rewrite (proj2 (Z.eqb_neq _ _)) by (simpl; lia).
  rewrite Nat2Z.id, drop_ge by done. by destruct value.
Qed.

Lemma WriteFrame_reliable (w : W) kind data :
  blen data <= MaxFrameLength ->
  exists w', WriteFrame w kind data = (None, w') /\ w_sink w' = w_sink w ++ PtyFrames.encode (mkFrame kind data).
Proof.
  intros Hd. assert (exists w', WriteFrame w kind data = (None, w')) as [w' E].
  { unfold WriteFrame. rewrite (proj2 (Z.ltb_ge _ _)) by done.
    destruct (writeFull_reliable w (kind :: put_be 4 (wrapU 32 (blen data)))) as [w1 ->].
    apply writeFull_reliable. }
  exists w'. split; [done|]. by apply WriteFrame_ok in E as [_ ->].
Qed.

Lemma EncodeResize_short c r : blen (EncodeResize c r) <= MaxFrameLength.
Proof. unfold EncodeResize, blen. rewrite length_app, !length_put_be. by vm_compute. Qed.

Lemma sendResize_frames size (w : W) :
  exists frames, Forall frame_ok frames /\ w_sink (sendResize size w) = w_sink w ++ mjoin (PtyFrames.encode <$> frames) /\
    frame_data frames = [] /\ frame_sizes frames = window size.
Proof.
  destruct size as [[c r]|]; simpl; [|exists []; simpl; rewrite app_nil_r; by split_and!].
  pose proof (wrapU_range 16 c ltac:(lia)) as Hc. pose proof (wrapU_range 16 r ltac:(lia)) as Hr.
  pose proof (DecodeResize_Encode _ _ Hc Hr) as HD.
  destruct (WriteFrame_reliable w FrameResize (EncodeResize (wrapU 16 c) (wrapU 16 r))) as (w' & -> & Hs); [apply EncodeResize_short|].
  exists [mkFrame FrameResize (EncodeResize (wrapU 16 c) (wrapU 16 r))]. split_and!.
  - constructor; [|done]. split; [apply EncodeResize_short|].
    right. split; [done|]. eexists. exact HD.
  - cbn [snd fmap list_fmap mjoin list_join]. by rewrite Hs, app_nil_r.
  - done.
  - unfold frame_sizes. cbn [mbind list_bind f_Type f_Data]. rewrite bool_decide_false by done. by rewrite HD.
Qed.

(** After the keyboard's goroutine has ended only sizes are sent, and none after [CloseWrite]. *)
Lemma finished_frames events (c : client W) err :
  cl_keys c = Finished err -> cl_closedWrite c = false ->
  let c' := foldl keyboard_step c events in
  cl_closedWrite c' = false /\
  exists frames, Forall frame_ok frames /\ w_sink (cl_stream c') = w_sink (cl_stream c) ++ mjoin (PtyFrames.encode <$> frames) /\
    frame_data frames = [] /\ frame_sizes frames = window_sizes events.
Proof.
  revert c. induction events as [|ev events IH]; intros c Hf Hc; simpl.
  { split; [done|]. exists []. simpl. rewrite app_nil_r. by split_and!. }
  destruct ev as [chunk e|size].
  - assert (keyboard_step c (EvRead chunk e) = c) as -> by (simpl; by rewrite Hf). by apply IH.
  - destruct (sendResize_frames size (cl_stream c)) as (fr & Hok & Hs & Hd & Hz). cbn [keyboard_step]. rewrite Hc.
    destruct (IH (mkClient (cl_keys c) (sendResize size (cl_stream c)) false) Hf eq_refl) as (Hcl & frames & Hok' & Hs' & Hd' & Hz').
    split; [done|]. exists (fr ++ frames). split_and!.
    + by apply Forall_app.
    + rewrite Hs'. simpl. rewrite Hs, fmap_app, join_app. by rewrite <- app_assoc.
    + unfold frame_data in *. by rewrite bind_app, Hd, Hd'.
    + unfold frame_sizes in *. rewrite bind_app, Hz, Hz'. done.
Qed.
Lemma closed_frames events (c : client W) err :
  cl_keys c = Finished err -> cl_closedWrite c = true -> foldl keyboard_step c events = c.
Proof.
  intros Hf Hc. induction events as [|[chunk e|size] events IH]; [done|..]; cbn [foldl keyboard_step]; by rewrite ?Hf, ?Hc.
Qed.

Lemma read_keys_frames escape (c : client W) chunk err :
  blen chunk <= 32 * 1024 ->
  match keys_ref escape chunk with
  | (out, More escape') =>
      exists w' frames, read_keys escape c chunk err =
          mkClient (match err with Some e => Finished (Some e) | None => Typing escape' end) w' (cl_closedWrite c) /\
        Forall frame_ok frames /\ w_sink w' = w_sink (cl_stream c) ++ mjoin (PtyFrames.encode <$> frames) /\
        frame_data frames = out /\ frame_sizes frames = []
  | (_, Quit) => read_keys escape c chunk err = mkClient (Finished None) (cl_stream c) true
  end.
Proof.
  intros Hl. unfold read_keys. pose proof (length_keys_ref escape chunk) as Hk. pose proof (filter_keys_ref escape [] chunk) as Hf.
  destruct (keys_ref escape chunk) as [out [escape'|]] eqn:E.
  - assert (blen out <= MaxFrameLength) as Hmax by (unfold blen, MaxFrameLength in *; cbn [fst] in Hk; lia).
    assert (exists w' frames, Forall frame_ok frames /\ w_sink w' = w_sink (cl_stream c) ++ mjoin (PtyFrames.encode <$> frames) /\
      frame_data frames = out /\ frame_sizes frames = [] /\
      (out = [] -> w' = cl_stream c) /\ (out <> [] -> WriteFrame (cl_stream c) FrameData out = (None, w')))
      as (w' & frames & Hok & Hs & Hd & Hz & Hempty & Hwrite).
    { destruct out as [|b out].
      - exists (cl_stream c), []. simpl. rewrite app_nil_r. by split_and!.
      - destruct (WriteFrame_reliable (cl_stream c) FrameData (b :: out)) as (w' & Hw & Hs); [done|].
        exists w', [mkFrame FrameData (b :: out)]. simpl. rewrite !app_nil_r. split_and!; try done.
        constructor; [|done]. split; [done|by left]. }
    exists w', frames. split; [|done].
    destruct chunk as [|v chunk]; [simpl in E; injection E as <- <-; rewrite Hempty by done; by destruct err|].
    rewrite Hf. destruct out as [|b out]; simpl; [rewrite Hempty by done; by destruct err|].
    rewrite Hwrite by done. by destruct err.
  - destruct chunk as [|v chunk]; [done|]. by rewrite Hf.
Qed.

Lemma frames_app (w0 w1 w2 : W) frames1 frames2 :
  w_sink w1 = w_sink w0 ++ mjoin (PtyFrames.encode <$> frames1) ->
  w_sink w2 = w_sink w1 ++ mjoin (PtyFrames.encode <$> frames2) ->
  w_sink w2 = w_sink w0 ++ mjoin (PtyFrames.encode <$> (frames1 ++ frames2)).
Proof. intros H1 H2. by rewrite H2, H1, fmap_app, join_app, app_assoc. Qed.

(** The window sizes up to the read that ends with the escape sequence. *)
Fixpoint sizes_until (escape : bool) (events : list key_event) : list (Z * Z) :=
  match events with
  | [] => []
  | EvResize size :: events => window size ++ sizes_until escape events
  | EvRead chunk err :: events =>
      match keys_ref escape chunk, err with
      | (_, Quit), _ => []
      | (_, More _), Some _ => window_sizes events
      | (_, More escape), None => sizes_until escape events
      end
  end.

(** Without the escape sequence those are all of them. *)
Lemma sizes_until_all escape events out e :
  keys_ref escape (keyboard_bytes events) = (out, More e) -> sizes_until escape events = window_sizes events.
Proof.
  revert escape out. induction events as [|[chunk err|size] events IH]; intros escape out; [done|..]; cbn [keyboard_bytes sizes_until].
  - destruct err as [err|].
    + by intros ->.
    + rewrite keys_ref_app. destruct (keys_ref escape chunk) as [out1 [e1|]]; [|done].
      destruct (keys_ref e1 (keyboard_bytes events)) as [out2 [e2|]] eqn:E; [|done]. intros [= _ ->]. by eapply IH.
  - intros H. unfold window_sizes. cbn [mbind list_bind]. by erewrite IH.
Qed.

(** What the client sends for what is typed. *)
Lemma typing_frames events (c : client W) escape :
  Forall event_ok events -> cl_keys c = Typing escape -> cl_closedWrite c = false ->
  let c' := foldl keyboard_step c events in
  exists frames, Forall frame_ok frames /\
    w_sink (cl_stream c') = w_sink (cl_stream c) ++ mjoin (PtyFrames.encode <$> frames) /\
    frame_sizes frames = sizes_until escape events /\
    match keys_ref escape (keyboard_bytes events) with
    | (out, More _) => frame_data frames = out /\ cl_closedWrite c' = false
    | (out, Quit) => frame_data frames `prefix_of` out /\ cl_closedWrite c' = true
    end.
Proof.
  revert c escape. induction events as [|ev events IH]; intros c escape Hev Hk Hc.
  { exists []. simpl. rewrite app_nil_r. by split_and!. }
  apply Forall_cons in Hev as [Hev Hevs]. destruct ev as [chunk err|size].
  - pose proof (read_keys_frames escape c chunk err Hev) as Hr. cbn [sizes_until].
    assert (foldl keyboard_step c (EvRead chunk err :: events) = foldl keyboard_step (read_keys escape c chunk err) events) as ->
      by (simpl; by rewrite Hk).
    destruct (keys_ref escape chunk) as [out [escape'|]] eqn:E.
    + destruct Hr as (w' & fr & Hr & Hok & Hs & Hd & Hz). rewrite Hc in Hr. destruct err as [e|].
      * destruct (finished_frames events (read_keys escape c chunk (Some e)) (Some e)) as (Hcl & fr2 & Hok2 & Hs2 & Hd2 & Hz2);
          [by rewrite Hr|by rewrite Hr|].
        exists (fr ++ fr2). rewrite Hr in *. cbn [keyboard_bytes]. rewrite E. split_and!.
        -- by apply Forall_app.
        -- by eapply frames_app.
        -- unfold frame_sizes, window_sizes in *. rewrite bind_app, Hz, Hz2. done.
        -- unfold frame_data in *. by rewrite bind_app, Hd, Hd2, app_nil_r.
        -- done.
      * rewrite Hr in *. destruct (IH (mkClient (Typing escape') w' false) escape' Hevs eq_refl eq_refl)
          as (fr2 & Hok2 & Hs2 & Hz2 & Hd2). exists (fr ++ fr2). cbn [keyboard_bytes]. rewrite keys_ref_app, E. split_and!.
        -- by apply Forall_app.
        -- by eapply frames_app.
        -- unfold frame_sizes in *. rewrite bind_app, Hz, Hz2. done.
        -- unfold frame_data in *. rewrite bind_app, Hd.
           destruct (keys_ref escape' (keyboard_bytes events)) as [out2 [p|]]; destruct Hd2 as [Hd2 Hcl2].
           ++ by rewrite Hd2.
           ++ split; [|done]. by apply prefix_app.
    + rewrite Hr, (closed_frames events _ None) by done.
      exists []. simpl. rewrite app_nil_r. split_and!; [done|done|done|].
      assert (keys_ref escape (keyboard_bytes (EvRead chunk err :: events)) = (out, Quit)) as E'
        by (destruct err; cbn [keyboard_bytes]; [done|by rewrite keys_ref_app, E]).
      simpl in E'. rewrite E'. split; [apply prefix_nil|done].
  - destruct (sendResize_frames size (cl_stream c)) as (fr & Hok & Hs & Hd & Hz). cbn [keyboard_bytes foldl keyboard_step sizes_until]. rewrite Hc.
    destruct (IH (mkClient (cl_keys c) (sendResize size (cl_stream c)) false) escape Hevs Hk eq_refl) as (fr2 & Hok2 & Hs2 & Hz2 & Hd2).
    exists (fr ++ fr2). split_and!.
    + by apply Forall_app.
    + by eapply frames_app.
    + unfold frame_sizes in *. rewrite bind_app, Hz, Hz2. done.
    + unfold frame_data in *. rewrite bind_app, Hd. done.
Qed.
End sending.

Lemma length_frames frames : (length frames <= length (mjoin (PtyFrames.encode <$> frames)))%nat.
Proof.
  induction frames as [|f frames IH]; [done|]. rewrite fmap_cons. cbn [mjoin list_join]. rewrite length_app.
  assert (1 <= length (PtyFrames.encode f))%nat as H by (unfold PtyFrames.encode; simpl; lia). exact (Nat.add_le_mono _ _ _ _ H IH).
Qed.

Section receiving.
Context `{RD : !Reader R, RL : !ReaderLaws R, WT : !Writer T, WTL : !WriterLaws T, WTA : !WriterReliable T}.

Lemma w_write_reliable (t : T) data : exists t', w_write t data = (blen data, None, t') /\ w_sink t' = w_sink t ++ data.
Proof.
  destruct (w_write_all t data) as [t' E]. exists t'. split; [done|].
  apply w_write_spec in E as [_ ->]. unfold blen. by rewrite Nat2Z.id, take_ge by lia.
Qed.

Lemma ReadFrame_end (r : R) : r_rest r = [] -> exists r', ReadFrame r = (Err (r_end r), r').
Proof.
  intros Hr. destruct (ReadFull_short r 5) as (r' & E & _); [rewrite Hr; simpl; lia|].
  exists r'. unfold ReadFrame. rewrite E, Hr. done.
Qed.

(** The shell's side of a sequence of frames. *)
Lemma shell_input_frames frames fuel (r : R) (terminal : T) sizes :
  Forall frame_ok frames -> r_rest r = mjoin (PtyFrames.encode <$> frames) -> (length frames < fuel)%nat ->
  exists terminal', shell_input fuel r terminal sizes = Some (r_end r, terminal', sizes ++ frame_sizes frames) /\
    w_sink terminal' = w_sink terminal ++ frame_data frames.
Proof.
  revert fuel r terminal sizes. induction frames as [|f frames IH]; intros fuel r terminal sizes Hok Hr Hf;
    (destruct fuel as [|fuel]; [simpl in Hf; lia|]); cbn [shell_input].
  { destruct (ReadFrame_end r Hr) as [r' ->]. exists terminal. by rewrite !app_nil_r. }
  apply Forall_cons in Hok as [[Hlen Hkind] Hok]. simpl in Hf.
  destruct (ReadFrame_encode r f _ Hlen Hr) as (r' & -> & Hr' & <-). unfold frame_sizes, frame_data. cbn [mbind list_bind].
  destruct Hkind as [Ht|[Ht [size Hs]]]; rewrite Ht.
  - rewrite bool_decide_true by done. destruct (w_write_reliable terminal (f_Data f)) as (t' & -> & Ht').
    destruct (IH fuel r' t' sizes Hok Hr' ltac:(lia)) as (t2 & -> & Hs2). exists t2. split; [done|].
    by rewrite Hs2, Ht', app_assoc.
  - rewrite bool_decide_false, bool_decide_true, Hs by done.
    destruct (IH fuel r' terminal (sizes ++ [size]) Hok Hr' ltac:(lia)) as (t2 & -> & Hs2). exists t2.
    by rewrite <- app_assoc.
Qed.

(** The client's side of the shell's output: every frame carries data. *)
Lemma client_display_frames frames fuel (r : R) (stdout : T) :
  Forall frame_ok frames -> r_rest r = mjoin (PtyFrames.encode <$> frames) -> (length frames < fuel)%nat ->
  exists stdout', client_display fuel r stdout = Some (r_end r, stdout') /\
    w_sink stdout' = w_sink stdout ++ frame_data frames.
Proof.
  revert fuel r stdout. induction frames as [|f frames IH]; intros fuel r stdout Hok Hr Hf;
    (destruct fuel as [|fuel]; [simpl in Hf; lia|]); cbn [client_display].
  { destruct (ReadFrame_end r Hr) as [r' ->]. exists stdout. by rewrite !app_nil_r. }
  apply Forall_cons in Hok as [[Hlen Hkind] Hok]. simpl in Hf.
  destruct (ReadFrame_encode r f _ Hlen Hr) as (r' & -> & Hr' & <-). unfold frame_data. cbn [mbind list_bind].
  case_bool_decide as Ht.
  - destruct (w_write_reliable stdout (f_Data f)) as (t' & -> & Ht').
    destruct (IH fuel r' t' Hok Hr' ltac:(lia)) as (t2 & -> & Hs2). exists t2. split; [done|].
    by rewrite Hs2, Ht', app_assoc.
  - by apply IH; [|done|lia].
Qed.
End receiving.

(** What the shell writes, as frames. *)
Lemma shell_output_frames `{!Writer W, !WriterLaws W, !WriterReliable W} reads (w : W) err :
  Forall (fun rd => blen (fst rd) <= 32 * 1024) reads -> Forall (fun rd => snd rd = None) reads ->
  exists frames w', shell_output (reads ++ [([], Some err)]) w = (Some err, w') /\ Forall frame_ok frames /\
    w_sink w' = w_sink w ++ mjoin (PtyFrames.encode <$> frames) /\ frame_data frames = mjoin (fst <$> reads).
Proof.
  revert w. induction reads as [|[data e] reads IH]; intros w Hl Hn; simpl.
  { exists [], w. simpl. rewrite app_nil_r. by split_and!. }
  apply Forall_cons in Hl as [Hl Hls]. apply Forall_cons in Hn as [Hn Hns]. simpl in Hl, Hn. subst e.
  destruct data as [|b data]; [by apply IH|].
  destruct (WriteFrame_reliable w FrameData (b :: data)) as (w1 & -> & Hs1); [unfold MaxFrameLength; lia|].
  destruct (IH w1 Hls Hns) as (fr & w2 & -> & Hok & Hs2 & Hd). exists (mkFrame FrameData (b :: data) :: fr), w2.
  split_and!; [done| | |].
  - constructor; [|done]. split; [cbn [f_Data]; unfold MaxFrameLength; lia|by left].
  - rewrite Hs2, Hs1. cbn [fmap list_fmap mjoin list_join]. by rewrite app_assoc.
  - unfold frame_data in *. cbn [mbind list_bind f_Type f_Data]. by rewrite Hd.
Qed.

(** C18: what is typed reaches the shell.  However the keyboard's bytes are split into reads, however
    window changes fall between them and however the stream splits the frames, the shell gets
    exactly the bytes typed up to the escape sequence, in order, and every window size in turn; and
    when the escape sequence is typed, a prefix of the bytes and the sizes up to it. *)
Theorem pty_keystrokes `{!Writer W, !WriterLaws W, !WriterReliable W, !Reader R, !ReaderLaws R,
    !Writer T, !WriterLaws T, !WriterReliable T} (w : W) size events (r : R) (terminal : T) fuel :
  let c := client_run w size events in
  Forall event_ok events -> w_sink w = [] -> r_rest r = w_sink (cl_stream c) -> (length (r_rest r) < fuel)%nat ->
  exists terminal',
    shell_input fuel r terminal [] = Some (r_end r, terminal', window size ++ sizes_until false events) /\
    match keys_ref false (keyboard_bytes events) with
    | (out, More _) => w_sink terminal' = w_sink terminal ++ out /\ sizes_until false events = window_sizes events
    | (out, Quit) => exists sent, sent `prefix_of` out /\ w_sink terminal' = w_sink terminal ++ sent /\
        cl_closedWrite c = true
    end.
Proof.
  intros c Hev Hw Hr Hfuel. destruct (sendResize_frames size w) as (fr & Hok & Hs & Hd & Hz). rewrite Hw in Hs.
  destruct (typing_frames events (mkClient (Typing false) (sendResize size w) false) false Hev eq_refl eq_refl)
    as (fr2 & Hok2 & Hs2 & Hz2 & Hd2). fold c in Hs2, Hd2. cbn [cl_stream] in Hs2.
  assert (r_rest r = mjoin (PtyFrames.encode <$> (fr ++ fr2))) as Hrest.
  { rewrite Hr. unfold c, client_run. rewrite Hs2, Hs, fmap_app, join_app. done. }
  pose proof (length_frames (fr ++ fr2)) as Hlen. rewrite <- Hrest in Hlen.
  destruct (shell_input_frames (fr ++ fr2) fuel r terminal []) as (t' & Hsh & Ht); [by apply Forall_app|done|lia|].
  exists t'. rewrite Hsh. unfold frame_sizes, frame_data in *.
  rewrite bind_app, Hz, Hz2. split; [done|]. rewrite bind_app, Hd in Ht. simpl in Ht.
  destruct (keys_ref false (keyboard_bytes events)) as [out [p|]] eqn:Ek; destruct Hd2 as [Hd2 Hcl].
  { split; [by rewrite Ht, Hd2|by eapply sizes_until_all]. }
  exists (fr2 ≫= fun f => if bool_decide (f_Type f = FrameData) then f_Data f else []). by split_and!.
Qed.

(** What the shell writes reaches the screen, all of it and in order, before the end of the
    session is seen; the end of the shell is no error on either side, and the shell is waited for
    and not killed. *)
Theorem pty_shell_output `{!Writer W, !WriterLaws W, !WriterReliable W, !Reader R, !ReaderLaws R,
    !Writer T, !WriterLaws T, !WriterReliable T} (w : W) reads err (r : R) (stdout : T) fuel :
  Forall (fun rd => blen (fst rd) <= 32 * 1024 /\ snd rd = None) reads -> isPTYEnd err = true ->
  w_sink w = [] -> r_rest r = w_sink (snd (shell_output (reads ++ [([], Some err)]) w)) -> r_end r = EOF ->
  (length (r_rest r) < fuel)%nat ->
  fst (shell_output (reads ++ [([], Some err)]) w) = Some err /\
  PTYServer_end (ServerResult err true) None = ([CloseWrite; Wait], None) /\
  exists stdout', client_display fuel r stdout = Some (EOF, stdout') /\
    w_sink stdout' = w_sink stdout ++ mjoin (fst <$> reads) /\ PTYClient_result (ClientResult (Some EOF)) = None.
Proof.
  intros Hreads Herr Hw Hr He Hfuel. rewrite Forall_and in Hreads. destruct Hreads as [Hl Hn].
  destruct (shell_output_frames reads w err Hl Hn) as (fr & w' & E & Hok & Hs & Hd). rewrite E in *. cbn [fst snd] in *.
  rewrite Hw in Hs. simpl in Hs. rewrite Hs in Hr. split; [done|]. split; [simpl; by rewrite Herr|].
  pose proof (length_frames fr) as Hlen. rewrite <- Hr in Hlen.
  destruct (client_display_frames fr fuel r stdout Hok Hr) as (o' & Hdis & Ho); [lia|].
  exists o'. rewrite Hdis, He, Ho, Hd. by split_and!.
Qed.

(** Typed bytes that arrive in the same read as the escape sequence are dropped. *)
Lemma pty_quit_discards `{!Writer W} (w : W) keys :
  escapeByte ∉ keys ->
  read_keys false (mkClient (Typing false) w false) (keys ++ [escapeByte; quitByte]) None =
  mkClient (Finished None) w true.
Proof.
  intros Hk. unfold read_keys. destruct (keys ++ [escapeByte; quitByte]) eqn:E; [by destruct keys|]. rewrite <- E.
  rewrite filter_keys_ref, keys_ref_app.
  assert (forall l, escapeByte ∉ l -> keys_ref false l = (l, More false)) as ->; [|done|done].
  clear. induction l as [|key l IH]; simpl; [done|]. intros Hn. apply not_elem_of_cons in Hn as [Hb Hn].
  rewrite bool_decide_false by congruence. by rewrite IH.
Qed.

(** ** Witnesses *)

Module PtyWitness.
(** "ls", Ctrl-E and a return in two reads, a window change, then "q". *)
Definition events : list key_event :=
  [EvRead [x6c; x73; x05] None; EvResize (Some (80, 0)); EvRead [x0d; x71] None].
Definition wire : peer := mkPeer [] 2 EOF [].
Definition sent : list byte := Eval vm_compute in w_sink (cl_stream (client_run wire (Some (100, 40)) events)).

Lemma pty_keystrokes_witness :
  exists terminal',
    shell_input 100 (mkPeer sent 2 EOF []) wire [] = Some (EOF, terminal', [(100, 40); (80, 1)]) /\
    w_sink terminal' = [x6c; x73; x05; x0d; x71].
Proof.
  destruct (pty_keystrokes wire (Some (100, 40)) events (mkPeer sent 2 EOF []) wire 100) as (t' & H & Ht).
  - repeat constructor; by vm_compute.
  - reflexivity.
  - vm_compute. reflexivity.
  - vm_compute. lia.
  - exists t'. split; [exact H|]. vm_compute in Ht. exact (proj1 Ht).
Defined.

Definition shell_reads : list (list byte * option error) := [([x6f; x6b], None); ([], None); ([x0a], None)].

Lemma pty_shell_output_witness :
  exists stdout', client_display 100 (mkPeer (w_sink (snd (shell_output (shell_reads ++ [([], Some EIO)]) wire))) 0 EOF []) wire =
      Some (EOF, stdout') /\ w_sink stdout' = [x6f; x6b; x0a].
Proof.
  destruct (pty_shell_output wire shell_reads EIO
    (mkPeer (w_sink (snd (shell_output (shell_reads ++ [([], Some EIO)]) wire))) 0 EOF []) wire 100) as (_ & _ & o' & H & Ho & _).
  - repeat constructor; by vm_compute.
  - reflexivity.
  - reflexivity.
  - reflexivity.
  - reflexivity.
  - vm_compute. lia.
  - exists o'. split; [exact H|exact Ho].
Defined.
End PtyWitness.
