(* ===== verification/PubSub.v ===== *)
(** Peer discovery over GossipSub (p2p/pubsub_discovery.go): the records that nodes announce, what is
    published, and what a node takes from the messages it receives. *)
From S2P Require Export RouteRecord.
From S2P Require Import ExtModel.
Local Open Scope Z_scope.

(** ** The libraries *)

(** protowire: [AppendTag] and [AppendBytes] extend a buffer, [ConsumeTag] and [ConsumeBytes] return
    what they read and how many bytes it took. *)
Class Protowire := {
  AppendTag : list byte -> Z -> Z -> list byte;
  AppendBytes : list byte -> list byte -> list byte;
  ConsumeTag : list byte -> result (Z * Z * nat);
  ConsumeBytes : list byte -> result (list byte * nat)
}.

(** [protowire.BytesType]. *)
Definition BytesType : Z := 2.

Class ProtowireLaws `{!Protowire} : Prop := {
  AppendTag_app b n t : AppendTag b n t = b ++ AppendTag [] n t;
  AppendBytes_app b v : AppendBytes b v = b ++ AppendBytes [] v;
  ConsumeTag_Append n rest : 1 <= n <= 15 ->
    ConsumeTag (AppendTag [] n BytesType ++ rest) = Ok (n, BytesType, length (AppendTag [] n BytesType));
  ConsumeBytes_Append v rest : blen v < 2 ^ 31 ->
    ConsumeBytes (AppendBytes [] v ++ rest) = Ok (v, length (AppendBytes [] v));
  ConsumeTag_count b n t c : ConsumeTag b = Ok (n, t, c) -> (0 < c <= length b)%nat;
  ConsumeBytes_count b v c : ConsumeBytes b = Ok (v, c) -> (c <= length b)%nat;
  length_AppendBytes v : (length v <= length (AppendBytes [] v))%nat
}.

(** The binary form of addresses. *)
Class AddrBytes `{!Libp2p} := {
  ma_Bytes : Multiaddr -> list byte;
  NewMultiaddrBytes : list byte -> result Multiaddr
}.
Class AddrBytesLaws `{!Libp2p, !AddrBytes} : Prop :=
  NewMultiaddrBytes_Bytes : forall m, NewMultiaddrBytes (ma_Bytes m) = Ok m.

(** ** Records *)

Definition PubSubDiscoveryInterval : Z := 10 * Second.
Definition maxPubSubRecordBytes : Z := 64 * 1024.
Definition maxPubSubAddresses : Z := 64.

Section pubsub.
Context `{LP : !Libp2p, KS : !Keys, PW : !Protowire, AB : !AddrBytes}.

Record decodedPubSubPeerRecord := mkDecoded { dr_publicKey : PubKey; dr_addresses : list Multiaddr }.

(** The loop over the addresses of the host. *)
Fixpoint append_addresses (index : Z) (output : list byte) (addresses : list Multiaddr) : list byte :=
  match addresses with
  | [] => output
  | address :: addresses =>
      if maxPubSubAddresses <=? index then output
      else
        let output := AppendTag output 2 BytesType in
        let output := AppendBytes output (ma_Bytes address) in
        append_addresses (index + 1) output addresses
  end.

(** [encodePubSubPeerRecord]; [publicKey] is what the peer store has for the host, [addresses] are
    [h.Addrs()]. *)
Definition encodePubSubPeerRecord (publicKey : option PubKey) (addresses : list Multiaddr) : result (list byte) :=
  match publicKey with
  | None => Err (ErrNew "local PeerId does not contain a public key")
  | Some publicKey =>
      publicBytes ← MarshalPublicKey publicKey;
      let output := AppendTag [] 1 BytesType in
      let output := AppendBytes output publicBytes in
      let output := append_addresses 0 output addresses in
      refuse (maxPubSubRecordBytes <? blen output)
        (Errorf "GossipSub peer record exceeds %d bytes" [AInt maxPubSubRecordBytes]);;
      Ok output
  end.

(** The loop over the fields; [None] when the fuel is spent. *)
Fixpoint decode_record_fields (fuel : nat) (input publicBytes : list byte) (addresses : list Multiaddr)
    : option (result (list byte * list Multiaddr)) :=
  match input with
  | [] => Some (Ok (publicBytes, addresses))
  | _ =>
      match fuel with
      | O => None
      | S fuel =>
          match ConsumeTag input with
          | Err err => Some (Err err)
          | Ok (number, wireType, count) =>
              let input := drop count input in
              if negb (wireType =? BytesType)
              then Some (Err (ErrNew "GossipSub peer record contains a field with the wrong wire type"))
              else match ConsumeBytes input with
              | Err err => Some (Err err)
              | Ok (value, valueCount) =>
                  let input := drop valueCount input in
                  if number =? 1 then decode_record_fields fuel input value addresses
                  else if number =? 2 then
                    if maxPubSubAddresses <=? Z.of_nat (length addresses)
                    then Some (Err (ErrNew "GossipSub peer record contains too many addresses"))
                    else match NewMultiaddrBytes value with
                    | Err err => Some (Err (Wrapf "GossipSub multiaddr: %w" [] err))
                    | Ok address => decode_record_fields fuel input publicBytes (addresses ++ [address])
                    end
                  else decode_record_fields fuel input publicBytes addresses
              end
          end
      end
  end.

Definition decodePubSubPeerRecord (fuel : nat) (input : list byte) : option (result decodedPubSubPeerRecord) :=
  if (blen input =? 0) || (maxPubSubRecordBytes <? blen input)
  then Some (Err (ErrNew "invalid GossipSub peer record size"))
  else match decode_record_fields fuel input [] [] with
  | None => None
  | Some (Err err) => Some (Err err)
  | Some (Ok (publicBytes, addresses)) => Some (
      refuse (blen publicBytes =? 0) (ErrNew "GossipSub peer record does not contain a public key");;
      publicKey ← map_err (Wrapf "GossipSub public key: %w" []) (UnmarshalPublicKey publicBytes);
      Ok (mkDecoded publicKey addresses))
  end.

(** ** The node *)

(** A message of the topic: [GetFrom], which GossipSub has verified, and [Data]. *)
Record message := mkMessage { msg_from : string; msg_data : list byte }.

(** What the peer store is told: a peer and its addresses, with a temporary lifetime. *)
Definition sighting : Type := string * list Multiaddr.

(** [consumePubSubDiscovery], one message. *)
Definition consume_message (self : string) (m : message) : option sighting :=
  match decodePubSubPeerRecord (length (msg_data m)) (msg_data m) with
  | Some (Ok record) =>
      match IDFromPublicKey (dr_publicKey record) with
      | Ok peerID =>
          if bool_decide (peerID = self) || negb (bool_decide (msg_from m = peerID)) then None
          else Some (peerID, dr_addresses record)
      | Err _ => None
      end
  | _ => None
  end.

(** The loop ends with the first error of [subscription.Next]. *)
Fixpoint consumePubSubDiscovery (self : string) (next : list (result message)) : list sighting :=
  match next with
  | [] | Err _ :: _ => []
  | Ok m :: next => option_list (consume_message self m) ++ consumePubSubDiscovery self next
  end.

(** One [publish] of [publishPubSubDiscovery]: nothing while the topic has no peers. *)
Definition publish_once (peers : list string) (publicKey : option PubKey) (addresses : list Multiaddr)
    : option (result (list byte)) :=
  match peers with
  | [] => None
  | _ => Some (encodePubSubPeerRecord publicKey addresses)
  end.

(** What [startPubSub] meets and what it leaves on the node. *)
Record pubsub_env := mkPubsubEnv {
  pe_gossip : option error;
  pe_join : option error;
  pe_subscribe : option error
}.
Record pubsub_state := mkPubsubState {
  ps_service : bool;          (** [n.PubSub] is set *)
  ps_joined : bool;           (** the topic is joined and not closed *)
  ps_subscribed : bool;       (** the subscription is not cancelled *)
  ps_topic : bool;            (** [n.pubsubTopic] is set *)
  ps_subscription : bool;     (** [n.pubsubSubscription] is set *)
  ps_interval : option Z      (** the goroutines run, with this interval *)
}.

(** [topic.Close()]. *)
Definition topic_Close (ps : pubsub_state) : pubsub_state :=
  mkPubsubState (ps_service ps) false (ps_subscribed ps) (ps_topic ps) (ps_subscription ps) (ps_interval ps).

Definition startPubSub (env : pubsub_env) (discover : bool) (interval : Z) : option error * pubsub_state :=
  match pe_gossip env with
  | Some err => (Some err, mkPubsubState false false false false false None)
  | None =>
      let ps := mkPubsubState true false false false false None in
      if negb discover then (None, ps)
      else match pe_join env with
      | Some err => (Some err, ps)
      | None =>
          let ps := mkPubsubState true true false false false None in
          match pe_subscribe env with
          | Some err => (Some err, topic_Close ps)
          | None =>
              let interval := if interval <=? 0 then PubSubDiscoveryInterval else interval in
              (None, mkPubsubState true true true true true (Some interval))
          end
      end
  end.

(** ** Lemmas *)

Context `{KSL : !KeysLaws, PWL : !ProtowireLaws, ABL : !AddrBytesLaws}.

(** One field of a record. *)
Definition field_bytes (number : Z) (value : list byte) : list byte :=
  AppendTag [] number BytesType ++ AppendBytes [] value.

Definition address_fields (addresses : list Multiaddr) : list byte :=
  addresses ≫= fun a => field_bytes 2 (ma_Bytes a).

Lemma address_fields_cons a addresses :
  address_fields (a :: addresses) = field_bytes 2 (ma_Bytes a) ++ address_fields addresses.
Proof. done. Qed.

Lemma append_addresses_fields index output addresses :
  0 <= index ->
  append_addresses index output addresses =
  output ++ address_fields (take (Z.to_nat (maxPubSubAddresses - index)) addresses).
Proof.
  revert index output. induction addresses as [|a addresses IH]; intros index output Hi; cbn [append_addresses].
  { rewrite take_nil. by rewrite app_nil_r. }
  destruct (Z.leb_spec maxPubSubAddresses index).
  - replace (Z.to_nat _) with 0%nat by lia. by rewrite app_nil_r.
  - rewrite IH by lia. replace (Z.to_nat (maxPubSubAddresses - index)) with (S (Z.to_nat (maxPubSubAddresses - (index + 1)))) by lia.
    cbn [take]. rewrite address_fields_cons. unfold field_bytes.
    rewrite AppendBytes_app, (AppendTag_app output). by rewrite <- !app_assoc.
Qed.

(** A field at the head of the input is taken off. *)
Lemma decode_field number value rest fuel publicBytes addresses :
  1 <= number <= 15 -> blen value < 2 ^ 31 ->
  decode_record_fields (S fuel) (field_bytes number value ++ rest) publicBytes addresses =
  if number =? 1 then decode_record_fields fuel rest value addresses
  else if number =? 2 then
    if maxPubSubAddresses <=? Z.of_nat (length addresses)
    then Some (Err (ErrNew "GossipSub peer record contains too many addresses"))
    else match NewMultiaddrBytes value with
    | Err err => Some (Err (Wrapf "GossipSub multiaddr: %w" [] err))
    | Ok address => decode_record_fields fuel rest publicBytes (addresses ++ [address])
    end
  else decode_record_fields fuel rest publicBytes addresses.
Proof.
  intros Hn Hv. unfold field_bytes. rewrite <- app_assoc. cbn [decode_record_fields].
  pose proof (ConsumeTag_Append number (AppendBytes [] value ++ rest) Hn) as HT.
  pose proof (ConsumeTag_count _ _ _ _ HT) as Hc. rewrite HT.
  destruct (AppendTag [] number BytesType ++ AppendBytes [] value ++ rest) eqn:E; [simpl in Hc; lia|]. rewrite <- E.
  rewrite drop_app_length, Z.eqb_refl. cbn [negb]. by rewrite ConsumeBytes_Append, drop_app_length.
Qed.

Lemma decode_address_fields addresses fuel publicBytes acc :
  Z.of_nat (length acc + length addresses) <= maxPubSubAddresses ->
  Forall (fun a => blen (ma_Bytes a) < 2 ^ 31) addresses -> (length addresses <= fuel)%nat ->
  decode_record_fields fuel (address_fields addresses) publicBytes acc =
  Some (Ok (publicBytes, acc ++ addresses)).
Proof.
  revert fuel acc. induction addresses as [|a addresses IH]; intros fuel acc Hn Hs Hf.
  { destruct fuel; simpl; by rewrite app_nil_r. }
  apply Forall_cons in Hs as [Ha Hs]. destruct fuel as [|fuel]; [simpl in Hf; lia|].
  rewrite address_fields_cons. cbn [length] in *. rewrite decode_field by (done || lia).
  change (2 =? 1) with false. change (2 =? 2) with true. cbv iota.
  rewrite (proj2 (Z.leb_gt _ _)) by lia. rewrite NewMultiaddrBytes_Bytes.
  etransitivity; [apply (IH fuel (acc ++ [a])); [rewrite length_app; simpl; lia|done|lia]|].
  by rewrite <- app_assoc.
Qed.

(** The fuel is enough: every field takes a byte at least. *)
Lemma decode_record_fields_total fuel input publicBytes addresses :
  (length input <= fuel)%nat -> decode_record_fields fuel input publicBytes addresses <> None.
Proof.
  revert input publicBytes addresses. induction fuel as [|fuel IH]; intros [|b input] pb acc Hf; simpl; try done.
  - simpl in Hf. lia.
  - destruct (ConsumeTag (b :: input)) as [[[number wireType] count]|] eqn:E; [|done].
    apply ConsumeTag_count in E. destruct (negb _); [done|].
    destruct (ConsumeBytes _) as [[value valueCount]|]; [|done].
    assert (length (drop valueCount (drop count (b :: input))) <= fuel)%nat
      by (rewrite !length_drop; simpl in *; lia).
    destruct (number =? 1); [by apply IH|]. destruct (number =? 2); [|by apply IH].
    destruct (_ <=? _); [done|]. destruct (NewMultiaddrBytes value); [by apply IH|done].
Qed.

Lemma decode_record_fields_bound fuel input publicBytes addresses pb out :
  Z.of_nat (length addresses) <= maxPubSubAddresses ->
  decode_record_fields fuel input publicBytes addresses = Some (Ok (pb, out)) -> Z.of_nat (length out) <= maxPubSubAddresses.
Proof.
  revert input publicBytes addresses. induction fuel as [|fuel IH]; intros [|b input] pb0 acc Ha; simpl; try done.
  - by intros [= <- <-].
  - by intros [= <- <-].
  - destruct (ConsumeTag (b :: input)) as [[[number wireType] count]|]; [|done].
    destruct (negb _); [done|]. destruct (ConsumeBytes _) as [[value valueCount]|]; [|done].
    destruct (number =? 1); [by apply IH|]. destruct (number =? 2); [|by apply IH].
    destruct (Z.leb_spec maxPubSubAddresses (Z.of_nat (length acc))); [done|].
    destruct (NewMultiaddrBytes value); [|done]. apply IH. rewrite length_app. simpl. lia.
Qed.

Lemma blen_field_bytes number value : blen value <= blen (field_bytes number value).
Proof. unfold field_bytes, blen. rewrite length_app. pose proof (length_AppendBytes value). lia. Qed.

Lemma field_bytes_nonempty number value : 1 <= number <= 15 -> (1 <= length (field_bytes number value))%nat.
Proof.
  intros Hn. pose proof (ConsumeTag_count _ _ _ _ (ConsumeTag_Append number [] Hn)).
  unfold field_bytes. rewrite length_app. lia.
Qed.

Lemma address_fields_size addresses :
  Forall (fun a => blen (ma_Bytes a) <= blen (address_fields addresses)) addresses /\
  (length addresses <= length (address_fields addresses))%nat.
Proof.
  induction addresses as [|a addresses [IH1 IH2]]; [done|]. rewrite address_fields_cons, length_app, blen_app.
  pose proof (blen_field_bytes 2 (ma_Bytes a)). pose proof (blen_nonneg (field_bytes 2 (ma_Bytes a))).
  pose proof (blen_nonneg (address_fields addresses)). pose proof (field_bytes_nonempty 2 (ma_Bytes a) ltac:(lia)).
  cbn [length]. split; [|lia]. constructor; [lia|]. eapply Forall_impl; [exact IH1|]. intros ? ?. simpl in *. lia.
Qed.

Lemma decodePubsub_encode pk addresses record :
  encodePubSubPeerRecord (Some pk) addresses = Ok record -> MarshalPublicKey pk <> Ok [] ->
  decodePubSubPeerRecord (length record) record =
    Some (Ok (mkDecoded pk (take (Z.to_nat maxPubSubAddresses) addresses))).
Proof.
  intros HE Hne. unfold encodePubSubPeerRecord in HE. apply bind_Ok in HE as (publicBytes & Hm & HE).
  rewrite seq_Ok, is_ok_refuse, Z.ltb_ge in HE. destruct HE as [Hsize [= Hrec]].
  rewrite append_addresses_fields in Hrec by lia. rewrite Z.sub_0_r, AppendBytes_app in Hrec.
  fold (field_bytes 1 publicBytes) in Hrec. rewrite append_addresses_fields, Z.sub_0_r, AppendBytes_app in Hsize by lia.
  fold (field_bytes 1 publicBytes) in Hsize. set (sent := take (Z.to_nat maxPubSubAddresses) addresses) in *.
  rewrite Hrec in Hsize.
  assert (blen publicBytes <= blen record) as Hpb.
  { rewrite <- Hrec. pose proof (blen_field_bytes 1 publicBytes). rewrite blen_app. pose proof (blen_nonneg (address_fields sent)). lia. }
  assert (Forall (fun a => blen (ma_Bytes a) < 2 ^ 31) sent /\ (S (length sent) <= length record)%nat) as [Hall Hcount].
  { destruct (address_fields_size sent) as [Hf Hc]. unfold maxPubSubRecordBytes in Hsize.
    rewrite <- Hrec, blen_app in Hsize. pose proof (blen_nonneg (field_bytes 1 publicBytes)). split.
    - eapply Forall_impl; [exact Hf|]. intros a Ha. simpl in Ha. lia.
    - rewrite <- Hrec, length_app. pose proof (field_bytes_nonempty 1 publicBytes ltac:(lia)). lia. }
  unfold decodePubSubPeerRecord.
  assert (blen record <> 0) by (unfold blen; lia).
  rewrite (proj2 (Z.eqb_neq _ _)), (proj2 (Z.ltb_ge _ _)) by done. cbn [orb].
  destruct (length record) as [|fuel] eqn:El; [lia|]. rewrite <- Hrec, decode_field by (unfold maxPubSubRecordBytes in *; lia).
  change (1 =? 1) with true. cbv iota. rewrite decode_address_fields.
  - assert (publicBytes <> []) by congruence.
    rewrite (proj2 (Z.eqb_neq _ _)) by (unfold blen; destruct publicBytes; simpl; [done|lia]).
    cbn [refuse mbind result_bind]. by rewrite (UnmarshalPublicKey_Marshal _ _ Hm).
  - unfold sent. simpl. rewrite length_take. unfold maxPubSubAddresses. lia.
  - done.
  - lia.
Qed.

(** C30: discovery over GossipSub.  A record that a node announces is taken by every other node as the
    announcer's first 64 addresses; and whatever a node tells its peer store comes from a message
    that GossipSub attributes to the very peer it is stored for, with the peer's own key in it, is
    never about the node itself, and has at most 64 addresses. *)
Theorem pubsub_discovery self pk id addresses record next peerID learned :
  encodePubSubPeerRecord (Some pk) addresses = Ok record -> MarshalPublicKey pk <> Ok [] ->
  IDFromPublicKey pk = Ok id -> id <> self ->
  consume_message self (mkMessage id record) = Some (id, take (Z.to_nat maxPubSubAddresses) addresses) /\
  ((peerID, learned) ∈ consumePubSubDiscovery self next ->
    exists m r, Ok m ∈ next /\ decodePubSubPeerRecord (length (msg_data m)) (msg_data m) = Some (Ok r) /\
      msg_from m = peerID /\ IDFromPublicKey (dr_publicKey r) = Ok peerID /\ peerID <> self /\
      learned = dr_addresses r /\ Z.of_nat (length learned) <= maxPubSubAddresses).
Proof.
  intros HE Hne Hid Hself. split.
  - unfold consume_message. cbn [msg_data msg_from]. rewrite (decodePubsub_encode _ _ _ HE Hne). cbn [dr_publicKey dr_addresses].
    rewrite Hid, bool_decide_false, bool_decide_true by done. done.
  - induction next as [|[m|e] next IH]; cbn [consumePubSubDiscovery]; [by intros ?%elem_of_nil| |by intros ?%elem_of_nil].
    intros [Hm|Hm]%elem_of_app.
    + exists m. destruct (consume_message self m) as [x|] eqn:Hx; [|by apply elem_of_nil in Hm].
      apply list_elem_of_singleton in Hm as <-. unfold consume_message in Hx.
      destruct (decodePubSubPeerRecord _ _) as [[r|]|] eqn:Ed; try done. exists r.
      destruct (IDFromPublicKey (dr_publicKey r)) as [p|] eqn:Ep; [|done].
      case_bool_decide as H1; [done|]. case_bool_decide as H2; [|done]. simpl in Hx. injection Hx as <- <-.
      split_and!; try done; [by left|]. unfold decodePubSubPeerRecord in Ed. destruct (_ || _); [done|].
      destruct (decode_record_fields _ _ _ _) as [[[pb out]|]|] eqn:Ef; try done. injection Ed as Ed. inv_ok.
      eapply decode_record_fields_bound; [|exact Ef]. done.
    + destruct (IH Hm) as (m' & r & Hin & H). exists m', r. split; [by right|done].
Qed.

(** Decoding always ends. *)
Lemma decodePubSubPeerRecord_total input : decodePubSubPeerRecord (length input) input <> None.
Proof.
  unfold decodePubSubPeerRecord. destruct (_ || _); [done|].
  pose proof (decode_record_fields_total (length input) input [] [] ltac:(lia)).
  destruct (decode_record_fields _ _ _ _) as [[[pb out]|]|]; done.
Qed.
End pubsub.

(** ** Witnesses *)

Module PubSubWitness.
Import Ref.

(** One byte of tag and four of length. *)
#[export] Instance protowire : Protowire := {|
  AppendTag b n t := b ++ [Z_byte (n * 8 + t)];
  AppendBytes b v := b ++ put_be 4 (blen v) ++ v;
  ConsumeTag b := match b with [] => Err ErrUnexpectedEOF | c :: _ => Ok (byte_Z c / 8, byte_Z c mod 8, 1%nat) end;
  ConsumeBytes b :=
    let n := Z.to_nat (get_be (take 4 b)) in
    if bool_decide (4 + n <= length b)%nat then Ok (take n (drop 4 b), (4 + n)%nat) else Err ErrUnexpectedEOF
|}.

#[export] Instance protowire_laws : ProtowireLaws.
Proof.
  split.
  - done.
  - done.
  - intros n rest Hn. cbn [AppendTag ConsumeTag protowire app length]. unfold BytesType. rewrite byte_Z_byte.
    rewrite Z.mod_small by lia. do 3 f_equal; Z.to_euclidean_division_equations; lia.
  - intros v rest Hv. cbn [AppendBytes ConsumeBytes protowire app]. rewrite <- app_assoc.
    rewrite take_app_length', drop_app_length' by (by rewrite length_put_be).
    pose proof (blen_nonneg v). rewrite get_put_be, Z.mod_small by lia. unfold blen. rewrite Nat2Z.id.
    rewrite bool_decide_true by (rewrite !length_app, length_put_be; lia).
    rewrite take_app_length, length_app, length_put_be. done.
  - intros [|b0 b] n t c; [done|]. intros [= <- <- <-]. simpl. lia.
  - intros b v c. cbn [ConsumeBytes protowire]. case_bool_decide; [|done]. by intros [= <- <-].
  - intros v. cbn [AppendBytes protowire app]. rewrite length_app. lia.
Qed.

#[export] Instance addr_bytes : AddrBytes := {|
  ma_Bytes (m : @Multiaddr libp2p) := bytes_of m;
  NewMultiaddrBytes b := Ok (string_of b : @Multiaddr libp2p)
|}.
#[export] Instance addr_bytes_laws : AddrBytesLaws.
Proof. intros m. cbn [NewMultiaddrBytes ma_Bytes addr_bytes]. by rewrite string_of_bytes_of. Qed.

Definition pk : PubKey := [x01; x02].
Definition addresses : list Multiaddr := ["/ip4/10.0.0.1/tcp/9"; "/ip4/10.0.0.2/tcp/9"].
Definition record : list byte :=
  Eval vm_compute in match encodePubSubPeerRecord (Some pk) addresses with Ok r => r | Err _ => [] end.

(** A message with a stolen record is ignored; the announcer's own counts. *)
Lemma pubsub_discovery_witness :
  consume_message "0203" (mkMessage "0102" record) = Some ("0102", addresses) /\
  exists m r, Ok m ∈ [Ok (mkMessage "ff" record); Ok (mkMessage "0102" record)] /\
    decodePubSubPeerRecord (length (msg_data m)) (msg_data m) = Some (Ok r) /\
    msg_from m = "0102" /\ IDFromPublicKey (dr_publicKey r) = Ok "0102" /\ "0102" <> "0203" /\
    addresses = dr_addresses r /\ Z.of_nat (length addresses) <= maxPubSubAddresses.
Proof.
  destruct (pubsub_discovery "0203" pk "0102" addresses record
    [Ok (mkMessage "ff" record); Ok (mkMessage "0102" record)] "0102" addresses) as [H1 H2];
    [vm_compute; reflexivity|discriminate|vm_compute; reflexivity|discriminate|].
  split; [exact H1|]. apply H2. vm_compute. by left.
Defined.
End PubSubWitness.
