(* ===== verification/RunCommand.v ===== *)
(** The command [run] (internal/cli/run_command.go): the daemon of a configuration file, and the
    watcher that reloads it when the file changes. *)
From S2P Require Export DaemonStreams.
From S2P Require Import ExtModel.
Local Open Scope Z_scope.

(** [os.ReadFile] and the YAML library's view of the bytes. *)
Definition file_contents : Type := result (result Config).

Definition loadTunnelConfigFile (data : file_contents) : result Config :=
  decoded ← map_err (Wrapf "read config: %w" []) data;
  Parse decoded.

Section run.
Context `{PL : !PortLocks L}.
Notation Daemon := (Daemon (L := L)).

(** What one tick meets: [os.Stat], the file when it is read, and what the reload meets. *)
Record watch_view := mkWatch {
  wv_stat : result Time;
  wv_data : file_contents;
  wv_env : start_env;
  wv_oldNames : list string;
  wv_newNames : list string
}.

Record watch_state := mkWatchState { ws_lastModified : Time; ws_daemon : Daemon }.

(** The body of the loop. *)
Definition watch_tick (st : watch_state) (v : watch_view) : watch_state :=
  match wv_stat v with
  | Err _ => st
  | Ok modified =>
      if negb (After modified (ws_lastModified st)) then st
      else match loadTunnelConfigFile (wv_data v) with
      | Err _ => mkWatchState modified (ws_daemon st)
      | Ok newCfg =>
          mkWatchState modified (snd (Reload (wv_env v) (ws_daemon st) (Some newCfg) (wv_oldNames v) (wv_newNames v)))
      end
  end.

(** [watchConfigFile] over the ticks until the context ends; [first] is the [os.Stat] before the
    loop. *)
Definition watchConfigFile (first : result Time) (d : Daemon) (ticks : list watch_view) : watch_state :=
  foldl watch_tick (mkWatchState (match first with Ok modified => modified | Err _ => zeroTime end) d) ticks.

(** [newRunCommand] until the context ends: the daemon runs before the watcher looks at the file for
    the first time, and is closed at the end, over the range of its handles. *)
Definition newRunCommand (locks : L) (configPath : string) (data : file_contents)
    (pathErr identityErr nodeErr : option error) (env : start_env) (watchInterval : Z)
    (first : result Time) (ticks : list watch_view) : result unit * Daemon :=
  match
    (refuse (bool_decide (configPath = "")) (Errorf "--config is required" []);;
     loadTunnelConfigFile data)
  with
  | Err err => (Err err, daemon_init locks (mkConfig "" [] None "" []) None)
  | Ok cfg =>
      match Run locks (Some cfg) pathErr identityErr nodeErr env with
      | (Err err, d) => (Err err, d)
      | (Ok _, d) =>
          let d := if 0 <? watchInterval then ws_daemon (watchConfigFile first d ticks) else d in
          (Ok tt, Close d (elements (dom (d_handles d))))
      end
  end.

Context `{PLL : !PortLocksLaws L}.

(** *** Lemmas *)

Lemma loadTunnelConfigFile_Ok data cfg :
  loadTunnelConfigFile data = Ok cfg <-> data = Ok (Ok cfg) /\ config_ok cfg.
Proof.
  unfold loadTunnelConfigFile, Parse. rewrite bind_Ok. setoid_rewrite bind_Ok. setoid_rewrite map_err_Ok. split.
  - intros (dec & -> & c & -> & H). rewrite seq_Ok, is_ok_unit, Config_Validate_Ok in H. destruct H as [H [= ->]]. done.
  - intros [-> H]. exists (Ok cfg). split; [done|]. exists cfg. split; [done|].
    by rewrite seq_Ok, is_ok_unit, Config_Validate_Ok.
Qed.

(** Ticks that see no newer file do nothing. *)
Lemma watch_ticks_old ticks st :
  Forall (fun v => match wv_stat v with Ok m => After m (ws_lastModified st) = false | Err _ => True end) ticks ->
  foldl watch_tick st ticks = st.
Proof.
  induction 1 as [|v ticks Hv _ IH]; [done|]. simpl. unfold watch_tick at 2.
  destruct (wv_stat v) as [m|]; [|done]. rewrite Hv. done.
Qed.

(** A tick leaves what a reload of a valid configuration leaves, or the daemon as it was. *)
Lemma watch_tick_cases st v :
  ws_daemon (watch_tick st v) = ws_daemon st \/
  exists cfg, wv_data v = Ok (Ok cfg) /\ config_ok cfg /\
    ws_daemon (watch_tick st v) = snd (Reload (wv_env v) (ws_daemon st) (Some cfg) (wv_oldNames v) (wv_newNames v)).
Proof.
  unfold watch_tick. destruct (wv_stat v) as [m|]; [|by left]. destruct (negb _); [by left|].
  destruct (loadTunnelConfigFile (wv_data v)) as [cfg|] eqn:E; [|by left].
  apply loadTunnelConfigFile_Ok in E as [Hd Hc]. right. by exists cfg.
Qed.

(** A tick at which the file cannot be inspected, read, parsed or validated. *)
Definition broken_tick (v : watch_view) : Prop :=
  match wv_stat v with Ok _ => is_ok (loadTunnelConfigFile (wv_data v)) = false | Err _ => True end.

(** The file of a tick is older than [m]. *)
Definition older_than (m : Time) (v : watch_view) : Prop :=
  match wv_stat v with Ok m' => After m m' = true | Err _ => True end.

Lemma watch_broken ticks st m :
  Forall broken_tick ticks -> Forall (older_than m) ticks -> After m (ws_lastModified st) = true ->
  ws_daemon (foldl watch_tick st ticks) = ws_daemon st /\
  After m (ws_lastModified (foldl watch_tick st ticks)) = true.
Proof.
  revert st. induction ticks as [|v ticks IH]; intros st Hb Hm Hl; [done|].
  apply Forall_cons in Hb as [Hbv Hb], Hm as [Hmv Hm]. simpl.
  assert (ws_daemon (watch_tick st v) = ws_daemon st /\ After m (ws_lastModified (watch_tick st v)) = true) as [Hd Ha].
  { unfold watch_tick, broken_tick, older_than in *. destruct (wv_stat v) as [m'|]; [|done].
    destruct (negb _); [done|]. by destruct (loadTunnelConfigFile (wv_data v)). }
  destruct (IH (watch_tick st v) Hb Hm Ha) as [H1 H2]. by rewrite H1, Hd.
Qed.

(** C27: an edit of the tunnels takes effect, and a bad edit does not.  Take a daemon whose handles are those of
    its configuration, as [Run] leaves it and every successful reload keeps it, and a reload that failed earlier
    may not.  While the file cannot be read or is not a valid configuration the daemon runs on unchanged; at the
    first tick that sees a newer valid file and whose reload succeeds it runs exactly the tunnels of the new
    configuration, each with all its fields, the tunnels that did not change left alone and the node as it was
    built at the start, so that a change of identity, relays, proxy or discovery has no effect; and it stays so
    while the file does not get newer. *)
Theorem watch_applies st broken v later m cfg d' :
  owned (ws_daemon st) -> sync (ws_daemon st) ->
  Forall broken_tick broken -> Forall (older_than m) broken -> After m (ws_lastModified st) = true ->
  wv_stat v = Ok m -> wv_data v = Ok (Ok cfg) -> config_ok cfg ->
  range_of (tunnelsByName (cf_Tunnels (d_cfg (ws_daemon st)))) (wv_oldNames v) ->
  range_of (tunnelsByName (cf_Tunnels cfg)) (wv_newNames v) ->
  Reload (wv_env v) (ws_daemon st) (Some cfg) (wv_oldNames v) (wv_newNames v) = (Ok tt, d') ->
  Forall (fun w => match wv_stat w with Ok m' => After m' m = false | Err _ => True end) later ->
  ws_daemon (foldl watch_tick st broken) = ws_daemon st /\
  foldl watch_tick st (broken ++ v :: later) = mkWatchState m d' /\
  owned d' /\ sync d' /\ d_cfg d' = cfg /\ d_node d' = d_node (ws_daemon st) /\
  (forall n t, tunnelsByName (cf_Tunnels (d_cfg (ws_daemon st))) !! n = Some t ->
     tunnelsByName (cf_Tunnels cfg) !! n = Some t ->
     d_handles d' !! n = d_handles (ws_daemon st) !! n /\
     forall h, d_handles (ws_daemon st) !! n = Some h -> keeps (ws_daemon st) d' h).
Proof.
  intros Ho Hs Hb Hbm Hl Hv Hd Hc Hr1 Hr2 HR Hlater.
  destruct (watch_broken broken st m Hb Hbm Hl) as [Hsame Hafter]. split; [done|]. split.
  - rewrite foldl_app. cbn [foldl]. set (st1 := foldl watch_tick st broken) in *.
    assert (watch_tick st1 v = mkWatchState m d') as ->.
    { unfold watch_tick. rewrite Hv, Hafter. cbn [negb].
      rewrite (proj2 (loadTunnelConfigFile_Ok _ _) (conj Hd Hc)). by rewrite Hsame, HR. }
    by apply watch_ticks_old.
  - by eapply Reload_Ok.
Qed.

(** An edit that the first [os.Stat] already sees, because it was made while the daemon was starting,
    is never applied: nor is a file put in place with an older modification time. *)
Lemma watch_missed_edit m d ticks :
  Forall (fun v => match wv_stat v with Ok m' => After m' m = false | Err _ => True end) ticks ->
  ws_daemon (watchConfigFile (Ok m) d ticks) = d.
Proof. intros H. unfold watchConfigFile. by rewrite watch_ticks_old. Qed.
End run.

(** ** Witnesses *)

Module RunCommandWitness.
Import DaemonWitness.

Definition view_at (stat : result Time) (data : file_contents) : watch_view :=
  mkWatch stat data works (byName before) (byName after).
Definition state0 : watch_state := mkWatchState (Unix 1700000000 0) running.
Definition broken : list watch_view :=
  [view_at (Err ErrNotExist) (Ok (Ok after)); view_at (Ok (Unix 1700000001 0)) (Ok (Err (ErrNew "yaml")));
   view_at (Ok (Unix 1700000002 0)) (Err ErrNotExist)].
Definition edited : watch_view := view_at (Ok (Unix 1700000003 0)) (Ok (Ok after)).
Definition reloaded := snd (Reload works running (Some after) (byName before) (byName after)).

Lemma watch_applies_witness :
  ws_daemon (foldl watch_tick state0 broken) = running /\
  sync (ws_daemon (foldl watch_tick state0 (broken ++ edited :: [edited; view_at (Err ErrNotExist) (Err ErrNotExist)]))) /\
  d_cfg (ws_daemon (foldl watch_tick state0 (broken ++ edited :: [edited; view_at (Err ErrNotExist) (Err ErrNotExist)]))) = after.
Proof.
  destruct running_ok as [Ho Hs].
  destruct (watch_applies state0 broken edited [edited; view_at (Err ErrNotExist) (Err ErrNotExist)]
    (Unix 1700000003 0) after reloaded) as (H1 & H2 & _ & H4 & H5 & _).
  - exact Ho.
  - exact Hs.
  - repeat constructor; vm_compute; reflexivity.
  - repeat constructor; vm_compute; reflexivity.
  - vm_compute. reflexivity.
  - reflexivity.
  - reflexivity.
  - apply Config_Validate_Ok. vm_compute. reflexivity.
  - apply names_range.
  - apply names_range.
  - vm_compute. reflexivity.
  - repeat constructor; vm_compute; reflexivity.
  - split; [exact H1|]. rewrite H2. split; [exact H4|exact H5].
Defined.
End RunCommandWitness.
