(* ===== verification/Paths.v ===== *)
(** Where the program keeps its files: [path/filepath] on Unix, internal/appdir/appdir.go and
    [identity.DefaultPath] (internal/identity/identity.go). *)
From S2P Require Export GoStrings.
Local Open Scope Z_scope.

(** ** [path/filepath] *)

Definition slash : byte := x2f.
Definition dotdot : list byte := [x2e; x2e].

(** The elements of a path between its separators. *)
Fixpoint split_slash (cur l : list byte) : list (list byte) :=
  match l with
  | [] => [cur]
  | b :: l => if bool_decide (b = slash) then cur :: split_slash [] l else split_slash (cur ++ [b]) l
  end.

(** One element of [Clean]; the stack has the last element first. *)
Definition clean_step (rooted : bool) (stack : list (list byte)) (part : list byte) : list (list byte) :=
  if bool_decide (part = [] \/ part = [x2e]) then stack
  else if bool_decide (part = dotdot) then
    match stack with
    | [] => if rooted then [] else [part]
    | top :: rest => if bool_decide (top = dotdot) then part :: stack else rest
    end
  else part :: stack.

(** A path as [Clean] understands it. *)
Record cleaned := mkCleaned { cp_rooted : bool; cp_parts : list (list byte) }.

Definition parse_path (l : list byte) : cleaned :=
  let rooted := match l with b :: _ => bool_decide (b = slash) | [] => false end in
  mkCleaned rooted (reverse (foldl (clean_step rooted) [] (split_slash [] l))).

Fixpoint join_slash (parts : list (list byte)) : list byte :=
  match parts with
  | [] => []
  | [part] => part
  | part :: parts => part ++ slash :: join_slash parts
  end.

Definition print_path (p : cleaned) : list byte :=
  if cp_rooted p then slash :: join_slash (cp_parts p)
  else match cp_parts p with [] => [x2e] | parts => join_slash parts end.

Definition Clean (path : string) : string := string_of (print_path (parse_path (bytes_of path))).
Definition IsAbs (path : string) : bool := HasPrefix path "/".

Fixpoint filepath_Join (elems : list string) : string :=
  match elems with
  | [] => ""
  | e :: rest =>
      if bool_decide (e = "") then filepath_Join rest
      else Clean (string_of (join_slash (bytes_of <$> elems)))
  end.

(** What precedes the last separator, and what follows it. *)
Definition last_split (l : list byte) : list byte * list byte :=
  let parts := split_slash [] l in
  (match reverse parts with _ :: ((_ :: _) as rest) => join_slash (reverse rest) ++ [slash] | _ => [] end,
   default [] (last parts)).

Definition filepath_Dir (path : string) : string := Clean (string_of (fst (last_split (bytes_of path)))).

(** ** [internal/appdir] *)

Definition DirName : string := "oobe".

(** What the process sees of the system. *)
Record dir_env := mkDirEnv {
  de_override : string;                       (** P2P_NETCAT_APPDIR *)
  de_executable : result string;
  de_evalSymlinks : string -> result string;
  de_cwd : result string;
  de_home : result string;
  de_mkdirAll : string -> option error;
  de_xdgConfigHome : string
}.

(** [filepath.Abs]. *)
Definition filepath_Abs (env : dir_env) (path : string) : result string :=
  if IsAbs path then Ok (Clean path)
  else cwd ← de_cwd env; Ok (filepath_Join [cwd; path]).

Definition ensureDir (env : dir_env) (dir : string) : result string :=
  absolute ← filepath_Abs env dir;
  match de_mkdirAll env absolute with
  | Some err => Err (Wrapf "create %s: %w" [AStr absolute] err)
  | None => Ok absolute
  end.

Definition Dir (env : dir_env) : result string :=
  if negb (bool_decide (de_override env = "")) then ensureDir env (de_override env)
  else match de_executable env with
  | Err err =>
      match de_cwd env with
      | Err _ => Err (Wrapf "resolve executable path: %w" [] err)
      | Ok cwd => ensureDir env (filepath_Join [cwd; DirName])
      end
  | Ok exePath =>
      let exePath := match de_evalSymlinks env exePath with Ok resolved => resolved | Err _ => exePath end in
      ensureDir env (filepath_Join [filepath_Dir exePath; DirName])
  end.

(** [path[2:]]. *)
Definition after_tilde (path : string) : string := string_of (drop 2 (bytes_of path)).

Definition ResolvePath (env : dir_env) (path : string) : result string :=
  let home := map_err (Wrapf "resolve home directory: %w" []) (de_home env) in
  if bool_decide (path = "") then Ok ""
  else if bool_decide (path = "~") then home
  else if HasPrefix path "~/" || HasPrefix path "~\" then
    home ← home; Ok (filepath_Join [home; after_tilde path])
  else if IsAbs path then Ok path
  else dir ← Dir env; Ok (filepath_Join [dir; path]).

(** [identity.DefaultPath]. *)
Definition DefaultPath (env : dir_env) : string :=
  match Dir env with
  | Ok dir => filepath_Join [dir; "identity.key"]
  | Err _ =>
      if bool_decide (de_xdgConfigHome env = "") then
        match de_home env with
        | Err _ => filepath_Join ["."; ".p2p-netcat"; "identity.key"]
        | Ok home => filepath_Join [filepath_Join [home; ".config"]; "p2p-netcat"; "identity.key"]
        end
      else filepath_Join [de_xdgConfigHome env; "p2p-netcat"; "identity.key"]
  end.

(** ** What [Clean] does *)

(** An ordinary element. *)
Definition plain_part (part : list byte) : Prop :=
  part <> [] /\ part <> [x2e] /\ part <> dotdot /\ slash ∉ part.

(** The elements of a cleaned path: upward steps first, and none below the root. *)
Definition canonical (p : cleaned) : Prop :=
  exists n rest, cp_parts p = replicate n dotdot ++ rest /\ Forall plain_part rest /\ (cp_rooted p = true -> n = 0%nat).

Lemma split_slash_parts cur l : slash ∉ cur -> Forall (fun part => slash ∉ part) (split_slash cur l).
Proof.
  revert cur. induction l as [|b l IH]; intros cur Hc; simpl; [by constructor|].
  case_bool_decide; [constructor; [done|]; apply IH; set_solver|]. apply IH. set_solver.
Qed.

Lemma split_slash_app cur l l' : split_slash cur (l ++ slash :: l') = split_slash cur l ++ split_slash [] l'.
Proof.
  revert cur. induction l as [|b l IH]; intros cur; simpl; [done|].
  case_bool_decide; simpl; by rewrite IH.
Qed.

Lemma split_slash_plain cur l : slash ∉ l -> split_slash cur l = [cur ++ l].
Proof.
  revert cur. induction l as [|b l IH]; intros cur Hl; simpl; [by rewrite app_nil_r|].
  apply not_elem_of_cons in Hl as [Hb Hl]. rewrite bool_decide_false by congruence. rewrite IH by done.
  by rewrite <- app_assoc.
Qed.

Lemma split_join parts : parts <> [] -> Forall (fun part => slash ∉ part) parts -> split_slash [] (join_slash parts) = parts.
Proof.
  induction parts as [|part [|part' parts] IH]; [done|..]; intros _ [Hp Hps]%Forall_cons.
  - by apply split_slash_plain.
  - change (join_slash (part :: part' :: parts)) with (part ++ slash :: join_slash (part' :: parts)).
    rewrite split_slash_app, split_slash_plain, IH by done. done.
Qed.

(** The stack of [Clean] has the shape of a cleaned path, read from its end. *)
Definition stack_ok (rooted : bool) (stack : list (list byte)) : Prop :=
  exists n rest, stack = rest ++ replicate n dotdot /\ Forall plain_part rest /\ (rooted = true -> n = 0%nat).

Lemma clean_step_ok rooted stack part :
  slash ∉ part -> stack_ok rooted stack -> stack_ok rooted (clean_step rooted stack part).
Proof.
  intros Hp (n & rest & -> & Hr & Hn). unfold clean_step. case_bool_decide as H1; [by exists n, rest|].
  case_bool_decide as H2.
  - subst part. destruct rest as [|top rest]; simpl.
    + destruct n as [|n]; simpl.
      * destruct rooted; [by exists 0%nat, []|by exists 1%nat, []].
      * exists (S (S n)), []. split_and!; [done|done|]. intros H. by specialize (Hn H).
    + apply Forall_cons in Hr as [Ht Hr]. rewrite bool_decide_false by apply Ht. by exists n, rest.
  - exists n, (part :: rest). split_and!; [done| |done]. constructor; [|done]. unfold plain_part. tauto.
Qed.

Lemma clean_steps_ok rooted parts stack :
  Forall (fun part => slash ∉ part) parts -> stack_ok rooted stack -> stack_ok rooted (foldl (clean_step rooted) stack parts).
Proof.
  intros Hp. revert stack. induction Hp as [|part parts Hp _ IH]; intros stack Hs; [done|].
  simpl. apply IH. by apply clean_step_ok.
Qed.

Lemma parse_path_canonical l : canonical (parse_path l).
Proof.
  unfold parse_path. set (rooted := match l with [] => false | _ :: _ => _ end).
  destruct (clean_steps_ok rooted (split_slash [] l) []) as (n & rest & E & Hr & Hn).
  - apply split_slash_parts. set_solver.
  - by exists 0%nat, [].
  - exists n, (reverse rest). cbn [cp_parts cp_rooted]. rewrite E, reverse_app, reverse_replicate.
    split_and!; [done|by apply Forall_reverse|done].
Qed.

(** Elements that [Clean] keeps. *)
Lemma clean_plain rooted stack parts :
  Forall plain_part parts -> foldl (clean_step rooted) stack parts = reverse parts ++ stack.
Proof.
  intros Hp. revert stack. induction Hp as [|part parts (H1 & H2 & H3 & _) _ IH]; intros stack; [done|].
  simpl. unfold clean_step at 2. rewrite !bool_decide_false by tauto. rewrite IH, reverse_cons. by rewrite <- app_assoc.
Qed.

Lemma clean_upward n stack :
  stack = replicate (length stack) dotdot ->
  foldl (clean_step false) stack (replicate n dotdot) = replicate n dotdot ++ stack.
Proof.
  revert stack. induction n as [|n IH]; intros stack Hs; [done|]. cbn [replicate foldl].
  assert (clean_step false stack dotdot = dotdot :: stack) as ->.
  { unfold clean_step. rewrite bool_decide_false by (intros [?|?]; done). rewrite bool_decide_true by done.
    destruct stack as [|top stack]; [done|]. simpl in Hs. injection Hs as -> _. by rewrite bool_decide_true. }
  rewrite IH by (simpl; by rewrite <- Hs). rewrite replicate_cons_app. by rewrite <- app_assoc.
Qed.

Lemma canonical_noslash p : canonical p -> Forall (fun part => slash ∉ part) (cp_parts p).
Proof.
  intros (n & rest & -> & Hr & _). apply Forall_app. split.
  - apply Forall_replicate. by apply (bool_decide_unpack _).
  - eapply Forall_impl; [exact Hr|]. by intros part (_ & _ & _ & ?).
Qed.

Lemma clean_canonical p : canonical p -> foldl (clean_step (cp_rooted p)) [] (cp_parts p) = reverse (cp_parts p).
Proof.
  destruct p as [rooted parts]. intros (n & rest & Hp & Hr & Hn). cbn [cp_parts cp_rooted] in *. subst parts.
  rewrite foldl_app, reverse_app. destruct rooted.
  - rewrite Hn by done. simpl. by apply clean_plain.
  - rewrite clean_upward by done. rewrite app_nil_r, clean_plain by done. by rewrite reverse_replicate.
Qed.

Lemma canonical_parts_nonempty p part parts : canonical p -> cp_parts p = part :: parts -> exists b l, part = b :: l /\ b <> slash.
Proof.
  intros Hc E. pose proof (canonical_noslash p Hc) as Hs. rewrite E in Hs. apply Forall_cons in Hs as [Hs _].
  destruct Hc as (n & rest & Hp & Hr & _). rewrite Hp in E.
  destruct part as [|b l]; [|exists b, l; split; [done|set_solver]]. exfalso. destruct n as [|n]; [|by simpl in E].
  simpl in E. subst rest. by apply Forall_cons in Hr as [[? _] _].
Qed.

(** Printing and parsing a cleaned path. *)
Lemma parse_print p : canonical p -> parse_path (print_path p) = p.
Proof.
  intros Hc. pose proof (canonical_noslash p Hc) as Hs. pose proof (clean_canonical p Hc) as Hcl.
  destruct p as [rooted parts]. cbn [cp_parts cp_rooted] in *. unfold print_path. cbn [cp_parts cp_rooted].
  destruct parts as [|part parts].
  { destruct rooted; by vm_compute. }
  destruct rooted.
  - unfold parse_path. cbn [split_slash]. rewrite !bool_decide_true by done.
    rewrite split_join by done.
    change (foldl (clean_step true) [] ([] :: part :: parts)) with (foldl (clean_step true) [] (part :: parts)).
    by rewrite Hcl, reverse_involutive.
  - destruct (canonical_parts_nonempty _ _ _ Hc eq_refl) as (b & l & -> & Hb).
    unfold parse_path. rewrite split_join by done.
    assert (match join_slash ((b :: l) :: parts) with b' :: _ => bool_decide (b' = slash) | [] => false end = false) as ->.
    { destruct parts; simpl; by rewrite bool_decide_false. }
    by rewrite Hcl, reverse_involutive.
Qed.

Lemma Clean_idempotent path : Clean (Clean path) = Clean path.
Proof. unfold Clean. rewrite bytes_of_string_of, parse_print; [done|apply parse_path_canonical]. Qed.

(** ** Where paths lead *)

Definition path_of (path : string) : cleaned := parse_path (bytes_of path).

Lemma path_of_Clean path : path_of (Clean path) = path_of path.
Proof. unfold path_of, Clean. rewrite bytes_of_string_of. apply parse_print, parse_path_canonical. Qed.

Lemma HasPrefix_bytes path p : HasPrefix path p = true <-> exists l, bytes_of path = bytes_of p ++ l.
Proof.
  unfold HasPrefix. destruct (cut_prefix (bytes_of p) (bytes_of path)) as [l|] eqn:E.
  - apply cut_prefix_Some in E. split; eauto.
  - split; [done|]. intros [l Hl]. by rewrite Hl, cut_prefix_app in E.
Qed.

Lemma IsAbs_cons path : IsAbs path = true <-> exists l, bytes_of path = slash :: l.
Proof. apply HasPrefix_bytes. Qed.

Lemma tilde_prefix path : HasPrefix path "~/" || HasPrefix path "~\" = true -> HasPrefix path "~" = true.
Proof.
  rewrite orb_true_iff, !HasPrefix_bytes. intros [[l ->]|[l ->]]; [exists (x2f :: l)|exists (x5c :: l)]; done.
Qed.

Lemma tilde_relative path : HasPrefix path "~/" || HasPrefix path "~\" = true -> IsAbs path = false.
Proof.
  intros H%tilde_prefix. apply not_true_is_false. rewrite IsAbs_cons. apply HasPrefix_bytes in H as [l Hl].
  intros [l' Hl']. rewrite Hl in Hl'. by vm_compute in Hl'.
Qed.

Lemma IsAbs_rooted path : IsAbs path = cp_rooted (path_of path).
Proof.
  apply eq_true_iff_eq. rewrite IsAbs_cons. unfold path_of, parse_path. cbn [cp_rooted].
  destruct (bytes_of path) as [|b l]; [split; [by intros [? ?]|done]|]. rewrite bool_decide_eq_true. naive_solver.
Qed.

Lemma IsAbs_nonempty path : IsAbs path = true -> path <> "".
Proof. intros H ->. done. Qed.

(** Without an upward step left over, elements are cleaned the same on top of anything. *)
Lemma clean_above parts rooted stack :
  dotdot ∉ foldl (clean_step false) [] parts ->
  foldl (clean_step rooted) stack parts = foldl (clean_step false) [] parts ++ stack.
Proof.
  induction parts as [|part parts IH] using rev_ind; [done|]. rewrite !foldl_snoc.
  set (s0 := foldl (clean_step false) [] parts) in *. intros H.
  assert (dotdot ∉ s0 /\ clean_step rooted (s0 ++ stack) part = clean_step false s0 part ++ stack) as [Hs Hstep].
  { unfold clean_step in *. case_bool_decide; [done|]. case_bool_decide as Hd.
    - destruct s0 as [|top rest]; [set_solver|]. simpl. case_bool_decide as Ht; [set_solver|]. split; [set_solver|done].
    - split; [set_solver|done]. }
  by rewrite IH.
Qed.

Lemma Join_cons dir path :
  dir <> "" -> filepath_Join [dir; path] = Clean (string_of (bytes_of dir ++ slash :: bytes_of path)).
Proof. intros H. cbn [filepath_Join]. by rewrite bool_decide_false. Qed.

Lemma Join_rooted dir path : IsAbs dir = true -> IsAbs (filepath_Join [dir; path]) = true.
Proof.
  intros H. rewrite Join_cons by by apply IsAbs_nonempty. rewrite IsAbs_rooted, path_of_Clean, <- IsAbs_rooted.
  apply IsAbs_cons in H as [l Hl]. apply IsAbs_cons. exists (l ++ slash :: bytes_of path).
  by rewrite bytes_of_string_of, Hl.
Qed.

(** A relative path that does not go up stays below the folder it is joined to. *)
Lemma Join_below dir path :
  IsAbs dir = true -> IsAbs path = false -> dotdot ∉ cp_parts (path_of path) ->
  path_of (filepath_Join [dir; path]) = mkCleaned true (cp_parts (path_of dir) ++ cp_parts (path_of path)).
Proof.
  intros Hd Hp Hup. rewrite Join_cons by by apply IsAbs_nonempty. rewrite path_of_Clean.
  rewrite IsAbs_rooted in Hp. apply IsAbs_cons in Hd as [l Hl].
  unfold path_of in *. rewrite bytes_of_string_of. unfold parse_path in *. rewrite Hl in *. cbn [cp_rooted cp_parts] in *.
  rewrite Hp in *. rewrite bool_decide_true by done. cbn [app]. f_equal.
  rewrite app_comm_cons, split_slash_app, foldl_app, <- reverse_app. f_equal.
  apply clean_above. by rewrite elem_of_reverse in Hup.
Qed.

Lemma ensureDir_rooted env dir r :
  (forall cwd, de_cwd env = Ok cwd -> IsAbs cwd = true) -> ensureDir env dir = Ok r -> IsAbs r = true.
Proof.
  intros Hc H. unfold ensureDir, filepath_Abs in H. apply bind_Ok in H as (a & Ha & H).
  destruct (de_mkdirAll env a); [done|]. injection H as <-. destruct (IsAbs dir) eqn:Ed.
  - injection Ha as <-. by rewrite IsAbs_rooted, path_of_Clean, <- IsAbs_rooted.
  - apply bind_Ok in Ha as (cwd & Hcwd & [= <-]). apply Join_rooted. auto.
Qed.

Lemma Dir_rooted env dir :
  (forall cwd, de_cwd env = Ok cwd -> IsAbs cwd = true) -> Dir env = Ok dir -> IsAbs dir = true.
Proof.
  intros Hc. unfold Dir. destruct (negb _); [by apply ensureDir_rooted|].
  destruct (de_executable env); [by apply ensureDir_rooted|]. destruct (de_cwd env) eqn:E; [|done].
  apply ensureDir_rooted. intros cwd. rewrite E. apply Hc.
Qed.

(** Where a configured path leads.  A non-empty path resolves to an absolute one: an absolute path to
    itself, a path in the home folder to a path below it or beside it, and any other path to the
    place under the program's own folder; it never leaves that folder unless it steps up with
    [..], and does not depend on the current directory when the folder does not. *)
Theorem resolve_path_spec env env' path r :
  (forall cwd, de_cwd env = Ok cwd -> IsAbs cwd = true) ->
  (forall home, de_home env = Ok home -> IsAbs home = true) ->
  de_home env' = de_home env -> Dir env' = Dir env ->
  path <> "" -> ResolvePath env path = Ok r ->
  IsAbs r = true /\ ResolvePath env' path = Ok r /\
  (IsAbs path = true -> r = path) /\
  (IsAbs path = false -> HasPrefix path "~" = false ->
     exists dir, Dir env = Ok dir /\ IsAbs dir = true /\
       (dotdot ∉ cp_parts (path_of path) ->
        path_of r = mkCleaned true (cp_parts (path_of dir) ++ cp_parts (path_of path)))).
Proof.
  intros Hc Hh Hhome HDir Hne HR. unfold ResolvePath in *. rewrite Hhome, HDir.
  rewrite bool_decide_false in * by done. case_bool_decide as Ht.
  { subst path. split_and!; try done. apply map_err_Ok in HR. auto. }
  destruct (HasPrefix path "~/" || HasPrefix path "~\") eqn:Etilde.
  { apply bind_Ok in HR as (home & Hm & [= <-]). pose proof Hm as Hm'. apply map_err_Ok in Hm'. rewrite Hm. split_and!.
    - apply Join_rooted. auto.
    - done.
    - intros Habs. by rewrite (tilde_relative path Etilde) in Habs.
    - intros _ Hn. by rewrite (tilde_prefix path Etilde) in Hn. }
  destruct (IsAbs path) eqn:Ea; [by injection HR as <-|].
  apply bind_Ok in HR as (dir & HD & [= <-]). rewrite HD. pose proof (Dir_rooted _ _ Hc HD) as Hr. split_and!; try done.
  - by apply Join_rooted.
  - intros _ _. exists dir. split_and!; try done. by apply Join_below.
Qed.
Example clean1 : Clean "/a/../../b/./c//d/" = "/b/c/d". Proof. by vm_compute. Qed.
Example clean2 : Clean "../../a/.." = "../..". Proof. by vm_compute. Qed.
Example dir1 : filepath_Dir "/opt/app/p2p-nc" = "/opt/app". Proof. by vm_compute. Qed.
Example dir2 : filepath_Dir "p2p-nc" = ".". Proof. by vm_compute. Qed.
Example dir3 : filepath_Dir "/x" = "/". Proof. by vm_compute. Qed.

(** ** Witnesses *)

Module PathsWitness.
Definition env (cwd : string) : dir_env :=
  mkDirEnv "" (Ok "/opt/app/p2p-nc") (fun _ => Err ErrNotExist) (Ok cwd) (Ok "/home/u") (fun _ => None) "".

Lemma resolve_path_spec_witness :
  ResolvePath (env "/tmp") "keys/../tokens/a.tok" = Ok "/opt/app/oobe/tokens/a.tok" /\
  path_of "/opt/app/oobe/tokens/a.tok" =
    mkCleaned true (cp_parts (path_of "/opt/app/oobe") ++ cp_parts (path_of "keys/../tokens/a.tok")).
Proof.
  destruct (resolve_path_spec (env "/") (env "/tmp") "keys/../tokens/a.tok" "/opt/app/oobe/tokens/a.tok")
    as (_ & H2 & _ & H4).
  - by intros cwd [= <-].
  - by intros home [= <-].
  - reflexivity.
  - vm_compute. reflexivity.
  - discriminate.
  - vm_compute. reflexivity.
  - split; [exact H2|]. destruct H4 as (dir & Hd & _ & H); [reflexivity|reflexivity|].
    vm_compute in Hd. injection Hd as <-. apply H. by apply (bool_decide_unpack _).
Defined.
End PathsWitness.
