(* ===== verification/App.v ===== *)
(** The program's entry point (internal/app/run.go, internal/app/autoconfig.go): the version, the
    configuration next to the executable, the restart under torsocks and the command line. *)
From S2P Require Export Paths RunCommand.
Local Open Scope Z_scope.

(** ** [net.ParseIP]: whether the text is an address *)

Definition is_hex (b : byte) : bool :=
  let c := byte_Z b in
  ((48 <=? c) && (c <=? 57)) || ((97 <=? c) && (c <=? 102)) || ((65 <=? c) && (c <=? 70)).

Fixpoint split_on (sep : byte) (cur l : list byte) : list (list byte) :=
  match l with
  | [] => [cur]
  | b :: l => if bool_decide (b = sep) then cur :: split_on sep [] l else split_on sep (cur ++ [b]) l
  end.

(** An octet: digits without a leading zero, at most 255. *)
Definition octet (field : list byte) : bool :=
  match field with
  | [] => false
  | b :: rest =>
      forallb is_digit field && (bool_decide (rest = []) || negb (bool_decide (b = x30))) &&
      match parse_digits field 0 with Some v => v <=? 255 | None => false end
  end.

Definition parse_ipv4 (l : list byte) : bool :=
  let fields := split_on x2e [] l in
  bool_decide (length fields = 4%nat) && forallb octet fields.

Definition span_hex (l : list byte) : list byte * list byte :=
  let fix go l :=
    match l with
    | b :: l' => if is_hex b then let '(h, r) := go l' in (b :: h, r) else ([], l)
    | [] => ([], [])
    end in go l.

(** The loop over the groups: [i] bytes are filled, [ellipsis] tells whether "::" was seen. *)
Fixpoint ipv6_loop (fuel : nat) (i : Z) (ellipsis : bool) (l : list byte) : bool :=
  let finish i ellipsis l :=
    bool_decide (l = []) && (if i <? 16 then ellipsis else negb ellipsis) in
  match fuel with
  | O => false
  | S fuel =>
      if 16 <=? i then finish i ellipsis l
      else
      let '(group, rest) := span_hex l in
      if bool_decide (4 < length group)%nat then false
      else if bool_decide (group = []) then false
      else match rest with
      | x2e :: _ => (ellipsis || (i =? 12)) && (i + 4 <=? 16) && parse_ipv4 l && finish (i + 4) ellipsis []
      | [] => finish (i + 2) ellipsis []
      | x3a :: rest =>
          match rest with
          | [] => false
          | x3a :: rest =>
              if ellipsis then false
              else match rest with
              | [] => finish (i + 2) true []
              | _ => ipv6_loop fuel (i + 2) true rest
              end
          | _ => ipv6_loop fuel (i + 2) ellipsis rest
          end
      | _ => false
      end
  end.

Definition parse_ipv6 (l : list byte) : bool :=
  match l with
  | [x3a; x3a] => true
  | x3a :: x3a :: rest => ipv6_loop 9 0 true rest
  | _ => ipv6_loop 9 0 false l
  end.

(** The first dot, colon or percent sign decides. *)
Fixpoint ip_kind (l : list byte) : option byte :=
  match l with
  | [] => None
  | b :: l => if bool_decide (b ∈ [x2e; x3a; x25]) then Some b else ip_kind l
  end.

Definition ParseIP (s : string) : bool :=
  let l := bytes_of s in
  match ip_kind l with
  | Some x2e => parse_ipv4 l
  | Some x3a => negb (bool_decide (x25 ∈ l)) && parse_ipv6 l
  | _ => false
  end.

Example ip1 : (ParseIP <$> ["127.0.0.1"; "::1"; "fe80::1:2"; "::ffff:10.0.0.1"; "1:2:3:4:5:6:7:8"; "::"; "1::"]) = replicate 7 true.
Proof. by vm_compute. Qed.
Example ip2 : (ParseIP <$> ["localhost"; "127.0.0.01"; "1.2.3"; "256.1.1.1"; "::1%lo"; "1::2::3"; "1:2:3:4:5:6:7:8::"; "12345::"; ":1"; "1:"]) = replicate 10 false.
Proof. by vm_compute. Qed.

(** ** The configuration next to the executable *)

Definition autoConfigExtensions : list string := [".cfg"; ".ini"; ".yaml"; ".mui"].

(** [filepath.Base] and [filepath.Ext]. *)
Fixpoint drop_slashes (l : list byte) : list byte :=
  match l with b :: l' => if bool_decide (b = slash) then drop_slashes l' else l | [] => [] end.
Definition filepath_Base (path : string) : string :=
  if bool_decide (path = "") then "."
  else match reverse (drop_slashes (reverse (bytes_of path))) with
  | [] => "/"
  | l => string_of (snd (last_split l))
  end.
Definition filepath_Ext (path : string) : string :=
  let name := snd (last_split (bytes_of path)) in
  match reverse (split_on x2e [] name) with
  | ext :: _ :: _ => string_of (x2e :: ext)
  | _ => ""
  end.

(** The candidates of one base name, the first that is a regular file. *)
Fixpoint first_config (isRegular : string -> bool) (dir base : string) (extensions : list string) : option string :=
  match extensions with
  | [] => None
  | ext :: extensions =>
      let candidate := filepath_Join [dir; base +:+ ext] in
      if isRegular candidate then Some candidate else first_config isRegular dir base extensions
  end.

Definition findAdjacentConfig (isRegular : string -> bool) (exePath : string) : option string :=
  let dir := filepath_Dir exePath in
  let base := TrimSuffix (filepath_Base exePath) (filepath_Ext exePath) in
  match first_config isRegular dir base autoConfigExtensions with
  | Some candidate => Some candidate
  | None =>
      if bool_decide (base = "p2p-nc") then None
      else first_config isRegular dir "p2p-nc" autoConfigExtensions
  end.

(** ** [Run] *)

Definition torActive : string := "P2P_NETCAT_TOR_ACTIVE".

(** How a child process ends. *)
Inductive child_end := ChildOk | ChildExit (code : Z) | ChildNotFound (err : error) | ChildFailed (err : error).

(** An [exec.Cmd]: the program, its arguments, and what its environment adds to this process's. *)
Record child_command := mkCommand { cm_name : string; cm_args : list string; cm_env : list (string * string) }.

Record app_env := mkAppEnv {
  ap_getenv : string -> string;
  ap_windows : bool;
  ap_executable : result string;
  ap_isRegular : string -> bool;
  ap_load : string -> result unit;               (** [loadConfigFile] *)
  ap_daemon : string -> result unit;             (** [daemon.Run] on what was loaded *)
  ap_child : child_command -> child_end;         (** [command.Run()] *)
  ap_cli : list string -> result unit            (** [command.Execute()] *)
}.

(** What a run does: the children it starts, the daemon it runs, and whether it executes the command line in
    its own process. *)
Record trace := mkTrace {
  tr_code : Z;
  tr_spawned : list child_command;
  tr_daemon : option string;
  tr_cli : bool
}.

Definition environmentOr (env : app_env) (name fallback : string) : string :=
  let value := ap_getenv env name in
  if bool_decide (value = "") then fallback else value.

Definition informative (args : list string) : bool :=
  existsb (fun value => bool_decide (value ∈ ["-h"; "--help"; "-V"; "--version"])) args.

(** [runUnderTor]; [None] when it is not handled. *)
Definition runUnderTor (env : app_env) (args : list string) : option (Z * option error * list child_command) :=
  if negb (TorRequested args) || bool_decide (ap_getenv env torActive = "1") then None
  else if ap_windows env then
    Some (1, Some (ErrNew "-T requires torsocks and is supported only on Linux and macOS"), [])
  else if informative args then None
  else
    let host := environmentOr env "P2P_NETCAT_TOR_HOST" (environmentOr env "GSOCKET_SOCKS_IP" "127.0.0.1") in
    let port := environmentOr env "P2P_NETCAT_TOR_PORT" (environmentOr env "GSOCKET_SOCKS_PORT" "9050") in
    if negb (ParseIP host) then
      Some (1, Some (Errorf "Tor SOCKS host must be a numeric IP address: %s" [AStr host]), [])
    else if match Atoi port with Ok n => (n <? 1) || (65535 <? n) | Err _ => true end then
      Some (1, Some (Errorf "invalid Tor SOCKS port: %s" [AStr port]), [])
    else match ap_executable env with
    | Err err => Some (1, Some err, [])
    | Ok executable =>
        let commandName := environmentOr env "P2P_NETCAT_TORSOCKS_COMMAND" "torsocks" in
        let torArgs := ["-i"; "-a"; host; "-P"; port; executable] in
        let torArgs := if QuietRequested args then "-q" :: torArgs else torArgs in
        let torArgs := torArgs ++ args in
        let command := mkCommand commandName torArgs [(torActive, "1")] in
        let spawned := [command] in
        match ap_child env command with
        | ChildOk => Some (0, None, spawned)
        | ChildExit code => Some (code, None, spawned)
        | ChildNotFound _ =>
            Some (1, Some (Errorf "%s was not found; install Tor and torsocks" [AStr commandName]), spawned)
        | ChildFailed err => Some (1, Some err, spawned)
        end
    end.

(** [tryAutoConfig]; [None] when it is not handled.  It returns when the context ends. *)
Definition tryAutoConfig (env : app_env) (args : list string) : option (Z * option string) :=
  match args with
  | _ :: _ => None
  | [] =>
      match ap_executable env with
      | Err _ => None
      | Ok exePath =>
          match findAdjacentConfig (ap_isRegular env) exePath with
          | None => None
          | Some configPath =>
              match ap_load env configPath with
              | Err _ => Some (1, None)
              | Ok _ =>
                  match ap_daemon env configPath with
                  | Err _ => Some (1, None)
                  | Ok _ => Some (0, Some configPath)
                  end
              end
          end
      end
  end.

Definition Run_app (env : app_env) (args : list string) : trace :=
  if existsb (fun argument => bool_decide (argument = "-V")) args then mkTrace 0 [] None false
  else match tryAutoConfig env args with
  | Some (code, daemon) => mkTrace code [] daemon false
  | None =>
      match runUnderTor env args with
      | Some (code, _, spawned) => mkTrace code spawned None false
      | None => mkTrace (if is_ok (ap_cli env args) then 0 else 1) [] None true
      end
  end.

(** A process with variables added to its environment; the last value of a name counts. *)
Definition with_env (env : app_env) (added : list (string * string)) : app_env :=
  mkAppEnv (fun name => foldl (fun value v => if bool_decide (name = fst v) then snd v else value) (ap_getenv env name) added)
    (ap_windows env) (ap_executable env) (ap_isRegular env) (ap_load env) (ap_daemon env) (ap_child env) (ap_cli env).

Lemma TorRequested_nonempty args : TorRequested args = true -> args <> [].
Proof. intros H ->. done. Qed.

(** A command line in which the scan finds a request for Tor, outside torsocks, without a word that only asks for
    information.  The scan does not find [--tor=true] ([Cli.tor_flag_form_missed]). *)
Definition asks_for_tor (env : app_env) (args : list string) : Prop :=
  TorRequested args = true /\ ap_getenv env torActive <> "1" /\ informative args = false.

Lemma informative_version args : informative args = false -> existsb (fun a => bool_decide (a = "-V")) args = false.
Proof.
  unfold informative. induction args as [|a args IH]; [done|]. simpl. rewrite !orb_false_iff. intros [Ha Hs]. split; [|auto].
  apply bool_decide_eq_false in Ha. apply bool_decide_eq_false. set_solver.
Qed.

(** The value of the first of some variables that is set and not empty, else a default. *)
Definition first_set (env : app_env) (names : list string) (fallback : string) : string :=
  default fallback (find (fun value => negb (bool_decide (value = ""))) (ap_getenv env <$> names)).

(** torsocks around this executable and these arguments: the program it is known by, isolated, with the
    configured proxy, of a numeric address and a port in range. *)
Definition torsocks (env : app_env) (args : list string) (c : child_command) : Prop :=
  exists executable portNumber,
    let host := first_set env ["P2P_NETCAT_TOR_HOST"; "GSOCKET_SOCKS_IP"] "127.0.0.1" in
    let port := first_set env ["P2P_NETCAT_TOR_PORT"; "GSOCKET_SOCKS_PORT"] "9050" in
    ap_executable env = Ok executable /\ ParseIP host = true /\ Atoi port = Ok portNumber /\ 1 <= portNumber <= 65535 /\
    cm_name c = first_set env ["P2P_NETCAT_TORSOCKS_COMMAND"] "torsocks" /\
    cm_args c = (if QuietRequested args then ["-q"] else []) ++ ["-i"; "-a"; host; "-P"; port; executable] ++ args.

(** What such a run may do. *)
Definition confined (env : app_env) (args : list string) (t : trace) : Prop :=
  tr_cli t = false /\ tr_daemon t = None /\ (length (tr_spawned t) <= 1)%nat /\
  forall c, c ∈ tr_spawned t -> torsocks env args c /\
    tr_cli (Run_app (with_env env (cm_env c)) args) = true /\ tr_spawned (Run_app (with_env env (cm_env c)) args) = [].

Lemma confined_error env args code : confined env args (mkTrace code [] None false).
Proof. split_and!; simpl; [done|done|lia|]. intros ?. set_solver. Qed.

Lemma environmentOr_first env a b fallback :
  environmentOr env a (environmentOr env b fallback) = first_set env [a; b] fallback.
Proof.
  unfold environmentOr, first_set. cbn. case_bool_decide; cbn; [|done]. by case_bool_decide.
Qed.
Lemma environmentOr_one env a fallback : environmentOr env a fallback = first_set env [a] fallback.
Proof. unfold environmentOr, first_set. cbn. by case_bool_decide. Qed.

(** The child: it finds the mark, and executes the command line. *)
Lemma run_marked env args :
  TorRequested args = true -> informative args = false ->
  tr_cli (Run_app (with_env env [(torActive, "1")]) args) = true /\
  tr_spawned (Run_app (with_env env [(torActive, "1")]) args) = [].
Proof.
  intros Ht Hi. pose proof (informative_version _ Hi) as Hv. pose proof (TorRequested_nonempty _ Ht) as Hne.
  unfold Run_app, runUnderTor. rewrite Hv. assert (tryAutoConfig (with_env env [(torActive, "1")]) args = None) as -> by (by destruct args).
  by rewrite Ht.
Qed.

(** C29: with [-T] the command line is executed under torsocks or not at all.  A run in whose arguments the scan
    finds a request for Tor, outside torsocks and with no option that only asks for information, never
    executes the command line or a daemon in its own process; it starts at most one child: the
    program named by the environment or torsocks, with isolation, the numeric proxy address and the port the environment or the
    defaults give, the same executable and the same arguments; and the executable in that child's environment executes the command
    line and does not restart again. *)
Theorem tor_confined env args : asks_for_tor env args -> confined env args (Run_app env args).
Proof.
  intros (Ht & Ha & Hi). pose proof (informative_version _ Hi) as Hv. pose proof (TorRequested_nonempty _ Ht) as Hne.
  pose proof (run_marked env args Ht Hi) as [Hm1 Hm2].
  assert (tryAutoConfig env args = None) as Hauto by (by destruct args).
  unfold Run_app. rewrite Hv, Hauto. unfold runUnderTor. rewrite Ht, bool_decide_false, Hi by done. cbn [negb orb].
  rewrite !environmentOr_first, environmentOr_one.
  set (host := first_set env _ "127.0.0.1"). set (port := first_set env _ "9050").
  destruct (ap_windows env); [apply confined_error|].
  destruct (ParseIP host) eqn:Eh; cbn [negb]; [|apply confined_error].
  destruct (Atoi port) as [n|] eqn:Ep; [|apply confined_error].
  destruct (_ || _) eqn:En; [apply confined_error|]. rewrite orb_false_iff, !Z.ltb_ge in En.
  destruct (ap_executable env) as [executable|] eqn:Ex; [|apply confined_error].
  set (c := mkCommand _ _ _). cut (forall code, confined env args (mkTrace code [c] None false)).
  { intros Hone. destruct (ap_child env c); apply Hone. }
  intros code. split_and!; simpl; [done|done|lia|]. intros c' ->%list_elem_of_singleton. split; [|by split].
  exists executable, n. split_and!; try done; [lia|lia|]. unfold c. cbn [cm_args]. by destruct (QuietRequested args).
Qed.

(** ** The lookup of the configuration *)

(** Every candidate in the documented order. *)
Definition config_candidates (exePath : string) : list string :=
  let dir := filepath_Dir exePath in
  let base := TrimSuffix (filepath_Base exePath) (filepath_Ext exePath) in
  ((fun ext => filepath_Join [dir; base +:+ ext]) <$> autoConfigExtensions) ++
  ((fun ext => filepath_Join [dir; "p2p-nc" +:+ ext]) <$> autoConfigExtensions).

Lemma first_config_find isRegular dir base extensions :
  first_config isRegular dir base extensions =
  find isRegular ((fun ext => filepath_Join [dir; base +:+ ext]) <$> extensions).
Proof. induction extensions as [|ext extensions IH]; [done|]. simpl. by destruct (isRegular _). Qed.

Lemma find_app {A} (f : A -> bool) l l' : find f (l ++ l') = match find f l with Some x => Some x | None => find f l' end.
Proof. induction l as [|x l IH]; [done|]. simpl. by destruct (f x). Qed.

(** The file that a bare start runs is the first regular file of the documented order: the
    executable's own name with each extension, then p2p-nc with each. *)
Theorem adjacent_config_order isRegular exePath :
  findAdjacentConfig isRegular exePath = find isRegular (config_candidates exePath).
Proof.
  unfold findAdjacentConfig, config_candidates. rewrite !first_config_find, find_app.
  destruct (find isRegular _) as [c|] eqn:E; [done|]. case_bool_decide as Hb; [|done].
  rewrite Hb in E. by rewrite E.
Qed.

(** ** Witnesses *)

Module AppWitness.
Definition env : app_env :=
  mkAppEnv (fun name => if bool_decide (name = "GSOCKET_SOCKS_PORT") then "9150" else "") false
    (Ok "/usr/bin/p2p-nc") (fun _ => false) (fun _ => Ok tt) (fun _ => Ok tt) (fun _ => ChildExit 3) (fun _ => Ok tt).

Lemma tor_confined_witness :
  confined env ["-qT"; "12D3"] (mkTrace 3 [mkCommand "torsocks"
    ["-q"; "-i"; "-a"; "127.0.0.1"; "-P"; "9150"; "/usr/bin/p2p-nc"; "-qT"; "12D3"] [("P2P_NETCAT_TOR_ACTIVE", "1")]] None false).
Proof.
  apply (tor_confined env ["-qT"; "12D3"]).
  split_and!; [vm_compute; reflexivity|vm_compute; discriminate|vm_compute; reflexivity].
Defined.
End AppWitness.
