(* ===== verification/Service.v ===== *)
(** The daemon as a service of the operating system (internal/service): the systemd unit on Linux,
    and the answers to the Service Control Manager on Windows. *)
From S2P Require Export RunCommand Paths.
Local Open Scope Z_scope.

Definition ServiceName : string := "p2p-netcat".
Definition unitPath : string := "/etc/systemd/system/" +:+ ServiceName +:+ ".service".
Definition Description : string :=
  "Runs every tunnel in a p2p-netcat YAML config on one shared node (see 'p2p-nc run --config').".

Definition loadConfig (path : string) (data : file_contents) : result Config :=
  refuse (bool_decide (path = "")) (Errorf "a config path is required" []);;
  decoded ← map_err (Wrapf "read config: %w" []) data;
  Parse decoded.

(** ** systemd *)

Definition quoteArg (arg : string) : string := string_of [x22] +:+ arg +:+ string_of [x22].

Definition newline : string := string_of [x0a].
Definition unit_lines (exePath configPath : string) : list string :=
  ["[Unit]"; "Description=" +:+ Description; "After=network-online.target"; "Wants=network-online.target"; "";
   "[Service]"; "Type=simple"; "ExecStart=" +:+ quoteArg exePath +:+ " run --config " +:+ quoteArg configPath;
   "Restart=on-failure"; "RestartSec=2"; ""; "[Install]"; "WantedBy=multi-user.target"].
Definition buildSystemdUnit (exePath configPath : string) : string :=
  foldr (fun line text => line +:+ newline +:+ text) "" (unit_lines exePath configPath).

Definition errInstalled : error := Errorf "unit file %s already exists (uninstall first)" [AStr unitPath].

(** The machine: the unit file, the units systemd has read, and whether the unit is enabled. *)
Record systemd := mkSystemd { sd_unit : option string; sd_loaded : option string; sd_enabled : bool }.

(** What the calls meet. *)
Record service_env := mkServiceEnv {
  sv_abs : string -> result string;
  sv_executable : result string;
  sv_write : option error;
  sv_daemonReload : option error;
  sv_enable : option error;
  sv_remove : option error;
  sv_output : string                 (** what a failing [systemctl] prints *)
}.

(** [systemctl daemon-reload] and [systemctl enable]. *)
Definition daemon_reload (env : service_env) (m : systemd) : option error * systemd :=
  match sv_daemonReload env with
  | Some err => (Some (Wrapf "systemctl %s: %w: %s" [AStr "daemon-reload"; AStr (sv_output env)] err), m)
  | None => (None, mkSystemd (sd_unit m) (sd_unit m) (sd_enabled m))
  end.
Definition systemctl_enable (env : service_env) (m : systemd) : option error * systemd :=
  match sv_enable env with
  | Some err => (Some (Wrapf "systemctl %s: %w: %s" [AStr "enable p2p-netcat"; AStr (sv_output env)] err), m)
  | None => (None, mkSystemd (sd_unit m) (sd_loaded m) true)
  end.

(** [Install] of service_linux.go. *)
Definition Install (env : service_env) (m : systemd) (configPath : string) (data : file_contents)
    : option error * systemd :=
  match loadConfig configPath data with
  | Err err => (Some (Wrapf "config is invalid, not installing the service: %w" [] err), m)
  | Ok _ =>
      match sv_abs env configPath with
      | Err err => (Some (Wrapf "resolve config path: %w" [] err), m)
      | Ok absoluteConfigPath =>
          match sv_executable env with
          | Err err => (Some (Wrapf "resolve the running executable's path: %w" [] err), m)
          | Ok exePath =>
              match sd_unit m with
              | Some _ => (Some (errInstalled), m)
              | None =>
                  let unit := buildSystemdUnit exePath absoluteConfigPath in
                  match sv_write env with
                  | Some err => (Some (Wrapf "write unit file %s (this needs root): %w" [AStr unitPath] err), m)
                  | None =>
                      let m := mkSystemd (Some unit) (sd_loaded m) (sd_enabled m) in
                      match daemon_reload env m with
                      | (Some err, m) => (Some err, m)
                      | (None, m) => systemctl_enable env m
                      end
                  end
              end
          end
      end
  end.

(** [Uninstall]: [systemctl disable --now] may fail. *)
Definition Uninstall (env : service_env) (m : systemd) (disableErr : option error) : option error * systemd :=
  let m := match disableErr with Some _ => m | None => mkSystemd (sd_unit m) (sd_loaded m) false end in
  match sd_unit m, sv_remove env with
  | Some _, Some err => (Some (Wrapf "remove unit file %s: %w" [AStr unitPath] err), m)
  | _, _ => daemon_reload env (mkSystemd None (sd_loaded m) (sd_enabled m))
  end.

(** ** Windows *)

Inductive svc_state := Stopped | StartPending | StopPending | Running | ContinuePending | PausePending | Paused.

Definition stateText (s : svc_state) : string :=
  match s with
  | Stopped => "stopped" | StartPending => "start_pending" | StopPending => "stop_pending" | Running => "running"
  | ContinuePending => "continue_pending" | PausePending => "pause_pending" | Paused => "paused"
  end.

Inductive svc_request := Interrogate (current : svc_state) | StopRequest | Shutdown | OtherRequest.

Section windows.
Context `{PL : !PortLocks L}.

(** The loop over the requests: the states reported, and the daemon it leaves. *)
Fixpoint answer_requests (d : Daemon (L := L)) (requests : list svc_request) : list svc_state * Daemon (L := L) :=
  match requests with
  | [] => ([], d)
  | Interrogate current :: requests =>
      let '(states, d) := answer_requests d requests in (current :: current :: states, d)
  | StopRequest :: _ | Shutdown :: _ => ([StopPending; Stopped], Close d (elements (dom (d_handles d))))
  | OtherRequest :: requests => answer_requests d requests
  end.

(** [windowsHandler.Execute]: the states reported, what it returns, and the daemon. *)
Definition Execute (locks : L) (cfg : Config) (pathErr identityErr nodeErr : option error) (env : start_env)
    (requests : list svc_request) : list svc_state * (bool * Z) * Daemon (L := L) :=
  match Run locks (Some cfg) pathErr identityErr nodeErr env with
  | (Err _, d) => ([StartPending; Stopped], (true, 1), d)
  | (Ok _, d) =>
      let '(states, d) := answer_requests d requests in
      (StartPending :: Running :: states, (false, 0), d)
  end.

(** [RunAsService]. *)
Definition RunAsService (isService : result bool) (configPath : string) (data : file_contents) : result Config :=
  isService ← map_err (Wrapf "determine whether running as a Windows service: %w" []) isService;
  refuse (negb isService) (ErrNew "run-service must be started by the Service Control Manager, not run directly (use 'p2p-nc run --config <path>' instead)");;
  loadConfig configPath data.

Context `{PLL : !PortLocksLaws L}.

Definition stops (r : svc_request) : bool :=
  match r with StopRequest | Shutdown => true | Interrogate _ | OtherRequest => false end.

Lemma answer_requests_stop d requests rest r :
  owned d -> Forall (fun q => stops q = false) requests -> stops r = true ->
  let '(states, d') := answer_requests d (requests ++ r :: rest) in
  (exists answers, states = answers ++ [StopPending; Stopped]) /\ released d'.
Proof.
  intros Ho Hq Hr. induction Hq as [|q requests Hq _ IH].
  - assert (answer_requests d ([] ++ r :: rest) = ([StopPending; Stopped], Close d (elements (dom (d_handles d))))) as ->
      by (by destruct r). split; [by exists []|]. apply Close_released; [done|].
    split; [apply NoDup_elements|]. intros n. by rewrite elem_of_elements, elem_of_dom.
  - destruct q as [current| | |]; try done. cbn [app answer_requests].
    destruct (answer_requests d (requests ++ r :: rest)) as [states d']. destruct IH as [[answers ->] Hrel].
    split; [by exists (current :: current :: answers)|done].
Qed.

(** The service stops cleanly.  The handler reports that it is starting and then either that it
    runs, or, when the daemon does not start, that it is stopped, with nothing held; and a stop or
    shutdown request, whatever was asked before, is answered by the two last states, and all that
    the daemon held is released. *)
Theorem service_execute locks cfg pathErr identityErr nodeErr env requests r rest :
  pl_wf locks -> pl_held locks = ∅ ->
  Forall (fun q => stops q = false) requests -> stops r = true ->
  let '(states, returned, d) := Execute locks cfg pathErr identityErr nodeErr env (requests ++ r :: rest) in
  released d /\ last states = Some Stopped /\
  (returned = (true, 1) /\ states = [StartPending; Stopped] \/
   returned = (false, 0) /\ exists answers, states = [StartPending; Running] ++ answers ++ [StopPending; Stopped]).
Proof.
  intros Hwf Hh Hq Hr. unfold Execute.
  destruct (Run locks (Some cfg) pathErr identityErr nodeErr env) as [[u|e] d] eqn:E.
  - apply Run_spec in E as (Ho & _); [|done|done].
    pose proof (answer_requests_stop d requests rest r Ho Hq Hr) as H.
    destruct (answer_requests d (requests ++ r :: rest)) as [states d']. destruct H as [[answers ->] Hrel].
    split; [done|]. split; [|right; split; [done|by exists answers]].
    rewrite !app_comm_cons. by rewrite last_app.
  - apply Run_spec in E; [|done|done]. split; [done|]. split; [done|]. by left.
Qed.
End windows.

(** ** Installing and removing *)

Lemma loadConfig_Ok path data cfg : loadConfig path data = Ok cfg -> path <> "" /\ data = Ok (Ok cfg) /\ config_ok cfg.
Proof.
  unfold loadConfig. rewrite seq_Ok, is_ok_refuse, bool_decide_eq_false. intros [Hp H]. split; [done|].
  by apply loadTunnelConfigFile_Ok.
Qed.

(** An installation that reports success has registered a unit that runs a valid configuration under
    its absolute path, and can be undone; one that is refused, because the configuration is not
    valid or the service is there already, touches nothing. *)
Lemma install_uninstall env m configPath data m' :
  Install env m configPath data = (None, m') ->
  (exists cfg exePath absolute, data = Ok (Ok cfg) /\ config_ok cfg /\ sv_executable env = Ok exePath /\
     sv_abs env configPath = Ok absolute /\ sd_unit m = None /\
     m' = mkSystemd (Some (buildSystemdUnit exePath absolute)) (Some (buildSystemdUnit exePath absolute)) true) /\
  Install env m' configPath data = (Some (errInstalled), m') /\
  (sv_remove env = None -> Uninstall env m' None = (None, mkSystemd None None false)).
Proof.
  intros H. unfold Install in H |- *. destruct (loadConfig configPath data) as [cfg|] eqn:El; [|done].
  destruct (sv_abs env configPath) as [absolute|]; [|done]. destruct (sv_executable env) as [exePath|]; [|done].
  destruct (sd_unit m) eqn:Eu; [done|]. destruct (sv_write env); [done|]. unfold daemon_reload, systemctl_enable in H |- *.
  destruct (sv_daemonReload env) eqn:Er; [done|]. destruct (sv_enable env) eqn:Ee; [done|]. injection H as <-.
  apply loadConfig_Ok in El as (_ & Hd & Hc). split_and!.
  - by exists cfg, exePath, absolute.
  - done.
  - intros Hrm. unfold Uninstall. rewrite Hrm. unfold daemon_reload. by rewrite Er.
Qed.

(** A failure of [systemctl] after the unit file is written leaves the file, and a second attempt is
    refused because of it. *)
Lemma install_leaves_unit env env' m configPath data err m' :
  Install env m configPath data = (Some err, m') -> m' <> m ->
  is_ok (loadConfig configPath data) = true -> is_ok (sv_abs env' configPath) = true -> is_ok (sv_executable env') = true ->
  Install env' m' configPath data = (Some (errInstalled), m').
Proof.
  intros H Hne Hl Ha He. unfold Install in H |- *. destruct (loadConfig configPath data) as [cfg|]; [|done].
  destruct (sv_abs env' configPath); [|done]. destruct (sv_executable env'); [|done].
  destruct (sv_abs env configPath) as [absolute|]; [|by injection H as _ <-].
  destruct (sv_executable env) as [exePath|]; [|by injection H as _ <-].
  destruct (sd_unit m) eqn:Eu; [by injection H as _ <-|]. destruct (sv_write env); [by injection H as _ <-|].
  unfold daemon_reload, systemctl_enable in H.
  destruct (sv_daemonReload env); [by injection H as _ <-|]. destruct (sv_enable env); [by injection H as _ <-|done].
Qed.

(** ** Witnesses *)

Module ServiceWitness.
Import DaemonWitness.

Lemma service_execute_witness :
  let '(states, returned, d) :=
    Execute locks before None None None works ([Interrogate Running; OtherRequest] ++ StopRequest :: [Shutdown]) in
  released d /\ last states = Some Stopped.
Proof.
  pose proof (service_execute locks before None None None works [Interrogate Running; OtherRequest] StopRequest [Shutdown]) as H.
  destruct (Execute locks before None None None works ([Interrogate Running; OtherRequest] ++ StopRequest :: [Shutdown]))
    as [[states returned] d].
  destruct H as (H1 & H2 & _); [apply locks_wf|reflexivity|repeat constructor|reflexivity|]. split; [exact H1|exact H2].
Defined.
End ServiceWitness.
