(* ===== verification/ExecSession.v ===== *)
(** A command behind a stream (session/session.go, [Exec]): the child's two output pipes, the two
    goroutines that copy them to the stream under one mutex, whatever the stream's writes return, the one
    that copies the stream to the child's input, and [child.Wait], which closes the pipes.

    [os/exec] documents that [Wait] closes the pipes of [StdoutPipe] and [StderrPipe] once the command
    has exited, and that it is incorrect to call it before all reads from them have completed. *)
From S2P Require Export Prelude GoBytes.
Local Open Scope Z_scope.

(** [shellPath] and [shellArgument]. *)
Definition shellPath (windows : bool) (shell : string) : string :=
  if windows then "cmd.exe" else if bool_decide (shell = "") then "/bin/sh" else shell.
Definition shellArgument (windows : bool) : string := if windows then "/C" else "-c".

(** The two outputs of the child. *)
Inductive source_of := Stdout | Stderr.

#[export] Instance source_of_eq_dec : EqDecision source_of.
Proof. solve_decision. Defined.

(** A pipe: what the child has written and nobody has read; what its copying goroutine has read and not yet
    passed over ([buffer]), with the part of it that the stream has taken; the writes that have returned,
    each with what was to be written and what of it the stream took; and whether the goroutine has returned. *)
Record pipe := mkPipe {
  pp_unread : list byte;
  pp_buffer : list byte;
  pp_taken : list byte;
  pp_writes : list (list byte * list byte);
  pp_done : bool
}.

Record exec_state := mkExec {
  ex_stdout : pipe;
  ex_stderr : pipe;
  ex_written : list (source_of * list byte);      (** the child's writes, in order *)
  ex_exited : bool;                               (** the child has exited *)
  ex_waited : bool;                               (** [child.Wait] has returned: the pipes are closed *)
  ex_writer : option source_of;                   (** who holds the mutex [writer] *)
  ex_stream : list byte;                          (** what the stream has taken *)
  ex_closedWrite : bool;                          (** [stream.CloseWrite] has been called *)
  ex_received : list byte;                        (** what the peer has sent *)
  ex_stdin : list byte;                           (** what the child's input has been given *)
  ex_stdinClosed : bool
}.

Definition empty_pipe : pipe := mkPipe [] [] [] [] false.
Definition exec_init : exec_state :=
  mkExec empty_pipe empty_pipe [] false false None [] false [] [] false.

Definition pipe_of (s : exec_state) (i : source_of) : pipe :=
  match i with Stdout => ex_stdout s | Stderr => ex_stderr s end.
Definition set_pipe (s : exec_state) (i : source_of) (p : pipe) : exec_state :=
  let '(mkExec out err w e wt wr st cw rc si sc) := s in
  match i with
  | Stdout => mkExec p err w e wt wr st cw rc si sc
  | Stderr => mkExec out p w e wt wr st cw rc si sc
  end.

(** The child's side of the state. *)
Definition set_child (s : exec_state) (written : list (source_of * list byte)) (exited waited : bool) : exec_state :=
  mkExec (ex_stdout s) (ex_stderr s) written exited waited (ex_writer s) (ex_stream s) (ex_closedWrite s)
    (ex_received s) (ex_stdin s) (ex_stdinClosed s).
(** The stream's. *)
Definition set_sent (s : exec_state) (writer : option source_of) (stream : list byte) (closedWrite : bool) : exec_state :=
  mkExec (ex_stdout s) (ex_stderr s) (ex_written s) (ex_exited s) (ex_waited s) writer stream closedWrite
    (ex_received s) (ex_stdin s) (ex_stdinClosed s).
(** The input's. *)
Definition set_input (s : exec_state) (received stdin : list byte) (closed : bool) : exec_state :=
  mkExec (ex_stdout s) (ex_stderr s) (ex_written s) (ex_exited s) (ex_waited s) (ex_writer s) (ex_stream s) (ex_closedWrite s)
    received stdin closed.

(** What can happen next. *)
Inductive exec_event :=
  | ChildWrites (i : source_of) (data : list byte)
  | ChildExits
  | WaitReturns
  | CopierReads (i : source_of) (count : nat)       (** [source.Read] returns data *)
  | CopierLocks (i : source_of)                     (** [writer.Lock()], then [stream.Write] is called *)
  | StreamTakes (i : source_of) (count : nat)       (** the stream takes more of what it was given *)
  | WriteReturns (i : source_of)                    (** [stream.Write] returns, having taken all or not; [writer.Unlock()] *)
  | CopierEnds (i : source_of)                      (** [source.Read] returns an error *)
  | PeerSends (data : list byte)
  | InputCopies (count : nat)                       (** [io.Copy] writes what it read from the stream to the input *)
  | InputEnds                                       (** [io.Copy] returns *)
  | ExecReturns.

(** The buffer of a copier. *)
Definition buffer_size : nat := Z.to_nat (32 * 1024).

Definition exec_step (s : exec_state) (ev : exec_event) : option exec_state :=
  match ev with
  | ChildWrites i data =>
      if ex_exited s then None
      else
        let '(mkPipe unread buffer taken writes done) := pipe_of s i in
        let s := set_pipe s i (mkPipe (unread ++ data) buffer taken writes done) in
        Some (set_child s (ex_written s ++ [(i, data)]) (ex_exited s) (ex_waited s))
  | ChildExits => if ex_exited s then None else Some (set_child s (ex_written s) true (ex_waited s))
  | WaitReturns =>
      if ex_exited s && negb (ex_waited s) then Some (set_child s (ex_written s) (ex_exited s) true) else None
  | CopierReads i count =>
      let '(mkPipe unread buffer taken writes done) := pipe_of s i in
      if done || ex_waited s || negb (bool_decide (buffer = [])) || bool_decide (count = 0%nat) ||
         bool_decide (length unread < count)%nat || bool_decide (buffer_size < count)%nat
      then None
      else Some (set_pipe s i (mkPipe (drop count unread) (take count unread) [] writes false))
  | CopierLocks i =>
      if bool_decide (pp_buffer (pipe_of s i) = []) || bool_decide (is_Some (ex_writer s)) then None
      else Some (set_sent s (Some i) (ex_stream s) (ex_closedWrite s))
  | StreamTakes i count =>
      if negb (bool_decide (ex_writer s = Some i)) then None
      else
        let '(mkPipe unread buffer taken writes done) := pipe_of s i in
        let data := take count (drop (length taken) buffer) in
        let s := set_pipe s i (mkPipe unread buffer (taken ++ data) writes done) in
        Some (set_sent s (ex_writer s) (ex_stream s ++ data) (ex_closedWrite s))
  | WriteReturns i =>
      if negb (bool_decide (ex_writer s = Some i)) then None
      else
        let '(mkPipe unread buffer taken writes done) := pipe_of s i in
        let s := set_pipe s i (mkPipe unread [] [] (writes ++ [(buffer, taken)]) done) in
        Some (set_sent s None (ex_stream s) (ex_closedWrite s))
  | CopierEnds i =>
      let '(mkPipe unread buffer taken writes done) := pipe_of s i in
      (* the end of the pipe, or a pipe that [Wait] has closed *)
      if negb done && bool_decide (buffer = []) && (ex_waited s || (ex_exited s && bool_decide (unread = [])))
      then Some (set_pipe s i (mkPipe unread buffer taken writes true))
      else None
  | PeerSends data => Some (set_input s (ex_received s ++ data) (ex_stdin s) (ex_stdinClosed s))
  | InputCopies count =>
      if ex_stdinClosed s then None
      else Some (set_input s (ex_received s) (ex_stdin s ++ take count (drop (length (ex_stdin s)) (ex_received s))) false)
  | InputEnds => Some (set_input s (ex_received s) (ex_stdin s) true)
  | ExecReturns =>
      if ex_waited s && pp_done (ex_stdout s) && pp_done (ex_stderr s) && negb (ex_closedWrite s)
      then Some (set_sent (set_input s (ex_received s) (ex_stdin s) true) (ex_writer s) (ex_stream s) true)
      else None
  end.

Fixpoint exec_run (s : exec_state) (events : list exec_event) : option exec_state :=
  match events with
  | [] => Some s
  | ev :: events => s ← exec_step s ev; exec_run s events
  end.

(** ** What the stream gets *)

(** All that the child has written to one output. *)
Definition output_of (i : source_of) (written : list (source_of * list byte)) : list byte :=
  written ≫= fun w => if bool_decide (fst w = i) then snd w else [].

(** [merged l r out]: [out] interleaves [l] and [r]. *)
Inductive merged : list byte -> list byte -> list byte -> Prop :=
  | merged_nil : merged [] [] []
  | merged_left l r out d : merged l r out -> merged (l ++ d) r (out ++ d)
  | merged_right l r out d : merged l r out -> merged l (r ++ d) (out ++ d).

(** What was read from a pipe, and what of it the stream took. *)
Definition pipe_read (p : pipe) : list byte := mjoin (fst <$> pp_writes p) ++ pp_buffer p.
Definition pipe_sent (p : pipe) : list byte := mjoin (snd <$> pp_writes p) ++ pp_taken p.
(** No write to the stream has returned before the stream took all of it. *)
Definition writes_whole (p : pipe) : Prop := Forall (fun w => snd w = fst w) (pp_writes p).

Record pipe_ok (s : exec_state) (i : source_of) : Prop := {
  po_read : pipe_read (pipe_of s i) ++ pp_unread (pipe_of s i) = output_of i (ex_written s);
  po_writes : Forall (fun w => snd w `prefix_of` fst w) (pp_writes (pipe_of s i));
  po_taken : pp_taken (pipe_of s i) `prefix_of` pp_buffer (pipe_of s i);
  po_locked : ex_writer s = Some i -> pp_buffer (pipe_of s i) <> [];
  po_done : pp_done (pipe_of s i) = true ->
    pp_buffer (pipe_of s i) = [] /\ ex_exited s = true /\ (ex_waited s = false -> pp_unread (pipe_of s i) = [])
}.

Record exec_ok (s : exec_state) : Prop := {
  eo_pipes i : pipe_ok s i;
  eo_stream : merged (pipe_sent (ex_stdout s)) (pipe_sent (ex_stderr s)) (ex_stream s);
  eo_waited : ex_waited s = true -> ex_exited s = true;
  eo_input : ex_stdin s `prefix_of` ex_received s
}.

Lemma exec_ok_init : exec_ok exec_init.
Proof. split; [intros []; split; cbn; done || by exists []|constructor|done|by exists []]. Qed.

Lemma output_of_snoc i j data written :
  output_of i (written ++ [(j, data)]) = output_of i written ++ (if bool_decide (j = i) then data else []).
Proof. unfold output_of. rewrite bind_app. simpl. by rewrite app_nil_r. Qed.

Lemma pipe_of_set s i j p : pipe_of (set_pipe s i p) j = if decide (i = j) then p else pipe_of s j.
Proof. by destruct s, i, j. Qed.

(** More of a list after a beginning of it is a longer beginning. *)
Lemma prefix_more {A} (l1 l2 : list A) n : l1 `prefix_of` l2 -> (l1 ++ take n (drop (length l1) l2)) `prefix_of` l2.
Proof. intros [k ->]. rewrite drop_app_length. exists (drop n k). by rewrite <- app_assoc, take_drop. Qed.

(** A step that changes one pipe, and neither the child nor who holds the mutex. *)
Lemma exec_ok_pipe s i p :
  exec_ok s -> pipe_ok (set_pipe s i p) i -> pipe_sent p = pipe_sent (pipe_of s i) -> exec_ok (set_pipe s i p).
Proof.
  intros [H1 H2 H3 H4] Hp E. split.
  - intros j. destruct (decide (i = j)) as [->|Hn]; [done|]. destruct (H1 j) as [A B C D F].
    destruct s, i, j; try done; by split.
  - destruct s, i; cbn in *; by rewrite E.
  - by destruct s, i.
  - by destruct s, i.
Qed.

(** A step that leaves the pipes, the stream and the mutex alone. *)
Lemma exec_ok_ext s s' :
  (forall i, pipe_of s' i = pipe_of s i) -> ex_written s' = ex_written s -> ex_stream s' = ex_stream s ->
  ex_writer s' = ex_writer s -> (ex_exited s = true -> ex_exited s' = true) -> (ex_waited s = true -> ex_waited s' = true) ->
  (ex_waited s' = true -> ex_exited s' = true) -> ex_stdin s' `prefix_of` ex_received s' -> exec_ok s -> exec_ok s'.
Proof.
  intros Hp Hw Hst Hwr He Hwt Hwe Hin [H1 H2 H3 H4]. split; [|..]; try done.
  - intros i. destruct (H1 i) as [A B C D F]. split; rewrite ?Hp, ?Hw, ?Hwr; try done.
    intros Hd. destruct (F Hd) as (F1 & F2 & F3). split_and!; [done|auto|]. intros Hw'. apply F3.
    destruct (ex_waited s) eqn:E; [rewrite Hwt in Hw'; done|done].
  - pose proof (Hp Stdout) as P1. pose proof (Hp Stderr) as P2. cbn in P1, P2. by rewrite P1, P2, Hst.
Qed.

Lemma child_writes_ok s i data s' : exec_ok s -> exec_step s (ChildWrites i data) = Some s' -> exec_ok s'.
Proof.
  intros [H1 H2 H3 H4]. simpl. destruct (ex_exited s) eqn:Ee; [done|].
  destruct (pipe_of s i) as [unread buffer taken writes done'] eqn:Ep. intros [= <-]. split; [|destruct s, i; cbn in *; subst; done..].
  intros j. destruct (H1 j) as [A B C D F]. destruct (decide (i = j)) as [<-|Hn].
  - rewrite Ep in *. split; [|destruct s, i; cbn in *; subst; naive_solver..].
    destruct s, i; cbn -[output_of pipe_read] in *; subst; rewrite output_of_snoc, bool_decide_true, <- A by done; by rewrite app_assoc.
  - destruct s, i, j; cbn -[output_of] in *; try done; split; cbn -[output_of]; try done; rewrite output_of_snoc; by rewrite app_nil_r.
Qed.

Lemma copier_reads_ok s i count s' : exec_ok s -> exec_step s (CopierReads i count) = Some s' -> exec_ok s'.
Proof.
  intros Hok. pose proof (eo_pipes _ Hok i) as [A B C D F]. simpl.
  destruct (pipe_of s i) as [unread buffer taken writes done'] eqn:Ep.
  destruct (_ || _) eqn:E; [done|]. intros [= <-].
  rewrite !orb_false_iff, negb_false_iff, bool_decide_eq_true, !bool_decide_eq_false in E.
  destruct E as (((((Ed & Ew) & ->) & Hc) & Hl) & _). apply prefix_nil_inv in C as Et. cbn in Et. subst taken.
  apply exec_ok_pipe; [done| |by rewrite Ep]. split; rewrite pipe_of_set, decide_True by done; try done.
  - unfold pipe_read in *. cbn -[output_of] in *. rewrite app_nil_r in A.
    replace (ex_written (set_pipe s i _)) with (ex_written s) by (by destruct s, i).
    by rewrite <- A, <- app_assoc, take_drop.
  - by exists (take count unread).
  - intros _. cbn. intros Ht%(f_equal length). rewrite length_take in Ht. cbn in Ht. lia.
Qed.

Lemma stream_takes_ok s i count s' : exec_ok s -> exec_step s (StreamTakes i count) = Some s' -> exec_ok s'.
Proof.
  intros [H1 H2 H3 H4]. pose proof (H1 i) as [A B C D F]. simpl. destruct (bool_decide _) eqn:Ew; [|done].
  apply bool_decide_eq_true in Ew. cbn [negb]. destruct (pipe_of s i) as [unread buffer taken writes done'] eqn:Ep.
  set (data := take count (drop (length taken) buffer)). intros [= <-]. split; [| |by destruct s, i|by destruct s, i].
  - intros j. destruct (decide (i = j)) as [<-|Hn].
    + split; destruct s, i; cbn -[output_of pipe_read] in *; try done; subst; (done || by apply prefix_more).
    + destruct (H1 j). split; by destruct s, i, j.
  - assert (pipe_sent (mkPipe unread buffer (taken ++ data) writes done') =
      pipe_sent (mkPipe unread buffer taken writes done') ++ data) as E by (unfold pipe_sent; cbn; by rewrite app_assoc).
    rewrite <- Ep in E. destruct s, i; cbn -[pipe_sent] in *; rewrite E; [by apply merged_left|by apply merged_right].
Qed.

Lemma write_returns_ok s i s' : exec_ok s -> exec_step s (WriteReturns i) = Some s' -> exec_ok s'.
Proof.
  intros [H1 H2 H3 H4]. pose proof (H1 i) as [A B C D F]. simpl. destruct (bool_decide _) eqn:Ew; [|done].
  apply bool_decide_eq_true in Ew. cbn [negb]. destruct (pipe_of s i) as [unread buffer taken writes done'] eqn:Ep.
  set (p := mkPipe unread [] [] (writes ++ [(buffer, taken)]) done'). intros [= <-]. split; [| |by destruct s, i|by destruct s, i].
  - intros j. destruct (decide (i = j)) as [<-|Hn].
    + assert (pipe_read p = pipe_read (mkPipe unread buffer taken writes done')) as E.
      { unfold pipe_read, p. cbn. rewrite fmap_app, join_app. cbn. by rewrite !app_nil_r. }
      split; destruct s, i; cbn -[output_of pipe_read] in *; try done; subst;
        first [by rewrite E|by apply Forall_app; split; [done|apply Forall_singleton]|naive_solver].
    + destruct (H1 j). split; by destruct s, i, j.
  - assert (pipe_sent p = pipe_sent (mkPipe unread buffer taken writes done')) as E.
    { unfold pipe_sent, p. cbn. rewrite fmap_app, join_app. cbn. by rewrite !app_nil_r. }
    rewrite <- Ep in E. destruct s, i; cbn -[pipe_sent] in *; by rewrite E.
Qed.

Lemma copier_ends_ok s i s' : exec_ok s -> exec_step s (CopierEnds i) = Some s' -> exec_ok s'.
Proof.
  intros Hok. pose proof (eo_pipes _ Hok i) as [A B C D F]. simpl.
  destruct (pipe_of s i) as [unread buffer taken writes done'] eqn:Ep. destruct (_ && _) eqn:E; [|done]. intros [= <-].
  apply andb_true_iff in E as [[_ ->%bool_decide_eq_true]%andb_true_iff E].
  apply exec_ok_pipe; [done| |by rewrite Ep]. split; rewrite pipe_of_set, decide_True by done; try done.
  - by destruct s, i.
  - intros Hw. apply D. by destruct s, i.
  - intros _. split_and!; [done| |]; pose proof (eo_waited _ Hok) as Hw.
    + apply orb_true_iff in E as [E|[E _]%andb_true_iff]; destruct s, i; cbn in *; auto.
    + intros Hnw. apply orb_true_iff in E as [E|[_ E%bool_decide_eq_true]%andb_true_iff]; [|done]. destruct s, i; cbn in *; congruence.
Qed.

Lemma exec_step_ok s ev s' : exec_ok s -> exec_step s ev = Some s' -> exec_ok s'.
Proof.
  intros Hok. pose proof Hok as [H1 H2 H3 H4].
  destruct ev as [i data| | |i count|i|i count|i|i|data|count| |];
    [by eapply child_writes_ok| | |by eapply copier_reads_ok| |by eapply stream_takes_ok|by eapply write_returns_ok
    |by eapply copier_ends_ok|..]; simpl.
  - destruct (ex_exited s) eqn:Ee; [done|]. intros [= <-]. apply (exec_ok_ext s); done || by intros [].
  - destruct (ex_exited s && _) eqn:E; [|done]. intros [= <-]. apply andb_true_iff in E as [Ee Ew].
    apply (exec_ok_ext s); done || by intros [].
  - destruct (_ || _) eqn:E; [done|]. intros [= <-]. apply orb_false_iff in E as [Eb%bool_decide_eq_false Ew].
    split; try done. intros j. destruct (H1 j) as [A B C D F]. split; try (by destruct j). intros [= <-]. by destruct i.
  - intros [= <-]. apply (exec_ok_ext s); try done; cbn; by apply prefix_app_r.
  - destruct (ex_stdinClosed s); [done|]. intros [= <-]. apply (exec_ok_ext s); try done; by apply prefix_more.
  - intros [= <-]. apply (exec_ok_ext s); done || by intros [].
  - destruct (_ && _) eqn:E; [|done]. intros [= <-]. apply (exec_ok_ext s); done || by intros [].
Qed.

Lemma exec_run_ok events s s' : exec_ok s -> exec_run s events = Some s' -> exec_ok s'.
Proof.
  revert s. induction events as [|ev events IH]; intros s Hok; simpl; [by intros [= <-]|].
  destruct (exec_step s ev) as [s1|] eqn:E; [|done]. simpl. intros H. eapply IH; [|exact H]. by eapply exec_step_ok.
Qed.

(** Once the copiers have ended nothing is read or written any more. *)
Lemma exec_frozen events s s' :
  exec_ok s -> (forall i, pp_done (pipe_of s i) = true) -> exec_run s events = Some s' ->
  ex_written s' = ex_written s /\ forall i, pipe_of s' i = pipe_of s i.
Proof.
  revert s. induction events as [|ev events IH]; intros s Hok Hd; simpl; [by intros [= <-]|].
  destruct (exec_step s ev) as [s1|] eqn:E; [|done]. simpl. intros H.
  cut (ex_written s1 = ex_written s /\ forall i, pipe_of s1 i = pipe_of s i).
  { intros [Hw Hp]. destruct (IH s1) as [-> Hp']; [by eapply exec_step_ok|intros i; by rewrite Hp|done|].
    split; [done|]. intros i. by rewrite Hp'. }
  clear IH H. assert (forall i, pp_buffer (pipe_of s i) = [] /\ ex_exited s = true /\ ex_writer s <> Some i) as Hq.
  { intros i. destruct (eo_pipes _ Hok i) as [_ _ _ D F]. destruct (F (Hd i)) as (Hb & He & _). split_and!; [done|done|].
    intros Hw. by apply D. }
  destruct ev as [i data| | |i count|i|i count|i|i|data|count| |]; simpl in E; try specialize (Hd i); try specialize (Hq i).
  - by rewrite (proj1 (proj2 Hq)) in E.
  - destruct (ex_exited s); [done|]. injection E as <-. by split; [|intros []].
  - destruct (_ && _); [|done]. injection E as <-. by split; [|intros []].
  - destruct (pipe_of s i). cbn in Hd. by rewrite Hd in E.
  - destruct Hq as [Hb _]. by rewrite Hb in E.
  - rewrite bool_decide_false in E by apply Hq. done.
  - rewrite bool_decide_false in E by apply Hq. done.
  - destruct (pipe_of s i). cbn in Hd. by rewrite Hd in E.
  - injection E as <-. by split; [|intros []].
  - destruct (ex_stdinClosed s); [done|]. injection E as <-. by split; [|intros []].
  - injection E as <-. by split; [|intros []].
  - destruct (_ && _); [|done]. injection E as <-. by split; [|intros []].
Qed.

(** When no write was cut short, what the stream took of the writes is what they were given. *)
Lemma writes_whole_join p : writes_whole p -> snd <$> pp_writes p = fst <$> pp_writes p.
Proof. intros H. apply list_fmap_ext. intros i w Hw. by eapply (Forall_lookup_1 _ _ _ _ H). Qed.

(** C28: what the peer of a command sees is what the command wrote.  At every moment the stream has taken an
    interleaving of what it took of each output; what was read of an output is a beginning of what the
    child wrote to it; and of each piece that was read the stream took a beginning, the whole of it when the write
    did not fail.  Hence as long as no write of an output was cut short, what was sent of it is a beginning of what the child
    wrote, in order and without gaps.  A write that fails stops nothing: a copier goes on with the next piece, and when both have
    ended before [Wait] returns, all of both outputs has been read, whatever happens then, and sent
    too if no write was cut short.  The child's input is a beginning of what the peer sent. *)
Theorem exec_output before after s1 s :
  exec_run exec_init before = Some s1 -> exec_run s1 after = Some s ->
  merged (pipe_sent (ex_stdout s)) (pipe_sent (ex_stderr s)) (ex_stream s) /\
  (forall i, pipe_read (pipe_of s i) `prefix_of` output_of i (ex_written s)) /\
  (forall i, Forall (fun w => snd w `prefix_of` fst w) (pp_writes (pipe_of s i))) /\
  (forall i, writes_whole (pipe_of s i) -> pipe_sent (pipe_of s i) `prefix_of` output_of i (ex_written s)) /\
  (ex_waited s1 = false -> (forall i, pp_done (pipe_of s1 i) = true) ->
   forall i, mjoin (fst <$> pp_writes (pipe_of s i)) = output_of i (ex_written s) /\
     (writes_whole (pipe_of s i) -> pipe_sent (pipe_of s i) = output_of i (ex_written s))) /\
  ex_stdin s `prefix_of` ex_received s.
Proof.
  intros H1 H2. pose proof (exec_run_ok _ _ _ exec_ok_init H1) as Hok1. pose proof (exec_run_ok _ _ _ Hok1 H2) as Hok.
  split_and!; [apply Hok| |apply Hok| | |apply Hok].
  - intros i. eexists. symmetry. apply Hok.
  - intros i Hw%writes_whole_join. destruct (eo_pipes _ Hok i) as [A _ [k C] _ _]. exists (k ++ pp_unread (pipe_of s i)).
    unfold pipe_sent. rewrite Hw, <- A. unfold pipe_read. by rewrite C, !app_assoc.
  - intros Hw Hd i. destruct (exec_frozen after s1 s Hok1 Hd H2) as [-> Hp]. rewrite Hp.
    destruct (eo_pipes _ Hok1 i) as [A _ C _ F]. destruct (F (Hd i)) as (Hb & _ & Hu).
    rewrite Hu, app_nil_r in A by done. unfold pipe_read in A. rewrite Hb, app_nil_r in A.
    split; [done|]. intros Hwh%writes_whole_join. unfold pipe_sent. rewrite Hb in C. apply prefix_nil_inv in C.
    by rewrite Hwh, C, app_nil_r.
Qed.

(** [Exec] calls [Wait] without waiting for the copiers: when the command exits at once, [Wait] closes
    the pipes before they are read, and all of its output is lost. *)
Theorem exec_output_lost data :
  exists s, exec_run exec_init
      [ChildWrites Stdout data; ChildExits; WaitReturns; CopierEnds Stdout; CopierEnds Stderr; ExecReturns] = Some s /\
    ex_closedWrite s = true /\ output_of Stdout (ex_written s) = data /\ ex_stream s = [].
Proof. eexists. split; [reflexivity|]. simpl. unfold output_of. simpl. by rewrite app_nil_r. Qed.

(** The error of [stream.Write] is dropped: after a write that was cut short the copier goes on, and the stream
    can hold output with a gap in it. *)
Theorem exec_output_gap :
  exists s, exec_run exec_init
      [ChildWrites Stdout [x61; x62; x63]; CopierReads Stdout 2; CopierLocks Stdout; StreamTakes Stdout 1; WriteReturns Stdout;
       CopierReads Stdout 1; CopierLocks Stdout; StreamTakes Stdout 1; WriteReturns Stdout] = Some s /\
    ex_stream s = [x61; x63].
Proof. eexists. by split. Qed.

(** ** Witnesses *)

Module ExecWitness.
Definition copy (i : source_of) (n : nat) : list exec_event := [CopierReads i n; CopierLocks i; StreamTakes i n; WriteReturns i].
Definition before : list exec_event :=
  [ChildWrites Stdout [x61; x62]] ++ copy Stdout 1 ++ [ChildWrites Stderr [x63]; ChildExits] ++
  copy Stderr 1 ++ copy Stdout 1 ++ [CopierEnds Stderr; CopierEnds Stdout].
Definition middle : exec_state := Eval vm_compute in default exec_init (exec_run exec_init before).
Definition final : exec_state := Eval vm_compute in default exec_init (exec_run middle [WaitReturns; ExecReturns]).

Lemma exec_output_witness :
  merged [x61; x62] [x63] [x61; x63; x62] /\ pipe_sent (pipe_of final Stdout) = [x61; x62].
Proof.
  destruct (exec_output before [WaitReturns; ExecReturns] middle final) as (H1 & _ & _ & _ & H3 & _);
    [vm_compute; reflexivity|vm_compute; reflexivity|].
  split; [exact H1|]. apply (H3 eq_refl); [by intros []|]. repeat constructor.
Defined.
End ExecWitness.
