(* ===== verification/NodeStart.v ===== *)
(** The life of a node (p2p/node.go): the second half of [New], which acquires the host, the DHT, mDNS
    and GossipSub one after the other, [Close], what the node advertises, and the dialer of the
    SOCKS proxy. *)
From S2P Require Export P2PNode PubSub Client.
From S2P Require Import ExtModel.
Local Open Scope Z_scope.

(** ** Starting and closing *)

(** What [New] acquires. *)
Inductive node_resource := RContext | RHost | RDHT | RMdns | RTopic | RSubscription.

(** What is acquired and not yet released, and the fields of a [Node]: those of its pointers that are set, and [once]. *)
Record node_res := mkRes {
  nr_context : bool;          (** the context is not cancelled *)
  nr_host : bool;
  nr_dht : bool;
  nr_mdns : bool;
  nr_topic : bool;
  nr_subscription : bool;
  nf_DHT : bool;
  nf_mdns : bool;
  nf_pubsubTopic : bool;
  nf_pubsubSubscription : bool;
  nr_closed : bool
}.

(** Nothing is acquired and no field is set. *)
Definition no_res : node_res := mkRes false false false false false false false false false false false.

Definition set_held (x : node_resource) (held : bool) (r : node_res) : node_res :=
  let '(mkRes c h d m t s fd fm ft fs o) := r in
  match x with
  | RContext => mkRes held h d m t s fd fm ft fs o
  | RHost => mkRes c held d m t s fd fm ft fs o
  | RDHT => mkRes c h held m t s fd fm ft fs o
  | RMdns => mkRes c h d held t s fd fm ft fs o
  | RTopic => mkRes c h d m held s fd fm ft fs o
  | RSubscription => mkRes c h d m t held fd fm ft fs o
  end.
Definition acquire (x : node_resource) : node_res -> node_res := set_held x true.
Definition release (x : node_resource) : node_res -> node_res := set_held x false.

(** [node.DHT = ...] and [node.mdns = ...]. *)
Definition set_DHT (r : node_res) : node_res :=
  let '(mkRes c h d m t s _ fm ft fs o) := r in mkRes c h d m t s true fm ft fs o.
Definition set_mdns (r : node_res) : node_res :=
  let '(mkRes c h d m t s fd _ ft fs o) := r in mkRes c h d m t s fd true ft fs o.

Definition nothing_held (r : node_res) : Prop :=
  nr_context r = false /\ nr_host r = false /\ nr_dht r = false /\ nr_mdns r = false /\
  nr_topic r = false /\ nr_subscription r = false.

(** [Node.Close]; [hostErr] is what [Host.Close] returns. *)
Definition node_Close (hostErr : option error) (r : node_res) : option error * node_res :=
  if nr_closed r then (None, r)
  else
    let '(mkRes c h d m t s fd fm ft fs _) := r in
    let r := mkRes c h d m t s fd fm ft fs true in
    let r := release RContext r in
    let r := if nf_mdns r then release RMdns r else r in
    let r := if nf_pubsubSubscription r then release RSubscription r else r in
    let r := if nf_pubsubTopic r then release RTopic r else r in
    let r := if nf_DHT r then release RDHT r else r in
    let r := release RHost r in
    (hostErr, r).

Section start.
Context `{LP : !Libp2p}.
Variable Encapsulate : Multiaddr -> Multiaddr.        (** a relay's address with "/p2p-circuit" *)

(** What the calls of [New] meet. *)
Record start_calls := mkCalls {
  st_host : host_plan -> option error;         (** [libp2p.New] with these options *)
  st_connect : string -> option error;         (** [h.Connect] to a peer *)
  st_reserve : string -> option error;         (** [circuitclient.Reserve] *)
  st_dht : option error;
  st_dhtBootstrap : option error;
  st_mdns : option error;
  st_pubsub : pubsub_env
}.

(** The relays of the configuration: those that cannot be reached are passed over, and a listener
    needs a reservation on those that can. *)
Fixpoint connect_relays (env : start_calls) (cfg : NodeConfig) (relays : list (string * list Multiaddr)) : result unit :=
  match relays with
  | [] => Ok tt
  | (id, _) :: relays =>
      match st_connect env id with
      | Some _ => connect_relays env cfg relays
      | None =>
          (if nc_DHTServer cfg && negb (nc_RelayServer cfg)
           then match st_reserve env id with
                | Some err => Err (Wrapf "reserve Circuit Relay v2 %s: %w" [AStr id] err)
                | None => Ok tt
                end
           else Ok tt);;
          connect_relays env cfg relays
      end
  end.

(** [bootstrapPeers]: [None] stands for the library's own list. *)
Definition bootstrapPeers (values : list string) : result (option (list (string * list Multiaddr))) :=
  match values with
  | [] => Ok None
  | _ => infos ← parseRelayInfos values; Ok (Some infos)
  end.

(** The DHT: the bootstrap peers are dialled without regard to the outcome; the node holds it as soon as it is created. *)
Definition start_dht (env : start_calls) (cfg : NodeConfig) (r : node_res) : result unit * node_res :=
  if negb (nc_EnableDHT cfg) then (Ok tt, r)
  else match bootstrapPeers (nc_Bootstrap cfg) with
  | Err err => (Err err, r)
  | Ok _ =>
      match st_dht env with
      | Some err => (Err (Wrapf "create IPFS Amino DHT: %w" [] err), r)
      | None =>
          let r := set_DHT (acquire RDHT r) in
          match st_dhtBootstrap env with
          | Some err => (Err (Wrapf "start DHT bootstrap: %w" [] err), r)
          | None => (Ok tt, r)
          end
      end
  end.

Definition start_mdns (env : start_calls) (cfg : NodeConfig) (r : node_res) : result unit * node_res :=
  if negb (nc_EnableMDNS cfg) then (Ok tt, r)
  else
    let r := set_mdns (acquire RMdns r) in
    match st_mdns env with
    | Some err => (Err (Wrapf "start mDNS: %w" [] err), r)
    | None => (Ok tt, r)
    end.

(** What [startPubSub] did to the node. *)
Definition with_pubsub (ps : pubsub_state) (r : node_res) : node_res :=
  let '(mkRes c h d m _ _ fd fm _ _ o) := r in
  mkRes c h d m (ps_joined ps) (ps_subscribed ps) fd fm (ps_topic ps) (ps_subscription ps) o.

Definition start_gossip (env : start_calls) (cfg : NodeConfig) (interval : Z) (r : node_res) : result unit * node_res :=
  if negb (nc_EnablePubSub cfg) then (Ok tt, r)
  else
    let '(err, ps) := startPubSub (st_pubsub env) (nc_PubSubDiscover cfg) interval in
    let r := with_pubsub ps r in
    match err with
    | Some err => (Err (Wrapf "start GossipSub discovery: %w" [] err), r)
    | None => (Ok tt, r)
    end.

(** One phase after the other; an error goes to the function [fail] of [New], which closes the node. *)
Definition and_then (hostErr : option error) (first : result unit * node_res) (next : node_res -> result unit * node_res)
    : result unit * node_res :=
  match first with
  | (Err err, r) => (Err err, snd (node_Close hostErr r))
  | (Ok _, r) => next r
  end.

(** [New] to its end; [cancel] ends the context where there is no node to close yet. *)
Definition NewNode (env : start_calls) (hasKey : bool) (cfg : NodeConfig) (interval : Z) (hostErr : option error)
    : result unit * node_res :=
  match node_checks hasKey cfg with
  | Err err => (Err err, no_res)
  | Ok _ =>
      let cfg := applyUpstreamSOCKSGuard cfg in
      let r := acquire RContext no_res in
      let cancel := release RContext in
      match parseRelayInfos (nc_Relays cfg) with
      | Err err => (Err err, cancel r)
      | Ok staticRelays =>
          match parseMultiaddrs (nc_Announce cfg) with
          | Err err => (Err (Wrapf "announce: %w" [] err), cancel r)
          | Ok announced =>
              match circuit_announced Encapsulate cfg with
              | Err circuitErr => (Err circuitErr, cancel r)
              | Ok circuitAddresses =>
                  match st_host env (host_options cfg staticRelays (announced ++ circuitAddresses)) with
                  | Some err => (Err (Wrapf "create libp2p host: %w" [] err), cancel r)
                  | None =>
                      let r := acquire RHost r in
                      and_then hostErr (connect_relays env cfg staticRelays, r) (fun r =>
                      and_then hostErr (start_dht env cfg r) (fun r =>
                      and_then hostErr (start_mdns env cfg r) (fun r =>
                      and_then hostErr (start_gossip env cfg interval r) (fun r => (Ok tt, r)))))
                  end
              end
          end
      end
  end.

(** *** Lemmas *)

(** Every resource that is held, but for the context and the host, is in a field of the node. *)
Definition owned (r : node_res) : Prop :=
  nr_closed r = false /\
  (nr_dht r = true -> nf_DHT r = true) /\ (nr_mdns r = true -> nf_mdns r = true) /\
  (nr_topic r = true -> nf_pubsubTopic r = true) /\ (nr_subscription r = true -> nf_pubsubSubscription r = true).

Lemma node_Close_released hostErr r : owned r -> nothing_held (snd (node_Close hostErr r)).
Proof.
  destruct r as [c h d m t s fd fm ft fs o]. intros (Ho & Hd & Hm & Ht & Hs). cbn in Ho, Hd, Hm, Ht, Hs. subst o.
  unfold node_Close. cbn. destruct d, m, t, s; rewrite ?Hd, ?Hm, ?Ht, ?Hs by done; destruct fd, fm, ft, fs; by split_and!.
Qed.

(** A phase whose resources the node owns, and which leaves [post] when it succeeds. *)
Definition phase_ok (first : result unit * node_res) (post : node_res -> Prop) : Prop :=
  owned (snd first) /\ (is_ok (fst first) = true -> post (snd first)).

Lemma and_then_spec hostErr first next post :
  phase_ok first (fun r => match next r with (Ok _, r') => post r' | (Err _, r') => nothing_held r' end) ->
  match and_then hostErr first next with (Ok _, r) => post r | (Err _, r) => nothing_held r end.
Proof.
  destruct first as [[u|e] r]; intros [Hc Hp]; simpl in *; [by apply Hp|by apply node_Close_released].
Qed.

(** What a node holds after the phases of the DHT, mDNS and GossipSub, each run or not. *)
Definition after (dht mdns gossip : bool) : node_res :=
  mkRes true true dht mdns gossip gossip dht mdns gossip gossip false.

(** What a node that has started holds: what its configuration enables, all in its fields. *)
Definition started (cfg : NodeConfig) (r : node_res) : Prop :=
  r = after (nc_EnableDHT cfg) (nc_EnableMDNS cfg) (nc_EnablePubSub cfg && nc_PubSubDiscover cfg).

Lemma after_owned dht mdns gossip : owned (after dht mdns gossip).
Proof. by split_and!. Qed.

Lemma start_dht_ok env cfg :
  phase_ok (start_dht env cfg (after false false false)) (fun r => r = after (nc_EnableDHT cfg) false false).
Proof.
  unfold start_dht, phase_ok. destruct (nc_EnableDHT cfg); simpl; [|by split_and!]. destruct (bootstrapPeers _); [|by split_and!].
  destruct (st_dht env); [by split_and!|]. destruct (st_dhtBootstrap env); by split_and!.
Qed.

Lemma start_mdns_ok env cfg dht :
  phase_ok (start_mdns env cfg (after dht false false)) (fun r => r = after dht (nc_EnableMDNS cfg) false).
Proof.
  unfold start_mdns, phase_ok. destruct (nc_EnableMDNS cfg); simpl; [|by split_and!]. destruct (st_mdns env); by split_and!.
Qed.

Lemma start_gossip_ok env cfg interval dht mdns :
  phase_ok (start_gossip env cfg interval (after dht mdns false))
    (fun r => r = after dht mdns (nc_EnablePubSub cfg && nc_PubSubDiscover cfg)).
Proof.
  unfold start_gossip, phase_ok, startPubSub. destruct (nc_EnablePubSub cfg); simpl; [|by split_and!].
  destruct (pe_gossip _); [by split_and!|]. destruct (nc_PubSubDiscover cfg); simpl; [|by split_and!].
  destruct (pe_join _); [by split_and!|]. destruct (pe_subscribe _); by split_and!.
Qed.

Lemma connect_relays_reserved env cfg relays :
  connect_relays env cfg relays = Ok tt -> nc_DHTServer cfg = true -> nc_RelayServer cfg = false ->
  forall id addrs, (id, addrs) ∈ relays -> st_connect env id = None -> st_reserve env id = None.
Proof.
  intros H Hd Hr. induction relays as [|[id' addrs'] relays IH]; [set_solver|]. simpl in H.
  rewrite Hd, Hr in *. simpl in H. intros id addrs Hin Hc.
  destruct (st_connect env id') eqn:Ec.
  - apply elem_of_cons in Hin as [[= -> ->]|Hin]; [congruence|]. by eapply IH.
  - destruct (st_reserve env id') eqn:Er; [done|]. simpl in H.
    apply elem_of_cons in Hin as [[= -> ->]|Hin]; [done|]. by eapply IH.
Qed.

(** The phases after the host. *)
Lemma start_phases env cfg interval hostErr staticRelays :
  match and_then hostErr (connect_relays env cfg staticRelays, after false false false) (fun r =>
        and_then hostErr (start_dht env cfg r) (fun r =>
        and_then hostErr (start_mdns env cfg r) (fun r =>
        and_then hostErr (start_gossip env cfg interval r) (fun r => (Ok tt, r))))) with
  | (Ok _, r) => started cfg r /\ connect_relays env cfg staticRelays = Ok tt
  | (Err _, r) => nothing_held r
  end.
Proof.
  apply (and_then_spec _ _ _ (fun r => started cfg r /\ _)). split; [apply after_owned|]. intros Hrel. cbn [fst snd] in Hrel |- *.
  assert (connect_relays env cfg staticRelays = Ok tt) as Hconn by (by destruct (connect_relays _ _ _) as [[]|]).
  apply (and_then_spec _ _ _ (fun r => started cfg r /\ _)). destruct (start_dht_ok env cfg) as [H1 H2]. split; [done|].
  intros Hd. cbn beta. rewrite (H2 Hd).
  apply (and_then_spec _ _ _ (fun r => started cfg r /\ _)). destruct (start_mdns_ok env cfg (nc_EnableDHT cfg)) as [H3 H4]. split; [done|].
  intros Hm. cbn beta. rewrite (H4 Hm).
  apply (and_then_spec _ _ _ (fun r => started cfg r /\ _)).
  destruct (start_gossip_ok env cfg interval (nc_EnableDHT cfg) (nc_EnableMDNS cfg)) as [H5 H6]. split; [done|].
  intros Hg. cbn beta. by rewrite (H6 Hg).
Qed.

Lemma NewNode_spec env hasKey cfg interval hostErr :
  match NewNode env hasKey cfg interval hostErr with
  | (Err err, r) => nothing_held r /\ forall e, P2PNode.New Encapsulate hasKey cfg = Err e -> err = e
  | (Ok _, r) => started (applyUpstreamSOCKSGuard cfg) r /\ is_ok (P2PNode.New Encapsulate hasKey cfg) = true /\
      (nc_DHTServer cfg = true -> nc_RelayServer cfg = false ->
       exists relays, parseRelayInfos (nc_Relays cfg) = Ok relays /\
         forall id addrs, (id, addrs) ∈ relays -> st_connect env id = None -> st_reserve env id = None)
  end.
Proof.
  unfold NewNode, P2PNode.New. destruct (node_checks hasKey cfg) as [[]|e]; [|split; [done|by intros ? [= <-]]].
  set (cfg' := applyUpstreamSOCKSGuard cfg). cbn [mbind result_bind].
  assert (nc_Relays cfg' = nc_Relays cfg /\ nc_DHTServer cfg' = nc_DHTServer cfg /\ nc_RelayServer cfg' = nc_RelayServer cfg)
    as (E1 & E2 & E3) by (unfold cfg', applyUpstreamSOCKSGuard; by case_bool_decide).
  rewrite E1. destruct (parseRelayInfos (nc_Relays cfg)) as [relays|e]; [|split; [done|by intros ? [= <-]]].
  destruct (parseMultiaddrs _) as [announced|e]; [|split; [done|by intros ? [= <-]]].
  destruct (circuit_announced _ _) as [circuits|e]; [|split; [done|by intros ? [= <-]]].
  destruct (st_host env _); [by split|]. pose proof (start_phases env cfg' interval hostErr relays) as HS.
  change (acquire RHost (acquire RContext no_res)) with (after false false false).
  destruct (and_then _ _ _) as [[[]|e] r]; [|by split]. destruct HS as [HS Hconn]. split_and!; [done|done|].
  intros Hd Hr. exists relays. split; [done|]. apply (connect_relays_reserved env cfg' relays Hconn); congruence.
Qed.

(** C25: A node starts whole or not at all.  Whatever call fails and when, [New] leaves nothing behind:
    no context, host, DHT, mDNS service, joined topic or subscription; a configuration that is refused is
    refused with its own error; and a node it returns holds exactly what its configuration enables, all of it
    in the fields that [Close] releases, and as a listener has a reservation on every relay that answered. *)
Theorem node_start env hasKey cfg interval hostErr :
  match NewNode env hasKey cfg interval hostErr with
  | (Err err, r) => nothing_held r /\ forall e, P2PNode.New Encapsulate hasKey cfg = Err e -> err = e
  | (Ok _, r) => started (applyUpstreamSOCKSGuard cfg) r /\ is_ok (P2PNode.New Encapsulate hasKey cfg) = true /\
      (nc_DHTServer cfg = true -> nc_RelayServer cfg = false ->
       exists relays, parseRelayInfos (nc_Relays cfg) = Ok relays /\
         forall id addrs, (id, addrs) ∈ relays -> st_connect env id = None -> st_reserve env id = None)
  end.
Proof. apply NewNode_spec. Qed.
End start.

(** ** Advertising *)

Section advertise.
Context `{LP : !Libp2p, CB : !Cbor, CR : !Crypto, CI : !Cids}.
Variable EncapsulateCircuit : Multiaddr -> string -> Multiaddr.
Variable ToCid : string -> Cid.

Definition Hour : Z := 3600 * Second.

(** One round of [Advertise]: the provider records it publishes and the pause until the next; [None]
    when the loop ends. *)
Definition advertise_round (id : string) (token : option Token) (now : Time) : option (list Cid * Z) :=
  match token with
  | None => Some ([ToCid id], 6 * Hour)
  | Some t =>
      match ProviderCIDs t now with
      | Err _ => None
      | Ok cids => Some (cids, 5 * 60 * Second)
      end
  end.

(** [Advertise] over its rounds: what has been published. *)
Fixpoint Advertise (hasDHT : bool) (id : string) (token : option Token) (rounds : list Time) : list Cid :=
  if negb hasDHT then []
  else match rounds with
  | [] => []
  | now :: rounds =>
      match advertise_round id token now with
      | None => []
      | Some (cids, _) => cids ++ Advertise hasDHT id token rounds
      end
  end.

(** [Addresses]: every address of the host with the peer's name, in order. *)
Definition Addresses (id : string) (addrs : list Multiaddr) : list string :=
  sort_strings ((fun a => let text := ma_String a in
    if HasSuffix text ("/p2p/" +:+ peer_String id) then text else text +:+ "/p2p/" +:+ peer_String id) <$> addrs).

(** [connectedRelayCandidates]: the peers offered to the relay finder, at most [limit]; [supports] is
    whether the peer store knows the relay protocol of a peer. *)
Fixpoint connectedRelayCandidates (limit : Z) (self : string) (supports : string -> bool) (peers : list string) : list string :=
  match peers with
  | [] => []
  | peerID :: peers =>
      if limit <=? 0 then []
      else if bool_decide (peerID = self) || negb (supports peerID) then connectedRelayCandidates limit self supports peers
      else peerID :: connectedRelayCandidates (limit - 1) self supports peers
  end.

Lemma connectedRelayCandidates_spec limit self supports peers :
  connectedRelayCandidates limit self supports peers =
  take (Z.to_nat limit) (base.filter (fun p => p <> self /\ supports p = true) peers).
Proof.
  revert limit. induction peers as [|p peers IH]; intros limit; cbn [connectedRelayCandidates]; [by destruct (Z.to_nat limit)|].
  destruct (Z.leb_spec limit 0) as [Hl|Hl]; [by replace (Z.to_nat limit) with 0%nat by lia|].
  rewrite filter_cons. case_bool_decide as Hp; simpl.
  - rewrite decide_False by tauto. apply IH.
  - destruct (supports p); simpl.
    + rewrite decide_True by done. replace (Z.to_nat limit) with (S (Z.to_nat (limit - 1))) by lia. simpl. by rewrite IH.
    + rewrite decide_False by (intros [_ ?]; done). apply IH.
Qed.

(** A provider with an address under one of the identifiers is found. *)
Lemma usable_provider_found id infos addrs :
  (id, addrs) ∈ infos -> addrs <> [] -> exists found, usable_provider id infos = Some found.
Proof.
  induction infos as [|[id' addrs'] infos IH]; [set_solver|]. intros [[= -> ->]|H]%elem_of_cons Ha; simpl.
  - rewrite bool_decide_true, bool_decide_false by done. simpl. eauto.
  - destruct (negb _ || _); eauto.
Qed.

Lemma search_providers_found (env : lookup_env) id cids c addrs :
  c ∈ cids -> (id, addrs) ∈ le_providers env c -> addrs <> [] -> snd (search_providers env id cids) = true.
Proof.
  intros Hc Hp Ha. induction cids as [|c' cids IH]; [set_solver|]. simpl.
  destruct (usable_provider id (le_providers env c')) as [[id' addrs']|] eqn:E; [done|].
  destruct (search_providers env id cids) as [effects found]. apply IH.
  apply elem_of_cons in Hc as [->|?]; [|done]. by destruct (usable_provider_found _ _ _ Hp Ha) as [? ?%(eq_trans (eq_sym E))].
Qed.

Context `{LPL : !Libp2pLaws, CBL : !CborLaws, CRL : !CryptoLaws, CIL : !CidsLaws}.

(** C26: listener and client meet in the DHT.  When the DHT has the records of the listener's last round
    and the two clocks, with the time since that round, are at most ten minutes apart, a client
    with the token, and without a relay or an address, finds the listener. *)
Theorem rendezvous t round env id target cids pause :
  0 <= toUnix round -> 0 <= toUnix (le_now env) -> Z.abs (toUnix round - toUnix (le_now env)) <= 600 ->
  HasPrefix target "/" = false -> peer_Decode target = Ok id ->
  advertise_round id (Some t) round = Some (cids, pause) ->
  (forall c, c ∈ cids -> exists addrs, (id, addrs) ∈ le_providers env c /\ addrs <> []) -> le_dht env = true ->
  snd (resolve EncapsulateCircuit ToCid env target [] (Some t)) = Ok id.
Proof.
  intros H1 H2 Hd Hp Ht Hadv Hdht Hon. unfold resolve. rewrite Hp, Ht.
  case_bool_decide as Hk; [|done]. rewrite Hon. simpl.
  destruct (provider_cids_meet t round (le_now env) H1 H2 Hd) as (l1 & l2 & c & E1 & E2 & Hc1 & Hc2).
  unfold advertise_round in Hadv. rewrite E1 in Hadv. injection Hadv as <- <-. rewrite E2.
  destruct (Hdht c Hc1) as (addrs & Hin & Ha).
  pose proof (search_providers_found env id l2 c addrs Hc2 Hin Ha) as Hf.
  by destruct (search_providers env id l2) as [effects found]; simpl in Hf; subst found.
Qed.
End advertise.

(** ** The dialer of the SOCKS proxy *)

(** [DialContext]: the result, and the connection that nobody holds or closes, when the context ended
    first and the dial that went on succeeded. *)
Definition DialContext (cancelled : option error) (dial : result Z) : result Z * option Z :=
  match cancelled with
  | Some err => (Err err, match dial with Ok conn => Some conn | Err _ => None end)
  | None => (dial, None)
  end.

(** The connection of a dial that outlives its context is dropped, not closed. *)
Lemma dial_context_leak err conn : DialContext (Some err) (Ok conn) = (Err err, Some conn).
Proof. done. Qed.

(** ** Witnesses *)

Module NodeStartWitness.
Import Ref.
Import PairingWitness.

Definition circuit (relay : Multiaddr) (id : string) : Multiaddr := relay +:+ "/p2p-circuit/p2p/" +:+ id.
Definition to_cid (id : string) : @Cid cids := bytes_of id.
Definition round : Time := Unix 1700000000 0.
Definition published : list (@Cid cids) :=
  Eval vm_compute in match ProviderCIDs sample round with Ok l => l | Err _ => [] end.
(** A DHT that returns the listener for what it published, eight minutes later. *)
Definition dht : lookup_env :=
  mkLookup (fun _ => []) true
    (fun c => if bool_decide (c ∈ published) then [("other", []); ("12D3peer", ["/ip4/192.0.2.7/tcp/4001"])] else [])
    (fun _ => Err ErrNotExist) (Unix 1700000480 0).

Lemma rendezvous_witness : snd (resolve circuit to_cid dht "12D3peer" [] (Some sample)) = Ok "12D3peer".
Proof.
  apply (rendezvous circuit to_cid sample round dht "12D3peer" "12D3peer" published (5 * 60 * Second));
    try (vm_compute; (reflexivity || discriminate)).
  intros c Hc. exists ["/ip4/192.0.2.7/tcp/4001"]. split; [|discriminate].
  cbn [le_providers dht]. rewrite bool_decide_true by done. right. by left.
Defined.
End NodeStartWitness.
