(* ===== verification/Relay.v ===== *)
(** The relay server (relay/relay.go) and its command ([newRelayCommand] of internal/cli/root.go). *)
From S2P Require Export NodeStart Identity.
From S2P Require Import ExtModel.
Local Open Scope Z_scope.

Section relay.
Context `{LP : !Libp2p, KS : !Keys, KF : !KeyFiles}.
Variable Encapsulate : Multiaddr -> Multiaddr.

(** [Options]. *)
Record relay_Options := mkRelayOptions {
  ro_IdentityPath : string;
  ro_PrivateKey : option PrivKey;
  ro_LocalPort : Z;
  ro_WebsocketPort : Z;
  ro_DisableWebsocket : bool;
  ro_IPVersion : Z;
  ro_Announce : list string;
  ro_NoMDNS : bool;
  ro_NoPubSub : bool;
  ro_NoQUIC : bool;
  ro_Verbose : bool
}.

(** [Handle]: the path of the identity, what the node holds, and what [Stop] has returned. *)
Record relay_Handle := mkRelayHandle { rh_IdentityPath : string; rh_Node : node_res; rh_stopped : option (option error) }.

Definition relay_websocketPort (o : relay_Options) : Z :=
  if ro_DisableWebsocket o then 0 else if ro_WebsocketPort o =? 0 then 9091 else ro_WebsocketPort o.

(** The checks of [Start]. *)
Definition relay_check (o : relay_Options) : result unit :=
  refuse ((ro_LocalPort o <? 0) || (65535 <? ro_LocalPort o)) (ErrNew "relay local port must be between 0 and 65535");;
  refuse ((relay_websocketPort o <? 0) || (65535 <? relay_websocketPort o))
    (ErrNew "relay WebSocket port must be between 1 and 65535");;
  refuse (negb (ro_IPVersion o =? 0) && negb (ro_IPVersion o =? 4) && negb (ro_IPVersion o =? 6))
    (ErrNew "relay IP version must be 4, 6, or 0").

(** The configuration of the node. *)
Definition relay_config (o : relay_Options) : NodeConfig :=
  mkNodeConfig (ro_LocalPort o) (relay_websocketPort o) (ro_IPVersion o) (ro_Announce o) [] [] false
    (negb (ro_NoMDNS o)) (negb (ro_NoPubSub o)) (negb (ro_NoPubSub o)) (negb (ro_NoQUIC o)) false true false true
    (ro_Verbose o) "".

(** [Start]; [None] when [LoadOrCreate] has not returned. *)
Definition relay_Start (fuel : nat) (ids : id_env) (calls : start_calls) (hostErr : option error) (f : fs)
    (defaultPath : string) (o : relay_Options) : fs * option (result relay_Handle) :=
  match relay_check o with
  | Err err => (f, Some (Err err))
  | Ok _ =>
      let start path :=
        match NewNode Encapsulate calls true (relay_config o) 0 hostErr with
        | (Err err, _) => Err err
        | (Ok _, node) => Ok (mkRelayHandle path node None)
        end in
      match ro_PrivateKey o with
      | Some _ => (f, Some (start ""))
      | None =>
          let path := if bool_decide (ro_IdentityPath o = "") then defaultPath +:+ ".relay" else ro_IdentityPath o in
          match LoadOrCreate fuel ids f path with
          | (f, None) => (f, None)
          | (f, Some (Err err)) => (f, Some (Err err))
          | (f, Some (Ok _)) => (f, Some (start path))
          end
      end
  end.

(** [Stop]: the node is closed once, and every call returns what that returned. *)
Definition relay_Stop (hostErr : option error) (h : relay_Handle) : option error * relay_Handle :=
  match rh_stopped h with
  | Some err => (err, h)
  | None =>
      let '(err, node) := node_Close hostErr (rh_Node h) in
      (err, mkRelayHandle (rh_IdentityPath h) node (Some err))
  end.

(** [relayOptions] of the command line. *)
Record relayOptions := mkRelayFlags {
  rf_localPort : Z;
  rf_websocketPort : Z;
  rf_ipv4 : bool;
  rf_ipv6 : bool;
  rf_identity : string;
  rf_announce : list string;
  rf_noMDNS : bool;
  rf_noPubsub : bool;
  rf_noQUIC : bool;
  rf_verbose : bool
}.

(** [newRelayCommand]: the checks and the options of the relay it starts. *)
Definition newRelayCommand (opts : relayOptions) (defaultPath : string) : result relay_Options :=
  refuse (rf_ipv4 opts && rf_ipv6 opts) (ErrNew "-4 and -6 cannot be used together");;
  refuse ((rf_localPort opts <? 0) || (65535 <? rf_localPort opts) || (rf_websocketPort opts <? 1) ||
          (65535 <? rf_websocketPort opts)) (ErrNew "invalid relay port");;
  let path := if bool_decide (rf_identity opts = "") then defaultPath +:+ ".relay" else rf_identity opts in
  let ipVersion := if rf_ipv4 opts then 4 else if rf_ipv6 opts then 6 else 0 in
  Ok (mkRelayOptions path None (rf_localPort opts) (rf_websocketPort opts) false ipVersion (rf_announce opts)
        (rf_noMDNS opts) (rf_noPubsub opts) (rf_noQUIC opts) (rf_verbose opts)).

(** ** Properties *)

Lemma newRelayCommand_checked opts defaultPath o :
  newRelayCommand opts defaultPath = Ok o -> relay_check o = Ok tt /\ relay_websocketPort o = rf_websocketPort opts.
Proof.
  unfold newRelayCommand. rewrite !seq_Ok, !is_ok_refuse, !orb_false_iff, !Z.ltb_ge.
  intros (_ & (((Hl1 & Hl2) & Hw1) & Hw2) & [= <-]). unfold relay_check, relay_websocketPort. cbn.
  rewrite (proj2 (Z.eqb_neq (rf_websocketPort opts) 0)) by lia.
  rewrite !(proj2 (Z.ltb_ge _ _)) by lia. cbn. split; [|done]. by destruct (rf_ipv4 opts), (rf_ipv6 opts).
Qed.

(** A relay that the command accepts is a relay server that listens on the ports asked for, neither a
    client of other relays nor of the DHT; it holds a started node; and stopping it, any number of
    times, releases everything and reports the same outcome. *)
Lemma relay_command fuel ids calls hostErr f defaultPath opts o f' h :
  newRelayCommand opts defaultPath = Ok o ->
  relay_Start fuel ids calls hostErr f defaultPath o = (f', Some (Ok h)) ->
  nr_host (rh_Node h) = true /\ nr_dht (rh_Node h) = false /\
  nc_RelayServer (relay_config o) = true /\ nc_Listen (relay_config o) = true /\
  nc_TransportPort (relay_config o) = rf_localPort opts /\ nc_WebsocketPort (relay_config o) = rf_websocketPort opts /\
  let '(err, h1) := relay_Stop hostErr h in
  nothing_held (rh_Node h1) /\ err = hostErr /\ relay_Stop hostErr h1 = (err, h1).
Proof.
  intros HC HS. destruct (newRelayCommand_checked _ _ _ HC) as [Hck Hw]. unfold relay_Start in HS. rewrite Hck in HS.
  assert (exists path node, NewNode Encapsulate calls true (relay_config o) 0 hostErr = (Ok tt, node) /\
    h = mkRelayHandle path node None) as (path & node & HN & ->).
  { destruct (ro_PrivateKey o).
    - destruct (NewNode _ _ _ _ _ _) as [[[]|] node]; [|done]. injection HS as _ <-. eauto.
    - destruct (LoadOrCreate _ _ _ _) as [f1 [[key|]|]]; try done.
      destruct (NewNode _ _ _ _ _ _) as [[[]|] node]; [|done]. injection HS as _ <-. eauto. }
  pose proof (NewNode_spec Encapsulate calls true (relay_config o) 0 hostErr) as Hn. rewrite HN in Hn.
  destruct Hn as [-> _]. unfold newRelayCommand in HC. rewrite !seq_Ok in HC.
  destruct HC as (_ & _ & [= <-]). split_and!; try done. unfold relay_Stop, node_Close. cbn.
  destruct (rf_noMDNS opts), (rf_noPubsub opts); by split_and!.
Qed.
End relay.
