(* ===== verification/SecretWindows.v ===== *)
(** Secret files on Windows (internal/secretfile/permissions_windows.go): which access-control lists
    [CheckPermissions] accepts, and the list [Protect] installs.

    A security identifier is its text; an access mask is a 32-bit number.  What the operating system
    answers is an argument; [granted] is its documented evaluation of a list of entries. *)
From S2P Require Export GoBytes.
Local Open Scope Z_scope.

(** ** Masks and identifiers *)

Definition GENERIC_READ : Z := 0x80000000.
Definition GENERIC_WRITE : Z := 0x40000000.
Definition GENERIC_ALL : Z := 0x10000000.
Definition FILE_READ_DATA : Z := 0x1.
Definition FILE_WRITE_DATA : Z := 0x2.
Definition FILE_APPEND_DATA : Z := 0x4.
Definition DELETE : Z := 0x10000.
Definition WRITE_DAC : Z := 0x40000.
Definition WRITE_OWNER : Z := 0x80000.

Definition secretAccessMask : Z :=
  foldr Z.lor 0 [GENERIC_ALL; GENERIC_READ; GENERIC_WRITE; FILE_READ_DATA; FILE_WRITE_DATA; FILE_APPEND_DATA;
    DELETE; WRITE_DAC; WRITE_OWNER].
#[local] Arguments secretAccessMask : simpl never.

Definition SID : Type := string.
Definition WinLocalSystemSid : SID := "S-1-5-18".
Definition WinBuiltinAdministratorsSid : SID := "S-1-5-32-544".
Definition WinCreatorOwnerSid : SID := "S-1-3-0".

Definition ACCESS_ALLOWED_ACE_TYPE : Z := 0.
Definition ACCESS_DENIED_ACE_TYPE : Z := 1.

(** [ACCESS_ALLOWED_ACE]; [None] is an identifier that is not valid. *)
Record ace := mkAce { ace_type : Z; ace_mask : Z; ace_sid : option SID }.

(** What [GetSecurityInfo] describes: a valid owner if there is one, and the list if there is one, with what
    [GetAce] answers for every index. *)
Record descriptor := mkDescriptor { de_owner : option SID; de_dacl : option (list (result (option ace))) }.

(** ** [CheckPermissions] *)

Definition trusted (owner user sid : SID) : bool :=
  bool_decide (sid = owner) || bool_decide (sid = user) || bool_decide (sid = WinLocalSystemSid) ||
  bool_decide (sid = WinBuiltinAdministratorsSid) || bool_decide (sid = WinCreatorOwnerSid).

(** The body of the loop. *)
Definition check_entry (owner user : SID) (index : Z) (answer : result (option ace)) : result unit :=
  entry ← map_err (Wrapf "inspect Windows DACL entry %d: %w" [AInt index]) answer;
  entry ← of_option (Errorf "Windows DACL entry %d is missing" [AInt index]) entry;
  if ace_type entry =? ACCESS_DENIED_ACE_TYPE then Ok tt
  else if negb (ace_type entry =? ACCESS_ALLOWED_ACE_TYPE)
  then Err (Errorf "Windows DACL entry %d has unsupported type %d" [AInt index; AInt (ace_type entry)])
  else if Z.land (ace_mask entry) secretAccessMask =? 0 then Ok tt
  else
    sid ← of_option (Errorf "Windows DACL entry %d has an invalid SID" [AInt index]) (ace_sid entry);
    refuse (negb (trusted owner user sid)) (Errorf "Windows DACL grants secret access to %s" [AStr sid]).

Fixpoint check_entries (owner user : SID) (index : Z) (dacl : list (result (option ace))) : result unit :=
  match dacl with
  | [] => Ok tt
  | answer :: dacl => check_entry owner user index answer;; check_entries owner user (index + 1) dacl
  end.

Definition windows_CheckPermissions (info : result (option descriptor)) (currentUser : result SID) : result unit :=
  descriptor ← map_err (Wrapf "inspect Windows DACL: %w" []) info;
  descriptor ← of_option (ErrNew "Windows security descriptor is missing or invalid") descriptor;
  owner ← of_option (ErrNew "Windows file owner is missing or invalid") (de_owner descriptor);
  dacl ← of_option (ErrNew "Windows file DACL is missing or permits unrestricted access") (de_dacl descriptor);
  user ← map_err (Wrapf "inspect current Windows user: %w" []) currentUser;
  check_entries owner user 0 dacl.

(** ** [Protect] *)

(** What the calls answer.  [pe_stored]: the mask the file system keeps for a requested one, since generic rights
    are mapped to those of files. *)
Record protect_env := mkProtectEnv {
  pe_user : result SID;
  pe_system : result SID;
  pe_administrators : result SID;
  pe_build : option error;
  pe_reopen : option error;
  pe_set : option error;
  pe_stored : Z -> Z;
  pe_inspect : option error;           (** of the verification's [GetSecurityInfo] *)
  pe_userAgain : result SID
}.

(** [allowAccess] and [ACLFromEntries]: one entry for each trustee. *)
Definition allowAccess (sid : SID) (permissions : Z) : ace :=
  mkAce ACCESS_ALLOWED_ACE_TYPE permissions (Some sid).
Definition private_entries (user system administrators : SID) : list ace :=
  [allowAccess user GENERIC_ALL; allowAccess system GENERIC_ALL; allowAccess administrators GENERIC_ALL].

(** [reopenForDACL]. *)
Definition reopenForDACL (env : protect_env) : result unit :=
  match pe_reopen env with
  | Some callErr => Err (Wrapf "reopen Windows file with WRITE_DAC: %w" [] callErr)
  | None => Ok tt
  end.

(** [SetSecurityInfo] replaces the list and keeps the owner. *)
Definition set_dacl (env : protect_env) (entries : list ace) (d : descriptor) : descriptor :=
  mkDescriptor (de_owner d)
    (Some ((fun e => Ok (Some (mkAce (ace_type e) (pe_stored env (ace_mask e)) (ace_sid e)))) <$> entries)).

(** The outcome and the descriptor the file has afterwards. *)
Definition windows_Protect (env : protect_env) (d : descriptor) : result unit * descriptor :=
  let built :=
    user ← map_err (Wrapf "inspect current Windows user: %w" []) (pe_user env);
    system ← map_err (Wrapf "create LocalSystem SID: %w" []) (pe_system env);
    administrators ← map_err (Wrapf "create Administrators SID: %w" []) (pe_administrators env);
    match pe_build env with
    | Some err => Err (Wrapf "build private Windows DACL: %w" [] err)
    | None => reopenForDACL env;; Ok (private_entries user system administrators)
    end in
  match built with
  | Err err => (Err err, d)
  | Ok entries =>
      match pe_set env with
      | Some err => (Err (Wrapf "set private Windows DACL: %w" [] err), d)
      | None =>
          let d := set_dacl env entries d in
          let info := match pe_inspect env with Some err => Err err | None => Ok (Some d) end in
          (map_err (Wrapf "verify private Windows DACL: %w" []) (windows_CheckPermissions info (pe_userAgain env)), d)
      end
  end.

(** ** Who has access *)

(** The system grants a right to a process by the first entry that concerns one of its identities and
    that right. *)
Definition concerns (identities : gset SID) (e : ace) : bool :=
  match ace_sid e with Some sid => bool_decide (sid ∈ identities) | None => false end.
Fixpoint granted (identities : gset SID) (bit : Z) (dacl : list ace) : bool :=
  match dacl with
  | [] => false
  | e :: dacl =>
      if concerns identities e && Z.testbit (ace_mask e) bit
      then ace_type e =? ACCESS_ALLOWED_ACE_TYPE
      else granted identities bit dacl
  end.

(** The identities an entry may give secret rights to. *)
Definition trustees (owner user : SID) : list SID :=
  [owner; user; WinLocalSystemSid; WinBuiltinAdministratorsSid; WinCreatorOwnerSid].
Lemma trusted_trustees owner user sid : trusted owner user sid = true <-> sid ∈ trustees owner user.
Proof.
  unfold trusted, trustees. rewrite !orb_true_iff, !bool_decide_eq_true, !elem_of_cons, elem_of_nil. tauto.
Qed.

(** The entries that are accepted. *)
Definition entry_private (owner user : SID) (e : ace) : Prop :=
  ace_type e = ACCESS_DENIED_ACE_TYPE \/
  ace_type e = ACCESS_ALLOWED_ACE_TYPE /\
    (Z.land (ace_mask e) secretAccessMask = 0 \/ exists sid, ace_sid e = Some sid /\ sid ∈ trustees owner user).

(** A descriptor all of whose entries can be read. *)
Definition readable (owner : SID) (dacl : list ace) : descriptor :=
  mkDescriptor (Some owner) (Some ((fun e => Ok (Some e)) <$> dacl)).

Lemma check_entry_Ok owner user index answer :
  check_entry owner user index answer = Ok tt <-> exists e, answer = Ok (Some e) /\ entry_private owner user e.
Proof.
  unfold check_entry, entry_private.
  destruct answer as [[e|]|]; cbn; [|naive_solver..]. split.
  - intros H. exists e. split; [done|].
    destruct (Z.eqb_spec (ace_type e) ACCESS_DENIED_ACE_TYPE); [by left|right].
    destruct (Z.eqb_spec (ace_type e) ACCESS_ALLOWED_ACE_TYPE); [cbn in H|done]. split; [done|].
    destruct (Z.eqb_spec (Z.land (ace_mask e) secretAccessMask) 0); [by left|right].
    destruct (ace_sid e) as [sid|]; [|done]. exists sid. split; [done|].
    cbn in H. apply trusted_trustees. by destruct (trusted owner user sid).
  - intros (? & [= <-] & [->|[-> [Hm|(sid & -> & Ht)]]]); [done|cbn; by rewrite Hm|]. cbn.
    destruct (_ =? 0); [done|]. apply trusted_trustees in Ht. by rewrite Ht.
Qed.

Lemma check_entries_Ok owner user index answers :
  check_entries owner user index answers = Ok tt <->
  exists dacl, answers = (fun e => Ok (Some e)) <$> dacl /\ Forall (entry_private owner user) dacl.
Proof.
  revert index; induction answers as [|answer answers IH]; intros index; cbn [check_entries].
  - split; [by exists []|done].
  - rewrite seq_Ok, is_ok_unit, check_entry_Ok, IH. split.
    + intros [(e & -> & He) (dacl & -> & Hd)]. exists (e :: dacl). split; [done|by constructor].
    + intros ([|e dacl] & Heq & Hd); [done|]. injection Heq as -> ->. apply Forall_cons in Hd as [He Hd].
      split; [by exists e|by exists dacl].
Qed.

Lemma windows_CheckPermissions_Ok info currentUser :
  windows_CheckPermissions info currentUser = Ok tt <->
  exists owner user dacl, info = Ok (Some (readable owner dacl)) /\ currentUser = Ok user /\
    Forall (entry_private owner user) dacl.
Proof.
  unfold windows_CheckPermissions, readable. split.
  - destruct info as [[[[owner|] [answers|]]|]|]; try done. destruct currentUser as [user|]; [|done]. cbn.
    intros (dacl & -> & Hd)%check_entries_Ok. eauto 10.
  - intros (owner & user & dacl & -> & -> & Hd). cbn. apply check_entries_Ok. eauto.
Qed.

(** A process without a trusted identity gets none of the rights of the mask. *)
Lemma private_not_granted owner user (identities : gset SID) bit dacl :
  Forall (entry_private owner user) dacl -> (forall sid, sid ∈ identities -> sid ∉ trustees owner user) ->
  Z.testbit secretAccessMask bit = true -> granted identities bit dacl = false.
Proof.
  intros Hd Hi Hb. induction Hd as [|e dacl He Hd IH]; [done|]. cbn [granted].
  destruct (concerns identities e) eqn:Ec; [|done]. destruct (Z.testbit (ace_mask e) bit) eqn:Em; [cbn|done].
  destruct He as [->|[-> [H0|(sid & Hs & Ht)]]]; [done|exfalso..].
  - apply (f_equal (fun m => Z.testbit m bit)) in H0. by rewrite Z.land_spec, Em, Hb, Z.bits_0 in H0.
  - unfold concerns in Ec. rewrite Hs, bool_decide_eq_true in Ec. by apply (Hi sid Ec) in Ht.
Qed.

Lemma trusted_entry owner user sid mask :
  sid ∈ trustees owner user -> entry_private owner user (mkAce ACCESS_ALLOWED_ACE_TYPE mask (Some sid)).
Proof. intros Ht. right. split; [done|]. right. by exists sid. Qed.

Lemma protected_private env owner user dacl' :
  exists dacl,
    set_dacl env (private_entries user WinLocalSystemSid WinBuiltinAdministratorsSid)
      (mkDescriptor (Some owner) dacl') = readable owner dacl /\
    Forall (entry_private owner user) dacl.
Proof.
  set (entries := private_entries _ _ _).
  exists ((fun e => mkAce (ace_type e) (pe_stored env (ace_mask e)) (ace_sid e)) <$> entries).
  split; [done|].
  apply Forall_cons_2; [|apply Forall_cons_2; [|apply Forall_cons_2; [|constructor]]]; apply trusted_entry; unfold trustees; set_solver.
Qed.

(** All calls [Protect] makes up to and with the replacement of the list succeed. *)
Definition protect_calls (env : protect_env) : bool :=
  is_ok (pe_user env) && is_ok (pe_system env) && is_ok (pe_administrators env) &&
  bool_decide (pe_build env = None /\ pe_reopen env = None /\ pe_set env = None).

Lemma protect_unchanged env d :
  protect_calls env = false -> (windows_Protect env d).1 <> Ok tt /\ (windows_Protect env d).2 = d.
Proof.
  unfold protect_calls, windows_Protect, reopenForDACL.
  destruct (pe_user env); [|done]. destruct (pe_system env); [|done]. destruct (pe_administrators env); [|done].
  destruct (pe_build env); [done|]. destruct (pe_reopen env); [done|]. by destruct (pe_set env).
Qed.

Lemma protect_changed env owner before user :
  protect_calls env = true -> pe_user env = Ok user -> pe_system env = Ok WinLocalSystemSid ->
  pe_administrators env = Ok WinBuiltinAdministratorsSid ->
  windows_CheckPermissions (Ok (Some (windows_Protect env (mkDescriptor (Some owner) before)).2)) (Ok user) = Ok tt /\
  (pe_inspect env = None -> pe_userAgain env = Ok user ->
   (windows_Protect env (mkDescriptor (Some owner) before)).1 = Ok tt).
Proof.
  unfold protect_calls, windows_Protect, reopenForDACL. intros Hc Hu Hs Ha. rewrite Hu, Hs, Ha in *.
  cbn [is_ok andb] in Hc. apply bool_decide_eq_true in Hc as (-> & -> & ->). cbn [map_err mbind result_bind].
  destruct (protected_private env owner user before) as (dacl & -> & Hd).
  assert (windows_CheckPermissions (Ok (Some (readable owner dacl))) (Ok user) = Ok tt) as Hok
    by (apply windows_CheckPermissions_Ok; by exists owner, user, dacl).
  split; [done|]. intros -> ->. cbn [fst]. by rewrite Hok.
Qed.

(** C20: what the permission check on Windows accepts, and that protecting establishes it.  [CheckPermissions]
    accepts a file exactly when its owner and every entry of its list can be read and every entry denies, grants
    none of the secret rights, or names the owner, the current user, LocalSystem, the Administrators or CREATOR
    OWNER; the last contradicts the comment and the documentation ([creator_owner_accepted]).  A process that has
    none of these five identities is then granted none of the rights in [secretAccessMask], whatever the order of
    the entries.  If any call of [Protect] up to the replacement of the list fails, it fails and changes nothing; if
    they all succeed, the file is accepted whatever list it had before, and [Protect] succeeds unless its final
    inspection is not answered. *)
Theorem secret_files_private info currentUser :
  (windows_CheckPermissions info currentUser = Ok tt <->
    exists owner user dacl, info = Ok (Some (readable owner dacl)) /\ currentUser = Ok user /\
      Forall (entry_private owner user) dacl) /\
  (forall owner user dacl (identities : gset SID) bit,
    windows_CheckPermissions (Ok (Some (readable owner dacl))) (Ok user) = Ok tt ->
    (forall sid, sid ∈ identities -> sid ∉ trustees owner user) ->
    Z.testbit secretAccessMask bit = true -> granted identities bit dacl = false) /\
  (forall env d, protect_calls env = false ->
    (windows_Protect env d).1 <> Ok tt /\ (windows_Protect env d).2 = d) /\
  (forall env owner before user,
    protect_calls env = true -> pe_user env = Ok user -> pe_system env = Ok WinLocalSystemSid ->
    pe_administrators env = Ok WinBuiltinAdministratorsSid ->
    windows_CheckPermissions (Ok (Some (windows_Protect env (mkDescriptor (Some owner) before)).2)) (Ok user) = Ok tt /\
    (pe_inspect env = None -> pe_userAgain env = Ok user ->
     (windows_Protect env (mkDescriptor (Some owner) before)).1 = Ok tt)).
Proof.
  split; [apply windows_CheckPermissions_Ok|]. split; [|split; [apply protect_unchanged|apply protect_changed]].
  intros owner user dacl identities bit (owner' & user' & dacl' & Hr & [= <-] & Hd)%windows_CheckPermissions_Ok.
  injection Hr as <- Hdacl. assert (dacl = dacl') as <-; [|by apply private_not_granted].
  assert (Inj (=) (=) (fun e : ace => @Ok (option ace) (Some e))) by (by intros ? ? [= ->]).
  by apply (inj (fmap _)) in Hdacl.
Qed.

(** The comment on [CheckPermissions] names the owner, the user, LocalSystem and the Administrators as the
    only identities that may have entries; an entry for CREATOR OWNER with every right is accepted as well. *)
Lemma creator_owner_accepted owner user :
  windows_CheckPermissions (Ok (Some (readable owner [mkAce ACCESS_ALLOWED_ACE_TYPE GENERIC_ALL (Some WinCreatorOwnerSid)]))) (Ok user)
  = Ok tt.
Proof.
  apply windows_CheckPermissions_Ok. do 3 eexists. split_and!; [done|done|].
  apply Forall_cons_2; [apply trusted_entry; unfold trustees; set_solver|constructor].
Qed.

Module SecretWindowsWitness.
Definition env : protect_env :=
  mkProtectEnv (Ok "S-1-5-21-7") (Ok WinLocalSystemSid) (Ok WinBuiltinAdministratorsSid) None None None
    (fun _ => 0x1f01ff) None (Ok "S-1-5-21-7").

(** A file that everybody could read is private after [Protect]. *)
Lemma secret_files_private_witness :
  let everybody := mkAce ACCESS_ALLOWED_ACE_TYPE FILE_READ_DATA (Some "S-1-1-0") in
  let before := readable "S-1-5-21-7" [everybody] in
  windows_CheckPermissions (Ok (Some before)) (Ok "S-1-5-21-7") <> Ok tt /\
  granted {["S-1-5-21-9"; "S-1-1-0"]} 0 [everybody] = true /\
  (windows_Protect env before).1 = Ok tt /\
  granted {["S-1-5-21-9"; "S-1-1-0"]} 0 [mkAce 0 0x1f01ff (Some "S-1-5-21-7")] = false.
Proof.
  intros everybody before. split; [vm_compute; discriminate|]. split; [vm_compute; reflexivity|].
  destruct (secret_files_private (Err EOF) (Err EOF)) as (_ & Hg & _ & Hp). split.
  - destruct (Hp env "S-1-5-21-7" (de_dacl before) "S-1-5-21-7") as [_ H]; [vm_compute; reflexivity|reflexivity..|].
    exact (H eq_refl eq_refl).
  - apply (Hg "S-1-5-21-7" "S-1-5-21-7"); [vm_compute; reflexivity| |vm_compute; reflexivity].
    intros sid [->%elem_of_singleton| ->%elem_of_singleton]%elem_of_union; apply (bool_decide_unpack _); vm_compute; exact I.
Defined.
End SecretWindowsWitness.
