(* ===== verification/SoakBus.v ===== *)
(** The signaling bus of the stability tool (cmd/webrtc-soak/main.go): sessions in memory that exchange
    signals with a delay, jitter and duplicates drawn from a pseudo-random sequence.

    Sessions and timers are numbered.  A pending timer may fire at any moment, so that the theorems do not
    depend on the delays; the delays themselves are computed as the code does, with its [float64]
    arithmetic. *)
From S2P Require Export Signaling.
From Stdlib Require Import QArith.
Local Open Scope Z_scope.

Definition signalingTopic : string := "p2p-netcat-webrtc-soak-v1".

(** ** Configuration *)

(** A [float64] rate is the rational number it stands for. *)
Record adapterConfig := mkAdapter {
  ad_ID : string;
  ad_Name : string;
  ad_Latency : Z;
  ad_Jitter : Z;
  ad_OfferDelay : Z;
  ad_Unavailable : bool;
  ad_DuplicateRate : Q;
  ad_DuplicateTypes : list string
}.

Record signalStats := mkStats { st_Published : Z; st_Candidates : Z; st_Duplicates : Z; st_PublishFailures : Z }.

(** ** Pseudo-random numbers *)

(** The state of the generator; the number drawn is [random / 2^32], which [float64] holds exactly. *)
Definition next_random (random : Z) : Z := wrapU 32 (wrapU 32 (random * 1664525) + 1013904223).

(** Rounding of a natural number to 53 significant bits, ties to even. *)
Definition round53 (n : Z) : Z :=
  if n <? 2 ^ 53 then n
  else
    let s := Z.log2 n - 52 in
    let q := n / 2 ^ s in
    let r := n mod 2 ^ s in
    let q := if (2 ^ (s - 1) <? r) || ((r =? 2 ^ (s - 1)) && Z.odd q) then q + 1 else q in
    q * 2 ^ s.

(** [time.Duration(random * float64(jitter))]: the product of [random / 2^32] and [jitter] is rounded and
    then truncated. *)
Definition draw_jitter (random jitter : Z) : Z := round53 (random * jitter) / 2 ^ 32.

(** ** The bus *)

Record memorySession := mkMemorySession {
  ms_adapter : adapterConfig;
  ms_peerID : string;
  ms_events : list Signal;              (** the buffered channel *)
  ms_closed : bool
}.

Record soak_timer := mkTimer { tm_target : nat; tm_signal : Signal; tm_delay : Z }.

Record signalingBus := mkBus {
  bus_heap : gmap nat memorySession;    (** every session that was created *)
  bus_sessions : gset nat;              (** the map *)
  bus_timers : list soak_timer;              (** the timers that have not fired *)
  bus_random : Z;
  bus_stats : signalStats;
  bus_closed : bool;
  bus_log : list (nat * Signal)         (** the signals that were published, with their sender *)
}.

Definition newSignalingBus (seed : Z) : signalingBus := mkBus ∅ ∅ [] seed (mkStats 0 0 0 0) false [].

Definition eventsCapacity : nat := 128.

Definition CreateSession (bus : signalingBus) (adapter : adapterConfig) (peerID : string) : signalingBus :=
  let id := fresh (dom (bus_heap bus)) in
  mkBus (<[id := mkMemorySession adapter peerID [] false]> (bus_heap bus)) ({[id]} ∪ bus_sessions bus) (bus_timers bus)
    (bus_random bus) (bus_stats bus) (bus_closed bus) (bus_log bus).

Definition set_stats (bus : signalingBus) (stats : signalStats) : signalingBus :=
  mkBus (bus_heap bus) (bus_sessions bus) (bus_timers bus) (bus_random bus) stats (bus_closed bus) (bus_log bus).

(** [scheduleLocked]. *)
Definition scheduleLocked (bus : signalingBus) (target : nat) (signal : Signal) (adapter : adapterConfig) (extra : Z)
    : signalingBus :=
  let '(jitter, random) :=
    if 0 <? ad_Jitter adapter
    then let random := next_random (bus_random bus) in (draw_jitter random (ad_Jitter adapter), random)
    else (0, bus_random bus) in
  let delay := ad_Latency adapter + jitter + extra in
  let delay := if bool_decide (sg_Type signal = "offer") then delay + ad_OfferDelay adapter else delay in
  mkBus (bus_heap bus) (bus_sessions bus) (bus_timers bus ++ [mkTimer target signal delay]) random
    (bus_stats bus) (bus_closed bus) (bus_log bus).

(** One target of [Publish]: the signal, and possibly a duplicate. *)
Definition publish_to (adapter : adapterConfig) (signal : Signal) (bus : signalingBus) (target : nat) : signalingBus :=
  let bus := scheduleLocked bus target signal adapter 0 in
  if bool_decide (sg_Type signal ∈ ad_DuplicateTypes adapter) && negb (Qle_bool (ad_DuplicateRate adapter) 0) then
    let random := next_random (bus_random bus) in
    let bus := mkBus (bus_heap bus) (bus_sessions bus) (bus_timers bus) random (bus_stats bus) (bus_closed bus) (bus_log bus) in
    if negb (Qle_bool (ad_DuplicateRate adapter) (random # Z.to_pos (2 ^ 32))) then
      let st := bus_stats bus in
      scheduleLocked
        (set_stats bus (mkStats (st_Published st) (st_Candidates st) (st_Duplicates st + 1) (st_PublishFailures st)))
        target signal adapter Millisecond
    else bus
  else bus.

(** The sessions a signal of [sender] goes to, in the order of a range over the map. *)
Definition is_target (bus : signalingBus) (sender : nat) (adapter : adapterConfig) (to : string) (target : nat) : bool :=
  negb (bool_decide (target = sender)) &&
  match bus_heap bus !! target with
  | Some t => bool_decide (ad_ID (ms_adapter t) = ad_ID adapter) &&
              (bool_decide (to = "") || bool_decide (to = ms_peerID t))
  | None => false
  end.
Definition peer_of (bus : signalingBus) (id : nat) : string :=
  match bus_heap bus !! id with Some t => ms_peerID t | None => "" end.
Definition targets_of (bus : signalingBus) (sender : nat) (adapter : adapterConfig) (to : string) (range : list nat) : list nat :=
  merge_sort (fun left right => String.le (peer_of bus left) (peer_of bus right))
    (base.filter (fun id => is_target bus sender adapter to id = true) range).

Definition errBusClosed : error := ErrNew "signaling session is closed".

(** [signalingBus.Publish]; [range] is the order of the range over the sessions, and [cancelled] the error of the
    context if it is done. *)
Definition bus_Publish (bus : signalingBus) (sender : nat) (signal : Signal) (now : Time) (range : list nat)
    (cancelled : option error) : option error * signalingBus :=
  match bus_heap bus !! sender with
  | None => (None, bus)
  | Some session =>
      let adapter := ms_adapter session in
      let st := bus_stats bus in
      if bus_closed bus || ms_closed session then (Some errBusClosed, bus)
      else if ad_Unavailable adapter then
        (Some (Errorf "%s is unavailable in this soak scenario" [AStr (ad_Name adapter)]),
         set_stats bus (mkStats (st_Published st) (st_Candidates st) (st_Duplicates st) (st_PublishFailures st + 1)))
      else
        let candidates := if bool_decide (sg_Type signal = "candidate") then st_Candidates st + 1 else st_Candidates st in
        let bus := set_stats bus (mkStats (st_Published st + 1) candidates (st_Duplicates st) (st_PublishFailures st)) in
        let signal := stamp signal signalingTopic (ms_peerID session) now in
        let bus := mkBus (bus_heap bus) (bus_sessions bus) (bus_timers bus) (bus_random bus) (bus_stats bus)
          (bus_closed bus) (bus_log bus ++ [(sender, signal)]) in
        (cancelled, foldl (publish_to adapter signal) bus (targets_of bus sender adapter (sg_To signal) range))
  end.

Definition set_session (bus : signalingBus) (id : nat) (s : memorySession) : signalingBus :=
  mkBus (<[id := s]> (bus_heap bus)) (bus_sessions bus) (bus_timers bus) (bus_random bus) (bus_stats bus)
    (bus_closed bus) (bus_log bus).

(** [memorySession.Deliver]. *)
Definition Deliver (bus : signalingBus) (target : nat) (signal : Signal) : signalingBus :=
  match bus_heap bus !! target with
  | None => bus
  | Some s =>
      if ms_closed s || bus_closed bus then bus
      else if bool_decide (length (ms_events s) < eventsCapacity)%nat
      then set_session bus target (mkMemorySession (ms_adapter s) (ms_peerID s) (ms_events s ++ [signal]) false)
      else bus
  end.

(** A timer fires. *)
Definition fire (bus : signalingBus) (k : nat) : signalingBus :=
  match bus_timers bus !! k with
  | None => bus
  | Some t =>
      Deliver (mkBus (bus_heap bus) (bus_sessions bus) (delete k (bus_timers bus)) (bus_random bus) (bus_stats bus)
        (bus_closed bus) (bus_log bus)) (tm_target t) (tm_signal t)
  end.

(** The endpoint receives from the channel. *)
Definition receive_event (bus : signalingBus) (id : nat) : option (Signal * signalingBus) :=
  match bus_heap bus !! id with
  | Some s =>
      match ms_events s with
      | signal :: rest =>
          Some (signal, set_session bus id (mkMemorySession (ms_adapter s) (ms_peerID s) rest (ms_closed s)))
      | [] => None
      end
  | None => None
  end.

(** [memorySession.Close] with [remove], and [signalingBus.Close].  The latter sets [closed] before it takes the mutex;
    in between publications and deliveries have no effect already ([closed_inert]) and nothing else reads [closed],
    so that it counts as one step, taken with the mutex. *)
Definition session_Close (bus : signalingBus) (id : nat) : signalingBus :=
  match bus_heap bus !! id with
  | Some s =>
      if ms_closed s then bus
      else
        mkBus (<[id := mkMemorySession (ms_adapter s) (ms_peerID s) (ms_events s) true]> (bus_heap bus))
          (bus_sessions bus ∖ {[id]}) (bus_timers bus) (bus_random bus) (bus_stats bus) (bus_closed bus) (bus_log bus)
  | None => bus
  end.
Definition bus_Close (bus : signalingBus) : signalingBus :=
  if bus_closed bus then bus
  else mkBus (bus_heap bus) ∅ [] (bus_random bus) (bus_stats bus) true (bus_log bus).

(** [memorySession.Status]. *)
Definition session_Status (s : memorySession) : Z * Z :=
  if ms_closed s || ad_Unavailable (ms_adapter s) then (0, 1) else (1, 1).

Inductive bus_step (bus : signalingBus) : signalingBus -> Prop :=
  | bus_create adapter peerID : bus_step bus (CreateSession bus adapter peerID)
  | bus_publish sender signal now range cancelled :
      range ≡ₚ elements (bus_sessions bus) ->
      bus_step bus (bus_Publish bus sender signal now range cancelled).2
  | bus_fire k : bus_step bus (fire bus k)
  | bus_receive id signal bus' : receive_event bus id = Some (signal, bus') -> bus_step bus bus'
  | bus_session_close id : bus_step bus (session_Close bus id)
  | bus_close : bus_step bus (bus_Close bus).

(** ** Jitter *)

Lemma round53_le n k : 0 <= n < k * 2 ^ 32 -> k < 2 ^ 53 -> 0 <= round53 n <= k * 2 ^ 32.
Proof.
  intros Hn Hk. unfold round53. destruct (Z.ltb_spec n (2 ^ 53)) as [|H53]; [lia|].
  assert (53 <= Z.log2 n) as Hl by (apply Z.log2_le_pow2; lia).
  assert (Z.log2 n <= 84) as Hu.
  { apply Z.lt_succ_r, Z.log2_lt_pow2; [lia|]. change (2 ^ Z.succ 84) with (2 ^ 53 * 2 ^ 32). nia. }
  set (s := Z.log2 n - 52). assert (0 < 2 ^ s) as Hs by (apply Z.pow_pos_nonneg; lia).
  assert (exists c, 2 ^ 32 = c * 2 ^ s) as [c Hc].
  { exists (2 ^ (32 - s)). rewrite <- Z.pow_add_r by (subst s; lia). f_equal. lia. }
  pose proof (Z.div_mod n (2 ^ s) ltac:(lia)) as Hdm. pose proof (Z.mod_pos_bound n (2 ^ s) Hs) as Hm.
  assert (0 <= n / 2 ^ s) by (apply Z.div_pos; lia).
  assert (n / 2 ^ s < k * c) by (apply Z.div_lt_upper_bound; [lia|]; rewrite Hc in Hn; lia).
  rewrite Hc. destruct (_ || _); nia.
Qed.

(** The jitter drawn lies between nothing and the configured one. *)
Lemma draw_jitter_range random jitter :
  0 <= random < 2 ^ 32 -> 0 < jitter < 2 ^ 53 -> 0 <= draw_jitter random jitter <= jitter.
Proof.
  intros Hr Hj. unfold draw_jitter.
  destruct (round53_le (random * jitter) jitter) as [H1 H2]; [nia|lia|].
  split; [by apply Z.div_pos|]. apply Z.div_le_upper_bound; lia.
Qed.

Lemma next_random_range random : 0 <= next_random random < 2 ^ 32.
Proof. unfold next_random. apply wrapU_range. lia. Qed.

(** ** Invariant *)

Definition copies (signal : Signal) (l : list Signal) : nat := length (base.filter (fun x => x = signal) l).
Definition pending_for (id : nat) (ts : list soak_timer) : list Signal :=
  tm_signal <$> base.filter (fun t => tm_target t = id) ts.

(** The signal was published for this session. *)
Definition addressed (bus : signalingBus) (target : nat) (signal : Signal) : Prop :=
  exists sender s t, (sender, signal) ∈ bus_log bus /\ sender <> target /\
    bus_heap bus !! sender = Some s /\ bus_heap bus !! target = Some t /\
    ad_ID (ms_adapter t) = ad_ID (ms_adapter s) /\
    (sg_To signal = "" \/ sg_To signal = ms_peerID t) /\
    sg_From signal = ms_peerID s /\ sg_Room signal = signalingTopic /\ sg_Version signal = SignalVersion.

Record bus_ok (bus : signalingBus) : Prop := {
  bk_timers t : t ∈ bus_timers bus -> addressed bus (tm_target t) (tm_signal t);
  bk_events id s signal : bus_heap bus !! id = Some s -> signal ∈ ms_events s -> addressed bus id signal;
  bk_capacity id s : bus_heap bus !! id = Some s -> (length (ms_events s) <= eventsCapacity)%nat;
  bk_copies id s signal : bus_heap bus !! id = Some s ->
    (copies signal (ms_events s) + copies signal (pending_for id (bus_timers bus)) <= 2 * copies signal (bus_log bus).*2)%nat;
  bk_sessions id : id ∈ bus_sessions bus -> exists s, bus_heap bus !! id = Some s /\ ms_closed s = false;
  bk_published : st_Published (bus_stats bus) = Z.of_nat (length (bus_log bus));
  bk_closed : bus_closed bus = true -> bus_timers bus = []
}.

Lemma copies_app signal l k : copies signal (l ++ k) = (copies signal l + copies signal k)%nat.
Proof. unfold copies. by rewrite filter_app, length_app. Qed.

Lemma copies_le signal l : (copies signal l <= length l)%nat.
Proof. apply length_filter. Qed.

Lemma pending_for_app id ts ts' : pending_for id (ts ++ ts') = pending_for id ts ++ pending_for id ts'.
Proof. unfold pending_for. by rewrite filter_app, fmap_app. Qed.

(** Sessions keep their adapter and name, and the log grows. *)
Definition extends (b b' : signalingBus) : Prop :=
  bus_log b ⊆ bus_log b' /\
  forall id s, bus_heap b !! id = Some s -> exists s', bus_heap b' !! id = Some s' /\
    ms_adapter s' = ms_adapter s /\ ms_peerID s' = ms_peerID s.

Lemma addressed_extends b b' target signal : extends b b' -> addressed b target signal -> addressed b' target signal.
Proof.
  intros [Hl Hh] (sender & s & t & Hin & Hne & Hs & Ht & Ha & Hto & Hf & Hr & Hv).
  destruct (Hh _ _ Hs) as (s' & Hs' & Eas & Eps), (Hh _ _ Ht) as (t' & Ht' & Eat & Ept).
  exists sender, s', t'. rewrite Eas, Eat, Eps, Ept. split_and!; auto.
Qed.

(** Updating a session without changing its adapter and name. *)
Lemma extends_update b b' id s s' :
  bus_heap b !! id = Some s -> bus_heap b' = <[id := s']> (bus_heap b) -> bus_log b' = bus_log b ->
  ms_adapter s' = ms_adapter s -> ms_peerID s' = ms_peerID s -> extends b b'.
Proof.
  intros Hs Hh Hl Ha Hp. split; [by rewrite Hl|]. intros id' x Hx. rewrite Hh.
  destruct (decide (id = id')) as [->|]; [rewrite lookup_insert_eq|rewrite lookup_insert_ne by done]; simplify_eq; eauto.
Qed.

#[local] Arguments pending_for : simpl never.
#[local] Arguments copies : simpl never.
#[local] Arguments eventsCapacity : simpl never.
Lemma bus_ok_update b b' id s s' :
  bus_ok b -> bus_heap b !! id = Some s -> bus_heap b' = <[id := s']> (bus_heap b) -> bus_log b' = bus_log b ->
  bus_stats b' = bus_stats b -> ms_adapter s' = ms_adapter s -> ms_peerID s' = ms_peerID s ->
  bus_timers b' ⊆ bus_timers b ->
  (forall signal, signal ∈ ms_events s' -> addressed b id signal) ->
  (length (ms_events s') <= eventsCapacity)%nat ->
  (forall signal, copies signal (ms_events s') + copies signal (pending_for id (bus_timers b')) <=
    copies signal (ms_events s) + copies signal (pending_for id (bus_timers b)))%nat ->
  (forall id' signal, id' <> id ->
    copies signal (pending_for id' (bus_timers b')) <= copies signal (pending_for id' (bus_timers b)))%nat ->
  (forall i, i ∈ bus_sessions b' -> i ∈ bus_sessions b /\ (i = id -> ms_closed s' = false)) ->
  (bus_closed b' = true -> bus_timers b' = []) -> bus_ok b'.
Proof.
  intros [Ht He Hc Hn Hs Hp _] Hid Hh Hl Hst Ha Hpe Hts Hev Hcap Hcop Hoth Hss Hcl.
  assert (extends b b') as Hx by (by eapply extends_update).
  split; [..|done]; rewrite ?Hh, ?Hl, ?Hst; intros; try done.
  - eapply addressed_extends; [done|]. auto.
  - eapply addressed_extends; [done|]. destruct (decide (id = id0)) as [<-|]; simplify_map_eq; eauto.
  - destruct (decide (id = id0)) as [<-|]; simplify_map_eq; eauto.
  - destruct (decide (id = id0)) as [<-|]; simplify_map_eq.
    + etrans; [apply Hcop|by apply Hn].
    + pose proof (Hn id0 s0 signal ltac:(done)). pose proof (Hoth id0 signal ltac:(done)). lia.
  - destruct (Hss _ H) as [Hi Hcl']. destruct (Hs _ Hi) as (x & Hx1 & Hx2).
    destruct (decide (id = id0)) as [<-|]; simplify_map_eq; eauto.
Qed.

Lemma bus_ok_init seed : bus_ok (newSignalingBus seed).
Proof. split; cbn; intros; try done; set_solver. Qed.

Lemma CreateSession_ok b adapter peerID : bus_ok b -> bus_ok (CreateSession b adapter peerID).
Proof.
  intros [Ht He Hc Hn Hs Hp Hcl]. unfold CreateSession. set (id := fresh (dom (bus_heap b))).
  assert (bus_heap b !! id = None) as Hid by (apply not_elem_of_dom, is_fresh).
  set (b' := mkBus _ _ _ _ _ _ _). assert (extends b b') as Hx.
  { split; [done|]. intros i s Hi. exists s. cbn. by rewrite lookup_insert_ne by (intros ->; congruence). }
  assert (pending_for id (bus_timers b) = []) as Hnone.
  { unfold pending_for. destruct (base.filter _ (bus_timers b)) as [|t l] eqn:E; [done|].
    assert (t ∈ base.filter (fun t => tm_target t = id) (bus_timers b)) as [Et Hin]%list_elem_of_filter by (rewrite E; set_solver).
    apply Ht in Hin as (? & ? & ? & _ & _ & _ & Hx' & _). congruence. }
  split; cbn; try done.
  - intros t Hin. eapply addressed_extends; eauto.
  - intros i s signal Hi Hin. destruct (decide (id = i)) as [<-|]; simplify_map_eq; [set_solver|].
    eapply addressed_extends; eauto.
  - intros i s Hi. destruct (decide (id = i)) as [<-|]; simplify_map_eq; [cbn; lia|eauto].
  - intros i s signal Hi. destruct (decide (id = i)) as [<-|]; simplify_map_eq; [rewrite Hnone; apply Nat.le_0_l|eauto].
  - intros i [->%elem_of_singleton|Hi]%elem_of_union.
    + rewrite lookup_insert_eq. eauto.
    + destruct (Hs _ Hi) as (x & Hx1 & Hx2). exists x. by rewrite lookup_insert_ne by (intros ->; congruence).
Qed.

Lemma fire_ok b k : bus_ok b -> bus_ok (fire b k).
Proof.
  intros Hb. unfold fire. destruct (bus_timers b !! k) as [t|] eqn:Ek; [|done].
  assert (bus_timers b ≡ₚ t :: delete k (bus_timers b)) as Hperm by (by apply delete_Permutation).
  assert (addressed b (tm_target t) (tm_signal t)) as Hadr by (apply Hb; by eapply list_elem_of_lookup_2).
  assert (exists s, bus_heap b !! tm_target t = Some s) as [s Hs] by (destruct Hadr as (?&?&?&?&?&?&?&?); eauto).
  assert (forall id signal, copies signal (pending_for id (bus_timers b)) =
    ((if decide (tm_target t = id) then if decide (tm_signal t = signal) then 1 else 0 else 0) +
     copies signal (pending_for id (delete k (bus_timers b))))%nat) as Hcount.
  { intros id signal. unfold copies, pending_for. rewrite Hperm at 1. rewrite filter_cons.
    case_decide; [|done]. cbn [fmap list_fmap]. rewrite filter_cons. by case_decide. }
  assert (delete k (bus_timers b) ⊆ bus_timers b) as Hsub by (intros x; rewrite Hperm at 2; set_solver).
  assert (bus_closed b = true -> delete k (bus_timers b) = []) as Hcl.
  { intros E. pose proof (bk_closed _ Hb E) as Hnil. by rewrite Hnil in Ek. }
  assert (forall id signal, id <> tm_target t ->
    (copies signal (pending_for id (delete k (bus_timers b))) <= copies signal (pending_for id (bus_timers b)))%nat)
    as Hother by (intros; rewrite Hcount; case_decide; lia).
  unfold Deliver. cbn [bus_heap]. rewrite Hs.
  assert (forall b', bus_heap b' = bus_heap b -> bus_log b' = bus_log b -> bus_stats b' = bus_stats b ->
    bus_timers b' = delete k (bus_timers b) -> bus_sessions b' = bus_sessions b -> bus_closed b' = bus_closed b -> bus_ok b')
    as Hskip.
  { intros b' Eh El Es Et Ess Ecl. apply (bus_ok_update b b' (tm_target t) s s); rewrite ?Et, ?Ess, ?Ecl; try done.
    - by rewrite Eh, insert_id.
    - intros signal. by eapply bk_events.
    - by eapply bk_capacity.
    - intros signal. rewrite (Hcount (tm_target t)). lia.
    - intros i Hi. split; [done|]. intros ->. by destruct (bk_sessions _ Hb _ Hi) as (x & ? & ?); simplify_eq. }
  destruct (ms_closed s || _) eqn:Ecl; [by apply Hskip|]. cbn [bus_closed] in Ecl. apply orb_false_iff in Ecl as [Ecs Ecb].
  case_bool_decide as Hlen; [|by apply Hskip].
  eapply (bus_ok_update b _ (tm_target t) s (mkMemorySession (ms_adapter s) (ms_peerID s) (ms_events s ++ [tm_signal t]) false));
    cbn; try done.
  - intros signal [Hin| ->%list_elem_of_singleton]%elem_of_app; [by eapply bk_events|done].
  - rewrite length_app. cbn. lia.
  - intros signal. rewrite copies_app, (Hcount (tm_target t)), decide_True by done.
    assert (copies signal [tm_signal t] = if decide (tm_signal t = signal) then 1 else 0)%nat as ->; [|lia].
    unfold copies. rewrite filter_cons. by case_decide.
Qed.

Lemma receive_ok b id signal b' : bus_ok b -> receive_event b id = Some (signal, b') -> bus_ok b'.
Proof.
  intros Hb. unfold receive_event. destruct (bus_heap b !! id) as [s|] eqn:Es; [|done].
  destruct (ms_events s) as [|x rest] eqn:Ee; [done|]. intros [= -> <-].
  pose proof (bk_capacity _ Hb _ _ Es) as Hcap. rewrite Ee in Hcap. cbn in Hcap.
  eapply (bus_ok_update b _ id s (mkMemorySession (ms_adapter s) (ms_peerID s) rest (ms_closed s))); cbn; try done.
  - intros sig Hin. eapply bk_events; [done..|]. rewrite Ee. set_solver.
  - lia.
  - intros sig. rewrite Ee. change (signal :: rest) with ([signal] ++ rest). rewrite copies_app. lia.
  - intros i Hi. split; [done|]. intros ->. by destruct (bk_sessions _ Hb _ Hi) as (y & ? & ?); simplify_eq.
  - apply Hb.
Qed.

Lemma session_Close_ok b id : bus_ok b -> bus_ok (session_Close b id).
Proof.
  intros Hb. unfold session_Close. destruct (bus_heap b !! id) as [s|] eqn:Es; [|done].
  destruct (ms_closed s); [done|].
  eapply (bus_ok_update b _ id s (mkMemorySession (ms_adapter s) (ms_peerID s) (ms_events s) true)); cbn; try done.
  - intros sig. by eapply bk_events.
  - by eapply bk_capacity.
  - set_solver.
  - apply Hb.
Qed.

(** On a bus that is marked closed a publication only fails, and a timer that fires delivers nothing. *)
Lemma closed_inert b :
  bus_closed b = true ->
  (forall sender s signal now range cancelled, bus_heap b !! sender = Some s ->
    bus_Publish b sender signal now range cancelled = (Some errBusClosed, b)) /\
  (forall target signal, Deliver b target signal = b).
Proof.
  intros Hc. split.
  - intros sender s signal now range cancelled Hs. unfold bus_Publish. by rewrite Hs, Hc.
  - intros target signal. unfold Deliver. destruct (bus_heap b !! target) as [s|]; [|done]. by rewrite Hc, orb_true_r.
Qed.

Lemma bus_Close_ok b : bus_ok b -> bus_ok (bus_Close b).
Proof.
  intros Hb. unfold bus_Close. destruct (bus_closed b) eqn:Eb; [done|]. destruct Hb as [Ht He Hc Hn Hs Hp Hcl].
  split; cbn; try done.
  - by intros t Hin%not_elem_of_nil.
  - intros id s signal Hi. pose proof (Hn id s signal Hi). unfold pending_for at 1. cbn. unfold copies at 2. cbn. lia.
Qed.

(** [b'] differs from [b] in new timers for [signal], the random state and the count of duplicates. *)
Definition scheduled (signal : Signal) (b b' : signalingBus) (new : list soak_timer) : Prop :=
  bus_heap b' = bus_heap b /\ bus_sessions b' = bus_sessions b /\ bus_closed b' = bus_closed b /\
  bus_log b' = bus_log b /\ bus_timers b' = bus_timers b ++ new /\
  st_Published (bus_stats b') = st_Published (bus_stats b) /\ Forall (fun t => tm_signal t = signal) new.

Lemma scheduled_trans signal b1 b2 b3 new new' :
  scheduled signal b1 b2 new -> scheduled signal b2 b3 new' -> scheduled signal b1 b3 (new ++ new').
Proof.
  intros (H1 & H2 & H3 & H4 & H5 & H6 & H7) (K1 & K2 & K3 & K4 & K5 & K6 & K7). unfold scheduled.
  rewrite K1, K2, K3, K4, K5, K6, H1, H2, H3, H4, H5, H6, app_assoc. split_and!; try done. by apply Forall_app.
Qed.

Lemma scheduleLocked_spec b target signal adapter extra :
  exists delay, scheduled signal b (scheduleLocked b target signal adapter extra) [mkTimer target signal delay].
Proof.
  unfold scheduleLocked. destruct (if 0 <? ad_Jitter adapter then _ else _) as [jitter random].
  eexists. split_and!; try done. by repeat constructor.
Qed.

(** A target gets the signal once or twice. *)
Lemma publish_to_spec adapter signal b target :
  exists new, scheduled signal b (publish_to adapter signal b target) new /\
    Forall (fun t => tm_target t = target) new /\ (1 <= length new <= 2)%nat.
Proof.
  unfold publish_to. destruct (scheduleLocked_spec b target signal adapter 0) as [delay H].
  set (b1 := scheduleLocked b target signal adapter 0) in *.
  assert (exists new, scheduled signal b b1 new /\ Forall (fun t => tm_target t = target) new /\ (1 <= length new <= 2)%nat) as Hone.
  { eexists. split; [exact H|]. split; [by repeat constructor|cbn; lia]. }
  destruct (_ && _); [|done]. cbn [bus_random]. destruct (negb _).
  - match goal with |- context [scheduleLocked ?b2 _ _ _ Millisecond] =>
      assert (scheduled signal b b2 [mkTimer target signal delay]) as H2 by exact H;
      destruct (scheduleLocked_spec b2 target signal adapter Millisecond) as [delay' H3]
    end.
    eexists. split; [eapply scheduled_trans; [exact H2|exact H3]|]. split; [by repeat constructor|cbn; lia].
  - destruct Hone as (new & Hs & Hr). exists new. split; [exact Hs|done].
Qed.

Lemma pending_other id target new : Forall (fun t => tm_target t = target) new -> id <> target -> pending_for id new = [].
Proof.
  intros Hn Hne. unfold pending_for. induction Hn as [|t new Ht Hn IH]; [done|].
  rewrite filter_cons, decide_False by congruence. done.
Qed.
Lemma length_pending id new : (length (pending_for id new) <= length new)%nat.
Proof. unfold pending_for. rewrite length_fmap. apply length_filter. Qed.

Lemma publish_all adapter signal targets b :
  NoDup targets -> exists new, scheduled signal b (foldl (publish_to adapter signal) b targets) new /\
    (forall t, t ∈ new -> tm_target t ∈ targets) /\
    (forall id, id ∈ targets -> exists t, t ∈ new /\ tm_target t = id) /\
    (forall id, length (pending_for id new) <= 2)%nat.
Proof.
  intros Hnd. revert b. induction Hnd as [|target targets Hni Hnd IH]; intros b; cbn [foldl].
  { exists []. split; [|split_and!; [set_solver..|cbn; intros; apply Nat.le_0_l]].
    unfold scheduled. rewrite app_nil_r. by split_and!. }
  destruct (publish_to_spec adapter signal b target) as (new & Hs & Ht & Hlen).
  destruct (IH (publish_to adapter signal b target)) as (rest & Hs' & Hin & Hall & Hcnt).
  exists (new ++ rest). rewrite Forall_forall in Ht. split_and!.
  - by eapply scheduled_trans.
  - intros t [H|H]%elem_of_app; [rewrite (Ht _ H)|apply Hin in H]; set_solver.
  - intros id [->|H]%elem_of_cons.
    + destruct new as [|t new]; [cbn in Hlen; lia|]. exists t. split; [set_solver|apply Ht; set_solver].
    + destruct (Hall _ H) as (t & ? & ?). exists t. split; [set_solver|done].
  - intros id. rewrite pending_for_app, length_app. destruct (decide (id = target)) as [->|Hne].
    + assert (pending_for target rest = []) as ->; [|pose proof (length_pending target new); cbn; lia].
      destruct (pending_for target rest) as [|x l] eqn:E; [done|].
      assert (x ∈ pending_for target rest) as Hx by (rewrite E; set_solver).
      unfold pending_for in Hx. apply list_elem_of_fmap in Hx as (t & _ & [Htt Htr]%list_elem_of_filter).
      apply Hin in Htr. by rewrite Htt in Htr.
    + rewrite (pending_other id target new); [apply Hcnt|by apply Forall_forall|done].
Qed.

Lemma elem_of_targets b sender adapter to range id :
  id ∈ targets_of b sender adapter to range <-> is_target b sender adapter to id = true /\ id ∈ range.
Proof. unfold targets_of. by rewrite merge_sort_Permutation, list_elem_of_filter. Qed.

Lemma is_target_true b sender adapter to id :
  is_target b sender adapter to id = true <->
  id <> sender /\ exists t, bus_heap b !! id = Some t /\ ad_ID (ms_adapter t) = ad_ID adapter /\ (to = "" \/ to = ms_peerID t).
Proof.
  unfold is_target. rewrite andb_true_iff, negb_true_iff, bool_decide_eq_false. apply and_iff_compat_l'.
  intros _. destruct (bus_heap b !! id) as [t|]; [|naive_solver].
  rewrite andb_true_iff, orb_true_iff, !bool_decide_eq_true. naive_solver.
Qed.

(** A signal that is accepted is on its way to every session it concerns, and only to those. *)
Lemma bus_Publish_spec b sender s signal now range cancelled :
  bus_ok b -> range ≡ₚ elements (bus_sessions b) -> bus_heap b !! sender = Some s ->
  bus_closed b = false -> ms_closed s = false -> ad_Unavailable (ms_adapter s) = false ->
  let published := stamp signal signalingTopic (ms_peerID s) now in
  let (err, b') := bus_Publish b sender signal now range cancelled in
  err = cancelled /\ bus_ok b' /\
  forall target t, target ∈ bus_sessions b -> target <> sender -> bus_heap b !! target = Some t ->
    ad_ID (ms_adapter t) = ad_ID (ms_adapter s) -> sg_To signal = "" \/ sg_To signal = ms_peerID t ->
    exists tm, tm ∈ bus_timers b' /\ tm_target tm = target /\ tm_signal tm = published.
Proof.
  intros Hb Hperm Hs Hcl Hscl Hav published. unfold bus_Publish. rewrite Hs, Hcl, Hscl, Hav. cbn [orb].
  fold published. set (b1 := mkBus _ _ _ _ _ _ _).
  set (targets := targets_of b1 sender (ms_adapter s) (sg_To published) range).
  destruct (publish_all (ms_adapter s) published targets b1) as (new & Hsched & Hin & Hall & Hcnt).
  { unfold targets, targets_of. rewrite merge_sort_Permutation. apply NoDup_filter. rewrite Hperm. apply NoDup_elements. }
  set (b' := foldl _ b1 targets) in *. destruct Hsched as (Eh & Ess & Ecl & El & Et & Ep & Hsig). cbn in Eh, Ess, Ecl, El, Et, Ep.
  rewrite Forall_forall in Hsig. destruct Hb as [Ht He Hc Hn Hse Hp Hclo].
  assert (extends b b') as Hx by (split; [rewrite El; set_solver|rewrite Eh; eauto]).
  assert (forall t, t ∈ new -> addressed b' (tm_target t) (tm_signal t)) as Hnew.
  { intros t Htn. rewrite (Hsig _ Htn). specialize (Hin _ Htn). unfold targets in Hin.
    apply elem_of_targets in Hin as [(Hne & x & Hx1 & Hx2 & Hx3)%is_target_true _].
    exists sender, s, x. rewrite El, Eh. split_and!; try done. set_solver. }
  split_and!; [done|split|].
  - intros t. rewrite Et. intros [H|H]%elem_of_app; [|by apply Hnew]. eapply addressed_extends; eauto.
  - rewrite Eh. intros id x sig Hi Hx'. eapply addressed_extends; eauto.
  - rewrite Eh. eauto.
  - rewrite Eh, Et, El. intros id x sig Hi. rewrite pending_for_app, fmap_app, !copies_app.
    pose proof (Hn id x sig Hi). cbn [fmap list_fmap].
    assert (copies sig (pending_for id new) <= 2 * copies sig [published])%nat; [|cbn in *; lia].
    destruct (decide (published = sig)) as [->|Hne].
    + assert (copies sig [sig] = 1%nat) as -> by (unfold copies; by rewrite filter_cons, decide_True).
      etrans; [apply copies_le|]. etrans; [apply Hcnt|lia].
    + etrans; [|apply Nat.le_0_l]. unfold copies. destruct (base.filter _ (pending_for id new)) as [|y l] eqn:E; [done|].
      assert (y ∈ base.filter (fun x => x = sig) (pending_for id new)) as [-> Hy]%list_elem_of_filter by (rewrite E; set_solver).
      unfold pending_for in Hy. apply list_elem_of_fmap in Hy as (t & Hty & [_ Htn]%list_elem_of_filter).
      exfalso. apply Hne. rewrite Hty. symmetry. by apply Hsig.
  - rewrite Ess, Eh. done.
  - rewrite Ep, El, length_app. cbn. lia.
  - by rewrite Ecl, Hcl.
  - intros target t Hts Hne Htt Hid Hto. destruct (Hall target) as (tm & Htm & Htt').
    { unfold targets. apply elem_of_targets. split; [|rewrite Hperm; set_solver].
      apply is_target_true. split; [done|]. by exists t. }
    exists tm. rewrite Et. split_and!; [set_solver|done|by apply Hsig].
Qed.

Lemma bus_Publish_ok b sender signal now range cancelled :
  bus_ok b -> range ≡ₚ elements (bus_sessions b) -> bus_ok (bus_Publish b sender signal now range cancelled).2.
Proof.
  intros Hb Hperm. destruct (bus_heap b !! sender) as [s|] eqn:Es.
  - destruct (bus_closed b || ms_closed s || ad_Unavailable (ms_adapter s)) eqn:E.
    + unfold bus_Publish. rewrite Es. destruct (bus_closed b || ms_closed s); [done|]. cbn in E. rewrite E. cbn.
      destruct Hb as [Ht He Hc Hn Hse Hp Hclo]. by split.
    + apply orb_false_iff in E as [[E1 E2]%orb_false_iff E3].
      pose proof (bus_Publish_spec b sender s signal now range cancelled Hb Hperm Es E1 E2 E3) as H.
      destruct (bus_Publish _ _ _ _ _ _). apply H.
  - unfold bus_Publish. by rewrite Es.
Qed.

Lemma bus_reachable_ok seed b : reachable (fun b => b = newSignalingBus seed) bus_step b -> bus_ok b.
Proof.
  intros H. apply (invariant (fun b => b = newSignalingBus seed) bus_step bus_ok); [| |done].
  - intros ? ->. apply bus_ok_init.
  - intros s s' _ Hs []; eauto using CreateSession_ok, bus_Publish_ok, fire_ok, receive_ok, session_Close_ok, bus_Close_ok.
Qed.

(** C40: the signaling bus delivers what was published, to whom it was addressed.  In every interleaving of
    sessions being created and closed, signals published and received and timers firing: a signal in a
    session's channel was published by another session of the same adapter, was addressed to this one or to all, and
    carries the sender's name, the topic and the version; no channel holds more than 128; a session has
    received or will receive at most two copies for each time a signal was published; the counter of publications is
    exact; a closed bus has no timer left.  And a signal that an open session of an available adapter publishes is
    scheduled for every session it concerns. *)
Theorem soak_bus_delivery seed b :
  reachable (fun b => b = newSignalingBus seed) bus_step b ->
  (forall id s, bus_heap b !! id = Some s ->
    (length (ms_events s) <= 128)%nat /\
    forall signal,
      (signal ∈ ms_events s -> addressed b id signal) /\
      (copies signal (ms_events s) + copies signal (pending_for id (bus_timers b)) <= 2 * copies signal (bus_log b).*2)%nat) /\
  st_Published (bus_stats b) = Z.of_nat (length (bus_log b)) /\
  (bus_closed b = true -> bus_timers b = []) /\
  (forall sender s signal now range cancelled target t,
    range ≡ₚ elements (bus_sessions b) -> bus_heap b !! sender = Some s ->
    bus_closed b = false -> ms_closed s = false -> ad_Unavailable (ms_adapter s) = false ->
    target ∈ bus_sessions b -> target <> sender -> bus_heap b !! target = Some t ->
    ad_ID (ms_adapter t) = ad_ID (ms_adapter s) -> sg_To signal = "" \/ sg_To signal = ms_peerID t ->
    exists tm, tm ∈ bus_timers (bus_Publish b sender signal now range cancelled).2 /\ tm_target tm = target /\
      tm_signal tm = stamp signal signalingTopic (ms_peerID s) now).
Proof.
  intros Hb%bus_reachable_ok. split_and!; [|apply Hb..|].
  - intros id s Hs. split; [by eapply bk_capacity|]. intros signal.
    split; [by eapply bk_events|by apply bk_copies].
  - intros sender s signal now range cancelled target t Hp Hs H1 H2 H3 Ht Hne Htt Hid Hto.
    pose proof (bus_Publish_spec b sender s signal now range cancelled Hb Hp Hs H1 H2 H3) as H. cbv zeta in H.
    destruct (bus_Publish _ _ _ _ _ _). destruct H as (_ & _ & H). by eapply H.
Qed.

Module SoakBusWitness.
Definition nostr : adapterConfig :=
  mkAdapter "nostr" "Native Nostr" (2 * Millisecond) (18 * Millisecond) (16 * Millisecond) false 1 ["offer"].
Definition offer : Signal := mkSignal 0 "" "offer" "session" "" "SOAKSERVER0000000001" 0 "v=0" None "".
Definition u1 := CreateSession (newSignalingBus 1) nostr "SOAKSERVER0000000001".
Definition u2 := CreateSession u1 nostr "SOAKCLIENT0000000001".
Definition now : Time := Unix 1700000000 0.
Definition u3 := (bus_Publish u2 1 offer now [1%nat; 0%nat] None).2.
Definition u4 := fire u3 1.

Lemma u4_reachable : reachable (fun b => b = newSignalingBus 1) bus_step u4.
Proof.
  apply (reach_step _ _ u3); [|apply (bus_fire u3 1)].
  apply (reach_step _ _ u2); [|apply (bus_publish u2 1 offer now [1%nat; 0%nat] None)].
  - apply (reach_step _ _ u1); [|apply bus_create]. apply (reach_step _ _ (newSignalingBus 1)); [|apply bus_create].
    by apply reach_init.
  - apply NoDup_Permutation; [by repeat constructor; set_solver|apply NoDup_elements|].
    intros x. rewrite elem_of_elements. cbn. set_solver.
Qed.

(** The offer arrives at the server, and one copy is still on its way. *)
Lemma soak_bus_delivery_witness :
  let published := stamp offer signalingTopic "SOAKCLIENT0000000001" now in
  (exists s, bus_heap u4 !! 0%nat = Some s /\ ms_events s = [published]) /\
  pending_for 0 (bus_timers u4) = [published] /\ addressed u4 0 published.
Proof.
  intros published. assert (exists s, bus_heap u4 !! 0%nat = Some s /\ ms_events s = [published]) as (s & Hs & He).
  { eexists. split; vm_compute; reflexivity. }
  split; [by exists s|]. split; [vm_compute; reflexivity|].
  destruct (soak_bus_delivery 1 u4 u4_reachable) as [H _]. apply (H 0%nat s Hs). rewrite He. set_solver.
Defined.
End SoakBusWitness.
