(* ===== verification/Soak.v ===== *)
(** The stability tool (cmd/webrtc-soak/main.go): its arguments, the scenarios, an iteration with its verified
    transfers, and the report.

    The standard library's [flag] and [strconv.ParseInt] are written out.  What the endpoints, the clock and the
    file system do is an argument of the operations; messages on the terminal are left out. *)
From S2P Require Export SoakBus GoIP GoIO.
From Stdlib Require Import QArith.
Local Open Scope Z_scope.

(** ** [strconv.ParseInt(s, 0, 64)] *)

Definition lower (b : byte) : Z := Z.lor (byte_Z b) 32.
Definition is_dec (b : byte) : bool := (48 <=? byte_Z b) && (byte_Z b <=? 57).

(** [underscoreOK] after the sign: [last] is the class of the previous character. *)
Inductive last_char := LStart | LDigit | LUnderscore | LOther.
Fixpoint underscores_ok (hex : bool) (last : last_char) (l : list byte) : bool :=
  match l with
  | [] => match last with LUnderscore => false | _ => true end
  | b :: l =>
      if is_dec b || (hex && (97 <=? lower b) && (lower b <=? 102)) then underscores_ok hex LDigit l
      else if bool_decide (b = x5f) then match last with LDigit => underscores_ok hex LUnderscore l | _ => false end
      else match last with LUnderscore => false | _ => underscores_ok hex LOther l end
  end.
Definition underscoreOK (l : list byte) : bool :=
  match l with
  | x30 :: p :: rest =>
      if (lower p =? 98) || (lower p =? 111) || (lower p =? 120) then underscores_ok (lower p =? 120) LDigit rest
      else underscores_ok false LStart l
  | _ => underscores_ok false LStart l
  end.

(** The loop of [ParseUint] in a base; underscores are skipped. *)
Definition digit_value (b : byte) : option Z :=
  if is_dec b then Some (byte_Z b - 48)
  else if (97 <=? lower b) && (lower b <=? 122) then Some (lower b - 97 + 10)
  else None.
Fixpoint parse_base (base : Z) (l : list byte) (acc : Z) : option Z :=
  match l with
  | [] => Some acc
  | b :: l =>
      if bool_decide (b = x5f) then parse_base base l acc
      else match digit_value b with
           | Some d => if base <=? d then None else parse_base base l (acc * base + d)
           | None => None
           end
  end.
Definition parse_magnitude (l : list byte) : option Z :=
  let value :=
    match l with
    | [] => None
    | x30 :: p :: _ :: _ =>
        if lower p =? 98 then parse_base 2 (drop 2 l) 0
        else if lower p =? 111 then parse_base 8 (drop 2 l) 0
        else if lower p =? 120 then parse_base 16 (drop 2 l) 0
        else parse_base 8 (drop 1 l) 0
    | x30 :: rest => parse_base 8 rest 0
    | _ => parse_base 10 l 0
    end in
  if bool_decide (x5f ∈ l) && negb (underscoreOK l) then None else value.
Definition ParseInt (s : string) : result Z :=
  let bad := Err (Errorf "strconv.ParseInt: parsing %q" [AStr s]) in
  let '(sign, l) :=
    match bytes_of s with
    | x2b :: l => (1, l)
    | x2d :: l => (-1, l)
    | l => (1, l)
    end in
  match parse_magnitude l with
  | Some v => if (- 2 ^ 63 <=? sign * v) && (sign * v <? 2 ^ 63) then Ok (sign * v) else bad
  | None => bad
  end.

(** ** Arguments *)

Record profile := mkProfile { pr_Iterations : Z; pr_PayloadBytes : Z }.
Definition profiles : gmap string profile :=
  list_to_map [("smoke", mkProfile 1 (64 * 1024)); ("ci", mkProfile 2 (512 * 1024)); ("soak", mkProfile 12 (8 * 1024 * 1024))].

Record soak_options := mkSoakOptions {
  op_Profile : string;
  op_Iterations : Z;
  op_PayloadBytes : Z;
  op_Report : string;
  op_Scenarios : list string;
  op_ScenarioFilter : bool
}.

(** The values of the flags and the names of those that were set. *)
Record flag_values := mkFlagValues {
  fv_profile : string;
  fv_iterations : Z;
  fv_payloadBytes : Z;
  fv_report : string;
  fv_scenarios : string;
  fv_changed : list string
}.
Definition flag_defaults : flag_values := mkFlagValues "smoke" 0 0 "" "" [].

Definition ErrHelp : error := ErrNew "flag: help requested".

(** Setting a flag; [None] when it is not defined. *)
Definition set_flag (fv : flag_values) (name value : string) : option (result flag_values) :=
  let changed := name :: fv_changed fv in
  let number (k : Z -> flag_values) :=
    Some (match ParseInt value with
          | Ok v => Ok (k v)
          | Err err => Err (Wrapf "invalid value %q for flag -%s: %v" [AStr value; AStr name] err)
          end) in
  if bool_decide (name = "profile") then
    Some (Ok (mkFlagValues value (fv_iterations fv) (fv_payloadBytes fv) (fv_report fv) (fv_scenarios fv) changed))
  else if bool_decide (name = "iterations") then
    number (fun v => mkFlagValues (fv_profile fv) v (fv_payloadBytes fv) (fv_report fv) (fv_scenarios fv) changed)
  else if bool_decide (name = "payload-bytes") then
    number (fun v => mkFlagValues (fv_profile fv) (fv_iterations fv) v (fv_report fv) (fv_scenarios fv) changed)
  else if bool_decide (name = "report") then
    Some (Ok (mkFlagValues (fv_profile fv) (fv_iterations fv) (fv_payloadBytes fv) value (fv_scenarios fv) changed))
  else if bool_decide (name = "scenarios") then
    Some (Ok (mkFlagValues (fv_profile fv) (fv_iterations fv) (fv_payloadBytes fv) (fv_report fv) value changed))
  else None.

(** An argument of [FlagSet.Parse]. *)
Inductive flag_argument :=
  | NotFlag                                         (** the rest are positional *)
  | Terminator                                      (** "--" *)
  | BadSyntax
  | Named (name : list byte) (value : option (list byte)).
Fixpoint cut_equals (name l : list byte) : list byte * option (list byte) :=
  match l with
  | [] => (name, None)
  | b :: l => if bool_decide (b = x3d) then (name, Some l) else cut_equals (name ++ [b]) l
  end.
Definition classify (s : string) : flag_argument :=
  let named name :=
    match name with
    | [] => BadSyntax
    | b :: rest =>
        if bool_decide (b = x2d) || bool_decide (b = x3d) then BadSyntax
        else let '(name, value) := cut_equals [b] rest in Named name value
    end in
  match bytes_of s with
  | [x2d; x2d] => Terminator
  | x2d :: x2d :: name => named name
  | x2d :: b :: rest => named (b :: rest)
  | _ => NotFlag
  end.

Fixpoint flag_Parse (fv : flag_values) (args : list string) : result (flag_values * list string) :=
  match args with
  | [] => Ok (fv, [])
  | s :: rest =>
      match classify s with
      | NotFlag => Ok (fv, args)
      | Terminator => Ok (fv, rest)
      | BadSyntax => Err (Errorf "bad flag syntax: %s" [AStr s])
      | Named name given =>
          let name := string_of name in
          match set_flag fv name "" with
          | None =>
              if bool_decide (name = "help") || bool_decide (name = "h") then Err ErrHelp
              else Err (Errorf "flag provided but not defined: -%s" [AStr name])
          | Some _ =>
              match given, rest with
              | Some value, _ =>
                  match set_flag fv name (string_of value) with
                  | Some (Ok fv) => flag_Parse fv rest
                  | Some (Err err) => Err err
                  | None => Ok (fv, rest)
                  end
              | None, value :: rest =>
                  match set_flag fv name value with
                  | Some (Ok fv) => flag_Parse fv rest
                  | Some (Err err) => Err err
                  | None => Ok (fv, rest)
                  end
              | None, [] => Err (Errorf "flag needs an argument: -%s" [AStr name])
              end
          end
      end
  end.

(** [strings.Split(value, ",")] and [splitNames]. *)
Fixpoint split_comma (cur l : list byte) : list (list byte) :=
  match l with
  | [] => [cur]
  | b :: l => if bool_decide (b = x2c) then cur :: split_comma [] l else split_comma (cur ++ [b]) l
  end.
Definition add_name (names : list string) (item : string) : list string :=
  if negb (bool_decide (item = "")) && negb (bool_decide (item ∈ names)) then names ++ [item] else names.
Definition splitNames (value : string) : list string :=
  if bool_decide (TrimSpace value = "") then []
  else foldl add_name [] (TrimSpace ∘ string_of <$> split_comma [] (bytes_of value)).

Definition parseArguments (arguments : list string) : result soak_options :=
  let arguments := match arguments with "--" :: rest => rest | _ => arguments end in
  '(fv, positional) ← flag_Parse flag_defaults arguments;
  refuse (negb (bool_decide (positional = []))) (Errorf "unexpected positional arguments: %s" [AStr (GoIP.join " " positional)]);;
  selectedProfile ← of_option (Errorf "unknown profile %q; expected smoke, ci, or soak" [AStr (fv_profile fv)])
    (profiles !! fv_profile fv);
  let changed name := bool_decide (name ∈ fv_changed fv) in
  refuse ((changed "iterations" && (fv_iterations fv <? 1)) || (changed "payload-bytes" && (fv_payloadBytes fv <? 1)))
    (ErrNew "--iterations and --payload-bytes must be positive integers");;
  let iterations := if fv_iterations fv =? 0 then pr_Iterations selectedProfile else fv_iterations fv in
  let payloadBytes := if fv_payloadBytes fv =? 0 then pr_PayloadBytes selectedProfile else fv_payloadBytes fv in
  let selectedNames := splitNames (fv_scenarios fv) in
  refuse (changed "scenarios" && bool_decide (selectedNames = [])) (ErrNew "no soak scenarios selected");;
  Ok (mkSoakOptions (fv_profile fv) iterations payloadBytes (fv_report fv) selectedNames (changed "scenarios")).

(** ** Scenarios *)

Record scenario := mkScenario { sc_Name : string; sc_Reconnect : bool; sc_Adapters : list adapterConfig }.

Definition scenarios : list scenario :=
  [mkScenario "nostr-trickle" false
     [mkAdapter "nostr" "Native Nostr" (2 * Millisecond) (14 * Millisecond) (20 * Millisecond) false 0%Q []];
   mkScenario "torrent-full-sdp" false
     [mkAdapter "torrent" "Native BitTorrent" (3 * Millisecond) (6 * Millisecond) 0 false 0%Q []];
   mkScenario "parallel-race" false
     [mkAdapter "nostr" "Native Nostr" (2 * Millisecond) (18 * Millisecond) (16 * Millisecond) false 1%Q ["offer"];
      mkAdapter "torrent" "Native BitTorrent" (6 * Millisecond) (8 * Millisecond) 0 false 1%Q ["offer"]];
   mkScenario "adapter-outage" false
     [mkAdapter "nostr-offline" "Native Nostr offline" 0 0 0 true 0%Q [];
      mkAdapter "torrent" "Native BitTorrent" (4 * Millisecond) (5 * Millisecond) 0 false 0%Q []];
   mkScenario "reconnect-same-stream" true
     [mkAdapter "nostr" "Native Nostr" (2 * Millisecond) (12 * Millisecond) (14 * Millisecond) false 0%Q []]].

Definition find_scenario (name : string) : option scenario :=
  list_to_map (M := gmap string scenario) ((fun s => (sc_Name s, s)) <$> scenarios) !! name.

Definition selectScenarios (names : list string) (filtered : bool) : result (list scenario) :=
  if negb filtered then Ok scenarios
  else
    refuse (bool_decide (names = [])) (ErrNew "no soak scenarios selected");;
    let selected := omap find_scenario names in
    let unknown := base.filter (fun name => find_scenario name = None) names in
    refuse (negb (bool_decide (unknown = []))) (Errorf "unknown soak scenarios: %s" [AStr (GoIP.join ", " unknown)]);;
    refuse (bool_decide (selected = [])) (ErrNew "no soak scenarios selected");;
    Ok selected.
Definition scenarioNames (values : list scenario) : list string := sc_Name <$> values.

(** ** Verified transfers *)

(** [deterministicPayload]. *)
Fixpoint payload_loop (n : nat) (state : Z) : list byte :=
  match n with
  | O => []
  | S n =>
      let state := wrapU 32 (wrapU 32 (state * 1103515245) + 12345) in
      Z_byte (Z.shiftr state 24) :: payload_loop n state
  end.
Definition deterministicPayload (byteLength seed : Z) : list byte := payload_loop (Z.to_nat byteLength) seed.

Section soak.
Context `{CR : !Crypto}.

Definition hashSeed (value : string) : Z :=
  let digest := sha256 (bytes_of value) in
  let at_ k := byte_Z (nth k digest x00) in
  Z.lor (Z.lor (Z.lor (Z.shiftl (at_ 0%nat) 24) (Z.shiftl (at_ 1%nat) 16)) (Z.shiftl (at_ 2%nat) 8)) (at_ 3%nat).

Definition chunkBytes : Z := 64 * 1024.

(** The writing loop of [transferAndVerify]. *)
Fixpoint write_chunks `{!Writer W} (fuel : nat) (sender : W) (payload : list byte) : option error * W :=
  match payload with
  | [] => (None, sender)
  | _ =>
      match fuel with
      | O => (Some (ErrNew "unreachable"), sender)
      | S fuel =>
          let chunk := take (Z.to_nat chunkBytes) payload in
          match w_write sender chunk with
          | (_, Some err, sender) => (Some err, sender)
          | (count, None, sender) =>
              if negb (count =? blen chunk) then (Some ErrShortWrite, sender)
              else write_chunks fuel sender (drop (Z.to_nat chunkBytes) payload)
          end
      end
  end.

(** [transferAndVerify]; [cancelled] when the context ends before the receiver is done. *)
Definition transferAndVerify `{!Writer W, !Reader R} (sender : W) (receiver : R) (payload : list byte)
    (cancelled : option error) : result unit * W :=
  match write_chunks (length payload) sender payload with
  | (Some err, sender) => (Err err, sender)
  | (None, sender) =>
      (match cancelled with
       | Some err => Err err
       | None =>
           match ReadFull receiver (length payload) with
           | (Err err, _) => Err err
           | (Ok actual, _) =>
               refuse (negb (bool_decide (sha256 payload = sha256 actual)))
                 (Errorf "payload hash mismatch: expected %x, received %x"
                   [AStr (string_of (sha256 payload)); AStr (string_of (sha256 actual))])
           end
       end, sender)
  end.

Definition connectionTimeout : Z := 15 * Second.

(** [runBidirectionalTransfer]: the results as they arrive, or the end of its context. *)
Inductive transfer_event := Transferred (r : result unit) | TransferTimeout.
Fixpoint await_transfers (missing : nat) (events : list transfer_event) : option (result unit) :=
  match missing with
  | O => Some (Ok tt)
  | S missing =>
      match events with
      | [] => None
      | Transferred (Err err) :: _ => Some (Err err)
      | Transferred (Ok _) :: events => await_transfers missing events
      | TransferTimeout :: _ => Some (Err (Errorf "payload transfer timed out after %s" [AInt connectionTimeout]))
      end
  end.
(** The payloads of the two directions. *)
Definition transfer_payloads (payloadBytes seed : Z) : list byte * list byte :=
  (deterministicPayload payloadBytes seed, deterministicPayload payloadBytes (Z.lxor seed 0xa5a5a5a5)).

(** ** An iteration *)

Record scenarioRun := mkScenarioRun {
  sr_DurationMS : Z; sr_TransferredBytes : Z; sr_Signaling : signalStats; sr_Strategy : string
}.

(** What [waitForStream] receives. *)
Inductive stream_wait := StreamAccepted | StreamTimeout | StreamCancelled (err : error).
Definition waitForStream (timeout : Z) (w : stream_wait) : result unit :=
  match w with
  | StreamAccepted => Ok tt
  | StreamTimeout => Err (Errorf "server stream timed out after %s" [AInt timeout])
  | StreamCancelled err => Err err
  end.

(** What an iteration meets. *)
Record iteration_env := mkIterationEnv {
  ie_key : result unit;
  ie_peerID : result unit;
  ie_listener : result unit;
  ie_connection : result string;       (** the name of the winning adapter *)
  ie_accepted : stream_wait;
  ie_transfer : Z -> result unit;      (** by seed *)
  ie_reconnect : option error;
  ie_sameStream : bool;
  ie_extraStream : bool;
  ie_stats : signalStats;
  ie_duration : Z
}.

(** The deferred calls, in the order in which they run. *)
Inductive soak_close := CloseSoakConnection | CloseSoakListener | CloseSoakBus.

Definition seed_of (value : scenario) (iteration : Z) (suffix : string) : Z :=
  hashSeed (sc_Name value +:+ ":" +:+ itoa iteration +:+ suffix).

(** The sessions of both ends, adapter by adapter. *)
Definition create_sessions (bus : signalingBus) (adapters : list adapterConfig) : signalingBus :=
  foldl (fun bus adapter =>
    CreateSession (CreateSession bus adapter "SOAKSERVER0000000001") adapter "SOAKCLIENT0000000001") bus adapters.

Definition runScenarioIteration (env : iteration_env) (value : scenario) (iteration payloadBytes : Z)
    : result scenarioRun * list soak_close :=
  match (ie_key env;; ie_peerID env;; ie_listener env) with
  | Err err => (Err err, [CloseSoakBus])
  | Ok _ =>
      match ie_connection env with
      | Err err => (Err err, [CloseSoakListener; CloseSoakBus])
      | Ok strategy =>
          (waitForStream connectionTimeout (ie_accepted env);;
           ie_transfer env (seed_of value iteration ":initial");;
           let transferred := wrapS 64 (payloadBytes * 2) in
           transferred ←
             (if sc_Reconnect value then
                match ie_reconnect env with
                | Some err => Err (Wrapf "reconnect same stream: %w" [] err)
                | None =>
                    refuse (negb (ie_sameStream env)) (ErrNew "reconnect replaced the client logical stream");;
                    refuse (ie_extraStream env) (Errorf "reconnect created a second server stream: %p" []);;
                    ie_transfer env (seed_of value iteration ":resumed");;
                    Ok (wrapS 64 (transferred + wrapS 64 (payloadBytes * 2)))
                end
              else Ok transferred);
           Ok (mkScenarioRun (ie_duration env) transferred (ie_stats env) strategy),
           [CloseSoakConnection; CloseSoakListener; CloseSoakBus])
      end
  end.
End soak.

(** ** The report *)

Record iterationResult := mkIterationResult {
  ir_Scenario : string; ir_Iteration : Z; ir_Passed : bool; ir_Run : option scenarioRun; ir_Error : option error
}.
Record reportSummary := mkSummary { su_Passed : Z; su_Failed : Z; su_TransferredBytes : Z; su_DurationMS : Z }.
Record soakReport := mkReport {
  rp_Profile : string; rp_Iterations : Z; rp_PayloadBytes : Z; rp_Scenarios : list string;
  rp_Results : list iterationResult; rp_Summary : reportSummary
}.

(** The body of the inner loop of [execute]. *)
Definition record_iteration (value : scenario) (iteration : Z) (outcome : result scenarioRun)
    (acc : list iterationResult * reportSummary) : list iterationResult * reportSummary :=
  let '(results, su) := acc in
  match outcome with
  | Err runErr =>
      (results ++ [mkIterationResult (sc_Name value) iteration false None (Some runErr)],
       mkSummary (su_Passed su) (su_Failed su + 1) (su_TransferredBytes su) (su_DurationMS su))
  | Ok run =>
      (results ++ [mkIterationResult (sc_Name value) iteration true (Some run) None],
       mkSummary (su_Passed su + 1) (su_Failed su) (wrapS 64 (su_TransferredBytes su + sr_TransferredBytes run))
         (wrapS 64 (su_DurationMS su + sr_DurationMS run)))
  end.

(** [execute]: the report that was made, and the error returned.  [write] is the outcome of [writeReport]. *)
Definition execute (opts : soak_options) (run : scenario -> Z -> Z -> result scenarioRun) (write : option error)
    : option error * option soakReport :=
  match selectScenarios (op_Scenarios opts) (op_ScenarioFilter opts) with
  | Err err => (Some err, None)
  | Ok selected =>
      let '(results, summary) :=
        foldl (fun acc value =>
          foldl (fun acc iteration => record_iteration value iteration (run value iteration (op_PayloadBytes opts)) acc)
            acc (seqZ 1 (op_Iterations opts)))
          ([], mkSummary 0 0 0 0) selected in
      let report := mkReport (op_Profile opts) (op_Iterations opts) (op_PayloadBytes opts) (scenarioNames selected)
        results summary in
      match (if negb (bool_decide (op_Report opts = "")) then write else None) with
      | Some err => (Some err, Some report)
      | None =>
          (if negb (su_Failed summary =? 0)
           then Some (Errorf "%d WebRTC soak iteration(s) failed" [AInt (su_Failed summary)]) else None,
           Some report)
      end
  end.

(** [run]: the exit code and the report. *)
Definition soak_run (arguments : list string) (run : scenario -> Z -> Z -> result scenarioRun) (write : option error)
    : Z * option soakReport :=
  if existsb (fun argument => bool_decide (argument = "--help") || bool_decide (argument = "-h")) arguments then (0, None)
  else
    match parseArguments arguments with
    | Err err => (if errors_Is err ErrHelp then 0 else 1, None)
    | Ok parsed =>
        match execute parsed run write with
        | (Some _, report) => (1, report)
        | (None, report) => (0, report)
        end
    end.

(** ** Proofs *)

Lemma splitNames_NoDup value : NoDup (splitNames value).
Proof.
  unfold splitNames. case_bool_decide as Hblank; [constructor|]. clear Hblank. generalize (TrimSpace ∘ string_of <$> split_comma [] (bytes_of value)).
  intros l. assert (NoDup (@nil string)) as Hnil by constructor. revert Hnil. generalize (@nil string).
  induction l as [|x l IH]; intros names Hn; cbn [foldl]; [done|]. apply IH. unfold add_name.
  destruct (bool_decide (x = "")); [done|]. cbn [negb andb]. case_bool_decide as Hx; [done|]. cbn [negb].
  apply NoDup_app. split_and!; [done|set_solver|apply NoDup_singleton].
Qed.

(** Flags keep their defaults until they are set. *)
Definition flags_ok (fv : flag_values) : Prop :=
  ("iterations" ∉ fv_changed fv -> fv_iterations fv = 0) /\ ("payload-bytes" ∉ fv_changed fv -> fv_payloadBytes fv = 0) /\
  ("scenarios" ∉ fv_changed fv -> fv_scenarios fv = "").

Lemma set_flag_ok fv name value fv' : flags_ok fv -> set_flag fv name value = Some (Ok fv') -> flags_ok fv'.
Proof.
  intros (Hi & Hp & Hs). unfold set_flag, flags_ok.
  repeat case_bool_decide; subst; intros E; try discriminate;
    try (destruct (ParseInt value) as [v|]; [|discriminate]); injection E as <-; cbn; rewrite !not_elem_of_cons; naive_solver.
Qed.

Lemma flag_Parse_ok fv args fv' rest : flags_ok fv -> flag_Parse fv args = Ok (fv', rest) -> flags_ok fv'.
Proof.
  remember (length args) as n eqn:Hn. assert (length args <= n)%nat as Hle by lia. clear Hn.
  revert fv args Hle. induction n as [|n IH]; intros fv [|s args] Hle Hok H; cbn in Hle; try lia;
    [by injection H as <- _..|]. cbn [flag_Parse] in H.
  destruct (classify s) as [| | |name given]; try (by injection H as <- _); [done|].
  destruct (set_flag fv (string_of name) "") as [r|]; [|by destruct (_ || _)].
  destruct given as [value|]; [|destruct args as [|value args]; [done|]].
  - destruct (set_flag fv _ (string_of value)) as [[fv1|]|] eqn:E; [|done|by injection H as <- _].
    eapply IH; [|by eapply set_flag_ok|exact H]. lia.
  - destruct (set_flag fv _ value) as [[fv1|]|] eqn:E; [|done|by injection H as <- _].
    eapply IH; [|by eapply set_flag_ok|exact H]. cbn in Hle. lia.
Qed.

Lemma profiles_positive name p : profiles !! name = Some p -> 1 <= pr_Iterations p /\ 1 <= pr_PayloadBytes p.
Proof.
  intros H%elem_of_list_to_map_2. set_unfold in H. destruct H as [H|[H|[H|[]]]]; injection H as _ ->; cbn; lia.
Qed.

(** What the arguments ask for is something to do. *)
Lemma parseArguments_Ok arguments opts :
  parseArguments arguments = Ok opts ->
  1 <= op_Iterations opts /\ 1 <= op_PayloadBytes opts /\ NoDup (op_Scenarios opts) /\
  (op_ScenarioFilter opts = true -> op_Scenarios opts <> []).
Proof.
  unfold parseArguments. intros ((fv & positional) & Hparse & H)%bind_Ok.
  apply seq_Ok in H as [_ H]. apply bind_Ok in H as (p & Hp & H). apply of_option_Ok, profiles_positive in Hp as [Hpi Hpp].
  apply seq_Ok in H as [[Hi Hb]%is_ok_refuse%orb_false_iff H]. apply seq_Ok in H as [Hs%is_ok_refuse H]. injection H as <-. cbn.
  apply flag_Parse_ok in Hparse as (Ki & Kp & Ks); [|done].
  rewrite andb_false_iff, bool_decide_eq_false, Z.ltb_ge in Hi, Hb.
  split_and!; [| |apply splitNames_NoDup|].
  - destruct (Z.eqb_spec (fv_iterations fv) 0); [done|]. destruct Hi as [Hi|]; [by apply Ki in Hi|done].
  - destruct (Z.eqb_spec (fv_payloadBytes fv) 0); [done|]. destruct Hb as [Hb|]; [by apply Kp in Hb|done].
  - intros E. rewrite E in Hs. by apply bool_decide_eq_false in Hs.
Qed.

Lemma selectScenarios_Ok names filtered selected :
  selectScenarios names filtered = Ok selected -> selected <> [] /\ selected ⊆ scenarios /\
  (filtered = true -> scenarioNames selected = names).
Proof.
  unfold selectScenarios. destruct filtered; cbn [negb]; [|intros [= <-]; done].
  intros H. apply seq_Ok in H as [_ H]. apply seq_Ok in H as [Hu%is_ok_refuse H]. apply seq_Ok in H as [Hn%is_ok_refuse H].
  injection H as <-. apply negb_false_iff, bool_decide_eq_true in Hu. apply bool_decide_eq_false in Hn.
  assert (forall name s, find_scenario name = Some s -> s ∈ scenarios /\ sc_Name s = name) as Hfind.
  { intros name s. unfold find_scenario. intros H%elem_of_list_to_map_2. apply list_elem_of_fmap in H as (x & [= -> ->] & ?). done. }
  split; [done|]. split.
  - intros s (name & _ & Hs)%list_elem_of_omap. by apply Hfind in Hs as [? _].
  - intros _. clear Hn. induction names as [|name names IH]; [done|]. rewrite filter_cons in Hu.
    destruct (decide (find_scenario name = None)) as [|Hne]; [done|]. cbn [omap list_omap].
    destruct (find_scenario name) as [s|] eqn:E; [|done]. cbn. f_equal; [by apply Hfind|by apply IH].
Qed.

Definition planned (selected : list scenario) (iterations : Z) : list (scenario * Z) :=
  selected ≫= fun value => pair value <$> seqZ 1 iterations.

Lemma foldl_planned {A} (f : A -> scenario -> Z -> A) selected n a :
  foldl (fun acc value => foldl (fun acc i => f acc value i) acc (seqZ 1 n)) a selected =
  foldl (fun acc p => f acc p.1 p.2) a (planned selected n).
Proof.
  revert a. induction selected as [|v selected IH]; intros a; [done|]. cbn [foldl]. rewrite IH. unfold planned.
  rewrite bind_cons, foldl_app. f_equal. generalize (seqZ 1 n) as l. intros l. revert a.
  induction l as [|i l IHl]; intros a; [done|]. cbn. by rewrite <- IHl.
Qed.

Lemma elem_of_planned selected n p : p ∈ planned selected n <-> p.1 ∈ selected /\ 1 <= p.2 <= n.
Proof.
  destruct p as [v i]. unfold planned. rewrite list_elem_of_bind. split.
  - intros (x & (y & [= -> ->] & Hy)%list_elem_of_fmap & Hx). rewrite elem_of_seqZ in Hy. cbn. split; [done|lia].
  - cbn. intros [Hv Hi]. exists v. split; [|done]. apply list_elem_of_fmap. exists i. split; [done|]. apply elem_of_seqZ. lia.
Qed.

Section report.
Context (run : scenario -> Z -> Z -> result scenarioRun) (payload : Z).
Definition outcome_of (p : scenario * Z) : result scenarioRun := run p.1 p.2 payload.
Definition failures (ps : list (scenario * Z)) : list (scenario * Z) := base.filter (fun p => is_ok (outcome_of p) = false) ps.

(** One entry per planned iteration, in order, and counters that agree. *)
Lemma record_all ps results su :
  let '(results', su') := foldl (fun acc p => record_iteration p.1 p.2 (outcome_of p) acc) (results, su) ps in
  (fun r => (ir_Scenario r, ir_Iteration r, ir_Passed r)) <$> results' =
    ((fun r => (ir_Scenario r, ir_Iteration r, ir_Passed r)) <$> results) ++
    ((fun p => (sc_Name p.1, p.2, is_ok (outcome_of p))) <$> ps) /\
  su_Failed su' = su_Failed su + Z.of_nat (length (failures ps)) /\
  su_Passed su' + su_Failed su' = su_Passed su + su_Failed su + Z.of_nat (length ps).
Proof.
  revert results su. induction ps as [|p ps IH]; intros results su; cbn [foldl].
  { rewrite app_nil_r. cbn. split_and!; [done|lia|lia]. }
  unfold failures in *. rewrite filter_cons. unfold record_iteration at 2.
  destruct (outcome_of p) as [r|e] eqn:E; cbn [is_ok].
  - rewrite decide_False by done.
    specialize (IH (results ++ [mkIterationResult (sc_Name p.1) p.2 true (Some r) None])
      (mkSummary (su_Passed su + 1) (su_Failed su) (wrapS 64 (su_TransferredBytes su + sr_TransferredBytes r))
        (wrapS 64 (su_DurationMS su + sr_DurationMS r)))).
    destruct (foldl _ _ ps) as [results' su']. destruct IH as (-> & Hf & Hp). cbn in Hf, Hp.
    rewrite fmap_app, !fmap_cons, <- app_assoc. cbv beta. rewrite E. cbn [length]. split_and!; [done|lia|lia].
  - rewrite decide_True by done.
    specialize (IH (results ++ [mkIterationResult (sc_Name p.1) p.2 false None (Some e)])
      (mkSummary (su_Passed su) (su_Failed su + 1) (su_TransferredBytes su) (su_DurationMS su))).
    destruct (foldl _ _ ps) as [results' su']. destruct IH as (-> & Hf & Hp). cbn in Hf, Hp.
    rewrite fmap_app, !fmap_cons, <- app_assoc. cbv beta. rewrite E. cbn [length]. split_and!; [done|lia|lia].
Qed.

Lemma failures_none ps : Z.of_nat (length (failures ps)) = 0 <-> forall p, p ∈ ps -> is_ok (outcome_of p) = true.
Proof.
  unfold failures. induction ps as [|p ps IH]; [set_solver|]. rewrite filter_cons.
  destruct (decide (is_ok (outcome_of p) = false)) as [E|E]; cbn [length].
  - split; [lia|]. intros H. rewrite (H p) in E; [done|set_solver].
  - rewrite IH. apply not_false_iff_true in E. set_solver.
Qed.
End report.

(** The exit code of the stability tool is its verdict.  When scenarios are run at all, the arguments selected at
    least one scenario and at least one iteration with at least one byte; the report has exactly one entry for every
    selected scenario and every iteration from 1, in order, whose status is the outcome of that run; the
    counters add up; and the exit code is 0 exactly when every run passed and the report, if one was asked for,
    could be written. *)
Theorem soak_exit arguments run write code report :
  soak_run arguments run write = (code, Some report) ->
  exists opts selected,
    parseArguments arguments = Ok opts /\ 1 <= op_Iterations opts /\ 1 <= op_PayloadBytes opts /\
    selectScenarios (op_Scenarios opts) (op_ScenarioFilter opts) = Ok selected /\ selected <> [] /\
    (fun r => (ir_Scenario r, ir_Iteration r, ir_Passed r)) <$> rp_Results report =
      (fun p => (sc_Name p.1, p.2, is_ok (outcome_of run (op_PayloadBytes opts) p))) <$> planned selected (op_Iterations opts) /\
    su_Passed (rp_Summary report) + su_Failed (rp_Summary report) = Z.of_nat (length (rp_Results report)) /\
    (code = 0 <->
      (forall value iteration, value ∈ selected -> 1 <= iteration <= op_Iterations opts ->
        is_ok (run value iteration (op_PayloadBytes opts)) = true) /\
      (op_Report opts = "" \/ write = None)).
Proof.
  unfold soak_run. destruct (existsb _ _); [done|]. destruct (parseArguments arguments) as [opts|] eqn:Ep; [|done].
  destruct (parseArguments_Ok _ _ Ep) as (Hi & Hb & _). unfold execute.
  destruct (selectScenarios _ _) as [selected|] eqn:Es; [|done]. destruct (selectScenarios_Ok _ _ _ Es) as [Hne _].
  rewrite (foldl_planned (fun acc v i => record_iteration v i (run v i (op_PayloadBytes opts)) acc)).
  pose proof (record_all run (op_PayloadBytes opts) (planned selected (op_Iterations opts)) [] (mkSummary 0 0 0 0)) as H.
  change (fun acc p => record_iteration p.1 p.2 (run p.1 p.2 (op_PayloadBytes opts)) acc) with
    (fun acc p => record_iteration p.1 p.2 (outcome_of run (op_PayloadBytes opts) p) acc).
  destruct (foldl _ _ (planned _ _)) as [results su]. destruct H as (Hr & Hf & Hp). cbn [su_Failed su_Passed] in Hf, Hp.
  assert (su_Failed su = 0 <-> forall value iteration, value ∈ selected -> 1 <= iteration <= op_Iterations opts ->
    is_ok (run value iteration (op_PayloadBytes opts)) = true) as Hpass.
  { rewrite Hf, Z.add_0_l, (failures_none run (op_PayloadBytes opts)). split.
    - intros H value iteration Hv Hit. apply (H (value, iteration)). by apply elem_of_planned.
    - intros H [value iteration] [Hv Hit]%elem_of_planned. by apply H. }
  intros Hrun. exists opts, selected.
  assert (report = mkReport (op_Profile opts) (op_Iterations opts) (op_PayloadBytes opts) (scenarioNames selected) results su /\
    (code = 0 <-> su_Failed su = 0 /\ (op_Report opts = "" \/ write = None))) as [-> Hcode].
  { destruct (bool_decide_reflect (op_Report opts = "")) as [He|He]; cbn [negb] in Hrun.
    - destruct (Z.eqb_spec (su_Failed su) 0); cbn [negb] in Hrun; injection Hrun as <- <-; (split; [done|naive_solver]).
    - destruct write as [werr|]; [injection Hrun as <- <-; split; [done|naive_solver]|].
      destruct (Z.eqb_spec (su_Failed su) 0); cbn [negb] in Hrun; injection Hrun as <- <-; (split; [done|naive_solver]). }
  cbn [rp_Results rp_Summary]. split_and!; try done.
  - apply (f_equal length) in Hr. rewrite !length_fmap in Hr. cbn in Hr. rewrite length_fmap in Hr. lia.
  - by rewrite Hcode, Hpass.
Qed.

Section transfers.
Context `{CR : !Crypto, WR : !Writer W, WL : !WriterLaws W, RD : !Reader R, RL : !ReaderLaws R}.

Lemma write_chunks_ok fuel (sender sender' : W) payload :
  write_chunks fuel sender payload = (None, sender') -> w_sink sender' = w_sink sender ++ payload.
Proof using WL.
  revert sender payload. induction fuel as [|fuel IH]; intros sender [|b payload]; cbn [write_chunks];
    [intros [= <-]; by rewrite app_nil_r|done|intros [= <-]; by rewrite app_nil_r|].
  set (chunk := take _ _). destruct (w_write sender chunk) as [[count [err|]] s1] eqn:E; [done|].
  apply w_write_spec in E as [_ Hs]. destruct (Z.eqb_spec count (blen chunk)) as [->|]; cbn [negb]; [|done].
  intros ->%IH. rewrite Hs. unfold blen. rewrite Nat2Z.id, take_ge by done. unfold chunk. rewrite <- app_assoc. f_equal.
  apply take_drop.
Qed.

(** A writer that accepts everything gets the whole payload: the bound on the loop is enough. *)
Lemma write_chunks_complete fuel (sender : W) payload :
  (forall w p, exists w', w_write w p = (blen p, None, w')) -> (length payload <= fuel)%nat ->
  exists sender', write_chunks fuel sender payload = (None, sender').
Proof using Type.
  intros Hw. revert sender payload. induction fuel as [|fuel IH]; intros sender [|b payload] Hf; cbn [write_chunks];
    [by eexists|cbn in Hf; lia|by eexists|].
  destruct (Hw sender (take (Z.to_nat chunkBytes) (b :: payload))) as [w' ->]. rewrite Z.eqb_refl. cbn [negb]. apply IH.
  rewrite length_drop. unfold chunkBytes. cbn [length] in *. lia.
Qed.

(** A transfer that is reported as verified has written the payload, and the receiver has read as many bytes with
    the same digest; a receiver that is sent the payload verifies it. *)
Lemma transfer_verified (sender sender' : W) (receiver : R) payload :
  (transferAndVerify sender receiver payload None = (Ok tt, sender') ->
    w_sink sender' = w_sink sender ++ payload /\
    sha256 (take (length payload) (r_rest receiver)) = sha256 payload /\ (length payload <= length (r_rest receiver))%nat) /\
  (forall rest, r_rest receiver = payload ++ rest -> (forall w p, exists w', w_write w p = (blen p, None, w')) ->
    exists sender'', transferAndVerify sender receiver payload None = (Ok tt, sender'')).
Proof using WL RL.
  unfold transferAndVerify. split.
  - destruct (write_chunks _ sender payload) as [[err|] s1] eqn:E; [done|]. apply write_chunks_ok in E.
    destruct (ReadFull receiver (length payload)) as [[actual|] r] eqn:Er; [|done]. intros [= Hd <-].
    apply refuse_Ok, negb_false_iff, bool_decide_eq_true in Hd. apply ReadFull_inv in Er as (Hl & Hr & _).
    rewrite Hr, length_app, <- Hl, take_app_length. split_and!; [done|done|lia].
  - intros rest Hr Hw. destruct (write_chunks_complete (length payload) sender payload Hw ltac:(done)) as [s1 ->].
    destruct (ReadFull_ok receiver payload rest Hr) as (r' & -> & _). rewrite bool_decide_true by done. by eexists.
Qed.
End transfers.

(** An iteration closes what it opened, the bus last; one that passes has verified a transfer in both directions, and
    in a reconnecting scenario a second one over the same stream, with no second stream accepted. *)
Lemma iteration_outcome `{!Crypto} env value iteration payloadBytes :
  let '(outcome, closed) := runScenarioIteration env value iteration payloadBytes in
  last closed = Some CloseSoakBus /\
  (CloseSoakListener ∈ closed <-> is_ok (ie_key env;; ie_peerID env;; ie_listener env) = true) /\
  (CloseSoakConnection ∈ closed <->
    is_ok (ie_key env;; ie_peerID env;; ie_listener env) = true /\ is_ok (ie_connection env) = true) /\
  forall run, outcome = Ok run ->
    is_ok (ie_transfer env (seed_of value iteration ":initial")) = true /\
    (sc_Reconnect value = true -> ie_reconnect env = None /\ ie_sameStream env = true /\ ie_extraStream env = false /\
      is_ok (ie_transfer env (seed_of value iteration ":resumed")) = true) /\
    (0 <= payloadBytes < 2 ^ 60 -> sr_TransferredBytes run = payloadBytes * (if sc_Reconnect value then 4 else 2)).
Proof.
  unfold runScenarioIteration. destruct (ie_key env;; ie_peerID env;; ie_listener env) as [u|err]; cbn [is_ok].
  2: { split_and!; [done|set_solver..|done]. }
  destruct (ie_connection env) as [strategy|err]; cbn [is_ok]; [|split_and!; [done|set_solver..|done]].
  split_and!; [done|set_solver..|]. intros run Hrun. apply seq_Ok in Hrun as [_ Hrun]. apply seq_Ok in Hrun as [H1 Hrun].
  split; [done|]. apply bind_Ok in Hrun as (transferred & Ht & Hrun). injection Hrun as <-. cbn [sr_TransferredBytes].
  destruct (sc_Reconnect value).
  - destruct (ie_reconnect env); [done|]. apply seq_Ok in Ht as [Hs%is_ok_refuse Ht]. apply seq_Ok in Ht as [He%is_ok_refuse Ht].
    apply seq_Ok in Ht as [H2 Ht]. injection Ht as <-. apply negb_false_iff in Hs. split; [done|].
    intros Hb. rewrite (wrapS_small 64 (payloadBytes * 2)), wrapS_small; lia.
  - injection Ht as <-. split; [done|]. intros Hb. rewrite wrapS_small; lia.
Qed.

Module SoakWitness.
Definition stats0 : signalStats := mkStats 4 2 0 0.
(** The second iteration of the reconnecting scenario fails. *)
Definition flaky (value : scenario) (iteration payload : Z) : result scenarioRun :=
  if sc_Reconnect value && (iteration =? 2) then Err EOF else Ok (mkScenarioRun 5 (payload * 2) stats0 "Native Nostr").
Definition args : list string := ["--iterations"; "2"; "--scenarios=nostr-trickle,reconnect-same-stream"].
Definition report : soakReport :=
  match (soak_run args flaky None).2 with Some r => r | None => mkReport "" 0 0 [] [] (mkSummary 0 0 0 0) end.

Lemma soak_exit_witness :
  soak_run args flaky None = (1, Some report) /\
  exists selected, (fun r => (ir_Scenario r, ir_Iteration r, ir_Passed r)) <$> rp_Results report =
    (fun p => (sc_Name p.1, p.2, is_ok (outcome_of flaky 65536 p))) <$> planned selected 2.
Proof.
  assert (soak_run args flaky None = (1, Some report)) as H by (vm_compute; reflexivity).
  split; [exact H|]. destruct (soak_exit args flaky None 1 report H) as (opts & selected & Hp & _ & _ & _ & _ & Hr & _).
  assert (op_PayloadBytes opts = 65536 /\ op_Iterations opts = 2) as [E1 E2].
  { assert (parseArguments args = Ok (mkSoakOptions "smoke" 2 65536 "" ["nostr-trickle"; "reconnect-same-stream"] true)) as E
      by (vm_compute; reflexivity). rewrite E in Hp. injection Hp as <-. split; reflexivity. }
  exists selected. rewrite E1, E2 in Hr. exact Hr.
Defined.

Definition good : list byte := deterministicPayload 5 7.
Example payload_bytes : byte_Z <$> good = [204; 38; 42; 88; 127].
Proof. vm_compute. reflexivity. Qed.
End SoakWitness.
