(* ===== verification/CliRun.v ===== *)
(** The root command (internal/cli/root.go): its flags, and the whole of [runListener] and [runClient] with the
    resources they hold.

    A function with deferred calls is a program over a trace of what it acquires and a stack of what it has
    deferred; [returns] runs the deferred calls.  What the network, the identity and the sessions answer is an
    argument. *)
From S2P Require Export Client DaemonStreams.
From S2P Require Import ExtModel.
Local Open Scope Z_scope.

(** ** Deferred calls *)

Inductive cli_resource := RPortLock | RNode | RNativeListener | RStream | ROpener | RLocalSocket.
#[export] Instance cli_resource_eq_dec : EqDecision cli_resource.
Proof. solve_decision. Defined.

Inductive cli_action :=
  | Acquire (r : cli_resource)
  | Release (r : cli_resource)
  | Advertised
  | HandlerSet (protocol : string).

Record deferred := mkDeferred { df_trace : list cli_action; df_stack : list cli_resource }.
Definition prog (A : Type) : Type := deferred -> result A * deferred.

#[export] Instance prog_ret : MRet prog := fun _ a st => (Ok a, st).
#[export] Instance prog_bind : MBind prog := fun _ _ f m st =>
  match m st with (Ok a, st) => f a st | (Err e, st) => (Err e, st) end.
Definition lift {A} (r : result A) : prog A := fun st => (r, st).
Definition emit (a : cli_action) : prog unit := fun st => (Ok tt, mkDeferred (df_trace st ++ [a]) (df_stack st)).
(** A call that yields a resource, and the [defer] that gives it back. *)
Definition acquire {A} (res : cli_resource) (outcome : result A) : prog A := fun st =>
  match outcome with
  | Ok a => (Ok a, mkDeferred (df_trace st ++ [Acquire res]) (res :: df_stack st))
  | Err e => (Err e, st)
  end.
Definition returns {A} (p : prog A) : result A * list cli_action :=
  let '(r, st) := p (mkDeferred [] []) in (r, df_trace st ++ (Release <$> df_stack st)).

(** ** Flags *)

Inductive flag_kind := FBool | FInt (default : Z) | FString (default : string) | FStrings.
Record flag_decl := mkFlagDecl { fd_name : string; fd_shorthand : string; fd_kind : flag_kind }.

Definition root_flags : list flag_decl :=
  [mkFlagDecl "listen" "l" FBool; mkFlagDecl "keep-open" "k" FBool; mkFlagDecl "timeout" "w" (FInt 60);
   mkFlagDecl "quit-delay" "" (FInt 0); mkFlagDecl "destination" "d" (FString ""); mkFlagDecl "port" "p" (FInt 0);
   mkFlagDecl "quiet" "q" FBool; mkFlagDecl "socks" "S" FBool; mkFlagDecl "tor" "T" FBool;
   mkFlagDecl "upstream-socks" "" (FString ""); mkFlagDecl "interactive" "i" FBool; mkFlagDecl "zero" "z" FBool;
   mkFlagDecl "exec" "e" (FString ""); mkFlagDecl "udp" "u" FBool; mkFlagDecl "udp-idle-timeout" "" (FInt 300)].
Definition addNodeFlags : list flag_decl :=
  [mkFlagDecl "transport-port" "" (FInt 0); mkFlagDecl "ipv4" "4" FBool; mkFlagDecl "ipv6" "6" FBool;
   mkFlagDecl "identity" "I" (FString ""); mkFlagDecl "relay" "" FStrings; mkFlagDecl "bootstrap" "" FStrings;
   mkFlagDecl "announce" "" FStrings; mkFlagDecl "no-dht" "" FBool; mkFlagDecl "no-mdns" "" FBool;
   mkFlagDecl "no-pubsub" "" FBool; mkFlagDecl "no-quic" "" FBool; mkFlagDecl "no-webrtc" "" FBool;
   mkFlagDecl "allow-unauthenticated-listener" "" FBool; mkFlagDecl "allow-unauthenticated-native-webrtc" "" FBool;
   mkFlagDecl "pairing-token" "" (FString ""); mkFlagDecl "pairing-token-file" "" (FString "");
   mkFlagDecl "bind" "" (FString "127.0.0.1"); mkFlagDecl "json" "" FBool; mkFlagDecl "verbose" "v" FBool].
Definition all_flags : list flag_decl := root_flags ++ addNodeFlags.

Definition takes_argument (f : flag_decl) : bool := match fd_kind f with FBool => false | _ => true end.

(** The options when no flag is given. *)
Definition default_options : options :=
  mkOptions false false 60 false 0 "" 0 false false false "" false false "" false 300 0 false false "" [] [] []
    false false false false false false false "" "" "127.0.0.1" false false.

(** The flag library refuses, with a panic, a name or shorthand that is declared twice; the declarations of the root
    command are distinct, and their shorthands are single characters. *)
Lemma flags_distinct :
  NoDup (fd_name <$> all_flags) /\ NoDup (base.filter (fun s => s <> "") (fd_shorthand <$> all_flags)) /\
  Forall (fun s => s = "" \/ slen s = 1) (fd_shorthand <$> all_flags).
Proof. split_and!; apply (bool_decide_unpack _); vm_compute; exact I. Qed.

(** The scan before the flags are parsed skips the argument of exactly the shorthands that take one. *)
Lemma scan_shorthands f :
  f ∈ all_flags -> fd_shorthand f <> "" ->
  (takes_argument f = true <-> "-" +:+ fd_shorthand f ∈ takes_value) /\
  (takes_argument f = true <-> contains_byte (nth 0 (bytes_of (fd_shorthand f)) x00) (bytes_of "Iwdpe") = true).
Proof.
  intros Hf Hs. assert (Forall (fun f => fd_shorthand f = "" \/
    (takes_argument f = bool_decide ("-" +:+ fd_shorthand f ∈ takes_value) /\
     takes_argument f = contains_byte (nth 0 (bytes_of (fd_shorthand f)) x00) (bytes_of "Iwdpe"))) all_flags) as H.
  { apply (bool_decide_unpack _). vm_compute. exact I. }
  rewrite Forall_forall in H. destruct (H f Hf) as [|[-> E2]]; [done|].
  rewrite bool_decide_eq_true. split; [done|]. rewrite <- E2. by rewrite bool_decide_eq_true.
Qed.

(** Of the long names it skips only five: after the others a value such as "-T" is taken for the flag. *)
Lemma scan_long_names :
  base.filter (fun f => takes_argument f = true /\ "--" +:+ fd_name f ∉ takes_value) all_flags ≡ₚ
    base.filter (fun f => fd_name f ∈ ["quit-delay"; "upstream-socks"; "udp-idle-timeout"; "transport-port"; "relay";
      "bootstrap"; "announce"; "pairing-token"; "pairing-token-file"; "bind"]) all_flags /\
  TorRequested ["--pairing-token-file"; "-T"; "12D3KooW"] = true.
Proof. split; [apply reflexive_eq|]; vm_compute; reflexivity. Qed.

(** ** [runListener] *)

Section cli_run.
Context `{LP : !Libp2p, CB : !Cbor, CR : !Crypto}.

(** The token and the logical port. *)
Definition listener_service (env : cli_env) (opts : options) (args : list string) : result (option Token * Z) :=
  token ← loadToken env opts;
  service ←
    (match args with
     | [text] => parseService text
     | _ => Ok (match token with Some t => tk_Service t | None => DefaultService end)
     end);
  Ok (token, service).

Definition application_protocol (opts : options) (service : Z) : string :=
  if o_udp opts then DatagramProtocolForService service else ProtocolForService service.

(** How the listener ends: its context, or the result of a session of a one-shot listener. *)
Inductive listener_end := ListenerCancelled | ListenerResult (err : option error).
Definition listener_outcome (opts : options) (e : listener_end) : result unit :=
  if persistent opts then Ok tt
  else match e with
       | ListenerCancelled => Ok tt
       | ListenerResult None => Ok tt
       | ListenerResult (Some err) => Err err
       end.

Definition runListener (env : cli_env) (opts : options) (args : list string) (node : result unit)
    (native : option error) (e : listener_end) : prog unit :=
  '(token, service) ← lift (listener_service env opts args);
  acquire RPortLock (ce_acquire env service);;
  peerID ← lift (ce_identity env);
  lift (match token with Some t => validateTokenFor t peerID service (ce_now env) | None => Ok tt end);;
  acquire RNode node;;
  emit Advertised;;
  emit (HandlerSet (application_protocol opts service));;
  (if nativeWebRTCEnabled opts (bool_decide (is_Some token)) then
     match native with
     | None => acquire RNativeListener (Ok tt)
     | Some _ => mret tt                       (** only a message *)
     end
   else mret tt);;
  lift (listener_outcome opts e).

(** ** [runClient] *)

(** What the client meets after its setup. *)
Record client_run_env := mkClientRunEnv {
  cr_identity : result unit;
  cr_node : result unit;
  cr_open : result unit;              (** [openStream] *)
  cr_bind : result unit;              (** the local socket *)
  cr_close : option error;            (** [stream.Close] of a probe *)
  cr_session : option error           (** of [PTYClient] or [Bridge] *)
}.
Definition error_result (e : option error) : result unit := match e with Some err => Err err | None => Ok tt end.

Definition runClient (env : cli_env) (cr : client_run_env) (opts : options) (args : list string) : prog unit :=
  lift (client_setup env opts args);;
  lift (cr_identity cr);;
  acquire RNode (cr_node cr);;
  match client_session_of opts with
  | ClientForwardUDP _ _ =>
      acquire ROpener (map_err (Wrapf "no route established a UDP carrier: %w" []) (cr_open cr));;
      acquire RLocalSocket (cr_bind cr)
  | ClientForwardTCP _ _ => acquire RLocalSocket (cr_bind cr)
  | ClientProbe =>
      acquire RStream (map_err (Wrapf "no route established a connection: %w" []) (cr_open cr));;
      lift (error_result (cr_close cr))
  | ClientPTY | ClientBridge _ _ =>
      acquire RStream (map_err (Wrapf "no route established a connection: %w" []) (cr_open cr));;
      lift (error_result (cr_session cr))
  end.

(** ** The root command *)

Definition set_timeoutExplicit (opts : options) (b : bool) : options :=
  mkOptions (o_listen opts) (o_keepOpen opts) (o_timeout opts) b (o_quitDelay opts) (o_destination opts) (o_port opts)
    (o_quiet opts) (o_socks opts) (o_tor opts) (o_upstreamSOCKS opts) (o_interactive opts) (o_zero opts) (o_exec opts)
    (o_udp opts) (o_udpIdleTimeout opts) (o_transportPort opts) (o_ipv4 opts) (o_ipv6 opts) (o_identity opts)
    (o_relays opts) (o_bootstrap opts) (o_announce opts) (o_noDHT opts) (o_noMDNS opts) (o_noPubsub opts) (o_noQUIC opts)
    (o_noWebRTC opts) (o_allowUnauthenticatedListener opts) (o_allowUnauthenticatedNativeWebRTC opts)
    (o_pairingToken opts) (o_pairingTokenFile opts) (o_bind opts) (o_json opts) (o_verbose opts).

Record root_env := mkRootEnv {
  re_cli : cli_env;
  re_changed : string -> bool;
  re_node : result unit;
  re_native : option error;
  re_end : listener_end;
  re_client : client_run_env
}.

(** [RunE] of [NewRoot]. *)
Definition RunE (env : root_env) (opts : options) (args : list string) : prog unit :=
  let opts := set_timeoutExplicit opts (re_changed env "timeout") in
  lift (validateOptions (re_changed env) (ce_tokenEnv (re_cli env)) opts args);;
  if o_listen opts then runListener (re_cli env) opts args (re_node env) (re_native env) (re_end env)
  else runClient (re_cli env) (re_client env) opts args.
End cli_run.

(** ** The discipline of deferred calls *)

Definition acquired (acts : list cli_action) : list cli_resource :=
  omap (fun a => match a with Acquire r => Some r | _ => None end) acts.
Definition releases (a : cli_action) : bool := match a with Release _ => true | _ => false end.

(** The program only adds actions, none of which gives something back, and defers giving back all it acquires. *)
Definition disciplined {A} (p : prog A) : Prop := forall st, exists acts,
  df_trace (p st).2 = df_trace st ++ acts /\ df_stack (p st).2 = reverse (acquired acts) ++ df_stack st /\
  Forall (fun a => releases a = false) acts.

Lemma acquired_app l k : acquired (l ++ k) = acquired l ++ acquired k.
Proof. apply omap_app. Qed.

Lemma disciplined_lift {A} (r : result A) : disciplined (lift r).
Proof. intros st. exists []. cbn. by rewrite app_nil_r. Qed.
Lemma disciplined_ret {A} (a : A) : disciplined (mret a).
Proof. intros st. exists []. cbn. by rewrite app_nil_r. Qed.
Lemma disciplined_emit a : acquired [a] = [] -> releases a = false -> disciplined (emit a).
Proof. intros Ha Hr st. exists [a]. cbn [emit snd df_trace df_stack]. rewrite Ha. by repeat constructor. Qed.
Lemma disciplined_acquire {A} res (outcome : result A) : disciplined (acquire res outcome).
Proof.
  intros st. destruct outcome as [a|e]; cbn; [exists [Acquire res]|exists []; by rewrite app_nil_r].
  cbn. by repeat constructor.
Qed.
Lemma disciplined_bind {A B} (m : prog A) (f : A -> prog B) :
  disciplined m -> (forall a, disciplined (f a)) -> disciplined (m ≫= f).
Proof.
  intros Hm Hf st. unfold mbind, prog_bind. destruct (Hm st) as (acts & Ht & Hs & Hr).
  destruct (m st) as [[a|e] st1]; cbn in Ht, Hs; [|by exists acts].
  destruct (Hf a st1) as (acts' & Ht' & Hs' & Hr'). exists (acts ++ acts').
  rewrite Ht', Ht, Hs', Hs, acquired_app, reverse_app, <- !app_assoc. split_and!; [done|done|by apply Forall_app].
Qed.
#[export] Hint Resolve disciplined_lift disciplined_ret disciplined_emit disciplined_acquire disciplined_bind : netcat.
Ltac disciplined := repeat (apply disciplined_bind; [|intros]); eauto with netcat.

(** Everything is given back, in the reverse order. *)
Lemma disciplined_returns {A} (p : prog A) :
  disciplined p -> exists acts, (returns p).2 = acts ++ (Release <$> reverse (acquired acts)) /\
    Forall (fun a => releases a = false) acts /\ df_trace (p (mkDeferred [] [])).2 = acts.
Proof.
  intros H. destruct (H (mkDeferred [] [])) as (acts & Ht & Hs & Hr). exists acts. unfold returns.
  destruct (p (mkDeferred [] [])) as [r st]. cbn in *. rewrite Ht, Hs, app_nil_r. done.
Qed.

Section cli_run_proofs.
Context `{LP : !Libp2p, CB : !Cbor, CR : !Crypto}.

Lemma runListener_disciplined env opts args node native e : disciplined (runListener env opts args node native e).
Proof.
  unfold runListener. apply disciplined_bind; [eauto with netcat|]. intros [token service].
  disciplined. destruct (nativeWebRTCEnabled _ _); [destruct native|]; eauto with netcat.
Qed.
Lemma runClient_disciplined env cr opts args : disciplined (runClient env cr opts args).
Proof. unfold runClient. disciplined. destruct (client_session_of opts); disciplined. Qed.
Lemma RunE_disciplined env opts args : disciplined (RunE env opts args).
Proof.
  unfold RunE. disciplined. destruct (o_listen _); [apply runListener_disciplined|apply runClient_disciplined].
Qed.

(** The pieces of [runListener] before the node are those of [listener_setup]. *)
Lemma runListener_setup env opts args service token relays :
  listener_setup env opts args = Ok (service, token, relays) ->
  listener_service env opts args = Ok (token, service) /\ ce_acquire env service = Ok tt /\
  exists peerID, ce_identity env = Ok peerID /\
    match token with Some t => validateTokenFor t peerID service (ce_now env) = Ok tt | None => True end.
Proof.
  unfold listener_setup, listener_service. destruct (loadToken env opts) as [token'|]; [|done]. cbn [mbind result_bind].
  destruct (match args with [text] => _ | _ => _ end) as [service'|]; [|done]. cbn [mbind result_bind].
  destruct (ce_acquire env service') as [[]|] eqn:Ea; [|done]. destruct (ce_identity env) as [peerID|]; [|done]. cbn [mbind result_bind].
  destruct token' as [t|]; [|intros [= <- <- <-]; eauto].
  destruct (validateTokenFor t peerID service' (ce_now env)) as [[]|] eqn:Ev; [|done].
  intros [= <- <- <-]. eauto.
Qed.

Definition listener_actions (opts : options) (service : Z) (native : bool) : list cli_action :=
  [Acquire RPortLock; Acquire RNode; Advertised; HandlerSet (application_protocol opts service)] ++
  (if native then [Acquire RNativeListener] else []).

(** The listener is set up completely, or holds the port alone, or nothing. *)
Lemma runListener_actions env opts args node native e :
  let acts := df_trace (runListener env opts args node native e (mkDeferred [] [])).2 in
  acts = [] \/ acts = [Acquire RPortLock] \/
  exists token service, listener_service env opts args = Ok (token, service) /\ ce_acquire env service = Ok tt /\
    acts = listener_actions opts service
      (nativeWebRTCEnabled opts (bool_decide (is_Some token)) && bool_decide (native = None)).
Proof.
  unfold runListener, mbind, prog_bind, lift.
  destruct (listener_service env opts args) as [[token service]|]; [|by left]. unfold acquire at 1.
  destruct (ce_acquire env service) as [[]|] eqn:Ea; [|by left].
  destruct (ce_identity env) as [peerID|]; [|by right; left].
  destruct (match token with Some t => _ | None => _ end) as [u|]; [|by right; left].
  destruct node as [[]|]; [|by right; left]. right; right. exists token, service. split_and!; [done|done|].
  unfold listener_actions. destruct (nativeWebRTCEnabled _ _); [|done]. destruct native; [|done].
  by rewrite bool_decide_false.
Qed.

Lemma runClient_actions env cr opts args :
  let acts := df_trace (runClient env cr opts args (mkDeferred [] [])).2 in
  (forall p, HandlerSet p ∉ acts) /\
  exists more, acquired acts `prefix_of` RNode :: more /\
    more = match client_session_of opts with
           | ClientForwardUDP _ _ => [ROpener; RLocalSocket]
           | ClientForwardTCP _ _ => [RLocalSocket]
           | _ => [RStream]
           end.
Proof.
  unfold runClient, mbind, prog_bind, lift.
  destruct (client_setup env opts args) as [plan|]; [|split; [set_solver|eexists; split; [apply prefix_nil|done]]].
  destruct (cr_identity cr) as [[]|]; [|split; [set_solver|eexists; split; [apply prefix_nil|done]]].
  destruct (cr_node cr) as [[]|]; [|split; [set_solver|eexists; split; [apply prefix_nil|done]]].
  destruct (client_session_of opts); destruct (cr_open cr) as [[]|], (cr_bind cr) as [[]|]; cbn;
    (split; [set_solver|eexists; split; [|done]; by eexists]).
Qed.

Ltac no_elem H := repeat (apply elem_of_cons in H as [H|H]; [discriminate H|]); by apply not_elem_of_nil in H.

Lemma NoDup_prefix_of {A} (l k : list A) : l `prefix_of` k -> NoDup k -> NoDup l.
Proof. intros [x ->] [H _]%NoDup_app. exact H. Qed.

(** C16: the command gives back what it takes.  Whatever the options and whatever fails on the way, the root command first only
    acquires (each resource at most once) and in the end releases exactly that, in the reverse order: a listener's
    node is gone before its port lock is free.  Options that are refused touch nothing.  A stream handler is
    installed only by a listener that holds the lock of its logical port and a node, for that port and the
    right protocol; and native WebRTC listens only with a token or with the explicit permission to go without one, and
    never with --tor or --no-webrtc. *)
Theorem cli_lifecycle (env : root_env) opts args :
  let trace := (returns (RunE env opts args)).2 in
  let opts := set_timeoutExplicit opts (re_changed env "timeout") in
  exists acts, trace = acts ++ (Release <$> reverse (acquired acts)) /\
    Forall (fun a => releases a = false) acts /\ NoDup (acquired acts) /\
    (validateOptions (re_changed env) (ce_tokenEnv (re_cli env)) opts args <> Ok tt -> trace = []) /\
    (forall proto, HandlerSet proto ∈ trace -> o_listen opts = true /\
      exists token service, listener_service (re_cli env) opts args = Ok (token, service) /\
        ce_acquire (re_cli env) service = Ok tt /\ proto = application_protocol opts service /\
        [RPortLock; RNode] `prefix_of` acquired acts) /\
    (RNativeListener ∈ acquired acts -> o_listen opts = true /\ o_noWebRTC opts = false /\ o_tor opts = false /\
      exists token service, listener_service (re_cli env) opts args = Ok (token, service) /\
        (is_Some token \/ o_allowUnauthenticatedNativeWebRTC opts = true)).
Proof.
  intros trace opts'. destruct (disciplined_returns _ (RunE_disciplined env opts args)) as (acts & Htrace & Hrel & Hacts).
  exists acts. fold trace in Htrace.
  assert (forall proto, HandlerSet proto ∈ trace -> HandlerSet proto ∈ acts) as Hhandler.
  { intros proto. rewrite Htrace. intros [?|H]%elem_of_app; [done|]. apply list_elem_of_fmap in H as (? & ? & _). done. }
  unfold RunE in Hacts. fold opts' in Hacts. unfold mbind, prog_bind at 1, lift at 1 in Hacts.
  destruct (validateOptions _ _ opts' args) as [[]|err] eqn:Ev.
  2: { cbn in Hacts. subst acts.
       split_and!; [done|done|by apply NoDup_nil|done|intros proto Hp%Hhandler; no_elem Hp|intros Hn; no_elem Hn]. }
  destruct (o_listen opts') eqn:El.
  - pose proof (runListener_actions (re_cli env) opts' args (re_node env) (re_native env) (re_end env)) as H.
    cbv zeta in H. rewrite Hacts in H. destruct H as [->|[->|(token & service & Hs & Ha & ->)]].
    1, 2: split_and!; [done|done|apply (bool_decide_unpack _); exact I|done| |];
      [intros proto Hp%Hhandler; no_elem Hp|intros Hn; no_elem Hn].
    set (native := _ && _) in *. assert (acquired (listener_actions opts' service native) =
      RPortLock :: RNode :: (if native then [RNativeListener] else [])) as Hacq by (by destruct native).
    rewrite Hacq. split_and!; [by rewrite <- Hacq|done| |done| |].
    + destruct native; apply (bool_decide_unpack _); exact I.
    + intros proto Hp%Hhandler. split; [done|]. exists token, service. split_and!; [done|done| |].
      * unfold listener_actions in Hp. apply elem_of_app in Hp as [Hp|Hp]; [|destruct native; no_elem Hp].
        do 3 (apply elem_of_cons in Hp as [Hp|Hp]; [discriminate Hp|]). apply list_elem_of_singleton in Hp. by injection Hp.
      * by eexists.
    + intros Hn. destruct native eqn:En; [|no_elem Hn]. subst native. apply andb_true_iff in En as [En _].
      unfold nativeWebRTCEnabled in En. apply andb_true_iff in En as [[H1%negb_true_iff H2%negb_true_iff]%andb_true_iff H3].
      split_and!; [done..|]. exists token, service. split; [done|].
      apply orb_true_iff in H3 as [H3|H3]; [left; by apply bool_decide_eq_true in H3|by right].
  - destruct (runClient_actions (re_cli env) (re_client env) opts' args) as [Hh (more & Hpre & Hmore)].
    cbv zeta in Hh, Hpre. rewrite Hacts in Hh, Hpre. split_and!; [done|done| |done| |].
    + eapply NoDup_prefix_of; [exact Hpre|]. rewrite Hmore. generalize (client_session_of opts'). clear. intros session.
      destruct session; apply (bool_decide_unpack _); exact I.
    + intros proto Hp%Hhandler. by apply Hh in Hp.
    + intros Hn. destruct Hpre as [k Hk]. assert (RNativeListener ∈ RNode :: more) as Hin by (rewrite Hk; apply elem_of_app; by left).
      rewrite Hmore in Hin. revert Hin. generalize (client_session_of opts'). clear. intros session Hin.
      destruct session; set_solver.
Qed.
End cli_run_proofs.

(** ** The preconnected carrier of a UDP client *)

(** [preconnectedStreamOpener]: the stream it still holds; every method is one critical section, but for the fallback. *)
Definition preconnectedStreamOpener (ST : Type) : Type := option ST.
Definition newPreconnectedStreamOpener {ST} (first : ST) : preconnectedStreamOpener ST := Some first.
Definition preconnected_Open {ST} (o : preconnectedStreamOpener ST) (fallback : result ST) : result ST * preconnectedStreamOpener ST :=
  match o with Some stream => (Ok stream, None) | None => (fallback, None) end.
Definition preconnected_Close {ST} (o : preconnectedStreamOpener ST) : option ST * preconnectedStreamOpener ST := (o, None).

(** The command line's opener and the daemon's are the same: in any sequence of calls the carrier is handed out once
    or closed once, and never both. *)
Lemma preconnected_is_opener (o : preconnectedStreamOpener Z) fallback :
  preconnected_Open o fallback = opener_Open o fallback /\ preconnected_Close o = opener_Close o.
Proof. done. Qed.
Lemma preconnected_once first calls :
  opener_run (newPreconnectedStreamOpener first) calls =
  match calls with
  | [] => ([], [])
  | CallOpen _ :: rest => (Ok first :: fst (opener_run None rest), [])
  | CallClose :: rest => (fst (opener_run None rest), [first])
  end.
Proof. apply opener_once. Qed.

(** ** Opening a stream of a node (p2p/node.go) *)

Section node_open.
Context `{LP : !Libp2p, CB : !Cbor, CR : !Crypto, CI : !Cids}.
Context (EncapsulateCircuit : Multiaddr -> string -> Multiaddr) (ToCid : string -> Cid).
(** [Host.NewStream] of the peer and the protocol. *)
Context {ST : Type} (NewStream : string -> string -> result ST).

Definition node_openStream (env : lookup_env) (target protocolID : string) (relays : list string) (token : option Token)
    : list node_effect * result ST :=
  let '(effects, resolved) := resolve EncapsulateCircuit ToCid env target relays token in
  (effects, targetID ← resolved; NewStream targetID protocolID).
Definition OpenStream (env : lookup_env) (target : string) (service : Z) := node_openStream env target (ProtocolForService service).
Definition OpenDatagramStream (env : lookup_env) (target : string) (service : Z) :=
  node_openStream env target (DatagramProtocolForService service).

(** The leg of [openAnyStream] over libp2p. *)
Definition open_libp2p (udp : bool) (env : lookup_env) (target : string) (service : Z) (relays : list string)
    (token : option Token) : list node_effect * result ST :=
  if udp then OpenDatagramStream env target service relays token else OpenStream env target service relays token.

(** [HandlePeerFound] of the mDNS service: the peer it connects to. *)
Definition HandlePeerFound (self found : string) : option string := if bool_decide (found = self) then None else Some found.

(** The protocols of a client and a listener are the same exactly when their logical ports and modes are. *)
Lemma protocols_meet opts opts' service service' :
  application_protocol opts service = application_protocol opts' service' <-> service = service' /\ o_udp opts = o_udp opts'.
Proof.
  unfold application_protocol. split; [|intros [-> ->]; done]. intros E. split.
  - apply (proto_port service service' (if o_udp opts then DatagramProtocolForService service else ProtocolForService service));
      [|rewrite E]; [destruct (o_udp opts)|destruct (o_udp opts')]; auto.
  - destruct (o_udp opts), (o_udp opts'); try done; exfalso;
      apply (f_equal (fun s => nth 12 (bytes_of s) x00)) in E; discriminate E.
Qed.

(** A client with a token opens its stream to the peer of the token, with the protocol that a listener of the token's
    port in the same mode handles, and no other listener does. *)
Lemma client_meets_listener cli opts args plan t lookup effects stream lopts service :
  client_setup cli opts args = Ok plan -> cp_token plan = Some t ->
  open_libp2p (o_udp opts) lookup (cp_target plan) (cp_service plan) (cp_relays plan) (cp_token plan) = (effects, Ok stream) ->
  NewStream (tk_PeerID t) (application_protocol opts (tk_Service t)) = Ok stream /\
  (application_protocol lopts service = application_protocol opts (tk_Service t) <->
    service = tk_Service t /\ o_udp lopts = o_udp opts).
Proof.
  intros (_ & Hp & Hv)%client_setup_Ok Ht Ho. rewrite Ht in *. destruct Hv as (Hid & Hs & _).
  split; [|apply protocols_meet]. assert (node_openStream lookup (cp_target plan) (application_protocol opts (tk_Service t))
    (cp_relays plan) (Some t) = (effects, Ok stream)) as E.
  { unfold application_protocol. rewrite Hs. by destruct (o_udp opts). }
  unfold node_openStream in E. destruct (resolve _ _ _ _ _ _) as [eff res] eqn:Er. injection E as _ E.
  destruct res as [id|]; [|done]. destruct (resolve_allowed _ _ _ _ _ (Some t) _ _ _ ltac:(done) Hp Er) as [Hok _].
  by rewrite Hid, <- (Hok id eq_refl).
Qed.
End node_open.

Module CliRunWitness.
Import Ref.
Import PairingWitness.
Import AdmissionWitness.
Import CliWitness.
Import ClientWitness.

(** The one-shot listener of [Cli], with native WebRTC, whose session fails. *)
Definition run_env : root_env :=
  mkRootEnv CliWitness.env (fun _ => false) (Ok tt) None (ListenerResult (Some EIO))
    (mkClientRunEnv (Ok tt) (Ok tt) (Ok tt) (Ok tt) None None).

Lemma cli_lifecycle_witness :
  returns (RunE run_env CliWitness.opts []) =
    (Err EIO,
     [Acquire RPortLock; Acquire RNode; Advertised; HandlerSet "/p2p-netcat/1.0.0/4242"; Acquire RNativeListener;
      Release RNativeListener; Release RNode; Release RPortLock]) /\
  exists acts, (returns (RunE run_env CliWitness.opts [])).2 = acts ++ (Release <$> reverse (acquired acts)).
Proof.
  split; [vm_compute; reflexivity|].
  destruct (cli_lifecycle run_env CliWitness.opts []) as (acts & H & _). by exists acts.
Defined.
End CliRunWitness.
