(* ===== verification/PtyWindows.v ===== *)
(** Interactive sessions on Windows (session/pty_windows.go): the shell behind a ConPTY with the three goroutines that
    report to one channel, and the polled window size of the client.

    The keyboard's escape sequence and the display of the client are the code of session/pty.go, which PtySession
    models. *)
From S2P Require Export PtySession.
Local Open Scope Z_scope.

Definition windows_shell (shellEnv : string) : string := if bool_decide (shellEnv = "") then "powershell.exe" else shellEnv.

(** The steps of [PTYServer] before the goroutines. *)
Definition PTYServer_windows_start (created : result unit) (resizeErr startErr : option error) : result unit :=
  map_err (Wrapf "create Windows ConPTY: %w" []) created;;
  match resizeErr with Some err => Err (Wrapf "resize Windows ConPTY: %w" [] err) | None => Ok tt end;;
  match startErr with Some err => Err (Wrapf "start Windows ConPTY shell: %w" [] err) | None => Ok tt end.

(** The goroutine that feeds the shell; [resize] is the outcome of [terminal.Resize]. *)
Fixpoint windows_input `{!Reader R, !Writer T} (fuel : nat) (r : R) (terminal : T) (resize : Z * Z -> option error)
    (sizes : list (Z * Z)) : option (error * T * list (Z * Z)) :=
  match fuel with
  | O => None
  | S fuel =>
      match ReadFrame r with
      | (Err readErr, _) => Some (readErr, terminal, sizes)
      | (Ok frame, r) =>
          if bool_decide (f_Type frame = FrameData) then
            match w_write terminal (f_Data frame) with
            | (_, Some writeErr, terminal) => Some (writeErr, terminal, sizes)
            | (_, None, terminal) => windows_input fuel r terminal resize sizes
            end
          else if bool_decide (f_Type frame = FrameResize) then
            match DecodeResize (f_Data frame) with
            | Err resizeErr => Some (resizeErr, terminal, sizes)
            | Ok size =>
                match resize size with
                | Some resizeErr => Some (resizeErr, terminal, sizes)
                | None => windows_input fuel r terminal resize (sizes ++ [size])
                end
            end
          else Some (Errorf "unknown PTY frame: %d" [AInt (byte_Z (f_Type frame))], terminal, sizes)
      end
  end.

(** ** The server *)

Section server.
Context `{WR : !Writer W}.

Record conpty := mkConpty {
  cp_written : list byte;               (** what the shell has written *)
  cp_unread : list byte;                (** the part the server has not read *)
  cp_stream : W;
  cp_exited : option (option error);    (** the shell's end, as [Wait] reports it *)
  cp_reading : bool;                    (** the goroutine that reads the terminal *)
  cp_waiting : bool;                    (** the goroutine that waits for the shell *)
  cp_feeding : bool;                    (** the goroutine that feeds the shell *)
  cp_errors : list (option error);      (** the channel of capacity three *)
  cp_result : option (option error);    (** what [PTYServer] returned *)
  cp_failed : bool                      (** a frame could not be written *)
}.
Implicit Types s : conpty.

Definition conpty_init (w : W) : conpty := mkConpty [] [] w None true true true [] None false.

Inductive conpty_event :=
  | ShellWrites (data : list byte)
  | ShellExits (err : option error)
  | ReadTerminal (count : nat)
  | TerminalEnds (err : error)
  | WaitReturns
  | FeedEnds (err : error)
  | ReceiveError
  | ContextDone (err : error).

Definition conpty_report s (e : option error) : list (option error) := cp_errors s ++ [e].

(** One step; an event that is not possible changes nothing.  After the return the terminal is closed. *)
Definition conpty_step s (ev : conpty_event) : conpty :=
  match ev with
  | ShellWrites data =>
      match cp_exited s with
      | None => mkConpty (cp_written s ++ data) (cp_unread s ++ data) (cp_stream s) None (cp_reading s) (cp_waiting s)
          (cp_feeding s) (cp_errors s) (cp_result s) (cp_failed s)
      | Some _ => s
      end
  | ShellExits err =>
      match cp_exited s with
      | None => mkConpty (cp_written s) (cp_unread s) (cp_stream s) (Some err) (cp_reading s) (cp_waiting s)
          (cp_feeding s) (cp_errors s) (cp_result s) (cp_failed s)
      | Some _ => s
      end
  | ReadTerminal count =>
      let data := take (Nat.min count (Z.to_nat (32 * 1024))) (cp_unread s) in
      match cp_reading s, cp_result s, data with
      | true, None, _ :: _ =>
          let unread := drop (length data) (cp_unread s) in
          match WriteFrame (cp_stream s) FrameData data with
          | (None, w) => mkConpty (cp_written s) unread w (cp_exited s) true (cp_waiting s) (cp_feeding s) (cp_errors s) None
              (cp_failed s)
          | (Some err, w) => mkConpty (cp_written s) unread w (cp_exited s) false (cp_waiting s) (cp_feeding s)
              (conpty_report s (Some err)) None true
          end
      | _, _, _ => s
      end
  | TerminalEnds err =>
      if cp_reading s && (bool_decide (cp_unread s = []) || bool_decide (cp_result s <> None))
      then mkConpty (cp_written s) (cp_unread s) (cp_stream s) (cp_exited s) false (cp_waiting s) (cp_feeding s)
          (conpty_report s (Some err)) (cp_result s) (cp_failed s)
      else s
  | WaitReturns =>
      match cp_waiting s, cp_exited s with
      | true, Some err => mkConpty (cp_written s) (cp_unread s) (cp_stream s) (cp_exited s) (cp_reading s) false
          (cp_feeding s) (conpty_report s err) (cp_result s) (cp_failed s)
      | _, _ => s
      end
  | FeedEnds err =>
      if cp_feeding s then mkConpty (cp_written s) (cp_unread s) (cp_stream s) (cp_exited s) (cp_reading s) (cp_waiting s)
          false (conpty_report s (Some err)) (cp_result s) (cp_failed s)
      else s
  | ReceiveError =>
      match cp_result s, cp_errors s with
      | None, e :: rest =>
          mkConpty (cp_written s) (cp_unread s) (cp_stream s) (Some (default (Some (ErrNew "killed")) (cp_exited s)))
            (cp_reading s) (cp_waiting s) (cp_feeding s) rest
            (Some (match e with Some err => if errors_Is err EOF then None else Some err | None => None end)) (cp_failed s)
      | _, _ => s
      end
  | ContextDone err =>
      match cp_result s with
      | None =>
          mkConpty (cp_written s) (cp_unread s) (cp_stream s) (Some (default (Some (ErrNew "killed")) (cp_exited s)))
            (cp_reading s) (cp_waiting s) (cp_feeding s) (cp_errors s) (Some (Some err)) (cp_failed s)
      | Some _ => s
      end
  end.
Definition conpty_run (w : W) (events : list conpty_event) : conpty := foldl conpty_step (conpty_init w) events.

(** ** Invariant *)

Definition running (b : bool) : nat := if b then 1 else 0.
Record conpty_ok (w0 : W) (s : conpty) (frames : list Frame) : Prop := {
  ck_data : exists lost, frame_data frames ++ lost ++ cp_unread s = cp_written s /\ (cp_failed s = false -> lost = []);
  ck_stream : exists tail, w_sink (cp_stream s) = w_sink w0 ++ mjoin (PtyFrames.encode <$> frames) ++ tail /\
    (cp_failed s = false -> tail = []);
  ck_frames : Forall frame_ok frames;
  ck_failed : cp_failed s = true -> cp_reading s = false;
  ck_channel : (length (cp_errors s) + running (cp_reading s) + running (cp_waiting s) + running (cp_feeding s) <= 3)%nat
}.
End server.
Arguments conpty : clear implicits.

(** ** The client's window *)

(** One tick of the poller, which asks for the size, and [sendResize], which asks again: the new last size and
    what is sent. *)
Definition resize_tick (last : Z * Z) (size again : option (Z * Z)) : (Z * Z) * option (Z * Z) :=
  match size with
  | Some size => if bool_decide (size <> last) then (size, again) else (last, None)
  | None => (last, None)
  end.
Fixpoint resize_poll (last : Z * Z) (ticks : list (option (Z * Z) * option (Z * Z))) : list (Z * Z) :=
  match ticks with
  | [] => []
  | (size, again) :: ticks =>
      match resize_tick last size again with
      | (last, Some sent) => sent :: resize_poll last ticks
      | (last, None) => resize_poll last ticks
      end
  end.

Section window.
(** Consecutive equal sizes are one. *)
Fixpoint changes (last : Z * Z) (sizes : list (Z * Z)) : list (Z * Z) :=
  match sizes with
  | [] => []
  | size :: sizes => if bool_decide (size = last) then changes last sizes else size :: changes size sizes
  end.

(** When the size does not change between the two questions of a tick, the poller sends the sequence of distinct
    sizes; ticks on which the size is not known change nothing, and the size sent last is the one the terminal has. *)
Lemma resize_poll_changes first ticks :
  Forall (fun t => t.2 = t.1) ticks ->
  resize_poll first ticks = changes first (omap fst ticks) /\
  default first (last (resize_poll first ticks)) = default first (last (omap fst ticks)).
Proof.
  intros Ht. revert first. induction Ht as [|[[size|] again] ticks Hs Ht IH]; intros first; [done| |apply IH].
  cbn in Hs. subst again. cbn [resize_poll resize_tick omap list_omap fst]. destruct (decide (size = first)) as [->|Hne].
  - rewrite bool_decide_false by tauto. cbn [changes]. rewrite bool_decide_true by done. destruct (IH first) as [E H].
    split; [done|]. rewrite H, last_cons. by destruct (last (omap fst ticks)).
  - rewrite bool_decide_true by done. cbn [changes]. rewrite bool_decide_false by done.
    destruct (IH size) as [E H]. rewrite E in *. split; [done|]. rewrite !last_cons.
    destruct (last (changes size (omap fst ticks))), (last (omap fst ticks)); cbn in *; congruence.
Qed.
End window.

(** ** Proofs *)

Section server_proofs.
Context `{WR : !Writer W, WL : !WriterLaws W}.
Implicit Types s : conpty W.

Lemma writeFull_grows (w w' : W) value err : writeFull w value = (err, w') -> exists tail, w_sink w' = w_sink w ++ tail.
Proof using WL. intros H. apply writeFull_loop_spec in H as (k & -> & _); [|done]. by eexists. Qed.
Lemma WriteFrame_grows (w w' : W) kind data err : WriteFrame w kind data = (err, w') -> exists tail, w_sink w' = w_sink w ++ tail.
Proof using WL.
  unfold WriteFrame. destruct (_ <? _); [intros [= _ <-]; exists []; by rewrite app_nil_r|].
  destruct (writeFull w _) as [[e|] w1] eqn:E1; apply writeFull_grows in E1 as [t1 H1]; [intros [= _ <-]; by exists t1|].
  intros H. destruct (writeFull w1 data) as [e w2] eqn:E2. apply writeFull_grows in E2 as [t2 H2].
  assert (w_sink w' = w_sink w2) as -> by (destruct e; by injection H as _ <-).
  exists (t1 ++ t2). by rewrite H2, H1, app_assoc.
Qed.

Lemma conpty_ok_init w : conpty_ok w (conpty_init w) [].
Proof using Type. split; cbn; try done; [by exists []|]. exists []. by rewrite app_nil_r. Qed.

(** A step that writes no frame. *)
Lemma conpty_ok_quiet w0 s s' frames :
  conpty_ok w0 s frames -> cp_stream s' = cp_stream s -> cp_failed s' = cp_failed s ->
  (exists more, cp_written s' = cp_written s ++ more /\ cp_unread s' = cp_unread s ++ more) ->
  (cp_reading s' = true -> cp_reading s = true) ->
  (length (cp_errors s') + running (cp_reading s') + running (cp_waiting s') + running (cp_feeding s') <=
   length (cp_errors s) + running (cp_reading s) + running (cp_waiting s) + running (cp_feeding s))%nat ->
  conpty_ok w0 s' frames.
Proof using Type.
  intros [(lost & Hd & Hl) Hs Hf Hfr Hc] Es Ef (more & Ew & Eu) Hr Hn. split; rewrite ?Es, ?Ef; try done; [| |lia].
  - exists lost. split; [|done]. by rewrite Ew, Eu, <- Hd, !app_assoc.
  - intros H. specialize (Hfr H). destruct (cp_reading s'); [|done]. by rewrite Hr in Hfr.
Qed.

Lemma read_terminal_ok w0 s frames count :
  conpty_ok w0 s frames -> exists frames', conpty_ok w0 (conpty_step s (ReadTerminal count)) frames'.
Proof using WL.
  intros Hok. cbn [conpty_step]. set (n := Nat.min count _). assert (n <= Z.to_nat (32 * 1024))%nat as Hn by apply Nat.le_min_r.
  clearbody n. destruct (cp_reading s) eqn:Er; [|by exists frames]. destruct (cp_result s); [by exists frames|].
  destruct (take n (cp_unread s)) as [|b data] eqn:Ed; [by exists frames|].
  destruct Hok as [(lost & Hd & Hl) (tail & Hs & Ht) Hf Hfr Hc].
  destruct (cp_failed s) eqn:Ef; [by specialize (Hfr eq_refl); rewrite Er in Hfr|].
  rewrite (Hl eq_refl) in Hd. rewrite (Ht eq_refl), app_nil_r in Hs. cbn [app] in Hd. rewrite Er in Hc. cbn in Hc.
  assert (cp_unread s = (b :: data) ++ drop (length (b :: data)) (cp_unread s)) as Hu.
  { rewrite <- Ed at 1. rewrite <- Ed, length_take. rewrite <- (take_drop n (cp_unread s)) at 1. f_equal.
    destruct (Nat.le_ge_cases n (length (cp_unread s))); [by rewrite Nat.min_l|].
    by rewrite Nat.min_r, !drop_ge by lia. }
  destruct (WriteFrame (cp_stream s) FrameData (b :: data)) as [[err|] w] eqn:Ew.
  - exists frames. split; cbn; try done.
    + exists (b :: data). split; [|done]. rewrite <- Hd. f_equal. symmetry. exact Hu.
    + apply WriteFrame_grows in Ew as [t Hw]. exists t. by rewrite Hw, Hs, app_assoc.
    + unfold conpty_report. rewrite length_app. cbn. lia.
  - apply WriteFrame_ok in Ew as [Hlen Hw]. exists (frames ++ [mkFrame FrameData (b :: data)]). split; cbn; try done.
    + exists []. split; [|done]. unfold frame_data. rewrite bind_app. cbn. rewrite app_nil_r, <- app_assoc.
      rewrite <- Hd. f_equal. symmetry. exact Hu.
    + exists []. split; [|done]. rewrite Hw, Hs, fmap_app, join_app, app_nil_r, <- app_assoc. cbn. by rewrite app_nil_r.
    + apply Forall_app. split; [done|]. constructor; [|done]. split; [done|by left].
Qed.

Lemma conpty_step_ok w0 s frames ev :
  conpty_ok w0 s frames -> exists frames', conpty_ok w0 (conpty_step s ev) frames'.
Proof using WL.
  intros Hok. destruct ev as [data|err|count|err| |err| |err].
  3: by apply read_terminal_ok with (1 := Hok).
  all: exists frames; cbn [conpty_step].
  - destruct (cp_exited s); [done|]. eapply conpty_ok_quiet; [exact Hok|..]; cbn; try done. by exists data.
  - destruct (cp_exited s); [done|]. eapply conpty_ok_quiet; [exact Hok|..]; cbn; try done. exists []. by rewrite !app_nil_r.
  - destruct (cp_reading s) eqn:Er; [|done]. cbn [andb]. destruct (_ || _); [|done].
    eapply conpty_ok_quiet; [exact Hok|..]; cbn; rewrite ?Er; try done.
    + exists []. by rewrite !app_nil_r.
    + unfold conpty_report. rewrite length_app. cbn. lia.
  - destruct (cp_waiting s) eqn:Ew; [|done]. destruct (cp_exited s); [|done].
    eapply conpty_ok_quiet; [exact Hok|..]; cbn; rewrite ?Ew; try done.
    + exists []. by rewrite !app_nil_r.
    + unfold conpty_report. rewrite length_app. cbn. lia.
  - destruct (cp_feeding s) eqn:Ef; [|done].
    eapply conpty_ok_quiet; [exact Hok|..]; cbn; rewrite ?Ef; try done.
    + exists []. by rewrite !app_nil_r.
    + unfold conpty_report. rewrite length_app. cbn. lia.
  - destruct (cp_result s); [done|]. destruct (cp_errors s) as [|e rest] eqn:Ee; [done|].
    eapply conpty_ok_quiet; [exact Hok|..]; cbn; rewrite ?Ee; try done.
    + exists []. by rewrite !app_nil_r.
    + cbn. lia.
  - destruct (cp_result s); [done|]. eapply conpty_ok_quiet; [exact Hok|..]; cbn; try done. exists []. by rewrite !app_nil_r.
Qed.

Lemma conpty_run_ok w events : exists frames, conpty_ok w (conpty_run w events) frames.
Proof using WL.
  unfold conpty_run. assert (exists frames, conpty_ok w (conpty_init w) frames) as H by (exists []; apply conpty_ok_init).
  revert H. generalize (conpty_init w) as s. induction events as [|ev events IH]; intros s [frames H]; [by exists frames|].
  apply IH. by eapply conpty_step_ok.
Qed.

(** What a Windows shell writes reaches the client in order.  In every interleaving the stream carries data frames
    whose bytes are a prefix of what the shell wrote, and all of it once the terminal has been read to its end
    without a failed write; and the three goroutines always find room in the channel they report to. *)
Theorem windows_output w events :
  let s := conpty_run w events in
  exists frames tail, w_sink (cp_stream s) = w_sink w ++ mjoin (PtyFrames.encode <$> frames) ++ tail /\
    Forall frame_ok frames /\ frame_data frames `prefix_of` cp_written s /\
    (cp_failed s = false -> tail = [] /\ (cp_unread s = [] -> frame_data frames = cp_written s)) /\
    (length (cp_errors s) <= 3)%nat.
Proof using WL.
  intros s. destruct (conpty_run_ok w events) as [frames [(lost & Hd & Hl) (tail & Hs & Ht) Hf _ Hc]]. fold s in Hd, Hl, Hs, Ht, Hc.
  exists frames, tail. split_and!; [done|done|by eexists| |lia].
  intros E. split; [by apply Ht|]. intros Eu. by rewrite <- Hd, (Hl E), Eu, app_nil_r.
Qed.
End server_proofs.

(** The server returns when the shell's exit is reported first: what the shell wrote before it exited and the server had
    not read yet is lost, and the session ends without an error. *)
Theorem windows_output_lost :
  let s := conpty_run (mkSink [] []) [ShellWrites (bytes_of "done"); ShellExits None; WaitReturns; ReceiveError; ReadTerminal 4] in
  cp_result s = Some None /\ cp_written s = bytes_of "done" /\ w_sink (cp_stream s) = [].
Proof. vm_compute. by split_and!. Qed.
