(* ===== verification/ServiceCommands.v ===== *)
(** The service commands (internal/cli/service_command.go) over the three backends of internal/service: systemd, the
    Windows Service Control Manager, and the systems without one.

    The manager of Windows is seen through the calls that are made to it and what it answers; a backend is a class,
    as every system's file exports the same functions. *)
From S2P Require Export Service.
Local Open Scope Z_scope.

(** ** The backends' interface *)

Class ServiceBackend (B : Type) := {
  sb_Install : string -> file_contents -> B -> option error * B;
  sb_Uninstall : B -> option error * B;
  sb_Start : B -> option error * B;
  sb_Stop : B -> option error * B;
  sb_StatusText : B -> result string;
  sb_RunAsService : string -> file_contents -> B -> option error
}.

(** ** systemd *)

(** The machine, what its calls meet, and what [systemctl] answers to the other commands. *)
Record linux_host := mkLinuxHost {
  lh_env : service_env;
  lh_machine : systemd;
  lh_disable : option error;
  lh_start : option error;
  lh_stop : option error;
  lh_isActive : string
}.
Definition set_machine (h : linux_host) (m : systemd) : linux_host :=
  mkLinuxHost (lh_env h) m (lh_disable h) (lh_start h) (lh_stop h) (lh_isActive h).

(** [runSystemctl] with its arguments joined. *)
Definition runSystemctl (args output : string) (err : option error) : option error :=
  match err with Some err => Some (Wrapf "systemctl %s: %w: %s" [AStr args; AStr output] err) | None => None end.

Definition linux_Start (h : linux_host) : option error := runSystemctl "start p2p-netcat" (sv_output (lh_env h)) (lh_start h).
Definition linux_Stop (h : linux_host) : option error := runSystemctl "stop p2p-netcat" (sv_output (lh_env h)) (lh_stop h).
Definition linux_StatusText (h : linux_host) : result string :=
  match sd_unit (lh_machine h) with
  | None => Err (Errorf "unit %s is not installed" [AStr ServiceName])
  | Some _ => Ok (TrimSpace (lh_isActive h))
  end.
Definition linux_RunAsService : error :=
  ErrNew "run-service is a Windows-only entry point; use 'p2p-nc run --config <path>' directly on Linux".

#[export] Instance linux_backend : ServiceBackend linux_host := {|
  sb_Install path data h := let '(err, m) := Install (lh_env h) (lh_machine h) path data in (err, set_machine h m);
  sb_Uninstall h := let '(err, m) := Uninstall (lh_env h) (lh_machine h) (lh_disable h) in (err, set_machine h m);
  sb_Start h := (linux_Start h, h);
  sb_Stop h := (linux_Stop h, h);
  sb_StatusText := linux_StatusText;
  sb_RunAsService _ _ _ := Some linux_RunAsService
|}.

(** ** The Service Control Manager *)

Inductive scm_call :=
  | CConnect | CDisconnect
  | COpen | CCreate (exePath : string) (args : list string) | CClose
  | CQuery | CControlStop | CDelete | CStart.
#[export] Instance scm_call_eq_dec : EqDecision scm_call.
Proof. solve_decision. Defined.

Record windows_host := mkWindowsHost {
  wh_abs : string -> result string;
  wh_executable : result string;
  wh_connect : option error;
  wh_open : option error;
  wh_create : option error;
  wh_query : result svc_state;
  wh_control : option error;
  wh_delete : option error;
  wh_start : option error;
  wh_isService : result bool;
  wh_calls : list scm_call                (** the calls made so far *)
}.
Definition calls_made (h : windows_host) (calls : list scm_call) : windows_host :=
  mkWindowsHost (wh_abs h) (wh_executable h) (wh_connect h) (wh_open h) (wh_create h) (wh_query h) (wh_control h)
    (wh_delete h) (wh_start h) (wh_isService h) (wh_calls h ++ calls).

Definition errConnect (err : error) : error :=
  Wrapf "connect to the Service Control Manager (try running as Administrator): %w" [] err.

(** [Install] of service_windows.go: the error and the calls. *)
Definition windows_Install (h : windows_host) (configPath : string) (data : file_contents) : option error * list scm_call :=
  match loadConfig configPath data with
  | Err err => (Some (Wrapf "config is invalid, not installing the service: %w" [] err), [])
  | Ok _ =>
      match wh_abs h configPath with
      | Err err => (Some err, [])
      | Ok absoluteConfigPath =>
          match wh_executable h with
          | Err err => (Some (Wrapf "resolve the running executable's path: %w" [] err), [])
          | Ok exePath =>
              match wh_connect h with
              | Some err => (Some (errConnect err), [CConnect])
              | None =>
                  match wh_open h with
                  | None => (Some (Errorf "service %q is already installed (uninstall it first)" [AStr ServiceName]),
                      [CConnect; COpen; CClose; CDisconnect])
                  | Some _ =>
                      let create := CCreate exePath ["service"; "run-service"; "--config"; absoluteConfigPath] in
                      match wh_create h with
                      | Some err => (Some (Wrapf "create service: %w" [] err), [CConnect; COpen; create; CDisconnect])
                      | None => (None, [CConnect; COpen; create; CClose; CDisconnect])
                      end
                  end
              end
          end
      end
  end.

(** The other functions connect and open the service first. *)
Definition with_service {A} (h : windows_host) (body : result A * list scm_call) : result A * list scm_call :=
  match wh_connect h with
  | Some err => (Err (errConnect err), [CConnect])
  | None =>
      match wh_open h with
      | Some err => (Err (Wrapf "service %q is not installed: %w" [AStr ServiceName] err), [CConnect; COpen; CDisconnect])
      | None => (body.1, [CConnect; COpen] ++ body.2 ++ [CClose; CDisconnect])
      end
  end.
Definition failing (format : string) (err : option error) : result unit :=
  match err with Some err => Err (Wrapf format [] err) | None => Ok tt end.

Definition windows_Uninstall (h : windows_host) : result unit * list scm_call :=
  let stop := match wh_query h with Ok Stopped => [] | Ok _ => [CControlStop] | Err _ => [] end in
  with_service h (failing "delete service: %w" (wh_delete h), [CQuery] ++ stop ++ [CDelete]).
Definition windows_Start (h : windows_host) : result unit * list scm_call :=
  with_service h (failing "start service: %w" (wh_start h), [CStart]).
Definition windows_Stop (h : windows_host) : result unit * list scm_call :=
  with_service h
    (match wh_query h with
     | Err err => (Err (Wrapf "query service status: %w" [] err), [CQuery])
     | Ok Stopped => (Ok tt, [CQuery])
     | Ok _ => (failing "stop service: %w" (wh_control h), [CQuery; CControlStop])
     end).
Definition windows_StatusText (h : windows_host) : result string * list scm_call :=
  with_service h (map_err (Wrapf "query service status: %w" []) (stateText <$> wh_query h), [CQuery]).

Definition error_of {A} (r : result A) : option error := match r with Ok _ => None | Err err => Some err end.

#[export] Instance windows_backend : ServiceBackend windows_host := {|
  sb_Install path data h := let '(err, calls) := windows_Install h path data in (err, calls_made h calls);
  sb_Uninstall h := let '(r, calls) := windows_Uninstall h in (error_of r, calls_made h calls);
  sb_Start h := let '(r, calls) := windows_Start h in (error_of r, calls_made h calls);
  sb_Stop h := let '(r, calls) := windows_Stop h in (error_of r, calls_made h calls);
  sb_StatusText h := (windows_StatusText h).1;
  sb_RunAsService path data h := error_of (RunAsService (wh_isService h) path data)
|}.

(** ** Other systems *)

Definition errUnsupported : error :=
  ErrNew "service install/start/stop is not implemented on this OS yet (Windows and Linux/systemd are supported)".
#[export] Instance other_backend : ServiceBackend unit := {|
  sb_Install _ _ s := (Some errUnsupported, s);
  sb_Uninstall s := (Some errUnsupported, s);
  sb_Start s := (Some errUnsupported, s);
  sb_Stop s := (Some errUnsupported, s);
  sb_StatusText _ := Err errUnsupported;
  sb_RunAsService _ _ _ := Some errUnsupported
|}.

(** ** The commands *)

Section commands.
Context `{SB : !ServiceBackend B}.

(** What a command prints, or its error. *)
Definition printing (line : string) (outcome : option error * B) : result string * B :=
  match outcome with (Some err, s) => (Err err, s) | (None, s) => (Ok line, s) end.
Definition quoted_name : string := string_of [x22] +:+ ServiceName +:+ string_of [x22].

Definition newServiceInstallCommand (configPath : string) (data : file_contents) (s : B) : result string * B :=
  if bool_decide (configPath = "") then (Err (ErrNew "--config is required"), s)
  else printing ("service " +:+ quoted_name +:+ " installed (config: " +:+ configPath +:+ ")") (sb_Install configPath data s).
Definition newServiceUninstallCommand (s : B) : result string * B :=
  printing ("service " +:+ quoted_name +:+ " uninstalled") (sb_Uninstall s).
Definition newServiceStartCommand (s : B) : result string * B :=
  printing ("service " +:+ quoted_name +:+ " started") (sb_Start s).
Definition newServiceStopCommand (s : B) : result string * B :=
  printing ("service " +:+ quoted_name +:+ " stopped") (sb_Stop s).
Definition newServiceStatusCommand (s : B) : result string := sb_StatusText s.
Definition newServiceRunCommand (configPath : string) (data : file_contents) (s : B) : option error :=
  sb_RunAsService configPath data s.
End commands.

(** ** What the manager sees *)

Definition opens (c : scm_call) : bool := match c with COpen | CCreate _ _ => true | _ => false end.

(** The manager is left as it was found: every connection is closed by the last call, and every service handle
    that was obtained (all attempts to open or create but those that failed) is closed before. *)
Lemma with_service_balanced {A} h (body : result A * list scm_call) :
  Forall (fun c => c <> CConnect /\ c <> CDisconnect /\ c <> CClose /\ opens c = false) body.2 ->
  let calls := (with_service h body).2 in
  (wh_connect h = None -> last calls = Some CDisconnect) /\
  length (base.filter (fun c => c = CClose) calls) =
    (if bool_decide (wh_connect h = None /\ wh_open h = None) then 1 else 0)%nat.
Proof.
  intros Hb. unfold with_service. destruct (wh_connect h); [by rewrite bool_decide_false by naive_solver|].
  destruct (wh_open h); [by rewrite bool_decide_false by naive_solver|]. cbv zeta. cbn [snd].
  change ([CConnect; COpen] ++ body.2 ++ [CClose; CDisconnect]) with (CConnect :: COpen :: body.2 ++ [CClose; CDisconnect]).
  rewrite bool_decide_true by done. split.
  - intros _. by rewrite !last_cons, last_app.
  - rewrite !filter_cons, !decide_False, filter_app, length_app by done.
    assert (base.filter (fun c => c = CClose) body.2 = []) as ->; [|done].
    induction Hb as [|c l Hc _ IH]; [done|]. rewrite filter_cons, decide_False; [done|tauto].
Qed.

(** Installing on Windows: nothing reaches the manager unless the configuration is valid; success means that the
    service was not there and has been created to run this executable with the absolute path of that configuration; and the
    command that the manager then starts reads the file at that path. *)
Theorem windows_install h configPath data :
  (is_ok (loadConfig configPath data) = false -> (windows_Install h configPath data).2 = []) /\
  (windows_Install h configPath data = (None, (windows_Install h configPath data).2) ->
    exists cfg absolute exePath, data = Ok (Ok cfg) /\ config_ok cfg /\
      wh_abs h configPath = Ok absolute /\ wh_executable h = Ok exePath /\ wh_open h <> None /\
      (windows_Install h configPath data).2 =
        [CConnect; COpen; CCreate exePath ["service"; "run-service"; "--config"; absolute]; CClose; CDisconnect] /\
      (absolute <> "" -> RunAsService (Ok true) absolute data = Ok cfg)).
Proof.
  unfold windows_Install. split.
  - by destruct (loadConfig configPath data).
  - destruct (loadConfig configPath data) as [cfg|] eqn:El; [|done]. destruct (wh_abs h configPath) as [absolute|]; [|done].
    destruct (wh_executable h) as [exePath|]; [|done]. destruct (wh_connect h); [done|].
    destruct (wh_open h) as [err|]; [|done]. destruct (wh_create h); [done|]. intros _.
    pose proof El as El'. apply loadConfig_Ok in El as (_ & Hd & Hc). exists cfg, absolute, exePath. split_and!; try done.
    intros Ha. unfold RunAsService. cbn [map_err mbind result_bind negb]. unfold loadConfig in *.
    rewrite (bool_decide_false (absolute = "")) by done. by destruct (bool_decide (configPath = "")).
Qed.

(** A command reports success exactly when its backend does, and installing without a path asks nothing of it. *)
Lemma service_install_command `{!ServiceBackend B} configPath data (s : B) :
  (configPath = "" -> (newServiceInstallCommand configPath data s).2 = s /\ is_ok (newServiceInstallCommand configPath data s).1 = false) /\
  (configPath <> "" ->
    (is_ok (newServiceInstallCommand configPath data s).1 = true <-> (sb_Install configPath data s).1 = None) /\
    (newServiceInstallCommand configPath data s).2 = (sb_Install configPath data s).2).
Proof.
  unfold newServiceInstallCommand. split; [intros ->; by rewrite bool_decide_true|].
  intros Hp. rewrite bool_decide_false by done. by destruct (sb_Install configPath data s) as [[e|] s'].
Qed.
